(* ===== verification/_CoqProject ===== *)
-Q . S2P
Prelude.v
Golib.v
Request.v
Budget.v
CircuitBreaker.v
Auth.v
Provider.v
Routing.v
RouterThreads.v
RateLimit.v
Store.v
Memory.v
Gateway.v
GatewayProofs.v
GatewayEffects.v
GatewayDemo.v
Outbox.v
AuditTrail.v
Postgres.v
PostgresProofs.v
Regexp.v
Strconv.v
Flag.v
Config.v
Pool.v
Admin.v
AdminProofs.v
AdminDemo.v
Evaluators.v
EvalStore.v
Amqp.v
Jobs.v
JobsProofs.v
EvalProofs.v
Clients.v
Platform.v
PlatformProofs.v
PlatformDemo.v
Http.v
Mux.v
Observability.v
EvaluationApi.v
EvalDemo.v
OpenAI.v
MockApi.v
App.v
Serving.v
Api.v
ApiProofs.v
ApiDemo.v
GatewayMain.v
GatewayMainProofs.v
GatewayMainDemo.v
Processes.v
