(* ===== verification/Prelude.v ===== *)
(** * AegisAI platform: verification library

    AegisAI is a multi-tenant gateway in front of language-model providers. A
    client submits a chat request with an API key and an idempotency key; the
    gateway validates it, records it once, checks the tenant's policy, asks
    Redis for admission, reserves budget, routes it to a provider with failover,
    settles the cost and records the result. Facts about requests are written to
    an outbox table, relayed to Kafka, and applied to the audit and usage tables
    by a consumer. Completed requests can be submitted for evaluation: a service
    records the job and publishes a command to RabbitMQ, and workers run a suite
    of evaluators and record the result. Clients reach all this through HTTP
    handlers; administrators manage tenants and keys with a command. This library
    is a shallow embedding of all of it: Go functions are Rocq functions, Go state
    is explicit, Go errors are values.

    ** Files and the code they model

    - [Prelude]: notations, tactics, the sums and counts shared by all files.
    - [Golib]: what the program uses of Go: int64 wrap-around, [time], errors
      with [errors.Is]/[As] and [*provider.Error], the outcome type [res], the
      state-and-error monad [M] with its weakest preconditions [wp], byte
      strings, IEEE binary64, encoders, stable sort; and [IO], the outside world
      of one call (clock, random bytes, cancellation, failing exchanges).
    - [Request] (module [request]): [internal/request/request.go], the logical
      request's state machine, types and validation.
    - [Budget] (module [budget]): [internal/budget/budget.go], cost and
      admission arithmetic on int64.
    - [CircuitBreaker]: [internal/circuitbreaker/breaker.go], every method.
    - [Auth] (module [auth]): [internal/auth/apikey.go].
    - [Provider] (module [provider]): [internal/provider/provider.go] (the
      interface is the class [provider.Interface]) and the mock of [mock.go]; a
      stream is the tree of its calls to the emitter.
    - [Routing] (module [routing]): [internal/routing/router.go], the registry,
      eligibility, the four strategies, leases. [RouterThreads] (module
      [router_threads]): the same functions with their atomic operations as the
      steps of concurrent calls.
    - [RateLimit]: module [redis] is the interface to the Redis server (class
      [Server] with the [Laws] of its commands), module [ratelimit] is
      [internal/ratelimit/redis.go] with both Lua scripts, module [redis_model]
      a server that satisfies the laws.
    - [Store] (module [persistence]): [internal/persistence/store.go]; the class
      [Store] is the Go interface and the class [Spec] its contract towards the
      gateway. [Memory] (module [memory]): [internal/persistence/memory.go],
      every operation, and the instance of [Spec].
    - [Gateway] (modules [idempotency] and [gateway]):
      [internal/idempotency/hash.go] and [internal/gateway/service.go]; its
      theorems are in [GatewayProofs] and, those about its effects on the store, in
      [GatewayEffects]; concrete runs in [GatewayDemo].
    - [Outbox] (modules [events], [outbox], [kafka], [relay]):
      [internal/events/event.go], [internal/outbox/outbox.go],
      [internal/kafka/kafka.go]; module [relay_demo] holds concrete runs.
    - [AuditTrail] (modules [audit], [consumer], [pipeline]):
      [internal/persistence/audit.go], [internal/kafka/consumer.go] and their
      composition with the outbox; module [audit_demo] holds concrete runs.
    - [Postgres] (module [postgres]): [internal/persistence/postgres.go], every
      method of the store over the tables of [migrations/], and the instance of
      [persistence.Spec]; its theorems are in [PostgresProofs].
    - [Regexp] and [Strconv]: the Go library's runes, [strings.ToLower], regular
      expressions (leftmost-first, with lazy and counted repetitions), [Atoi],
      [ParseBool] and [ParseDuration].
    - [Flag] (modules [intlit], [flag]): the Go library's [flag] and [ParseInt].
    - [Config] (module [config]): [internal/config/config.go]. [Pool] (module
      [pool]): the connection pool of [internal/persistence/postgres.go].
    - [Admin] (module [admin]): [cmd/admin-cli/main.go] over the configuration
      tables; [view] is the database the store of [Postgres] sees on them. Its
      theorems are in [AdminProofs], concrete runs in [AdminDemo].
    - [Evaluators] (module [evaluation]): [internal/evaluation/evaluation.go],
      the class [Evaluator] and its four instances.
    - [EvalStore] (module [evalstore]): [internal/persistence/evaluation.go] over
      the evaluation tables and those of [Postgres].
    - [Amqp]: module [amqp] is the interface to the broker (class [Broker] with
      its [Laws]: exchanges, queues, dead-lettering, unacknowledged deliveries),
      module [broker_model] a broker that satisfies them.
    - [Jobs]: module [prog], programs whose steps are calls on the shared state;
      modules [rabbitmq] and [evaluationjob] are [internal/rabbitmq/rabbitmq.go]
      and [internal/evaluationjob/service.go]. [JobsProofs] (modules [pool] and
      [system]) is the system of services, workers, broker and database as a step
      relation; [EvalProofs] the database's part, [EvalDemo] concrete runs.
    - [Clients] and [Platform] (modules [clients], [platform]): both stores, any
      number of relays (with the loop of [internal/outbox/outbox.go] cut into its
      exchanges) and the audit consumer on one database and one topic, as a step
      relation; theorems in [PlatformProofs], concrete runs in [PlatformDemo].
    - [Http]: modules [http] (requests and response writers), [problem]
      ([pkg/problem/problem.go]), [respond] and [middleware]
      ([pkg/middleware/context.go]). [Mux] (modules [served], [mux]): the router
      of [net/http] (patterns, precedence, redirects, 404 and 405).
    - [Observability] (module [observability]): [internal/observability/], the
      logger, the collectors and the HTTP middleware.
    - [Api] (module [api]): [internal/api/gateway.go]; its theorems are in
      [ApiProofs], concrete runs in [ApiDemo]. [EvaluationApi] (modules
      [evaluation_api], [isolation]): [internal/api/evaluation.go]. [MockApi]
      (modules [mock_api], [mock_wire]): [internal/api/mock_provider.go].
    - [OpenAI] (modules [bufio], [openai]): [internal/provider/openai.go], an
      instance of [provider.Interface].
    - [App] (modules [health], [version], [app]): [internal/health/health.go],
      [internal/version/version.go] and [internal/app/run.go]. [Serving] (module
      [serving]): [Serve] again, with its goroutines, connections and signals as a
      step relation.
    - [GatewayMain] (module [gateway_main]): [cmd/gateway/main.go], what the
      configuration selects and the complete handler of the process; theorems in
      [GatewayMainProofs], concrete runs in [GatewayMainDemo].
    - [Processes] (modules [kafka_clients], [worker_pool], [processes]): the other
      commands, how every process ends, and the goroutines of [Worker.Run] as a
      step relation.

    ** What the theorems show

    - Gateway, proved against the interfaces (any store, any Redis server, any
      provider, any interference of other clients between two steps): one
      request calls at most [MaxAttempts] distinct permitted providers and fails
      over only on retryable failures before any output; a completed outcome is
      durably recorded, also when other clients create requests meanwhile (random
      identifiers do not repeat); its cost is within the amount that the ledger of
      its store shows reserved when usage is within the estimate; all leases are
      returned; a replay has no effects. Closed
      runs of [GatewayDemo] show the hypotheses can hold, and one shows a
      reservation left behind when a request is cancelled during its call.
    - Memory store: in any history requests follow the state machine and are
      frozen once final, budgets are never exceeded, creation is idempotent,
      tenants are isolated.
    - Postgres store: it keeps the same contract, so the gateway's theorems hold
      on it; the same life of a request under failing statements and commits,
      the transactional outbox (events agree with states), idempotent creation,
      exact budget admission, and a run in which spent budget is granted again
      before the audit consumer has recorded it.
    - Router: semaphores and counters equal the unreleased leases, selection is
      sound, complete and optimal, prices used for reservations dominate later
      ones, round robin is fair. At the grain of its atomic operations, with any
      number of calls in progress: capacity is never exceeded, every lease is
      permitted and belongs to one call, no call gets stuck between two steps (waiting
      for a mutex is not modelled), and [Select] run alone is the function of [Routing].
    - Rate limiter: the admission decision is exact; window and concurrency
      limits hold in every history, lost messages included, for limits below 2^53:
      the scripts compute in Lua's doubles (module [lua]), and a run shows a larger
      limit exceeded.
    - Circuit breaker: invariant, exact opening, half-open probes.
    - Request, Budget, Auth, Provider, streaming and backoff: functional
      specifications on every branch and int64 bounds.
    - Outbox and audit trail: published rows are on the topic whatever other
      relays do (rely/guarantee), an undisturbed batch drains what is due, the
      consumer's effects are exactly once under any redelivery.
    - Platform, in every interleaving of clients, evaluations, relays that die and
      are started again, and the consumer: the usage ledger holds the charge of each
      completed request at most once and nothing else, exactly those charges once
      everything is sent and processed. From every state in which a relay and the
      consumer are in their loops these loops can bring that about; a loop that an
      error of the database has ended does nothing more until its process is started
      again. Its laws are about JSON and UUIDs only, and
      [PlatformDemo] gives coders that satisfy them.
    - Evaluation system, in every interleaving of services and workers with
      crashes, redelivery and failing calls: no command the broker took is lost,
      attempts are bounded, results are final and unique; an undisturbed delivery
      is completed. Closed runs show where it falls short: a completed job that is
      reopened, and a confirmation read by the wrong publication, which is why the
      first of these needs its hypothesis.
    - Evaluators: the matcher finds a match exactly where the expression denotes
      one, so the detector of personal data is exact; masks disclose length, first
      and last character only; results are well formed.
    - HTTP API: every route is guarded by a live key with its scope; errors
      disclose their class only; a streamed answer has one of four shapes, as the
      service's outcome says; evaluation requests are confined to their tenant;
      identifiers are safe to echo.
    - OpenAI adapter: a stream is decoded exactly, and an error is retryable only
      before any output; what the mock service streams without a broken write, the
      adapter reads back as far as its size limits go.
    - Configuration: what [Load] returns is valid; the parsers are exact and stay
      within int64. App and Serving: the readiness endpoint, and that in every
      interleaving a shutdown closes the dependencies last, with no handler running
      unless draining failed.
    - Administration, in every history of commands with failing statements: the
      schema's constraints hold, key rows keep their owner, scopes and revocation,
      a revocation is final, an issued key is accepted until it is revoked (unless
      its random prefix has an underscore: then it never is), the seed makes a working tenant and is idempotent. Two theorems show what is
      missing: tenants made by the command cannot use any model, and an omitted
      budget flag lifts that limit.
    - The assembled gateway, through access log, both routers, identifiers,
      recovery, body limit, metrics and instrumentation: a request without a
      credential touches nothing, and every counted request is counted under "/";
      the development configuration starts and serves every configured model.
    - Worker processes: the pool is bounded, takes each delivery to its end and
      can always stop; a worker that lost its broker stays ready; relay and consumer
      give up at the first error of the database; a process exits with 0 exactly if
      it loaded, started and was shut down without an error.

    ** Modelling decisions

    A method that holds a mutex for its whole body (waiting for it is not a step), a Lua
    script, an SQL statement and an SQL transaction are one atomic step; that a statement or a
    commit fails stands for lost connections and violated constraints alike. In
    the gateway's model [Select] is one step; [RouterThreads] takes it apart. Between
    two steps of the gateway the environment may run any calls of other clients on
    the store and on the server. A remote call can fail before or after it took
    effect. [net/http]'s [Shutdown], [ListenAndServe] and [TimeoutHandler] are modelled
    as documented. Times are nanoseconds since year 1, so the zero [time.Time] is 0.
    Integers are [Z] with the int64 wrap-around written out where the code can
    reach it; Lua numbers are doubles, rounded where they are read and added. A Redis
    server and its clients share one clock. Maps with random iteration order are finite
    maps and no theorem depends on their order. SHA-256 and JSON coders are parameters; a theorem
    that needs a fact about them states it. Loops are structural; where a string
    function needs fuel, it is given the length of the string, and every step
    consumes a byte ([terms_fuel] for durations). A write to a connection is lost
    as a whole or not at all. Formatted error texts leave out their arguments; what the
    code inspects of an error (identity, category, retryability) is kept.

    ** Not modelled

    What is left of the code is constructors that only fill a struct, accessors, Go
    interfaces with a single use, and what only sets up or calls a library: the
    time-outs of servers and clients and the settings of the OpenAI adapter's HTTP
    transport, and [Close] of the Kafka clients. The text of JSON documents and log
    lines, the buckets of histograms and the spans of traces belong to libraries. *)

From Stdlib Require Export ZArith Lia.
From stdpp Require Export base tactics option list sets gmap strings fin_maps numbers.
From stdpp Require Export relations sorting.

#[export] Set Warnings "-clear-no-such-hyp".

Open Scope Z_scope.

(** ** Notations *)

Declare Scope aegis_scope.
Delimit Scope aegis_scope with aegis.
Open Scope aegis_scope.

(** Membership of a Go [map[string]struct{}]: the two-valued lookup. *)
Notation "x '∈?' s" := (bool_decide (x ∈ s)) (at level 70) : aegis_scope.
(** Go's string equality. *)
Notation "s '=s' t" := (String.eqb s t) (at level 70) : aegis_scope.

(** ** Tactics of the development *)

(** Turn the boolean tests of the code into propositions, in the context. *)
Ltac reflect_in H :=
  match type of H with
  | (_ =? _)%Z = true => apply Z.eqb_eq in H
  | (_ =? _)%Z = false => apply Z.eqb_neq in H
  | (_ <? _)%Z = true => apply Z.ltb_lt in H
  | (_ <? _)%Z = false => apply Z.ltb_ge in H
  | (_ <=? _)%Z = true => apply Z.leb_le in H
  | (_ <=? _)%Z = false => apply Z.leb_gt in H
  | String.eqb _ _ = true => apply String.eqb_eq in H
  | String.eqb _ _ = false => apply String.eqb_neq in H
  | (_ && _)%bool = true => apply andb_true_iff in H; destruct H as [? ?]
  | (_ || _)%bool = false => apply orb_false_iff in H; destruct H as [? ?]
  | (_ && _)%bool = false => apply andb_false_iff in H
  | (_ || _)%bool = true => apply orb_true_iff in H
  | negb _ = true => apply negb_true_iff in H
  | negb _ = false => apply negb_false_iff in H
  | bool_decide _ = true => apply bool_decide_eq_true in H
  | bool_decide _ = false => apply bool_decide_eq_false in H
  | Is_true _ => apply Is_true_eq_true in H
  end.

Ltac reflect :=
  repeat match goal with
         | H : _ = true |- _ => progress reflect_in H
         | H : _ = false |- _ => progress reflect_in H
         | H : Is_true _ |- _ => progress reflect_in H
         end.

(** Case on the scrutinee of every [if] and [match] of the goal. *)
Ltac split_ifs :=
  repeat match goal with
         | |- context [if ?b then _ else _] => destruct b eqn:?
         | |- context [match ?x with _ => _ end] => destruct x eqn:?
         end.

(** The same in a hypothesis, dropping the impossible branches. *)
Ltac split_ifs_in H :=
  repeat (match type of H with
          | context [if ?b then _ else _] => destruct b eqn:?
          | context [match ?x with _ => _ end] => destruct x eqn:?
          end; simplify_eq/=).

(** ** Lists *)

(** Sums of integers. *)
Definition zsum (l : list Z) : Z := foldr Z.add 0 l.

Lemma zsum_cons (x : Z) (l : list Z) : zsum (x :: l) = x + zsum l.
Proof. done. Qed.

Lemma zsum_app (l k : list Z) : zsum (l ++ k) = zsum l + zsum k.
Proof. induction l as [|x l IH]; simpl; [done|]. rewrite IH. lia. Qed.

#[global] Instance zsum_Permutation : Proper ((≡ₚ) ==> (=)) zsum.
Proof. intros l k H. induction H; rewrite ?zsum_cons in *; lia. Qed.

Lemma zsum_nonneg (l : list Z) : Forall (λ x, 0 <= x) l → 0 <= zsum l.
Proof. induction 1; simpl; lia. Qed.

Lemma zsum_filter_le {A} (f : A → Z) (Q : A → bool) (l : list A) :
  Forall (λ x, 0 <= f x) l → zsum (f <$> List.filter Q l) <= zsum (f <$> l).
Proof.
  induction 1 as [|x l Hx Hl IH]; [done|]. cbn [List.filter].
  rewrite (fmap_cons f x l). destruct (Q x); rewrite ?fmap_cons, !zsum_cons; lia.
Qed.

(** Counting. *)
Definition count {A} (Q : A → bool) (l : list A) : Z := Z.of_nat (length (List.filter Q l)).

Lemma count_app {A} (Q : A → bool) (l k : list A) : count Q (l ++ k) = count Q l + count Q k.
Proof. unfold count. rewrite List.filter_app, length_app. lia. Qed.

Lemma count_cons {A} (Q : A → bool) (x : A) (l : list A) :
  count Q (x :: l) = (if Q x then 1 else 0) + count Q l.
Proof. unfold count. simpl. destruct (Q x); simpl; lia. Qed.

Lemma count_nonneg {A} (Q : A → bool) (l : list A) : 0 <= count Q l.
Proof. unfold count. lia. Qed.

Lemma count_insert {A} (Q : A → bool) (l : list A) (i : nat) (x y : A) :
  l !! i = Some x →
  count Q (<[i := y]> l) = count Q l - (if Q x then 1 else 0) + (if Q y then 1 else 0).
Proof.
  intros Hi. rewrite <-(take_drop_middle l i x Hi) at 2.
  rewrite insert_take_drop by eauto using lookup_lt_Some.
  rewrite !count_app, !count_cons. lia.
Qed.

Lemma count_member {A} (Q : A → bool) (l : list A) (i : nat) (x : A) :
  l !! i = Some x → (if Q x then 1 else 0) <= count Q l.
Proof.
  intros Hi. rewrite <-(take_drop_middle l i x Hi), count_app, count_cons.
  pose proof (count_nonneg Q (take i l)). pose proof (count_nonneg Q (drop (S i) l)). lia.
Qed.

Lemma count_fmap {A B} (f : A → B) (Q : B → bool) (l : list A) : count Q (f <$> l) = count (Q ∘ f) l.
Proof. induction l as [|x l IH]; [done|]. rewrite fmap_cons, !count_cons, IH. done. Qed.

Lemma count_one {A} (Q : A → bool) (l : list A) (x y : A) :
  count Q l = 1 → x ∈ l → y ∈ l → Q x = true → Q y = true → x = y.
Proof.
  unfold count. intros Hc Hx Hy Qx Qy. assert (x ∈ List.filter Q l ∧ y ∈ List.filter Q l) as [Fx Fy].
  { rewrite !list_elem_of_In in *. by rewrite !filter_In. }
  destruct (List.filter Q l) as [|z [|? ?]]; simpl in Hc; [lia| |lia]. set_solver.
Qed.

Lemma count_pos {A} (Q : A → bool) (l : list A) (x : A) : x ∈ l → Q x = true → 1 <= count Q l.
Proof. intros [i Hi]%list_elem_of_lookup_1 Qx. pose proof (count_member Q l i x Hi) as Hm. by rewrite Qx in Hm. Qed.

#[global] Instance count_Permutation {A} (Q : A → bool) : Proper ((≡ₚ) ==> (=)) (count Q).
Proof.
  intros l k H. induction H; rewrite ?count_cons in *; try done; lia.
Qed.

(** ** Strings *)

Lemma string_app_nil_r (s : string) : s +:+ "" = s.
Proof. induction s as [|c s IH]; [done|exact (f_equal (String c) IH)]. Qed.

Lemma string_app_assoc (s t u : string) : s +:+ t +:+ u = (s +:+ t) +:+ u.
Proof. induction s as [|c s IH]; [done|exact (f_equal (String c) IH)]. Qed.
