(* ===== verification/Golib.v ===== *)
(** * Golib: what the code uses of the Go language and its standard library

    Machine integers, [time.Time] and [time.Duration], errors with their
    [Unwrap] chains, the outcome of a call (value, error or panic), byte
    strings, [float64], [sort.SliceStable], hexadecimal and base64 encoders. *)

From Stdlib Require Import Ascii.
From Stdlib Require Import Floats.SpecFloat.
From S2P Require Import Prelude.

(** ** 64-bit integers

    The services are built for 64-bit targets: [int] is [int64]. *)

Definition int64_min : Z := - 2 ^ 63.
Definition int64_max : Z := 2 ^ 63 - 1.
Definition in_int64 (x : Z) : Prop := int64_min <= x <= int64_max.
#[global] Instance in_int64_dec (x : Z) : Decision (in_int64 x).
Proof. unfold in_int64. apply _. Defined.

(** Two's complement wrap-around of [+], [-] and [*] on [int64]. *)
Definition wrap64 (x : Z) : Z := (x + 2 ^ 63) mod 2 ^ 64 - 2 ^ 63.
(** Wrap-around of [uint64]. *)
Definition wrapu64 (x : Z) : Z := x mod 2 ^ 64.

Lemma wrap64_id (x : Z) : in_int64 x → wrap64 x = x.
Proof.
  unfold in_int64, int64_min, int64_max, wrap64. intros H.
  rewrite Z.mod_small; lia.
Qed.

Lemma wrap64_range (x : Z) : in_int64 (wrap64 x).
Proof.
  unfold in_int64, int64_min, int64_max, wrap64.
  pose proof (Z.mod_pos_bound (x + 2 ^ 63) (2 ^ 64) ltac:(lia)). lia.
Qed.

(** ** Time

    A [time.Time] is the number of nanoseconds since the zero [Time]
    (January 1 of year 1, UTC); a [time.Duration] is an [int64] number of
    nanoseconds. *)

Module time.
Definition Time : Type := Z.
Definition Duration : Type := Z.
Definition Nanosecond : Duration := 1.
Definition Millisecond : Duration := 1000000.
Definition Second : Duration := 1000000000.
Definition Minute : Duration := 60000000000.
Definition Hour : Duration := 3600000000000.

Definition IsZero (t : Time) : bool := t =? 0.
Definition After (t u : Time) : bool := u <? t.
Definition Before (t u : Time) : bool := t <? u.
Definition Add (t : Time) (d : Duration) : Time := t + d.
(** [Sub] saturates at the bounds of [Duration]. *)
Definition Sub (t u : Time) : Duration := Z.max int64_min (Z.min int64_max (t - u)).
Definition Milliseconds (d : Duration) : Z := Z.quot d Millisecond.
(** [int64(d.Seconds())], whole seconds. *)
Definition WholeSeconds (d : Duration) : Z := Z.quot d Second.
(** The Unix epoch on this scale: 1970-01-01 is day 719162 of year 1's calendar. *)
Definition epoch : Time := 719162 * 86400 * Second.
Definition Unix (t : Time) : Z := (t - epoch) / Second.

(** *** The proleptic Gregorian calendar, in UTC *)
Definition Day : Duration := 86400000000000.
(** Years start in March here: [year_day] counts from March 1, in an era of 400
    years of 146097 days that starts on March 1 of year 0, 306 days before the
    zero [Time]. *)
Definition era_day (t : Time) : Z := (t / Day + 306) mod 146097.
Definition era_year (doe : Z) : Z := (doe - doe / 1460 + doe / 36524 - doe / 146096) / 365.
Definition year_day (doe : Z) : Z :=
  let y := era_year doe in doe - (365 * y + y / 4 - y / 100).
(** [t.Day()], from 1. *)
Definition DayOfMonth (t : Time) : Z :=
  let doy := year_day (era_day t) in doy - (153 * ((5 * doy + 2) / 153) + 2) / 5 + 1.
(** [time.Date(y, m, d, 0, ...)] and [time.Date(y, m, 1, 0, ...)] of the day [t]
    falls on. *)
Definition StartOfDay (t : Time) : Time := t / Day * Day.
Definition StartOfMonth (t : Time) : Time := StartOfDay t - (DayOfMonth t - 1) * Day.
End time.

(** ** Errors

    An error value is what [errors.Is], [errors.As] and [Error()] can see of
    it. A package-level [errors.New] variable is a [Sentinel], compared by
    identity; a call-site [errors.New] or [fmt.Errorf] without [%w] is [New];
    [fmt.Errorf] with a trailing [: %w] is [Wrap]. [ProviderError] is
    [*provider.Error]; [NetError] is a transport error implementing
    [net.Error]. *)

#[local] Set Warnings "-register-all".
Inductive error : Type :=
| Sentinel (id text : string)
| New (text : string)
| Wrap (prefix : string) (inner : error)
| ProviderError (Provider Category : string) (Status : Z) (Retryable Partial : bool)
    (Cause : option error)
| NetError (text : string) (timeout : bool) (inner : option error).

Module errors.
(** The [Unwrap] chain, the error itself first. *)
Fixpoint chain (e : error) : list error :=
  e :: match e with
       | Sentinel _ _ | New _ => []
       | Wrap _ inner => chain inner
       | ProviderError _ _ _ _ _ cause | NetError _ _ cause =>
         match cause with Some c => chain c | None => [] end
       end.

Definition same_sentinel (target e : error) : bool :=
  match target, e with
  | Sentinel i _, Sentinel j _ => i =s j
  | _, _ => false
  end.

(** [errors.Is(err, target)] for a package-level [target]. *)
Definition Is (e target : error) : bool := existsb (same_sentinel target) (chain e).

Definition is_provider (e : error) : bool :=
  match e with ProviderError _ _ _ _ _ _ => true | _ => false end.

(** [errors.As] with a [*provider.Error] target. *)
Definition AsProvider (e : error) : option error := List.find is_provider (chain e).

(** [Error()]. *)
Fixpoint Error (e : error) : string :=
  match e with
  | Sentinel _ text | New text | NetError text _ _ => text
  | Wrap prefix inner => prefix +:+ ": " +:+ Error inner
  | ProviderError p c _ _ _ _ => "provider " +:+ p +:+ ": " +:+ c
  end.
End errors.

Module context.
Definition Canceled : error := Sentinel "context.Canceled" "context canceled".
Definition DeadlineExceeded : error :=
  Sentinel "context.DeadlineExceeded" "context deadline exceeded".
End context.

Module net.
(** [errors.As] with a [net.Error] target, then [Timeout()]: the deadline
    error of [context] implements the interface too. *)
Definition timeout_of (e : error) : option bool :=
  match e with
  | NetError _ t _ => Some t
  | Sentinel _ _ => if errors.same_sentinel context.DeadlineExceeded e then Some true else None
  | _ => None
  end.
Definition AsTimeout (e : error) : option bool := head (omap timeout_of (errors.chain e)).
End net.

(** ** Outcome of a call

    A value, an error, or a panic; receiving from an empty channel nobody
    sends on (a goroutine blocked forever) is reported as a panic too. *)

Inductive res (A : Type) : Type :=
| Ok (a : A)
| Err (e : error)
| Panic (why : string).
Arguments Ok {A} a.
Arguments Err {A} e.
Arguments Panic {A} why.

#[global] Instance res_ret : MRet res := @Ok.
#[global] Instance res_bind : MBind res := λ A B f r,
  match r with Ok a => f a | Err e => Err e | Panic w => Panic w end.

Definition is_ok {A} (r : res A) : bool := match r with Ok _ => true | _ => false end.
Definition is_panic {A} (r : res A) : bool := match r with Panic _ => true | _ => false end.

(** ** Stateful calls

    [M S A]: a call that may change the state [S] and returns, fails or
    panics. The state changes made before a failure stay. *)

Definition M (S A : Type) : Type := S → res A * S.
#[global] Instance M_ret {S} : MRet (M S) := λ A a s, (Ok a, s).
#[global] Instance M_bind {S} : MBind (M S) := λ A B f m s,
  match m s with
  | (Ok a, s) => f a s
  | (Err e, s) => (Err e, s)
  | (Panic w, s) => (Panic w, s)
  end.

(** A step given by what it does to the state. *)
Definition act {S A} (f : S → res A * S) : M S A := f.
Definition fail {S A} (e : error) : M S A := λ s, (Err e, s).
Definition lift {S A} (r : res A) : M S A := λ s, (r, s).

(** The error of a call as a value: [x, err := f()]. A panic still unwinds. *)
Definition caught {S A} (m : M S A) : M S (A + error) := λ s,
  match m s with
  | (Ok a, s) => (Ok (inl a), s)
  | (Err e, s) => (Ok (inr e), s)
  | (Panic w, s) => (Panic w, s)
  end.

(** [_ = f()]: the error is dropped. *)
Definition ignore {S A} (m : M S A) : M S unit := λ s,
  match m s with
  | (Panic w, s) => (Panic w, s)
  | (_, s) => (Ok (), s)
  end.

(** *** Reasoning about stateful calls

    [wp m Q s]: running [m] from [s] ends with an outcome and a state that
    satisfy [Q], whatever the outcome is. *)

Definition wp {S A} (m : M S A) (Q : res A → S → Prop) (s : S) : Prop := Q (m s).1 (m s).2.

Section Wp.
Context {S : Type}.

Lemma wp_mono {A} (m : M S A) (Q Q' : res A → S → Prop) (s : S) :
  wp m Q s → (∀ out s', Q out s' → Q' out s') → wp m Q' s.
Proof. unfold wp. auto. Qed.

Lemma wp_ret {A} (a : A) (Q : res A → S → Prop) (s : S) : Q (Ok a) s → wp (mret a) Q s.
Proof. done. Qed.

Lemma wp_fail {A} (e : error) (Q : res A → S → Prop) (s : S) : Q (Err e) s → wp (fail e) Q s.
Proof. done. Qed.

Lemma wp_lift {A} (r : res A) (Q : res A → S → Prop) (s : S) : Q r s → wp (lift r) Q s.
Proof. done. Qed.

Lemma wp_bind {A B} (m : M S A) (f : A → M S B) (Q : res B → S → Prop) (s : S) :
  wp m (λ out s', match out with
                  | Ok a => wp (f a) Q s'
                  | Err e => Q (Err e) s'
                  | Panic w => Q (Panic w) s'
                  end) s →
  wp (m ≫= f) Q s.
Proof. unfold wp, mbind, M_bind. destruct (m s) as [[] s']; done. Qed.

Lemma wp_caught {A} (m : M S A) (Q : res (A + error) → S → Prop) (s : S) :
  wp m (λ out s', match out with
                  | Ok a => Q (Ok (inl a)) s'
                  | Err e => Q (Ok (inr e)) s'
                  | Panic w => Q (Panic w) s'
                  end) s →
  wp (caught m) Q s.
Proof. unfold wp, caught. destruct (m s) as [[] s']; done. Qed.

Lemma wp_ignore {A} (m : M S A) (Q : res unit → S → Prop) (s : S) :
  wp m (λ out s', match out with Panic w => Q (Panic w) s' | _ => Q (Ok ()) s' end) s →
  wp (ignore m) Q s.
Proof. unfold wp, ignore. destruct (m s) as [[] s']; done. Qed.

Lemma wp_both {A} (m : M S A) (Q1 Q2 : res A → S → Prop) (s : S) :
  wp m Q1 s → wp m (λ out s', Q1 out s' → Q2 out s') s → wp m Q2 s.
Proof. unfold wp. auto. Qed.
End Wp.

(** ** Byte strings *)

Module strings.
Definition len (s : string) : Z := Z.of_nat (String.length s).

Definition byte (c : ascii) : Z := Z.of_N (N_of_ascii c).
Definition chr (n : Z) : ascii := ascii_of_N (Z.to_N n).

(** The UTF-8 encodings of the white-space characters of [unicode.IsSpace]:
    an encoding at the start of the text, with its length in bytes. *)
Definition space_width (b0 b1 b2 : Z) : nat :=
  if ((9 <=? b0) && (b0 <=? 13)) || (b0 =? 32) then 1%nat
  else if (b0 =? 194) && ((b1 =? 133) || (b1 =? 160)) then 2%nat
  else if (b0 =? 225) && (b1 =? 154) && (b2 =? 128) then 3%nat
  else if (b0 =? 226) && (b1 =? 128) &&
          (((128 <=? b2) && (b2 <=? 138)) || (b2 =? 168) || (b2 =? 169) || (b2 =? 175))
  then 3%nat
  else if (b0 =? 226) && (b1 =? 129) && (b2 =? 159) then 3%nat
  else if (b0 =? 227) && (b1 =? 128) && (b2 =? 128) then 3%nat
  else 0%nat.

Definition nthb (l : list ascii) (i : nat) : Z :=
  match l !! i with Some c => byte c | None => 0 end.

Fixpoint trim_left (fuel : nat) (l : list ascii) : list ascii :=
  match fuel with
  | O => l
  | S fuel =>
    match space_width (nthb l 0) (nthb l 1) (nthb l 2) with
    | O => l
    | w => trim_left fuel (drop w l)
    end
  end.

(** The same on the reversed text, for the trailing white space. *)
Fixpoint trim_right (fuel : nat) (rl : list ascii) : list ascii :=
  match fuel with
  | O => rl
  | S fuel =>
    let b0 := nthb rl 0 in let b1 := nthb rl 1 in let b2 := nthb rl 2 in
    match space_width b0 (-1) (-1), space_width b1 b0 (-1), space_width b2 b1 b0 with
    | 1%nat, _, _ => trim_right fuel (drop 1 rl)
    | _, 2%nat, _ => trim_right fuel (drop 2 rl)
    | _, _, 3%nat => trim_right fuel (drop 3 rl)
    | _, _, _ => rl
    end
  end.

Definition chars (s : string) : list ascii := String.list_ascii_of_string s.
Definition of_chars (l : list ascii) : string := String.string_of_list_ascii l.

Definition TrimSpace (s : string) : string :=
  let l := trim_left (String.length s) (chars s) in
  of_chars (rev (trim_right (length l) (rev l))).

(** [strings.SplitN(s, sep, n)] for a one-byte separator and [n > 0]. *)
Fixpoint splitN_aux (sep : ascii) (n : nat) (acc l : list ascii) : list (list ascii) :=
  match l with
  | [] => [rev acc]
  | c :: l' =>
    match n with
    | S (S m) => if Ascii.eqb c sep then rev acc :: splitN_aux sep (S m) [] l'
                 else splitN_aux sep n (c :: acc) l'
    | _ => splitN_aux sep n (c :: acc) l'
    end
  end.
Definition SplitN (s : string) (sep : ascii) (n : nat) : list string :=
  map of_chars (splitN_aux sep n [] (chars s)).

(** [strings.Fields]: the maximal runs of non-space bytes. *)
Fixpoint fields_aux (fuel : nat) (l cur : list ascii) : list (list ascii) :=
  let flush := match cur with [] => [] | _ => [rev cur] end in
  match fuel with
  | O => flush
  | S fuel =>
    match l with
    | [] => flush
    | c :: l' =>
      match space_width (nthb l 0) (nthb l 1) (nthb l 2) with
      | O => fields_aux fuel l' (c :: cur)
      | w => flush ++ fields_aux fuel (drop w l) []
      end
    end
  end.
Definition Fields (s : string) : list string :=
  map of_chars (fields_aux (S (String.length s)) (chars s) []).

Definition HasPrefix (s p : string) : bool := String.prefix p s.
End strings.

(** ** float64: IEEE 754 binary64 through the specification floats *)

Module float64.
Definition t : Type := spec_float.
Definition prec : Z := 53.
Definition emax : Z := 1024.
Definition of_int (n : Z) : t := binary_normalize prec emax n 0 false.
Definition zero : t := S754_zero false.
Definition add (x y : t) : t := SFadd prec emax x y.
Definition mul (x y : t) : t := SFmul prec emax x y.
Definition lt (x y : t) : bool := SFltb x y.
Definition eq (x y : t) : bool := SFeqb x y.
(** The constants of the code: the nearest doubles. *)
Definition c0_2 : t := S754_finite false 7205759403792794 (-55).
Definition c0_8 : t := S754_finite false 7205759403792794 (-53).
Definition c1e15 : t := of_int 1000000000000000.
Definition is_nan (x : t) : bool := match x with S754_nan => true | _ => false end.

(** The place of a number in the order: class, exponent, mantissa. *)
Definition key (x : t) : Z * Z * Z :=
  match x with
  | S754_zero _ => (0, 0, 0)
  | S754_infinity true => (-2, 0, 0)
  | S754_infinity false => (2, 0, 0)
  | S754_finite true m e => (-1, - e, - Zpos m)
  | S754_finite false m e => (1, e, Zpos m)
  | S754_nan => (3, 0, 0)
  end.

Definition key_lt (k l : Z * Z * Z) : Prop :=
  k.1.1 < l.1.1 ∨ (k.1.1 = l.1.1 ∧ (k.1.2 < l.1.2 ∨ (k.1.2 = l.1.2 ∧ k.2 < l.2))).

Lemma lt_key (x y : t) : is_nan x = false → is_nan y = false →
  lt x y = true ↔ key_lt (key x) (key y).
Proof.
  unfold lt, SFltb, SFcompare, key_lt.
  destruct x as [[]|[]| |[] m e], y as [[]|[]| |[] m' e']; simpl; try done; intros _ _;
    try (split; [done|lia]); try (split; [lia|done]).
  all: change (Pos.compare_cont Eq m m') with (m ?= m')%positive;
    destruct (Z.compare_spec e e'), (Pos.compare_spec m m'); simpl; split; done || lia.
Qed.

(** On numbers [<] is a strict weak order. *)
Lemma lt_asym (x y : t) : is_nan x = false → is_nan y = false →
  lt x y = true → lt y x = false.
Proof.
  intros Hx Hy H. apply not_true_iff_false. rewrite lt_key in * by done. unfold key_lt in *. lia.
Qed.

Lemma lt_weak (x y z : t) : is_nan x = false → is_nan y = false → is_nan z = false →
  lt y x = false → lt z y = false → lt z x = false.
Proof.
  intros Hx Hy Hz. rewrite <-!not_true_iff_false, !lt_key by done. unfold key_lt. lia.
Qed.

(** The non-negative numbers, infinity included. *)
Definition pos (x : t) : Prop :=
  match x with
  | S754_zero s | S754_infinity s | S754_finite s _ _ => s = false
  | S754_nan => False
  end.

Lemma pos_not_nan (x : t) : pos x → is_nan x = false.
Proof. by destruct x. Qed.

Lemma iter_pos_shr_1 (n : positive) (r : shr_record) :
  0 <= shr_m r → 0 <= shr_m (SpecFloat.iter_pos shr_1 n r).
Proof.
  assert (∀ r, 0 <= shr_m r → 0 <= shr_m (shr_1 r)) as H1.
  { intros [m rr ss]. simpl. by destruct m as [|[]|[]]. }
  revert r. induction n as [n IH|n IH|]; intros r Hr; simpl; auto.
Qed.

Lemma shr_fexp_nonneg (m e : Z) (l : location) :
  0 <= m → 0 <= shr_m (shr_fexp prec emax m e l).1.
Proof.
  intros Hm. unfold shr_fexp, shr.
  assert (0 <= shr_m (shr_record_of_loc m l)) by by destruct l as [|[]].
  destruct (_ - e); simpl; auto using iter_pos_shr_1.
Qed.

Lemma round_aux_pos (m e : Z) (l : location) :
  0 <= m → pos (binary_round_aux prec emax false m e l).
Proof.
  intros Hm. unfold binary_round_aux.
  pose proof (shr_fexp_nonneg m e l Hm) as H1. destruct (shr_fexp _ _ m e l) as [r e']. simpl in H1.
  assert (0 <= round_nearest_even (shr_m r) (loc_of_shr_record r)) as H2.
  { destruct (loc_of_shr_record r) as [|[]]; simpl; try destruct (Z.even _); lia. }
  pose proof (shr_fexp_nonneg _ e' loc_Exact H2) as H3.
  destruct (shr_fexp _ _ _ e' loc_Exact) as [r' e'']. simpl in H3.
  destruct (shr_m r'); simpl; [done| |lia]. by destruct (_ <=? _).
Qed.

Lemma normalize_pos (m e : Z) : 0 <= m → pos (binary_normalize prec emax m e false).
Proof.
  intros Hm. destruct m as [|m|m]; simpl; [done| |lia]. unfold binary_round.
  destruct (shl_align _ _ _). by apply round_aux_pos.
Qed.

Lemma of_int_pos (n : Z) : 0 <= n → pos (of_int n).
Proof. apply normalize_pos. Qed.

Lemma add_pos (x y : t) : pos x → pos y → pos (add x y).
Proof.
  destruct x as [[]|[]| |[] m e], y as [[]|[]| |[] m' e']; try done. intros _ _.
  unfold add, SFadd. by apply normalize_pos.
Qed.

(** A positive finite factor never meets [0 * infinity]. *)
Lemma mul_pos (m : positive) (e : Z) (y : t) : pos y → pos (mul (S754_finite false m e) y).
Proof.
  destruct y as [[]|[]| |[] m' e']; try done. intros _. unfold mul, SFmul. by apply round_aux_pos.
Qed.

#[global] Arguments of_int _ : simpl never.
#[global] Arguments add _ _ : simpl never.
#[global] Arguments mul _ _ : simpl never.
#[global] Arguments lt _ _ : simpl never.
#[global] Arguments eq _ _ : simpl never.
End float64.

(** *** Facts about the splitter *)

Lemma chars_of_chars (l : list ascii) : strings.chars (strings.of_chars l) = l.
Proof. apply String.list_ascii_of_string_of_list_ascii. Qed.
Lemma of_chars_chars (s : string) : strings.of_chars (strings.chars s) = s.
Proof. apply String.string_of_list_ascii_of_string. Qed.

#[global] Instance of_chars_inj : Inj (=) (=) strings.of_chars.
Proof. intros l k H. by rewrite <-(chars_of_chars l), H, chars_of_chars. Qed.

Lemma chars_app (s t : string) : strings.chars (s +:+ t) = strings.chars s ++ strings.chars t.
Proof. unfold strings.chars. induction s as [|c s IH]; simpl; [done|]. by rewrite IH. Qed.

Lemma length_chars (s : string) : length (strings.chars s) = String.length s.
Proof. unfold strings.chars. induction s as [|c s IH]; simpl; [done|]. by rewrite IH. Qed.

Lemma len_of_chars (l : list ascii) : strings.len (strings.of_chars l) = Z.of_nat (length l).
Proof. unfold strings.len. by rewrite <-length_chars, chars_of_chars. Qed.

Lemma splitN_aux_one (sep : ascii) (acc l : list ascii) :
  strings.splitN_aux sep 1 acc l = [rev acc ++ l].
Proof.
  revert acc. induction l as [|c l IH]; intros acc; simpl; [by rewrite app_nil_r|].
  rewrite IH. simpl. by rewrite <-app_assoc.
Qed.

Lemma splitN_aux_none (sep : ascii) (n : nat) (acc l : list ascii) :
  sep ∉ l → strings.splitN_aux sep n acc l = [rev acc ++ l].
Proof.
  revert acc. induction l as [|c l IH]; intros acc Hl; simpl; [by rewrite app_nil_r|].
  apply not_elem_of_cons in Hl as [Hc Hl].
  assert (Ascii.eqb c sep = false) as -> by (apply Ascii.eqb_neq; congruence).
  rewrite IH by done. simpl. rewrite <-app_assoc. by destruct n as [|[]].
Qed.

Lemma splitN_aux_first (sep : ascii) (m : nat) (acc a b : list ascii) :
  sep ∉ a →
  strings.splitN_aux sep (S (S m)) acc (a ++ sep :: b) =
  (rev acc ++ a) :: strings.splitN_aux sep (S m) [] b.
Proof.
  revert acc. induction a as [|c a IH]; intros acc Ha; cbn [app strings.splitN_aux].
  { by rewrite Ascii.eqb_refl, app_nil_r. }
  apply not_elem_of_cons in Ha as [Hc Ha].
  assert (Ascii.eqb c sep = false) as -> by (apply Ascii.eqb_neq; congruence).
  rewrite IH by done. simpl. by rewrite <-app_assoc.
Qed.

(** A text has no separator, or a first one. *)
Lemma first_sep (sep : ascii) (l : list ascii) :
  sep ∉ l ∨ ∃ a b, l = a ++ sep :: b ∧ sep ∉ a.
Proof.
  destruct (decide (sep ∈ l)) as [H|H]; [right|by left].
  apply list_elem_of_split_l in H as (a & b & -> & Ha). eauto.
Qed.

(** ** Decoded JSON values ([any] after [encoding/json]) *)

Inductive json : Type :=
| JNull
| JBool (b : bool)
| JNumber (x : float64.t)
| JString (s : string)
| JArray (l : list json)
| JObject (fields : list (string * json)).

(** A string after [json.Marshal] and [json.Unmarshal]: every byte that does
    not start a valid UTF-8 sequence becomes U+FFFD. *)
Module utf8.
Definition cont (b : Z) : bool := (128 <=? b) && (b <=? 191).

(** The length of the valid sequence a text starts with, 0 if there is none. *)
Definition valid_len (b0 b1 b2 b3 : Z) : nat :=
  if b0 <? 128 then 1%nat
  else if (194 <=? b0) && (b0 <=? 223) && cont b1 then 2%nat
  else if (224 <=? b0) && (b0 <=? 239) && cont b1 && cont b2 &&
          negb ((b0 =? 224) && (b1 <? 160)) && negb ((b0 =? 237) && (159 <? b1)) then 3%nat
  else if (240 <=? b0) && (b0 <=? 244) && cont b1 && cont b2 && cont b3 &&
          negb ((b0 =? 240) && (b1 <? 144)) && negb ((b0 =? 244) && (143 <? b1)) then 4%nat
  else 0%nat.

Definition replacement : list ascii := [strings.chr 239; strings.chr 191; strings.chr 189].

Fixpoint coerce_aux (fuel : nat) (l : list ascii) : list ascii :=
  match fuel, l with
  | S fuel, c :: l' =>
    match valid_len (strings.nthb l 0) (strings.nthb l 1) (strings.nthb l 2) (strings.nthb l 3) with
    | O => replacement ++ coerce_aux fuel l'
    | n => take n l ++ coerce_aux fuel (drop n l)
    end
  | _, _ => []
  end.
Definition coerce (s : string) : string :=
  strings.of_chars (coerce_aux (String.length s) (strings.chars s)).
End utf8.

(** ** crypto/subtle *)

Module subtle.
(** The accumulator loop [v |= x[i] ^ y[i]]. *)
Fixpoint diff (x y : list ascii) (v : Z) : Z :=
  match x, y with
  | a :: x, b :: y => diff x y (Z.lor v (Z.lxor (strings.byte a) (strings.byte b)))
  | _, _ => v
  end.
Definition ConstantTimeCompare (x y : string) : Z :=
  if negb (strings.len x =? strings.len y) then 0
  else if diff (strings.chars x) (strings.chars y) 0 =? 0 then 1 else 0.

Lemma byte_inj (a b : ascii) : strings.byte a = strings.byte b → a = b.
Proof.
  unfold strings.byte. intros H%N2Z.inj.
  by rewrite <-(ascii_N_embedding a), H, ascii_N_embedding.
Qed.

Lemma diff_zero (x y : list ascii) (v : Z) :
  length x = length y → diff x y v = 0 ↔ v = 0 ∧ x = y.
Proof.
  revert y v. induction x as [|a x IH]; intros [|b y] v Hlen; simplify_eq/=; [naive_solver|].
  rewrite IH, Z.lor_eq_0_iff, Z.lxor_eq_0_iff by done.
  split; [intros ((-> & ->%byte_inj) & ->); done|intros (-> & [= -> ->]); done].
Qed.

Lemma ConstantTimeCompare_eq (x y : string) : ConstantTimeCompare x y = 1 ↔ x = y.
Proof.
  unfold ConstantTimeCompare, strings.len. split.
  - destruct (_ =? _) eqn:E1; reflect; [simpl|done].
    destruct (diff _ _ _ =? 0) eqn:E2; reflect; [|done]. intros _.
    apply diff_zero in E2 as [_ E2]; [|rewrite !length_chars; lia].
    by rewrite <-(of_chars_chars x), E2, of_chars_chars.
  - intros ->. rewrite Z.eqb_refl. simpl.
    assert (diff (strings.chars y) (strings.chars y) 0 = 0) as -> by by apply diff_zero.
    done.
Qed.
End subtle.

(** ** hex and base64 *)

Module hex.
Definition digit (n : Z) : ascii :=
  if n <? 10 then strings.chr (48 + n) else strings.chr (87 + n).
(** [hex.EncodeToString]. *)
Definition EncodeToString (bytes : list Z) : string :=
  strings.of_chars (concat (map (λ b, [digit (b / 16); digit (b mod 16)]) bytes)).
End hex.

Module base64.
(** The URL-safe alphabet. *)
Definition urlchar (n : Z) : ascii :=
  if n <? 26 then strings.chr (65 + n)
  else if n <? 52 then strings.chr (71 + n)
  else if n <? 62 then strings.chr (n - 4)
  else if n =? 62 then "-"%char else "_"%char.

(** [base64.RawURLEncoding], without padding, three bytes at a time. *)
Fixpoint encode (bytes : list Z) : list ascii :=
  match bytes with
  | a :: b :: c :: rest =>
    let v := a * 65536 + b * 256 + c in
    urlchar (v / 262144) :: urlchar (v / 4096 mod 64) :: urlchar (v / 64 mod 64)
      :: urlchar (v mod 64) :: encode rest
  | [a; b] =>
    let v := a * 65536 + b * 256 in
    [urlchar (v / 262144); urlchar (v / 4096 mod 64); urlchar (v / 64 mod 64)]
  | [a] => let v := a * 65536 in [urlchar (v / 262144); urlchar (v / 4096 mod 64)]
  | [] => []
  end.
Definition EncodeToString (bytes : list Z) : string := strings.of_chars (encode bytes).
End base64.

(** ** Stable sorting

    [sort.SliceStable]: each element moves left past the elements it is
    strictly less than. *)

Module sort.
Section Sort.
Context {A : Type} (less : A → A → bool).

Fixpoint insert (x : A) (l : list A) : list A :=
  match l with
  | [] => [x]
  | y :: l' => if less x y then x :: y :: l' else y :: insert x l'
  end.

Definition SliceStable (l : list A) : list A := foldl (λ acc x, insert x acc) [] l.

Lemma insert_Permutation (x : A) (l : list A) : insert x l ≡ₚ x :: l.
Proof.
  induction l as [|y l IH]; simpl; [done|].
  destruct (less x y); [done|]. rewrite IH. apply Permutation_swap.
Qed.

Lemma foldl_insert_Permutation (l acc : list A) :
  foldl (λ acc x, insert x acc) acc l ≡ₚ l ++ acc.
Proof.
  revert acc. induction l as [|x l IH]; intros acc; simpl; [done|].
  rewrite IH, insert_Permutation. symmetry. apply Permutation_middle.
Qed.

Lemma SliceStable_Permutation (l : list A) : SliceStable l ≡ₚ l.
Proof. unfold SliceStable. by rewrite foldl_insert_Permutation, app_nil_r. Qed.

(** [less] is a strict weak order on the elements satisfying [P]. *)
Context (P : A → Prop).
Context (less_asym : ∀ x y, P x → P y → less x y = true → less y x = false).
Context (less_weak : ∀ x y z, P x → P y → P z →
  less y x = false → less z y = false → less z x = false).

(** Stability: when the input is sorted by [R] (its positions, say), elements
    that [less] does not separate stay sorted by [R]. *)
Context (R : A → A → Prop).
Definition precedes (x y : A) : Prop := less y x = false ∧ (less x y = true ∨ R x y).

Lemma insert_precedes (x : A) (l : list A) :
  P x → Forall P l → (∀ y, y ∈ l → R y x) →
  StronglySorted precedes l → StronglySorted precedes (insert x l).
Proof.
  intros Px. induction l as [|y l IH]; intros Pl HR Hs; simpl.
  { repeat constructor. }
  apply Forall_cons in Pl as [Py Pl].
  pose proof Hs as [Hs' Hy]%StronglySorted_inv.
  destruct (less x y) eqn:E.
  - constructor; [done|]. constructor; [split; [by apply less_asym|by left]|].
    apply Forall_forall. intros z Hz. rewrite Forall_forall in Pl, Hy.
    destruct (Hy z Hz) as [Hzy _]. split.
    + apply (less_weak x y z); auto.
    + left. destruct (less x z) eqn:Exz; [done|].
      rewrite (less_weak y z x) in E; auto.
  - constructor; [apply IH; auto; intros z Hz; apply HR; by right|].
    rewrite insert_Permutation. constructor; [|done]. split; [done|right]. apply HR. by left.
Qed.

Lemma foldl_insert_precedes (l acc : list A) :
  Forall P l → Forall P acc → (∀ x y, x ∈ acc → y ∈ l → R x y) → StronglySorted R l →
  StronglySorted precedes acc → StronglySorted precedes (foldl (λ acc x, insert x acc) acc l).
Proof.
  revert acc. induction l as [|x l IH]; intros acc Pl Pacc HR Hl Hs; simpl; [done|].
  apply Forall_cons in Pl as [Px Pl]. apply StronglySorted_inv in Hl as [Hl Hx].
  apply IH; [done|by rewrite insert_Permutation; constructor| |done|].
  - intros y z. rewrite insert_Permutation. intros [->|Hy]%elem_of_cons Hz.
    + rewrite Forall_forall in Hx. auto.
    + apply HR; [done|by right].
  - apply insert_precedes; [done..| |done]. intros y Hy. apply HR; [done|by left].
Qed.

Lemma SliceStable_precedes (l : list A) :
  Forall P l → StronglySorted R l → StronglySorted precedes (SliceStable l).
Proof.
  intros Pl Hl. apply foldl_insert_precedes; [done|constructor| |done|constructor].
  intros x y Hx. by apply not_elem_of_nil in Hx.
Qed.
End Sort.
End sort.

(** ** The outside world of one call

    What a call reads from outside the program: a clock reading, random bytes,
    whether its context is done when it is polled for the n-th time, and whether
    its n-th exchange with a remote service fails. *)

Record IO : Type := mkIO {
  io_now : time.Time;
  io_rand : list Z;
  io_ctx : nat → option error;
  io_fault : nat → option error
}.

(** A quiet world: nothing is cancelled, nothing fails. *)
Definition quiet (now : time.Time) (rand : list Z) : IO := mkIO now rand (λ _, None) (λ _, None).
