(* ===== verification/Request.v ===== *)
(** * Request: the logical request, its state machine and its validation

    Models [src/internal/request/request.go]. *)

From stdpp Require Import pretty.
From S2P Require Import Prelude Golib.

Module request.

(** ** The state machine *)

(** [State] is a string type with eight declared values; [Unset] is its zero
    value, which no stored request has. *)
Inductive State : Type :=
| Unset
| Received
| Validated
| Routing
| InProgress
| Completed
| Failed
| Cancelled
| BudgetRejected.

#[global] Instance State_eq_dec : EqDecision State.
Proof. solve_decision. Defined.
#[global] Instance State_inhabited : Inhabited State := populate Unset.

(** The database text of a state. *)
Definition state_text (s : State) : string :=
  match s with
  | Unset => ""
  | Received => "RECEIVED"
  | Validated => "VALIDATED"
  | Routing => "ROUTING"
  | InProgress => "IN_PROGRESS"
  | Completed => "COMPLETED"
  | Failed => "FAILED"
  | Cancelled => "CANCELLED"
  | BudgetRejected => "BUDGET_REJECTED"
  end.

(** A row of the table; the states absent from it have no successor. *)
Definition allowedTransitions (current : State) : list State :=
  match current with
  | Received => [Validated; Failed; Cancelled]
  | Validated => [Routing; BudgetRejected; Failed; Cancelled]
  | Routing => [InProgress; Failed; Cancelled]
  | InProgress => [Completed; Failed; Cancelled]
  | _ => []
  end.

Definition CanTransition (current next : State) : bool :=
  bool_decide (next ∈ allowedTransitions current).

Definition Transition (current next : State) : res unit :=
  if negb (CanTransition current next)
  then Err (New ("invalid request transition " +:+ state_text current +:+ " -> "
                 +:+ state_text next))
  else Ok ().

(** ** Wire types *)

Record Message : Type := mkMessage { Role : string; Content : string }.

(** A nil [Metadata] map is [None]. *)
Record ChatInput : Type := mkChatInput {
  in_Model : string;
  in_Messages : list Message;
  in_Temperature : option float64.t;
  in_MaxTokens : Z;
  in_Stream : bool;
  in_Metadata : option (list (string * json))
}.

Definition supported_role (role : string) : bool :=
  (role =s "system") || (role =s "user") || (role =s "assistant") || (role =s "tool").

(** The body of the loop of [Validate], for the message at [index]. *)
Definition validate_message (index : nat) (m : Message) : res unit :=
  let at_ (what : string) := New ("messages[" +:+ pretty index +:+ "]." +:+ what) in
  if negb (supported_role (Role m)) then Err (at_ "role is unsupported")
  else if strings.TrimSpace (Content m) =s "" then Err (at_ "content is required")
  else if 65536 <? strings.len (Content m) then Err (at_ "content is too long")
  else Ok ().

Fixpoint validate_messages (index : nat) (ms : list Message) : res unit :=
  match ms with
  | [] => Ok ()
  | m :: ms => validate_message index m ≫= λ _, validate_messages (S index) ms
  end.

Definition Validate (input : ChatInput) : res unit :=
  if strings.TrimSpace (in_Model input) =s "" then Err (New "model is required")
  else if 128 <? strings.len (in_Model input) then Err (New "model is too long")
  else if (Z.of_nat (length (in_Messages input)) =? 0)
          || (100 <? Z.of_nat (length (in_Messages input)))
  then Err (New "messages must contain between 1 and 100 items")
  else
    validate_messages 0 (in_Messages input) ≫= λ _,
    if match in_Temperature input with
       | Some t => float64.lt t float64.zero || float64.lt (float64.of_int 2) t
       | None => false
       end
    then Err (New "temperature must be between 0 and 2")
    else if (in_MaxTokens input <? 0) || (32768 <? in_MaxTokens input)
    then Err (New "max_tokens must be between 0 and 32768")
    else Ok ().

Record Usage : Type := mkUsage {
  PromptTokens : Z;
  CompletionTokens : Z;
  TotalTokens : Z
}.

Record Choice : Type := mkChoice {
  Index : Z;
  choice_Message : Message;
  FinishReason : string
}.

Record ResponseMeta : Type := mkResponseMeta { meta_RequestID : string; Status : State }.

Record ChatResponse : Type := mkChatResponse {
  resp_ID : string;
  Object : string;
  Created : Z;
  resp_Model : string;
  Choices : list Choice;
  resp_Usage : Usage;
  Aegis : ResponseMeta
}.

(** [Record]: a logical request as persistence returns it. *)
Record LogicalRequest : Type := mkRecord {
  ID : string;
  TenantID : string;
  APIKeyID : string;
  IdempotencyKey : string;
  CanonicalHash : string;
  Model : string;
  state : State;
  Stream : bool;
  PartialStreamed : bool;
  Response : option ChatResponse;
  FailureCategory : string;
  CorrelationID : string;
  CreatedAt : time.Time;
  UpdatedAt : time.Time;
  CompletedAt : option time.Time;
  rec_PromptTokens : Z;
  rec_CompletionTokens : Z;
  CostMicroUSD : Z
}.

(** The zero value, what Go reads for a missing map entry. *)
Definition zero_record : LogicalRequest :=
  mkRecord "" "" "" "" "" "" Unset false false None "" "" 0 0 None 0 0 0.

(** ** Theorems *)

(** The states from which nothing moves. *)
Definition terminal (s : State) : bool :=
  match s with Completed | Failed | Cancelled | BudgetRejected => true | _ => false end.

Lemma CanTransition_spec (s t : State) : CanTransition s t = true ↔ t ∈ allowedTransitions s.
Proof. apply bool_decide_eq_true. Qed.

Lemma Transition_Ok (s t : State) : Transition s t = Ok () ↔ CanTransition s t = true.
Proof. unfold Transition. by destruct (CanTransition s t). Qed.

Lemma terminal_no_transition (s t : State) : terminal s = true → CanTransition s t = false.
Proof. by destruct s, t. Qed.

(** One accepted [Transition] of the durable state. *)
Definition step (s t : State) : Prop := Transition s t = Ok ().

Lemma step_CanTransition (s t : State) : step s t ↔ CanTransition s t = true.
Proof. apply Transition_Ok. Qed.

#[global] Instance step_dec : RelDecision step.
Proof. intros s t. unfold step, Transition. destruct (CanTransition s t); [left|right]; done. Defined.

(** How far a state is along the machine. *)
Definition rank (s : State) : nat :=
  match s with
  | Unset | Received => 0
  | Validated => 1
  | Routing => 2
  | InProgress => 3
  | _ => 4
  end.

Lemma step_rank (s t : State) : step s t → (rank s < rank t)%nat.
Proof. rewrite step_CanTransition. destruct s, t; vm_compute; try done; lia. Qed.

Lemma nsteps_rank (n : nat) (s t : State) : nsteps step n s t → (rank s + n <= rank t)%nat.
Proof.
  induction 1 as [|n x y z Hxy _ IH]; [lia|]. apply step_rank in Hxy. lia.
Qed.

Lemma rank_le (s : State) : (rank s <= 4)%nat.
Proof. destruct s; simpl; lia. Qed.

Lemma step_inv_completed (s : State) : step s Completed → s = InProgress.
Proof. intros H%step_CanTransition. by destruct s. Qed.
Lemma step_inv_inprogress (s : State) : step s InProgress → s = Routing.
Proof. intros H%step_CanTransition. by destruct s. Qed.
Lemma step_inv_routing (s : State) : step s Routing → s = Validated.
Proof. intros H%step_CanTransition. by destruct s. Qed.
Lemma step_inv_validated (s : State) : step s Validated → s = Received.
Proof. intros H%step_CanTransition. by destruct s. Qed.

(** The length of a run from RECEIVED to a state of the success path. *)
Lemma run_length (n : nat) (t : State) :
  nsteps step n Received t → t ∈ [Received; Validated; Routing; InProgress; Completed] →
  n = rank t.
Proof.
  revert t. induction n as [|n IH]; intros t Hn Ht.
  { inversion Hn; subst. done. }
  apply nsteps_inv_r in Hn as (u & Hu & Hstep).
  repeat (apply elem_of_cons in Ht as [->|Ht]); [..|by apply not_elem_of_nil in Ht].
  - apply step_rank in Hstep. simpl in Hstep. lia.
  - apply step_inv_validated in Hstep as ->. by rewrite (IH Received) by (done || set_solver).
  - apply step_inv_routing in Hstep as ->. by rewrite (IH Validated) by (done || set_solver).
  - apply step_inv_inprogress in Hstep as ->. by rewrite (IH Routing) by (done || set_solver).
  - apply step_inv_completed in Hstep as ->. by rewrite (IH InProgress) by (done || set_solver).
Qed.

(** C33 (termination): the request state machine is acyclic. Any sequence of
    accepted transitions has at most four steps, a terminal state (COMPLETED,
    FAILED, CANCELLED, BUDGET_REJECTED) has no successor, and conversely
    every declared state without a successor is one of those four. A run from
    RECEIVED that ends in COMPLETED has exactly four steps: no stage of
    validation, routing and execution can be skipped. *)
Theorem state_machine_terminates :
  (∀ n s t, nsteps step n s t → (n <= 4)%nat) ∧
  (∀ s t, step s t → terminal s = false) ∧
  (∀ s, s ≠ Unset → (∀ t, ¬ step s t) → terminal s = true) ∧
  (∀ n, nsteps step n Received Completed → n = 4%nat).
Proof.
  split_and!.
  - intros n s t H. apply nsteps_rank in H. pose proof (rank_le t). lia.
  - intros s t H%step_CanTransition. by destruct s, t.
  - intros s Hs H. destruct s; try done; exfalso.
    + by apply (H Validated).
    + by apply (H Routing).
    + by apply (H InProgress).
    + by apply (H Completed).
  - intros n H. apply run_length in H; [done|set_solver].
Qed.

(** *** Validation *)

(** What the documentation asks of a message and of an input. *)
Definition valid_message (m : Message) : Prop :=
  Role m ∈ ["system"; "user"; "assistant"; "tool"] ∧
  strings.TrimSpace (Content m) ≠ "" ∧
  strings.len (Content m) <= 65536.

Definition valid_temperature (t : float64.t) : Prop :=
  float64.lt t float64.zero = false ∧ float64.lt (float64.of_int 2) t = false.

Record valid_input (input : ChatInput) : Prop := {
  vi_model : strings.TrimSpace (in_Model input) ≠ "";
  vi_model_len : strings.len (in_Model input) <= 128;
  vi_count : 1 <= Z.of_nat (length (in_Messages input)) <= 100;
  vi_messages : Forall valid_message (in_Messages input);
  vi_temperature : ∀ t, in_Temperature input = Some t → valid_temperature t;
  vi_max_tokens : 0 <= in_MaxTokens input <= 32768
}.

Lemma supported_role_spec (r : string) :
  supported_role r = true ↔ r ∈ ["system"; "user"; "assistant"; "tool"].
Proof.
  unfold supported_role. rewrite !orb_true_iff, !String.eqb_eq, !elem_of_cons, elem_of_nil.
  tauto.
Qed.

Lemma validate_message_Ok (i : nat) (m : Message) :
  validate_message i m = Ok () ↔ valid_message m.
Proof.
  unfold validate_message, valid_message. rewrite <-supported_role_spec.
  destruct (supported_role (Role m)); simpl; [|naive_solver].
  split_ifs; reflect; split; intros; try done; try naive_solver lia.
Qed.

Lemma validate_messages_Ok (i : nat) (ms : list Message) :
  validate_messages i ms = Ok () ↔ Forall valid_message ms.
Proof.
  revert i. induction ms as [|m ms IH]; intros i; simpl; [by split; [constructor|]|].
  rewrite Forall_cons, <-(IH (S i)), <-(validate_message_Ok i m).
  destruct (validate_message i m) as [[]| |]; simpl; naive_solver.
Qed.

Lemma validate_messages_no_panic (i : nat) (ms : list Message) :
  is_panic (validate_messages i ms) = false.
Proof.
  revert i. induction ms as [|m ms IH]; intros i; simpl; [done|].
  unfold validate_message. split_ifs; simpl; done || apply IH.
Qed.

(** [ChatInput.Validate] accepts exactly the inputs that meet
    every documented bound (model present and at most 128 bytes, 1 to 100
    messages each with a supported role and non-blank content of at most
    65536 bytes, temperature in [0, 2], max_tokens in [0, 32768]); every
    other input gets an error, never a panic. *)
Theorem Validate_spec (input : ChatInput) :
  (Validate input = Ok () ↔ valid_input input) ∧ is_panic (Validate input) = false.
Proof.
  unfold Validate. split.
  - split.
    + intros H.
      destruct (validate_messages 0 (in_Messages input)) as [[]| |] eqn:E;
        [|split_ifs_in H..].
      apply validate_messages_Ok in E. split_ifs_in H; reflect.
      all: split; try done; try lia; intros t Ht; rewrite Ht in *; reflect; split; done.
    + intros [Hm Hml Hc Hms Ht Hmt].
      apply (validate_messages_Ok 0) in Hms.
      destruct (strings.TrimSpace (in_Model input) =s "") eqn:E1; reflect; [done|].
      rewrite (proj2 (Z.ltb_ge _ _) Hml), Hms. simpl.
      rewrite (proj2 (Z.eqb_neq _ _)), (proj2 (Z.ltb_ge _ _)) by lia. simpl.
      rewrite (proj2 (Z.ltb_ge _ _)), (proj2 (Z.ltb_ge _ _)) by lia. simpl.
      destruct (in_Temperature input) as [t|]; [|done].
      destruct (Ht t eq_refl) as [Ht1 Ht2]. by rewrite Ht1, Ht2.
  - pose proof (validate_messages_no_panic 0 (in_Messages input)) as Hp.
    destruct (validate_messages 0 (in_Messages input)); simpl in *; split_ifs; done.
Qed.
End request.
