(* ===== verification/Budget.v ===== *)
(** * Budget: fixed-precision cost and reservation decisions

    Models [src/internal/budget/budget.go]. Costs are integer micro-USD,
    prices are micro-USD per million tokens. *)

From S2P Require Import Prelude Golib.

Module budget.

Definition tokensPerPriceUnit : Z := 1000000.

Definition ErrExceeded : error := Sentinel "budget.ErrExceeded" "tenant budget exceeded".

(** [math/big] arithmetic is exact; [QuoRem] truncates towards zero. *)
Definition CostMicroUSD (promptTokens completionTokens inputPrice outputPrice : Z) : res Z :=
  if (promptTokens <? 0) || (completionTokens <? 0) || (inputPrice <? 0) || (outputPrice <? 0)
  then Err (New "tokens and prices must not be negative")
  else
    let input := promptTokens * inputPrice in
    let output := completionTokens * outputPrice in
    let total := input + output in
    let divisor := tokensPerPriceUnit in
    let quotient := Z.quot total divisor in
    let remainder := Z.rem total divisor in
    let quotient := if 0 <? remainder then quotient + 1 else quotient in
    if negb (bool_decide (in_int64 quotient))
    then Err (New "calculated cost exceeds supported range")
    else Ok quotient.

(** The subtractions are [int64] subtractions. *)
Definition CanReserve (limit committed activeReservations requested : Z) : res unit :=
  if limit =? 0 then Ok ()
  else if (limit <? 0) || (committed <? 0) || (activeReservations <? 0) || (requested <? 0)
  then Err (New "budget values must not be negative")
  else if (limit <? requested)
          || (wrap64 (limit - requested) <? committed)
          || (wrap64 (wrap64 (limit - requested) - committed) <? activeReservations)
  then Err ErrExceeded
  else Ok ().

(** ** Cost *)

(** The mathematical cost: the total price rounded up to a whole micro-USD. *)
Definition exact_cost (prompt completion inp outp : Z) : Z :=
  (prompt * inp + completion * outp + (tokensPerPriceUnit - 1)) / tokensPerPriceUnit.

Definition non_negative (prompt completion inp outp : Z) : Prop :=
  0 <= prompt ∧ 0 <= completion ∧ 0 <= inp ∧ 0 <= outp.

Lemma ceil_quot (total : Z) : 0 <= total →
  (if 0 <? Z.rem total tokensPerPriceUnit
   then Z.quot total tokensPerPriceUnit + 1 else Z.quot total tokensPerPriceUnit)
  = (total + (tokensPerPriceUnit - 1)) / tokensPerPriceUnit.
Proof.
  intros H. unfold tokensPerPriceUnit.
  rewrite Z.rem_mod_nonneg, Z.quot_div_nonneg by lia.
  pose proof (Z.div_mod total 1000000 ltac:(lia)).
  pose proof (Z.mod_pos_bound total 1000000 ltac:(lia)).
  destruct (0 <? total mod 1000000) eqn:E; reflect.
  - apply Z.div_unique with (r := total mod 1000000 - 1); lia.
  - apply Z.div_unique with (r := 999999 + total mod 1000000); lia.
Qed.

Lemma CostMicroUSD_unfold (p c i o : Z) : non_negative p c i o →
  CostMicroUSD p c i o =
  if bool_decide (in_int64 (exact_cost p c i o)) then Ok (exact_cost p c i o)
  else Err (New "calculated cost exceeds supported range").
Proof.
  intros (Hp & Hc & Hi & Ho). unfold CostMicroUSD.
  rewrite !(proj2 (Z.ltb_ge _ _)) by lia. simpl.
  rewrite ceil_quot by nia. fold (exact_cost p c i o).
  by destruct (bool_decide _).
Qed.

Lemma exact_cost_mono (p c i o p' c' i' o' : Z) :
  non_negative p c i o → p <= p' → c <= c' → i <= i' → o <= o' →
  exact_cost p c i o <= exact_cost p' c' i' o'.
Proof.
  intros (? & ? & ? & ?) ????. unfold exact_cost, tokensPerPriceUnit.
  apply Z.div_le_mono; [lia|]. nia.
Qed.

Lemma exact_cost_nonneg (p c i o : Z) : non_negative p c i o → 0 <= exact_cost p c i o.
Proof.
  intros (? & ? & ? & ?). unfold exact_cost, tokensPerPriceUnit. apply Z.div_pos; nia.
Qed.

Lemma CostMicroUSD_Ok (p c i o r : Z) :
  CostMicroUSD p c i o = Ok r ↔
  non_negative p c i o ∧ r = exact_cost p c i o ∧ r <= int64_max.
Proof.
  split.
  - intros H. assert (Hn : non_negative p c i o).
    { unfold CostMicroUSD in H. split_ifs_in H; reflect. unfold non_negative. lia. }
    rewrite CostMicroUSD_unfold in H by done. split_ifs_in H; reflect.
    destruct Heqb. split_and!; done.
  - intros (Hn & -> & Hmax). rewrite CostMicroUSD_unfold by done.
    rewrite bool_decide_true; [done|].
    pose proof (exact_cost_nonneg p c i o Hn). unfold in_int64, int64_min. lia.
Qed.

(** [CostMicroUSD] is the exact total price rounded up to a
    whole micro-USD. On non-negative [int64] inputs it succeeds exactly when
    that amount fits an [int64], the charge covers the price and exceeds it by
    less than one micro-USD; a negative input is always an error. *)
Theorem CostMicroUSD_spec (prompt completion inp outp : Z) :
  (∀ r, CostMicroUSD prompt completion inp outp = Ok r ↔
     non_negative prompt completion inp outp ∧
     prompt * inp + completion * outp <= r * tokensPerPriceUnit ∧
     r * tokensPerPriceUnit < prompt * inp + completion * outp + tokensPerPriceUnit ∧
     r <= int64_max) ∧
  is_panic (CostMicroUSD prompt completion inp outp) = false.
Proof.
  split.
  - intros r. rewrite CostMicroUSD_Ok. unfold exact_cost, tokensPerPriceUnit.
    split.
    + intros (Hn & -> & Hmax). split_and!; [apply Hn..| | |done].
      all: pose proof (Z.div_mod (prompt * inp + completion * outp + (1000000 - 1)) 1000000
                         ltac:(lia));
        pose proof (Z.mod_pos_bound (prompt * inp + completion * outp + (1000000 - 1)) 1000000
                      ltac:(lia)); lia.
    + intros (Hn & Hlo & Hhi & Hmax). split_and!; [apply Hn..| |done].
      apply Z.div_unique with (r := prompt * inp + completion * outp + 999999 - r * 1000000); lia.
  - unfold CostMicroUSD. split_ifs; done.
Qed.

(** More tokens or higher prices never cost less, and a cost that is in range
    stays in range when tokens and prices shrink. *)
Lemma CostMicroUSD_mono (p c i o p' c' i' o' r' : Z) :
  non_negative p c i o → p <= p' → c <= c' → i <= i' → o <= o' →
  CostMicroUSD p' c' i' o' = Ok r' →
  ∃ r, CostMicroUSD p c i o = Ok r ∧ 0 <= r <= r'.
Proof.
  intros Hn ???? (Hn' & -> & Hmax)%CostMicroUSD_Ok.
  pose proof (exact_cost_mono p c i o p' c' i' o' Hn ltac:(done) ltac:(done) ltac:(done)
    ltac:(done)).
  exists (exact_cost p c i o). split; [apply CostMicroUSD_Ok; split_and!; [done..|lia]|].
  split; [by apply exact_cost_nonneg|done].
Qed.

(** ** Reservations *)

(** The subtractions stay in range, so the verdict is the exact one. *)
Lemma CanReserve_decides (limit committed active requested : Z)
  (Hl : in_int64 limit) (Hc : in_int64 committed) (Ha : in_int64 active)
  (Hr : in_int64 requested) :
  (CanReserve limit committed active requested = Ok () ↔
     limit = 0 ∨ (0 <= committed ∧ 0 <= active ∧ 0 <= requested ∧ 0 < limit ∧
                  committed + active + requested <= limit)) ∧
  (CanReserve limit committed active requested = Err ErrExceeded ↔
     0 < limit ∧ 0 <= committed ∧ 0 <= active ∧ 0 <= requested ∧
     limit < committed + active + requested).
Proof.
  unfold CanReserve.
  destruct (limit =? 0) eqn:E0; reflect.
  { split; split; intros; try done; try lia; by left. }
  destruct ((limit <? 0) || (committed <? 0) || (active <? 0) || (requested <? 0)) eqn:E1.
  { assert (limit < 0 ∨ committed < 0 ∨ active < 0 ∨ requested < 0) by (clear -E1; lia).
    split; split; intros; try done; lia. }
  reflect. unfold in_int64, int64_min, int64_max in *.
  destruct (limit <? requested) eqn:E2; reflect; simpl.
  { split; split; intros; try done; lia. }
  rewrite (wrap64_id (limit - requested)) by (unfold in_int64, int64_min, int64_max; lia).
  destruct (limit - requested <? committed) eqn:E3; reflect; simpl.
  { split; split; intros; try done; lia. }
  rewrite wrap64_id by (unfold in_int64, int64_min, int64_max; lia).
  destruct (_ <? active) eqn:E4; reflect; split; split; intros; try done; lia.
Qed.

(** On [int64] values the subtractions of [CanReserve] never
    overflow, and its verdict is the exact one: with a limit set it admits a
    request exactly when nothing is negative and committed use plus active
    reservations plus the request stay within the limit; it answers
    [ErrExceeded] exactly when they do not. A zero limit admits everything. *)
Theorem CanReserve_exact (limit committed active requested : Z)
  (Hl : in_int64 limit) (Hc : in_int64 committed) (Ha : in_int64 active)
  (Hr : in_int64 requested) :
  (CanReserve limit committed active requested = Ok () ↔
     limit = 0 ∨ (0 <= committed ∧ 0 <= active ∧ 0 <= requested ∧ 0 < limit ∧
                  committed + active + requested <= limit)) ∧
  (CanReserve limit committed active requested = Err ErrExceeded ↔
     0 < limit ∧ 0 <= committed ∧ 0 <= active ∧ 0 <= requested ∧
     limit < committed + active + requested).
Proof. by apply CanReserve_decides. Qed.

Lemma CanReserve_exact_witness :
  CanReserve 100 40 30 30 = Ok () ∧ CanReserve 100 40 30 31 = Err ErrExceeded.
Proof.
  split; [apply (CanReserve_exact 100 40 30 30)|apply (CanReserve_exact 100 40 30 31)];
    (by vm_compute) || (right; lia) || lia.
Defined.
End budget.
