(* ===== verification/CircuitBreaker.v ===== *)
(** * CircuitBreaker: the closed / open / half-open breaker of one provider

    Models [src/internal/circuitbreaker/breaker.go]. Every method takes the
    breaker's mutex for its whole body, so a method is one atomic step and any
    concurrent use is a sequence of steps. *)

From S2P Require Import Prelude Golib.

Module circuitbreaker.

Inductive State : Type := Closed | Open | HalfOpen.
#[global] Instance State_eq_dec : EqDecision State.
Proof. solve_decision. Defined.

Record Config : Type := mkConfig {
  FailureThreshold : Z;
  Window : time.Duration;
  OpenDuration : time.Duration;
  HalfOpenProbes : Z
}.

Record Breaker : Type := mkBreaker {
  config : Config;
  state : State;
  failures : list time.Time;
  openedAt : time.Time;
  halfOpenActive : Z
}.

Definition New (c : Config) : Breaker :=
  mkBreaker
    (mkConfig (if FailureThreshold c <=? 0 then 5 else FailureThreshold c)
              (if Window c <=? 0 then 30 * time.Second else Window c)
              (if OpenDuration c <=? 0 then 15 * time.Second else OpenDuration c)
              (if HalfOpenProbes c <=? 0 then 1 else HalfOpenProbes c))
    Closed [] 0 0.

(** The test that the open period is over, shared by [Allow] and [State]. *)
Definition open_elapsed (b : Breaker) (now : time.Time) : bool :=
  bool_decide (state b = Open) && (OpenDuration (config b) <=? time.Sub now (openedAt b)).

Definition Allow (now : time.Time) (b : Breaker) : bool * Breaker :=
  let b := if open_elapsed b now
           then mkBreaker (config b) HalfOpen (failures b) (openedAt b) 0 else b in
  match state b with
  | Closed => (true, b)
  | HalfOpen =>
    if HalfOpenProbes (config b) <=? halfOpenActive b then (false, b)
    else (true, mkBreaker (config b) (state b) (failures b) (openedAt b)
                          (wrap64 (halfOpenActive b + 1)))
  | Open => (false, b)
  end.

Definition Success (b : Breaker) : Breaker :=
  mkBreaker (config b) Closed [] (openedAt b) 0.

Definition open (now : time.Time) (b : Breaker) : Breaker :=
  mkBreaker (config b) Open (failures b) now 0.

(** [retained := failures[:0]; for _, f := range failures ...]: the loop
    compacts the slice in place. [arr] is the shared backing array, [i] the
    position read next and [w] the number of entries retained so far. *)
Fixpoint compact (cutoff : time.Time) (arr : list time.Time) (i w : nat) (n : nat)
  : list time.Time * nat :=
  match n with
  | O => (arr, w)
  | S n =>
    match arr !! i with
    | Some occurred =>
      if time.After occurred cutoff
      then compact cutoff (<[w := occurred]> arr) (S i) (S w) n
      else compact cutoff arr (S i) w n
    | None => (arr, w)
    end
  end.

Definition retain (cutoff : time.Time) (fs : list time.Time) : list time.Time :=
  let '(arr, w) := compact cutoff fs 0 0 (length fs) in take w arr.

Definition Failure (now : time.Time) (b : Breaker) : Breaker :=
  if bool_decide (state b = HalfOpen) then open now b
  else
    let cutoff := time.Add now (- Window (config b)) in
    let retained := retain cutoff (failures b) in
    let b := mkBreaker (config b) (state b) (retained ++ [now]) (openedAt b)
                       (halfOpenActive b) in
    if FailureThreshold (config b) <=? Z.of_nat (length (failures b)) then open now b else b.

Definition Release (b : Breaker) : Breaker :=
  if bool_decide (state b = HalfOpen) && (0 <? halfOpenActive b)
  then mkBreaker (config b) (state b) (failures b) (openedAt b) (wrap64 (halfOpenActive b - 1))
  else b.

(** [State(now)]: what an observer sees; the breaker itself is not changed. *)
Definition observe (now : time.Time) (b : Breaker) : State :=
  if open_elapsed b now then HalfOpen else state b.

(** ** The in-place compaction is a filter *)

Lemma compact_spec (cutoff : time.Time) (arr : list time.Time) (i w n : nat) :
  (w <= i)%nat → (i + n = length arr)%nat →
  let '(arr', w') := compact cutoff arr i w n in
  take w' arr' = take w arr ++ List.filter (λ t, time.After t cutoff) (drop i arr).
Proof.
  revert arr i w. induction n as [|n IH]; intros arr i w Hw Hn; simpl.
  { rewrite drop_ge by lia. by rewrite app_nil_r. }
  destruct (lookup_lt_is_Some_2 arr i ltac:(lia)) as [t Ht]. rewrite Ht.
  rewrite (drop_S arr t i Ht). simpl.
  destruct (time.After t cutoff).
  - specialize (IH (<[w := t]> arr) (S i) (S w) ltac:(lia)).
    rewrite length_insert in IH. specialize (IH ltac:(lia)).
    destruct (compact _ _ _ _ _) as [arr' w']. rewrite IH.
    rewrite drop_insert_lt by lia.
    rewrite (take_S_r _ w t) by (apply list_lookup_insert_eq; lia).
    rewrite take_insert_ge by lia. by rewrite <-app_assoc.
  - apply IH; lia.
Qed.

Lemma retain_filter (cutoff : time.Time) (fs : list time.Time) :
  retain cutoff fs = List.filter (λ t, time.After t cutoff) fs.
Proof.
  unfold retain. pose proof (compact_spec cutoff fs 0 0 (length fs)) as H.
  destruct (compact _ _ _ _ _) as [arr w]. rewrite H by lia. done.
Qed.

(** ** Reachable breakers *)

(** The atomic steps of the breaker's clients. *)
Inductive op : Type :=
| OpAllow (now : time.Time)
| OpSuccess
| OpFailure (now : time.Time)
| OpRelease.

Definition apply_op (b : Breaker) (o : op) : Breaker :=
  match o with
  | OpAllow now => snd (Allow now b)
  | OpSuccess => Success b
  | OpFailure now => Failure now b
  | OpRelease => Release b
  end.

(** The counters of the configuration are Go [int]s. *)
Definition config_ok (c : Config) : Prop :=
  in_int64 (FailureThreshold c) ∧ in_int64 (HalfOpenProbes c).

Record inv (b : Breaker) : Prop := {
  inv_threshold : 0 < FailureThreshold (config b);
  inv_window : 0 < Window (config b);
  inv_open_duration : 0 < OpenDuration (config b);
  inv_probes_range : 0 < HalfOpenProbes (config b) <= int64_max;
  inv_active : 0 <= halfOpenActive b <= HalfOpenProbes (config b);
  inv_active_half_open : state b ≠ HalfOpen → halfOpenActive b = 0;
  inv_closed : state b = Closed →
    Z.of_nat (length (failures b)) < FailureThreshold (config b)
}.

Create HintDb breaker.

Lemma New_inv (c : Config) : config_ok c → inv (New c).
Proof.
  unfold config_ok, in_int64. intros [Hf Hp].
  split; simpl; try (split_ifs; reflect; unfold time.Second, int64_max in *; lia).
Qed.

Lemma Success_inv (b : Breaker) : inv b → inv (Success b).
Proof. intros []. split; simpl; done || lia. Qed.

Lemma open_inv (now : time.Time) (b : Breaker) : inv b → inv (open now b).
Proof. intros []. split; simpl; done || lia. Qed.

Lemma Release_inv (b : Breaker) : inv b → inv (Release b).
Proof.
  intros []. unfold Release. destruct (_ && _) eqn:E; reflect; [|done].
  assert (in_int64 (halfOpenActive b - 1))
    by (unfold in_int64, int64_min, int64_max in *; lia).
  split; simpl; rewrite ?wrap64_id by done; done || lia.
Qed.

Lemma elapse_inv (b : Breaker) :
  inv b → inv (mkBreaker (config b) HalfOpen (failures b) (openedAt b) 0).
Proof. intros []. split; simpl; done || lia. Qed.

Lemma Allow_inv (now : time.Time) (b : Breaker) : inv b → inv (snd (Allow now b)).
Proof.
  intros Hb. unfold Allow.
  set (b' := if open_elapsed b now then _ else b).
  assert (inv b') as Hb' by (unfold b'; destruct (open_elapsed b now); [by apply elapse_inv|done]).
  clearbody b'. destruct (state b') eqn:Es; simpl; try done.
  destruct (_ <=? _) eqn:El; reflect; simpl; [done|]. destruct Hb'.
  assert (in_int64 (halfOpenActive b' + 1))
    by (unfold in_int64, int64_min, int64_max in *; lia).
  split; simpl; rewrite ?wrap64_id by done; congruence || lia.
Qed.

Lemma Failure_inv (now : time.Time) (b : Breaker) : inv b → inv (Failure now b).
Proof.
  intros Hb. unfold Failure. case_bool_decide as Hs; [by apply open_inv|].
  destruct (_ <=? _) eqn:E; reflect; destruct Hb; split; simpl in *; done || lia || auto.
Qed.

#[export] Hint Resolve New_inv Success_inv open_inv Release_inv Allow_inv Failure_inv : breaker.

Lemma apply_op_inv (b : Breaker) (o : op) : inv b → inv (apply_op b o).
Proof. destruct o; simpl; auto with breaker. Qed.

Lemma ops_inv (ops : list op) (b : Breaker) : inv b → inv (foldl apply_op b ops).
Proof. revert b. induction ops; simpl; auto using apply_op_inv. Qed.

(** Whatever the configuration and however the goroutines'
    calls interleave, a breaker always has positive parameters, between 0 and
    [HalfOpenProbes] reserved probes (none outside half-open), and a closed
    breaker holds fewer failures than the threshold. *)
Theorem breaker_invariant (c : Config) (Hc : config_ok c) (ops : list op) :
  inv (foldl apply_op (New c) ops).
Proof. auto using ops_inv with breaker. Qed.

Lemma breaker_invariant_witness :
  inv (foldl apply_op (New (mkConfig 1 0 10 2))
         [OpFailure 5; OpAllow 6; OpAllow 20; OpAllow 21; OpRelease; OpFailure 30]).
Proof. apply (breaker_invariant (mkConfig 1 0 10 2)). by vm_compute. Defined.

(** ** When the circuit opens *)

(** The failures of [ts] that lie in the window ending at [now]. *)
Definition in_window (w : time.Duration) (now : time.Time) (ts : list time.Time) : list time.Time :=
  List.filter (λ t, time.After t (time.Add now (- w))) ts.

(** Some failure of [ts] completed a window with [threshold] failures. *)
Definition trips (threshold : Z) (w : time.Duration) (ts : list time.Time) : Prop :=
  ∃ p now rest, ts = p ++ now :: rest ∧
                threshold <= Z.of_nat (length (in_window w now (p ++ [now]))).

Lemma in_window_mono (w : time.Duration) (now now' : time.Time) (ts : list time.Time) :
  now <= now' → in_window w now' (in_window w now ts) = in_window w now' ts.
Proof.
  intros Hle. unfold in_window. induction ts as [|t ts IH]; simpl; [done|].
  unfold time.After, time.Add in *.
  destruct (now + - w <? t) eqn:E1, (now' + - w <? t) eqn:E2; simpl; rewrite ?E2, ?IH;
    reflect; done || lia.
Qed.

Lemma in_window_snoc (w : time.Duration) (now : time.Time) (ts : list time.Time) :
  0 < w → in_window w now (ts ++ [now]) = in_window w now ts ++ [now].
Proof.
  intros Hw. unfold in_window, time.After, time.Add. rewrite List.filter_app. simpl.
  by rewrite (proj2 (Z.ltb_lt (now + - w) now)) by lia.
Qed.

Lemma trips_snoc (th : Z) (w : time.Duration) (ts : list time.Time) (now : time.Time) :
  trips th w (ts ++ [now]) ↔
  trips th w ts ∨ th <= Z.of_nat (length (in_window w now (ts ++ [now]))).
Proof.
  split.
  - intros (p & t & rest & Heq & Hlen).
    destruct rest as [|r rest _] using rev_ind.
    + apply app_inj_tail in Heq as [-> ->]. by right.
    + left. exists p, t, rest. split; [|done].
      rewrite app_comm_cons, app_assoc in Heq. by apply app_inj_tail in Heq as [-> _].
  - intros [(p & t & rest & -> & Hlen)|Hlen].
    + exists p, t, (rest ++ [now]). by rewrite <-app_assoc.
    + by exists ts, now, [].
Qed.

Lemma Failure_closed (now : time.Time) (b : Breaker) :
  state b = Closed →
  let fs := in_window (Window (config b)) now (failures b) ++ [now] in
  Failure now b =
  if FailureThreshold (config b) <=? Z.of_nat (length fs)
  then mkBreaker (config b) Open fs now 0
  else mkBreaker (config b) Closed fs (openedAt b) (halfOpenActive b).
Proof.
  intros Hs. unfold Failure. rewrite Hs. simpl. rewrite retain_filter.
  unfold in_window. by destruct (_ <=? _).
Qed.

Lemma Failure_open (now : time.Time) (b : Breaker) : state b = Open → state (Failure now b) = Open.
Proof. intros Hs. unfold Failure. rewrite Hs. simpl. by destruct (_ <=? _). Qed.

Lemma Failure_config (now : time.Time) (b : Breaker) : config (Failure now b) = config b.
Proof. unfold Failure. case_bool_decide; [done|]. by destruct (_ <=? _). Qed.

Definition fail_all (b : Breaker) (ts : list time.Time) : Breaker :=
  foldl (λ b t, Failure t b) b ts.

Lemma fail_all_config (b : Breaker) (ts : list time.Time) : config (fail_all b ts) = config b.
Proof.
  induction ts as [|t ts IH] using rev_ind; [done|].
  unfold fail_all in *. rewrite foldl_snoc. by rewrite Failure_config.
Qed.

(** The simulation behind [opens_exactly]: a breaker that has not opened
    remembers every failure still relevant to a later window. *)
Lemma fail_all_spec (b : Breaker) (ts : list time.Time) :
  state b = Closed → failures b = [] → 0 < Window (config b) →
  StronglySorted Z.le ts →
  let b' := fail_all b ts in
  (state b' = Open ∧ trips (FailureThreshold (config b)) (Window (config b)) ts) ∨
  (state b' = Closed ∧ ¬ trips (FailureThreshold (config b)) (Window (config b)) ts ∧
   ∀ now, Forall (λ t, t <= now) ts →
     in_window (Window (config b)) now (failures b') = in_window (Window (config b)) now ts).
Proof.
  intros Hs Hf Hw. induction ts as [|t ts IH] using rev_ind; intros Hsorted; simpl.
  { right. rewrite Hs, Hf. split_and!; [done| |done]. intros (p & ? & ? & ? & _).
    by destruct p. }
  apply StronglySorted_app in Hsorted as (Hle & Hsorted & _).
  assert (Forall (λ u, u <= t) ts) as Ht.
  { apply Forall_forall. intros u Hu. apply (Hle u t); set_solver. }
  pose proof (fail_all_config b ts) as Hcfg.
  unfold fail_all in *. rewrite foldl_snoc. rewrite trips_snoc.
  destruct (IH Hsorted) as [[Ho Htr]|(Hc & Hntr & Hwin)].
  { left. split; [by apply Failure_open|by left]. }
  rewrite (Failure_closed t _ Hc). rewrite Hcfg, (Hwin t Ht), <-in_window_snoc by done.
  destruct (_ <=? _) eqn:E; reflect; simpl.
  - left. auto.
  - right. split_and!; [done|intros [?|?]; [done|lia]|].
    intros now Hnow. apply Forall_app in Hnow as [_ [Hnow _]%Forall_cons].
    by apply in_window_mono.
Qed.

(** Starting from a closed breaker with no recorded failure,
    failures reported in time order open the circuit exactly when some
    failure is the [FailureThreshold]-th one inside the sliding [Window]
    ending at it; until then the circuit stays closed. *)
Theorem opens_exactly (b : Breaker) (ts : list time.Time)
  (Hs : state b = Closed) (Hf : failures b = []) (Hw : 0 < Window (config b))
  (Hsorted : StronglySorted Z.le ts) :
  (state (fail_all b ts) = Open ↔ trips (FailureThreshold (config b)) (Window (config b)) ts) ∧
  (state (fail_all b ts) = Closed ↔ ¬ trips (FailureThreshold (config b)) (Window (config b)) ts).
Proof.
  destruct (fail_all_spec b ts Hs Hf Hw Hsorted) as [[-> ?]|(-> & ? & _)]; naive_solver.
Qed.

Lemma opens_exactly_witness : state (fail_all (New (mkConfig 2 10 5 1)) [100; 120; 125]) = Open.
Proof.
  apply (opens_exactly (New (mkConfig 2 10 5 1)) [100; 120; 125]); try done.
  - by repeat constructor.
  - exists [100; 120], 125, []. split; [done|]. vm_compute. done.
Defined.

(** ** Recovery *)

Lemma open_elapsed_open (b : Breaker) (now : time.Time) : state b = Open →
  open_elapsed b now = (OpenDuration (config b) <=? time.Sub now (openedAt b)).
Proof. intros Hs. unfold open_elapsed. by rewrite bool_decide_true. Qed.

Lemma open_elapsed_not_open (b : Breaker) (now : time.Time) :
  state b ≠ Open → open_elapsed b now = false.
Proof. intros Hs. unfold open_elapsed. by rewrite bool_decide_false. Qed.

(** The answers of successive [Allow] calls. *)
Fixpoint grants (nows : list time.Time) (b : Breaker) : list bool :=
  match nows with
  | [] => []
  | now :: nows => let '(ok, b) := Allow now b in ok :: grants nows b
  end.

(** The first [Z.to_nat p] answers are yes, the rest no. *)
Definition first_only (p : Z) (n : nat) : list bool :=
  replicate (n `min` Z.to_nat p) true ++ replicate (n - Z.to_nat p) false.

Lemma first_only_cons (p : Z) (n : nat) : 0 <= p →
  first_only p (S n) = if 0 <? p then true :: first_only (p - 1) n else false :: first_only p n.
Proof.
  intros Hp. unfold first_only. destruct (0 <? p) eqn:E; reflect.
  - replace (Z.to_nat p) with (S (Z.to_nat (p - 1))) by lia. done.
  - replace p with 0 by lia. change (Z.to_nat 0) with 0%nat. by rewrite !Nat.min_0_r, !Nat.sub_0_r.
Qed.

Lemma grants_half_open (nows : list time.Time) (b : Breaker) :
  inv b → state b = HalfOpen →
  grants nows b = first_only (HalfOpenProbes (config b) - halfOpenActive b) (length nows).
Proof.
  revert b. induction nows as [|now nows IH]; intros b Hb Hs; [done|].
  pose proof (inv_active b Hb) as Ha. pose proof (inv_probes_range b Hb) as Hp.
  cbn [length]. rewrite first_only_cons by lia. cbn [grants].
  pose proof (Allow_inv now b Hb) as Hb'. revert Hb'.
  unfold Allow. rewrite open_elapsed_not_open, Hs by congruence.
  destruct (HalfOpenProbes (config b) <=? halfOpenActive b) eqn:E; reflect; cbn; intros Hb'.
  - rewrite (proj2 (Z.ltb_ge _ _)) by lia. by rewrite IH.
  - rewrite (proj2 (Z.ltb_lt _ _)) by lia. rewrite IH by done. cbn.
    rewrite wrap64_id by (unfold in_int64, int64_min, int64_max in *; lia).
    do 2 f_equal. lia.
Qed.

(** C32 (safety): an open circuit admits nothing before [OpenDuration] has
    passed since it opened. From then on, with no outcome reported, the first
    [HalfOpenProbes] calls are admitted and every further one is refused,
    whenever they come. The first reported failure re-opens the circuit for a
    full [OpenDuration]; a reported success closes it with a clean history. *)
Theorem recovery (b : Breaker) (Hb : inv b) (Hs : state b = Open) :
  (∀ now, time.Sub now (openedAt b) < OpenDuration (config b) → Allow now b = (false, b)) ∧
  (∀ now nows, OpenDuration (config b) <= time.Sub now (openedAt b) →
     grants (now :: nows) b = first_only (HalfOpenProbes (config b)) (S (length nows)) ∧
     let probing := snd (Allow now b) in
     state probing = HalfOpen ∧
     (∀ t, state (Failure t probing) = Open ∧ openedAt (Failure t probing) = t) ∧
     state (Success probing) = Closed ∧ failures (Success probing) = []).
Proof.
  split.
  - intros now Hnow. unfold Allow. rewrite open_elapsed_open by done.
    rewrite (proj2 (Z.leb_gt _ _)) by lia. by rewrite Hs.
  - intros now nows Hnow.
    pose proof (elapse_inv b Hb) as Hb'. set (b' := mkBreaker _ _ _ _ _) in Hb'.
    assert (Allow now b = Allow now b') as Heq.
    { unfold Allow at 1. rewrite open_elapsed_open by done.
      by rewrite (proj2 (Z.leb_le _ _)) by lia. }
    pose proof (inv_probes_range b Hb) as Hp.
    split.
    + pose proof (grants_half_open (now :: nows) b' Hb' eq_refl) as Hg.
      cbn [grants] in *. rewrite Heq, Hg. cbn. by rewrite Z.sub_0_r.
    + rewrite Heq. unfold Allow. rewrite open_elapsed_not_open by done. simpl.
      rewrite (proj2 (Z.leb_gt _ _)) by lia. done.
Qed.

Lemma recovery_witness :
  grants [20; 21; 22] (fail_all (New (mkConfig 1 30 10 2)) [5]) = [true; true; false].
Proof.
  apply (recovery (fail_all (New (mkConfig 1 30 10 2)) [5])); [|done|by vm_compute].
  apply (ops_inv [OpFailure 5]). apply New_inv. by vm_compute.
Defined.
End circuitbreaker.
