(* ===== verification/Auth.v ===== *)
(** * Auth: API keys, their verification and scopes

    Models [src/internal/auth/apikey.go]. The digest is a parameter
    [hmac_sha256] (key, then message); the random bytes of a new key are an
    argument of [Generate]. *)

From Stdlib Require Import Ascii.
From S2P Require Import Prelude Golib.

Module auth.

Definition keyPrefix : string := "aegis".

Definition ErrInvalidKey : error := Sentinel "auth.ErrInvalidKey" "invalid API key".
Definition ErrExpiredKey : error := Sentinel "auth.ErrExpiredKey" "API key expired".
Definition ErrRevokedKey : error := Sentinel "auth.ErrRevokedKey" "API key revoked".
Definition ErrScope : error := Sentinel "auth.ErrScope" "API key scope denied".

Record StoredKey : Type := mkStoredKey {
  key_ID : string;
  key_TenantID : string;
  key_UserID : string;
  Prefix : string;
  key_Hash : string;
  key_Scopes : list string;
  ExpiresAt : option time.Time;
  RevokedAt : option time.Time
}.

Record Principal : Type := mkPrincipal {
  APIKeyID : string;
  TenantID : string;
  UserID : string;
  Scopes : gset string
}.

(** [Lookup.FindAPIKeyByPrefix], the interface towards persistence. *)
Definition Lookup : Type := string → res StoredKey.

Section Hashing.
Context (hmac_sha256 : string → string → string).

Definition Hash (pepper plain : string) : string := hmac_sha256 pepper plain.

(** [random] is what [rand.Read] delivers: 32 bytes, or an error. *)
Definition Generate (pepper : string) (random : res (list Z)) : res (string * string * string) :=
  if strings.len pepper <? 32 then Err (New "API key pepper must be at least 32 bytes")
  else
    match random with
    | Err e => Err (Wrap "generate API key" e)
    | Panic w => Panic w
    | Ok random =>
      let encoded := base64.EncodeToString random in
      if strings.len encoded <? 10 then Panic "slice bounds out of range"
      else
        let prefix := strings.of_chars (take 10 (strings.chars encoded)) in
        let plain := keyPrefix +:+ "_" +:+ prefix +:+ "_" +:+ encoded in
        Ok (plain, prefix, Hash pepper plain)
    end.

Definition ParsePrefix (plain : string) : res string :=
  match strings.SplitN plain "_"%char 3 with
  | [p0; p1; p2] =>
    if negb (p0 =s keyPrefix) || negb (strings.len p1 =? 10) || (strings.len p2 <? 40)
    then Err ErrInvalidKey
    else Ok p1
  | _ => Err ErrInvalidKey
  end.

(** The scopes of a key become the keys of a Go map. *)
Definition principal_of (stored : StoredKey) : Principal :=
  mkPrincipal (key_ID stored) (key_TenantID stored) (key_UserID stored)
              (list_to_set (key_Scopes stored)).

Definition Verify (lookup : Lookup) (pepper plain : string) (now : time.Time) : res Principal :=
  match ParsePrefix plain with
  | Panic w => Panic w
  | Err _ => Err ErrInvalidKey
  | Ok prefix =>
    match lookup prefix with
    | Panic w => Panic w
    | Err _ => Err ErrInvalidKey
    | Ok stored =>
      let computed := Hash pepper plain in
      if negb (strings.len computed =? strings.len (key_Hash stored))
         || negb (subtle.ConstantTimeCompare computed (key_Hash stored) =? 1)
      then Err ErrInvalidKey
      else if bool_decide (is_Some (RevokedAt stored)) then Err ErrRevokedKey
      else if match ExpiresAt stored with
              | Some expires => negb (time.Before now expires)
              | None => false
              end
      then Err ErrExpiredKey
      else Ok (principal_of stored)
    end
  end.

Definition RequireScope (principal : Principal) (scope : string) : res unit :=
  if "*" ∈? Scopes principal then Ok ()
  else if negb (scope ∈? Scopes principal) then Err ErrScope
  else Ok ().

(** ** Parsing *)

#[local] Abbreviation sep := "_"%char (only parsing).

(** The shape of a key: [aegis_], ten characters, an underscore, the secret. *)
Definition key_shape (plain prefix secret : string) : Prop :=
  plain = "aegis_" +:+ prefix +:+ "_" +:+ secret.

Lemma chars_shape (prefix secret : string) :
  strings.chars ("aegis_" +:+ prefix +:+ "_" +:+ secret) =
  strings.chars "aegis" ++ sep :: strings.chars prefix ++ sep :: strings.chars secret.
Proof. rewrite !chars_app. done. Qed.

Lemma sep_not_in_aegis : sep ∉ strings.chars "aegis".
Proof. by apply (bool_decide_unpack _). Qed.

(** Splitting a text in at most three parts at underscores. *)
Lemma split3 (l : list ascii) :
  (length (strings.splitN_aux sep 3 [] l) < 3)%nat ∨
  ∃ a b c, l = a ++ sep :: b ++ sep :: c ∧ (sep ∉ a) ∧ (sep ∉ b) ∧
           strings.splitN_aux sep 3 [] l = [a; b; c].
Proof.
  destruct (first_sep sep l) as [Hl|(a & l' & -> & Ha)].
  { left. rewrite splitN_aux_none by done. simpl. lia. }
  rewrite splitN_aux_first by done.
  destruct (first_sep sep l') as [Hl|(b & c & -> & Hb)].
  { left. rewrite splitN_aux_none by done. simpl. lia. }
  right. exists a, b, c. rewrite splitN_aux_first by done. by rewrite splitN_aux_one.
Qed.

Lemma ParsePrefix_Ok (plain prefix : string) :
  ParsePrefix plain = Ok prefix ↔
  ∃ secret, key_shape plain prefix secret ∧ (sep ∉ strings.chars prefix) ∧
            strings.len prefix = 10 ∧ 40 <= strings.len secret.
Proof.
  unfold ParsePrefix, strings.SplitN, key_shape. split.
  - destruct (split3 (strings.chars plain)) as [Hlt|(a & b & c & Heq & Ha & Hb & ->)].
    { destruct (strings.splitN_aux _ _ _ _) as [|? [|? [|? ?]]]; simpl in *; done || lia. }
    simpl. intros H. split_ifs_in H; reflect.
    exists (strings.of_chars c). split_and!.
    + rewrite <-(of_chars_chars plain), Heq, <-(of_chars_chars ("aegis_" +:+ _)).
      f_equal. rewrite chars_shape, !chars_of_chars.
      replace a with (strings.chars "aegis"); [done|].
      rewrite <-(chars_of_chars a). by f_equal.
    + by rewrite chars_of_chars.
    + done.
    + lia.
  - intros (secret & -> & Hp & Hlen & Hsec).
    rewrite chars_shape, splitN_aux_first, splitN_aux_first, splitN_aux_one
      by (done || apply sep_not_in_aegis).
    simpl. rewrite !of_chars_chars. unfold keyPrefix.
    rewrite Hlen, (proj2 (Z.ltb_ge _ _)) by done. done.
Qed.

Lemma ParsePrefix_total (plain : string) :
  (∃ p, ParsePrefix plain = Ok p) ∨ ParsePrefix plain = Err ErrInvalidKey.
Proof. unfold ParsePrefix. split_ifs; eauto. Qed.

Lemma shape_prefix_unique (p q s t : string) :
  "aegis_" +:+ p +:+ "_" +:+ s = "aegis_" +:+ q +:+ "_" +:+ t →
  strings.len p = strings.len q → p = q.
Proof.
  intros H Hlen. apply (f_equal strings.chars) in H. rewrite !chars_shape in H.
  apply app_inv_head in H. injection H as H.
  apply app_inj_1 in H as [H _].
  - by rewrite <-(of_chars_chars p), H, of_chars_chars.
  - rewrite !length_chars. unfold strings.len in Hlen. lia.
Qed.

(** ** Generated keys *)

Definition random_ok (random : list Z) : Prop :=
  length random = 32%nat ∧ Forall (λ b, 0 <= b < 256) random.

Lemma length_encode (bytes : list Z) :
  length bytes = 32%nat → length (base64.encode bytes) = 43%nat.
Proof. intros H. do 32 (destruct bytes as [|? bytes]; [done|]). by destruct bytes. Qed.

(** C36 (roundtrip): a generated key has the documented shape and verifies its
    own prefix exactly when the ten prefix characters contain no underscore.
    The prefix is cut from URL-safe base64 text, whose alphabet has the
    underscore: such a key is issued and then rejected as malformed for ever. *)
Theorem Generate_ParsePrefix (pepper : string) (random : list Z)
  (Hpepper : 32 <= strings.len pepper) (Hrandom : random_ok random) :
  ∃ plain prefix,
    Generate pepper (Ok random) = Ok (plain, prefix, Hash pepper plain) ∧
    key_shape plain prefix (base64.EncodeToString random) ∧
    strings.len prefix = 10 ∧
    (ParsePrefix plain = Ok prefix ↔ sep ∉ strings.chars prefix) ∧
    (sep ∈ strings.chars prefix → ParsePrefix plain = Err ErrInvalidKey).
Proof.
  destruct Hrandom as [Hlen _].
  assert (Henc : strings.len (base64.EncodeToString random) = 43).
  { unfold base64.EncodeToString. by rewrite len_of_chars, length_encode. }
  set (encoded := base64.EncodeToString random) in *.
  set (prefix := strings.of_chars (take 10 (strings.chars encoded))).
  assert (Hp : strings.len prefix = 10).
  { unfold prefix. rewrite len_of_chars, length_take, length_chars.
    unfold strings.len in Henc. lia. }
  exists (keyPrefix +:+ "_" +:+ prefix +:+ "_" +:+ encoded), prefix.
  split_and!; [|done|done|..].
  - unfold Generate. rewrite (proj2 (Z.ltb_ge _ _)) by done. cbn zeta.
    fold encoded. by rewrite (proj2 (Z.ltb_ge _ _)) by lia.
  - split.
    + intros (_ & _ & H & _)%ParsePrefix_Ok. done.
    + intros H. apply ParsePrefix_Ok. exists encoded. split_and!; done || lia.
  - intros Hin. destruct (ParsePrefix_total (keyPrefix +:+ "_" +:+ prefix +:+ "_" +:+ encoded))
      as [[p Hok]|?]; [exfalso|done].
    apply ParsePrefix_Ok in Hok as (secret & Hshape & Hnp & Hlp & _).
    by rewrite (shape_prefix_unique prefix p encoded secret) in Hin by (done || lia).
Qed.

(** ** Verification *)

Definition key_live (stored : StoredKey) (now : time.Time) : Prop :=
  RevokedAt stored = None ∧ ∀ e, ExpiresAt stored = Some e → now < e.

(** The holder of [plain] knows the secret of [stored]. *)
Definition authentic (lookup : Lookup) (pepper plain : string) (stored : StoredKey) : Prop :=
  ∃ prefix, ParsePrefix plain = Ok prefix ∧ lookup prefix = Ok stored ∧
            Hash pepper plain = key_Hash stored.

Lemma hash_check (x y : string) :
  negb (strings.len x =? strings.len y) || negb (subtle.ConstantTimeCompare x y =? 1) = false
  ↔ x = y.
Proof.
  rewrite orb_false_iff, !negb_false_iff, !Z.eqb_eq, subtle.ConstantTimeCompare_eq.
  split; [by intros [_ ->]|by intros ->].
Qed.

Lemma Verify_cases (lookup : Lookup) (pepper plain : string) (now : time.Time) :
  match Verify lookup pepper plain now with
  | Ok pr => ∃ stored, authentic lookup pepper plain stored ∧ key_live stored now ∧
                       pr = principal_of stored
  | Err e => e = ErrInvalidKey ∧ (∀ stored, ¬ authentic lookup pepper plain stored) ∨
             ∃ stored, authentic lookup pepper plain stored ∧ ¬ key_live stored now ∧
                       e = if bool_decide (is_Some (RevokedAt stored))
                           then ErrRevokedKey else ErrExpiredKey
  | Panic w => ∀ stored, ¬ authentic lookup pepper plain stored
  end.
Proof.
  unfold Verify, authentic.
  destruct (ParsePrefix_total plain) as [[prefix Hp]|Hp]; rewrite Hp;
    [|left; split; [done|]; intros st (? & ? & _); congruence].
  destruct (lookup prefix) as [stored| |] eqn:Hl.
  2: left; split; [done|]. 2,3: intros st (? & [= <-] & ? & _); congruence.
  destruct (negb _ || negb _) eqn:Hh.
  { left. split; [done|]. intros st (? & [= <-] & ? & Heq). simplify_eq.
    apply hash_check in Heq. congruence. }
  apply hash_check in Hh. unfold key_live.
  assert (∃ prefix0, Ok prefix = Ok prefix0 ∧ lookup prefix0 = Ok stored ∧
    Hash pepper plain = key_Hash stored) by eauto.
  destruct (decide (is_Some (RevokedAt stored))) as [Hr|Hr].
  { rewrite bool_decide_true by done. right. exists stored. rewrite bool_decide_true by done.
    split_and!; [done| |done]. intros [Hn _]. rewrite Hn in Hr. by destruct Hr. }
  assert (RevokedAt stored = None) as Hn by by apply eq_None_not_Some.
  rewrite bool_decide_false by done.
  destruct (ExpiresAt stored) as [e|] eqn:He; [|naive_solver].
  unfold time.Before. destruct (now <? e) eqn:Hlt; reflect; simpl; [naive_solver|].
  right. exists stored. rewrite bool_decide_false by done.
  split_and!; [done| |done]. intros [_ Hx]. specialize (Hx e He). lia.
Qed.

(** [Verify] accepts a credential exactly when it is well formed,
    its prefix names a stored key, the keyed digest of the whole credential is
    the stored one, and the key is neither revoked nor expired; the principal
    carries that key's identity, tenant and scopes. Revocation or expiry is
    reported only to a caller whose digest matched: everybody else gets the
    same [ErrInvalidKey]. *)
Theorem Verify_spec (lookup : Lookup) (pepper plain : string) (now : time.Time) :
  (∀ pr, Verify lookup pepper plain now = Ok pr ↔
     ∃ stored, authentic lookup pepper plain stored ∧ key_live stored now ∧
               pr = principal_of stored) ∧
  (∀ e, Verify lookup pepper plain now = Err e →
     (∀ stored, ¬ authentic lookup pepper plain stored) → e = ErrInvalidKey) ∧
  (∀ e stored, Verify lookup pepper plain now = Err e → authentic lookup pepper plain stored →
     ¬ key_live stored now ∧ (e = ErrRevokedKey ∨ e = ErrExpiredKey)).
Proof.
  pose proof (Verify_cases lookup pepper plain now) as H.
  assert (Huniq : ∀ s t, authentic lookup pepper plain s → authentic lookup pepper plain t → s = t).
  { intros s t (p & Hp & Hs & _) (q & Hq & Ht & _). congruence. }
  destruct (Verify lookup pepper plain now) as [pr|e|w].
  - split_and!; [|done..]. intros pr'. split; [by intros [= <-]|].
    destruct H as (s & Hs & _ & ->). intros (t & Ht & _ & ->). by rewrite (Huniq s t).
  - destruct H as [[-> Hno]|(s & Hs & Hlive & ->)]; split_and!; try naive_solver.
    + intros pr. split; [done|]. intros (t & Ht & Hl & _). by rewrite (Huniq s t) in Hlive.
    + intros e t [= <-] Ht. rewrite (Huniq s t) in Hlive by done.
      split; [done|]. case_bool_decide; [by left|by right].
  - split_and!; [|done..]. intros pr. split; [done|]. by intros (t & ?%H & _).
Qed.

End Hashing.

Lemma Generate_ParsePrefix_witness :
  ∃ plain prefix,
    Generate String.append "0123456789abcdef0123456789abcdef" (Ok (replicate 32 255)) =
      Ok (plain, prefix, Hash String.append "0123456789abcdef0123456789abcdef" plain) ∧
    ParsePrefix plain = Err ErrInvalidKey.
Proof.
  destruct (Generate_ParsePrefix String.append "0123456789abcdef0123456789abcdef" (replicate 32 255))
    as (plain & prefix & Hgen & _ & _ & _ & Hbad).
  - by vm_compute.
  - by split; [|repeat constructor].
  - exists plain, prefix. split; [done|]. apply Hbad.
    assert (prefix = "__________") as -> by (vm_compute in Hgen; congruence).
    by left.
Defined.

End auth.
