(* ===== verification/Provider.v ===== *)
(** * Provider: the provider interface, error classification and the mock

    Models [src/internal/provider/provider.go] and
    [src/internal/provider/mock.go]. A streaming call is the tree of its calls
    to the emitter: it emits a chunk, looks at the emitter's answer, and goes
    on. *)

From stdpp Require Import pretty.
From S2P Require Import Prelude Golib Request.

Module provider.

(** ** Interface types *)

Record CompletionRequest : Type := mkCompletionRequest {
  RequestID : string;
  req_Model : string;
  Messages : list request.Message;
  Temperature : option float64.t;
  MaxTokens : Z
}.

Record Completion : Type := mkCompletion {
  ProviderRequestID : string;
  Model : string;
  Content : string;
  FinishReason : string;
  Usage : request.Usage
}.

Record Chunk : Type := mkChunk { chunk_Content : string; chunk_FinishReason : string }.

Record Capabilities : Type := mkCapabilities {
  Models : gset string;
  DataClassifications : gset string
}.

(** A [Stream] call: what it returns, or a chunk and the continuation on the
    emitter's answer ([None] for nil). *)
Inductive stream : Type :=
| Return (r : res request.Usage)
| Emit (c : Chunk) (k : option error → stream).

(** The [Provider] interface, on implementations with state [P]. *)
Class Interface (P : Type) : Type := {
  Name : P → string;
  CapabilitiesOf : P → Capabilities;
  Health : IO → P → res unit;
  Complete : IO → CompletionRequest → P → res Completion * P;
  Stream : IO → CompletionRequest → P → stream * P
}.

(** ** Failure classification *)

Definition IsRetryable (err : error) : bool :=
  match errors.AsProvider err with
  | Some (ProviderError _ _ _ retryable partial _) => retryable && negb partial
  | _ =>
    if errors.Is err context.Canceled || errors.Is err context.DeadlineExceeded then false
    else match net.AsTimeout err with Some timeout => timeout | None => false end
  end.

Definition HTTPError (providerName : string) (status : Z) : error :=
  let retryable := (status =? 408) || (status =? 429) || (500 <=? status) in
  let category :=
    if status =? 429 then "rate_limited"
    else if (status =? 401) || (status =? 403) then "provider_authentication"
    else if (400 <=? status) && (status <? 500) then "invalid_provider_request"
    else "upstream_error" in
  ProviderError providerName category status retryable false None.

Definition prompt_characters (messages : list request.Message) : Z :=
  foldl (λ n m, n + strings.len (request.Content m)) 0 messages.

Definition estimateTokens (messages : list request.Message) (content : string) : request.Usage :=
  let promptCharacters := prompt_characters messages in
  let prompt := Z.quot (promptCharacters + 3) 4 in
  let completion := Z.quot (strings.len content + 3) 4 in
  request.mkUsage prompt completion (prompt + completion).

Definition normalizeModel (value : string) : string := strings.TrimSpace value.

(** ** The deterministic mock *)

Record MockConfig : Type := mkMockConfig {
  mc_Name : string;
  mc_Models : list string;
  Latency : time.Duration;
  FailFirst : Z;
  FailureCategory : string
}.

Record Mock : Type := mkMock { config : MockConfig; calls : Z }.

Definition NewMock (c : MockConfig) : Mock :=
  mkMock (mkMockConfig
            (if mc_Name c =s "" then "mock-primary" else mc_Name c)
            (match mc_Models c with [] => ["aegis-small"; "aegis-medium"] | ms => ms end)
            (Latency c) (FailFirst c) (FailureCategory c)) 0.

Definition mock_Name (mock : Mock) : string := mc_Name (config mock).

Definition mock_Capabilities (mock : Mock) : Capabilities :=
  mkCapabilities (list_to_set (mc_Models (config mock)))
                 {["PUBLIC"; "INTERNAL"; "CONFIDENTIAL"]}.

(** [content] indexes the last message. *)
Definition mock_content (input : CompletionRequest) : res string :=
  match last (Messages input) with
  | Some m => Ok ("Deterministic response to: " +:+ request.Content m)
  | None => Panic "index out of range [-1]"
  end.

Definition mock_wait (io : IO) (mock : Mock) : res unit :=
  if Latency (config mock) <=? 0 then Ok ()
  else match io_ctx io 0 with Some e => Err e | None => Ok () end.

Definition mock_injectFailure (mock : Mock) : res unit * Mock :=
  let call := wrap64 (calls mock + 1) in
  let mock := mkMock (config mock) call in
  if call <=? FailFirst (config mock) then
    let category := if FailureCategory (config mock) =s "" then "injected_transient"
                    else FailureCategory (config mock) in
    (Err (ProviderError (mock_Name mock) category 0 true false
            (Some (New "deterministic failure injection"))), mock)
  else (Ok (), mock).

Definition mock_Complete (io : IO) (input : CompletionRequest) (mock : Mock)
  : res Completion * Mock :=
  match mock_wait io mock with
  | Err e => (Err e, mock)
  | Panic w => (Panic w, mock)
  | Ok _ =>
    match mock_injectFailure mock with
    | (Err e, mock) => (Err e, mock)
    | (Panic w, mock) => (Panic w, mock)
    | (Ok _, mock) =>
      (mock_content input ≫= λ content,
       Ok (mkCompletion ("mock-" +:+ pretty (calls mock)) (req_Model input) content "stop"
                        (estimateTokens (Messages input) content)), mock)
    end
  end.

(** The loop over the words; [n] words in all, [index] the next one. The
    context is polled before each word (poll 0 is [wait]'s). *)
Fixpoint mock_stream_words (io : IO) (mock : Mock) (n index : nat) (words : list string)
  (finish : stream) : stream :=
  match words with
  | [] => finish
  | word :: words =>
    match io_ctx io (S index) with
    | Some e => Return (Err e)
    | None =>
      let word := if (S index <? n)%nat then word +:+ " " else word in
      Emit (mkChunk word "") (λ answer,
        match answer with
        | Some err =>
          Return (Err (ProviderError (mock_Name mock) "stream_write" 0 false (0 <? index)%nat
                         (Some err)))
        | None => mock_stream_words io mock n (S index) words finish
        end)
    end
  end.

Definition mock_Stream (io : IO) (input : CompletionRequest) (mock : Mock) : stream * Mock :=
  match mock_wait io mock with
  | Err e => (Return (Err e), mock)
  | Panic w => (Return (Panic w), mock)
  | Ok _ =>
    match mock_injectFailure mock with
    | (Err e, mock) => (Return (Err e), mock)
    | (Panic w, mock) => (Return (Panic w), mock)
    | (Ok _, mock) =>
      match mock_content input with
      | Err e => (Return (Err e), mock)
      | Panic w => (Return (Panic w), mock)
      | Ok content =>
        let words := strings.Fields content in
        (mock_stream_words io mock (length words) 0 words
           (Emit (mkChunk "" "stop") (λ answer,
              match answer with
              | Some err => Return (Err (ProviderError (mock_Name mock) "stream_write" 0 false true
                                           (Some err)))
              | None => Return (Ok (estimateTokens (Messages input) content))
              end)), mock)
      end
    end
  end.

#[global] Instance mock_interface : Interface Mock := {|
  Name := mock_Name;
  CapabilitiesOf := mock_Capabilities;
  Health := λ _ _, Ok ();
  Complete := mock_Complete;
  Stream := mock_Stream
|}.

(** ** Running a stream *)

(** Run a stream against an emitter with state [W]. *)
Fixpoint run_stream {W : Type} (emit : Chunk → W → option error * W) (s : stream) (w : W)
  : res request.Usage * W :=
  match s with
  | Return r => (r, w)
  | Emit c k => let '(answer, w) := emit c w in run_stream emit (k answer) w
  end.

(** An emitter that answers by a script and logs what it accepted. *)
Definition scripted (script : nat → option error) (c : Chunk) (log : nat * list Chunk)
  : option error * (nat * list Chunk) :=
  match script log.1 with
  | Some e => (Some e, (S log.1, log.2))
  | None => (None, (S log.1, log.2 ++ [c]))
  end.

(** The text a client has received. *)
Definition delivered (chunks : list Chunk) : string :=
  foldr (λ c t, chunk_Content c +:+ t) "" chunks.

Lemma delivered_app (l k : list Chunk) : delivered (l ++ k) = delivered l +:+ delivered k.
Proof. induction l as [|c l IH]; simpl; [done|]. by rewrite IH, string_app_assoc. Qed.

Fixpoint join_words (words : list string) : string :=
  match words with
  | [] => ""
  | [w] => w
  | w :: ws => w +:+ " " +:+ join_words ws
  end.

(** An error by which a context can end. *)
Definition context_error (e : error) : Prop := e = context.Canceled ∨ e = context.DeadlineExceeded.

Lemma context_error_not_retryable (e : error) : context_error e → IsRetryable e = false.
Proof. by intros [-> | ->]. Qed.

Lemma mock_words_not_retryable (io : IO) (mock : Mock) (n i : nat) (words : list string)
  (finish : stream) (script : nat → option error) (log : nat * list Chunk) (e : error) :
  (∀ k err, io_ctx io k = Some err → context_error err) →
  (∀ log' e', (run_stream (scripted script) finish log').1 = Err e' → IsRetryable e' = false) →
  (run_stream (scripted script) (mock_stream_words io mock n i words finish) log).1 = Err e →
  IsRetryable e = false.
Proof.
  intros Hctx Hfin. revert i log. induction words as [|w ws IH]; intros i log; simpl; [apply Hfin|].
  destruct (io_ctx io (S i)) eqn:Hio; simpl.
  { intros [= <-]. eauto using context_error_not_retryable. }
  unfold scripted at 1. destruct (script log.1); simpl; [by intros [= <-]|]. apply IH.
Qed.

Lemma mock_words_delivered (io : IO) (mock : Mock) (n i : nat) (words : list string)
  (finish : stream) (log : nat * list Chunk) :
  (∀ k, io_ctx io k = None) → (n = i + length words)%nat →
  ∃ chunks,
    run_stream (scripted (λ _, None)) (mock_stream_words io mock n i words finish) log =
    run_stream (scripted (λ _, None)) finish ((log.1 + length words)%nat, log.2 ++ chunks) ∧
    length chunks = length words ∧ delivered chunks = join_words words.
Proof.
  intros Hctx. revert i log. induction words as [|w ws IH]; intros i log Hn; simpl in *.
  { exists []. rewrite app_nil_r, Nat.add_0_r. by destruct log. }
  rewrite Hctx. simpl. unfold scripted at 1. simpl.
  destruct (IH (S i) (S log.1, log.2 ++ [mkChunk (if (S i <? n)%nat then w +:+ " " else w) ""])
              ltac:(lia)) as (chunks & Hrun & Hlen & Hdel).
  exists (mkChunk (if (S i <? n)%nat then w +:+ " " else w) "" :: chunks).
  split_and!.
  - etrans; [exact Hrun|]. simpl. do 2 f_equal; [lia|]. by rewrite <-app_assoc.
  - simpl. by rewrite Hlen.
  - simpl. rewrite Hdel. destruct ws as [|w' ws].
    + rewrite (proj2 (Nat.ltb_ge _ _)) by (simpl in Hn; lia). by rewrite string_app_nil_r.
    + rewrite (proj2 (Nat.ltb_lt _ _)) by (simpl in Hn; lia). by rewrite <-string_app_assoc.
Qed.

(** A successful mock stream delivers the words of the
    deterministic answer separated by single spaces, one chunk per word, then
    exactly one empty [stop] chunk, and returns the token estimate; and
    whatever the emitter answers and whenever the context ends, an error that
    the gateway would retry is returned only when nothing was delivered. *)
Theorem mock_Stream_spec (io : IO) (input : CompletionRequest) (mock : Mock) :
  (∀ content, (∀ k, io_ctx io k = None) → (mock_injectFailure mock).1 = Ok () →
     mock_content input = Ok content →
     ∃ chunks,
       run_stream (scripted (λ _, None)) (mock_Stream io input mock).1 (0%nat, []) =
         (Ok (estimateTokens (Messages input) content),
          (S (length chunks), chunks ++ [mkChunk "" "stop"])) ∧
       length chunks = length (strings.Fields content) ∧
       delivered chunks = join_words (strings.Fields content)) ∧
  (∀ script e n chunks, (∀ k err, io_ctx io k = Some err → context_error err) →
     run_stream (scripted script) (mock_Stream io input mock).1 (0%nat, []) = (Err e, (n, chunks)) →
     IsRetryable e = true → chunks = []).
Proof.
  unfold mock_Stream. split.
  - intros content Hctx Hinj Hcontent. unfold mock_wait. rewrite Hctx.
    assert ((if Latency (config mock) <=? 0 then Ok () else Ok ()) = @Ok unit ()) as ->
      by by destruct (_ <=? _).
    destruct (mock_injectFailure mock) as [r mock'] eqn:Hm. simpl in Hinj. rewrite Hinj, Hcontent.
    cbn [fst].
    edestruct (mock_words_delivered io mock' (length (strings.Fields content)) 0
                 (strings.Fields content)) as (chunks & -> & Hlen & Hd); [done|done|].
    exists chunks. split_and!; [|done|done]. simpl. by rewrite Hlen.
  - intros script e n chunks Hctx Hrun Hretry.
    destruct (mock_wait io mock); [|by inversion Hrun|done].
    destruct (mock_injectFailure mock) as [[] mock']; [|by inversion Hrun|done].
    destruct (mock_content input) as [content| |]; [|by inversion Hrun|done].
    cbn [fst] in Hrun. assert (IsRetryable e = false); [|congruence].
    eapply mock_words_not_retryable; [exact Hctx| |by rewrite Hrun].
    intros log' e'. simpl. unfold scripted. by destruct (script log'.1); intros [= <-].
Qed.
Lemma mock_Stream_spec_witness :
  ∃ chunks,
    run_stream (scripted (λ _, None))
      (mock_Stream (quiet 0 []) (mkCompletionRequest "r" "m" [request.mkMessage "user" "hi"] None 0)
         (NewMock (mkMockConfig "" [] 0 0 ""))).1 (0%nat, []) =
      (Ok (request.mkUsage 1 8 9), (S (length chunks), chunks ++ [mkChunk "" "stop"])) ∧
    delivered chunks = "Deterministic response to: hi".
Proof.
  destruct (mock_Stream_spec (quiet 0 [])
    (mkCompletionRequest "r" "m" [request.mkMessage "user" "hi"] None 0)
    (NewMock (mkMockConfig "" [] 0 0 ""))) as [H _].
  destruct (H "Deterministic response to: hi") as (chunks & Hrun & _ & Hd); [done..|].
  exists chunks. split; [exact Hrun|exact Hd].
Defined.
End provider.
