(* ===== verification/Routing.v ===== *)
(** * Routing: provider eligibility, load balancing and capacity leases

    Models [src/internal/routing/router.go]. A [*managed] pointer is the index
    of the entry in the router; a provider value is a handle with its name and
    capabilities (both constant), its own state lives with the caller. *)

From S2P Require Import Prelude Golib CircuitBreaker Provider.

Module routing.

Inductive Strategy : Type :=
| WeightedRoundRobin
| LeastOutstanding
| LeastLatency
| PriorityFallback
| OtherStrategy (name : string).

Definition ErrNoEligibleProvider : error :=
  Sentinel "routing.ErrNoEligibleProvider" "no eligible provider".

(** A [provider.Provider] value as the router sees it. *)
Record Handle : Type := mkHandle {
  handle : nat;
  Name : string;
  Capabilities : provider.Capabilities
}.

Record ProviderConfig : Type := mkProviderConfig {
  Provider : option Handle;
  Weight : Z;
  Priority : Z;
  MaxConcurrency : Z;
  Timeout : time.Duration;
  InputCostPerMillionMicro : Z;
  OutputCostPerMillionMicro : Z;
  Enabled : bool
}.

(** [semaphore] is the number of tokens in the buffered channel, whose
    capacity is the entry's [MaxConcurrency]. *)
Record managed : Type := mkManaged {
  provider_ : Handle;
  config : ProviderConfig;
  semaphore : Z;
  breaker : circuitbreaker.Breaker;
  outstanding : Z;
  healthy : bool;
  ewmaMS : float64.t
}.

Record Router : Type := mkRouter {
  providers : list managed;
  sequence : Z;
  alpha : float64.t
}.

(** The defaults [New] puts into a configuration. *)
Definition normalize (c : ProviderConfig) : ProviderConfig :=
  mkProviderConfig (Provider c)
    (if Weight c <=? 0 then 1 else Weight c)
    (Priority c)
    (if MaxConcurrency c <=? 0 then 20 else MaxConcurrency c)
    (if Timeout c <=? 0 then 30 * time.Second else Timeout c)
    (InputCostPerMillionMicro c) (OutputCostPerMillionMicro c) (Enabled c).

Fixpoint new_entries (configs : list ProviderConfig) (breakerConfig : circuitbreaker.Config)
  : res (list managed) :=
  match configs with
  | [] => Ok []
  | c :: configs =>
    match Provider c with
    | None => Err (New "provider is required")
    | Some h =>
      new_entries configs breakerConfig ≫= λ rest,
      Ok (mkManaged h (normalize c) 0 (circuitbreaker.New breakerConfig) 0 true float64.zero :: rest)
    end
  end.

Definition NewRouter (configs : list ProviderConfig) (breakerConfig : circuitbreaker.Config)
  : res Router :=
  match configs with
  | [] => Err (New "at least one provider is required")
  | _ => new_entries configs breakerConfig ≫= λ es, Ok (mkRouter es 0 float64.c0_2)
  end.

(** [AllowedProviders] distinguishes a nil map ([None], everything allowed)
    from an empty one. *)
Record Selection : Type := mkSelection {
  Model : string;
  DataClassification : string;
  AllowedProviders : option (gset string);
  ExcludedProviders : gset string;
  strategy : Strategy;
  Now : time.Time
}.

(** [Lease]; [entry] is the index of the entry it holds capacity of. *)
Record Lease : Type := mkLease {
  lease_Provider : Handle;
  lease_Timeout : time.Duration;
  lease_InputCost : Z;
  lease_OutputCost : Z;
  entry : nat;
  released : bool
}.

(** ** Policy and eligibility *)

Definition allowed (sel : Selection) (name : string) : bool :=
  match AllowedProviders sel with Some s => name ∈? s | None => true end.

(** The static policy tests shared by [Select] and [HighestPrices]. *)
Definition capable (sel : Selection) (e : managed) : bool :=
  (Model sel ∈? provider.Models (Capabilities (provider_ e))) &&
  (DataClassification sel ∈? provider.DataClassifications (Capabilities (provider_ e))).

(** The body of the first loop of [Select]: [true] when no [continue] is taken. *)
Definition eligible (sel : Selection) (now : time.Time) (e : managed) : bool :=
  let name := Name (provider_ e) in
  if negb (Enabled (config e)) || negb (healthy e) then false
  else if negb (allowed sel name) then false
  else if name ∈? ExcludedProviders sel then false
  else if negb (capable sel e) then false
  else if bool_decide (circuitbreaker.observe now (breaker e) = circuitbreaker.Open) then false
  else if MaxConcurrency (config e) <=? semaphore e then false
  else true.

Definition eligible_entries (r : Router) (sel : Selection) (now : time.Time) : list (nat * managed) :=
  List.filter (λ ie, eligible sel now ie.2) (imap pair (providers r)).

(** ** Ordering *)

Definition latency (e : managed) : float64.t :=
  if float64.eq (ewmaMS e) float64.zero then float64.c1e15 else ewmaMS e.

Definition total_weight (entries : list (nat * managed)) : Z :=
  foldl (λ total ie, wrap64 (total + Weight (config ie.2))) 0 entries.

(** The loop that finds the entry owning [position]. *)
Fixpoint pick (entries : list (nat * managed)) (position : Z) (index : nat) : nat :=
  match entries with
  | [] => 0%nat
  | ie :: entries =>
    let position := wrap64 (position - Weight (config ie.2)) in
    if position <? 0 then index else pick entries position (S index)
  end.

Definition rotate {A} (n : nat) (l : list A) : list A := drop n l ++ take n l.

Definition order (entries : list (nat * managed)) (s : Strategy) (r : Router)
  : res (list (nat * managed)) * Router :=
  match s with
  | LeastOutstanding =>
    (Ok (sort.SliceStable (λ a b, outstanding a.2 <? outstanding b.2) entries), r)
  | LeastLatency =>
    (Ok (sort.SliceStable (λ a b, float64.lt (latency a.2) (latency b.2)) entries), r)
  | PriorityFallback =>
    (Ok (sort.SliceStable (λ a b, Priority (config a.2) <? Priority (config b.2)) entries), r)
  | _ =>
    let total := total_weight entries in
    let seq := wrapu64 (sequence r + 1) in
    let r := mkRouter (providers r) seq (alpha r) in
    if total =? 0 then (Panic "integer divide by zero", r)
    else
      let position := Z.rem (wrap64 (wrapu64 (seq - 1))) total in
      (Ok (rotate (pick entries position 0) entries), r)
  end.

(** ** Selection *)

Definition with_breaker (b : circuitbreaker.Breaker) (e : managed) : managed :=
  mkManaged (provider_ e) (config e) (semaphore e) b (outstanding e) (healthy e) (ewmaMS e).

(** Sending one token on the semaphore channel, then [outstanding.Add(1)]. *)
Definition acquire (e : managed) : managed :=
  mkManaged (provider_ e) (config e) (semaphore e + 1) (breaker e) (wrap64 (outstanding e + 1))
            (healthy e) (ewmaMS e).

Definition set_entry (i : nat) (e : managed) (r : Router) : Router :=
  mkRouter (<[i := e]> (providers r)) (sequence r) (alpha r).

Definition make_lease (i : nat) (e : managed) : Lease :=
  mkLease (provider_ e) (Timeout (config e)) (InputCostPerMillionMicro (config e))
          (OutputCostPerMillionMicro (config e)) i false.

(** The second loop of [Select]. *)
Fixpoint try_entries (now : time.Time) (ordered : list (nat * managed)) (r : Router)
  : res Lease * Router :=
  match ordered with
  | [] => (Err ErrNoEligibleProvider, r)
  | (i, _) :: ordered =>
    match providers r !! i with
    | None => (Panic "nil pointer dereference", r)
    | Some e =>
      let '(ok, b) := circuitbreaker.Allow now (breaker e) in
      let e := with_breaker b e in
      if negb ok then try_entries now ordered (set_entry i e r)
      else if semaphore e <? MaxConcurrency (config e) then
        (Ok (make_lease i e), set_entry i (acquire e) r)
      else
        try_entries now ordered (set_entry i (with_breaker (circuitbreaker.Release (breaker e)) e) r)
    end
  end.

(** [wall] is what [time.Now()] would return. *)
Definition Select (wall : time.Time) (sel : Selection) (r : Router) : res Lease * Router :=
  let now := if time.IsZero (Now sel) then wall else Now sel in
  let entries := eligible_entries r sel now in
  match entries with
  | [] => (Err ErrNoEligibleProvider, r)
  | _ =>
    match order entries (strategy sel) r with
    | (Ok ordered, r) => try_entries now ordered r
    | (Err e, r) => (Err e, r)
    | (Panic w, r) => (Panic w, r)
    end
  end.

(** ** Conservative prices *)

Definition price_step (sel : Selection) (acc : bool * Z * Z) (e : managed) : bool * Z * Z :=
  if negb (Enabled (config e)) then acc
  else if negb (allowed sel (Name (provider_ e))) then acc
  else if negb (capable sel e) then acc
  else let '(_, input, output) := acc in
       (true, Z.max input (InputCostPerMillionMicro (config e)),
        Z.max output (OutputCostPerMillionMicro (config e))).

Definition HighestPrices (sel : Selection) (r : Router) : res (Z * Z) :=
  let '(found, input, output) := foldl (price_step sel) (false, 0, 0) (providers r) in
  if negb found then Err ErrNoEligibleProvider else Ok (input, output).

(** ** Leases *)

(** [release]: the compare-and-swap, then one receive from the semaphore. *)
Definition release (l : Lease) (r : Router) : res bool * Lease * Router :=
  if released l then (Ok false, l, r)
  else
    let l := mkLease (lease_Provider l) (lease_Timeout l) (lease_InputCost l) (lease_OutputCost l)
                     (entry l) true in
    match providers r !! entry l with
    | None => (Panic "nil pointer dereference", l, r)
    | Some e =>
      if semaphore e <=? 0 then (Panic "receive from an empty semaphore blocks", l, r)
      else
        let e := mkManaged (provider_ e) (config e) (semaphore e - 1) (breaker e)
                           (wrap64 (outstanding e - 1)) (healthy e) (ewmaMS e) in
        (Ok true, l, set_entry (entry l) e r)
    end.

Definition update_ewma (latency : time.Duration) (ewma : float64.t) : float64.t :=
  let measurement := float64.of_int (time.Milliseconds latency) in
  if float64.eq ewma float64.zero then measurement
  else float64.add (float64.mul float64.c0_2 measurement) (float64.mul float64.c0_8 ewma).

Definition Success (latency : time.Duration) (l : Lease) (r : Router) : res unit * Lease * Router :=
  match release l r with
  | (Ok false, l, r) => (Ok (), l, r)
  | (Ok true, l, r) =>
    (Ok (), l,
     mkRouter (alter (λ e, mkManaged (provider_ e) (config e) (semaphore e)
                             (circuitbreaker.Success (breaker e)) (outstanding e) (healthy e)
                             (update_ewma latency (ewmaMS e)))
                     (entry l) (providers r))
              (sequence r) (alpha r))
  | (Err e, l, r) => (Err e, l, r)
  | (Panic w, l, r) => (Panic w, l, r)
  end.

Definition Failure (retryable : bool) (now : time.Time) (l : Lease) (r : Router)
  : res unit * Lease * Router :=
  match release l r with
  | (Ok false, l, r) => (Ok (), l, r)
  | (Ok true, l, r) =>
    (Ok (), l,
     mkRouter (alter (λ e, with_breaker
                 (if retryable then circuitbreaker.Failure now (breaker e)
                  else circuitbreaker.Release (breaker e)) e)
                     (entry l) (providers r))
              (sequence r) (alpha r))
  | (Err e, l, r) => (Err e, l, r)
  | (Panic w, l, r) => (Panic w, l, r)
  end.

(** ** The static part of the registry

    Configurations and provider handles never change after [NewRouter]. *)

Definition static (e : managed) : Handle * ProviderConfig := (provider_ e, config e).
Definition statics (r : Router) : list (Handle * ProviderConfig) := static <$> providers r.

Create HintDb routing.

Lemma insert_statics (i : nat) (e e' : managed) (l : list managed) :
  l !! i = Some e → static e' = static e → static <$> <[i := e']> l = static <$> l.
Proof.
  intros Hi He. rewrite list_fmap_insert, He. apply list_insert_id.
  by rewrite list_lookup_fmap, Hi.
Qed.

Lemma set_entry_statics (i : nat) (e e' : managed) (r : Router) :
  providers r !! i = Some e → static e' = static e → statics (set_entry i e' r) = statics r.
Proof. apply insert_statics. Qed.

Lemma alter_statics (f : managed → managed) (i : nat) (l : list managed) :
  (∀ e, static (f e) = static e) → static <$> alter f i l = static <$> l.
Proof.
  intros Hf. apply list_eq. intros j. rewrite !list_lookup_fmap.
  destruct (decide (i = j)) as [->|].
  - rewrite list_lookup_alter_eq. destruct (l !! j); simpl; by rewrite ?Hf.
  - by rewrite list_lookup_alter_ne.
Qed.

Lemma order_providers (es : list (nat * managed)) (s : Strategy) (r : Router) :
  providers (order es s r).2 = providers r.
Proof. destruct s; simpl; split_ifs; done. Qed.

Lemma try_entries_statics (now : time.Time) (es : list (nat * managed)) (r : Router) :
  statics (try_entries now es r).2 = statics r.
Proof.
  revert r. induction es as [|[i e0] es IH]; intros r; simpl; [done|].
  destruct (providers r !! i) as [e|] eqn:Hi; [|done].
  destruct (circuitbreaker.Allow now (breaker e)) as [ok b].
  destruct ok; simpl; [destruct (_ <? _); simpl|];
    rewrite ?IH; by apply (set_entry_statics i e).
Qed.

Lemma Select_statics (wall : time.Time) (sel : Selection) (r : Router) :
  statics (Select wall sel r).2 = statics r.
Proof.
  unfold Select. destruct (eligible_entries _ _ _) as [|x l] eqn:E; [done|]. rewrite <-E. clear E.
  pose proof (order_providers (eligible_entries r sel (if time.IsZero (Now sel) then wall else Now sel))
    (strategy sel) r) as Hp.
  destruct (order _ _ _) as [[] r']; simpl in *; rewrite ?try_entries_statics;
    unfold statics; by rewrite Hp.
Qed.

Lemma release_statics (l : Lease) (r : Router) : statics (release l r).2 = statics r.
Proof.
  unfold release. destruct (released l); [done|]. simpl.
  destruct (providers r !! entry l) as [e|] eqn:Hi; [|done].
  destruct (_ <=? _); [done|]. by apply (set_entry_statics _ e).
Qed.

Lemma Success_statics (latency : time.Duration) (l : Lease) (r : Router) :
  statics (Success latency l r).2 = statics r.
Proof.
  unfold Success. pose proof (release_statics l r) as H.
  destruct (release l r) as [[[[]| |] l'] r']; simpl in *; rewrite <-H; try done.
  by apply alter_statics.
Qed.

Lemma Failure_statics (retryable : bool) (now : time.Time) (l : Lease) (r : Router) :
  statics (Failure retryable now l r).2 = statics r.
Proof.
  unfold Failure. pose proof (release_statics l r) as H.
  destruct (release l r) as [[[[]| |] l'] r']; simpl in *; rewrite <-H; try done.
  by apply alter_statics.
Qed.
Create Rewrite HintDb statics.
#[export] Hint Rewrite Select_statics Success_statics Failure_statics : statics.

(** ** What [Select] promises *)

(** The policy of a selection, as the documentation states it. *)
Record permitted (sel : Selection) (e : Handle * ProviderConfig) : Prop := {
  perm_enabled : Enabled e.2 = true;
  perm_allowed : ∀ s, AllowedProviders sel = Some s → Name e.1 ∈ s;
  perm_model : Model sel ∈ provider.Models (Capabilities e.1);
  perm_class : DataClassification sel ∈ provider.DataClassifications (Capabilities e.1)
}.

Record eligible_spec (sel : Selection) (now : time.Time) (e : managed) : Prop := {
  el_permitted : permitted sel (static e);
  el_healthy : healthy e = true;
  el_not_excluded : Name (provider_ e) ∉ ExcludedProviders sel;
  el_breaker : circuitbreaker.observe now (breaker e) ≠ circuitbreaker.Open;
  el_capacity : semaphore e < MaxConcurrency (config e)
}.

Lemma allowed_spec (sel : Selection) (name : string) :
  allowed sel name = true ↔ ∀ s, AllowedProviders sel = Some s → name ∈ s.
Proof.
  unfold allowed. destruct (AllowedProviders sel) as [s|]; [|naive_solver].
  rewrite bool_decide_eq_true. naive_solver.
Qed.

Lemma capable_spec (sel : Selection) (e : managed) :
  capable sel e = true ↔
  Model sel ∈ provider.Models (Capabilities (provider_ e)) ∧
  DataClassification sel ∈ provider.DataClassifications (Capabilities (provider_ e)).
Proof. unfold capable. by rewrite andb_true_iff, !bool_decide_eq_true. Qed.

Lemma eligible_iff (sel : Selection) (now : time.Time) (e : managed) :
  eligible sel now e = true ↔ eligible_spec sel now e.
Proof.
  unfold eligible. split.
  - intros H. split_ifs_in H; reflect.
    pose proof (proj1 (allowed_spec _ _) Heqb0). apply capable_spec in Heqb2 as [].
    by repeat split.
  - intros [[He Ha Hm Hd] Hh Hx Hb Hc]; simpl in *. rewrite He, Hh. simpl.
    rewrite (proj2 (allowed_spec _ _) Ha), (proj2 (capable_spec _ _) (conj Hm Hd)).
    rewrite !bool_decide_false by done. simpl. by rewrite (proj2 (Z.leb_gt _ _)).
Qed.

Lemma elem_of_eligible_entries (r : Router) (sel : Selection) (now : time.Time) (i : nat)
  (e : managed) :
  (i, e) ∈ eligible_entries r sel now ↔
  providers r !! i = Some e ∧ eligible_spec sel now e.
Proof.
  unfold eligible_entries. rewrite list_elem_of_In, List.filter_In, <-list_elem_of_In. simpl.
  rewrite eligible_iff, elem_of_lookup_imap. naive_solver.
Qed.

Lemma eligible_entries_NoDup (r : Router) (sel : Selection) (now : time.Time) :
  NoDup (eligible_entries r sel now).*1.
Proof.
  unfold eligible_entries. generalize (providers r). intros l.
  assert (NoDup (imap (@pair nat managed) l).*1) as H.
  { rewrite fmap_imap. apply NoDup_alt. intros i j x.
    rewrite !list_lookup_imap. intros Hi Hj. destruct (l !! i), (l !! j); naive_solver. }
  revert H. generalize (imap (@pair nat managed) l). clear l. intros l.
  induction l as [|x l IH]; simpl; [done|]. rewrite !NoDup_cons.
  intros [Hx Hl]. destruct (eligible _ _ _); [|by apply IH].
  rewrite fmap_cons, NoDup_cons. split; [|by apply IH].
  rewrite !list_elem_of_fmap in *. setoid_rewrite list_elem_of_In.
  intros (y & Hy & [Hin _]%List.filter_In). apply Hx. exists y. by rewrite list_elem_of_In.
Qed.

Lemma rotate_Permutation {A} (n : nat) (l : list A) : rotate n l ≡ₚ l.
Proof. unfold rotate. by rewrite Permutation_app_comm, take_drop. Qed.

Lemma order_Permutation (es ordered : list (nat * managed)) (s : Strategy) (r r' : Router) :
  order es s r = (Ok ordered, r') → ordered ≡ₚ es.
Proof.
  destruct s; simpl; intros H; try (simplify_eq; apply sort.SliceStable_Permutation);
    destruct (_ =? 0); simplify_eq; apply rotate_Permutation.
Qed.

(** The entries whose breaker grants a call now. *)
Definition grants (now : time.Time) (e : managed) : bool :=
  (circuitbreaker.Allow now (breaker e)).1.

(** On entries with free capacity the second loop of [Select] leases the
    first one whose breaker grants the call, and touches no entry after it. *)
Lemma try_entries_spec (now : time.Time) (es : list (nat * managed)) (r : Router) :
  NoDup es.*1 →
  Forall (λ ie, providers r !! ie.1 = Some ie.2 ∧
                semaphore ie.2 < MaxConcurrency (config ie.2)) es →
  (∃ pre i e post r', es = pre ++ (i, e) :: post ∧ Forall (λ ie, grants now ie.2 = false) pre ∧
     grants now e = true ∧ providers r' !! i = Some e ∧
     try_entries now es r =
       (Ok (make_lease i e),
        set_entry i (acquire (with_breaker (circuitbreaker.Allow now (breaker e)).2 e)) r')) ∨
  (Forall (λ ie, grants now ie.2 = false) es ∧
   (try_entries now es r).1 = Err ErrNoEligibleProvider).
Proof.
  revert r. induction es as [|[i e] es IH]; intros r Hnd Hes.
  { right. done. }
  rewrite fmap_cons in Hnd. apply NoDup_cons in Hnd as [Hi Hnd].
  apply Forall_cons in Hes as [[Hie Hcap] Hes]. simpl in *. rewrite Hie.
  destruct (circuitbreaker.Allow now (breaker e)) as [ok b] eqn:Eb.
  assert (grants now e = ok) as Hg by (unfold grants; by rewrite Eb).
  destruct ok; simpl.
  { left. rewrite (proj2 (Z.ltb_lt _ _) Hcap). exists [], i, e, es, r. rewrite Eb. done. }
  destruct (IH (set_entry i (with_breaker b e) r) Hnd) as
    [(pre & j & e' & post & r' & -> & Hpre & Hg' & Hr' & Heq)|[Hall Herr]].
  - apply Forall_forall. intros [j e'] Hj. rewrite Forall_forall in Hes.
    destruct (Hes _ Hj). simpl. rewrite list_lookup_insert_ne; [done|].
    intros ->. apply Hi. apply list_elem_of_fmap. by exists (j, e').
  - left. exists ((i, e) :: pre), j, e', post, r'. split_and!; try done. by constructor.
  - right. split; [by constructor|done].
Qed.

(** ** The capacity invariant *)

(** The unreleased leases of entry [i]. *)
Definition holds (i : nat) (l : Lease) : bool := negb (released l) && (entry l =? i)%nat.
Definition held (ls : list Lease) (i : nat) : Z := count (holds i) ls.

(** An entry of which [n] leases are out. *)
Record entry_ok (n : Z) (e : managed) : Prop := {
  ok_weight : 1 <= Weight (config e);
  ok_max : 1 <= MaxConcurrency (config e) <= int64_max;
  ok_semaphore : semaphore e = n;
  ok_outstanding : outstanding e = n;
  ok_capacity : 0 <= n <= MaxConcurrency (config e);
  ok_breaker : circuitbreaker.inv (breaker e)
}.

(** [inv r ls]: [ls] are all the leases handed out so far. *)
Record inv (r : Router) (ls : list Lease) : Prop := {
  inv_entries : ∀ i e, providers r !! i = Some e → entry_ok (held ls i) e;
  inv_leases : Forall (λ l, is_Some (providers r !! entry l)) ls;
  inv_weights : zsum ((λ s, Weight s.2) <$> statics r) <= int64_max
}.

Lemma set_entry_inv (i : nat) (e e' : managed) (r : Router) (ls ls' : list Lease) :
  inv r ls → providers r !! i = Some e → static e' = static e →
  entry_ok (held ls' i) e' → (∀ j, j ≠ i → held ls' j = held ls j) →
  Forall (λ l, is_Some (providers r !! entry l)) ls' →
  inv (set_entry i e' r) ls'.
Proof.
  intros [He Hl Hw] Hi Hst Hok Hheld Hls'. split.
  - intros j ej Hj. simpl in Hj. destruct (decide (j = i)) as [->|Hne].
    + rewrite list_lookup_insert_eq in Hj by eauto using lookup_lt_Some. naive_solver.
    + rewrite list_lookup_insert_ne in Hj by done. rewrite Hheld by done. auto.
  - eapply Forall_impl; [exact Hls'|]. simpl. intros l Hsome.
    apply lookup_lt_is_Some. rewrite length_insert. by apply lookup_lt_is_Some.
  - by rewrite (set_entry_statics i e).
Qed.

Lemma with_breaker_ok (n : Z) (e : managed) (b : circuitbreaker.Breaker) :
  entry_ok n e → circuitbreaker.inv b → entry_ok n (with_breaker b e).
Proof. intros [] ?. by split. Qed.

Lemma with_breaker_inv (i : nat) (e : managed) (b : circuitbreaker.Breaker) (r : Router)
  (ls : list Lease) :
  inv r ls → providers r !! i = Some e → circuitbreaker.inv b →
  inv (set_entry i (with_breaker b e) r) ls.
Proof.
  intros Hinv Hi Hb. apply (set_entry_inv i e _ r ls); try done.
  - apply with_breaker_ok; [by apply Hinv|done].
  - apply Hinv.
Qed.

Lemma acquire_ok (n : Z) (e : managed) :
  entry_ok n e → n < MaxConcurrency (config e) → entry_ok (n + 1) (acquire e).
Proof.
  intros [Hw Hm Hs Ho Hc Hb] Hn. split; simpl; try done; try lia.
  rewrite Ho. apply wrap64_id. unfold in_int64, int64_min, int64_max in *. lia.
Qed.

Lemma holds_make_lease (i j : nat) (e : managed) : holds j (make_lease i e) = (i =? j)%nat.
Proof. done. Qed.

Lemma held_lease_snoc (ls : list Lease) (l : Lease) (i : nat) :
  held (ls ++ [l]) i = held ls i + (if holds i l then 1 else 0).
Proof.
  unfold held. rewrite count_app. f_equal. unfold count. simpl. by destruct (holds i l).
Qed.

Lemma acquire_inv (i : nat) (e : managed) (r : Router) (ls : list Lease) :
  inv r ls → providers r !! i = Some e → semaphore e < MaxConcurrency (config e) →
  inv (set_entry i (acquire e) r) (ls ++ [make_lease i e]).
Proof.
  intros Hinv Hi Hc. pose proof (inv_entries _ _ Hinv i e Hi) as Hok.
  apply (set_entry_inv i e _ r ls); try done.
  - rewrite held_lease_snoc, holds_make_lease, Nat.eqb_refl.
    apply acquire_ok; [done|]. by rewrite <-(ok_semaphore _ _ Hok).
  - intros j Hj. rewrite held_lease_snoc, holds_make_lease. rewrite (proj2 (Nat.eqb_neq i j)) by done. lia.
  - apply Forall_app. split; [apply Hinv|]. repeat constructor. simpl. by rewrite Hi.
Qed.

(** What a selection may answer in a state satisfying the invariant. *)
Definition selected_ok (ls : list Lease) (out : res Lease * Router) : Prop :=
  match out with
  | (Ok l, r') => released l = false ∧ inv r' (ls ++ [l])
  | (Err e, r') => e = ErrNoEligibleProvider ∧ inv r' ls
  | (Panic _, _) => False
  end.

Lemma try_entries_inv (now : time.Time) (es : list (nat * managed)) (r : Router)
  (ls : list Lease) :
  inv r ls → Forall (λ ie, is_Some (providers r !! ie.1)) es →
  selected_ok ls (try_entries now es r).
Proof.
  revert r. induction es as [|[i e0] es IH]; intros r Hinv Hes; simpl; [done|].
  apply Forall_cons in Hes as [[e Hi] Hes]. simpl in Hi. rewrite Hi.
  pose proof (inv_entries _ _ Hinv i e Hi) as Hok.
  pose proof (circuitbreaker.Allow_inv now (breaker e) (ok_breaker _ _ Hok)) as Hb.
  destruct (circuitbreaker.Allow now (breaker e)) as [ok b]. simpl in *.
  assert (∀ b', Forall (λ ie : nat * managed,
                  is_Some (providers (set_entry i (with_breaker b' e) r) !! ie.1)) es) as Hes'.
  { intros b'. eapply Forall_impl; [exact Hes|]. simpl. intros ie.
    rewrite !lookup_lt_is_Some, length_insert. done. }
  destruct ok; simpl; [|apply IH; [by apply with_breaker_inv|apply Hes']].
  destruct (_ <? _) eqn:Ec; reflect.
  - split; [done|].
    replace (set_entry i (acquire (with_breaker b e)) r)
      with (set_entry i (acquire (with_breaker b e)) (set_entry i (with_breaker b e) r))
      by (unfold set_entry; simpl; by rewrite list_insert_insert_eq).
    apply (acquire_inv i (with_breaker b e)); [by apply with_breaker_inv| |done].
    simpl. apply list_lookup_insert_eq. eauto using lookup_lt_Some.
  - apply IH; [|apply Hes']. apply (with_breaker_inv i e (circuitbreaker.Release b)); try done.
    by apply circuitbreaker.Release_inv.
Qed.

(** *** The sum of weights does not overflow *)

Definition weight (ie : nat * managed) : Z := Weight (config ie.2).

Lemma total_weight_exact (es : list (nat * managed)) (acc : Z) :
  Forall (λ ie, 1 <= weight ie) es → 0 <= acc → acc + zsum (weight <$> es) <= int64_max →
  foldl (λ total ie, wrap64 (total + Weight (config ie.2))) acc es = acc + zsum (weight <$> es).
Proof.
  intros Hes. revert acc. induction Hes as [|ie es Hw Hes IH]; intros acc Hacc Hmax; [simpl; lia|].
  rewrite fmap_cons, zsum_cons in *. cbn [foldl]. cbv beta in Hw.
  assert (0 <= zsum (weight <$> es)).
  { apply zsum_nonneg, Forall_fmap. eapply Forall_impl; [exact Hes|]. simpl. lia. }
  change (Weight (config ie.2)) with (weight ie).
  rewrite (wrap64_id (acc + weight ie)) by (unfold in_int64, int64_min in *; lia).
  rewrite IH; lia.
Qed.

Lemma weights_entries (l : list managed) :
  weight <$> imap pair l = (λ s, Weight s.2) <$> (static <$> l).
Proof.
  apply list_eq. intros i. rewrite !list_lookup_fmap, list_lookup_imap. by destruct (l !! i).
Qed.

Lemma entries_weights_ok (r : Router) (ls : list Lease) (sel : Selection) (now : time.Time) :
  inv r ls →
  Forall (λ ie, 1 <= weight ie) (eligible_entries r sel now) ∧
  zsum (weight <$> eligible_entries r sel now) <= int64_max.
Proof.
  intros [He _ Hw].
  assert (Forall (λ ie, 1 <= weight ie) (imap pair (providers r))) as Hall.
  { apply Forall_forall. intros [i e]. rewrite elem_of_lookup_imap.
    intros (j & e' & [= -> ->] & Hj). apply (ok_weight _ _ (He _ _ Hj)). }
  split.
  - apply Forall_forall. intros ie. unfold eligible_entries.
    rewrite list_elem_of_In, List.filter_In, <-list_elem_of_In. intros [Hin _].
    rewrite Forall_forall in Hall. auto.
  - etrans; [apply (zsum_filter_le weight)|].
    + eapply Forall_impl; [exact Hall|]. simpl. lia.
    + by rewrite weights_entries.
Qed.

Lemma total_weight_eligible (r : Router) (ls : list Lease) (sel : Selection) (now : time.Time) :
  inv r ls →
  total_weight (eligible_entries r sel now) = zsum (weight <$> eligible_entries r sel now).
Proof.
  intros H. destruct (entries_weights_ok r ls sel now H) as [Hw Hs].
  unfold total_weight. by rewrite total_weight_exact.
Qed.

Lemma zsum_weights_pos (es : list (nat * managed)) :
  Forall (λ ie, 1 <= weight ie) es → es ≠ [] → 0 < zsum (weight <$> es).
Proof.
  intros Hes Hne. destruct Hes as [|ie es Hw Hes]; [done|]. rewrite fmap_cons, zsum_cons.
  cbv beta in Hw. enough (0 <= zsum (weight <$> es)) by lia.
  apply zsum_nonneg, Forall_fmap. eapply Forall_impl; [exact Hes|]. simpl. lia.
Qed.

Lemma order_Ok (r : Router) (ls : list Lease) (sel : Selection) (now : time.Time) (s : Strategy) :
  inv r ls → eligible_entries r sel now ≠ [] →
  ∃ ordered r', order (eligible_entries r sel now) s r = (Ok ordered, r').
Proof.
  intros Hinv Hne. pose proof (entries_weights_ok r ls sel now Hinv) as [Hw _].
  pose proof (zsum_weights_pos _ Hw Hne) as Hpos.
  unfold order. rewrite (total_weight_eligible r ls sel now Hinv).
  rewrite (proj2 (Z.eqb_neq _ _)) by lia. destruct s; eauto.
Qed.

Lemma order_inv (es : list (nat * managed)) (s : Strategy) (r : Router) (ls : list Lease) :
  inv r ls → inv (order es s r).2 ls.
Proof.
  pose proof (order_providers es s r) as Hp. intros [He Hl Hw].
  split; unfold statics in *; by rewrite Hp.
Qed.

(** The clock reading a selection uses. *)
Definition sel_now (wall : time.Time) (sel : Selection) : time.Time :=
  if time.IsZero (Now sel) then wall else Now sel.

Lemma Select_unfold (wall : time.Time) (sel : Selection) (r : Router) (ls : list Lease) :
  inv r ls →
  let es := eligible_entries r sel (sel_now wall sel) in
  (es = [] ∧ Select wall sel r = (Err ErrNoEligibleProvider, r)) ∨
  (∃ ordered r', order es (strategy sel) r = (Ok ordered, r') ∧ ordered ≡ₚ es ∧
     providers r' = providers r ∧ inv r' ls ∧
     Select wall sel r = try_entries (sel_now wall sel) ordered r').
Proof.
  intros Hinv es. unfold Select. fold (sel_now wall sel). fold es.
  destruct (decide (es = [])) as [->|Hne]; [by left|right].
  destruct (order_Ok r ls sel (sel_now wall sel) (strategy sel) Hinv Hne) as (ordered & r' & Ho).
  fold es in Ho. exists ordered, r'.
  pose proof (order_providers es (strategy sel) r) as Hp.
  pose proof (order_inv es (strategy sel) r ls Hinv) as Hi. rewrite Ho in *. simpl in *.
  split_and!; try done; [by eapply order_Permutation|]. by destruct es.
Qed.

Lemma eligible_lookup (r : Router) (sel : Selection) (now : time.Time) :
  Forall (λ ie, providers r !! ie.1 = Some ie.2 ∧ eligible_spec sel now ie.2)
         (eligible_entries r sel now).
Proof. apply Forall_forall. intros [i e] H. by apply elem_of_eligible_entries in H. Qed.

Lemma Select_inv (wall : time.Time) (sel : Selection) (r : Router) (ls : list Lease) :
  inv r ls → selected_ok ls (Select wall sel r).
Proof.
  intros Hinv.
  destruct (Select_unfold wall sel r ls Hinv) as
    [[_ ->]|(ordered & r' & Ho & Hperm & Hp & Hinv' & ->)]; [done|].
  apply try_entries_inv; [done|]. rewrite Hperm, Hp.
  eapply Forall_impl; [apply eligible_lookup|]. intros ie [-> _]. eauto.
Qed.

(** *** Releasing *)

Definition mark_released (l : Lease) : Lease :=
  mkLease (lease_Provider l) (lease_Timeout l) (lease_InputCost l) (lease_OutputCost l)
          (entry l) true.

Lemma held_mark (ls : list Lease) (k : nat) (l : Lease) (i : nat) :
  ls !! k = Some l → released l = false →
  held (<[k := mark_released l]> ls) i = held ls i - (if (entry l =? i)%nat then 1 else 0).
Proof.
  intros Hk Hr. unfold held. rewrite (count_insert _ _ _ _ _ Hk).
  unfold holds. rewrite Hr. simpl. destruct (_ =? _)%nat; lia.
Qed.

(** Releasing the [k]-th lease: nothing for a released one; otherwise the
    token comes back and the entry stays consistent. *)
Lemma release_inv (k : nat) (l : Lease) (r : Router) (ls : list Lease) :
  inv r ls → ls !! k = Some l →
  if released l then release l r = (Ok false, l, r)
  else ∃ r', release l r = (Ok true, mark_released l, r') ∧
             inv r' (<[k := mark_released l]> ls).
Proof.
  intros Hinv Hk. unfold release. destruct (released l) eqn:Hr; [done|].
  fold (mark_released l). simpl.
  pose proof (inv_leases _ _ Hinv) as Hls.
  destruct (Forall_lookup_1 _ _ _ _ Hls Hk) as [e He]. rewrite He.
  pose proof (inv_entries _ _ Hinv _ _ He) as [Hw Hm Hs Ho Hc Hb].
  pose proof (held_mark ls k l (entry l) Hk Hr) as Hheld. rewrite Nat.eqb_refl in Hheld.
  pose proof (count_nonneg (holds (entry l)) (<[k := mark_released l]> ls)) as Hpos.
  fold (held (<[k := mark_released l]> ls) (entry l)) in Hpos.
  rewrite (proj2 (Z.leb_gt _ _)) by lia. eexists. split; [done|].
  eapply set_entry_inv; [exact Hinv|exact He|done|split; simpl; try done; try lia| |].
  - rewrite wrap64_id by (unfold in_int64, int64_min, int64_max in *; lia). lia.
  - intros j Hj. rewrite (held_mark ls k l j Hk Hr).
    rewrite (proj2 (Nat.eqb_neq _ _)) by done. lia.
  - apply Forall_insert; [done|]. simpl. by rewrite He.
Qed.

(** Changing the breaker and the latency average of one entry. *)
Lemma alter_inv (f : managed → managed) (i : nat) (r : Router) (ls : list Lease) :
  (∀ n e, entry_ok n e → entry_ok n (f e)) → (∀ e, static (f e) = static e) →
  inv r ls → inv (mkRouter (alter f i (providers r)) (sequence r) (alpha r)) ls.
Proof.
  intros Hf Hst [He Hl Hw]. split; simpl.
  - intros j e Hj. destruct (decide (i = j)) as [->|].
    + rewrite list_lookup_alter_eq in Hj. destruct (providers r !! j) eqn:E; simplify_eq/=. auto.
    + rewrite list_lookup_alter_ne in Hj by done. auto.
  - eapply Forall_impl; [exact Hl|]. simpl. intros l.
    rewrite !lookup_lt_is_Some, length_alter. done.
  - unfold statics in *. simpl. by rewrite alter_statics.
Qed.

Lemma lease_Success_inv (latency : time.Duration) (k : nat) (l : Lease) (r : Router) (ls : list Lease) :
  inv r ls → ls !! k = Some l →
  ∃ r', Success latency l r = (Ok (), mark_released l, r') ∧ inv r' (<[k := mark_released l]> ls).
Proof.
  intros Hinv Hk. pose proof (release_inv k l r ls Hinv Hk) as H. unfold Success.
  destruct (released l) eqn:Hr.
  - rewrite H. assert (mark_released l = l) as Hml
      by (destruct l; simpl in *; unfold mark_released; simpl; by rewrite Hr).
    rewrite Hml. exists r. by rewrite list_insert_id.
  - destruct H as (r' & -> & Hr'). eexists. split; [done|]. apply alter_inv; try done.
    intros n e []. split; simpl; try done. by apply circuitbreaker.Success_inv.
Qed.

Lemma lease_Failure_inv (retryable : bool) (now : time.Time) (k : nat) (l : Lease) (r : Router)
  (ls : list Lease) :
  inv r ls → ls !! k = Some l →
  ∃ r', Failure retryable now l r = (Ok (), mark_released l, r') ∧
        inv r' (<[k := mark_released l]> ls).
Proof.
  intros Hinv Hk. pose proof (release_inv k l r ls Hinv Hk) as H. unfold Failure.
  destruct (released l) eqn:Hr.
  - rewrite H. assert (mark_released l = l) as Hml
      by (destruct l; simpl in *; unfold mark_released; simpl; by rewrite Hr).
    rewrite Hml. exists r. by rewrite list_insert_id.
  - destruct H as (r' & -> & Hr'). eexists. split; [done|]. apply alter_inv; try done.
    intros n e []. split; simpl; try done.
    destruct retryable; auto using circuitbreaker.Failure_inv, circuitbreaker.Release_inv.
Qed.

(** *** Construction *)

(** The registry's integers are Go [int]s and their weights can be added up. *)
Definition configs_ok (configs : list ProviderConfig) (bc : circuitbreaker.Config) : Prop :=
  circuitbreaker.config_ok bc ∧ Forall (λ c, in_int64 (MaxConcurrency c)) configs ∧
  zsum ((λ c, Weight (normalize c)) <$> configs) <= int64_max.

Lemma new_entries_spec (configs : list ProviderConfig) (bc : circuitbreaker.Config)
  (es : list managed) :
  new_entries configs bc = Ok es →
  (config <$> es) = (normalize <$> configs) ∧
  Forall (λ e, semaphore e = 0 ∧ outstanding e = 0 ∧ breaker e = circuitbreaker.New bc) es.
Proof.
  revert es. induction configs as [|c configs IH]; intros es; simpl; [by intros [= <-]|].
  destruct (Provider c) as [h|]; [|done].
  destruct (new_entries configs bc) as [rest| |]; simpl; [|done..]. intros [= <-].
  destruct (IH rest eq_refl) as [Hc Hall]. simpl. split; [by f_equal|by constructor].
Qed.

Lemma normalize_config_pos (c : ProviderConfig) : in_int64 (MaxConcurrency c) →
  1 <= Weight (normalize c) ∧ 1 <= MaxConcurrency (normalize c) <= int64_max.
Proof.
  unfold in_int64, int64_min, int64_max. simpl. intros H.
  destruct (Weight c <=? 0) eqn:E1, (MaxConcurrency c <=? 0) eqn:E2; reflect; lia.
Qed.

Lemma NewRouter_inv (configs : list ProviderConfig) (bc : circuitbreaker.Config) (r : Router) :
  configs_ok configs bc → NewRouter configs bc = Ok r → inv r [].
Proof.
  intros (Hbc & Hmax & Hsum) H. unfold NewRouter in H.
  assert (∃ es, new_entries configs bc = Ok es ∧ r = mkRouter es 0 float64.c0_2) as (es & Hes & ->).
  { destruct configs; [done|]. destruct (new_entries _ _); simplify_eq/=. eauto. }
  apply new_entries_spec in Hes as [Hc Hall]. split; simpl; [|done|].
  - intros i e Hi. destruct (Forall_lookup_1 _ _ _ _ Hall Hi) as (Hs & Ho & Hb).
    assert ((config <$> es) !! i = Some (config e)) as Hci by by rewrite list_lookup_fmap, Hi.
    rewrite Hc, list_lookup_fmap in Hci. destruct (configs !! i) as [c|] eqn:Hcc; simplify_eq/=.
    destruct (normalize_config_pos c (Forall_lookup_1 _ _ _ _ Hmax Hcc)) as [H1 H2].
    rewrite Hci in H1, H2. split; try done; [unfold held, count; simpl; lia|].
    rewrite Hb. by apply circuitbreaker.New_inv.
  - unfold statics. simpl. rewrite <-list_fmap_compose.
    replace (_ <$> es) with (Weight <$> (config <$> es)) by by rewrite <-list_fmap_compose.
    by rewrite Hc, <-list_fmap_compose.
Qed.

(** *** Every use of the router *)

(** The router with every lease handed out so far; a client calls [Select] and
    reports the outcome of any lease, any number of times, in any order. *)
Record system : Type := mkSystem { sys_router : Router; sys_leases : list Lease }.

Inductive op : Type :=
| OpSelect (wall : time.Time) (sel : Selection)
| OpSuccess (k : nat) (latency : time.Duration)
| OpFailure (k : nat) (retryable : bool) (now : time.Time).

Definition report (k : nat) (out : res unit * Lease * Router) (s : system) : res system :=
  match out with
  | (Ok _, l, r) => Ok (mkSystem r (<[k := l]> (sys_leases s)))
  | (Err e, _, _) => Err e
  | (Panic w, _, _) => Panic w
  end.

Definition apply_op (s : system) (o : op) : res system :=
  match o with
  | OpSelect wall sel =>
    match Select wall sel (sys_router s) with
    | (Ok l, r) => Ok (mkSystem r (sys_leases s ++ [l]))
    | (Err _, r) => Ok (mkSystem r (sys_leases s))
    | (Panic w, _) => Panic w
    end
  | OpSuccess k latency =>
    match sys_leases s !! k with
    | Some l => report k (Success latency l (sys_router s)) s
    | None => Ok s
    end
  | OpFailure k retryable now =>
    match sys_leases s !! k with
    | Some l => report k (Failure retryable now l (sys_router s)) s
    | None => Ok s
    end
  end.

Fixpoint run_ops (s : system) (ops : list op) : res system :=
  match ops with
  | [] => Ok s
  | o :: ops => apply_op s o ≫= λ s, run_ops s ops
  end.

Lemma apply_op_ok (s : system) (o : op) :
  inv (sys_router s) (sys_leases s) →
  ∃ s', apply_op s o = Ok s' ∧ inv (sys_router s') (sys_leases s') ∧
        statics (sys_router s') = statics (sys_router s).
Proof.
  intros Hinv. destruct o as [wall sel|k latency|k retryable now]; simpl.
  - pose proof (Select_inv wall sel _ _ Hinv) as H.
    pose proof (Select_statics wall sel (sys_router s)) as Hst.
    destruct (Select wall sel (sys_router s)) as [[l|e|w] r]; simpl in *; [| |done];
      destruct H; eexists; split_and!; done.
  - destruct (sys_leases s !! k) as [l|] eqn:Hk; [|eauto].
    destruct (lease_Success_inv latency k l _ _ Hinv Hk) as (r' & Heq & Hr').
    pose proof (Success_statics latency l (sys_router s)) as Hst. rewrite Heq in *. simpl. eauto.
  - destruct (sys_leases s !! k) as [l|] eqn:Hk; [|eauto].
    destruct (lease_Failure_inv retryable now k l _ _ Hinv Hk) as (r' & Heq & Hr').
    pose proof (Failure_statics retryable now l (sys_router s)) as Hst. rewrite Heq in *.
    simpl. eauto.
Qed.

Lemma run_ops_ok (ops : list op) (s : system) :
  inv (sys_router s) (sys_leases s) →
  ∃ s', run_ops s ops = Ok s' ∧ inv (sys_router s') (sys_leases s') ∧
        statics (sys_router s') = statics (sys_router s).
Proof.
  revert s. induction ops as [|o ops IH]; intros s Hinv; simpl; [eauto|].
  destruct (apply_op_ok s o Hinv) as (s' & -> & Hinv' & Hst). simpl.
  destruct (IH s' Hinv') as (s'' & -> & Hinv'' & Hst'). exists s''. by rewrite Hst', Hst.
Qed.

(** *** Leases once handed out *)

Lemma release_released (l : Lease) (r : Router) : released (release l r).1.2 = true.
Proof.
  unfold release. destruct (released l) eqn:Hr; [done|]. simpl.
  destruct (providers r !! entry l); [|done]. by destruct (_ <=? _).
Qed.

Lemma Success_released (latency : time.Duration) (l : Lease) (r : Router) :
  released (Success latency l r).1.2 = true.
Proof.
  unfold Success. pose proof (release_released l r) as H.
  by destruct (release l r) as [[[[]| |] l'] r'].
Qed.

Lemma Failure_released (retryable : bool) (now : time.Time) (l : Lease) (r : Router) :
  released (Failure retryable now l r).1.2 = true.
Proof.
  unfold Failure. pose proof (release_released l r) as H.
  by destruct (release l r) as [[[[]| |] l'] r'].
Qed.

(** A lease stays in its place, and stays released. *)
Definition leases_kept (ls ls' : list Lease) : Prop :=
  ∀ k l, ls !! k = Some l → ∃ l', ls' !! k = Some l' ∧ (released l = true → released l' = true).

#[global] Instance leases_kept_preorder : PreOrder leases_kept.
Proof.
  split.
  - intros ls k l Hk. eauto.
  - intros ls1 ls2 ls3 H1 H2 k l Hk. destruct (H1 k l Hk) as (l' & Hk' & Hr).
    destruct (H2 k l' Hk') as (l'' & Hk'' & Hr'). eauto.
Qed.

Lemma leases_kept_snoc (ls : list Lease) (l : Lease) : leases_kept ls (ls ++ [l]).
Proof. intros k l' Hk. exists l'. split; [by apply lookup_app_l_Some|done]. Qed.

Lemma leases_kept_insert (ls : list Lease) (k : nat) (l : Lease) :
  released l = true → leases_kept ls (<[k := l]> ls).
Proof.
  intros Hl j l' Hj. destruct (decide (j = k)) as [->|].
  - exists l. rewrite list_lookup_insert_eq by eauto using lookup_lt_Some. auto.
  - exists l'. by rewrite list_lookup_insert_ne.
Qed.

Lemma apply_op_kept (s s' : system) (o : op) :
  apply_op s o = Ok s' → leases_kept (sys_leases s) (sys_leases s').
Proof.
  destruct o as [wall sel|k latency|k retryable now]; simpl.
  - destruct (Select wall sel (sys_router s)) as [[]]; intros; simplify_eq/=; try done.
    apply leases_kept_snoc.
  - destruct (sys_leases s !! k) as [l|]; [|by intros [= ->]].
    pose proof (Success_released latency l (sys_router s)) as Hr.
    destruct (Success _ _ _) as [[[] l'] r']; intros; simplify_eq/=. by apply leases_kept_insert.
  - destruct (sys_leases s !! k) as [l|]; [|by intros [= ->]].
    pose proof (Failure_released retryable now l (sys_router s)) as Hr.
    destruct (Failure _ _ _ _) as [[[] l'] r']; intros; simplify_eq/=. by apply leases_kept_insert.
Qed.

Lemma run_ops_kept (ops : list op) (s s' : system) :
  run_ops s ops = Ok s' → leases_kept (sys_leases s) (sys_leases s').
Proof.
  revert s. induction ops as [|o ops IH]; intros s; simpl; [by intros [= ->]|].
  destruct (apply_op s o) as [s1| |] eqn:Ho; [|done..]. simpl. intros Hs.
  etrans; [by eapply apply_op_kept|by apply IH].
Qed.

(** However clients select providers and report outcomes
    (late, twice, in any order), no call panics or blocks, and for every
    provider the semaphore and the outstanding counter both equal the number
    of leases not yet released, which never exceeds [MaxConcurrency]; its
    breaker keeps its own invariant. *)
Theorem router_invariant (configs : list ProviderConfig) (bc : circuitbreaker.Config) (r : Router)
  (Hc : configs_ok configs bc) (Hr : NewRouter configs bc = Ok r) (ops : list op) :
  ∃ s, run_ops (mkSystem r []) ops = Ok s ∧ inv (sys_router s) (sys_leases s).
Proof.
  destruct (run_ops_ok ops (mkSystem r [])) as (s & Hs & Hinv & _); [|eauto].
  simpl. by eapply NewRouter_inv.
Qed.

(** A registry of two providers for the witnesses. *)
Definition demo_handle (i : nat) (name : string) : Handle :=
  mkHandle i name (provider.mkCapabilities {["m"]} {["PUBLIC"]}).
Definition demo_config (i : nat) (name : string) (weight priority price : Z) : ProviderConfig :=
  mkProviderConfig (Some (demo_handle i name)) weight priority 1 0 price (2 * price) true.
Definition demo_configs : list ProviderConfig :=
  [demo_config 0 "a" 2 5 10; demo_config 1 "b" 1 1 30].
Definition demo_breaker : circuitbreaker.Config := circuitbreaker.mkConfig 0 0 0 0.
Definition demo_router : Router :=
  match NewRouter demo_configs demo_breaker with Ok r => r | _ => mkRouter [] 0 float64.zero end.
Definition demo_selection (s : Strategy) : Selection := mkSelection "m" "PUBLIC" None ∅ s 5.

Lemma demo_configs_ok : configs_ok demo_configs demo_breaker.
Proof.
  split; [by vm_compute|]. split; [|by unfold demo_configs; simpl].
  unfold demo_configs, in_int64, int64_min, int64_max. repeat constructor; simpl; lia.
Qed.

Lemma demo_NewRouter : NewRouter demo_configs demo_breaker = Ok demo_router.
Proof. reflexivity. Qed.

Lemma demo_router_inv : inv demo_router [].
Proof. apply (NewRouter_inv demo_configs demo_breaker); [apply demo_configs_ok|apply demo_NewRouter]. Qed.

Lemma router_invariant_witness :
  ∃ s, run_ops (mkSystem demo_router [])
         [OpSelect 0 (demo_selection WeightedRoundRobin); OpSelect 0 (demo_selection LeastLatency);
          OpSuccess 0 7; OpSuccess 0 7; OpFailure 1 true 9] = Ok s ∧
       inv (sys_router s) (sys_leases s).
Proof.
  apply (router_invariant demo_configs demo_breaker); [apply demo_configs_ok|apply demo_NewRouter].
Defined.

(** The two outcomes of [Select]: the first entry, in the strategy's order,
    whose breaker grants the call; or no eligible entry's breaker does. *)
Definition leases_first (now : time.Time) (sel : Selection) (r : Router)
  (out : res Lease * Router) (pre : list (nat * managed)) (i : nat) (e : managed)
  (post : list (nat * managed)) : Prop :=
  ∃ r1 r2,
    order (eligible_entries r sel now) (strategy sel) r = (Ok (pre ++ (i, e) :: post), r1) ∧
    Forall (λ ie, grants now ie.2 = false) pre ∧
    providers r !! i = Some e ∧ eligible_spec sel now e ∧ grants now e = true ∧
    providers r2 !! i = Some e ∧
    out = (Ok (make_lease i e),
           set_entry i (acquire (with_breaker (circuitbreaker.Allow now (breaker e)).2 e)) r2).

Lemma Select_cases (wall : time.Time) (sel : Selection) (r : Router) (ls : list Lease) :
  inv r ls →
  let now := sel_now wall sel in
  (∃ pre i e post, leases_first now sel r (Select wall sel r) pre i e post) ∨
  ((Select wall sel r).1 = Err ErrNoEligibleProvider ∧
   ∀ i e, providers r !! i = Some e → eligible_spec sel now e → grants now e = false).
Proof.
  intros Hinv now. destruct (Select_unfold wall sel r ls Hinv) as
    [[Hnil ->]|(ordered & r1 & Ho & Hperm & Hp & Hinv1 & ->)].
  { right. split; [done|]. intros i e Hi He.
    assert ((i, e) ∈ eligible_entries r sel now) as Hin by by apply elem_of_eligible_entries.
    fold now in Hnil. rewrite Hnil in Hin. by apply not_elem_of_nil in Hin. }
  fold now in Ho, Hperm |- *.
  assert (Forall (λ ie, providers r !! ie.1 = Some ie.2 ∧ eligible_spec sel now ie.2) ordered)
    as Hall by (rewrite Hperm; apply eligible_lookup).
  destruct (try_entries_spec now ordered r1) as
    [(pre & i & e & post & r2 & -> & Hpre & Hg & Hr2 & Htry)|[Hno Herr]].
  { rewrite Hperm. apply eligible_entries_NoDup. }
  { rewrite Hp. eapply Forall_impl; [exact Hall|]. intros ie [? []]. done. }
  - left. apply Forall_app in Hall as [_ [[Hi He] _]%Forall_cons].
    exists pre, i, e, post, r1, r2. done.
  - right. split; [done|]. intros i e Hi He. rewrite Forall_forall in Hno.
    apply (Hno (i, e)). rewrite Hperm. by apply elem_of_eligible_entries.
Qed.

(** C29 (functional): [Select] leases only a provider that the policy permits
    (enabled, healthy, allowed, not excluded, serving the model and the data
    classification), whose circuit is not open and that has free capacity;
    the lease carries that provider's handle, timeout and prices, and takes
    exactly one capacity token of it. It fails only with
    [ErrNoEligibleProvider], exactly when no such provider's breaker grants a
    call. *)
Theorem Select_spec (wall : time.Time) (sel : Selection) (r : Router) (ls : list Lease)
  (Hinv : inv r ls) :
  let now := sel_now wall sel in
  (∀ l r', Select wall sel r = (Ok l, r') →
     ∃ e e', providers r !! entry l = Some e ∧ eligible_spec sel now e ∧ grants now e = true ∧
       l = make_lease (entry l) e ∧
       providers r' !! entry l = Some e' ∧ semaphore e' = semaphore e + 1 ∧
       outstanding e' = outstanding e + 1) ∧
  ((Select wall sel r).1 = Err ErrNoEligibleProvider ↔
     ∀ i e, providers r !! i = Some e → eligible_spec sel now e → grants now e = false) ∧
  (∀ err, (Select wall sel r).1 = Err err → err = ErrNoEligibleProvider).
Proof.
  intros now. subst now. destruct (Select_cases wall sel r ls Hinv) as
    [(pre & i & e & post & r1 & r2 & _ & _ & Hi & He & Hg & Hr2 & ->)|[Herr Hno]].
  - split_and!; [|split; [done|]|done].
    + intros l r' [= <- <-]. simpl. exists e. eexists. split_and!; try done.
      { apply list_lookup_insert_eq. eauto using lookup_lt_Some. }
      { done. }
      simpl. pose proof (inv_entries _ _ Hinv i e Hi) as []. destruct He.
      rewrite wrap64_id; [done|]. unfold in_int64, int64_min, int64_max in *. lia.
    + intros Hnone. by rewrite (Hnone i e Hi He) in Hg.
  - split_and!; [|done|].
    + intros l r' Hl. by rewrite Hl in Herr.
    + intros err Hl. rewrite Herr in Hl. by injection Hl.
Qed.

Lemma Select_spec_witness :
  ∃ l r' e, Select 0 (demo_selection PriorityFallback) demo_router = (Ok l, r') ∧
    Name (lease_Provider l) = "b" ∧ providers demo_router !! entry l = Some e ∧
    eligible_spec (demo_selection PriorityFallback) 5 e.
Proof.
  destruct (Select 0 (demo_selection PriorityFallback) demo_router) as [out r'] eqn:Hs.
  assert (out = Ok (make_lease 1 (mkManaged (demo_handle 1 "b") (normalize (demo_config 1 "b" 1 1 30))
            0 (circuitbreaker.New demo_breaker) 0 true float64.zero))) as ->.
  { change out with (out, r').1. rewrite <-Hs. reflexivity. }
  destruct (Select_spec 0 (demo_selection PriorityFallback) demo_router [] demo_router_inv)
    as [H _].
  destruct (H _ _ Hs) as (e & e' & He & Hel & _). eauto 10.
Defined.

(** ** Conservative prices *)

Lemma price_step_spec (sel : Selection) (es : list managed) (acc : bool * Z * Z) :
  let '(found, inp, outp) := foldl (price_step sel) acc es in
  acc.1.2 <= inp ∧ acc.2 <= outp ∧ (acc.1.1 = true → found = true) ∧
  ∀ e, e ∈ es → permitted sel (static e) →
    found = true ∧ InputCostPerMillionMicro (config e) <= inp ∧
    OutputCostPerMillionMicro (config e) <= outp.
Proof.
  revert acc. induction es as [|e es IH]; intros acc; simpl.
  { destruct acc as [[found inp] outp]. simpl. split_and!; try lia; [done|].
    intros e He. by apply not_elem_of_nil in He. }
  specialize (IH (price_step sel acc e)).
  destruct (foldl (price_step sel) (price_step sel acc e) es) as [[found inp] outp].
  destruct IH as (Hi & Ho & Hf & Hall).
  assert (acc.1.2 <= (price_step sel acc e).1.2 ∧ acc.2 <= (price_step sel acc e).2 ∧
          (acc.1.1 = true → (price_step sel acc e).1.1 = true)) as (Hi' & Ho' & Hf').
  { unfold price_step. destruct acc as [[f i] o]. split_ifs; simpl; split_and!; try lia; done. }
  split_and!; try lia; [auto|]. intros x [->|Hx]%elem_of_cons Hp; [|auto].
  assert (price_step sel acc e =
    (true, Z.max acc.1.2 (InputCostPerMillionMicro (config e)),
     Z.max acc.2 (OutputCostPerMillionMicro (config e)))) as Heq.
  { destruct Hp as [He Ha Hm Hd]; simpl in *. unfold price_step.
    rewrite He, (proj2 (allowed_spec _ _) Ha), (proj2 (capable_spec _ _) (conj Hm Hd)).
    by destruct acc as [[f i] o]. }
  rewrite Heq in *. simpl in *. split_and!; [auto|lia..].
Qed.

(** The prices depend on the static part of the registry only. *)
Lemma HighestPrices_bound (sel : Selection) (r : Router) (inp outp : Z)
  (s : Handle * ProviderConfig) :
  HighestPrices sel r = Ok (inp, outp) → s ∈ statics r → permitted sel s →
  InputCostPerMillionMicro s.2 <= inp ∧ OutputCostPerMillionMicro s.2 <= outp.
Proof.
  unfold HighestPrices. intros H Hs Hp.
  apply list_elem_of_fmap in Hs as (e & -> & He).
  pose proof (price_step_spec sel (providers r) (false, 0, 0)) as Hspec.
  destruct (foldl _ _ _) as [[found i] o]. destruct found; simplify_eq/=.
  destruct Hspec as (_ & _ & _ & Hall). by apply Hall.
Qed.

Lemma HighestPrices_static (sel : Selection) (r r' : Router) :
  statics r = statics r' → HighestPrices sel r = HighestPrices sel r'.
Proof.
  intros Hst. unfold HighestPrices.
  enough (∀ l l' acc, static <$> l = static <$> l' →
    foldl (price_step sel) acc l = foldl (price_step sel) acc l') as Hfold
    by by rewrite (Hfold _ _ (false, 0, 0) Hst).
  clear. induction l as [|e l IH]; intros [|e' l'] acc; try done.
  rewrite !fmap_cons. intros [= Hp Hc Hl]. simpl. rewrite <-(IH l' _ Hl). f_equal.
  unfold price_step, capable. by rewrite Hp, Hc.
Qed.

(** [sel] and [sel'] ask for the same model, classification and providers. *)
Definition same_policy (sel sel' : Selection) : Prop :=
  Model sel = Model sel' ∧ DataClassification sel = DataClassification sel' ∧
  AllowedProviders sel = AllowedProviders sel'.

Lemma permitted_same_policy (sel sel' : Selection) (s : Handle * ProviderConfig) :
  same_policy sel sel' → permitted sel' s → permitted sel s.
Proof. intros (Hm & Hd & Ha) []. by split; rewrite ?Hm, ?Hd, ?Ha. Qed.

Lemma Select_permitted (wall : time.Time) (sel : Selection) (r r' : Router) (ls : list Lease)
  (l : Lease) :
  inv r ls → Select wall sel r = (Ok l, r') →
  ∃ e, static e ∈ statics r ∧ permitted sel (static e) ∧ l = make_lease (entry l) e ∧
       Name (provider_ e) ∉ ExcludedProviders sel.
Proof.
  intros Hinv Hs. destruct (Select_cases wall sel r ls Hinv) as
    [(pre & i & e & post & r1 & r2 & _ & _ & Hi & He & Hg & Hr2 & Heq)|[Herr _]];
    [|by rewrite Hs in Herr].
  rewrite Heq in Hs. simplify_eq/=. exists e. destruct He. split_and!; try done.
  apply list_elem_of_fmap. exists e. split; [done|]. by eapply list_elem_of_lookup_2.
Qed.

(** The prices [HighestPrices] answers for a policy are an upper
    bound on the prices of every lease that [Select] hands out under that
    policy later, after any use of the router in between, whatever health,
    load and breakers have become. *)
Theorem HighestPrices_dominate (r : Router) (ls : list Lease) (sel sel' : Selection)
  (inp outp : Z) (ops : list op) (s : system) (wall : time.Time) (l : Lease) (r' : Router)
  (Hinv : inv r ls) (Hprices : HighestPrices sel r = Ok (inp, outp))
  (Hops : run_ops (mkSystem r ls) ops = Ok s) (Hsame : same_policy sel sel')
  (Hsel : Select wall sel' (sys_router s) = (Ok l, r')) :
  lease_InputCost l <= inp ∧ lease_OutputCost l <= outp.
Proof.
  destruct (run_ops_ok ops (mkSystem r ls) Hinv) as (s' & Hs' & Hinv' & Hst).
  rewrite Hops in Hs'. injection Hs' as <-. simpl in Hst.
  destruct (Select_permitted _ _ _ _ _ _ Hinv' Hsel) as (e & He & Hp & -> & _).
  rewrite Hst in He.
  apply (HighestPrices_bound sel r inp outp (static e)); eauto using permitted_same_policy.
Qed.

Lemma HighestPrices_dominate_witness :
  ∃ l, (Select 0 (demo_selection PriorityFallback) demo_router).1 = Ok l ∧
       lease_InputCost l <= 30 ∧ lease_OutputCost l <= 60.
Proof.
  destruct (Select 0 (demo_selection PriorityFallback) demo_router) as [[l|e|w] r'] eqn:Hs.
  2,3: (assert (is_ok (Select 0 (demo_selection PriorityFallback) demo_router).1 = true) as Hx
          by reflexivity; by rewrite Hs in Hx).
  exists l. split; [done|].
  apply (HighestPrices_dominate demo_router [] (demo_selection PriorityFallback)
    (demo_selection PriorityFallback) 30 60 [] (mkSystem demo_router []) 0 l r'); try done.
  apply demo_router_inv.
Defined.

(** ** Strategies *)

Definition ewma_ok (r : Router) : Prop := Forall (λ e, float64.pos (ewmaMS e)) (providers r).

Lemma update_ewma_pos (latency : time.Duration) (x : float64.t) :
  0 <= latency → float64.pos x → float64.pos (update_ewma latency x).
Proof.
  intros Hl Hx. unfold update_ewma.
  assert (float64.pos (float64.of_int (time.Milliseconds latency))) as Hm
    by (apply float64.of_int_pos, Z.quot_pos; unfold time.Millisecond; lia).
  destruct (float64.eq x float64.zero); [done|].
  apply float64.add_pos; by apply float64.mul_pos.
Qed.

Lemma latency_pos (e : managed) : float64.pos (ewmaMS e) → float64.pos (latency e).
Proof. unfold latency. by destruct (float64.eq _ _). Qed.

(** The comparison a strategy sorts by; round robin compares nothing. *)
Definition better (s : Strategy) (a b : managed) : bool :=
  match s with
  | LeastOutstanding => outstanding a <? outstanding b
  | LeastLatency => float64.lt (latency a) (latency b)
  | PriorityFallback => Priority (config a) <? Priority (config b)
  | _ => false
  end.

Definition comparable (s : Strategy) (e : managed) : Prop :=
  s = LeastLatency → float64.is_nan (latency e) = false.

Lemma better_asym (s : Strategy) (a b : managed) :
  comparable s a → comparable s b → better s a b = true → better s b a = false.
Proof.
  unfold comparable. destruct s; simpl; intros Ha Hb H; try done; reflect; try (apply Z.ltb_ge; lia).
  apply float64.lt_asym; auto.
Qed.

Lemma better_weak (s : Strategy) (a b c : managed) :
  comparable s a → comparable s b → comparable s c →
  better s b a = false → better s c b = false → better s c a = false.
Proof.
  unfold comparable. destruct s; simpl; intros Ha Hb Hc H1 H2; try done; reflect;
    try (apply Z.ltb_ge; lia).
  eapply float64.lt_weak; [..|exact H1|exact H2]; auto.
Qed.

Definition sorting (s : Strategy) : Prop :=
  s = LeastOutstanding ∨ s = LeastLatency ∨ s = PriorityFallback.

Definition earlier (a b : nat * managed) : Prop := (a.1 < b.1)%nat.

Lemma eligible_entries_sorted (r : Router) (sel : Selection) (now : time.Time) :
  StronglySorted earlier (eligible_entries r sel now).
Proof.
  assert (∀ (l : list managed) k, StronglySorted earlier (imap (λ i e, ((k + i)%nat, e)) l)) as H.
  { induction l as [|e l IH]; intros k; simpl; constructor.
    - eapply (eq_ind _ (StronglySorted earlier)); [apply (IH (S k))|].
      apply imap_ext. intros i x _. simpl. f_equal. lia.
    - apply Forall_forall. intros [i x]. rewrite elem_of_lookup_imap.
      intros (j & y & [= -> ->] & _). unfold earlier. simpl. lia. }
  specialize (H (providers r) 0%nat). unfold eligible_entries. simpl in H.
  change (imap pair (providers r)) with (imap (λ i e, (i, e)) (providers r)).
  induction H as [|x l Hl IH Hx]; simpl; [constructor|]. destruct (eligible _ _ _); [|done].
  constructor; [done|]. apply Forall_forall. intros y.
  rewrite list_elem_of_In, List.filter_In, <-list_elem_of_In. rewrite Forall_forall in Hx. naive_solver.
Qed.

Lemma order_sorted (es ordered : list (nat * managed)) (s : Strategy) (r r' : Router) :
  sorting s → Forall (λ ie, comparable s ie.2) es → StronglySorted earlier es →
  order es s r = (Ok ordered, r') →
  StronglySorted (sort.precedes (λ a b, better s a.2 b.2) earlier) ordered.
Proof.
  intros Hs Hc He Ho.
  assert (ordered = sort.SliceStable (λ a b, better s a.2 b.2) es) as ->
    by (destruct Hs as [->|[->| ->]]; simplify_eq/=; done).
  eapply (sort.SliceStable_precedes (λ a b : nat * managed, better s a.2 b.2)
    (λ ie, comparable s ie.2)); [| |done|done]; simpl.
  - intros x y. apply better_asym.
  - intros x y z. apply better_weak.
Qed.

(** Under the sorting strategies the leased provider is the
    best one available: no other eligible provider whose breaker grants the
    call has fewer outstanding calls (least outstanding), a lower average
    latency (least latency; unmeasured providers count as 1e15 ms) or a
    smaller priority number (priority fallback), and of several equally good
    ones the one registered first is taken. *)
Theorem Select_best (wall : time.Time) (sel : Selection) (r : Router) (ls : list Lease)
  (l : Lease) (r' : Router) (e : managed)
  (Hinv : inv r ls) (Hewma : ewma_ok r) (Hs : sorting (strategy sel))
  (Hsel : Select wall sel r = (Ok l, r')) (He : providers r !! entry l = Some e) :
  ∀ i e', providers r !! i = Some e' → eligible_spec sel (sel_now wall sel) e' →
    grants (sel_now wall sel) e' = true →
    better (strategy sel) e' e = false ∧
    (better (strategy sel) e e' = true ∨ (entry l <= i)%nat).
Proof.
  intros i' e' Hi' He' Hg'. destruct (Select_cases wall sel r ls Hinv) as
    [(pre & i & e1 & post & r1 & r2 & Ho & Hpre & Hi & _ & Hg & Hr2 & Heq)|[Herr _]];
    [|by rewrite Hsel in Herr].
  set (now := sel_now wall sel) in *. rewrite Heq in Hsel. simplify_eq/=.
  assert (∀ i x, providers r !! i = Some x → comparable (strategy sel) x) as Hcomp.
  { intros j x Hj _. apply float64.pos_not_nan, latency_pos. by eapply Forall_lookup_1 in Hewma. }
  pose proof (order_Permutation _ _ _ _ _ Ho) as Hperm.
  apply order_sorted in Ho as Hsorted; [|done| |apply eligible_entries_sorted].
  2: { eapply Forall_impl; [apply eligible_lookup|]. intros ie [Hie _]. eauto. }
  assert ((i', e') ∈ pre ++ (i, e) :: post) as Hin
    by (rewrite Hperm; by apply elem_of_eligible_entries).
  apply StronglySorted_app in Hsorted as (_ & _ & [_ Hpost]%StronglySorted_inv).
  apply elem_of_app in Hin as [Hin|[Hin|Hin]%elem_of_cons].
  - rewrite Forall_forall in Hpre. specialize (Hpre _ Hin). simpl in Hpre. congruence.
  - simplify_eq. split; [|right; lia]. destruct (better (strategy sel) e e) eqn:E; [|done].
    by rewrite (better_asym (strategy sel) e e) in E by eauto.
  - rewrite Forall_forall in Hpost. destruct (Hpost _ Hin) as [H1 H2]. split; [done|].
    destruct H2 as [H2|H2]; [by left|right]. unfold earlier in H2. simpl in H2. lia.
Qed.

Lemma demo_ewma_ok : ewma_ok demo_router.
Proof. by repeat constructor. Qed.

Lemma Select_best_witness :
  ∃ l r' e, Select 0 (demo_selection PriorityFallback) demo_router = (Ok l, r') ∧
    providers demo_router !! entry l = Some e ∧
    ∀ i e', providers demo_router !! i = Some e' →
      eligible_spec (demo_selection PriorityFallback) 5 e' → grants 5 e' = true →
      better PriorityFallback e' e = false ∧
      (better PriorityFallback e e' = true ∨ (entry l <= i)%nat).
Proof.
  destruct (Select 0 (demo_selection PriorityFallback) demo_router) as [out r'] eqn:Hs.
  set (e := mkManaged (demo_handle 1 "b") (normalize (demo_config 1 "b" 1 1 30))
              0 (circuitbreaker.New demo_breaker) 0 true float64.zero).
  assert (out = Ok (make_lease 1 e)) as ->.
  { change out with (out, r').1. rewrite <-Hs. reflexivity. }
  exists (make_lease 1 e), r', e. split; [done|]. split; [reflexivity|].
  apply (Select_best 0 (demo_selection PriorityFallback) demo_router [] _ r' e demo_router_inv
           demo_ewma_ok); [by do 2 right|done|reflexivity].
Defined.

(** *** Round robin *)

(** [n] consecutive selections over the same eligible entries: the entry each
    one tries first. *)
Fixpoint heads (n : nat) (es : list (nat * managed)) (r : Router) : list (option nat) :=
  match n with
  | O => []
  | S n =>
    let '(out, r) := order es WeightedRoundRobin r in
    match out with Ok ordered => fst <$> head ordered | _ => None end :: heads n es r
  end.

Lemma pick_shift (ie : nat * managed) (es : list (nat * managed)) (p : Z) (k : nat) :
  1 <= weight ie → 0 <= p → weight ie + p <= int64_max →
  pick (ie :: es) (weight ie + p) k = pick es p (S k).
Proof.
  intros Hw Hp Hmax. simpl. change (Weight (config ie.2)) with (weight ie).
  rewrite wrap64_id by (unfold in_int64, int64_min, int64_max in *; lia).
  rewrite (proj2 (Z.ltb_ge _ _)) by lia. f_equal. lia.
Qed.

Lemma pick_head (ie : nat * managed) (es : list (nat * managed)) (p : Z) (k : nat) :
  0 <= p < weight ie → weight ie <= int64_max → pick (ie :: es) p k = k.
Proof.
  intros Hp Hmax. simpl. change (Weight (config ie.2)) with (weight ie).
  rewrite wrap64_id by (unfold in_int64, int64_min, int64_max in *; lia).
  by rewrite (proj2 (Z.ltb_lt _ _)) by lia.
Qed.

Lemma seqZ_app (m n o : Z) : 0 <= n → 0 <= o → seqZ m (n + o) = seqZ m n ++ seqZ (m + n) o.
Proof. intros. rewrite seqZ_app by lia. done. Qed.

(** Over one cycle of positions the pick visits each entry as often as its
    weight, in one run. *)
Lemma pick_cycle (es : list (nat * managed)) (k : nat) :
  Forall (λ ie, 1 <= weight ie) es → zsum (weight <$> es) <= int64_max →
  (λ p, pick es p k) <$> seqZ 0 (zsum (weight <$> es)) =
  concat (imap (λ i ie, replicate (Z.to_nat (weight ie)) (k + i)%nat) es).
Proof.
  intros Hes. revert k. induction Hes as [|ie es Hw Hes IH]; intros k Hmax; [done|].
  rewrite fmap_cons, zsum_cons in *. cbv beta in Hw.
  assert (0 <= zsum (weight <$> es)) as Hpos.
  { apply zsum_nonneg, Forall_fmap. eapply Forall_impl; [exact Hes|]. simpl. lia. }
  rewrite seqZ_app, fmap_app by lia. simpl imap. simpl concat. f_equal.
  - rewrite Nat.add_0_r. apply list_eq_same_length with (n := Z.to_nat (weight ie)).
    { by rewrite length_replicate. }
    { by rewrite length_fmap, length_seqZ. }
    intros i x y Hi Hx Hy. apply lookup_replicate in Hy as [-> _].
    rewrite list_lookup_fmap in Hx. rewrite lookup_seqZ_lt in Hx by lia. simplify_eq/=.
    apply (pick_head ie); lia.
  - transitivity ((λ p, pick es p (S k)) <$> seqZ 0 (zsum (weight <$> es))).
    + apply list_eq. intros i. rewrite !list_lookup_fmap.
      destruct (decide (Z.of_nat i < zsum (weight <$> es))).
      * rewrite !lookup_seqZ_lt by lia. simpl. f_equal.
        replace (0 + weight ie + Z.of_nat i) with (weight ie + Z.of_nat i) by lia.
        rewrite Z.add_0_l. apply (pick_shift ie es (Z.of_nat i) k); lia.
      * by rewrite !lookup_seqZ_ge by lia.
    + rewrite IH by lia. f_equal. apply imap_ext. intros i x _. simpl. f_equal. lia.
Qed.

(** The residues of consecutive numbers are a whole cycle. *)
Lemma residues_cycle (s n : Z) : 0 < n → (λ x, x mod n) <$> seqZ s n ≡ₚ seqZ 0 n.
Proof.
  intros Hn. apply submseteq_length_Permutation; [|by rewrite length_fmap, !length_seqZ].
  apply NoDup_submseteq.
  - apply NoDup_fmap_2_strong; [|apply NoDup_seqZ].
    intros x y Hx%elem_of_seqZ Hy%elem_of_seqZ Hxy.
    pose proof (Z.div_mod x n ltac:(lia)). pose proof (Z.div_mod y n ltac:(lia)).
    assert (x / n = y / n ∨ x / n < y / n ∨ y / n < x / n) as [?|[?|?]] by lia; nia.
  - intros x (y & -> & Hy)%list_elem_of_fmap. apply elem_of_seqZ.
    pose proof (Z.mod_pos_bound y n ltac:(lia)). lia.
Qed.

Lemma count_replicate {A} (Q : A → bool) (n : nat) (x : A) :
  count Q (replicate n x) = if Q x then Z.of_nat n else 0.
Proof.
  induction n as [|n IH]; simpl; [by destruct (Q x)|]. rewrite count_cons, IH. destruct (Q x); lia.
Qed.

Lemma count_cycle (es : list (nat * managed)) (j k : nat) :
  Forall (λ ie, 1 <= weight ie) es →
  count (Nat.eqb j) (concat (imap (λ i ie, replicate (Z.to_nat (weight ie)) (k + i)%nat) es)) =
  match es !! (j - k)%nat with Some ie => if (k <=? j)%nat then weight ie else 0 | None => 0 end.
Proof.
  intros Hes. revert k. induction Hes as [|ie es Hw Hes IH]; intros k; [done|].
  simpl. rewrite count_app, count_replicate, Nat.add_0_r. cbv beta in Hw.
  assert (imap ((λ i ie, replicate (Z.to_nat (weight ie)) (k + i)%nat) ∘ S) es =
          imap (λ i ie, replicate (Z.to_nat (weight ie)) (S k + i)%nat) es) as ->.
  { apply imap_ext. intros i x _. simpl. f_equal. lia. }
  rewrite IH. destruct (j =? k)%nat eqn:E.
  - apply Nat.eqb_eq in E as ->. rewrite Nat.sub_diag, Nat.leb_refl.
    change ((ie :: es) !! 0%nat) with (Some ie). cbv iota beta.
    rewrite (proj2 (Nat.leb_gt (S k) k)) by lia. destruct (es !! _); lia.
  - apply Nat.eqb_neq in E. destruct (k <=? j)%nat eqn:El.
    + apply Nat.leb_le in El. replace (j - k)%nat with (S (j - S k)) by lia.
      rewrite (proj2 (Nat.leb_le (S k) j)) by lia. done.
    + apply Nat.leb_gt in El. rewrite (proj2 (Nat.leb_gt (S k) j)) by lia.
      destruct (es !! (j - S k)%nat), ((ie :: es) !! (j - k)%nat); done.
Qed.

(** The starting entry of one round-robin order. *)
Definition start (es : list (nat * managed)) (s : Z) : nat :=
  pick es (s mod zsum (weight <$> es)) 0.

Lemma head_rotate (es : list (nat * managed)) (k : nat) :
  (k < length es)%nat → fst <$> head (rotate k es) = es.*1 !! k.
Proof.
  intros Hk. unfold rotate. destruct (lookup_lt_is_Some_2 es k Hk) as [ie Hie].
  rewrite (drop_S es ie k Hie), list_lookup_fmap, Hie. done.
Qed.

Lemma heads_start (n : nat) (es : list (nat * managed)) (r : Router) :
  es ≠ [] → Forall (λ ie, 1 <= weight ie) es → zsum (weight <$> es) <= int64_max →
  0 <= sequence r → sequence r + Z.of_nat n <= 2 ^ 63 →
  heads n es r =
  (λ s, fst <$> head (rotate (start es s) es)) <$> seqZ (sequence r) (Z.of_nat n).
Proof.
  intros Hne Hes Hmax. pose proof (zsum_weights_pos es Hes Hne) as Hpos.
  revert r. induction n as [|n IH]; intros r H0 Hlim; [done|].
  rewrite (seqZ_cons (sequence r)) by lia. rewrite fmap_cons.
  replace (Z.pred (Z.of_nat (S n))) with (Z.of_nat n) by lia.
  cbn [heads]. unfold order.
  unfold total_weight. rewrite total_weight_exact by (done || lia). rewrite Z.add_0_l.
  rewrite (proj2 (Z.eqb_neq _ 0)) by lia.
  assert (wrapu64 (sequence r + 1) = sequence r + 1) as Hw
    by (unfold wrapu64; apply Z.mod_small; lia).
  rewrite Hw. replace (sequence r + 1 - 1) with (sequence r) by lia.
  assert (wrap64 (wrapu64 (sequence r)) = sequence r) as ->.
  { unfold wrapu64. rewrite Z.mod_small by lia. apply wrap64_id.
    unfold in_int64, int64_min, int64_max. lia. }
  rewrite Z.rem_mod_nonneg by lia. fold (start es (sequence r)). f_equal.
  rewrite IH by (simpl; lia). by rewrite Z.add_1_r.
Qed.

Lemma start_lt (es : list (nat * managed)) (s : Z) :
  es ≠ [] → Forall (λ ie, 1 <= weight ie) es → zsum (weight <$> es) <= int64_max →
  (start es s < length es)%nat.
Proof.
  intros Hne Hes Hmax. pose proof (zsum_weights_pos es Hes Hne) as Hpos.
  pose proof (Z.mod_pos_bound s _ Hpos) as Hb.
  assert (start es s ∈ (λ p, pick es p 0) <$> seqZ 0 (zsum (weight <$> es))) as Hin.
  { apply list_elem_of_fmap. exists (s mod zsum (weight <$> es)). split; [done|].
    apply elem_of_seqZ. lia. }
  rewrite pick_cycle in Hin by done.
  apply list_elem_of_In, in_concat in Hin as (run & Hrun & Hin).
  apply list_elem_of_In, elem_of_lookup_imap in Hrun as (i & ie & -> & Hi).
  apply list_elem_of_In, elem_of_replicate in Hin as [-> _]. simpl. eauto using lookup_lt_Some.
Qed.

(** Weighted round robin is exactly fair. Over as many
    consecutive selections as the weights add up to, from any point of the
    sequence before it wraps and with the same eligible providers, each
    provider is tried first exactly [Weight] times. *)
Theorem round_robin_fair (es : list (nat * managed)) (r : Router) (i : nat) (e : managed)
  (Hdup : NoDup es.*1) (Hes : Forall (λ ie, 1 <= Weight (config ie.2)) es)
  (Hmax : zsum ((λ ie, Weight (config ie.2)) <$> es) <= int64_max)
  (Hin : (i, e) ∈ es) (H0 : 0 <= sequence r)
  (Hlim : sequence r + zsum ((λ ie, Weight (config ie.2)) <$> es) <= 2 ^ 63) :
  count (λ h, bool_decide (h = Some i))
    (heads (Z.to_nat (zsum ((λ ie, Weight (config ie.2)) <$> es))) es r) = Weight (config e).
Proof.
  change (λ ie : nat * managed, Weight (config ie.2)) with weight in *.
  assert (es ≠ []) as Hne by (intros ->; by apply not_elem_of_nil in Hin).
  pose proof (zsum_weights_pos es Hes Hne) as Hpos.
  rewrite heads_start by (done || lia). rewrite Z2Nat.id by lia.
  apply list_elem_of_lookup in Hin as [j Hj].
  assert (es.*1 !! j = Some i) as Hji by by rewrite list_lookup_fmap, Hj.
  rewrite count_fmap.
  transitivity (count (Nat.eqb j) (start es <$> seqZ (sequence r) (zsum (weight <$> es)))).
  { rewrite count_fmap. unfold count. do 2 f_equal. apply filter_ext. intros s. simpl.
    pose proof (start_lt es s Hne Hes Hmax) as Hs. rewrite head_rotate by done.
    destruct (j =? start es s)%nat eqn:E.
    - apply Nat.eqb_eq in E as <-. by rewrite Hji, bool_decide_true.
    - apply Nat.eqb_neq in E. apply bool_decide_false. intros Hs'. apply E.
      by eapply NoDup_lookup in Hs'. }
  change (start es) with ((λ p, pick es p 0) ∘ (λ s, s mod zsum (weight <$> es))).
  rewrite list_fmap_compose, residues_cycle, pick_cycle by done.
  rewrite (count_cycle es j 0) by done. rewrite Nat.sub_0_r, Hj. done.
Qed.

Lemma round_robin_fair_witness :
  count (λ h, bool_decide (h = Some 0%nat))
    (heads 3 (imap pair (providers demo_router)) demo_router) = 2.
Proof.
  apply (round_robin_fair (imap pair (providers demo_router)) demo_router 0
    (mkManaged (demo_handle 0 "a") (normalize (demo_config 0 "a" 2 5 10))
              0 (circuitbreaker.New demo_breaker) 0 true float64.zero)).
  - simpl. repeat constructor; set_solver.
  - repeat constructor; simpl; lia.
  - by vm_compute.
  - by left.
  - by vm_compute.
  - by vm_compute.
Defined.

End routing.
