(* ===== verification/RouterThreads.v ===== *)
(** * RouterThreads: the router under concurrent callers

    [internal/routing/router.go] once more, with the atomic operations of the code as
    the steps of the model: [Select], [Success] and [Failure] load, add and swap single
    words, send to and receive from a channel, read and write a latency under
    [latencyMu], and call the methods of a breaker, each of which holds the breaker's
    mutex. Any number of calls run at once, and any interleaving of their steps is an
    execution. What is done under a mutex is one step, and so is the ordering of the
    eligible entries ([orders] says what it may see); waiting for a mutex is not a step.
    This is enough for properties of the states, not for how long a call takes. [Routing]
    has the same functions as one step each; [Select_alone] relates the two. *)

From S2P Require Import Prelude Golib CircuitBreaker Provider Routing.

Module router_threads.
Import routing.

(** ** Calls *)

(** [Select] between its steps: the first loop at entry [i], before it loads the health,
    asks the breaker, or looks at the capacity, with the eligible entries [found] so far;
    before ordering them; the second loop with the entries it has not tried yet, before it
    asks the breaker, sends to the semaphore, or gives the breaker its grant back; before
    it counts the call; and its result, the index of a lease. *)
Inductive selecting : Type :=
| SHealth (i : nat) (found : list nat)
| SBreaker (i : nat) (found : list nat)
| SCapacity (i : nat) (found : list nat)
| SOrder (found : list nat)
| SAllow (rest : list nat)
| STake (i : nat) (rest : list nat)
| SUndo (i : nat) (rest : list nat)
| SAdd (i : nat)
| SDone (out : res nat).

(** The reports on a lease, and what is left of one: the swap of [released], the receive
    from the semaphore of entry [i], the counter, the latency, the breaker. *)
Inductive outcome : Type :=
| Succeeded (latency : time.Duration)
| Failed (retryable : bool) (now : time.Time).
Inductive reporting : Type :=
| RSwap
| RReceive (i : nat)
| RSub (i : nat)
| RMeasure (i : nat) (latency : time.Duration)
| RBreaker (i : nat)
| RDone.

Inductive thread : Type :=
| TSelect (sel : Selection) (now : time.Time) (pc : selecting)
| TReport (k : nat) (o : outcome) (pc : reporting).

(** ** Steps *)

(** The tests of the first loop before it asks the breaker; of these only the health is
    not fixed. *)
Definition admissible (sel : Selection) (e : managed) : bool :=
  let name := Name (provider_ e) in
  negb (negb (Enabled (config e)) || negb (healthy e)) && allowed sel name &&
  negb (name ∈? ExcludedProviders sel) && capable sel e.

Definition entries_at (r : Router) (found : list nat) : list (nat * managed) :=
  omap (λ i, pair i <$> providers r !! i) found.

(** [order] on the entries found. While it sorts by a counter or a latency others change
    them, and every comparison loads them anew: any permutation can come out. Priorities
    and weights are fixed, and the sequence is advanced by one atomic addition. *)
Definition mutable_keys (s : Strategy) : bool :=
  match s with LeastOutstanding | LeastLatency => true | _ => false end.
Inductive orders (sel : Selection) (r : Router) (found ordered : list nat) : Router → Prop :=
| orders_any : mutable_keys (strategy sel) = true → ordered ≡ₚ found → orders sel r found ordered r
| orders_fixed es r' : mutable_keys (strategy sel) = false →
    order (entries_at r found) (strategy sel) r = (Ok es, r') → ordered = es.*1 → orders sel r found ordered r'.

Definition with_semaphore (n : Z) (e : managed) : managed :=
  mkManaged (provider_ e) (config e) n (breaker e) (outstanding e) (healthy e) (ewmaMS e).
Definition with_outstanding (n : Z) (e : managed) : managed :=
  mkManaged (provider_ e) (config e) (semaphore e) (breaker e) (wrap64 n) (healthy e) (ewmaMS e).
Definition with_latency (l : time.Duration) (e : managed) : managed :=
  mkManaged (provider_ e) (config e) (semaphore e) (breaker e) (outstanding e) (healthy e) (update_ewma l (ewmaMS e)).

(** What callers share: the router and the leases it has handed out. *)
#[local] Abbreviation Shared := (Router * list Lease)%type.

Inductive select_step (sel : Selection) (now : time.Time) : Shared → selecting → Shared → selecting → Prop :=
| scan_none r ls i : providers r !! i = None →
    select_step sel now (r, ls) (SHealth i []) (r, ls) (SDone (Err ErrNoEligibleProvider))
| scan_end r ls i found : providers r !! i = None → found ≠ [] →
    select_step sel now (r, ls) (SHealth i found) (r, ls) (SOrder found)
| scan_health r ls i found e : providers r !! i = Some e →
    select_step sel now (r, ls) (SHealth i found) (r, ls)
      (if admissible sel e then SBreaker i found else SHealth (S i) found)
| scan_breaker r ls i found e : providers r !! i = Some e →
    select_step sel now (r, ls) (SBreaker i found) (r, ls)
      (if bool_decide (circuitbreaker.observe now (breaker e) = circuitbreaker.Open)
       then SHealth (S i) found else SCapacity i found)
| scan_capacity r ls i found e : providers r !! i = Some e →
    select_step sel now (r, ls) (SCapacity i found) (r, ls)
      (SHealth (S i) (if MaxConcurrency (config e) <=? semaphore e then found else found ++ [i]))
| order_step r ls found ordered r' : orders sel r found ordered r' →
    select_step sel now (r, ls) (SOrder found) (r', ls) (SAllow ordered)
| try_none r ls :
    select_step sel now (r, ls) (SAllow []) (r, ls) (SDone (Err ErrNoEligibleProvider))
| try_breaker r ls i rest e ok b : providers r !! i = Some e →
    circuitbreaker.Allow now (breaker e) = (ok, b) →
    select_step sel now (r, ls) (SAllow (i :: rest)) (set_entry i (with_breaker b e) r, ls)
      (if ok : bool then STake i rest else SAllow rest)
| try_take r ls i rest e : providers r !! i = Some e → semaphore e < MaxConcurrency (config e) →
    select_step sel now (r, ls) (STake i rest) (set_entry i (with_semaphore (semaphore e + 1) e) r, ls) (SAdd i)
| try_full r ls i rest e : providers r !! i = Some e → MaxConcurrency (config e) <= semaphore e →
    select_step sel now (r, ls) (STake i rest) (r, ls) (SUndo i rest)
| try_undo r ls i rest e : providers r !! i = Some e →
    select_step sel now (r, ls) (SUndo i rest)
      (set_entry i (with_breaker (circuitbreaker.Release (breaker e)) e) r, ls) (SAllow rest)
| try_add r ls i e : providers r !! i = Some e →
    select_step sel now (r, ls) (SAdd i)
      (set_entry i (with_outstanding (outstanding e + 1) e) r, ls ++ [make_lease i e]) (SDone (Ok (length ls))).

Definition on_breaker (o : outcome) (b : circuitbreaker.Breaker) : circuitbreaker.Breaker :=
  match o with
  | Succeeded _ => circuitbreaker.Success b
  | Failed true now => circuitbreaker.Failure now b
  | Failed false _ => circuitbreaker.Release b
  end.

Inductive report_step (k : nat) (o : outcome) : Shared → reporting → Shared → reporting → Prop :=
| swap_lost r ls l : ls !! k = Some l → released l = true → report_step k o (r, ls) RSwap (r, ls) RDone
| swap_won r ls l : ls !! k = Some l → released l = false →
    report_step k o (r, ls) RSwap (r, <[k := mark_released l]> ls) (RReceive (entry l))
| receive r ls i e : providers r !! i = Some e → 0 < semaphore e →
    report_step k o (r, ls) (RReceive i) (set_entry i (with_semaphore (semaphore e - 1) e) r, ls) (RSub i)
| subtract r ls i e : providers r !! i = Some e →
    report_step k o (r, ls) (RSub i) (set_entry i (with_outstanding (outstanding e - 1) e) r, ls)
      (match o with Succeeded latency => RMeasure i latency | Failed _ _ => RBreaker i end)
| measure r ls i latency e : providers r !! i = Some e →
    report_step k o (r, ls) (RMeasure i latency) (set_entry i (with_latency latency e) r, ls) (RBreaker i)
| report_breaker r ls i e : providers r !! i = Some e →
    report_step k o (r, ls) (RBreaker i) (set_entry i (with_breaker (on_breaker o (breaker e)) e) r, ls) RDone.

Inductive thread_step (sh : Shared) : thread → Shared → thread → Prop :=
| step_select sel now pc sh' pc' : select_step sel now sh pc sh' pc' →
    thread_step sh (TSelect sel now pc) sh' (TSelect sel now pc')
| step_report k o pc sh' pc' : report_step k o sh pc sh' pc' →
    thread_step sh (TReport k o pc) sh' (TReport k o pc').

(** ** Executions *)

Record System : Type := mkSystem { shared : Shared; threads : list thread }.
Definition init (r : Router) : System := mkSystem (r, []) [].

(** A caller begins a selection at any time, or a report on any lease that exists, as
    often as it likes; some call makes its next step. *)
Inductive step : System → System → Prop :=
| call_select sh ths wall sel :
    step (mkSystem sh ths) (mkSystem sh (ths ++ [TSelect sel (sel_now wall sel) (SHealth 0 [])]))
| call_report sh ths k o : (k < length sh.2)%nat →
    step (mkSystem sh ths) (mkSystem sh (ths ++ [TReport k o RSwap]))
| run sh ths j th sh' th' : ths !! j = Some th → thread_step sh th sh' th' →
    step (mkSystem sh ths) (mkSystem sh' (<[j := th']> ths)).

Definition finished (th : thread) : bool :=
  match th with TSelect _ _ (SDone _) | TReport _ _ RDone => true | _ => false end.

(** ** The invariant *)

(** A call that holds a token of entry [i] besides the leases: it has sent to the
    semaphore and not yet made its lease, or has swapped [released] and not yet received. *)
Definition takes (i : nat) (th : thread) : bool :=
  match th with
  | TSelect _ _ (SAdd j) | TReport _ _ (RReceive j) => (j =? i)%nat
  | _ => false
  end.
(** A report that has not yet lowered the counter of entry [i]. *)
Definition owes (i : nat) (th : thread) : bool :=
  match th with
  | TReport _ _ (RReceive j) | TReport _ _ (RSub j) => (j =? i)%nat
  | _ => false
  end.
Definition one (b : bool) : Z := if b then 1 else 0.

(** An entry with [n] unreleased leases, [t] further tokens and [o] reports to be counted. *)
Record entry_good (n t o : Z) (e : managed) : Prop := {
  good_weight : 1 <= Weight (config e);
  good_max : 1 <= MaxConcurrency (config e) <= int64_max;
  good_semaphore : semaphore e = n + t;
  good_capacity : semaphore e <= MaxConcurrency (config e);
  good_outstanding : outstanding e = wrap64 (n + o);
  good_breaker : circuitbreaker.inv (breaker e)
}.

Section Invariant.
(** The configured providers, which never change. *)
Context (sts : list (Handle * ProviderConfig)).

Definition chosen (sel : Selection) (i : nat) : Prop :=
  ∃ s, sts !! i = Some s ∧ permitted sel s ∧ Name s.1 ∉ ExcludedProviders sel.

Definition lease_good (l : Lease) : Prop :=
  ∃ s, sts !! entry l = Some s ∧ lease_Provider l = s.1 ∧ lease_Timeout l = Timeout s.2 ∧
       lease_InputCost l = InputCostPerMillionMicro s.2 ∧ lease_OutputCost l = OutputCostPerMillionMicro s.2.

(** The entries found so far, before entry [i]. *)
Definition found_good (sel : Selection) (i : nat) (found : list nat) : Prop :=
  Forall (λ j, chosen sel j ∧ (j < i)%nat) found ∧ NoDup found.

Definition selecting_good (ls : list Lease) (sel : Selection) (pc : selecting) : Prop :=
  match pc with
  | SHealth i found => found_good sel i found
  | SBreaker i found | SCapacity i found => found_good sel i found ∧ chosen sel i
  | SOrder found => found_good sel (length sts) found ∧ found ≠ []
  | SAllow rest => Forall (chosen sel) rest
  | STake i rest | SUndo i rest => chosen sel i ∧ Forall (chosen sel) rest
  | SAdd i => chosen sel i
  | SDone (Ok k) => ∃ l, ls !! k = Some l ∧ chosen sel (entry l)
  | SDone (Err e) => e = ErrNoEligibleProvider
  | SDone (Panic _) => False
  end.
Definition reporting_good (pc : reporting) : Prop :=
  match pc with
  | RReceive i | RSub i | RMeasure i _ | RBreaker i => (i < length sts)%nat
  | RSwap | RDone => True
  end.
Definition thread_good (ls : list Lease) (th : thread) : Prop :=
  match th with
  | TSelect sel _ pc => selecting_good ls sel pc
  | TReport k _ pc => (k < length ls)%nat ∧ reporting_good pc
  end.

Record good (s : System) : Prop := {
  good_statics : statics (shared s).1 = sts;
  good_entries : ∀ i e, providers (shared s).1 !! i = Some e →
    entry_good (held (shared s).2 i) (count (takes i) (threads s)) (count (owes i) (threads s)) e;
  good_leases : Forall lease_good (shared s).2;
  good_threads : Forall (thread_good (shared s).2) (threads s);
  good_weights : zsum ((λ s, Weight s.2) <$> sts) <= int64_max
}.

(** *** Frames *)

(** Leases are only added and marked. *)
Definition extends (ls ls' : list Lease) : Prop :=
  ∀ k l, ls !! k = Some l → ∃ l', ls' !! k = Some l' ∧ entry l' = entry l.
Lemma extends_refl ls : extends ls ls.
Proof. intros k l H. eauto. Qed.
Lemma extends_snoc ls l : extends ls (ls ++ [l]).
Proof. intros k l' H. exists l'. split; [by apply lookup_app_l_Some|done]. Qed.
Lemma extends_mark ls k l : ls !! k = Some l → extends ls (<[k := mark_released l]> ls).
Proof.
  intros Hk k' l' Hl'. destruct (decide (k = k')) as [->|Hne].
  - exists (mark_released l). rewrite list_lookup_insert_eq by (by eapply lookup_lt_Some). by simplify_eq.
  - exists l'. by rewrite list_lookup_insert_ne.
Qed.
Lemma extends_length ls ls' : extends ls ls' → (length ls ≤ length ls')%nat.
Proof.
  intros He. destruct (decide (length ls ≤ length ls')%nat) as [|Hlt]; [done|].
  destruct (lookup_lt_is_Some_2 ls (length ls')) as [l Hl]; [lia|].
  destruct (He _ _ Hl) as (l' & Hl' & _). apply lookup_lt_Some in Hl'. lia.
Qed.
Lemma thread_good_mono ls ls' th : extends ls ls' → thread_good ls th → thread_good ls' th.
Proof.
  intros He. pose proof (extends_length _ _ He). destruct th as [sel now pc|k o pc]; simpl.
  - destruct pc as [| | | | | | | |[k|e|w]]; simpl; try done. intros (l & Hl & Hc).
    destruct (He _ _ Hl) as (l' & Hl' & Heq). exists l'. by rewrite Heq.
  - intros [Hk Hp]. split; [lia|done].
Qed.

Lemma chosen_lookup (s : System) (sel : Selection) (i : nat) :
  good s → chosen sel i → ∃ e, providers (shared s).1 !! i = Some e.
Proof.
  intros Hg (st & Hi & _). rewrite <- (good_statics _ Hg) in Hi. unfold statics in Hi.
  apply list_lookup_fmap_Some_1 in Hi as (e & _ & He). eauto.
Qed.

(** A step of call [j] that changes entry [i] only. *)
Lemma frame r ls ths j th r' ls' th' i e e' :
  good (mkSystem (r, ls) ths) → ths !! j = Some th → providers r !! i = Some e →
  r' = set_entry i e' r → static e' = static e →
  (∀ i', i' ≠ i → held ls' i' = held ls i' ∧ takes i' th' = takes i' th ∧ owes i' th' = owes i' th) →
  (∀ t o, entry_good (held ls i) (t + one (takes i th)) (o + one (owes i th)) e → 0 <= t → 0 <= o →
          entry_good (held ls' i) (t + one (takes i th')) (o + one (owes i th')) e') →
  extends ls ls' → Forall lease_good ls' → thread_good ls' th' →
  good (mkSystem (r', ls') (<[j := th']> ths)).
Proof.
  intros [Hst He Hl Ht Hw] Hj Hi -> Hsta Hoth Hgood Hext Hl' Hth'. split; simpl in *; try done.
  - rewrite <- Hst. by apply (set_entry_statics i e).
  - intros i' e1 Hi'. rewrite !(count_insert _ ths j th th') by done. destruct (decide (i' = i)) as [->|Hne].
    + rewrite list_lookup_insert_eq in Hi' by (by eapply lookup_lt_Some). simplify_eq.
      pose proof (Hgood (count (takes i) ths - one (takes i th)) (count (owes i) ths - one (owes i th))) as Hn.
      rewrite !Z.sub_add in Hn. apply Hn; [by apply He|..].
      * pose proof (count_member (takes i) ths j th Hj). unfold one. destruct (takes i th); lia.
      * pose proof (count_member (owes i) ths j th Hj). unfold one. destruct (owes i th); lia.
    + rewrite list_lookup_insert_ne in Hi' by done. destruct (Hoth i' Hne) as (-> & -> & ->).
      rewrite !Z.sub_add. by apply He.
  - apply Forall_insert; [|done]. eapply Forall_impl; [exact Ht|]. intros x. by apply thread_good_mono.
Qed.

(** A step that changes no entry and no lease. *)
Lemma quiet r ls ths j th r' th' :
  good (mkSystem (r, ls) ths) → ths !! j = Some th → providers r' = providers r →
  (∀ i, takes i th' = takes i th ∧ owes i th' = owes i th) → thread_good ls th' →
  good (mkSystem (r', ls) (<[j := th']> ths)).
Proof.
  intros [Hst He Hl Ht Hw] Hj Hp Heq Hth'. split; simpl in *; try done.
  - unfold statics. by rewrite Hp.
  - intros i e. rewrite Hp, !(count_insert _ ths j th th') by done. destruct (Heq i) as [-> ->].
    rewrite !Z.sub_add. apply He.
  - by apply Forall_insert.
Qed.

(** *** Steps *)

Lemma wrap64_plus (a b : Z) : wrap64 (wrap64 a + b) = wrap64 (a + b).
Proof.
  unfold wrap64. f_equal. replace ((a + 2 ^ 63) mod 2 ^ 64 - 2 ^ 63 + b + 2 ^ 63)
    with ((a + 2 ^ 63) mod 2 ^ 64 + b) by lia.
  rewrite Z.add_mod_idemp_l by lia. f_equal. lia.
Qed.

Lemma set_entry_id (r : Router) (i : nat) (e : managed) : providers r !! i = Some e → set_entry i e r = r.
Proof. intros Hi. destruct r as [ps q a]. unfold set_entry. simpl in *. by rewrite list_insert_id. Qed.

Lemma static_lookup (s : System) (i : nat) (e : managed) :
  good s → providers (shared s).1 !! i = Some e → sts !! i = Some (static e).
Proof. intros Hg Hi. rewrite <- (good_statics _ Hg). unfold statics. by rewrite list_lookup_fmap, Hi. Qed.

Lemma admissible_chosen (sel : Selection) (s : System) (i : nat) (e : managed) :
  good s → providers (shared s).1 !! i = Some e → admissible sel e = true → chosen sel i.
Proof.
  intros Hg Hi Ha. exists (static e). split; [by eapply static_lookup|]. unfold admissible in Ha.
  apply andb_true_iff in Ha as [[[Ha1 Ha2]%andb_true_iff Ha3]%andb_true_iff Ha4].
  apply negb_true_iff, orb_false_iff in Ha1 as [Ha1 _]. apply negb_false_iff in Ha1.
  apply negb_true_iff, bool_decide_eq_false in Ha3. apply capable_spec in Ha4 as [Hm Hd].
  split; [|done]. split; simpl; [done| |done|done]. by apply allowed_spec.
Qed.

Lemma found_good_snoc (sel : Selection) (i : nat) (found : list nat) :
  found_good sel i found → chosen sel i → found_good sel (S i) (found ++ [i]).
Proof.
  intros [Hf Hn] Hc. split.
  - apply Forall_app. split; [eapply Forall_impl; [exact Hf|]; simpl; intros j [? ?]; split; [done|lia]|].
    repeat constructor; done || lia.
  - apply NoDup_app. split_and!; [done| |apply NoDup_singleton]. intros j Hj ->%list_elem_of_singleton.
    rewrite Forall_forall in Hf. destruct (Hf _ Hj). lia.
Qed.
Lemma found_good_skip (sel : Selection) (i : nat) (found : list nat) :
  found_good sel i found → found_good sel (S i) found.
Proof.
  intros [Hf Hn]. split; [|done]. eapply Forall_impl; [exact Hf|]. simpl. intros j [? ?]. split; [done|lia].
Qed.
Lemma found_good_end (sel : Selection) (i : nat) (found : list nat) :
  found_good sel i found → found_good sel (length sts) found.
Proof.
  intros [Hf Hn]. split; [|done]. eapply Forall_impl; [exact Hf|]. simpl. intros j [Hc _]. split; [done|].
  destruct Hc as (st & Hst & _). by eapply lookup_lt_Some.
Qed.

Lemma entries_at_fst (r : Router) (found : list nat) (i : nat) : i ∈ (entries_at r found).*1 → i ∈ found.
Proof.
  rewrite list_elem_of_fmap. intros ([j e] & -> & Hj). unfold entries_at in Hj.
  apply list_elem_of_omap in Hj as (k & Hk & Heq). by destruct (providers r !! k); simplify_eq/=.
Qed.

Lemma orders_spec (sel : Selection) (r r' : Router) (found ordered : list nat) :
  orders sel r found ordered r' → providers r' = providers r ∧ ∀ i, i ∈ ordered → i ∈ found.
Proof.
  intros [Hm Hp|es r1 Hm Ho ->].
  - split; [done|]. intros i. by rewrite Hp.
  - pose proof (order_providers (entries_at r found) (strategy sel) r) as Hpr. rewrite Ho in Hpr. split; [done|].
    intros i Hi. apply order_Permutation in Ho. rewrite Ho in Hi. by apply entries_at_fst in Hi.
Qed.

(** A step that changes an entry but neither its tokens nor its counter. *)
Lemma update_frame r ls ths j th th' i e e' :
  good (mkSystem (r, ls) ths) → ths !! j = Some th → providers r !! i = Some e →
  static e' = static e → semaphore e' = semaphore e → outstanding e' = outstanding e →
  circuitbreaker.inv (breaker e') →
  (∀ i, takes i th' = takes i th ∧ owes i th' = owes i th) → thread_good ls th' →
  good (mkSystem (set_entry i e' r, ls) (<[j := th']> ths)).
Proof.
  intros Hg Hj Hi Hsta Hs Ho Hb Heq Hth'. pose proof Hsta as [= Hh Hc].
  eapply frame; [exact Hg|exact Hj|exact Hi|done|done| | |apply extends_refl|apply Hg|done].
  - intros i' _. by destruct (Heq i').
  - intros t o [] _ _. destruct (Heq i) as [-> ->]. split; rewrite ?Hc, ?Hs, ?Ho; done.
Qed.

Lemma select_step_good (r r' : Router) (ls ls' : list Lease) (ths : list thread) (j : nat) (sel : Selection)
  (now : time.Time) (pc pc' : selecting) :
  good (mkSystem (r, ls) ths) → ths !! j = Some (TSelect sel now pc) →
  select_step sel now (r, ls) pc (r', ls') pc' →
  good (mkSystem (r', ls') (<[j := TSelect sel now pc']> ths)).
Proof.
  intros Hg Hj Hst. pose proof (Forall_lookup_1 _ _ _ _ (good_threads _ Hg) Hj) as Ht. simpl in Ht.
  inversion Hst; subst; clear Hst; simpl in Ht.
  - by apply (quiet r' _ _ _ _ _ _ Hg Hj).
  - apply (quiet r' _ _ _ _ _ _ Hg Hj); [done|done|]. simpl. split; [by eapply found_good_end|done].
  - apply (quiet r' _ _ _ _ _ _ Hg Hj); [done|intros; by destruct (admissible sel e)|].
    destruct (admissible sel e) eqn:Ha; simpl; [|by apply found_good_skip].
    split; [done|]. by apply (admissible_chosen sel _ i e Hg).
  - apply (quiet r' _ _ _ _ _ _ Hg Hj); [done|intros; by case_bool_decide|].
    destruct Ht. case_bool_decide; simpl; [by apply found_good_skip|done].
  - apply (quiet r' _ _ _ _ _ _ Hg Hj); [done|done|]. destruct Ht.
    simpl. destruct (_ <=? _); [by apply found_good_skip|by apply found_good_snoc].
  - destruct (orders_spec sel r r' found ordered) as [Hp Hin]; [done|].
    apply (quiet r _ _ _ _ _ _ Hg Hj Hp); [done|]. simpl. destruct Ht as [[Hf _] _].
    apply Forall_forall. intros i Hi%Hin. rewrite Forall_forall in Hf. by apply Hf.
  - by apply (quiet r' _ _ _ _ _ _ Hg Hj).
  - apply Forall_cons in Ht as [Hi Ht]. eapply update_frame; [done|done|done|done|done|done| | |].
    + pose proof (good_breaker _ _ _ _ (good_entries _ Hg i e ltac:(done))) as Hb.
      apply (circuitbreaker.Allow_inv now) in Hb. by match goal with H : circuitbreaker.Allow _ _ = _ |- _ => rewrite H in Hb end.
    + intros. by destruct ok.
    + by destruct ok.
  - destruct Ht as [Hi _]. eapply frame; [exact Hg|exact Hj|done|done|done| | |apply extends_refl|apply Hg|done].
    + intros i' Hne. simpl. rewrite (proj2 (Nat.eqb_neq i i')) by done. done.
    + simpl. rewrite Nat.eqb_refl. intros t o [] Ht0 Ho0. split; simpl in *; try done; lia.
  - by apply (quiet r' _ _ _ _ _ _ Hg Hj).
  - destruct Ht as [Hi Ht]. eapply update_frame; [done|done|done|done|done|done| |done|done].
    apply circuitbreaker.Release_inv. by apply (good_breaker _ _ _ _ (good_entries _ Hg i e ltac:(done))).
  - match goal with H : providers r !! i = Some e |- _ => pose proof (static_lookup _ i e Hg H) as Hs end.
    eapply frame; [exact Hg|exact Hj|done|done|done| | |apply extends_snoc| |].
    + intros i' Hne. rewrite held_lease_snoc, holds_make_lease. simpl. rewrite (proj2 (Nat.eqb_neq i i')) by done. lia.
    + rewrite held_lease_snoc, holds_make_lease, Nat.eqb_refl. simpl. rewrite Nat.eqb_refl.
      intros t o [] Ht0 Ho0. split; simpl in *; try done; try lia.
      rewrite good_outstanding0, wrap64_plus. f_equal. lia.
    + apply Forall_app. split; [apply Hg|]. repeat constructor. by exists (static e).
    + simpl. exists (make_lease i e). split; [by rewrite lookup_app_r, Nat.sub_diag by lia|done].
Qed.

Lemma report_step_good (r r' : Router) (ls ls' : list Lease) (ths : list thread) (j k : nat) (o : outcome)
  (pc pc' : reporting) :
  good (mkSystem (r, ls) ths) → ths !! j = Some (TReport k o pc) →
  report_step k o (r, ls) pc (r', ls') pc' →
  good (mkSystem (r', ls') (<[j := TReport k o pc']> ths)).
Proof.
  intros Hg Hj Hst. pose proof (Forall_lookup_1 _ _ _ _ (good_threads _ Hg) Hj) as [Hk Ht]. simpl in Ht, Hk.
  inversion Hst; subst; clear Hst; simpl in Ht.
  - by apply (quiet r' _ _ _ _ _ _ Hg Hj).
  - destruct (Forall_lookup_1 _ _ _ _ (good_leases _ Hg) ltac:(done)) as (st & Hst & Hlease).
    destruct (lookup_lt_is_Some_2 (providers r') (entry l)) as [e He].
    { apply lookup_lt_Some in Hst. rewrite <- (good_statics _ Hg) in Hst. unfold statics in Hst.
      by rewrite length_fmap in Hst. }
    rewrite <- (set_entry_id r' (entry l) e He).
    eapply frame; [exact Hg|exact Hj|exact He|done|done| | |by apply extends_mark| |].
    + intros i' Hne. rewrite held_mark by done. simpl. rewrite (proj2 (Nat.eqb_neq (entry l) i')) by done. lia.
    + rewrite held_mark by done. simpl. rewrite Nat.eqb_refl. intros t o' [] Ht0 Ho0. split; simpl in *; try done; try lia.
      rewrite good_outstanding0. f_equal. lia.
    + apply Forall_insert; [apply Hg|]. by exists st.
    + simpl. rewrite length_insert. split; [done|]. by eapply lookup_lt_Some.
  - eapply frame; [exact Hg|exact Hj|done|done|done| | |apply extends_refl|apply Hg|done].
    + intros i' Hne. simpl. by rewrite (proj2 (Nat.eqb_neq i i')).
    + simpl. rewrite Nat.eqb_refl. intros t o' [] Ht0 Ho0. split; simpl in *; try done; lia.
  - eapply frame; [exact Hg|exact Hj|done|done|done| | |apply extends_refl|apply Hg|by destruct o].
    + intros i' Hne. simpl. rewrite (proj2 (Nat.eqb_neq i i')) by done. by destruct o.
    + simpl. rewrite Nat.eqb_refl. intros t o' [] Ht0 Ho0.
      split; destruct o; simpl in *; try done; try lia; rewrite good_outstanding0, <- Z.add_opp_r, wrap64_plus; f_equal; lia.
  - eapply update_frame; [done|done|done|done|done|done| |done|done].
    by apply (good_breaker _ _ _ _ (good_entries _ Hg i e ltac:(done))).
  - eapply update_frame; [done|done|done|done|done|done| |done|done].
    pose proof (good_breaker _ _ _ _ (good_entries _ Hg i e ltac:(done))) as Hb.
    destruct o as [|[] now]; simpl; auto using circuitbreaker.Success_inv, circuitbreaker.Failure_inv, circuitbreaker.Release_inv.
Qed.

Lemma step_good (s s' : System) : step s s' → good s → good s'.
Proof.
  intros [sh ths wall sel|sh ths k o Hk|[r ls] ths j th [r' ls'] th' Hj Hst] Hg.
  - destruct Hg as [Hst He Hl Ht Hw]. split; simpl in *; try done.
    + intros i e Hi. rewrite !count_app. unfold count at 2 4. simpl. rewrite !Z.add_0_r. by apply He.
    + apply Forall_app. split; [done|]. repeat constructor.
  - destruct Hg as [Hst He Hl Ht Hw]. split; simpl in *; try done.
    + intros i e Hi. rewrite !count_app. unfold count at 2 4. simpl. rewrite !Z.add_0_r. by apply He.
    + apply Forall_app. split; [done|]. by repeat constructor.
  - inversion Hst; subst; [by eapply select_step_good|by eapply report_step_good].
Qed.

(** *** Progress *)

Lemma entries_at_lookup (s : System) (found : list nat) (sel : Selection) :
  good s → Forall (chosen sel) found → NoDup found →
  (entries_at (shared s).1 found).*1 = found ∧
  Forall (λ ie, providers (shared s).1 !! ie.1 = Some ie.2) (entries_at (shared s).1 found).
Proof.
  intros Hg Hf _. induction Hf as [|i found Hc Hf [IH1 IH2]]; [by split|].
  destruct (chosen_lookup s sel i Hg Hc) as [e He]. unfold entries_at in *. simpl. rewrite He. simpl.
  split; [by f_equal|by constructor].
Qed.

Lemma zsum_perm (l k : list Z) : l ≡ₚ k → zsum l = zsum k.
Proof. induction 1; rewrite ?zsum_cons; lia. Qed.

(** The weights of entries found once each are a part of all weights. *)
Lemma total_weight_found (s : System) (found : list nat) (sel : Selection) :
  good s → Forall (chosen sel) found → NoDup found → found ≠ [] →
  0 < total_weight (entries_at (shared s).1 found).
Proof.
  intros Hg Hf Hn Hne. destruct (entries_at_lookup s found sel Hg Hf Hn) as [H1 H2].
  set (es := entries_at _ found) in *. set (all := imap pair (providers (shared s).1)).
  assert (Forall (λ ie, 1 <= weight ie) all) as Hw.
  { apply Forall_forall. intros [i e]. unfold all. rewrite elem_of_lookup_imap. intros (j & e' & [= -> ->] & Hj).
    apply (good_weight _ _ _ _ (good_entries _ Hg _ _ Hj)). }
  assert (es ⊆+ all) as Hsub.
  { apply NoDup_submseteq.
    - apply (NoDup_fmap_1 fst). by rewrite H1.
    - intros [i e] Hie. rewrite Forall_forall in H2. specialize (H2 _ Hie). simpl in H2.
      unfold all. rewrite elem_of_lookup_imap. eauto. }
  apply submseteq_Permutation in Hsub as [rest Hp]. rewrite Hp in Hw. apply Forall_app in Hw as [Hwe Hwr].
  assert (zsum (weight <$> all) <= int64_max) as Hmax.
  { unfold all. rewrite weights_entries. change (static <$> providers (shared s).1) with (statics (shared s).1).
    rewrite (good_statics _ Hg). apply Hg. }
  rewrite (zsum_perm (weight <$> all) (weight <$> es ++ rest)) in Hmax by by rewrite Hp.
  rewrite fmap_app, zsum_app in Hmax.
  assert (0 <= zsum (weight <$> rest)).
  { apply zsum_nonneg, Forall_fmap. eapply Forall_impl; [exact Hwr|]. simpl. lia. }
  unfold total_weight. rewrite total_weight_exact by (done || lia). apply zsum_weights_pos; [done|].
  intros Hnil. rewrite Hnil in H1. by simpl in H1.
Qed.

Lemma orders_total (s : System) (sel : Selection) (found : list nat) :
  good s → Forall (chosen sel) found → NoDup found → found ≠ [] →
  ∃ ordered r', orders sel (shared s).1 found ordered r'.
Proof.
  intros Hg Hf Hn Hne. destruct (mutable_keys (strategy sel)) eqn:Hm.
  { exists found, (shared s).1. by apply orders_any. }
  assert (∃ es r', order (entries_at (shared s).1 found) (strategy sel) (shared s).1 = (Ok es, r')) as (es & r' & Ho).
  { pose proof (total_weight_found s found sel Hg Hf Hn Hne) as Hpos. unfold order.
    rewrite (proj2 (Z.eqb_neq _ _)) by lia. destruct (strategy sel); eauto. }
  exists es.*1, r'. by eapply orders_fixed.
Qed.

(** No call ever waits: not for a lock, and not for the semaphore either, which a report
    finds filled by the token of its own lease. *)
Lemma select_progress (s : System) (sel : Selection) (now : time.Time) (pc : selecting) :
  good s → selecting_good (shared s).2 sel pc → (∀ out, pc ≠ SDone out) →
  ∃ sh' pc', select_step sel now (shared s) pc sh' pc'.
Proof.
  intros Hg Ht Hfin. pose proof (chosen_lookup s sel) as Hlook. pose proof (orders_total s sel) as Hord.
  destruct (shared s) as [r ls]. simpl in *.
  destruct pc as [i found|i found|i found|found|[|i rest]|i rest|i rest|i|out]; simpl in Ht; [..|by destruct (Hfin out)].
  - destruct (providers r !! i) as [e|] eqn:He; [eexists _, _; by apply scan_health|].
    destruct found; eexists _, _; [by apply scan_none|by apply scan_end].
  - destruct (Hlook i Hg (proj2 Ht)) as [e He]. eexists _, _. by apply scan_breaker.
  - destruct (Hlook i Hg (proj2 Ht)) as [e He]. eexists _, _. by apply scan_capacity.
  - destruct Ht as [[Hf Hn] Hne]. destruct (Hord found Hg) as (ordered & r' & Ho);
      [eapply Forall_impl; [exact Hf|]; by intros ? []|done|done|]. eexists _, _. by apply order_step.
  - eexists _, _. apply try_none.
  - apply Forall_cons in Ht as [Hc _]. destruct (Hlook i Hg Hc) as [e He].
    destruct (circuitbreaker.Allow now (breaker e)) as [ok b] eqn:Hb. eexists _, _. by eapply try_breaker.
  - destruct (Hlook i Hg (proj1 Ht)) as [e He].
    destruct (Z.lt_ge_cases (semaphore e) (MaxConcurrency (config e))); eexists _, _;
      [by eapply try_take|by eapply try_full].
  - destruct (Hlook i Hg (proj1 Ht)) as [e He]. eexists _, _. by apply try_undo.
  - destruct (Hlook i Hg Ht) as [e He]. eexists _, _. by apply try_add.
Qed.

Lemma report_progress (s : System) (j k : nat) (o : outcome) (pc : reporting) :
  good s → threads s !! j = Some (TReport k o pc) → pc ≠ RDone →
  ∃ sh' pc', report_step k o (shared s) pc sh' pc'.
Proof.
  intros Hg Hj Hfin. destruct (Forall_lookup_1 _ _ _ _ (good_threads _ Hg) Hj) as [Hk Ht].
  assert (∀ i, (i < length sts)%nat → ∃ e, providers (shared s).1 !! i = Some e) as Hlook.
  { intros i Hi. apply lookup_lt_is_Some. rewrite <- (good_statics _ Hg) in Hi. unfold statics in Hi.
    by rewrite length_fmap in Hi. }
  pose proof (good_entries _ Hg) as Hent. destruct (shared s) as [r ls]. simpl in *.
  destruct pc as [|i|i|i latency|i|]; simpl in Ht; try (destruct (Hlook i Ht) as [e He]); [..|done].
  - destruct (lookup_lt_is_Some_2 ls k Hk) as [l Hl].
    destruct (released l) eqn:Hr; eexists _, _; [by eapply swap_lost|by eapply swap_won].
  - eexists _, _. eapply receive; [done|]. destruct (Hent i e He) as [_ _ -> _ _ _].
    pose proof (count_member (takes i) _ j _ Hj) as Hm. simpl in Hm. rewrite Nat.eqb_refl in Hm.
    pose proof (count_nonneg (holds i) ls). unfold held. lia.
  - eexists _, _. by apply subtract.
  - eexists _, _. by apply measure.
  - eexists _, _. by apply report_breaker.
Qed.

Lemma progress (s : System) (j : nat) (th : thread) :
  good s → threads s !! j = Some th → finished th = false → ∃ sh' th', thread_step (shared s) th sh' th'.
Proof.
  intros Hg Hj Hfin. destruct th as [sel now pc|k o pc].
  - destruct (select_progress s sel now pc Hg) as (sh' & pc' & Hst);
      [by apply (Forall_lookup_1 _ _ _ _ (good_threads _ Hg) Hj)|by intros out ->|].
    eexists _, _. by apply step_select.
  - destruct (report_progress s j k o pc Hg Hj) as (sh' & pc' & Hst); [by intros ->|].
    eexists _, _. by apply step_report.
Qed.
End Invariant.

(** ** How long a call takes *)

(** A bound on the steps a call has yet to make, of a router with [n] providers. *)
Definition select_work (n : nat) (pc : selecting) : nat :=
  match pc with
  | SHealth i found => 3 * (n - i) + 3 * (length found + (n - i)) + 5
  | SBreaker i found => 3 * (n - i) + 3 * (length found + (n - i)) + 4
  | SCapacity i found => 3 * (n - i) + 3 * (length found + (n - i)) + 3
  | SOrder found => 3 * length found + 4
  | SAllow rest => 3 * length rest + 3
  | STake _ rest => 3 * length rest + 5
  | SUndo _ rest => 3 * length rest + 4
  | SAdd _ => 1
  | SDone _ => 0
  end.
Definition report_work (pc : reporting) : nat :=
  match pc with RSwap => 5 | RReceive _ => 4 | RSub _ => 3 | RMeasure _ _ => 2 | RBreaker _ => 1 | RDone => 0 end.
Definition work (n : nat) (th : thread) : nat :=
  match th with TSelect _ _ pc => select_work n pc | TReport _ _ pc => report_work pc end.

Lemma entries_at_length (r : Router) (found : list nat) : (length (entries_at r found) ≤ length found)%nat.
Proof.
  unfold entries_at. induction found as [|i found IH]; [done|]. simpl.
  destruct (providers r !! i); simpl; [by apply le_n_S|by apply Nat.le_le_succ_r].
Qed.

Lemma orders_length (sel : Selection) (r r' : Router) (found ordered : list nat) :
  orders sel r found ordered r' → (length ordered ≤ length found)%nat.
Proof.
  intros [Hm Hp|es r1 Hm Ho ->]; [by rewrite Hp|]. apply order_Permutation in Ho.
  rewrite length_fmap, Ho. apply entries_at_length.
Qed.

Lemma work_decreases (sh sh' : Shared) (th th' : thread) :
  thread_step sh th sh' th' → (work (length (providers sh.1)) th' < work (length (providers sh.1)) th)%nat.
Proof.
  intros [sel now pc sh1 pc' Hst|k o pc sh1 pc' Hst]; simpl; [|destruct Hst; simpl; try (destruct o; simpl); lia].
  destruct Hst; simpl;
    try match goal with H : orders _ _ _ _ _ |- _ => apply orders_length in H end;
    try match goal with H : providers _ !! _ = Some _ |- _ => apply lookup_lt_Some in H end;
    repeat case_match; simpl; rewrite ?length_app; simpl; try lia.
Qed.

Lemma NewRouter_length (configs : list ProviderConfig) (bc : circuitbreaker.Config) (r : Router) :
  NewRouter configs bc = Ok r → length (providers r) = length configs.
Proof.
  unfold NewRouter. intros H. assert (∃ es, new_entries configs bc = Ok es ∧ r = mkRouter es 0 float64.c0_2)
    as (es & Hes & ->) by (destruct configs; [done|]; destruct (new_entries _ _); simplify_eq/=; eauto).
  apply new_entries_spec in Hes as [Hc _]. simpl. by rewrite <- (length_fmap config), Hc, length_fmap.
Qed.

(** ** A call alone *)

Section Alone.
Context (sel : Selection) (now : time.Time).

Definition alone (a b : Shared * selecting) : Prop := select_step sel now a.1 a.2 b.1 b.2.

Lemma alone_l (sh sh' : Shared) (pc pc' : selecting) (z : Shared * selecting) :
  select_step sel now sh pc sh' pc' → rtc alone (sh', pc') z → rtc alone (sh, pc) z.
Proof. intros H1 H2. by eapply rtc_l; [|exact H2]. Qed.

Lemma eligible_parts (e : managed) :
  eligible sel now e = admissible sel e &&
    negb (bool_decide (circuitbreaker.observe now (breaker e) = circuitbreaker.Open)) &&
    negb (MaxConcurrency (config e) <=? semaphore e).
Proof.
  unfold eligible, admissible. cbn zeta.
  destruct (negb (Enabled (config e)) || negb (healthy e)); [done|].
  destruct (allowed sel (Name (provider_ e))); [|done].
  destruct (Name (provider_ e) ∈? ExcludedProviders sel); [done|].
  destruct (capable sel e); [|done]. cbn [negb andb].
  case_bool_decide; [done|]. by destruct (_ <=? _).
Qed.

(** The first loop finds the eligible entries. *)
Lemma scan_alone (r : Router) (ls : list Lease) (suf : list managed) (i : nat) (found : list nat) :
  (∀ n, providers r !! (i + n)%nat = suf !! n) →
  rtc alone ((r, ls), SHealth i found)
    ((r, ls), SHealth (i + length suf)
       (found ++ (List.filter (λ ie, eligible sel now ie.2) (imap (λ n, pair (i + n)%nat) suf)).*1)).
Proof.
  revert i found. induction suf as [|e suf IH]; intros i found Hsuf.
  { simpl. rewrite app_nil_r, Nat.add_0_r. done. }
  assert (providers r !! i = Some e) as He by (rewrite <- (Nat.add_0_r i); apply (Hsuf 0%nat)).
  rewrite imap_cons, Nat.add_0_r. cbn [length List.filter snd]. rewrite <- Nat.add_succ_comm.
  assert (imap ((λ n, pair (i + n)%nat) ∘ S) suf = imap (λ n, pair (S i + n)%nat) suf) as ->.
  { apply imap_ext. intros n x _. simpl. by rewrite Nat.add_succ_r. }
  assert (∀ n, providers r !! (S i + n)%nat = suf !! n) as Hsuf'.
  { intros n. replace (S i + n)%nat with (i + S n)%nat by lia. apply (Hsuf (S n)). }
  eapply alone_l; [by eapply (scan_health sel now r ls i found e)|].
  rewrite eligible_parts. destruct (admissible sel e); [|by apply IH]. cbn [andb].
  eapply alone_l; [by eapply (scan_breaker sel now r ls i found e)|].
  case_bool_decide; [by apply IH|]. cbn [negb andb].
  eapply alone_l; [by eapply (scan_capacity sel now r ls i found e)|].
  destruct (_ <=? _); cbn [negb]; [by apply IH|]. rewrite fmap_cons. cbn [fst].
  specialize (IH (S i) (found ++ [i]) Hsuf'). by rewrite <- app_assoc in IH.
Qed.

(** The second loop. *)
Lemma try_alone (ls : list Lease) (es : list (nat * managed)) (r : Router) :
  Forall (λ ie, is_Some (providers r !! ie.1)) es →
  match try_entries now es r with
  | (Ok l, r') => rtc alone ((r, ls), SAllow es.*1) ((r', ls ++ [l]), SDone (Ok (length ls)))
  | (Err e, r') => rtc alone ((r, ls), SAllow es.*1) ((r', ls), SDone (Err e))
  | (Panic _, _) => False
  end.
Proof.
  revert r. induction es as [|[i e0] es IH]; intros r Hes; simpl.
  { apply rtc_once. apply try_none. }
  apply Forall_cons in Hes as [[e Hi] Hes]. simpl in Hi. rewrite Hi.
  destruct (circuitbreaker.Allow now (breaker e)) as [ok b] eqn:Hb.
  assert (∀ x y, set_entry i x (set_entry i y r) = set_entry i x r) as Hset.
  { intros x y. unfold set_entry. simpl. by rewrite list_insert_insert_eq. }
  assert (∀ x, Forall (λ ie : nat * managed, is_Some (providers (set_entry i x r) !! ie.1)) es) as Hes'.
  { intros x. eapply Forall_impl; [exact Hes|]. simpl. intros ie. by rewrite !lookup_lt_is_Some, length_insert. }
  assert (∀ x, providers (set_entry i x r) !! i = Some x) as Hget.
  { intros x. simpl. apply list_lookup_insert_eq. by eapply lookup_lt_Some. }
  assert (alone ((r, ls), SAllow (i :: es.*1))
    ((set_entry i (with_breaker b e) r, ls), if ok then STake i es.*1 else SAllow es.*1)) as H1
    by by eapply try_breaker.
  destruct ok; simpl.
  2:{ specialize (IH _ (Hes' (with_breaker b e))). destruct (try_entries _ _ _) as [[l|e1|w] r1]; [..|done];
        (eapply alone_l; [exact H1|exact IH]). }
  destruct (_ <? _) eqn:Hc; reflect.
  - eapply alone_l; [exact H1|]. eapply alone_l; [by eapply try_take; [apply Hget|]|]. rewrite Hset.
    eapply alone_l; [by eapply try_add; apply Hget|]. rewrite Hset. apply rtc_refl.
  - assert (alone ((set_entry i (with_breaker b e) r, ls), STake i es.*1)
      ((set_entry i (with_breaker b e) r, ls), SUndo i es.*1)) as H2 by by eapply try_full; [apply Hget|].
    assert (alone ((set_entry i (with_breaker b e) r, ls), SUndo i es.*1)
      ((set_entry i (with_breaker (circuitbreaker.Release b) (with_breaker b e)) r, ls), SAllow es.*1)) as H3.
    { rewrite <- (Hset (with_breaker (circuitbreaker.Release b) (with_breaker b e)) (with_breaker b e)).
      eapply (try_undo sel now _ ls i es.*1 (with_breaker b e)). apply Hget. }
    specialize (IH _ (Hes' (with_breaker (circuitbreaker.Release b) (with_breaker b e)))).
    destruct (try_entries _ _ _) as [[l|e1|w] r1]; [..|done];
      (eapply alone_l; [exact H1|]; eapply alone_l; [exact H2|]; eapply alone_l; [exact H3|exact IH]).
Qed.

(** Run without interference, the steps of a selection compute [Select]. *)
Lemma Select_alone (wall : time.Time) (r : Router) (ls ls0 : list Lease) :
  inv r ls0 → now = sel_now wall sel →
  match Select wall sel r with
  | (Ok l, r') => rtc alone ((r, ls), SHealth 0 []) ((r', ls ++ [l]), SDone (Ok (length ls)))
  | (Err e, r') => rtc alone ((r, ls), SHealth 0 []) ((r', ls), SDone (Err e))
  | (Panic _, _) => False
  end.
Proof.
  intros Hinv Hnow. pose proof (scan_alone r ls (providers r) 0 [] (λ n, eq_refl)) as Hscan. simpl in Hscan.
  change (List.filter _ _) with (eligible_entries r sel now) in Hscan.
  assert (providers r !! length (providers r) = None) as Hend by by apply lookup_ge_None.
  pose proof (eligible_lookup r sel now) as Hlook.
  destruct (decide (eligible_entries r sel now = [])) as [Hnil|Hne].
  { assert (Select wall sel r = (Err ErrNoEligibleProvider, r)) as ->.
    { unfold Select. fold (sel_now wall sel). by rewrite <- Hnow, Hnil. }
    rewrite Hnil in Hscan. etrans; [exact Hscan|]. eapply alone_l; [by apply scan_none|done]. }
  destruct (Select_unfold wall sel r ls0 Hinv) as [[Hnil ?]|(ordered & r' & Ho & Hperm & Hp & _ & ->)];
    rewrite <- Hnow in *; [done|].
  set (es := eligible_entries r sel now) in *.
  assert (entries_at r es.*1 = es) as Hat.
  { clearbody es. clear - Hlook. induction Hlook as [|[i e] es [Hi _] _ IH]; [done|].
    unfold entries_at in *. simpl in *. rewrite Hi. simpl. by f_equal. }
  assert (orders sel r es.*1 ordered.*1 r') as Hord.
  { destruct (mutable_keys (strategy sel)) eqn:Hm; [|eapply orders_fixed; [done|by rewrite Hat|done]].
    assert (r' = r) as -> by (destruct (strategy sel); simplify_eq/=; done).
    apply orders_any; [done|]. by rewrite Hperm. }
  assert (rtc alone ((r, ls), SHealth 0 []) ((r', ls), SAllow ordered.*1)) as Hfirst.
  { etrans; [exact Hscan|]. eapply alone_l; [apply scan_end; [done|by intros ?%fmap_nil_inv]|].
    eapply alone_l; [by apply order_step|done]. }
  assert (Forall (λ ie, is_Some (providers r' !! ie.1)) ordered) as Hall.
  { rewrite Hperm, Hp. eapply Forall_impl; [exact Hlook|]. intros ie [-> _]. eauto. }
  pose proof (try_alone ls ordered r' Hall) as Htry.
  destruct (try_entries _ _ _) as [[l|e1|w] r1]; [..|done]; by etrans.
Qed.
End Alone.

Lemma alone_run (sel : Selection) (now : time.Time) (a b : Shared * selecting) :
  rtc (alone sel now) a b →
  rtc step (mkSystem a.1 [TSelect sel now a.2]) (mkSystem b.1 [TSelect sel now b.2]).
Proof.
  induction 1 as [a|a a' b H1 _ IH]; [done|]. eapply rtc_l; [|exact IH].
  by apply (run a.1 [TSelect sel now a.2] 0 (TSelect sel now a.2) a'.1 (TSelect sel now a'.2) eq_refl), step_select.
Qed.

(** ** Properties *)

Lemma init_good (configs : list ProviderConfig) (bc : circuitbreaker.Config) (r : Router) :
  configs_ok configs bc → NewRouter configs bc = Ok r → good (statics r) (init r).
Proof.
  intros Hc Hn. destruct (NewRouter_inv configs bc r Hc Hn) as [He _ Hw]. split; simpl; try done.
  intros i e Hi. destruct (He i e Hi). unfold held, count in *. simpl in *. split; done || lia.
Qed.

Lemma reachable_good (configs : list ProviderConfig) (bc : circuitbreaker.Config) (r : Router) (s : System) :
  configs_ok configs bc → NewRouter configs bc = Ok r → rtc step (init r) s → good (statics r) s.
Proof.
  intros Hc Hn Hs. pose proof (init_good configs bc r Hc Hn) as H0. revert H0. generalize (statics r) as sts.
  intros sts. induction Hs as [s|s1 s2 s3 H1 _ IH]; [done|]. intros Hg. apply IH. by eapply step_good.
Qed.

(** A call that is over holds nothing. *)
Lemma quiescent_counts (i : nat) (ths : list thread) :
  (∀ th, In th ths → finished th = true) → count (takes i) ths = 0 ∧ count (owes i) ths = 0.
Proof.
  induction ths as [|th ths IH]; intros Hall; [done|]. rewrite !count_cons.
  destruct IH as [-> ->]; [intros; apply Hall; by right|].
  specialize (Hall th (or_introl eq_refl)). destruct th as [? ? []|? ? []]; done.
Qed.

(** Every lease belongs to one selection. *)
Definition exclusive (s : System) : Prop :=
  ∀ j j' sel sel' now now' k,
    threads s !! j = Some (TSelect sel now (SDone (Ok k))) →
    threads s !! j' = Some (TSelect sel' now' (SDone (Ok k))) → j = j'.

Lemma step_exclusive (sts : list (Handle * ProviderConfig)) (s s' : System) :
  step s s' → good sts s → exclusive s → exclusive s'.
Proof.
  assert (∀ sh ths th, (∀ sel now out, th ≠ TSelect sel now (SDone out)) →
    exclusive (mkSystem sh ths) → exclusive (mkSystem sh (ths ++ [th]))) as Hnew.
  { intros sh ths th Hth He j j' sel sel' now now' k. simpl.
    rewrite !lookup_app_Some, !list_lookup_singleton_Some. naive_solver. }
  intros [sh ths wall sel|sh ths k o Hk|[r ls] ths j th sh' th' Hj Hst] Hg He; [by apply Hnew..|].
  assert (∀ sel now k, th' = TSelect sel now (SDone (Ok k)) →
    ∀ j1 sel1 now1, ths !! j1 ≠ Some (TSelect sel1 now1 (SDone (Ok k)))) as Hfresh.
  { intros sel now k -> j1 sel1 now1 Hj1. inversion Hst as [? ? ? ? ? Hs|]; subst.
    inversion Hs; subst; repeat case_match; simplify_eq.
    destruct (Forall_lookup_1 _ _ _ _ (good_threads _ _ Hg) Hj1) as (l & Hl & _). simpl in Hl.
    apply lookup_lt_Some in Hl. lia. }
  intros j1 j2 sel sel' now now' k H1 H2. simpl in *. apply list_lookup_insert_Some in H1, H2.
  destruct H1 as [(<- & E1 & _)|[Hne1 H1]], H2 as [(<- & E2 & _)|[Hne2 H2]]; [done|..].
  - by destruct (Hfresh sel now k ltac:(done) j2 sel' now').
  - by destruct (Hfresh sel' now' k ltac:(done) j1 sel now).
  - by eapply He.
Qed.

Lemma reachable_exclusive (configs : list ProviderConfig) (bc : circuitbreaker.Config) (r : Router) (s : System) :
  configs_ok configs bc → NewRouter configs bc = Ok r → rtc step (init r) s → exclusive s.
Proof.
  intros Hc Hn Hs. pose proof (init_good configs bc r Hc Hn) as H0.
  assert (exclusive (init r)) as H1 by (intros j j' sel sel' now now' k H; simpl in H; by rewrite lookup_nil in H).
  revert H0 H1. generalize (statics r) as sts. intros sts.
  induction Hs as [s|s1 s2 s3 H1 _ IH]; [done|]. intros Hg He. apply IH; [by eapply step_good|by eapply step_exclusive].
Qed.

(** C27 (invariant): the router is safe under concurrent use, at the grain of its atomic
    operations. In every interleaving of any number of selections and reports (repeated
    reports on a lease included): a provider never has more than [MaxConcurrency]
    unreleased leases; every selection that returned has a lease of its own, for a
    provider its policy permits and does not exclude, with that provider's handle,
    time-out and prices, or the error [ErrNoEligibleProvider]; the breakers are
    consistent; and when no call is in progress, semaphore and counter of each provider
    are exactly its unreleased leases. *)
Theorem concurrent_router (configs : list ProviderConfig) (bc : circuitbreaker.Config) (r : Router) (s : System) :
  configs_ok configs bc → NewRouter configs bc = Ok r → rtc step (init r) s →
  (∀ i e, providers (shared s).1 !! i = Some e →
     statics r !! i = Some (static e) ∧ 0 <= held (shared s).2 i <= semaphore e ∧
     semaphore e <= MaxConcurrency (config e) ∧ circuitbreaker.inv (breaker e) ∧
     (forallb finished (threads s) = true →
      semaphore e = held (shared s).2 i ∧ outstanding e = held (shared s).2 i)) ∧
  (∀ j sel now out, threads s !! j = Some (TSelect sel now (SDone out)) →
     out = Err ErrNoEligibleProvider ∨
     ∃ k l st, out = Ok k ∧ snd (shared s) !! k = Some l ∧ statics r !! entry l = Some st ∧
       permitted sel st ∧ (Name st.1 ∉ ExcludedProviders sel) ∧ lease_Provider l = st.1 ∧
       lease_Timeout l = Timeout st.2 ∧ lease_InputCost l = InputCostPerMillionMicro st.2 ∧
       lease_OutputCost l = OutputCostPerMillionMicro st.2) ∧
  exclusive s.
Proof.
  intros Hc Hn Hs. pose proof (reachable_good configs bc r s Hc Hn Hs) as Hg. split_and!.
  - intros i e Hi. split; [by eapply static_lookup|]. destruct (good_entries _ _ Hg i e Hi) as [_ Hm Hsem Hcap Ho Hb].
    pose proof (count_nonneg (holds i) (shared s).2). pose proof (count_nonneg (takes i) (threads s)).
    split_and!; [unfold held in *; lia..|done|]. intros Hfin.
    assert (count (takes i) (threads s) = 0 ∧ count (owes i) (threads s) = 0) as [Ht0 Ho0].
    { apply quiescent_counts. by rewrite forallb_forall in Hfin. }
    rewrite Hsem, Ho, Ht0, Ho0, !Z.add_0_r. split; [done|]. apply wrap64_id.
    unfold in_int64, int64_min, held in *. lia.
  - intros j sel now out Hj. pose proof (Forall_lookup_1 _ _ _ _ (good_threads _ _ Hg) Hj) as Ht. simpl in Ht.
    destruct out as [k|e|w]; [right|by left; f_equal|done]. destruct Ht as (l & Hl & st & Hst & Hp & Hx).
    destruct (Forall_lookup_1 _ _ _ _ (good_leases _ _ Hg) Hl) as (st' & Hst' & ?). simplify_eq.
    exists k, l, st. naive_solver.
  - by eapply reachable_exclusive.
Qed.

(** A completed selection on the registry of two providers. *)
Definition demo_end : System :=
  match Select 5 (demo_selection PriorityFallback) demo_router with
  | (Ok l, r) => mkSystem (r, [l]) [TSelect (demo_selection PriorityFallback) 5 (SDone (Ok 0%nat))]
  | (_, r) => init r
  end.
Lemma demo_reached : rtc step (init demo_router) demo_end.
Proof.
  pose proof (Select_alone (demo_selection PriorityFallback) 5 5 demo_router [] [] demo_router_inv eq_refl) as H.
  unfold demo_end. destruct (Select 5 (demo_selection PriorityFallback) demo_router) as [[l|e|w] r] eqn:Hs;
    [|by vm_compute in Hs..].
  eapply rtc_l; [apply (call_select (demo_router, []) [] 5 (demo_selection PriorityFallback))|].
  by apply alone_run in H.
Qed.

Lemma concurrent_router_witness :
  ∃ l st, (shared demo_end).2 = [l] ∧ statics demo_router !! entry l = Some st ∧
          permitted (demo_selection PriorityFallback) st ∧ lease_Provider l = demo_handle 1 "b".
Proof.
  destruct (concurrent_router demo_configs demo_breaker demo_router demo_end demo_configs_ok demo_NewRouter demo_reached)
    as (_ & H & _).
  destruct (H 0%nat (demo_selection PriorityFallback) 5 (Ok 0%nat) eq_refl) as [?|(k & l & st & Hk & Hl & Hst & Hp & _)];
    [discriminate|].
  injection Hk as <-. exists l, st. split_and!; [|exact Hst|exact Hp|]; injection Hl as <-; vm_compute; reflexivity.
Defined.

(** No call gets stuck between its steps. In every reachable state a call that has not
    returned has a next step: in particular the receive from the semaphore in a report
    never blocks. Each step brings the call closer to its end: with [n] providers a
    selection has at most [6 n + 5] of them and a report at most five. (These are steps of
    the model: a critical section counts as one, and waiting for its mutex as none.) *)
Theorem calls_advance (configs : list ProviderConfig) (bc : circuitbreaker.Config) (r : Router) (s : System)
  (j : nat) (th : thread) :
  configs_ok configs bc → NewRouter configs bc = Ok r → rtc step (init r) s →
  threads s !! j = Some th → finished th = false →
  let n := length configs in
  (∃ sh' th', thread_step (shared s) th sh' th') ∧
  (∀ sh' th', thread_step (shared s) th sh' th' → (work n th' < work n th)%nat) ∧
  (∀ sel now, work n (TSelect sel now (SHealth 0 [])) = (6 * n + 5)%nat) ∧ (∀ k o, work n (TReport k o RSwap) = 5%nat).
Proof.
  intros Hc Hn Hs Hj Hfin n. pose proof (reachable_good configs bc r s Hc Hn Hs) as Hg.
  assert (length (providers (shared s).1) = n) as Hlen.
  { rewrite <- (length_fmap static). change (static <$> _) with (statics (shared s).1). rewrite (good_statics _ _ Hg).
    unfold statics. rewrite length_fmap. by eapply NewRouter_length. }
  split_and!.
  - by eapply progress.
  - rewrite <- Hlen. intros sh' th'. apply work_decreases.
  - intros sel now. simpl. lia.
  - done.
Qed.

(** A report that has swapped the flag of the lease of [demo_end] and not yet received. *)
Definition demo_report : System :=
  mkSystem ((shared demo_end).1, mark_released <$> (shared demo_end).2)
    (threads demo_end ++ [TReport 0 (Succeeded 7) (RReceive 1)]).
Lemma demo_reported : rtc step (init demo_router) demo_report.
Proof.
  eapply rtc_r; [eapply rtc_r; [apply demo_reached|]|].
  - apply (call_report (shared demo_end) (threads demo_end) 0 (Succeeded 7)). vm_compute. lia.
  - apply (run (shared demo_end) (threads demo_end ++ [TReport 0 (Succeeded 7) RSwap]) 1 _ _ _ eq_refl).
    apply step_report. by eapply (swap_won 0 (Succeeded 7) (shared demo_end).1 (shared demo_end).2).
Qed.

Lemma calls_advance_witness :
  ∃ sh' th', thread_step (shared demo_report) (TReport 0 (Succeeded 7) (RReceive 1)) sh' th'.
Proof.
  exact (proj1 (calls_advance demo_configs demo_breaker demo_router demo_report 1 (TReport 0 (Succeeded 7) (RReceive 1))
    demo_configs_ok demo_NewRouter demo_reported eq_refl eq_refl)).
Defined.
End router_threads.
