(* ===== verification/RateLimit.v ===== *)
(** * RateLimit: distributed admission control

    Models [src/internal/ratelimit/redis.go]: the two Lua scripts, the limiter
    and its permits. The Redis server is not part of the repository: it is a
    parameter, the class [redis.Server], with the documented meaning of the
    commands the scripts use as the laws [redis.Laws]. A script runs
    atomically on the server and computes in Lua's doubles (module [lua]). *)

From stdpp Require Import pretty.
From S2P Require Import Prelude Golib.

Module redis.

(** The commands, on a server with state [R], at the server's time. The keys
    involved hold integers only. *)
Class Server (R : Type) : Type := {
  GET : time.Time → string → R → option Z;
  INCR : time.Time → string → M R Z;
  DECR : time.Time → string → M R Z;
  INCRBY : time.Time → string → Z → M R Z;
  EXPIRE : time.Time → string → Z → M R unit;
  DEL : time.Time → string → M R unit
}.

(** The value a counter starts from. *)
Definition value {R} `{Server R} (now : time.Time) (k : string) (r : R) : Z :=
  default 0 (GET now k r).

(** The documented behaviour of the commands: a stored integer has 64
    bits; a missing or expired key counts as 0; an increment that fits is exact; a decrement of an existing key
    keeps its time to live; EXPIRE keeps the value until its deadline, after
    which the key is gone; a command on one key leaves the others alone; the passing of time only
    expires keys. *)
Class Laws (R : Type) `{Server R} : Prop := {
  incr_ok : ∀ now k r, in_int64 (value now k r + 1) →
    ∃ r', INCR now k r = (Ok (value now k r + 1), r') ∧
          GET now k r' = Some (value now k r + 1);
  incrby_ok : ∀ now k n r, in_int64 (value now k r + n) →
    ∃ r', INCRBY now k n r = (Ok (value now k r + n), r') ∧
          GET now k r' = Some (value now k r + n);
  decr_ok : ∀ now k r v, GET now k r = Some v → in_int64 (v - 1) →
    ∃ r', DECR now k r = (Ok (v - 1), r') ∧
          (∀ t, now <= t → GET t k r' = (λ v, v - 1) <$> GET t k r);
  expire_ok : ∀ now k s r v, GET now k r = Some v → 0 < s →
    ∃ r', EXPIRE now k s r = (Ok (), r') ∧
          (∀ t, now <= t → GET t k r' = if t <? now + s * time.Second then Some v else None);
  del_ok : ∀ now k r, ∃ r', DEL now k r = (Ok (), r') ∧ (∀ t, now <= t → GET t k r' = None);
  incr_ne : ∀ now k k' t r, k ≠ k' → GET t k' (INCR now k r).2 = GET t k' r;
  incrby_ne : ∀ now k k' n t r, k ≠ k' → GET t k' (INCRBY now k n r).2 = GET t k' r;
  decr_ne : ∀ now k k' t r, k ≠ k' → GET t k' (DECR now k r).2 = GET t k' r;
  expire_ne : ∀ now k k' s t r, k ≠ k' → GET t k' (EXPIRE now k s r).2 = GET t k' r;
  del_ne : ∀ now k k' t r, k ≠ k' → GET t k' (DEL now k r).2 = GET t k' r;
  get_range : ∀ t k r v, GET t k r = Some v → in_int64 v;
  get_later : ∀ t t' k r, t <= t' → GET t' k r = GET t k r ∨ GET t' k r = None
}.

End redis.

(** ** Lua numbers

    A Lua number is a double. On integers of the 64-bit range, the only values here, that
    is the nearest multiple of a power of two with 53 significant bits, ties going to the
    even one. *)

Module lua.
Definition number (x : Z) : Z :=
  let e := Z.max 0 (Z.log2 (Z.abs x) - 52) in
  let q := Z.abs x / 2 ^ e in
  let r := Z.abs x mod 2 ^ e in
  let up := (2 ^ e <? 2 * r) || ((2 ^ e =? 2 * r) && Z.odd q) in
  Z.sgn x * ((if up then q + 1 else q) * 2 ^ e).

Lemma number_exact (x : Z) : 0 <= x < 2 ^ 53 → number x = x.
Proof.
  intros Hx. unfold number. rewrite Z.abs_eq by lia.
  assert (Z.log2 x < 53) as Hl.
  { destruct (decide (x = 0)) as [->|]; [done|]. apply Z.log2_lt_pow2; lia. }
  rewrite Z.max_l by lia. rewrite Z.pow_0_r, Z.div_1_r, Z.mod_1_r. change ((1 <? 2 * 0) || ((1 =? 2 * 0) && Z.odd x)) with false. cbv iota.
  destruct (decide (x = 0)) as [->|]; [done|]. rewrite Z.sgn_pos by lia. lia.
Qed.

Lemma number_large (x : Z) : 2 ^ 53 <= x → 2 ^ 53 <= number x.
Proof.
  intros Hx. unfold number. rewrite Z.abs_eq, Z.sgn_pos by lia.
  assert (53 <= Z.log2 x) as Hl by (apply Z.log2_le_pow2; lia).
  rewrite Z.max_r by lia. set (e := Z.log2 x - 52).
  assert (2 ^ 52 <= x / 2 ^ e) as Hq.
  { apply Z.div_le_lower_bound; [apply Z.pow_pos_nonneg; lia|]. rewrite <- Z.pow_add_r by lia.
    replace (e + 52) with (Z.log2 x) by lia. apply Z.log2_spec. lia. }
  assert (2 ^ 1 <= 2 ^ e) as He by (apply Z.pow_le_mono_r; lia).
  assert (x / 2 ^ e <= (if (2 ^ e <? 2 * (x mod 2 ^ e)) || ((2 ^ e =? 2 * (x mod 2 ^ e)) && Z.odd (x / 2 ^ e))
          then x / 2 ^ e + 1 else x / 2 ^ e)) as Hup by (case_match; lia).
  change (2 ^ 53) with (2 ^ 52 * 2 ^ 1). nia.
Qed.

(** A sum is compared exactly with a bound below 2^53. *)
Lemma exceeds (bound x y : Z) : 0 <= bound < 2 ^ 53 → 0 <= x → 0 <= y →
  (number bound <? number (number x + number y)) = (bound <? x + y).
Proof.
  intros Hb Hx Hy. rewrite (number_exact bound) by done.
  destruct (decide (x + y < 2 ^ 53)) as [Hs|Hs].
  { rewrite (number_exact x), (number_exact y) by lia. by rewrite number_exact by lia. }
  rewrite (proj2 (Z.ltb_lt bound (x + y))) by lia. apply Z.ltb_lt.
  assert (∀ z, 0 <= z → 0 <= number z) as Hnn.
  { intros z Hz. destruct (decide (z < 2 ^ 53)); [rewrite number_exact|transitivity (2 ^ 53); [|apply number_large]]; lia. }
  pose proof (Hnn x Hx). pose proof (Hnn y Hy).
  assert (2 ^ 53 <= number x + number y) as Hsum.
  { destruct (decide (2 ^ 53 <= x)); [pose proof (number_large x); lia|].
    destruct (decide (2 ^ 53 <= y)); [pose proof (number_large y); lia|].
    rewrite !number_exact by lia. lia. }
  pose proof (number_large _ Hsum). lia.
Qed.
Lemma exceeds_one (bound x : Z) : 0 <= bound < 2 ^ 53 → 0 <= x →
  (number bound <? number (number x + 1)) = (bound <? x + 1).
Proof. intros Hb Hx. by apply (exceeds bound x 1). Qed.
Lemma at_most_one (x : Z) : 0 <= x → (number x <=? 1) = (x <=? 1).
Proof.
  intros Hx. destruct (decide (x < 2 ^ 53)); [by rewrite number_exact by lia|].
  pose proof (number_large x). rewrite !(proj2 (Z.leb_gt _ _)) by lia. done.
Qed.
End lua.

Module ratelimit.

Record Limits : Type := mkLimits {
  RequestsPerMinute : Z;
  TokensPerMinute : Z;
  MaxConcurrent : Z
}.

Record Decision : Type := mkDecision {
  Allowed : bool;
  Reason : string;
  RetryAfter : time.Duration
}.

Record Permit : Type := mkPermit { key : string; released : bool }.

Record Limiter : Type := mkLimiter { prefix : string }.

Definition NewLimiter (prefix : string) : Limiter :=
  mkLimiter (if prefix =s "" then "aegis:limit" else prefix).

Section Scripts.
Context {R : Type} `{redis.Server R}.

(** [allowScript]. The arguments of the commands are the texts it was given, or, in the
    last one, a number of seconds, which is far below 2^53. *)
Definition allowScript (now : time.Time) (key1 key2 key3 : string)
  (arg1 arg2 arg3 arg4 arg5 : Z) : M R (list Z) := λ r,
  let requests := lua.number (default 0 (redis.GET now key1 r)) in
  let tokens := lua.number (default 0 (redis.GET now key2 r)) in
  let concurrent := lua.number (default 0 (redis.GET now key3 r)) in
  if lua.number arg1 <? lua.number (requests + 1) then (Ok [0; 1], r)
  else if lua.number arg2 <? lua.number (tokens + lua.number arg4) then (Ok [0; 2], r)
  else if lua.number arg3 <? lua.number (concurrent + 1) then (Ok [0; 3], r)
  else
    (redis.INCR now key1 ≫= λ _, redis.EXPIRE now key1 60 ≫= λ _,
     redis.INCRBY now key2 arg4 ≫= λ _, redis.EXPIRE now key2 60 ≫= λ _,
     redis.INCR now key3 ≫= λ _, redis.EXPIRE now key3 arg5 ≫= λ _,
     mret [1; 0]) r.

Definition finishScript (now : time.Time) (key1 : string) : M R Z := λ r,
  let value := lua.number (default 0 (redis.GET now key1 r)) in
  if value <=? 1 then (redis.DEL now key1 ≫= λ _, mret 0) r
  else redis.DECR now key1 r.

(** One exchange with the server: the request may be lost (fault 0) before
    the script runs, the reply (fault 1) after it ran. *)
Definition Run {A} (io : IO) (script : M R A) : M R A := λ r,
  match io_fault io 0 with
  | Some e => (Err e, r)
  | None =>
    match script r, io_fault io 1 with
    | (Panic w, r), _ => (Panic w, r)
    | (_, r), Some e => (Err e, r)
    | out, None => out
    end
  end.

Definition base_key (limiter : Limiter) (bucket : string) (window : Z) : string :=
  prefix limiter +:+ ":" +:+ bucket +:+ ":" +:+ pretty window.
Definition concurrent_key (limiter : Limiter) (bucket : string) : string :=
  prefix limiter +:+ ":" +:+ bucket +:+ ":concurrent".

Definition window_of (now : time.Time) : Z := Z.quot (time.Unix now) 60.

Definition invalid_input (bucket : string) (limits : Limits) (estimatedTokens : Z) : bool :=
  (bucket =s "") || (RequestsPerMinute limits <=? 0) || (TokensPerMinute limits <=? 0) ||
  (MaxConcurrent limits <=? 0) || (estimatedTokens <? 0).

(** The reason table; an unknown code reads as the empty string. *)
Definition reason_of (code : Z) : string :=
  if code =? 1 then "requests_per_minute"
  else if code =? 2 then "tokens_per_minute"
  else if code =? 3 then "maximum_concurrency" else "".

Definition Allow (io : IO) (bucket : string) (limits : Limits) (estimatedTokens : Z)
  (concurrencyTTL : time.Duration) (limiter : Limiter) : M R (Decision * option Permit) :=
  if invalid_input bucket limits estimatedTokens
  then fail (New "invalid rate-limit input")
  else
    let window := window_of (io_now io) in
    let base := base_key limiter bucket window in
    let concurrentKey := concurrent_key limiter bucket in
    caught (Run io (allowScript (io_now io) (base +:+ ":requests") (base +:+ ":tokens") concurrentKey
              (RequestsPerMinute limits) (TokensPerMinute limits) (MaxConcurrent limits)
              estimatedTokens (time.WholeSeconds concurrencyTTL))) ≫= λ out,
    match out with
    | inr err => fail (Wrap "execute rate-limit script" err)
    | inl [r0; r1] =>
      if r0 =? 1
      then mret (mkDecision true "" 0, Some (mkPermit concurrentKey false))
      else mret (mkDecision false (reason_of r1) time.Minute, None)
    | inl _ => fail (New "unexpected rate-limit script response")
    end.

(** [Release]; a nil permit is [None]. The compare-and-swap marks the permit
    before the server is asked, so a failed release is not tried again. *)
Definition Release (io : IO) (permit : option Permit) (r : R)
  : res unit * option Permit * R :=
  match permit with
  | None => (Ok (), None, r)
  | Some p =>
    if released p then (Ok (), Some p, r)
    else
      match Run io (finishScript (io_now io) (key p)) r with
      | (Ok _, r) => (Ok (), Some (mkPermit (key p) true), r)
      | (Err err, r) => (Err (Wrap "release concurrency permit" err), Some (mkPermit (key p) true), r)
      | (Panic w, r) => (Panic w, Some (mkPermit (key p) true), r)
      end
  end.
End Scripts.

(** ** The keys of a bucket are distinct *)

(** Two strings with different last characters differ. *)
Ltac by_suffix :=
  let H := fresh in
  intros H; apply (f_equal (λ s, rev (strings.chars s))) in H;
  rewrite !chars_app, !rev_app_distr in H; done.

Definition requests_key (limiter : Limiter) (bucket : string) (w : Z) : string :=
  base_key limiter bucket w +:+ ":requests".
Definition tokens_key (limiter : Limiter) (bucket : string) (w : Z) : string :=
  base_key limiter bucket w +:+ ":tokens".

Lemma requests_tokens_ne (l : Limiter) (b : string) (w w' : Z) :
  requests_key l b w ≠ tokens_key l b w'.
Proof. unfold requests_key, tokens_key. by_suffix. Qed.

Lemma requests_concurrent_ne (l : Limiter) (b : string) (w : Z) :
  requests_key l b w ≠ concurrent_key l b.
Proof. unfold requests_key, concurrent_key. by_suffix. Qed.

Lemma tokens_concurrent_ne (l : Limiter) (b : string) (w : Z) :
  tokens_key l b w ≠ concurrent_key l b.
Proof. unfold tokens_key, concurrent_key. by_suffix. Qed.
(** ** What one call does to the server *)

Section Effects.
Context {R : Type} `{redis.Laws R}.
Context (limiter : Limiter) (bucket : string) (limits : Limits) (ttl : time.Duration).
(** The limits are below 2^53, so that the script compares exactly. *)
Context (Hlim : RequestsPerMinute limits < 2 ^ 53 ∧ TokensPerMinute limits < 2 ^ 53 ∧
                MaxConcurrent limits < 2 ^ 53).
Context (Httl : 0 < time.WholeSeconds ttl).

Abbreviation rkey := (requests_key limiter bucket).
Abbreviation tkey := (tokens_key limiter bucket).
Abbreviation ckey := (concurrent_key limiter bucket).

(** The counters of this bucket. *)
Definition our_key (k : string) : Prop := k = ckey ∨ ∃ w, k = rkey w ∨ k = tkey w.

(** From [now] on no counter of the bucket is negative. *)
Definition nonneg (now : time.Time) (r : R) : Prop :=
  ∀ k t, our_key k → now <= t → 0 <= redis.value t k r.

(** The call is within the three limits. *)
Definition within (now : time.Time) (est : Z) (r : R) : Prop :=
  redis.value now (rkey (window_of now)) r + 1 <= RequestsPerMinute limits ∧
  redis.value now (tkey (window_of now)) r + est <= TokensPerMinute limits ∧
  redis.value now ckey r + 1 <= MaxConcurrent limits.

(** A counter set to [v] at [now] with a time to live of [s] seconds. *)
Definition set_until (now : time.Time) (s : Z) (k : string) (v : Z) (r : R) : Prop :=
  ∀ t, now <= t → redis.GET t k r = if t <? now + s * time.Second then Some v else None.

(** The server after an admission. *)
Record admitted (now : time.Time) (est : Z) (r r' : R) : Prop := {
  adm_requests : set_until now 60 (rkey (window_of now))
    (redis.value now (rkey (window_of now)) r + 1) r';
  adm_tokens : set_until now 60 (tkey (window_of now))
    (redis.value now (tkey (window_of now)) r + est) r';
  adm_concurrent : set_until now (time.WholeSeconds ttl) ckey (redis.value now ckey r + 1) r';
  adm_others : ∀ k t, k ≠ rkey (window_of now) → k ≠ tkey (window_of now) → k ≠ ckey →
    redis.GET t k r' = redis.GET t k r
}.

Lemma incr_expire (now : time.Time) (k : string) (n s : Z) (m : M R Z) (r : R) :
  (∃ r1, m r = (Ok n, r1) ∧ redis.GET now k r1 = Some n) →
  (∀ k' t, k ≠ k' → redis.GET t k' (m r).2 = redis.GET t k' r) → 0 < s →
  ∃ r', (m ≫= λ _, redis.EXPIRE now k s) r = (Ok (), r') ∧ set_until now s k n r' ∧
        ∀ k' t, k ≠ k' → redis.GET t k' r' = redis.GET t k' r.
Proof.
  intros (r1 & Hm & Hget) Hne Hs. unfold mbind, M_bind. rewrite Hm in *.
  destruct (redis.expire_ok now k s r1 n Hget Hs) as (r2 & He & Hr2).
  exists r2. split_and!; [done|exact Hr2|]. intros k' t Hk.
  pose proof (redis.expire_ne now k k' s t r1 Hk) as Hx. rewrite He in Hx. simpl in *.
  by rewrite Hx, Hne.
Qed.

Lemma bind_assoc {A B C} (m : M R A) (f : A → M R B) (g : B → M R C) (r : R) :
  ((m ≫= f) ≫= g) r = (m ≫= λ a, f a ≫= g) r.
Proof. unfold mbind, M_bind. by destruct (m r) as [[]]. Qed.

Abbreviation script now est :=
  (allowScript now (rkey (window_of now)) (tkey (window_of now)) ckey (RequestsPerMinute limits)
     (TokensPerMinute limits) (MaxConcurrent limits) est (time.WholeSeconds ttl)).

Definition positive : Prop :=
  0 < RequestsPerMinute limits ∧ 0 < TokensPerMinute limits ∧ 0 < MaxConcurrent limits.

(** The tests of the script are exact. *)
Lemma script_tests (now : time.Time) (est : Z) (r : R) :
  positive → nonneg now r → 0 <= est →
  script now est r =
  if RequestsPerMinute limits <? redis.value now (rkey (window_of now)) r + 1 then (Ok [0; 1], r)
  else if TokensPerMinute limits <? redis.value now (tkey (window_of now)) r + est then (Ok [0; 2], r)
  else if MaxConcurrent limits <? redis.value now ckey r + 1 then (Ok [0; 3], r)
  else (redis.INCR now (rkey (window_of now)) ≫= λ _, redis.EXPIRE now (rkey (window_of now)) 60 ≫= λ _,
        redis.INCRBY now (tkey (window_of now)) est ≫= λ _, redis.EXPIRE now (tkey (window_of now)) 60 ≫= λ _,
        redis.INCR now ckey ≫= λ _, redis.EXPIRE now ckey (time.WholeSeconds ttl) ≫= λ _,
        mret [1; 0]) r.
Proof.
  intros (P1 & P2 & P3) Hnn Hest. unfold allowScript.
  fold (redis.value now (rkey (window_of now)) r) (redis.value now (tkey (window_of now)) r)
    (redis.value now ckey r).
  assert (0 <= redis.value now (rkey (window_of now)) r ∧ 0 <= redis.value now (tkey (window_of now)) r
          ∧ 0 <= redis.value now ckey r) as (V1 & V2 & V3).
  { split_and!; apply Hnn; unfold our_key; eauto; lia. }
  by rewrite !lua.exceeds_one, lua.exceeds by lia.
Qed.

Lemma script_admits (now : time.Time) (est : Z) (r : R) :
  positive → nonneg now r → 0 <= est → within now est r →
  ∃ r', script now est r = (Ok [1; 0], r') ∧ admitted now est r r'.
Proof.
  intros Hpos Hnn Hest (H1 & H2 & H3). rewrite script_tests by done.
  rewrite !(proj2 (Z.ltb_ge _ _)) by done.
  pose proof (requests_tokens_ne limiter bucket (window_of now) (window_of now)) as Nrt.
  pose proof (requests_concurrent_ne limiter bucket (window_of now)) as Nrc.
  pose proof (tokens_concurrent_ne limiter bucket (window_of now)) as Ntc.
  assert (0 <= redis.value now (rkey (window_of now)) r ∧ 0 <= redis.value now (tkey (window_of now)) r
          ∧ 0 <= redis.value now ckey r) as (P1 & P2 & P3).
  { split_and!; apply Hnn; unfold our_key; eauto; lia. }
  assert (∀ x, 0 <= x < 2 ^ 53 → in_int64 x) as Hin by (unfold in_int64, int64_min, int64_max; lia).
  edestruct (λ n, incr_expire now (rkey (window_of now)) n 60 (redis.INCR now (rkey (window_of now))) r)
    as (r1 & E1 & S1 & O1); [apply redis.incr_ok, Hin; lia|intros; by apply redis.incr_ne|lia|].
  edestruct (λ n, incr_expire now (tkey (window_of now)) n 60
    (redis.INCRBY now (tkey (window_of now)) est) r1) as (r2 & E2 & S2 & O2);
    [apply redis.incrby_ok, Hin; unfold redis.value in *; rewrite O1 by done; lia
    |intros; by apply redis.incrby_ne|lia|].
  edestruct (λ n, incr_expire now ckey n (time.WholeSeconds ttl) (redis.INCR now ckey) r2)
    as (r3 & E3 & S3 & O3);
    [apply redis.incr_ok, Hin; unfold redis.value in *; rewrite O2, O1 by done; lia
    |intros; by apply redis.incr_ne|done|].
  exists r3. split.
  - rewrite <-bind_assoc. unfold mbind at 1, M_bind at 1. rewrite E1.
    rewrite <-bind_assoc. unfold mbind at 1, M_bind at 1. rewrite E2.
    rewrite <-bind_assoc. unfold mbind at 1, M_bind at 1. by rewrite E3.
  - split.
    + intros t Ht. rewrite O3, O2 by done. by apply S1.
    + intros t Ht. rewrite O3 by done. rewrite (S2 t Ht). unfold redis.value. by rewrite O1.
    + intros t Ht. rewrite (S3 t Ht). unfold redis.value. by rewrite O2, O1.
    + intros k t K1 K2 K3. by rewrite O3, O2, O1.
Qed.

Lemma script_refuses (now : time.Time) (est : Z) (r : R) :
  positive → nonneg now r → 0 <= est → ¬ within now est r →
  ∃ code, script now est r = (Ok [0; code], r) ∧
    (code = 1 ∧ RequestsPerMinute limits < redis.value now (rkey (window_of now)) r + 1 ∨
     code = 2 ∧ TokensPerMinute limits < redis.value now (tkey (window_of now)) r + est ∨
     code = 3 ∧ MaxConcurrent limits < redis.value now ckey r + 1).
Proof.
  intros Hpos Hnn Hest Hw. rewrite script_tests by done. unfold within in *.
  destruct (_ <? _) eqn:E1; reflect; [eauto 10|].
  destruct (_ <? _) eqn:E2; reflect; [eauto 10|].
  destruct (_ <? _) eqn:E3; reflect; [eauto 10|]. exfalso. lia.
Qed.
Lemma valid_input (est : Z) : invalid_input bucket limits est = false → positive ∧ 0 <= est.
Proof. unfold invalid_input, positive. intros Hinv. reflect. lia. Qed.

Definition granted : Decision * option Permit := (mkDecision true "" 0, Some (mkPermit ckey false)).

Lemma Allow_unfold (io : IO) (est : Z) (r : R) :
  invalid_input bucket limits est = false →
  Allow io bucket limits est ttl limiter r =
  (caught (Run io (script (io_now io) est)) ≫= λ out,
    match out with
    | inr err => fail (Wrap "execute rate-limit script" err)
    | inl [r0; r1] =>
      if r0 =? 1 then mret granted
      else mret (mkDecision false (reason_of r1) time.Minute, None)
    | inl _ => fail (New "unexpected rate-limit script response")
    end) r.
Proof. unfold Allow. by intros ->. Qed.

(** Whatever is lost on the way, a call either leaves the server alone and
    grants nothing, or it was within the limits and is counted. *)
Lemma Allow_effect (io : IO) (est : Z) (r : R) :
  nonneg (io_now io) r →
  let out := Allow io bucket limits est ttl limiter r in
  (out.2 = r ∧ ∀ d p, out.1 ≠ Ok (d, Some p)) ∨
  (0 <= est ∧ within (io_now io) est r ∧ admitted (io_now io) est r out.2 ∧
   (out.1 = Ok granted ∨ ∃ e, out.1 = Err e)).
Proof.
  intros Hnn. destruct (invalid_input bucket limits est) eqn:Hinv.
  { left. unfold Allow. by rewrite Hinv. }
  simpl. rewrite Allow_unfold by done. unfold mbind, M_bind, caught, Run.
  destruct (io_fault io 0); [by left|].
  destruct (valid_input est Hinv) as [Hpos Hest].
  destruct (decide (within (io_now io) est r)) as [Hw|Hw].
  - right. destruct (script_admits (io_now io) est r Hpos Hnn Hest Hw) as (r' & -> & Hadm).
    destruct (io_fault io 1); simpl; split_and!; eauto; apply Hw.
  - left. destruct (script_refuses (io_now io) est r Hpos Hnn Hest Hw) as (code & -> & _).
    by destruct (io_fault io 1).
Qed.

Lemma admitted_nonneg (now : time.Time) (est : Z) (r r' : R) :
  nonneg now r → 0 <= est → admitted now est r r' → nonneg now r'.
Proof.
  intros Hnn Hest [A1 A2 A3 A4] k t Hk Ht.
  assert (0 <= redis.value now (rkey (window_of now)) r ∧ 0 <= redis.value now (tkey (window_of now)) r
          ∧ 0 <= redis.value now ckey r) as (P1 & P2 & P3).
  { split_and!; apply Hnn; unfold our_key; eauto; lia. }
  unfold redis.value at 1.
  destruct (decide (k = rkey (window_of now))) as [->|N1];
    [rewrite A1 by done; destruct (_ <? _); simpl; lia|].
  destruct (decide (k = tkey (window_of now))) as [->|N2];
    [rewrite A2 by done; destruct (_ <? _); simpl; lia|].
  destruct (decide (k = ckey)) as [->|N3];
    [rewrite A3 by done; destruct (_ <? _); simpl; lia|].
  rewrite A4 by done. by apply Hnn.
Qed.

(** A release frees at most one slot and touches no other counter. *)
Lemma Release_effect (io : IO) (r : R) :
  nonneg (io_now io) r →
  let '(_, p, r') := Release io (Some (mkPermit ckey false)) r in
  p = Some (mkPermit ckey true) ∧ nonneg (io_now io) r' ∧
  (∀ k t, k ≠ ckey → redis.GET t k r' = redis.GET t k r) ∧
  (∀ t, io_now io <= t → redis.value t ckey r - 1 <= redis.value t ckey r').
Proof.
  set (now := io_now io). intros Hnn. simpl. unfold Run. fold now.
  destruct (io_fault io 0); [split_and!; try done; intros; lia|].
  assert (∃ v r', finishScript now ckey r = (Ok v, r') ∧ nonneg now r' ∧
    (∀ k t, k ≠ ckey → redis.GET t k r' = redis.GET t k r) ∧
    (∀ t, now <= t → redis.value t ckey r - 1 <= redis.value t ckey r'))
    as (v & r' & -> & Hrest); [|by destruct (io_fault io 1)].
  assert (0 <= redis.value now ckey r) as Hc by (apply Hnn; [by left|lia]).
  unfold finishScript. fold (redis.value now ckey r). rewrite lua.at_most_one by done. destruct (_ <=? _) eqn:E; reflect.
  - destruct (redis.del_ok now ckey r) as (r' & Hd & Hr').
    pose proof (λ k t, redis.del_ne now ckey k t r) as Hne. rewrite Hd in Hne. simpl in Hne.
    exists 0, r'. unfold mbind, M_bind. rewrite Hd. split_and!; [done| |auto|].
    + intros k t Hk Ht. unfold redis.value. destruct (decide (k = ckey)) as [->|].
      * by rewrite Hr'.
      * rewrite Hne by done. by apply Hnn.
    + intros t Ht. unfold redis.value at 2. rewrite Hr' by done. simpl.
      unfold redis.value in *. destruct (redis.get_later now t ckey r Ht) as [-> | ->]; simpl; lia.
  - destruct (redis.GET now ckey r) as [v|] eqn:Hg; [|unfold redis.value in *; by rewrite Hg in *].
    assert (redis.value now ckey r = v) as Hv by (unfold redis.value; by rewrite Hg).
    rewrite Hv in *.
    assert (in_int64 (v - 1)) as Hin.
    { apply redis.get_range in Hg. unfold in_int64, int64_min in *. lia. }
    destruct (redis.decr_ok now ckey r v Hg Hin) as (r' & Hd & Hr').
    pose proof (λ k t, redis.decr_ne now ckey k t r) as Hne. rewrite Hd in Hne. simpl in Hne.
    exists (v - 1), r'. split_and!; [done| |auto|].
    + intros k t Hk Ht. unfold redis.value. destruct (decide (k = ckey)) as [->|].
      * rewrite Hr' by done.
        destruct (redis.get_later now t ckey r Ht) as [-> | ->]; rewrite ?Hg; simpl; lia.
      * rewrite Hne by done. by apply Hnn.
    + intros t Ht. unfold redis.value. rewrite Hr' by done.
      destruct (redis.GET t ckey r); simpl; lia.
Qed.
(** ** Every use of a bucket *)

(** The clients of one bucket: the permits handed out so far and the token
    estimates of the admitted calls. *)
Record system : Type := mkSystem { server : R; permits : list Permit; log : list Z }.

Inductive op : Type :=
| OpAllow (io : IO) (est : Z)
| OpRelease (io : IO) (k : nat).

Definition op_time (o : op) : time.Time :=
  match o with OpAllow io _ | OpRelease io _ => io_now io end.

Definition apply_op (s : system) (o : op) : system :=
  match o with
  | OpAllow io est =>
    match Allow io bucket limits est ttl limiter (server s) with
    | (Ok (_, Some p), r) => mkSystem r (permits s ++ [p]) (log s ++ [est])
    | (_, r) => mkSystem r (permits s) (log s)
    end
  | OpRelease io k =>
    match permits s !! k with
    | Some p =>
      match Release io (Some p) (server s) with
      | (_, Some p, r) => mkSystem r (<[k := p]> (permits s)) (log s)
      | (_, None, r) => mkSystem r (permits s) (log s)
      end
    | None => s
    end
  end.

(** The permits still held. *)
Definition held (ps : list Permit) : Z := count (λ p, negb (released p)) ps.

Definition handed_out (s : system) : Prop := Forall (λ p, key p = ckey) (permits s).

(** Until [tend] the counters of window [w] are at least what was handed out,
    which is within the limits. *)
Record winv (w : Z) (tend now : time.Time) (s : system) : Prop := {
  w_nonneg : nonneg now (server s);
  w_keys : handed_out s;
  w_counters : ∀ t, now <= t → t <= tend →
    Z.of_nat (length (log s)) <= redis.value t (rkey w) (server s) ∧
    zsum (log s) <= redis.value t (tkey w) (server s);
  w_limits : Z.of_nat (length (log s)) <= Z.max 0 (RequestsPerMinute limits) ∧
    zsum (log s) <= Z.max 0 (TokensPerMinute limits)
}.


Lemma nonneg_later (t t' : time.Time) (r : R) : t <= t' → nonneg t r → nonneg t' r.
Proof. intros Hle Hnn k u Hk Hu. apply Hnn; [done|lia]. Qed.

(** What one client call does: nothing, an admission (whose permit may have
    been lost on the way), or a release. *)
Inductive effect (s : system) (now : time.Time) : system → Prop :=
| eff_none : effect s now s
| eff_admit est r' ps ls :
    0 <= est → within now est (server s) → admitted now est (server s) r' →
    (ps = permits s ++ [mkPermit ckey false] ∧ ls = log s ++ [est]) ∨
    (ps = permits s ∧ ls = log s) →
    effect s now (mkSystem r' ps ls)
| eff_release k r' :
    permits s !! k = Some (mkPermit ckey false) → nonneg now r' →
    (∀ k t, k ≠ ckey → redis.GET t k r' = redis.GET t k (server s)) →
    (∀ t, now <= t → redis.value t ckey (server s) - 1 <= redis.value t ckey r') →
    effect s now (mkSystem r' (<[k := mkPermit ckey true]> (permits s)) (log s)).

Lemma apply_op_effect (s : system) (o : op) :
  nonneg (op_time o) (server s) → handed_out s → effect s (op_time o) (apply_op s o).
Proof.
  intros Hnn Hk. destruct o as [io est|io k]; cbn [op_time apply_op] in *.
  - pose proof (Allow_effect io est (server s) Hnn) as Heff.
    destruct (Allow io bucket limits est ttl limiter (server s)) as [out r']. simpl in Heff.
    destruct Heff as [[-> Hno]|(Hest & Hw & Hadm & Hout)].
    + destruct s as [r ps ls]. destruct out as [[d [p|]]|e|e]; try apply eff_none.
      by destruct (Hno d p).
    + destruct Hout as [->|[e ->]]; eapply eff_admit; eauto.
  - destruct (permits s !! k) as [[pk []]|] eqn:Hp; [|..|apply eff_none].
    + simpl. rewrite list_insert_id by done. destruct s. apply eff_none.
    + assert (pk = ckey) as -> by exact (Forall_lookup_1 _ _ _ _ Hk Hp).
      pose proof (Release_effect io (server s) Hnn) as Heff.
      destruct (Release io _ (server s)) as [[out p] r']. destruct Heff as (-> & H1 & H2 & H3).
      by apply eff_release.
Qed.

Lemma effect_nonneg (s s' : system) (now : time.Time) :
  nonneg now (server s) → effect s now s' → nonneg now (server s').
Proof. intros Hnn []; simpl; eauto using admitted_nonneg. Qed.

Lemma effect_keys (s s' : system) (now : time.Time) :
  handed_out s → effect s now s' → handed_out s'.
Proof.
  unfold handed_out. intros Hk []; simpl; [done| |].
  - destruct H4 as [[-> _]|[-> _]]; [|done]. apply Forall_app. split; [done|by repeat constructor].
  - by apply Forall_insert.
Qed.

Lemma set_until_value (now t s v : Z) (k : string) (r : R) :
  set_until now s k v r → now <= t → t < now + s * time.Second → redis.value t k r = v.
Proof.
  intros Hs Ht Hlt. unfold redis.value. rewrite Hs by done. by rewrite (proj2 (Z.ltb_lt _ _)).
Qed.

Lemma effect_winv (w : Z) (tend now : time.Time) (s s' : system) :
  winv w tend now s → effect s now s' → window_of now = w →
  now <= tend → tend < now + 60 * time.Second → winv w tend now s'.
Proof.
  intros [Hnn Hk Hc [Hl1 Hl2]] Heff Hw Hnow Htend.
  split; [by eapply effect_nonneg|by eapply effect_keys| |];
    destruct Heff as [|est r' ps ls Hest (W1 & W2 & W3) [A1 A2 A3 A4] Hps|k r' Hp Hnn' Hne Hrel];
    simpl in *; try done.
  - intros t Ht1 Ht2. destruct (Hc t Ht1 Ht2) as [C1 C2]. destruct (Hc now) as [D1 D2]; [lia..|].
    subst w. rewrite (set_until_value now t 60 _ _ _ A1), (set_until_value now t 60 _ _ _ A2) by lia.
    destruct Hps as [[_ ->]|[_ ->]]; rewrite ?length_app, ?zsum_app; simpl; lia.
  - intros t Ht1 Ht2. unfold redis.value.
    rewrite !Hne by auto using requests_concurrent_ne, tokens_concurrent_ne. by apply Hc.
  - destruct (Hc now) as [D1 D2]; [lia..|]. subst w.
    destruct Hps as [[_ ->]|[_ ->]]; rewrite ?length_app, ?zsum_app; simpl; lia.
Qed.



Definition run_ops (s : system) (ops : list op) : system := foldl apply_op s ops.

Lemma run_winv (w : Z) (tend now : time.Time) (ops : list op) (s : system) :
  winv w tend now s → StronglySorted Z.le (now :: (op_time <$> ops)) →
  Forall (λ o, window_of (op_time o) = w ∧ op_time o <= tend ∧
               tend < op_time o + 60 * time.Second) ops →
  ∃ t, winv w tend t (run_ops s ops).
Proof.
  revert s now. induction ops as [|o ops IH]; intros s now Hs Hsort Hall; [by exists now|].
  apply Forall_cons in Hall as [(Hw & Hle & Hlt) Hall].
  apply StronglySorted_inv in Hsort as [Hsort Hnow]. rewrite fmap_cons in *.
  apply Forall_cons in Hnow as [Hnow _]. simpl. apply (IH _ (op_time o)); [|done|done].
  assert (winv w tend (op_time o) s) as Hs'.
  { destruct Hs as [Hnn Hk Hc Hl]. split; try done; [by eapply nonneg_later|].
    intros t ??. apply Hc; lia. }
  eapply effect_winv; [exact Hs'| |done..]. apply apply_op_effect; apply Hs'.
Qed.


(** Two instants of one window are less than a minute apart. *)
Lemma same_window (t t' : time.Time) :
  time.epoch <= t → time.epoch <= t' → window_of t = window_of t' → t' < t + 60 * time.Second.
Proof.
  unfold window_of, time.Unix, time.Second. intros H1 H2 Hw.
  assert (0 <= (t - time.epoch) / 1000000000) by (apply Z.div_pos; lia).
  assert (0 <= (t' - time.epoch) / 1000000000) by (apply Z.div_pos; lia).
  rewrite !Z.quot_div_nonneg in Hw by lia.
  pose proof (Z.div_mod (t - time.epoch) 1000000000 ltac:(lia)).
  pose proof (Z.mod_pos_bound (t - time.epoch) 1000000000 ltac:(lia)).
  pose proof (Z.div_mod (t' - time.epoch) 1000000000 ltac:(lia)).
  pose proof (Z.mod_pos_bound (t' - time.epoch) 1000000000 ltac:(lia)).
  pose proof (Z.div_mod ((t - time.epoch) / 1000000000) 60 ltac:(lia)).
  pose proof (Z.mod_pos_bound ((t - time.epoch) / 1000000000) 60 ltac:(lia)).
  pose proof (Z.div_mod ((t' - time.epoch) / 1000000000) 60 ltac:(lia)).
  pose proof (Z.mod_pos_bound ((t' - time.epoch) / 1000000000) 60 ltac:(lia)).
  lia.
Qed.

(** With valid input and no fault on the way, [Allow] admits
    a call exactly when requests, tokens and concurrency stay within the
    limits. An admission consumes all three counters at once (the window
    counters live 60 more seconds, the concurrency counter the given time)
    and returns a fresh permit; a refusal changes nothing on the server and
    names an exceeded limit. *)
Theorem Allow_spec (io : IO) (est : Z) (r : R)
  (Hvalid : invalid_input bucket limits est = false)
  (Hio : io_fault io 0 = None ∧ io_fault io 1 = None) (Hnn : nonneg (io_now io) r) :
  (within (io_now io) est r →
     ∃ r', Allow io bucket limits est ttl limiter r = (Ok granted, r') ∧
           admitted (io_now io) est r r') ∧
  (¬ within (io_now io) est r →
     ∃ reason, Allow io bucket limits est ttl limiter r =
                 (Ok (mkDecision false reason time.Minute, None), r) ∧
       (reason = "requests_per_minute" ∧
          RequestsPerMinute limits < redis.value (io_now io) (rkey (window_of (io_now io))) r + 1 ∨
        reason = "tokens_per_minute" ∧
          TokensPerMinute limits < redis.value (io_now io) (tkey (window_of (io_now io))) r + est ∨
        reason = "maximum_concurrency" ∧
          MaxConcurrent limits < redis.value (io_now io) ckey r + 1)).
Proof.
  destruct Hio as [Hio0 Hio1].
  destruct (valid_input est Hvalid) as [Hpos Hest].
  split; intros Hw; rewrite Allow_unfold by done; unfold mbind, M_bind, caught, Run;
    rewrite Hio0, Hio1.
  - destruct (script_admits (io_now io) est r Hpos Hnn Hest Hw) as (r' & -> & Hadm). eauto.
  - destruct (script_refuses (io_now io) est r Hpos Hnn Hest Hw) as (code & -> & Hcode). eexists. split; [done|].
    destruct Hcode as [[-> ?]|[[-> ?]|[-> ?]]]; eauto.
Qed.

(** C30 (safety): within one minute window, however many gateways ask, release
    and lose messages, at most [RequestsPerMinute] calls of a bucket are
    admitted and their token estimates add up to at most [TokensPerMinute]. The
    limits are below 2^53 (from there on the script's doubles cannot tell a sum from
    its successor, see [lua_limit_crossed]), and gateways and server share a clock. *)
Theorem window_limits (ops : list op) (r : R) (w : Z) (now : time.Time)
  (Hnn : nonneg now r) (Hepoch : time.epoch <= now)
  (Hsort : StronglySorted Z.le (now :: (op_time <$> ops)))
  (Hwin : Forall (λ o, window_of (op_time o) = w) ops) :
  let s := run_ops (mkSystem r [] []) ops in
  Z.of_nat (length (log s)) <= Z.max 0 (RequestsPerMinute limits) ∧
  zsum (log s) <= Z.max 0 (TokensPerMinute limits).
Proof.
  destruct ops as [|o ops _] using rev_ind; [simpl; lia|].
  destruct (run_winv w (op_time o) now (ops ++ [o]) (mkSystem r [] [])) as [t [_ _ _ Hl]]; [..|done].
  - split; simpl; [done|by constructor| |lia]. intros t Ht1 Ht2.
    split; apply Hnn; unfold our_key; eauto.
  - done.
  - apply Forall_app in Hwin as [Hwin [Hwo _]%Forall_cons].
    rewrite fmap_app in Hsort. apply StronglySorted_inv in Hsort as [Hsort Hnow].
    apply Forall_app in Hnow as [Hnow [Hno _]%Forall_cons].
    apply StronglySorted_app in Hsort as (Hle & _ & _).
    apply Forall_app. split; [|by repeat constructor; try lia; unfold time.Second; lia].
    apply Forall_forall. intros o' Ho'. rewrite Forall_forall in Hwin.
    assert (op_time o' ∈ op_time <$> ops) as Hin by (apply list_elem_of_fmap; eauto).
    rewrite Forall_forall in Hnow. specialize (Hnow _ Hin).
    split_and!; [by apply Hwin|apply Hle; set_solver|].
    apply same_window; [lia..|]. rewrite Hwo. by apply Hwin.
Qed.

End Effects.
End ratelimit.

(** ** A server that satisfies the laws

    A store of integers with optional deadlines; it shows that the laws can
    hold, and runs the limiter on concrete inputs. *)

Module redis_model.
Abbreviation db := (gmap string (Z * option time.Time)).

Definition get (now : time.Time) (k : string) (r : db) : option Z :=
  match r !! k with
  | Some (v, Some deadline) => if now <? deadline then Some (wrap64 v) else None
  | Some (v, None) => Some (wrap64 v)
  | None => None
  end.

Definition deadline (now : time.Time) (k : string) (r : db) : option time.Time :=
  match get now k r, r !! k with Some _, Some (_, d) => d | _, _ => None end.

Definition add (now : time.Time) (k : string) (n : Z) : M db Z := λ r,
  let v := default 0 (get now k r) + n in
  if bool_decide (in_int64 v) then (Ok v, <[k := (v, deadline now k r)]> r)
  else (Err (New "ERR increment or decrement would overflow"), r).

Definition expire (now : time.Time) (k : string) (s : Z) : M db unit := λ r,
  match get now k r with
  | Some v => (Ok (), if 0 <? s then <[k := (v, Some (now + s * time.Second))]> r else delete k r)
  | None => (Ok (), r)
  end.

#[global] Instance server : redis.Server db := {|
  redis.GET := get;
  redis.INCR := λ now k, add now k 1;
  redis.DECR := λ now k, add now k (-1);
  redis.INCRBY := add;
  redis.EXPIRE := expire;
  redis.DEL := λ now k r, (Ok (), delete k r)
|}.

Lemma get_insert_eq (t : time.Time) (k : string) (v : Z) (d : option time.Time) (r : db) :
  in_int64 v →
  get t k (<[k := (v, d)]> r) =
  match d with Some d => if t <? d then Some v else None | None => Some v end.
Proof. intros Hv. unfold get. rewrite lookup_insert_eq, wrap64_id by done. done. Qed.

Lemma get_insert_ne (t : time.Time) (k k' : string) x (r : db) :
  k ≠ k' → get t k' (<[k := x]> r) = get t k' r.
Proof. intros Hk. unfold get. by rewrite lookup_insert_ne. Qed.

Lemma get_delete_ne (t : time.Time) (k k' : string) (r : db) :
  k ≠ k' → get t k' (delete k r) = get t k' r.
Proof. intros Hk. unfold get. by rewrite lookup_delete_ne. Qed.

Lemma add_ne (now t : time.Time) (k k' : string) (n : Z) (r : db) :
  k ≠ k' → get t k' (add now k n r).2 = get t k' r.
Proof. intros Hk. unfold add. destruct (bool_decide _); [by apply get_insert_ne|done]. Qed.

Lemma add_get (now : time.Time) (k : string) (n : Z) (r : db) :
  in_int64 (redis.value now k r + n) →
  ∃ r', add now k n r = (Ok (redis.value now k r + n), r') ∧
        get now k r' = Some (redis.value now k r + n) ∧
        ∀ t v, get now k r = Some v → now <= t → get t k r' = (λ v, v + n) <$> get t k r.
Proof.
  unfold redis.value. cbn [redis.GET server]. intros Hin. unfold add.
  rewrite bool_decide_true by done. eexists. split; [done|].
  rewrite get_insert_eq by done. split.
  - unfold deadline. destruct (get now k r) eqn:Hg; [|done].
    unfold get in Hg. destruct (r !! k) as [[v' [d|]]|]; simplify_eq; [|done].
    by destruct (now <? d).
  - intros t v' Hv Ht. rewrite get_insert_eq by done. unfold deadline. rewrite Hv. simpl.
    unfold get in Hv |- *. destruct (r !! k) as [[v1 [d|]]|]; simplify_eq; simpl; [|done].
    destruct (now <? d) eqn:E1; simplify_eq. by destruct (t <? d).
Qed.

#[global] Instance laws : redis.Laws db.
Proof.
  split; cbn [redis.GET redis.INCR redis.DECR redis.INCRBY redis.EXPIRE redis.DEL server].
  - intros now k r H. destruct (add_get now k 1 r H) as (r' & ? & ? & _). eauto.
  - intros now k n r H. destruct (add_get now k n r H) as (r' & ? & ? & _). eauto.
  - intros now k r v Hv H.
    assert (redis.value now k r = v) as Hval by (unfold redis.value; cbn; by rewrite Hv).
    destruct (add_get now k (-1) r) as (r' & Ha & _ & Hg); [by rewrite Hval|].
    exists r'. rewrite Hval in Ha. split; [done|]. intros t Ht. by eapply Hg.
  - intros now k s r v Hv Hs. unfold expire. rewrite Hv, (proj2 (Z.ltb_lt _ _) Hs).
    eexists. split; [done|]. intros t Ht. unfold get. rewrite lookup_insert_eq.
    rewrite wrap64_id; [done|]. unfold get in Hv.
    destruct (r !! k) as [[v' [d|]]|]; split_ifs_in Hv; simplify_eq; apply wrap64_range.
  - intros now k r. eexists. split; [done|]. intros t _. unfold get. by rewrite lookup_delete_eq.
  - intros. by apply add_ne.
  - intros. by apply add_ne.
  - intros. by apply add_ne.
  - intros now k k' s t r Hk. unfold expire. destruct (get now k r); [|done].
    destruct (0 <? s); [by apply get_insert_ne|by apply get_delete_ne].
  - intros. by apply get_delete_ne.
  - intros t k r v Hv. unfold get in Hv.
    destruct (r !! k) as [[v' [d|]]|]; split_ifs_in Hv; simplify_eq; apply wrap64_range.
  - intros t t' k r Ht. unfold get. destruct (r !! k) as [[v' [d|]]|]; auto.
    destruct (t <? d) eqn:E1, (t' <? d) eqn:E2; auto. reflect. lia.
Qed.

Definition demo_limiter : ratelimit.Limiter := ratelimit.NewLimiter "".
Definition demo_limits : ratelimit.Limits := ratelimit.mkLimits 2 100 1.
Definition at_ (seconds : Z) : IO := quiet (time.epoch + seconds * time.Second) [].

Lemma demo_nonneg (now : time.Time) : ratelimit.nonneg demo_limiter "b" now (∅ : db).
Proof. intros k t _ _. unfold redis.value. simpl. unfold get. by rewrite lookup_empty. Qed.

Lemma demo_limits_ok : ratelimit.RequestsPerMinute demo_limits < 2 ^ 53 ∧
  ratelimit.TokensPerMinute demo_limits < 2 ^ 53 ∧
  ratelimit.MaxConcurrent demo_limits < 2 ^ 53.
Proof. by vm_compute. Qed.

Abbreviation demo_ttl := (2 * time.Minute).

(** Three calls and a release in one minute; the second call is refused. *)
Definition demo_ops : list ratelimit.op :=
  [ratelimit.OpAllow (at_ 5) 10; ratelimit.OpAllow (at_ 6) 10; ratelimit.OpRelease (at_ 7) 0;
   ratelimit.OpAllow (at_ 8) 10].

Definition demo_run : ratelimit.system :=
  ratelimit.run_ops demo_limiter "b" demo_limits demo_ttl (ratelimit.mkSystem (∅ : db) [] []) demo_ops.

Example demo_run_log : ratelimit.log demo_run = [10; 10] ∧ ratelimit.held (ratelimit.permits demo_run) = 1.
Proof. by vm_compute. Qed.

(** With a limit of 2^53 tokens the script admits a call of 2^53 tokens and then one
    more of a single token: in doubles 2^53 + 1 is 2^53. *)
Example lua_limit_crossed :
  let limits := ratelimit.mkLimits 10 (2 ^ 53) 10 in
  let s := ratelimit.run_ops demo_limiter "b" limits demo_ttl (ratelimit.mkSystem (∅ : db) [] [])
    [ratelimit.OpAllow (at_ 5) (2 ^ 53); ratelimit.OpAllow (at_ 6) 1] in
  ratelimit.log s = [2 ^ 53; 1].
Proof. by vm_compute. Qed.

Lemma Allow_spec_witness :
  ∃ r', ratelimit.Allow (at_ 5) "b" demo_limits 10 demo_ttl demo_limiter (∅ : db) =
          (Ok (ratelimit.granted demo_limiter "b"), r').
Proof.
  destruct (ratelimit.Allow_spec demo_limiter "b" demo_limits demo_ttl demo_limits_ok eq_refl
    (at_ 5) 10 (∅ : db) eq_refl (conj eq_refl eq_refl) (demo_nonneg _)) as [H _].
  destruct H as (r' & H & _); [|by exists r'].
  unfold ratelimit.within, redis.value. simpl. unfold get. rewrite !lookup_empty. done.
Defined.

Lemma window_limits_witness :
  Z.of_nat (length (ratelimit.log demo_run)) <= 2 ∧ zsum (ratelimit.log demo_run) <= 100.
Proof.
  apply (ratelimit.window_limits demo_limiter "b" demo_limits demo_ttl demo_limits_ok eq_refl
    demo_ops (∅ : db) 0 time.epoch (demo_nonneg _)).
  - done.
  - repeat constructor; by vm_compute.
  - repeat constructor.
Defined.

End redis_model.
