(* ===== verification/Store.v ===== *)
(** * Store: the repository interface of the gateway

    Models [src/internal/persistence/store.go]: the parameter types, the
    errors and the [Store] interface as a class, and what the gateway expects
    of any store as the class [Spec], in terms of the durable state of a
    request. *)

From S2P Require Import Prelude Golib Request Auth.

Module persistence.

Definition ErrNotFound : error := Sentinel "persistence.ErrNotFound" "record not found".
Definition ErrConflict : error :=
  Sentinel "persistence.ErrConflict" "idempotency key payload conflict".
Definition ErrAlreadyFinal : error :=
  Sentinel "persistence.ErrAlreadyFinal" "request already finalized".
Definition ErrModelForbidden : error :=
  Sentinel "persistence.ErrModelForbidden" "model is not enabled for tenant".

(** A nil [AllowedProviders] map is [None]. *)
Record TenantPolicy : Type := mkTenantPolicy {
  DataClassification : string;
  AllowedProviders : option (gset string);
  RequestsPerMinute : Z;
  TokensPerMinute : Z;
  MaxConcurrent : Z;
  MonthlyBudget : Z;
  DailyBudget : Z
}.

Record CreateRequestParams : Type := mkCreateRequestParams {
  cr_TenantID : string;
  cr_APIKeyID : string;
  cr_UserID : string;
  cr_IdempotencyKey : string;
  cr_CanonicalHash : string;
  cr_Input : request.ChatInput;
  cr_CorrelationID : string
}.

Record AttemptParams : Type := mkAttemptParams {
  at_RequestID : string;
  at_TenantID : string;
  Number : Z;
  ProviderName : string;
  at_Model : string;
  at_CorrelationID : string
}.

Record CompletionParams : Type := mkCompletionParams {
  co_RequestID : string;
  co_TenantID : string;
  co_AttemptNumber : Z;
  co_ProviderRequestID : string;
  co_Response : request.ChatResponse;
  co_CostMicroUSD : Z;
  co_StartedAt : time.Time;
  co_CorrelationID : string
}.

Record FailureParams : Type := mkFailureParams {
  fa_RequestID : string;
  fa_TenantID : string;
  fa_AttemptNumber : Z;
  Category : string;
  Retryable : bool;
  Partial : bool;
  Final : bool;
  fa_StartedAt : time.Time;
  fa_CorrelationID : string
}.

(** The [Store] interface on implementations with state [S]; the [IO] of a
    call holds its context. *)
Class Store (S : Type) : Type := {
  FindAPIKeyByPrefix : IO → string → M S auth.StoredKey;
  CreateOrGetRequest : IO → CreateRequestParams → M S (request.LogicalRequest * bool);
  GetRequest : IO → string → string → M S request.LogicalRequest;
  TransitionRequest : IO → string → string → request.State → request.State → M S unit;
  StartAttempt : IO → AttemptParams → M S unit;
  CompleteRequest : IO → CompletionParams → M S unit;
  FailAttempt : IO → FailureParams → M S unit;
  CancelRequest : IO → string → string → string → M S unit;
  GetTenantPolicy : IO → string → string → M S TenantPolicy;
  ReserveBudget : IO → string → string → Z → time.Time → M S unit;
  RejectBudget : IO → string → string → string → Z → M S unit;
  ReconcileBudget : IO → string → Z → M S unit
}.

(** ** What a store promises *)

(** The calls that may change a store. *)
Inductive call : Type :=
| CCreate (p : CreateRequestParams)
| CTransition (tenantID requestID : string) (from to : request.State)
| CStart (p : AttemptParams)
| CComplete (p : CompletionParams)
| CFail (p : FailureParams)
| CCancel (tenantID requestID correlationID : string)
| CReserve (tenantID requestID : string) (amount : Z) (now : time.Time)
| CReject (tenantID requestID correlationID : string) (amount : Z)
| CReconcile (requestID : string) (actual : Z).

Definition perform {S} `{Store S} (io : IO) (c : call) : M S unit :=
  match c with
  | CCreate p => CreateOrGetRequest io p ≫= λ _, mret ()
  | CTransition t id from to => TransitionRequest io t id from to
  | CStart p => StartAttempt io p
  | CComplete p => CompleteRequest io p
  | CFail p => FailAttempt io p
  | CCancel t id c => CancelRequest io t id c
  | CReserve t id a now => ReserveBudget io t id a now
  | CReject t id c a => RejectBudget io t id c a
  | CReconcile id a => ReconcileBudget io id a
  end.

(** The calls that draw a random identifier. *)
Definition draws (c : call) : bool := match c with CCreate _ => true | _ => false end.

(** The life of a stored request: its state moves along the state machine,
    what identifies it stays, and a final record never changes again. *)
Record evolves (r r' : request.LogicalRequest) : Prop := {
  ev_state : rtc request.step (request.state r) (request.state r');
  ev_id : request.ID r' = request.ID r;
  ev_tenant : request.TenantID r' = request.TenantID r;
  ev_key : request.IdempotencyKey r' = request.IdempotencyKey r;
  ev_hash : request.CanonicalHash r' = request.CanonicalHash r;
  ev_final : request.terminal (request.state r) = true → r' = r
}.

#[global] Instance evolves_preorder : PreOrder evolves.
Proof.
  split.
  - intros r. by split.
  - intros r1 r2 r3 [S1 I1 T1 K1 H1 F1] [S2 I2 T2 K2 H2 F2].
    split; [by etrans|congruence..|]. intros Hr. specialize (F1 Hr). subst r2. auto.
Qed.

(** The contract between the gateway and its store. [lookup_request] is the
    durable record of a request, [good] the store's own invariant,
    [durable_response] what reading back a stored response gives, [drawn io] the
    identifier a creation draws from [io], and [fresh io s] says that it is not in use.
    Requests appear only under the identifier that was drawn for them. *)
Class Spec (S : Type) `{Store S} : Type := {
  lookup_request : S → string → option request.LogicalRequest;
  good : S → Prop;
  fresh : IO → S → Prop;
  drawn : IO → string;
  durable_response : request.ChatResponse → option request.ChatResponse;
  spec_good : ∀ io c s, good s → (draws c = true → fresh io s) → good (perform io c s).2;
  spec_evolves : ∀ io c s id r, good s → (draws c = true → fresh io s) →
    lookup_request s id = Some r →
    ∃ r', lookup_request (perform io c s).2 id = Some r' ∧ evolves r r';
  spec_created : ∀ io p s s' r, good s → fresh io s →
    CreateOrGetRequest io p s = (Ok (r, true), s') →
    lookup_request s (request.ID r) = None ∧ lookup_request s' (request.ID r) = Some r ∧
    request.state r = request.Received ∧ request.TenantID r = cr_TenantID p ∧
    request.IdempotencyKey r = cr_IdempotencyKey p ∧ request.CanonicalHash r = cr_CanonicalHash p;
  spec_fresh : ∀ io s, good s → lookup_request s (drawn io) = None → fresh io s;
  spec_drawn : ∀ io c s id, good s → (draws c = true → id ≠ drawn io) →
    lookup_request s id = None → lookup_request (perform io c s).2 id = None;
  spec_policy : ∀ io t model s, (GetTenantPolicy io t model s).2 = s;
  spec_transition : ∀ io t id from to s s', good s →
    TransitionRequest io t id from to s = (Ok (), s') →
    ∃ r, lookup_request s' id = Some r ∧ request.state r = to ∧ request.TenantID r = t;
  spec_complete : ∀ io p s s', good s → CompleteRequest io p s = (Ok (), s') →
    ∃ r, lookup_request s' (co_RequestID p) = Some r ∧ request.state r = request.Completed ∧
         request.Response r = durable_response (co_Response p) ∧ request.CostMicroUSD r = co_CostMicroUSD p;
  spec_fail : ∀ io p s s', good s → Final p = true → FailAttempt io p s = (Ok (), s') →
    ∃ r, lookup_request s' (fa_RequestID p) = Some r ∧ request.state r = request.Failed ∧
         request.FailureCategory r = Category p
}.
End persistence.
