(* ===== verification/Memory.v ===== *)
(** * Memory: the in-memory repository

    Models [src/internal/persistence/memory.go]. Every method holds the mutex
    for its whole body, so a method is one atomic step. *)

From S2P Require Import Prelude Golib Request Budget Auth Store.

Module memory.
Import persistence.

Record memoryAttempt : Type := mkAttempt { params : AttemptParams; final : bool }.
Definition zero_attempt : memoryAttempt := mkAttempt (mkAttemptParams "" "" 0 "" "" "") false.

(** A missing entry of [attempts] is a nil inner map. *)
Record Memory : Type := mkMemory {
  keys : gmap string auth.StoredKey;
  requests : gmap string request.LogicalRequest;
  idempotency : gmap string string;
  attempts : gmap string (gmap Z memoryAttempt);
  policies : gmap string TenantPolicy;
  reservations : gmap string Z;
  used : gmap string Z
}.

Definition NewMemory : Memory := mkMemory ∅ ∅ ∅ ∅ ∅ ∅ ∅.

(** Field updates. *)
Definition set_requests (rs : gmap string request.LogicalRequest) (m : Memory) : Memory :=
  mkMemory (keys m) rs (idempotency m) (attempts m) (policies m) (reservations m) (used m).
Definition set_attempts (ats : gmap string (gmap Z memoryAttempt)) (m : Memory) : Memory :=
  mkMemory (keys m) (requests m) (idempotency m) ats (policies m) (reservations m) (used m).

Definition AddAPIKey (key : auth.StoredKey) (m : Memory) : Memory :=
  mkMemory (<[auth.Prefix key := key]> (keys m)) (requests m) (idempotency m) (attempts m)
           (policies m) (reservations m) (used m).

Definition SetTenantPolicy (tenantID : string) (policy : TenantPolicy) (m : Memory) : Memory :=
  mkMemory (keys m) (requests m) (idempotency m) (attempts m) (<[tenantID := policy]> (policies m))
           (reservations m) (used m).

Definition find_key (prefix : string) : M Memory auth.StoredKey := λ m,
  match keys m !! prefix with
  | Some key => (Ok key, m)
  | None => (Err ErrNotFound, m)
  end.

(** *** Records *)

(** The JSON round trip of a response. *)
Definition clone_message (m : request.Message) : request.Message :=
  request.mkMessage (utf8.coerce (request.Role m)) (utf8.coerce (request.Content m)).
Definition clone_choice (c : request.Choice) : request.Choice :=
  request.mkChoice (request.Index c) (clone_message (request.choice_Message c))
                   (utf8.coerce (request.FinishReason c)).
Definition clone_response (r : request.ChatResponse) : request.ChatResponse :=
  request.mkChatResponse (utf8.coerce (request.resp_ID r)) (utf8.coerce (request.Object r))
    (request.Created r) (utf8.coerce (request.resp_Model r)) (clone_choice <$> request.Choices r)
    (request.resp_Usage r)
    (request.mkResponseMeta (utf8.coerce (request.meta_RequestID (request.Aegis r)))
                            (request.Status (request.Aegis r))).

Definition with_response (resp : option request.ChatResponse) (r : request.LogicalRequest)
  : request.LogicalRequest :=
  request.mkRecord (request.ID r) (request.TenantID r) (request.APIKeyID r)
    (request.IdempotencyKey r) (request.CanonicalHash r) (request.Model r) (request.state r)
    (request.Stream r) (request.PartialStreamed r) resp (request.FailureCategory r)
    (request.CorrelationID r) (request.CreatedAt r) (request.UpdatedAt r) (request.CompletedAt r)
    (request.rec_PromptTokens r) (request.rec_CompletionTokens r) (request.CostMicroUSD r).

Definition cloneRecord (r : request.LogicalRequest) : request.LogicalRequest :=
  with_response (clone_response <$> request.Response r) r.

(** [record.State, record.UpdatedAt = to, now]. *)
Definition with_state (st : request.State) (now : time.Time) (r : request.LogicalRequest)
  : request.LogicalRequest :=
  request.mkRecord (request.ID r) (request.TenantID r) (request.APIKeyID r)
    (request.IdempotencyKey r) (request.CanonicalHash r) (request.Model r) st
    (request.Stream r) (request.PartialStreamed r) (request.Response r) (request.FailureCategory r)
    (request.CorrelationID r) (request.CreatedAt r) now (request.CompletedAt r)
    (request.rec_PromptTokens r) (request.rec_CompletionTokens r) (request.CostMicroUSD r).

(** The record [CompleteRequest] writes. *)
Definition completed (resp : request.ChatResponse) (cost : Z) (now : time.Time)
  (r : request.LogicalRequest) : request.LogicalRequest :=
  request.mkRecord (request.ID r) (request.TenantID r) (request.APIKeyID r)
    (request.IdempotencyKey r) (request.CanonicalHash r) (request.Model r) request.Completed
    (request.Stream r) (request.PartialStreamed r) (Some resp) (request.FailureCategory r)
    (request.CorrelationID r) (request.CreatedAt r) now (Some now)
    (request.PromptTokens (request.resp_Usage resp))
    (request.CompletionTokens (request.resp_Usage resp)) cost.

(** The record a final [FailAttempt] writes. *)
Definition failed (category : string) (partial : bool) (now : time.Time)
  (r : request.LogicalRequest) : request.LogicalRequest :=
  request.mkRecord (request.ID r) (request.TenantID r) (request.APIKeyID r)
    (request.IdempotencyKey r) (request.CanonicalHash r) (request.Model r) request.Failed
    (request.Stream r) partial (request.Response r) category
    (request.CorrelationID r) (request.CreatedAt r) now (Some now)
    (request.rec_PromptTokens r) (request.rec_CompletionTokens r) (request.CostMicroUSD r).

(** The record [CancelRequest] writes. *)
Definition cancelled (now : time.Time) (r : request.LogicalRequest) : request.LogicalRequest :=
  request.mkRecord (request.ID r) (request.TenantID r) (request.APIKeyID r)
    (request.IdempotencyKey r) (request.CanonicalHash r) (request.Model r) request.Cancelled
    (request.Stream r) (request.PartialStreamed r) (request.Response r) (request.FailureCategory r)
    (request.CorrelationID r) (request.CreatedAt r) now (Some now)
    (request.rec_PromptTokens r) (request.rec_CompletionTokens r) (request.CostMicroUSD r).

(** [rand.Read] fills 16 bytes. *)
Definition randomID (io : IO) : string := hex.EncodeToString (take 16 (io_rand io)).

Definition idempotency_key (tenantID key : string) : string :=
  tenantID +:+ String Ascii.zero "" +:+ key.

(** *** Requests *)

Definition create_or_get (io : IO) (p : CreateRequestParams)
  : M Memory (request.LogicalRequest * bool) := λ m,
  let idempotencyKey := idempotency_key (cr_TenantID p) (cr_IdempotencyKey p) in
  match idempotency m !! idempotencyKey with
  | Some existingID =>
    let existing := default request.zero_record (requests m !! existingID) in
    if negb (request.CanonicalHash existing =s cr_CanonicalHash p) then (Err ErrConflict, m)
    else (Ok (cloneRecord existing, false), m)
  | None =>
    let now := io_now io in
    let record := request.mkRecord (randomID io) (cr_TenantID p) (cr_APIKeyID p)
      (cr_IdempotencyKey p) (cr_CanonicalHash p) (request.in_Model (cr_Input p)) request.Received
      (request.in_Stream (cr_Input p)) false None "" (cr_CorrelationID p) now now None 0 0 0 in
    (Ok (cloneRecord record, true),
     mkMemory (keys m) (<[request.ID record := record]> (requests m))
       (<[idempotencyKey := request.ID record]> (idempotency m)) (attempts m) (policies m)
       (reservations m) (used m))
  end.

(** The test every request-scoped method starts with: [!ok || TenantID != tenantID]. *)
Definition owned (tenantID requestID : string) (m : Memory) : option request.LogicalRequest :=
  match requests m !! requestID with
  | Some r => if request.TenantID r =s tenantID then Some r else None
  | None => None
  end.

Definition get_request (tenantID requestID : string) : M Memory request.LogicalRequest := λ m,
  match owned tenantID requestID m with
  | None => (Err ErrNotFound, m)
  | Some r => (Ok (cloneRecord r), m)
  end.

Definition transition (io : IO) (tenantID requestID : string) (from to : request.State)
  : M Memory unit := λ m,
  match owned tenantID requestID m with
  | None => (Err ErrNotFound, m)
  | Some r =>
    if negb (bool_decide (request.state r = from))
    then (Err (Wrap ("expected " +:+ request.state_text from) ErrAlreadyFinal), m)
    else
      match request.Transition from to with
      | Ok _ => (Ok (), set_requests (<[requestID := with_state to (io_now io) r]> (requests m)) m)
      | Err e => (Err e, m)
      | Panic w => (Panic w, m)
      end
  end.

Definition start_attempt (p : AttemptParams) : M Memory unit := λ m,
  match owned (at_TenantID p) (at_RequestID p) m with
  | None => (Err ErrNotFound, m)
  | Some _ =>
    let inner := default ∅ (attempts m !! at_RequestID p) in
    let m := set_attempts (<[at_RequestID p := inner]> (attempts m)) m in
    if bool_decide (is_Some (inner !! Number p)) then (Err ErrConflict, m)
    else
      (Ok (), set_attempts (<[at_RequestID p := <[Number p := mkAttempt p false]> inner]>
                              (attempts m)) m)
  end.

Definition complete_request (io : IO) (p : CompletionParams) : M Memory unit := λ m,
  match owned (co_TenantID p) (co_RequestID p) m with
  | None => (Err ErrNotFound, m)
  | Some r =>
    if negb (bool_decide (request.state r = request.InProgress)) then (Err ErrAlreadyFinal, m)
    else
      let r := completed (co_Response p) (co_CostMicroUSD p) (io_now io) r in
      let m := set_requests (<[request.ID r := r]> (requests m)) m in
      match attempts m !! co_RequestID p with
      | None => (Panic "assignment to entry in nil map", m)
      | Some inner =>
        let attempt := default zero_attempt (inner !! co_AttemptNumber p) in
        (Ok (), set_attempts (<[co_RequestID p :=
                   <[co_AttemptNumber p := mkAttempt (params attempt) true]> inner]> (attempts m)) m)
      end
  end.

Definition fail_attempt (io : IO) (p : FailureParams) : M Memory unit := λ m,
  match owned (fa_TenantID p) (fa_RequestID p) m with
  | None => (Err ErrNotFound, m)
  | Some r =>
    if Final p then
      if negb (bool_decide (request.state r = request.InProgress)) then (Err ErrAlreadyFinal, m)
      else
        let r := failed (Category p) (Partial p) (io_now io) r in
        (Ok (), set_requests (<[request.ID r := r]> (requests m)) m)
    else (Ok (), m)
  end.

Definition cancel_request (io : IO) (tenantID requestID : string) : M Memory unit := λ m,
  match owned tenantID requestID m with
  | None => (Err ErrNotFound, m)
  | Some r =>
    if bool_decide (request.state r = request.Completed) ||
       bool_decide (request.state r = request.Failed) ||
       bool_decide (request.state r = request.Cancelled) ||
       bool_decide (request.state r = request.BudgetRejected)
    then (Err ErrAlreadyFinal, m)
    else (Ok (), set_requests (<[requestID := cancelled (io_now io) r]> (requests m)) m)
  end.

(** *** Policy and budget *)

Definition tenant_policy (tenantID : string) : M Memory TenantPolicy := λ m,
  match policies m !! tenantID with
  | Some policy => (Ok policy, m)
  | None => (Err ErrModelForbidden, m)
  end.

(** [sumMap]: the additions wrap, so the iteration order of the map does not
    matter. *)
Definition sumMap (reservations : gmap string Z) (requests : gmap string request.LogicalRequest)
  (tenantID : string) : Z :=
  map_fold (λ requestID amount total,
              if request.TenantID (default request.zero_record (requests !! requestID)) =s tenantID
              then wrap64 (total + amount) else total) 0 reservations.

Definition reserve_budget (tenantID requestID : string) (amount : Z) : M Memory unit := λ m,
  match policies m !! tenantID with
  | None => (Err ErrNotFound, m)
  | Some policy =>
    match budget.CanReserve (MonthlyBudget policy) (default 0 (used m !! tenantID))
            (sumMap (reservations m) (requests m) tenantID) amount with
    | Ok _ =>
      (Ok (), mkMemory (keys m) (requests m) (idempotency m) (attempts m) (policies m)
                       (<[requestID := amount]> (reservations m)) (used m))
    | Err e => (Err e, m)
    | Panic w => (Panic w, m)
    end
  end.

Definition reconcile_budget (requestID : string) (actual : Z) : M Memory unit := λ m,
  match requests m !! requestID with
  | None => (Err ErrNotFound, m)
  | Some r =>
    (Ok (), mkMemory (keys m) (requests m) (idempotency m) (attempts m) (policies m)
       (delete requestID (reservations m))
       (<[request.TenantID r := wrap64 (default 0 (used m !! request.TenantID r) + actual)]>
          (used m)))
  end.

#[global] Instance memory_store : Store Memory := {|
  FindAPIKeyByPrefix := λ _, find_key;
  CreateOrGetRequest := create_or_get;
  GetRequest := λ _, get_request;
  TransitionRequest := transition;
  StartAttempt := λ _, start_attempt;
  CompleteRequest := complete_request;
  FailAttempt := fail_attempt;
  CancelRequest := λ io tenantID requestID _, cancel_request io tenantID requestID;
  GetTenantPolicy := λ _ tenantID _, tenant_policy tenantID;
  ReserveBudget := λ _ tenantID requestID amount _, reserve_budget tenantID requestID amount;
  RejectBudget := λ io tenantID requestID _ _,
    transition io tenantID requestID request.Validated request.BudgetRejected;
  ReconcileBudget := λ _, reconcile_budget
|}.
(** ** Well-formed repositories *)

Record good_record (id : string) (r : request.LogicalRequest) : Prop := {
  gr_id : request.ID r = id;
  gr_state : request.state r ≠ request.Unset;
  gr_response : is_Some (request.Response r) → request.state r = request.Completed
}.

(** Records are stored under their own identifier, with a response only when
    completed; the idempotency index is exactly the records' keys; only
    known requests have attempts. *)
Record good_memory (m : Memory) : Prop := {
  gm_records : map_Forall good_record (requests m);
  gm_index : ∀ id r, requests m !! id = Some r →
    idempotency m !! idempotency_key (request.TenantID r) (request.IdempotencyKey r) = Some id;
  gm_indexed : ∀ k id, idempotency m !! k = Some id →
    ∃ r, requests m !! id = Some r ∧
         k = idempotency_key (request.TenantID r) (request.IdempotencyKey r);
  gm_attempts : ∀ id, is_Some (attempts m !! id) → is_Some (requests m !! id)
}.

Definition fresh_id (io : IO) (m : Memory) : Prop := requests m !! randomID io = None.

Lemma owned_Some (t id : string) (m : Memory) (r : request.LogicalRequest) :
  owned t id m = Some r ↔ requests m !! id = Some r ∧ request.TenantID r = t.
Proof.
  unfold owned. destruct (requests m !! id) as [r'|]; [|naive_solver].
  destruct (request.TenantID r' =s t) eqn:E; reflect; naive_solver.
Qed.

(** Replacing a record by one it evolves into. *)
Lemma update_good (id : string) (r r' : request.LogicalRequest) (m : Memory) :
  good_memory m → requests m !! id = Some r → evolves r r' → good_record id r' →
  good_memory (set_requests (<[id := r']> (requests m)) m).
Proof.
  intros [Hr Hi Hx Ha] Hid Hev Hg. split; simpl.
  - by apply map_Forall_insert_2.
  - intros id' r1. destruct (decide (id' = id)) as [->|Hne].
    + rewrite lookup_insert_eq. intros [= <-]. rewrite (ev_tenant _ _ Hev), (ev_key _ _ Hev). auto.
    + rewrite lookup_insert_ne by done. auto.
  - intros k id' Hk. destruct (Hx k id' Hk) as (r1 & Hr1 & ->).
    destruct (decide (id' = id)) as [->|Hne].
    + exists r'. rewrite lookup_insert_eq. simplify_eq. split; [done|].
      by rewrite (ev_tenant _ _ Hev), (ev_key _ _ Hev).
    + exists r1. by rewrite lookup_insert_ne.
  - intros id' Hs. destruct (decide (id' = id)) as [->|Hne].
    + rewrite lookup_insert_eq. eauto.
    + rewrite lookup_insert_ne by done. auto.
Qed.

(** What an operation may do to the requests: create one, or let one evolve. *)
Inductive requests_step (m m' : Memory) : Prop :=
| rs_same : requests m' = requests m → requests_step m m'
| rs_create id r : requests m !! id = None → requests m' = <[id := r]> (requests m) →
    requests_step m m'
| rs_update id r r' : requests m !! id = Some r → evolves r r' → good_record id r' →
    requests m' = <[id := r']> (requests m) → requests_step m m'.

Lemma requests_step_evolves (m m' : Memory) (id : string) (r : request.LogicalRequest) :
  requests_step m m' → requests m !! id = Some r →
  ∃ r', requests m' !! id = Some r' ∧ evolves r r'.
Proof.
  intros [Heq|id' r1 Hn Heq|id' r1 r2 Hr1 Hev _ Heq] Hr; rewrite Heq.
  - by exists r.
  - exists r. rewrite lookup_insert_ne by congruence. done.
  - destruct (decide (id = id')) as [->|].
    + exists r2. rewrite lookup_insert_eq. by simplify_eq.
    + exists r. by rewrite lookup_insert_ne.
Qed.

Lemma requests_step_ext (m m1 m2 : Memory) :
  requests m2 = requests m1 → requests_step m m1 → requests_step m m2.
Proof.
  intros Heq [H|id r Hn H|id r r' Hr Hev Hg H]; rewrite <-Heq in H;
    [by apply rs_same|by eapply rs_create|by eapply rs_update].
Qed.

Lemma evolves_to (r r' : request.LogicalRequest) :
  request.step (request.state r) (request.state r') → request.ID r' = request.ID r →
  request.TenantID r' = request.TenantID r → request.IdempotencyKey r' = request.IdempotencyKey r →
  request.CanonicalHash r' = request.CanonicalHash r → evolves r r'.
Proof.
  intros Hs ????. split; try done; [by apply rtc_once|]. intros Ht.
  apply request.step_CanTransition in Hs. by rewrite request.terminal_no_transition in Hs.
Qed.

(** The outcome of an operation that keeps the repository well formed. *)
Definition keeps {A} (m : Memory) (out : res A * Memory) : Prop :=
  good_memory out.2 ∧ requests_step m out.2.

Lemma keeps_same {A} (m : Memory) (a : res A) : good_memory m → keeps m (a, m).
Proof. intros H. split; [done|by apply rs_same]. Qed.

Lemma keeps_update {A} (a : res A) (id : string) (r r' : request.LogicalRequest) (m : Memory) :
  good_memory m → requests m !! id = Some r → evolves r r' → good_record id r' →
  keeps m (a, set_requests (<[id := r']> (requests m)) m).
Proof. intros Hm Hr Hev Hg. split; [by eapply update_good|by eapply rs_update]. Qed.

Create HintDb memory.
#[export] Hint Resolve keeps_same : memory.

Lemma transition_keeps (io : IO) (t id : string) (from to : request.State) (m : Memory) :
  good_memory m → keeps m (transition io t id from to m).
Proof.
  intros Hm. unfold transition. destruct (owned t id m) as [r|] eqn:Ho; [|auto with memory].
  apply owned_Some in Ho as [Hr Ht]. destruct (negb _) eqn:Ef; [auto with memory|]. reflect.
  destruct (request.Transition from to) as [[]|e|w] eqn:Etr; [|auto with memory..].
  pose proof (gm_records _ Hm id r Hr) as [Hid Hst Hresp].
  assert (request.step (request.state r) to) as Hstep by by rewrite Ef.
  eapply keeps_update; [done|exact Hr|by apply evolves_to|]. split; simpl; [done| |].
  - intros ->. apply request.step_CanTransition in Hstep. by destruct (request.state r).
  - intros Hs. apply Hresp in Hs. rewrite Hs in Hstep. apply request.step_CanTransition in Hstep.
    by destruct to.
Qed.

Lemma create_keeps (io : IO) (p : CreateRequestParams) (m : Memory) :
  good_memory m → fresh_id io m → keeps m (create_or_get io p m).
Proof.
  intros Hm Hf. unfold create_or_get.
  destruct (idempotency m !! _) as [id|] eqn:Hk.
  { destruct (negb _); auto with memory. }
  unfold fresh_id in Hf. split; simpl; [|by eapply rs_create].
  destruct Hm as [Hr Hi Hx Ha]. split; simpl.
  - apply map_Forall_insert_2; [|done]. by split; [|done|intros []].
  - intros id r. destruct (decide (id = randomID io)) as [->|Hne].
    + rewrite lookup_insert_eq. intros [= <-]. simpl. by rewrite lookup_insert_eq.
    + rewrite lookup_insert_ne by done. intros Hr'. rewrite lookup_insert_ne; [by apply Hi|].
      intros Heq. rewrite Heq in Hk. by rewrite (Hi id r Hr') in Hk.
  - intros k id. destruct (decide (k = idempotency_key (cr_TenantID p) (cr_IdempotencyKey p))) as [->|Hne].
    + rewrite lookup_insert_eq. intros [= <-]. rewrite lookup_insert_eq. eauto.
    + rewrite lookup_insert_ne by done. intros Hk'. destruct (Hx k id Hk') as (r & Hr' & ->).
      exists r. rewrite lookup_insert_ne; [done|]. intros <-. congruence.
  - intros id Hs. destruct (decide (id = randomID io)) as [->|Hne].
    + rewrite lookup_insert_eq. eauto.
    + rewrite lookup_insert_ne by done. auto.
Qed.

(** Operations on the attempts of a known request. *)
Lemma set_attempts_good (id : string) (inner : gmap Z memoryAttempt) (m : Memory) :
  good_memory m → is_Some (requests m !! id) →
  good_memory (set_attempts (<[id := inner]> (attempts m)) m).
Proof.
  intros [Hr Hi Hx Ha] Hid. split; simpl; try done. intros id' [x Hx'].
  destruct (decide (id' = id)) as [->|]; [done|]. rewrite lookup_insert_ne in Hx' by done.
  apply Ha. eauto.
Qed.

Lemma start_keeps (p : AttemptParams) (m : Memory) : good_memory m → keeps m (start_attempt p m).
Proof.
  intros Hm. unfold start_attempt. destruct (owned _ _ m) as [r|] eqn:Ho; [|auto with memory].
  apply owned_Some in Ho as [Hr Ht].
  assert (good_memory (set_attempts (<[at_RequestID p := default ∅ (attempts m !! at_RequestID p)]>
                          (attempts m)) m)) as Hg by (apply set_attempts_good; eauto).
  destruct (bool_decide _); (split; [|by apply rs_same]); [done|].
  apply set_attempts_good; simpl; eauto.
Qed.

Lemma complete_keeps (io : IO) (p : CompletionParams) (m : Memory) :
  good_memory m → keeps m (complete_request io p m).
Proof.
  intros Hm. unfold complete_request. destruct (owned _ _ m) as [r|] eqn:Ho; [|auto with memory].
  apply owned_Some in Ho as [Hr Ht]. destruct (negb _) eqn:Ef; [auto with memory|]. reflect.
  pose proof (gm_records _ Hm _ r Hr) as [Hid Hst Hresp].
  set (r' := completed _ _ _ r). change (request.ID r') with (request.ID r). rewrite Hid.
  assert (keeps m (Ok (), set_requests (<[co_RequestID p := r']> (requests m)) m)) as [Hg Hs].
  { eapply keeps_update; [done|exact Hr| |by split].
    apply evolves_to; try done. by rewrite Ef. }
  destruct (attempts _ !! co_RequestID p) as [inner|]; split; simpl in *; try done.
  - apply (set_attempts_good (co_RequestID p) _ _ Hg). simpl. rewrite lookup_insert_eq. eauto.
  - by eapply requests_step_ext, Hs.
Qed.

Lemma fail_keeps (io : IO) (p : FailureParams) (m : Memory) :
  good_memory m → keeps m (fail_attempt io p m).
Proof.
  intros Hm. unfold fail_attempt. destruct (owned _ _ m) as [r|] eqn:Ho; [|auto with memory].
  apply owned_Some in Ho as [Hr Ht]. destruct (Final p); [|auto with memory].
  destruct (negb _) eqn:Ef; [auto with memory|]. reflect.
  pose proof (gm_records _ Hm _ r Hr) as [Hid Hst Hresp].
  set (r' := failed _ _ _ r). change (request.ID r') with (request.ID r). rewrite Hid.
  eapply keeps_update; [done|exact Hr|apply evolves_to; try done; by rewrite Ef|].
  split; simpl; try done. intros Hs. apply Hresp in Hs. congruence.
Qed.

Lemma cancel_keeps (io : IO) (t id : string) (m : Memory) :
  good_memory m → keeps m (cancel_request io t id m).
Proof.
  intros Hm. unfold cancel_request. destruct (owned t id m) as [r|] eqn:Ho; [|auto with memory].
  apply owned_Some in Ho as [Hr Ht]. destruct (_ || _) eqn:Ef; [auto with memory|]. reflect.
  pose proof (gm_records _ Hm _ r Hr) as [Hid Hst Hresp].
  eapply keeps_update; [done|exact Hr|apply evolves_to; try done|].
  - apply request.step_CanTransition. simpl. by destruct (request.state r).
  - split; simpl; try done. intros Hs. by apply Hresp in Hs.
Qed.

Lemma reserve_keeps (t id : string) (amount : Z) (m : Memory) :
  good_memory m → keeps m (reserve_budget t id amount m).
Proof.
  intros Hm. unfold reserve_budget. destruct (policies m !! t); [|auto with memory].
  destruct (budget.CanReserve _ _ _ _); [|auto with memory..].
  split; [by destruct Hm|by apply rs_same].
Qed.

Lemma reconcile_keeps (id : string) (actual : Z) (m : Memory) :
  good_memory m → keeps m (reconcile_budget id actual m).
Proof.
  intros Hm. unfold reconcile_budget. destruct (requests m !! id); [|auto with memory].
  split; [by destruct Hm|by apply rs_same].
Qed.

#[export] Hint Resolve transition_keeps create_keeps start_keeps complete_keeps fail_keeps cancel_keeps
  reserve_keeps reconcile_keeps : memory.

Lemma perform_keeps (io : IO) (c : call) (m : Memory) :
  good_memory m → (draws c = true → fresh_id io m) → keeps m (perform io c m).
Proof.
  intros Hm Hf. destruct c; simpl; auto with memory.
  pose proof (create_keeps io p m Hm (Hf eq_refl)) as H. unfold mbind, M_bind.
  by destruct (create_or_get io p m) as [[]].
Qed.

(** Requests appear only under the identifier drawn for them. *)
Lemma owned_insert (t id id' : string) (m : Memory) (r x : request.LogicalRequest) :
  good_memory m → requests m !! id = None → owned t id' m = Some r →
  <[id' := x]> (requests m) !! id = None ∧ <[request.ID r := x]> (requests m) !! id = None.
Proof.
  intros Hm Hn [Hr _]%owned_Some. rewrite (gr_id _ _ (gm_records _ Hm _ r Hr)).
  by rewrite !lookup_insert_ne by congruence.
Qed.

Lemma memory_drawn (io : IO) (c : call) (m : Memory) (id : string) :
  good_memory m → (draws c = true → id ≠ randomID io) → requests m !! id = None →
  requests (perform io c m).2 !! id = None.
Proof.
  intros Hm Hd Hid. destruct c; simpl;
    unfold transition, start_attempt, complete_request, fail_attempt, cancel_request, reserve_budget, reconcile_budget.
  1: { unfold mbind, M_bind, create_or_get. destruct (idempotency m !! _); [by destruct (negb _)|]. simpl.
       rewrite lookup_insert_ne; [done|]. specialize (Hd eq_refl). congruence. }
  all: repeat case_match; simplify_eq; simpl; try done;
    first [eapply (proj1 (owned_insert _ _ _ _ _ _ Hm Hid ltac:(eassumption)))
          |eapply (proj2 (owned_insert _ _ _ _ _ _ Hm Hid ltac:(eassumption)))].
Qed.

(** The contract of [persistence.Spec]. *)
#[global] Instance memory_spec : Spec Memory.
Proof.
  refine {| lookup_request := λ m id, requests m !! id; good := good_memory; fresh := fresh_id;
            drawn := randomID; durable_response := Some |}.
  - intros io c m Hm Hf. apply perform_keeps; done.
  - intros io c m id r Hm Hf Hr. eapply requests_step_evolves; [|done]. by apply perform_keeps.
  - intros io p m m' r Hm Hf H. simpl in H. unfold create_or_get in H.
    destruct (idempotency m !! _); [by split_ifs_in H|]. injection H as <- <-. simpl.
    by rewrite lookup_insert_eq.
  - done.
  - intros io c m id. apply memory_drawn.
  - intros io t model m. simpl. unfold tenant_policy. by destruct (policies m !! t).
  - intros io t id from to m m' Hm H. simpl in H. unfold transition in H.
    destruct (owned t id m) as [r|] eqn:Ho; [|done]. apply owned_Some in Ho as [Hr Ht].
    destruct (negb _); [done|]. destruct (request.Transition from to); simplify_eq.
    eexists. simpl. rewrite lookup_insert_eq. done.
  - intros io p m m' Hm H. simpl in H. unfold complete_request in H.
    destruct (owned _ _ m) as [r|] eqn:Ho; [|done]. apply owned_Some in Ho as [Hr Ht].
    destruct (negb _); [done|]. simpl in H. destruct (attempts m !! _); simplify_eq. simpl.
    rewrite (gr_id _ _ (gm_records _ Hm _ r Hr)). eexists. rewrite lookup_insert_eq. done.
  - intros io p m m' Hm Hf H. simpl in H. unfold fail_attempt in H.
    destruct (owned _ _ m) as [r|] eqn:Ho; [|done]. apply owned_Some in Ho as [Hr Ht].
    rewrite Hf in H. destruct (negb _); simplify_eq. simpl.
    rewrite (gr_id _ _ (gm_records _ Hm _ r Hr)). eexists. rewrite lookup_insert_eq. done.
Defined.

(** ** Histories *)

(** Any interleaving of calls by any clients. *)
Definition run_calls (m : Memory) (h : list (IO * call)) : Memory :=
  foldl (λ m ic, (perform ic.1 ic.2 m).2) m h.

(** Each identifier drawn along the way was new. *)
Fixpoint fresh_calls (m : Memory) (h : list (IO * call)) : Prop :=
  match h with
  | [] => True
  | ic :: h => (draws ic.2 = true → fresh_id ic.1 m) ∧ fresh_calls (perform ic.1 ic.2 m).2 h
  end.

Lemma run_calls_good (h : list (IO * call)) (m : Memory) :
  good_memory m → fresh_calls m h → good_memory (run_calls m h).
Proof.
  revert m. induction h as [|ic h IH]; intros m Hm; simpl; [done|]. intros [Hf Hh].
  apply IH; [|done]. by apply perform_keeps.
Qed.

Lemma run_calls_evolves (h : list (IO * call)) (m : Memory) (id : string)
  (r : request.LogicalRequest) :
  good_memory m → fresh_calls m h → requests m !! id = Some r →
  ∃ r', requests (run_calls m h) !! id = Some r' ∧ evolves r r'.
Proof.
  revert m r. induction h as [|ic h IH]; intros m r Hm; simpl; [by exists r|]. intros [Hf Hh] Hr.
  destruct (perform_keeps ic.1 ic.2 m Hm Hf) as [Hm' Hs].
  destruct (requests_step_evolves _ _ _ _ Hs Hr) as (r1 & Hr1 & He1).
  destruct (IH _ _ Hm' Hh Hr1) as (r2 & Hr2 & He2). exists r2. split; [done|by etrans].
Qed.

Lemma NewMemory_good : good_memory NewMemory.
Proof.
  split; simpl.
  - apply map_Forall_empty.
  - intros id r. by rewrite lookup_empty.
  - intros k id. by rewrite lookup_empty.
  - intros id [x Hx]. by rewrite lookup_empty in Hx.
Qed.

Lemma SetTenantPolicy_good (t : string) (p : TenantPolicy) (m : Memory) :
  good_memory m → good_memory (SetTenantPolicy t p m).
Proof. by intros []. Qed.

(** In every history of calls on the repository, whatever
    the clients and their order, every request moves only along the request
    state machine, keeps its identity, tenant, idempotency key and payload
    hash, and never changes again once it is COMPLETED, FAILED, CANCELLED or
    BUDGET_REJECTED: one final result is accepted. The repository stays well
    formed (index and records agree, a response only on completed requests). *)
Theorem memory_history (h h' : list (IO * call)) (m : Memory) (id : string)
  (r : request.LogicalRequest)
  (Hm : good_memory m) (Hf : fresh_calls m (h ++ h'))
  (Hr : requests (run_calls m h) !! id = Some r) :
  good_memory (run_calls m (h ++ h')) ∧
  ∃ r', requests (run_calls m (h ++ h')) !! id = Some r' ∧ evolves r r'.
Proof.
  assert (fresh_calls m h ∧ fresh_calls (run_calls m h) h') as [Hf1 Hf2].
  { clear -Hf. revert m Hf. induction h as [|ic h IH]; intros m; simpl; [done|].
    intros [? [??]%IH]. done. }
  split; [by apply run_calls_good|].
  unfold run_calls. rewrite foldl_app. apply run_calls_evolves; [|done..].
  by apply run_calls_good.
Qed.

(** ** Idempotency *)

(** The idempotency key identifies the request within its
    tenant. After a request was created, whatever happens in between, asking
    again with the same tenant and key never creates another one and changes
    nothing: the same payload hash returns the stored request (with its
    current state and response), a different one is refused with
    [ErrConflict]. *)
Theorem create_idempotent (io io' : IO) (p p' : CreateRequestParams) (m m1 : Memory)
  (r : request.LogicalRequest) (h : list (IO * call))
  (Hm : good_memory m) (Hf : fresh_calls m ((io, CCreate p) :: h))
  (Hc : create_or_get io p m = (Ok (r, true), m1))
  (Ht : cr_TenantID p' = cr_TenantID p) (Hk : cr_IdempotencyKey p' = cr_IdempotencyKey p) :
  let m2 := run_calls m1 h in
  (cr_CanonicalHash p' = cr_CanonicalHash p →
     ∃ r', requests m2 !! request.ID r = Some r' ∧ evolves r r' ∧
           create_or_get io' p' m2 = (Ok (cloneRecord r', false), m2)) ∧
  (cr_CanonicalHash p' ≠ cr_CanonicalHash p →
     create_or_get io' p' m2 = (Err ErrConflict, m2)).
Proof.
  destruct Hf as [Hf Hh]. specialize (Hf eq_refl). simpl in Hf, Hh. unfold mbind, M_bind in Hh. rewrite Hc in Hh. simpl in Hh.
  pose proof (create_keeps io p m Hm Hf) as [Hm1 _]. rewrite Hc in Hm1. simpl in Hm1.
  destruct (@spec_created Memory memory_store memory_spec io p m m1 r Hm Hf Hc) as (_ & Hr & _ & Hrt & Hrk & Hrh). simpl in Hr.
  destruct (run_calls_evolves h m1 _ r Hm1 Hh Hr) as (r' & Hr' & Hev).
  pose proof (run_calls_good h m1 Hm1 Hh) as Hm2.
  pose proof (gm_index _ Hm2 _ _ Hr') as Hix.
  rewrite (ev_tenant _ _ Hev), (ev_key _ _ Hev), Hrt, Hrk, <-Ht, <-Hk in Hix.
  cbv zeta. unfold create_or_get. rewrite Hix, Hr'. simpl. rewrite (ev_hash _ _ Hev), Hrh.
  split; intros Hh'.
  - rewrite Hh', String.eqb_refl. simpl. eauto.
  - destruct (_ =s _) eqn:E; reflect; [congruence|done].
Qed.

(** ** Tenant isolation *)

(** The tenant and request a call names. *)
Definition scope (c : call) : option (string * string) :=
  match c with
  | CTransition t id _ _ | CCancel t id _ | CReject t id _ _ => Some (t, id)
  | CStart p => Some (at_TenantID p, at_RequestID p)
  | CComplete p => Some (co_TenantID p, co_RequestID p)
  | CFail p => Some (fa_TenantID p, fa_RequestID p)
  | _ => None
  end.

(** A tenant cannot read, move, attempt, complete, fail, cancel
    or reject a request it does not own: the call answers [ErrNotFound], as
    for a request that does not exist, and changes nothing. *)
Theorem tenant_isolation (io : IO) (c : call) (t id : string) (m : Memory)
  (Hs : scope c = Some (t, id))
  (Hno : ∀ r, requests m !! id = Some r → request.TenantID r ≠ t) :
  perform io c m = (Err ErrNotFound, m) ∧ get_request t id m = (Err ErrNotFound, m).
Proof.
  assert (owned t id m = None) as Ho.
  { destruct (owned t id m) as [r|] eqn:E; [|done]. apply owned_Some in E as [Hr Ht].
    by destruct (Hno r Hr). }
  unfold get_request. rewrite Ho. split; [|done].
  destruct c; simplify_eq/=; unfold transition, start_attempt, complete_request, fail_attempt,
    cancel_request; by rewrite Ho.
Qed.

(** ** Budget *)

Definition tenant_of (m : Memory) (id : string) : string :=
  request.TenantID (default request.zero_record (requests m !! id)).

(** The reservations of [rs] that belong to tenant [t], as a mathematical sum;
    [tn] tells a request's tenant. *)
Definition share (tn : string → string) (t : string) (ia : string * Z) : Z :=
  if tn ia.1 =s t then ia.2 else 0.
Definition total (tn : string → string) (t : string) (rs : gmap string Z) : Z :=
  zsum (share tn t <$> map_to_list rs).

Lemma total_insert (tn : string → string) (t id : string) (a : Z) (rs : gmap string Z) :
  total tn t (<[id := a]> rs) = share tn t (id, a) + total tn t (delete id rs).
Proof.
  unfold total. rewrite <-insert_delete_eq.
  rewrite (map_to_list_insert (delete id rs) id a) by apply lookup_delete_eq. done.
Qed.

Lemma total_delete (tn : string → string) (t id : string) (rs : gmap string Z) :
  total tn t rs = share tn t (id, default 0 (rs !! id)) + total tn t (delete id rs).
Proof.
  destruct (rs !! id) as [a|] eqn:Ha; simpl.
  - rewrite <-total_insert. by rewrite insert_id.
  - rewrite delete_id by done. unfold share. simpl. destruct (_ =s _); lia.
Qed.

Lemma total_ext (tn tn' : string → string) (t : string) (rs : gmap string Z) :
  (∀ id, is_Some (rs !! id) → tn' id = tn id) → total tn' t rs = total tn t rs.
Proof.
  intros Heq. unfold total. f_equal. apply list_fmap_ext. intros i [id a] Hi. unfold share. simpl.
  rewrite Heq; [done|]. exists a. apply elem_of_map_to_list. by eapply list_elem_of_lookup_2.
Qed.

Definition reserved (t : string) (m : Memory) : Z := total (tenant_of m) t (reservations m).
Definition spent (t : string) (m : Memory) : Z := default 0 (used m !! t).

(** Tenant [t] with monthly limit [limit]: reservations belong to known
    requests, nothing is negative and everything together is within the
    limit. *)
Record binv (t : string) (limit : Z) (m : Memory) : Prop := {
  b_limit : 0 < limit <= int64_max;
  b_policy : ∃ p, policies m !! t = Some p ∧ MonthlyBudget p = limit;
  b_known : ∀ id, is_Some (reservations m !! id) → is_Some (requests m !! id);
  b_nonneg : ∀ id a, reservations m !! id = Some a → tenant_of m id = t → 0 <= a;
  b_spent : 0 <= spent t m;
  b_within : spent t m + reserved t m <= limit
}.

Lemma total_nonneg (tn : string → string) (t : string) (rs : gmap string Z) :
  (∀ id a, rs !! id = Some a → tn id = t → 0 <= a) →
  Forall (λ x, 0 <= x) (share tn t <$> map_to_list rs).
Proof.
  intros Hb. apply Forall_fmap, Forall_forall. intros [id a] Hin. apply elem_of_map_to_list in Hin.
  simpl. unfold share. simpl. destruct (_ =s t) eqn:E; reflect; [|lia]. by eapply Hb.
Qed.

Lemma sumMap_exact (t : string) (limit : Z) (m : Memory) :
  binv t limit m → sumMap (reservations m) (requests m) t = reserved t m.
Proof.
  intros Hb. pose proof (total_nonneg _ t _ (b_nonneg _ _ _ Hb)) as Hnn.
  assert (reserved t m <= int64_max) as Hmax by (destruct Hb; lia).
  unfold sumMap. rewrite map_fold_foldr. unfold reserved, total in *. revert Hnn Hmax.
  generalize (map_to_list (reservations m)). intros l. induction l as [|[id a] l IH]; [done|].
  rewrite fmap_cons, zsum_cons. intros [Ha Hl]%Forall_cons Hmax.
  pose proof (zsum_nonneg _ Hl) as Hpos. cbn [foldr uncurry]. rewrite IH by (done || lia).
  fold (tenant_of m id).
  assert (share (tenant_of m) t (id, a) = if tenant_of m id =s t then a else 0) as Hs by done.
  rewrite Hs in *. destruct (tenant_of m id =s t); [|lia].
  rewrite wrap64_id by (unfold in_int64, int64_min; lia). lia.
Qed.

(** How the gateway uses the budget calls: it reserves [int64] amounts for
    requests of the named tenant, and settles a reservation with an amount
    between 0 and what was reserved. *)
Definition budget_call_ok (m : Memory) (c : call) : Prop :=
  match c with
  | CReserve t id a _ => in_int64 a ∧ tenant_of m id = t ∧ is_Some (requests m !! id)
  | CReconcile id a => 0 <= a <= default 0 (reservations m !! id)
  | _ => True
  end.

(** The calls that leave the ledger alone keep the budget. *)
Lemma ledger_same_binv (t : string) (limit : Z) (m m' : Memory) :
  binv t limit m → requests_step m m' →
  policies m' = policies m → reservations m' = reservations m → used m' = used m →
  binv t limit m'.
Proof.
  intros [B1 B2 B3 B4 B5 B6] Hs Hp Hr Hu.
  assert (∀ id, is_Some (reservations m !! id) → tenant_of m' id = tenant_of m id) as Htn.
  { intros id Hid. destruct (B3 id Hid) as [r Hri].
    destruct (requests_step_evolves _ _ _ _ Hs Hri) as (r' & Hr' & Hev).
    unfold tenant_of. rewrite Hri, Hr'. simpl. apply Hev. }
  split; unfold spent, reserved; rewrite ?Hp, ?Hr, ?Hu; try done.
  - intros id Hid. destruct (B3 id Hid) as [r Hri].
    destruct (requests_step_evolves _ _ _ _ Hs Hri) as (r' & Hr' & _). eauto.
  - intros id a Ha. rewrite Htn by eauto. eauto.
  - rewrite (total_ext (tenant_of m)) by done. done.
Qed.

Lemma share_bounds (tn : string → string) (t id : string) (a : Z) :
  share tn t (id, a) = a ∧ tn id = t ∨ share tn t (id, a) = 0 ∧ tn id ≠ t.
Proof. unfold share. simpl. destruct (_ =s t) eqn:E; reflect; auto. Qed.

Lemma reserve_binv (t t' id : string) (limit amount : Z) (m : Memory) :
  binv t limit m → in_int64 amount → tenant_of m id = t' → is_Some (requests m !! id) →
  binv t limit (reserve_budget t' id amount m).2.
Proof.
  intros Hb Ha Hid Hreq. pose proof Hb as [B1 B2 B3 B4 B5 B6]. unfold reserve_budget.
  destruct (policies m !! t') as [p|] eqn:Hp; [|done].
  destruct (budget.CanReserve _ _ _ _) as [[]|e|w] eqn:Hc; [|done..]. simpl.
  assert (t' = t → 0 <= amount ∧ spent t m + reserved t m + amount <= limit) as Hadm.
  { intros ->. destruct B2 as (p' & Hp' & Hl). rewrite Hp in Hp'. injection Hp' as <-.
    rewrite (sumMap_exact _ limit m Hb), Hl in Hc. fold (spent t m) in Hc.
    pose proof (zsum_nonneg _ (total_nonneg _ _ _ B4)) as Hres.
    fold (total (tenant_of m) t (reservations m)) in Hres. fold (reserved t m) in Hres.
    apply budget.CanReserve_decides in Hc; unfold in_int64, int64_min in *; lia. }
  pose proof (total_insert (tenant_of m) t id amount (reservations m)) as Hins.
  pose proof (total_delete (tenant_of m) t id (reservations m)) as Hdel.
  assert (0 <= share (tenant_of m) t (id, default 0 (reservations m !! id))) as Hold.
  { destruct (share_bounds (tenant_of m) t id (default 0 (reservations m !! id))) as [[-> Ht]|[-> _]];
      [|lia]. destruct (reservations m !! id) eqn:E; simpl; [eauto|lia]. }
  split; try done.
  - intros id' Hs. simpl in Hs. destruct (decide (id' = id)) as [->|Hne]; [done|].
    rewrite lookup_insert_ne in Hs by done. auto.
  - intros id' a. simpl. change (tenant_of _ id') with (tenant_of m id').
    destruct (decide (id' = id)) as [->|Hne]; [|rewrite lookup_insert_ne by done; eauto].
    rewrite lookup_insert_eq. intros [= <-] Ht. apply Hadm. congruence.
  - unfold spent, reserved in *. simpl. change (tenant_of _) with (tenant_of m). rewrite Hins.
    destruct (share_bounds (tenant_of m) t id amount) as [[-> Ht]|[-> Ht]]; [|lia].
    destruct Hadm; [congruence|]. lia.
Qed.

Lemma reconcile_binv (t id : string) (limit actual : Z) (m : Memory) :
  binv t limit m → 0 <= actual <= default 0 (reservations m !! id) →
  binv t limit (reconcile_budget id actual m).2.
Proof.
  intros Hb Ha. pose proof Hb as [B1 B2 B3 B4 B5 B6]. unfold reconcile_budget.
  destruct (requests m !! id) as [r|] eqn:Hr; [|done]. simpl.
  assert (tenant_of m id = request.TenantID r) as Hid by (unfold tenant_of; by rewrite Hr).
  pose proof (total_delete (tenant_of m) t id (reservations m)) as Hdel.
  assert (0 <= total (tenant_of m) t (delete id (reservations m))) as Hrest.
  { apply zsum_nonneg, total_nonneg. intros id' a [_ Hx]%lookup_delete_Some. eauto. }
  assert (∃ x, 0 <= x <= share (tenant_of m) t (id, default 0 (reservations m !! id)) ∧
    default 0 (<[request.TenantID r := wrap64 (default 0 (used m !! request.TenantID r) + actual)]>
                 (used m) !! t) = spent t m + x) as (x & Hx & Hspent).
  { unfold spent, reserved in *.
    destruct (share_bounds (tenant_of m) t id (default 0 (reservations m !! id)))
      as [[Hs Ht]|[Hs Ht]]; rewrite Hs in *.
    - exists actual. split; [lia|]. rewrite <-Hid, Ht, lookup_insert_eq. simpl.
      apply wrap64_id. unfold in_int64, int64_min in *. lia.
    - exists 0. split; [lia|]. rewrite lookup_insert_ne by congruence. lia. }
  split; try done; simpl.
  - intros id' [a [_ Hx']%lookup_delete_Some]. eauto.
  - intros id' a [_ Hx']%lookup_delete_Some. change (tenant_of _ id') with (tenant_of m id'). eauto.
  - unfold spent at 1. simpl. rewrite Hspent. lia.
  - unfold spent at 1, reserved. simpl. rewrite Hspent.
    change (tenant_of _) with (tenant_of m). unfold reserved in B6. lia.
Qed.

(** The other calls do not touch policies, reservations or use. *)
Lemma perform_ledger (io : IO) (c : call) (m : Memory) :
  match c with
  | CReserve _ _ _ _ | CReconcile _ _ => True
  | _ => policies (perform io c m).2 = policies m ∧
         reservations (perform io c m).2 = reservations m ∧ used (perform io c m).2 = used m
  end.
Proof.
  destruct c; simpl; try done; unfold mbind, M_bind, create_or_get, transition, start_attempt,
    complete_request, fail_attempt, cancel_request; repeat case_match; simplify_eq/=; done.
Qed.

Fixpoint budget_calls_ok (m : Memory) (h : list (IO * call)) : Prop :=
  match h with
  | [] => True
  | ic :: h => budget_call_ok m ic.2 ∧ budget_calls_ok (perform ic.1 ic.2 m).2 h
  end.

(** C22 (safety): as long as a reservation is settled with no more than was
    reserved, no history of calls by any clients takes a tenant over its
    monthly limit: what it spent plus what is reserved for its running
    requests stays within the limit, and no sum overflows. *)
Theorem budget_never_exceeded (t : string) (limit : Z) (h : list (IO * call)) (m : Memory)
  (Hm : good_memory m) (Hb : binv t limit m) (Hf : fresh_calls m h) (Hok : budget_calls_ok m h) :
  spent t (run_calls m h) + reserved t (run_calls m h) <= limit.
Proof.
  enough (binv t limit (run_calls m h)) as [] by done.
  revert m Hm Hb Hf Hok. induction h as [|[io c] h IH]; intros m Hm Hb; simpl; [done|].
  intros [Hf Hh] [Hc Hok]. destruct (perform_keeps io c m Hm Hf) as [Hm' Hs].
  apply IH; [done| |done|done]. pose proof (perform_ledger io c m) as Hl.
  destruct c; try (destruct Hl as (H1 & H2 & H3); by apply (ledger_same_binv t limit m)).
  - destruct Hc as (H1 & H2 & H3). by apply reserve_binv.
  - by apply reconcile_binv.
Qed.

(** ** A concrete history *)

Definition demo_policy : TenantPolicy := mkTenantPolicy "PUBLIC" None 60 1000 2 100 0.
Definition demo_memory : Memory := SetTenantPolicy "t" demo_policy NewMemory.
Definition demo_input : request.ChatInput :=
  request.mkChatInput "m" [request.mkMessage "user" "hi"] None 0 false None.
Definition demo_create (hash : string) : CreateRequestParams :=
  mkCreateRequestParams "t" "k" "u" "idem" hash demo_input "c".
Definition demo_io (now : Z) (rand : Z) : IO := quiet now (repeat rand 16).
Definition demo_id : string := randomID (demo_io 1 7).

(** One request from creation to settlement, with a repeated creation. *)
Definition demo_history : list (IO * call) :=
  [(demo_io 1 7, CCreate (demo_create "h"));
   (demo_io 2 8, CTransition "t" demo_id request.Received request.Validated);
   (demo_io 3 8, CReserve "t" demo_id 40 3);
   (demo_io 4 8, CTransition "t" demo_id request.Validated request.Routing);
   (demo_io 5 8, CCreate (demo_create "h"));
   (demo_io 6 8, CReconcile demo_id 30)].

Lemma demo_good : good_memory demo_memory.
Proof. apply SetTenantPolicy_good, NewMemory_good. Qed.

Lemma demo_fresh : fresh_calls demo_memory demo_history.
Proof. repeat split; intros ?; by vm_compute. Qed.

Lemma memory_history_witness :
  ∃ r r', requests (run_calls demo_memory (take 2 demo_history)) !! demo_id = Some r ∧
    request.state r = request.Validated ∧
    requests (run_calls demo_memory (take 2 demo_history ++ drop 2 demo_history)) !! demo_id = Some r' ∧
    evolves r r'.
Proof.
  destruct (requests (run_calls demo_memory (take 2 demo_history)) !! demo_id) as [r|] eqn:Hr;
    [|by vm_compute in Hr].
  destruct (memory_history (take 2 demo_history) (drop 2 demo_history) demo_memory demo_id r
    demo_good demo_fresh Hr) as [_ (r' & Hr' & Hev)].
  exists r, r'. split_and!; [done| |done|done].
  assert (request.state <$> requests (run_calls demo_memory (take 2 demo_history)) !! demo_id =
          Some request.Validated) as Hs by by vm_compute.
  rewrite Hr in Hs. by injection Hs.
Defined.

Lemma create_idempotent_witness :
  ∃ r m1, create_or_get (demo_io 1 7) (demo_create "h") demo_memory = (Ok (r, true), m1) ∧
    create_or_get (demo_io 9 9) (demo_create "other") (run_calls m1 []) =
      (Err ErrConflict, run_calls m1 []).
Proof.
  destruct (create_or_get (demo_io 1 7) (demo_create "h") demo_memory) as [out m1] eqn:Hc.
  destruct out as [[r []]|e|w];
    try (apply (f_equal (λ x, match x.1 with Ok (_, b) => b | _ => false end)) in Hc;
         vm_compute in Hc; discriminate).
  exists r, m1. split; [done|].
  apply (create_idempotent (demo_io 1 7) (demo_io 9 9) (demo_create "h") (demo_create "other")
    demo_memory m1 r []); [apply demo_good|split; [by vm_compute|done]|done..].
Defined.

Lemma tenant_isolation_witness :
  perform (demo_io 9 9) (CCancel "other" demo_id "c") (run_calls demo_memory demo_history) =
    (Err ErrNotFound, run_calls demo_memory demo_history).
Proof.
  apply (tenant_isolation (demo_io 9 9) (CCancel "other" demo_id "c") "other" demo_id); [done|].
  intros r Hr Ht.
  assert (request.TenantID <$> requests (run_calls demo_memory demo_history) !! demo_id = Some "t")
    as Hs by by vm_compute.
  rewrite Hr in Hs. simpl in Hs. rewrite Ht in Hs. discriminate.
Defined.

Lemma demo_binv : binv "t" 100 demo_memory.
Proof.
  split; [by vm_compute|by exists demo_policy| | |by vm_compute|by vm_compute].
  - intros id [a Ha]. simpl in Ha. by rewrite lookup_empty in Ha.
  - intros id a Ha. simpl in Ha. by rewrite lookup_empty in Ha.
Qed.

Lemma budget_never_exceeded_witness :
  spent "t" (run_calls demo_memory demo_history) +
  reserved "t" (run_calls demo_memory demo_history) <= 100.
Proof.
  apply (budget_never_exceeded "t" 100 demo_history demo_memory demo_good demo_binv demo_fresh).
  repeat split; try (by vm_compute); eexists; by vm_compute.
Defined.
End memory.
