(* ===== verification/Gateway.v ===== *)
(** * Gateway: orchestration of a logical request

    Models [src/internal/gateway/service.go] and
    [src/internal/idempotency/hash.go]: admission, budget reservation,
    provider attempts with failover, completion and settlement. The store, the
    Redis server and the providers are any implementations of their
    interfaces. Other goroutines act between any two steps of a request: on
    the router and on the store. *)

From Stdlib Require Import Ascii.
From S2P Require Import Prelude Golib Request Budget Auth CircuitBreaker Provider Routing RateLimit.
From S2P Require Import Store.

Module idempotency.
Section Hash.
(** [json.Marshal] on a chat input, and SHA-256. *)
Context (json_Marshal : request.ChatInput → res string) (sha256 : string → string).

Definition HashChat (input : request.ChatInput) : res string :=
  match json_Marshal input with
  | Ok canonical => Ok (sha256 canonical)
  | Err e => Err (Wrap "marshal canonical chat request" e)
  | Panic w => Panic w
  end.
End Hash.

Definition Hex (hash : string) : string :=
  hex.EncodeToString ((λ c, Z.of_N (N_of_ascii c)) <$> strings.chars hash).
End idempotency.

Module gateway.

Record Config : Type := mkConfig {
  strategy : routing.Strategy;
  MaxAttempts : Z;
  InitialBackoff : time.Duration;
  MaximumBackoff : time.Duration;
  DefaultMaxTokens : Z;
  MaximumStreamBytes : Z
}.

(** The limiter may be nil. *)
Record Service : Type := mkService { limiter : option ratelimit.Limiter; config : Config }.

Definition NewService (limiter : option ratelimit.Limiter) (c : Config) : Service :=
  mkService limiter
    (mkConfig
       (match strategy c with
        | routing.OtherStrategy n =>
          if n =s "" then routing.WeightedRoundRobin else routing.OtherStrategy n
        | s => s
        end)
       (if MaxAttempts c <=? 0 then 3 else MaxAttempts c)
       (if InitialBackoff c <=? 0 then 50 * time.Millisecond else InitialBackoff c)
       (if MaximumBackoff c <=? 0 then time.Second else MaximumBackoff c)
       (if DefaultMaxTokens c <=? 0 then 1024 else DefaultMaxTokens c)
       (if MaximumStreamBytes c <=? 0 then 1048576 else MaximumStreamBytes c)).

Record Outcome : Type := mkOutcome {
  record : request.LogicalRequest;
  response : option request.ChatResponse;
  Replayed : bool;
  Pending : bool
}.

(** ** Pure helpers *)

Definition estimatePromptTokens (messages : list request.Message) : Z :=
  let characters := foldl (λ n m, n + strings.len (request.Content m)) 0 messages in
  Z.quot (characters + 3) 4.

Definition errorCategory (err : error) : string :=
  match errors.AsProvider err with
  | Some (ProviderError _ category _ _ _ _) => category
  | _ =>
    if errors.Is err context.Canceled then "cancelled"
    else if errors.Is err context.DeadlineExceeded then "deadline_exceeded"
    else "provider_unavailable"
  end.

Definition buildResponse (now : time.Time) (requestID model : string)
  (completion : provider.Completion) : request.ChatResponse :=
  request.mkChatResponse ("chatcmpl-" +:+ requestID) "chat.completion" (time.Unix now) model
    [request.mkChoice 0 (request.mkMessage "assistant" (provider.Content completion))
       (provider.FinishReason completion)]
    (provider.Usage completion) (request.mkResponseMeta requestID request.Completed).

(** [binary.BigEndian.Uint64]. *)
Definition be_uint64 (bytes : list Z) : Z := foldl (λ n b, n * 256 + b) 0 (take 8 bytes).

(** How long [waitBackoff] sets its timer: the shift is an [int64] shift. *)
Definition backoff_delay (initial maximum : time.Duration) (attempt : Z) : time.Duration :=
  let delay := if 64 <=? attempt - 1 then 0 else wrap64 (Z.shiftl initial (attempt - 1)) in
  if maximum <? delay then maximum else delay.

Definition backoff_wait (initial maximum : time.Duration) (attempt random : Z) : time.Duration :=
  let delay := backoff_delay initial maximum attempt in
  let half := Z.quot delay 2 in
  let jitter := random mod Z.max time.Nanosecond half in
  wrap64 (half + jitter).

(** ** The world of a request *)

Section Service.
Context {S : Type} `{persistence.Store S}.
Context {R : Type} `{redis.Server R}.
Context {P : Type} `{provider.Interface P}.
Context {C : Type}.
Context (json_Marshal : request.ChatInput → res string) (sha256 : string → string).

(** One provider call, as logged by the model. *)
Record Called : Type := mkCalled {
  called_name : string;
  called_partial : bool;
  called_error : option error
}.

(** [calls] and [taken] are the model's own log of what the request did: the
    provider calls, and the places of the leases it took. *)
Record World : Type := mkWorld {
  store : S;
  router : routing.system;
  server : R;
  providers : list P;
  client : C;
  tick : nat;
  calls : list Called;
  taken : list nat
}.

(** What the outside does: the [IO] of the n-th step, and the steps of other
    goroutines on the router and on the store just before it. *)
Record Env : Type := mkEnv {
  env_io : nat → IO;
  env_router : nat → list routing.op;
  env_store : nat → list (IO * persistence.call)
}.

Context (env : Env).

Definition others_store (n : nat) (s : S) : S :=
  foldl (λ s ic, (persistence.perform ic.1 ic.2 s).2) s (env_store env n).

(** A panic of another goroutine ends the process; the request is not
    followed beyond it. *)
Definition others_router (n : nat) (r : routing.system) : res routing.system :=
  routing.run_ops r (env_router env n).

(** Let the others move, then take the next [IO]. *)
Definition next : M World IO := λ w,
  let n := tick w in
  let w' r := mkWorld (others_store n (store w)) r (server w) (providers w) (client w)
                      (Datatypes.S n) (calls w) (taken w) in
  match others_router n (router w) with
  | Ok r => (Ok (env_io env n), w' r)
  | Err _ | Panic _ => (Panic "another goroutine panicked", w' (router w))
  end.

Definition clock : M World time.Time := io ← next; mret (io_now io).

(** [context.WithoutCancel]. *)
Definition without_cancel (io : IO) : IO := mkIO (io_now io) (io_rand io) (λ _, None) (io_fault io).

Definition on_store {A} (f : IO → M S A) : M World A :=
  io ← next; act (λ w,
  let '(out, s) := f io (store w) in
  (out, mkWorld s (router w) (server w) (providers w) (client w) (tick w) (calls w) (taken w))).

Definition on_store_detached {A} (f : IO → M S A) : M World A := on_store (λ io, f (without_cancel io)).

Definition on_server {A} (f : IO → M R A) : M World A :=
  io ← next; act (λ w,
  let '(out, r) := f io (server w) in
  (out, mkWorld (store w) (router w) r (providers w) (client w) (tick w) (calls w) (taken w))).

Definition set_router (r : routing.system) (w : World) : World :=
  mkWorld (store w) r (server w) (providers w) (client w) (tick w) (calls w) (taken w).

Definition take_lease (k : nat) (w : World) : World :=
  mkWorld (store w) (router w) (server w) (providers w) (client w) (tick w) (calls w)
          (taken w ++ [k]).

(** ** Router access *)

(** [router.Select]: the lease and its place among the leases handed out. *)
Definition select (sel : routing.Selection) : M World (nat * routing.Lease) :=
  wall ← clock; act (λ w,
  let sys := router w in
  match routing.Select wall sel (routing.sys_router sys) with
  | (Ok l, r) =>
    (Ok (length (routing.sys_leases sys), l),
     take_lease (length (routing.sys_leases sys))
       (set_router (routing.mkSystem r (routing.sys_leases sys ++ [l])) w))
  | (Err e, r) => (Err e, set_router (routing.mkSystem r (routing.sys_leases sys)) w)
  | (Panic why, r) => (Panic why, set_router (routing.mkSystem r (routing.sys_leases sys)) w)
  end).

(** A method of the lease at place [k]. *)
Definition on_lease (k : nat) (f : routing.Lease → routing.Router →
  res unit * routing.Lease * routing.Router) : M World unit := λ w,
  let sys := router w in
  match routing.sys_leases sys !! k with
  | None => (Panic "nil pointer dereference", w)
  | Some l =>
    let '(out, l, r) := f l (routing.sys_router sys) in
    (out, set_router (routing.mkSystem r (<[k := l]> (routing.sys_leases sys))) w)
  end.

Definition lease_failure (k : nat) (retryable : bool) : M World unit :=
  now ← clock; on_lease k (routing.Failure retryable now).

Definition lease_success (k : nat) (started : time.Time) : M World unit :=
  now ← clock; on_lease k (routing.Success (time.Sub now started)).

Definition highest_prices (sel : routing.Selection) : M World (Z * Z) :=
  _ ← next; act (λ w, (routing.HighestPrices sel (routing.sys_router (router w)), w)).

(** ** Calling a provider *)

(** The emitter given to the provider: what was sent so far, whether any
    content was, and the client. *)
Definition stream_emit (limit : Z) (emit : provider.Chunk → C → option error * C)
  (chunk : provider.Chunk) (st : string * bool * C) : option error * (string * bool * C) :=
  let '(content, partial, c) := st in
  if limit <? strings.len content + strings.len (provider.chunk_Content chunk)
  then (Some (New "stream exceeded bounded response size"), (content, partial, c))
  else
    let '(content, partial) :=
      if provider.chunk_Content chunk =s "" then (content, partial)
      else (content +:+ provider.chunk_Content chunk, true) in
    let '(answer, c) := emit chunk c in (answer, (content, partial, c)).

Definition set_provider (h : nat) (p : P) (c : C) (log : Called) (w : World) : World :=
  mkWorld (store w) (router w) (server w) (<[h := p]> (providers w)) c (tick w) (calls w ++ [log])
          (taken w).

(** [call]: the completion with the partial flag, or the error with it. *)
Definition call (service : Service) (selected : routing.Handle) (requestID : string)
  (input : request.ChatInput) (emit : option (provider.Chunk → C → option error * C))
  : M World ((provider.Completion + error) * bool) :=
  io ← next; act (λ w,
  let providerInput := provider.mkCompletionRequest requestID (request.in_Model input)
    (request.in_Messages input) (request.in_Temperature input) (request.in_MaxTokens input) in
  let name := routing.Name selected in
  match providers w !! routing.handle selected with
  | None => (Panic "nil pointer dereference", w)
  | Some p =>
    match emit with
    | None =>
      match provider.Complete io providerInput p with
      | (Ok completion, p) =>
        (Ok (inl completion, false),
         set_provider (routing.handle selected) p (client w) (mkCalled name false None) w)
      | (Err err, p) =>
        (Ok (inr err, false),
         set_provider (routing.handle selected) p (client w) (mkCalled name false (Some err)) w)
      | (Panic why, p) =>
        (Panic why,
         set_provider (routing.handle selected) p (client w) (mkCalled name false None) w)
      end
    | Some emit =>
      let '(s, p) := provider.Stream io providerInput p in
      let '(out, (content, partial, c)) :=
        provider.run_stream (stream_emit (MaximumStreamBytes (config service)) emit) s
          ("", false, client w) in
      let log e := set_provider (routing.handle selected) p c (mkCalled name partial e) w in
      match out with
      | Ok usage =>
        (Ok (inl (provider.mkCompletion "" (request.in_Model input) content "stop" usage), partial),
         log None)
      | Err err => (Ok (inr err, partial), log (Some err))
      | Panic why => (Panic why, log None)
      end
    end
  end).

(** ** Admission *)

Definition release_permit (p : option ratelimit.Permit) : M World unit :=
  ignore (on_server (λ io r, let '(out, _, r) := ratelimit.Release io p r in (out, r))).

Fixpoint releasePermits (permits : list (option ratelimit.Permit)) : M World unit :=
  match permits with
  | [] => mret ()
  | p :: permits => _ ← release_permit p; releasePermits permits
  end.

Fixpoint admit_buckets (l : ratelimit.Limiter) (limits : ratelimit.Limits) (estimatedTokens : Z)
  (buckets : list string) (permits : list (option ratelimit.Permit))
  : M World (list (option ratelimit.Permit)) :=
  match buckets with
  | [] => mret permits
  | bucket :: buckets =>
    out ← caught (on_server (λ io,
      ratelimit.Allow io bucket limits estimatedTokens (2 * time.Minute) l));
    match out with
    | inr err => _ ← releasePermits permits; fail err
    | inl (decision, permit) =>
      if negb (ratelimit.Allowed decision) then
        _ ← releasePermits permits;
        fail (New ("rate limit rejected: " +:+ ratelimit.Reason decision))
      else admit_buckets l limits estimatedTokens buckets (permits ++ [permit])
    end
  end.

Definition Service_admit (service : Service) (principal : auth.Principal)
  (policy : persistence.TenantPolicy) (estimatedTokens : Z)
  : M World (list (option ratelimit.Permit)) :=
  match limiter service with
  | None => mret []
  | Some l =>
    let limits := ratelimit.mkLimits (persistence.RequestsPerMinute policy)
      (persistence.TokensPerMinute policy) (persistence.MaxConcurrent policy) in
    admit_buckets l limits estimatedTokens
      ["tenant:" +:+ auth.TenantID principal; "key:" +:+ auth.APIKeyID principal] []
  end.

(** [waitBackoff]: the context ends before the timer fires, or not. *)
Definition waitBackoff (initial maximum : time.Duration) (attempt : Z) : M World unit :=
  io ← next;
  let _ := backoff_wait initial maximum attempt (be_uint64 (io_rand io)) in
  match io_ctx io 0 with
  | Some err => fail err
  | None => mret ()
  end.

(** [defer d] around the rest of a function, panics included. *)
Definition deferred {A} (d : M World unit) (m : M World A) : M World A := λ w,
  let '(out, w) := m w in
  match d w with
  | (Panic why, w) => (Panic why, w)
  | (_, w) => (out, w)
  end.
(** ** The request *)

(** What one request fixes before its attempts. *)
Record Job : Type := mkJob {
  job_service : Service;
  job_principal : auth.Principal;
  job_correlation : string;
  job_input : request.ChatInput;
  job_emit : option (provider.Chunk → C → option error * C);
  job_record : request.LogicalRequest;
  job_policy : persistence.TenantPolicy
}.

(** The selection of an attempt at [now], without the providers tried before. *)
Definition selection (job : Job) (excluded : gset string) (now : time.Time) : routing.Selection :=
  routing.mkSelection (request.in_Model (job_input job))
    (persistence.DataClassification (job_policy job)) (persistence.AllowedProviders (job_policy job))
    excluded (strategy (config (job_service job))) now.

Definition attempt_params (job : Job) (number : Z) (name : string) : persistence.AttemptParams :=
  persistence.mkAttemptParams (request.ID (job_record job)) (auth.TenantID (job_principal job))
    number name (request.in_Model (job_input job)) (job_correlation job).

Definition completion_params (job : Job) (number : Z) (completion : provider.Completion)
  (resp : request.ChatResponse) (cost : Z) (started : time.Time) : persistence.CompletionParams :=
  persistence.mkCompletionParams (request.ID (job_record job)) (auth.TenantID (job_principal job))
    number (provider.ProviderRequestID completion) resp cost started (job_correlation job).

Definition failure_params (job : Job) (number : Z) (category : string)
  (retryable partial final : bool) (started : time.Time) : persistence.FailureParams :=
  persistence.mkFailureParams (request.ID (job_record job)) (auth.TenantID (job_principal job))
    number category retryable partial final started (job_correlation job).

(** The branch of the loop body after a successful call. *)
Definition finish (job : Job) (number : Z) (k : nat) (lease : routing.Lease)
  (started : time.Time) (completion : provider.Completion) : M World Outcome :=
  match budget.CostMicroUSD (request.PromptTokens (provider.Usage completion))
          (request.CompletionTokens (provider.Usage completion))
          (routing.lease_InputCost lease) (routing.lease_OutputCost lease) with
  | Panic why => lift (Panic why)
  | Err costErr => _ ← lease_failure k false; fail costErr
  | Ok cost =>
    now ← clock;
    let resp := buildResponse now (request.ID (job_record job)) (request.in_Model (job_input job))
                  completion in
    out ← caught (on_store (λ io,
      persistence.CompleteRequest io (completion_params job number completion resp cost started)));
    match out with
    | inr err => _ ← lease_failure k false; fail err
    | inl _ =>
      _ ← lease_success k started;
      _ ← ignore (on_store_detached (λ io,
        persistence.ReconcileBudget io (request.ID (job_record job)) cost));
      let r := job_record job in
      mret (mkOutcome
        (request.mkRecord (request.ID r) (request.TenantID r) (request.APIKeyID r)
          (request.IdempotencyKey r) (request.CanonicalHash r) (request.Model r) request.Completed
          (request.Stream r) (request.PartialStreamed r) (Some resp) (request.FailureCategory r)
          (request.CorrelationID r) (request.CreatedAt r) (request.UpdatedAt r)
          (request.CompletedAt r) (request.rec_PromptTokens r) (request.rec_CompletionTokens r) cost)
        (Some resp) false false)
    end
  end.

(** How the loop over the attempts ends: with the outcome, or with the last
    error and whether the request was finalized. *)
Inductive loop_end : Type :=
| Returned (o : Outcome)
| Broke (lastErr : option error) (finalized : bool).

(** The loop, from attempt [number] with [remaining] attempts to go. *)
Fixpoint attempt_loop (job : Job) (remaining : nat) (number : Z) (excluded : gset string)
  (lastErr : option error) : M World loop_end :=
  match remaining with
  | O => mret (Broke lastErr false)
  | Datatypes.S remaining =>
    now ← clock;
    selected ← caught (select (selection job excluded now));
    match selected with
    | inr err => mret (Broke (Some err) false)
    | inl (k, lease) =>
      let name := routing.Name (routing.lease_Provider lease) in
      let excluded := {[name]} ∪ excluded in
      out ← caught (on_store (λ io, persistence.StartAttempt io (attempt_params job number name)));
      match out with
      | inr err => _ ← lease_failure k false; fail err
      | inl _ =>
        started ← clock;
        answer ← call (job_service job) (routing.lease_Provider lease)
                   (request.ID (job_record job)) (job_input job) (job_emit job);
        match answer with
        | (inl completion, _) =>
          o ← finish job number k lease started completion; mret (Returned o)
        | (inr callErr, partial) =>
          let retryable := provider.IsRetryable callErr && negb partial &&
                           (number <? MaxAttempts (config (job_service job))) in
          _ ← lease_failure k retryable;
          out ← caught (on_store_detached (λ io, persistence.FailAttempt io
            (failure_params job number (errorCategory callErr) retryable partial (negb retryable)
               started)));
          match out with
          | inr err => fail err
          | inl _ =>
            if negb retryable then mret (Broke (Some callErr) true)
            else
              out ← caught (waitBackoff (InitialBackoff (config (job_service job)))
                              (MaximumBackoff (config (job_service job))) number);
              match out with
              | inr err => mret (Broke (Some err) false)
              | inl _ => attempt_loop job remaining (number + 1) excluded (Some callErr)
              end
          end
        end
      end
    end
  end.

(** After the loop. *)
Definition conclude (job : Job) (e : loop_end) : M World Outcome :=
  match e with
  | Returned o => mret o
  | Broke lastErr finalized =>
    let lastErr := default routing.ErrNoEligibleProvider lastErr in
    _ ← (if finalized then mret ()
         else
           now ← clock;
           ignore (on_store_detached (λ io, persistence.FailAttempt io
             (failure_params job 0 (errorCategory lastErr) false false true now))));
    _ ← ignore (on_store_detached (λ io,
      persistence.ReconcileBudget io (request.ID (job_record job)) 0));
    fail lastErr
  end.

(** [store.TransitionRequest] on the request. *)
Definition move (principal : auth.Principal) (r : request.LogicalRequest)
  (from to : request.State) : M World unit :=
  on_store (λ io, persistence.TransitionRequest io (auth.TenantID principal) (request.ID r) from to).

Definition max_completion (service : Service) (input : request.ChatInput) : Z :=
  if request.in_MaxTokens input =? 0 then DefaultMaxTokens (config service)
  else request.in_MaxTokens input.

(** From the budget reservation to the end; the permits are held. *)
Definition run_admitted (job : Job) : M World Outcome :=
  let principal := job_principal job in
  let id := request.ID (job_record job) in
  prices ← caught (highest_prices (selection job ∅ 0));
  match prices with
  | inr err =>
    _ ← ignore (move principal (job_record job) request.Validated request.Failed); fail err
  | inl (maxInputPrice, maxOutputPrice) =>
    reservation ← lift (budget.CostMicroUSD (estimatePromptTokens (request.in_Messages (job_input job)))
      (max_completion (job_service job) (job_input job)) maxInputPrice maxOutputPrice);
    now ← clock;
    out ← caught (on_store (λ io,
      persistence.ReserveBudget io (auth.TenantID principal) id reservation now));
    match out with
    | inr err =>
      _ ← (if errors.Is err budget.ErrExceeded
           then ignore (on_store_detached (λ io,
                  persistence.RejectBudget io (auth.TenantID principal) id (job_correlation job)
                    reservation))
           else mret ());
      fail err
    | inl _ =>
      _ ← move principal (job_record job) request.Validated request.Routing;
      _ ← move principal (job_record job) request.Routing request.InProgress;
      e ← attempt_loop job (Z.to_nat (MaxAttempts (config (job_service job)))) 1 ∅ None;
      conclude job e
    end
  end.

Definition create_params (principal : auth.Principal) (idempotencyKey hash correlationID : string)
  (input : request.ChatInput) : persistence.CreateRequestParams :=
  persistence.mkCreateRequestParams (auth.TenantID principal) (auth.APIKeyID principal)
    (auth.UserID principal) idempotencyKey hash input correlationID.

Definition execute (service : Service) (principal : auth.Principal)
  (idempotencyKey correlationID : string) (input : request.ChatInput)
  (emit : option (provider.Chunk → C → option error * C)) : M World Outcome :=
  _ ← lift (request.Validate input);
  hash ← lift (idempotency.HashChat json_Marshal sha256 input);
  created ← on_store (λ io, persistence.CreateOrGetRequest io
    (create_params principal idempotencyKey hash correlationID input));
  let '(r, created) := created in
  if negb created then
    match request.Response r with
    | Some resp =>
      if bool_decide (request.state r = request.Completed)
      then mret (mkOutcome r (Some resp) true false)
      else mret (mkOutcome r None true true)
    | None => mret (mkOutcome r None true true)
    end
  else
    _ ← move principal r request.Received request.Validated;
    policy ← caught (on_store (λ io,
      persistence.GetTenantPolicy io (auth.TenantID principal) (request.in_Model input)));
    match policy with
    | inr err => _ ← ignore (move principal r request.Validated request.Failed); fail err
    | inl policy =>
      permits ← caught (Service_admit service principal policy
        (wrap64 (estimatePromptTokens (request.in_Messages input) + max_completion service input)));
      match permits with
      | inr err => _ ← ignore (move principal r request.Validated request.Failed); fail err
      | inl permits =>
        deferred (releasePermits permits)
          (run_admitted (mkJob service principal correlationID input emit r policy))
      end
    end.

Definition Submit (service : Service) (principal : auth.Principal)
  (idempotencyKey correlationID : string) (input : request.ChatInput) : M World Outcome :=
  execute service principal idempotencyKey correlationID input None.

(** A nil emitter is [None]. *)
Definition Stream (service : Service) (principal : auth.Principal)
  (idempotencyKey correlationID : string) (input : request.ChatInput)
  (emit : option (provider.Chunk → C → option error * C)) : M World Outcome :=
  match emit with
  | None => fail (New "stream emitter is required")
  | Some emit => execute service principal idempotencyKey correlationID input (Some emit)
  end.

Definition Get (tenantID requestID : string) : M World request.LogicalRequest :=
  on_store (λ io, persistence.GetRequest io tenantID requestID).

Definition Cancel (tenantID requestID correlationID : string) : M World unit :=
  on_store (λ io, persistence.CancelRequest io tenantID requestID correlationID).
End Service.
End gateway.
