(* ===== verification/GatewayProofs.v ===== *)
(** * GatewayProofs: what a gateway request guarantees

    Theorems about [Gateway.v], for any store, Redis server, providers and
    client, and any interleaving with other goroutines. *)

From S2P Require Import Prelude Golib Request Budget Auth CircuitBreaker Provider Routing RateLimit.
From S2P Require Import Store Gateway.

Module gateway_proofs.
Import gateway.

(** ** Backoff and streaming *)

(** While the exponential delay fits an [int64], the wait before
    the next attempt lies between half of the capped delay
    [min (initial * 2^(attempt-1)) maximum] and that delay: it never overflows
    and never exceeds the configured maximum. *)
Theorem backoff_bounds (initial maximum : time.Duration) (attempt random : Z)
  (Hi : 0 < initial) (Hm : 0 < maximum <= int64_max) (Ha : 1 <= attempt)
  (Hfit : initial * 2 ^ (attempt - 1) <= int64_max) :
  let delay := Z.min (initial * 2 ^ (attempt - 1)) maximum in
  backoff_delay initial maximum attempt = delay ∧
  delay / 2 <= backoff_wait initial maximum attempt random <= delay.
Proof.
  intros delay.
  assert (0 < 2 ^ (attempt - 1)) as Hpow by (apply Z.pow_pos_nonneg; lia).
  assert (attempt - 1 < 64) as Hlt.
  { apply Z.nle_gt. intros Hge. pose proof (Z.pow_le_mono_r 2 64 (attempt - 1) ltac:(lia) Hge).
    unfold int64_max in *. nia. }
  assert (backoff_delay initial maximum attempt = delay) as Hd.
  { unfold backoff_delay. rewrite (proj2 (Z.leb_gt _ _)) by lia.
    rewrite Z.shiftl_mul_pow2, wrap64_id by (unfold in_int64, int64_min in *; nia || lia).
    unfold delay. destruct (_ <? _) eqn:E; reflect; lia. }
  split; [done|]. unfold backoff_wait. rewrite Hd.
  assert (0 < delay <= int64_max) as Hdel by (unfold delay; nia).
  rewrite Z.quot_div_nonneg by lia. unfold time.Nanosecond.
  pose proof (Z.mod_pos_bound random (Z.max 1 (delay / 2)) ltac:(lia)) as Hj.
  pose proof (Z.div_mod delay 2 ltac:(lia)) as Hh.
  pose proof (Z.mod_pos_bound delay 2 ltac:(lia)).
  rewrite wrap64_id by (unfold in_int64, int64_min in *; lia). lia.
Qed.

Lemma backoff_bounds_witness :
  25000000 <= backoff_wait (50 * time.Millisecond) time.Second 1 123456789012 <= 50000000.
Proof. apply (backoff_bounds (50 * time.Millisecond) time.Second 1 123456789012); by vm_compute. Defined.

(** A client that keeps every chunk it is handed and answers as it likes. *)
Definition recording (answer : provider.Chunk → list provider.Chunk → option error)
  (c : provider.Chunk) (log : list provider.Chunk) : option error * list provider.Chunk :=
  (answer c log, log ++ [c]).

Lemma len_app (s t : string) : strings.len (s +:+ t) = strings.len s + strings.len t.
Proof.
  unfold strings.len. rewrite <-!length_chars, chars_app, length_app. lia.
Qed.

(** However a provider streams and however the client answers,
    the text handed to the client is exactly what [call] collects, is never
    longer than [MaximumStreamBytes], and is empty exactly when the call
    counts as not partial. *)
Theorem stream_bounded (limit : Z) (s : provider.stream)
  (answer : provider.Chunk → list provider.Chunk → option error) (Hlimit : 0 <= limit) :
  let '(_, (content, partial, log)) :=
    provider.run_stream (stream_emit limit (recording answer)) s ("", false, []) in
  provider.delivered log = content ∧ strings.len content <= limit ∧
  (partial = false ↔ content = "").
Proof.
  assert (∀ content partial log,
    provider.delivered log = content → strings.len content <= limit →
    (partial = false ↔ content = "") →
    let '(_, (content, partial, log)) :=
      provider.run_stream (stream_emit limit (recording answer)) s (content, partial, log) in
    provider.delivered log = content ∧ strings.len content <= limit ∧
    (partial = false ↔ content = "")) as Hgen; [|by apply Hgen].
  induction s as [r|c k IH]; intros content partial log Hd Hl Hp; simpl; [done|].
  destruct (limit <? _) eqn:E; reflect; [by apply IH|].
  destruct (provider.chunk_Content c =s "") eqn:Ec; reflect; simpl; apply IH; try done.
  - rewrite provider.delivered_app, Hd. simpl. by rewrite Ec, !string_app_nil_r.
  - rewrite provider.delivered_app, Hd. simpl. by rewrite string_app_nil_r.
  - rewrite len_app. lia.
  - split; [done|]. intros Happ. apply (f_equal strings.len) in Happ. rewrite len_app in Happ.
    unfold strings.len in Happ. simpl in Happ.
    destruct (provider.chunk_Content c); [done|simpl in Happ; lia].
Qed.

Lemma stream_bounded_witness :
  let '(_, (content, _, _)) :=
    provider.run_stream (stream_emit 5 (recording (λ _ _, None)))
      (provider.Emit (provider.mkChunk "abc" "") (λ _,
         provider.Emit (provider.mkChunk "defg" "") (λ _, provider.Return (Err (New "cut")))))
      ("", false, []) in
  strings.len content <= 5.
Proof.
  pose proof (stream_bounded 5
    (provider.Emit (provider.mkChunk "abc" "") (λ _,
         provider.Emit (provider.mkChunk "defg" "") (λ _, provider.Return (Err (New "cut")))))
    (λ _ _, None) ltac:(lia)) as Hb.
  destruct (provider.run_stream _ _ _) as [out [[content partial] log]]. apply Hb.
Defined.

Section Proofs.
Context {S : Type} `{persistence.Store S}.
Context {R : Type} `{redis.Server R}.
Context {P : Type} `{provider.Interface P}.
Context {C : Type}.
Context (env : Env).

Abbreviation W := (@World S R P C).

(** ** Silent steps *)

Definition leases (w : W) : list routing.Lease := routing.sys_leases (router w).
Definition registry (w : W) : list (routing.Handle * routing.ProviderConfig) :=
  routing.statics (routing.sys_router (router w)).

(** The router and the leases handed out are consistent. *)
Definition wf (w : W) : Prop := routing.inv (routing.sys_router (router w)) (leases w).

(** A step that calls no provider and takes no lease. *)
Record quiet_step (w w' : W) : Prop := {
  q_wf : wf w';
  q_registry : registry w' = registry w;
  q_leases : routing.leases_kept (leases w) (leases w');
  q_calls : calls w' = calls w;
  q_taken : taken w' = taken w
}.

Definition silent {A} (m : M W A) : Prop := ∀ w, wf w → quiet_step w (m w).2.

Lemma quiet_refl (w : W) : wf w → quiet_step w w.
Proof. by split. Qed.

Lemma quiet_trans (w1 w2 w3 : W) : quiet_step w1 w2 → quiet_step w2 w3 → quiet_step w1 w3.
Proof. intros [] []. split; [done|congruence|by etrans|congruence..]. Qed.

(** The same router, calls and leases taken. *)
Lemma quiet_same (w w' : W) :
  wf w → router w' = router w → calls w' = calls w → taken w' = taken w → quiet_step w w'.
Proof. intros Hw Hr Hc Ht. split; unfold wf, registry, leases in *; by rewrite ?Hr. Qed.

Create HintDb silent.

Lemma silent_ret {A} (a : A) : silent (mret a).
Proof. intros w Hw. by apply quiet_refl. Qed.
Lemma silent_fail {A} (e : error) : silent (fail e : M W A).
Proof. intros w Hw. by apply quiet_refl. Qed.
Lemma silent_lift {A} (r : res A) : silent (lift r).
Proof. intros w Hw. by apply quiet_refl. Qed.

Lemma silent_bind {A B} (m : M W A) (f : A → M W B) :
  silent m → (∀ a, silent (f a)) → silent (m ≫= f).
Proof.
  intros Hm Hf w Hw. unfold mbind, M_bind. specialize (Hm w Hw).
  destruct (m w) as [[a|e|why] w']; simpl in *; [|done..].
  eapply quiet_trans; [exact Hm|]. apply Hf, Hm.
Qed.

Lemma silent_caught {A} (m : M W A) : silent m → silent (caught m).
Proof. intros Hm w Hw. unfold caught. specialize (Hm w Hw). by destruct (m w) as [[] w']. Qed.
Lemma silent_ignore {A} (m : M W A) : silent m → silent (ignore m).
Proof. intros Hm w Hw. unfold ignore. specialize (Hm w Hw). by destruct (m w) as [[] w']. Qed.

#[local] Hint Resolve silent_ret silent_fail silent_lift silent_caught silent_ignore : silent.
#[local] Hint Extern 1 (silent (_ ≫= _)) => apply silent_bind; [|intros ?] : silent.
#[local] Hint Extern 1 (silent (match ?x with _ => _ end)) => destruct x : silent.

(** Under the invariant the other goroutines do not panic. *)
Lemma next_spec (w : W) : wf w →
  ∃ w', next env w = (Ok (env_io env (tick w)), w') ∧ quiet_step w w' ∧
        store w' = others_store env (tick w) (store w) ∧ server w' = server w ∧
        providers w' = providers w ∧ client w' = client w.
Proof.
  intros Hw. unfold next, others_router.
  destruct (routing.run_ops_ok (env_router env (tick w)) (router w) Hw) as (s & Hs & Hinv & Hst).
  rewrite Hs. eexists. split; [done|]. split; [|done].
  split; try done. simpl. by eapply routing.run_ops_kept.
Qed.

Lemma silent_next : silent (next env).
Proof. intros w Hw. by destruct (next_spec w Hw) as (w' & -> & Hq & _). Qed.
#[local] Hint Resolve silent_next : silent.

Lemma silent_clock : silent (clock env).
Proof. unfold clock. auto with silent. Qed.
#[local] Hint Resolve silent_clock : silent.

Lemma silent_on_store {A} (f : IO → M S A) : silent (on_store env f).
Proof.
  apply silent_bind; [apply silent_next|]. intros io w Hw. unfold act.
  destruct (f io (store w)) as [out s]. by apply quiet_same.
Qed.

Lemma silent_on_server {A} (f : IO → M R A) : silent (on_server env f).
Proof.
  apply silent_bind; [apply silent_next|]. intros io w Hw. unfold act.
  destruct (f io (server w)) as [out s]. by apply quiet_same.
Qed.

Lemma silent_detached {A} (f : IO → M S A) : silent (on_store_detached env f).
Proof. apply silent_on_store. Qed.
#[local] Hint Resolve silent_on_store silent_on_server silent_detached : silent.

Lemma silent_move (p : auth.Principal) (r : request.LogicalRequest) (from to : request.State) :
  silent (move env p r from to).
Proof. apply silent_on_store. Qed.

Lemma silent_prices (sel : routing.Selection) : silent (highest_prices env sel).
Proof. apply silent_bind; [apply silent_next|]. intros _ w Hw. by apply quiet_refl. Qed.

Lemma silent_backoff (initial maximum : time.Duration) (attempt : Z) :
  silent (waitBackoff env initial maximum attempt).
Proof. apply silent_bind; [apply silent_next|]. intros io. destruct (io_ctx io 0); auto with silent. Qed.

Lemma silent_release (permits : list (option ratelimit.Permit)) : silent (releasePermits env permits).
Proof.
  induction permits as [|p permits IH]; simpl; [apply silent_ret|].
  apply silent_bind; [|done]. apply silent_ignore, silent_on_server.
Qed.
#[local] Hint Resolve silent_move silent_prices silent_backoff silent_release : silent.

Lemma silent_admit (service : Service) (principal : auth.Principal)
  (policy : persistence.TenantPolicy) (tokens : Z) : silent (Service_admit env service principal policy tokens).
Proof.
  unfold Service_admit. destruct (limiter service) as [l|]; [|apply silent_ret].
  generalize (@nil (option ratelimit.Permit)).
  generalize ["tenant:" +:+ auth.TenantID principal; "key:" +:+ auth.APIKeyID principal].
  intros buckets. induction buckets as [|b buckets IH]; intros permits; simpl; [apply silent_ret|].
  apply silent_bind; [auto with silent|]. intros [[d p]|e]; [|auto with silent].
  destruct (ratelimit.Allowed d); simpl; [apply IH|auto with silent].
Qed.
#[local] Hint Resolve silent_admit : silent.

(** ** Leases *)

Definition lease_released (k : nat) (w : W) : Prop :=
  ∃ l, leases w !! k = Some l ∧ routing.released l = true.

Lemma released_kept (k : nat) (w w' : W) :
  quiet_step w w' → lease_released k w → lease_released k w'.
Proof.
  intros Hq (l & Hk & Hl). destruct (q_leases _ _ Hq k l Hk) as (l' & Hk' & Hl').
  exists l'. auto.
Qed.

(** Reporting the outcome of a lease releases it. *)
Lemma on_lease_spec (k : nat) (w : W) f :
  wf w → is_Some (leases w !! k) →
  (∀ l, leases w !! k = Some l →
     ∃ r', f l (routing.sys_router (router w)) = (Ok (), routing.mark_released l, r') ∧
           routing.inv r' (<[k := routing.mark_released l]> (leases w)) ∧
           routing.statics r' = registry w) →
  ∃ w', on_lease k f w = (Ok (), w') ∧ quiet_step w w' ∧ lease_released k w'.
Proof.
  intros Hw [l Hl] Hf. destruct (Hf l Hl) as (r' & Hfl & Hinv & Hst). unfold on_lease.
  change (routing.sys_leases (router w)) with (leases w). rewrite Hl, Hfl.
  eexists. split; [done|]. split.
  - split; try done. simpl. by apply routing.leases_kept_insert.
  - exists (routing.mark_released l). split; [|done]. simpl.
    apply list_lookup_insert_eq. eauto using lookup_lt_Some.
Qed.

Lemma failure_report (k : nat) (retryable : bool) (now : time.Time) (w : W) :
  wf w → is_Some (leases w !! k) →
  ∃ w', on_lease k (routing.Failure retryable now) w = (Ok (), w') ∧ quiet_step w w' ∧
        lease_released k w'.
Proof.
  intros Hw Hk. apply on_lease_spec; [done..|]. intros l Hl.
  destruct (routing.lease_Failure_inv retryable now k l _ _ Hw Hl) as (r' & Hf & Hinv).
  exists r'. split_and!; [done..|].
  pose proof (routing.Failure_statics retryable now l (routing.sys_router (router w))) as Hst.
  by rewrite Hf in Hst.
Qed.

Lemma success_report (k : nat) (latency : time.Duration) (w : W) :
  wf w → is_Some (leases w !! k) →
  ∃ w', on_lease k (routing.Success latency) w = (Ok (), w') ∧ quiet_step w w' ∧
        lease_released k w'.
Proof.
  intros Hw Hk. apply on_lease_spec; [done..|]. intros l Hl.
  destruct (routing.lease_Success_inv latency k l _ _ Hw Hl) as (r' & Hf & Hinv).
  exists r'. split_and!; [done..|].
  pose proof (routing.Success_statics latency l (routing.sys_router (router w))) as Hst.
  by rewrite Hf in Hst.
Qed.

Lemma lease_some_kept (k : nat) (w w' : W) :
  quiet_step w w' → is_Some (leases w !! k) → is_Some (leases w' !! k).
Proof. intros Hq [l Hk]. destruct (q_leases _ _ Hq k l Hk) as (l' & Hk' & _). eauto. Qed.

Lemma clock_spec (w : W) : wf w → ∃ now w', clock env w = (Ok now, w') ∧ quiet_step w w'.
Proof.
  intros Hw. destruct (next_spec w Hw) as (w' & Hn & Hq & _).
  unfold clock, mbind, M_bind. rewrite Hn. eauto.
Qed.

Lemma lease_failure_spec (k : nat) (retryable : bool) (w : W) :
  wf w → is_Some (leases w !! k) →
  ∃ w', lease_failure env k retryable w = (Ok (), w') ∧ quiet_step w w' ∧ lease_released k w'.
Proof.
  intros Hw Hk. destruct (clock_spec w Hw) as (now & w1 & Hc & Hq1).
  unfold lease_failure, mbind, M_bind. rewrite Hc.
  destruct (failure_report k retryable now w1) as (w2 & Hf & Hq2 & Hr);
    [apply Hq1|by eapply lease_some_kept|].
  exists w2. split_and!; [done|by eapply quiet_trans|done].
Qed.

Lemma lease_success_spec (k : nat) (started : time.Time) (w : W) :
  wf w → is_Some (leases w !! k) →
  ∃ w', lease_success env k started w = (Ok (), w') ∧ quiet_step w w' ∧ lease_released k w'.
Proof.
  intros Hw Hk. destruct (clock_spec w Hw) as (now & w1 & Hc & Hq1).
  unfold lease_success, mbind, M_bind. rewrite Hc.
  destruct (success_report k (time.Sub now started) w1) as (w2 & Hf & Hq2 & Hr);
    [apply Hq1|by eapply lease_some_kept|].
  exists w2. split_and!; [done|by eapply quiet_trans|done].
Qed.
(** ** Selecting and calling *)

(** Rule for a silent call inside a proof about all outcomes. *)
Lemma wp_silent {A} (m : M W A) (Q : res A → W → Prop) (w : W) :
  silent m → wf w → (∀ out w', quiet_step w w' → Q out w') → wp m Q w.
Proof. intros Hm Hw HQ. apply HQ, Hm, Hw. Qed.

Definition takes (w w' : W) (k : nat) : Prop :=
  wf w' ∧ registry w' = registry w ∧ routing.leases_kept (leases w) (leases w') ∧
  calls w' = calls w ∧ taken w' = taken w ++ [k] ∧ is_Some (leases w' !! k).

Lemma select_wp (sel : routing.Selection) (Q : res (nat * routing.Lease) → W → Prop) (w : W) :
  wf w →
  (∀ k l w' s, takes w w' k → s ∈ registry w → routing.permitted sel s →
     routing.Name s.1 ∉ routing.ExcludedProviders sel → routing.lease_Provider l = s.1 →
     routing.lease_InputCost l = routing.InputCostPerMillionMicro s.2 →
     routing.lease_OutputCost l = routing.OutputCostPerMillionMicro s.2 → Q (Ok (k, l)) w') →
  (∀ e w', quiet_step w w' → Q (Err e) w') →
  wp (select env sel) Q w.
Proof.
  intros Hw Hok Herr. apply wp_bind. destruct (clock_spec w Hw) as (now & w1 & Hc & Hq1).
  unfold wp. rewrite Hc. simpl. unfold act.
  pose proof (routing.Select_inv now sel _ _ (q_wf _ _ Hq1)) as Hsel.
  pose proof (routing.Select_statics now sel (routing.sys_router (router w1))) as Hst.
  pose proof (routing.Select_permitted now sel (routing.sys_router (router w1))) as Hperm.
  destruct (routing.Select now sel (routing.sys_router (router w1))) as [[l|e|why] r]; simpl in *.
  - destruct Hsel as [Hrel Hinv].
    destruct (Hperm r (leases w1) l (q_wf _ _ Hq1) eq_refl) as (x & Hx & Hp & Hl & Hname).
    eapply (Hok _ l _ (routing.static x)); [|by rewrite <-(q_registry _ _ Hq1)|done|done|by rewrite Hl..].
    split_and!; simpl; [done| | | | |].
    + rewrite <-(q_registry _ _ Hq1). exact Hst.
    + etrans; [apply Hq1|apply routing.leases_kept_snoc].
    + by rewrite (q_calls _ _ Hq1).
    + by rewrite (q_taken _ _ Hq1).
    + unfold leases. simpl. rewrite list_lookup_middle by done. eauto.
  - apply Herr. destruct Hsel as [_ Hinv]. eapply quiet_trans; [exact Hq1|]. by split.
  - done.
Qed.

(** A provider call: one entry is added to the log. *)
Definition logs (w w' : W) (c : Called) : Prop :=
  wf w' ∧ registry w' = registry w ∧ routing.leases_kept (leases w) (leases w') ∧
  calls w' = calls w ++ [c] ∧ taken w' = taken w.

Lemma call_wp (service : Service) (h : routing.Handle) (id : string) (input : request.ChatInput)
  (emit : option (provider.Chunk → C → option error * C))
  (Q : res ((provider.Completion + error) * bool) → W → Prop) (w : W) :
  wf w →
  (∀ c partial w', logs w w' (mkCalled (routing.Name h) partial None) → Q (Ok (inl c, partial)) w') →
  (∀ e partial w', logs w w' (mkCalled (routing.Name h) partial (Some e)) →
     Q (Ok (inr e, partial)) w') →
  (∀ why partial w', quiet_step w w' ∨ logs w w' (mkCalled (routing.Name h) partial None) →
     Q (Panic why) w') →
  wp (call env service h id input emit) Q w.
Proof.
  intros Hw Hok Herr Hpanic. apply wp_bind. destruct (next_spec w Hw) as (w1 & Hn & Hq1 & _).
  unfold wp. rewrite Hn. simpl. unfold act.
  assert (∀ p c l, logs w (set_provider (routing.handle h) p c l w1) l) as Hlog.
  { intros p c l. destruct Hq1. split_and!; try done. simpl. congruence. }
  destruct (providers w1 !! routing.handle h) as [p|]; [|apply (Hpanic _ false); by left].
  destruct emit as [emit|].
  - destruct (provider.Stream _ _ p) as [st p'].
    destruct (provider.run_stream _ st _) as [out [[content partial] c]].
    destruct out; simpl; [apply Hok, Hlog|apply Herr, Hlog|apply (Hpanic _ partial); right; apply Hlog].
  - destruct (provider.Complete _ _ p) as [[] p'];
      [apply Hok, Hlog|apply Herr, Hlog|apply (Hpanic _ false); right; apply Hlog].
Qed.

(** ** One attempt after another *)

Definition not_panic {A} (out : res A) : Prop := is_panic out = false.

Lemma finish_wp (job : Job) (number : Z) (k : nat) (lease : routing.Lease) (started : time.Time)
  (completion : provider.Completion) (w : W) :
  wf w → is_Some (leases w !! k) →
  wp (finish env job number k lease started completion)
    (λ out w', quiet_step w w' ∧ (not_panic out → lease_released k w')) w.
Proof.
  intros Hw Hk. unfold finish.
  assert (∀ (e : error) w1, quiet_step w w1 →
    wp (lease_failure env k false ≫= λ _, fail e)
       (λ (out : res Outcome) w', quiet_step w w' ∧ (not_panic out → lease_released k w')) w1)
    as Hfail.
  { intros e w1 Hq1. destruct (lease_failure_spec k false w1) as (w2 & Hf & Hq2 & Hr);
      [apply Hq1|by eapply lease_some_kept|].
    apply wp_bind. unfold wp. rewrite Hf. split; [by eapply quiet_trans|done]. }
  destruct (budget.CostMicroUSD _ _ _ _) as [cost|e|why].
  2: { by apply Hfail, quiet_refl. }
  2: { split; [by apply quiet_refl|done]. }
  apply wp_bind. destruct (clock_spec w Hw) as (now & w1 & Hc & Hq1). unfold wp at 1. rewrite Hc.
  simpl. apply wp_bind, wp_caught, wp_silent; [auto with silent|apply Hq1|].
  intros out w2 Hq2. assert (quiet_step w w2) as Hq12 by by eapply quiet_trans.
  destruct out as [[]|e|why]; [|by apply Hfail|by split].
  destruct (lease_success_spec k started w2) as (w3 & Hs & Hq3 & Hr);
    [apply Hq12|by eapply lease_some_kept|].
  apply wp_bind. unfold wp at 1. rewrite Hs. simpl.
  apply wp_bind, wp_ignore, wp_silent; [auto with silent|apply Hq3|].
  intros out w4 Hq4.
  assert (quiet_step w w4) as Hq14 by (eapply quiet_trans, quiet_trans; eassumption).
  assert (lease_released k w4) as Hr4 by by apply (released_kept k w3).
  destruct out; by split.
Qed.

(** A call after which the gateway goes on to another provider: a retryable
    failure before any content was sent. *)
Definition retried (c : Called) : Prop :=
  called_partial c = false ∧ ∃ e, called_error c = Some e ∧ provider.IsRetryable e = true.

(** A called provider is registered and permitted by the tenant's policy. *)
Definition permitted_call (job : Job (C := C))
  (reg : list (routing.Handle * routing.ProviderConfig)) (c : Called) : Prop :=
  ∃ s, s ∈ reg ∧ routing.permitted (selection job ∅ 0) s ∧ routing.Name s.1 = called_name c.

(** What the log of a request's provider calls looks like. *)
Record disciplined (job : Job (C := C))
  (reg : list (routing.Handle * routing.ProviderConfig)) (cs : list Called) : Prop := {
  d_count : Z.of_nat (length cs) <= Z.max 0 (MaxAttempts (config (job_service job)));
  d_distinct : NoDup (called_name <$> cs);
  d_retry : ∀ pre c post, cs = pre ++ c :: post → post ≠ [] → retried c;
  d_permitted : Forall (permitted_call job reg) cs
}.

Definition all_released (w : W) : Prop := ∀ k, k ∈ taken w → lease_released k w.

(** The state of a request between two attempts. *)
Record between (job : Job (C := C)) (reg : list (routing.Handle * routing.ProviderConfig))
  (remaining : nat) (excluded : gset string) (w : W) : Prop := {
  bt_wf : wf w;
  bt_registry : registry w = reg;
  bt_released : all_released w;
  bt_retried : Forall retried (calls w);
  bt_permitted : Forall (permitted_call job reg) (calls w);
  bt_distinct : NoDup (called_name <$> calls w);
  bt_excluded : ∀ c, c ∈ calls w → called_name c ∈ excluded;
  bt_count : Z.of_nat (length (calls w) + remaining) <=
             Z.max 0 (MaxAttempts (config (job_service job)))
}.

(** What holds of the world when a request ends with [out]. *)
Definition ended {A} (job : Job (C := C)) (reg : list (routing.Handle * routing.ProviderConfig))
  (out : res A) (w : W) : Prop :=
  wf w ∧ registry w = reg ∧ disciplined job reg (calls w) ∧ (not_panic out → all_released w).

Lemma between_disciplined (job : Job) reg (remaining : nat) (excluded : gset string) (w : W) :
  between job reg remaining excluded w → disciplined job reg (calls w).
Proof.
  intros [_ _ _ B1 B2 B3 _ B4]. split; [lia|done| |done].
  intros pre c post Hc _. rewrite Hc in B1. by apply Forall_app in B1 as [_ [? _]%Forall_cons].
Qed.

Lemma all_released_quiet (w w' : W) : quiet_step w w' → all_released w → all_released w'.
Proof.
  intros Hq Ha k Hk. rewrite (q_taken _ _ Hq) in Hk. eapply released_kept; [done|by apply Ha].
Qed.

Lemma between_quiet (job : Job) reg (remaining : nat) (excluded : gset string) (w w' : W) :
  between job reg remaining excluded w → quiet_step w w' → between job reg remaining excluded w'.
Proof.
  intros [] Hq. pose proof (all_released_quiet _ _ Hq bt_released0) as Hr.
  destruct Hq as [Q1 Q2 Q3 Q4 Q5]. split; rewrite ?Q4; try done. congruence.
Qed.

Lemma between_ended {A} (job : Job) reg (remaining : nat) (excluded : gset string) (w : W)
  (out : res A) : between job reg remaining excluded w → ended job reg out w.
Proof.
  intros Hb. pose proof (between_disciplined _ _ _ _ _ Hb). destruct Hb. by split_and!.
Qed.

Lemma ended_quiet {A B} (job : Job) reg (w w' : W) (out : res A) (out' : res B) :
  ended job reg out w → not_panic out → quiet_step w w' → ended job reg out' w'.
Proof.
  intros (E1 & E2 & E3 & E4) Hp Hq. pose proof (all_released_quiet _ _ Hq (E4 Hp)) as Hr.
  destruct Hq as [Q1 Q2 Q3 Q4 Q5]. split_and!; [done|congruence|by rewrite Q4|done].
Qed.

(** The world while the lease at place [k] is out. *)
Record busy (reg : list (routing.Handle * routing.ProviderConfig)) (k : nat) (cs : list Called)
  (w : W) : Prop := {
  by_wf : wf w;
  by_registry : registry w = reg;
  by_lease : is_Some (leases w !! k);
  by_others : ∀ j, j ∈ taken w → j = k ∨ lease_released j w;
  by_calls : calls w = cs
}.

Lemma busy_quiet reg (k : nat) (cs : list Called) (w w' : W) :
  busy reg k cs w → quiet_step w w' → busy reg k cs w'.
Proof.
  intros [B1 B2 B3 B4 B5] Hq. split.
  - apply Hq.
  - by rewrite (q_registry _ _ Hq).
  - by eapply lease_some_kept.
  - intros j. rewrite (q_taken _ _ Hq). intros [->|Hj]%B4; [by left|right]. by eapply released_kept.
  - by rewrite (q_calls _ _ Hq).
Qed.

Lemma busy_released reg (k : nat) (cs : list Called) (w : W) :
  busy reg k cs w → lease_released k w → all_released w.
Proof. intros Hb Hk j [->|Hj]%(by_others _ _ _ _ Hb); done. Qed.

Lemma busy_ended {A} (job : Job) reg (k : nat) (cs : list Called) (w : W) (out : res A) :
  busy reg k cs w → disciplined job reg cs → (not_panic out → lease_released k w) →
  ended job reg out w.
Proof.
  intros Hb Hd Hr. pose proof (busy_released _ _ _ _ Hb) as Ha. destruct Hb as [B1 B2 B3 B4 <-].
  split_and!; auto.
Qed.

Lemma takes_busy (job : Job) reg (remaining : nat) (excluded : gset string) (k : nat) (w w' : W) :
  between job reg remaining excluded w → takes w w' k → busy reg k (calls w) w'.
Proof.
  intros Hb (T1 & T2 & T3 & T4 & T5 & T6). split; [done|by rewrite T2; apply Hb|done| |done].
  intros j. rewrite T5. intros [Hj| ->%list_elem_of_singleton]%elem_of_app; [right|by left].
  destruct (bt_released _ _ _ _ _ Hb j Hj) as (l & Hl & Hr).
  destruct (T3 j l Hl) as (l' & Hl' & Hr'). exists l'. auto.
Qed.

Lemma logs_busy reg (k : nat) (cs : list Called) (w w' : W) (c : Called) :
  busy reg k cs w → logs w w' c → busy reg k (cs ++ [c]) w'.
Proof.
  intros [B1 B2 [l B3] B4 B5] (L1 & L2 & L3 & L4 & L5). split; [done|congruence| | |congruence].
  - destruct (L3 k l B3) as (l' & Hl' & _). eauto.
  - intros j. rewrite L5. intros [->|(lj & Hlj & Hrj)]%B4; [by left|right].
    destruct (L3 j lj Hlj) as (l' & Hl' & Hr'). exists l'. auto.
Qed.

Lemma disciplined_snoc (job : Job) reg (remaining : nat) (excluded : gset string) (w : W)
  (c : Called) :
  between job reg (Datatypes.S remaining) excluded w → called_name c ∉ excluded →
  permitted_call job reg c → disciplined job reg (calls w ++ [c]).
Proof.
  intros [_ _ _ B1 B2 B3 B4 B5] Hname Hperm. split.
  - rewrite length_app. simpl. lia.
  - rewrite fmap_app. change (called_name <$> [c]) with [called_name c].
    apply NoDup_app. split_and!; [done| |apply NoDup_singleton].
    intros n (c' & Hn & Hc')%list_elem_of_fmap Hn'%list_elem_of_singleton.
    apply Hname. rewrite <-Hn', Hn. by apply B4.
  - intros pre c' post Heq Hpost. destruct post as [|x post _] using rev_ind; [done|].
    rewrite app_comm_cons, app_assoc in Heq. apply app_inj_tail in Heq as [Heq _].
    rewrite Heq in B1. by apply Forall_app in B1 as [_ [? _]%Forall_cons].
  - apply Forall_app. split; [done|by repeat constructor].
Qed.

(** The lease is given back and the request ends with an error. *)
Lemma give_up_wp {A} (job : Job) reg (k : nat) (cs : list Called) (e : error) (w : W) :
  busy reg k cs w → disciplined job reg cs →
  wp (lease_failure env k false ≫= λ _, fail e) (λ (out : res A), ended job reg out) w.
Proof.
  intros Hb Hd. destruct (lease_failure_spec k false w) as (w' & Hf & Hq & Hr); [apply Hb..|].
  apply wp_bind. unfold wp. rewrite Hf. simpl. eapply busy_ended; [by eapply busy_quiet|done|done].
Qed.

(** After a failed call: report it, and go on if it can be retried. *)
Lemma after_failure (job : Job) reg (remaining : nat) (excluded : gset string) (w0 w : W)
  (k : nat) (name : string) (partial retryable : bool) (e : error) :
  between job reg (Datatypes.S remaining) excluded w0 →
  busy reg k (calls w0 ++ [mkCalled name partial (Some e)]) w →
  lease_released k w → name ∉ excluded →
  permitted_call job reg (mkCalled name partial (Some e)) →
  provider.IsRetryable e = true → partial = false →
  between job reg remaining ({[name]} ∪ excluded) w.
Proof.
  intros Hb Hw Hr Hname Hperm He ->.
  pose proof (disciplined_snoc _ _ _ _ _ (mkCalled name false (Some e)) Hb Hname Hperm) as Hd.
  destruct Hb as [B1 B2 B3 B4 B5 B6 B7 B8]. pose proof (busy_released _ _ _ _ Hw Hr) as Ha.
  destruct Hw as [W1 W2 W3 W4 W5]. split; try done; rewrite W5.
  - apply Forall_app. split; [done|]. repeat constructor; simpl; eauto.
  - apply Hd.
  - apply Hd.
  - intros c [Hc| ->%list_elem_of_singleton]%elem_of_app; [|simpl; set_solver].
    apply B7 in Hc. set_solver.
  - rewrite length_app. simpl. lia.
Qed.
(** What follows a failed call in the loop body. *)
Lemma failed_call_wp (job : Job) reg (remaining : nat) (number : Z) (excluded : gset string)
  (w0 w : W) (k : nat) (name : string) (partial : bool) (e : error) (started : time.Time)
  (again : M W loop_end) :
  between job reg (Datatypes.S remaining) excluded w0 →
  busy reg k (calls w0 ++ [mkCalled name partial (Some e)]) w →
  name ∉ excluded → permitted_call job reg (mkCalled name partial (Some e)) →
  (∀ w', between job reg remaining ({[name]} ∪ excluded) w' → wp again (ended job reg) w') →
  let retryable := provider.IsRetryable e && negb partial &&
                   (number <? MaxAttempts (config (job_service job))) in
  wp (_ ← lease_failure env k retryable;
      out ← caught (on_store_detached env (λ io, persistence.FailAttempt io
        (failure_params job number (errorCategory e) retryable partial (negb retryable) started)));
      match out with
      | inr err => fail err
      | inl _ =>
        if negb retryable then mret (Broke (Some e) true)
        else
          out ← caught (waitBackoff env (InitialBackoff (config (job_service job)))
                          (MaximumBackoff (config (job_service job))) number);
          match out with
          | inr err => mret (Broke (Some err) false)
          | inl _ => again
          end
      end) (ended job reg) w.
Proof.
  intros Hb Hw Hname Hperm Hagain retryable.
  pose proof (disciplined_snoc _ _ _ _ _ (mkCalled name partial (Some e)) Hb Hname Hperm) as Hd.
  destruct (lease_failure_spec k retryable w) as (w1 & Hf & Hq1 & Hr1); [apply Hw..|].
  apply wp_bind. unfold wp at 1. rewrite Hf. simpl. pose proof (busy_quiet _ _ _ _ _ Hw Hq1) as Hw1.
  apply wp_bind, wp_caught, wp_silent; [auto with silent|apply Hw1|].
  intros out w2 Hq2. pose proof (busy_quiet _ _ _ _ _ Hw1 Hq2) as Hw2.
  pose proof (released_kept _ _ _ Hq2 Hr1) as Hr2.
  destruct out as [[]|err|why]; [|by apply wp_fail; eapply busy_ended|by eapply busy_ended].
  destruct retryable eqn:Hret; simpl; [|by apply wp_ret; eapply busy_ended].
  apply wp_bind, wp_caught, wp_silent; [auto with silent|apply Hw2|].
  intros out w3 Hq3. pose proof (busy_quiet _ _ _ _ _ Hw2 Hq3) as Hw3.
  pose proof (released_kept _ _ _ Hq3 Hr2) as Hr3.
  destruct out as [[]|err|why]; [|by apply wp_ret; eapply busy_ended|by eapply busy_ended].
  apply Hagain. unfold retryable in Hret. reflect. by eapply after_failure.
Qed.

Lemma attempt_loop_wp (job : Job) reg (remaining : nat) (number : Z) (excluded : gset string)
  (lastErr : option error) (w : W) :
  between job reg remaining excluded w →
  wp (attempt_loop env job remaining number excluded lastErr) (ended job reg) w.
Proof.
  revert number excluded lastErr w.
  induction remaining as [|remaining IH]; intros number excluded lastErr w Hb; simpl.
  { apply wp_ret. by eapply between_ended. }
  apply wp_bind. destruct (clock_spec w (bt_wf _ _ _ _ _ Hb)) as (now & w1 & Hc & Hq1).
  unfold wp at 1. rewrite Hc. simpl. pose proof (between_quiet _ _ _ _ _ _ Hb Hq1) as Hb1.
  apply wp_bind, wp_caught, select_wp; [apply Hb1| |].
  2: { intros e w2 Hq2. apply wp_ret. eapply between_ended. by eapply between_quiet. }
  intros k l w2 x Ht Hx Hp Hname Hl _ _. simpl in Hname. rewrite Hl.
  pose proof (takes_busy _ _ _ _ _ _ _ Hb1 Ht) as Hw2.
  pose proof (between_disciplined _ _ _ _ _ Hb1) as Hd.
  assert (∀ partial err, permitted_call job reg (mkCalled (routing.Name x.1) partial err)) as Hperm.
  { intros partial err. exists x. rewrite <-(bt_registry _ _ _ _ _ Hb1). split_and!; [done| |done].
    by eapply routing.permitted_same_policy, Hp. }
  apply wp_bind, wp_caught, wp_silent; [auto with silent|apply Hw2|].
  intros out w3 Hq3. pose proof (busy_quiet _ _ _ _ _ Hw2 Hq3) as Hw3.
  destruct out as [[]|err|why]; [|by eapply give_up_wp|by eapply busy_ended].
  destruct (clock_spec w3 (by_wf _ _ _ _ Hw3)) as (started & w4 & Hc4 & Hq4).
  apply wp_bind. unfold wp at 1. rewrite Hc4. simpl. pose proof (busy_quiet _ _ _ _ _ Hw3 Hq4) as Hw4.
  apply wp_bind, call_wp; [apply Hw4|..].
  - intros completion partial w5 Hlog. pose proof (logs_busy _ _ _ _ _ _ Hw4 Hlog) as Hw5.
    pose proof (disciplined_snoc _ _ _ _ _ (mkCalled _ partial None) Hb1 Hname (Hperm partial None))
      as Hd5.
    apply wp_bind. eapply wp_mono; [apply finish_wp; apply Hw5|].
    intros out w6 [Hq6 Hr6]. pose proof (busy_quiet _ _ _ _ _ Hw5 Hq6) as Hw6.
    destruct out; [apply wp_ret|..]; eapply busy_ended; eauto.
  - intros e partial w5 Hlog. pose proof (logs_busy _ _ _ _ _ _ Hw4 Hlog) as Hw5.
    eapply failed_call_wp; [exact Hb1|exact Hw5|done|apply Hperm|]. intros w' Hw'. by apply IH.
  - intros why partial w5 [Hq5|Hlog].
    + eapply busy_ended; [by eapply busy_quiet|done|done].
    + eapply busy_ended; [by eapply logs_busy|by eapply disciplined_snoc|done].
Qed.

Lemma silent_conclude (job : Job) (e : loop_end) : silent (conclude env job e).
Proof.
  destruct e as [o|lastErr finalized]; simpl; [auto with silent|].
  apply silent_bind; [destruct finalized; auto with silent|]. intros _. auto with silent.
Qed.

(** The beginning of a request: nothing called, nothing taken. *)
Record start_ok (w : W) : Prop := {
  so_wf : wf w;
  so_calls : calls w = [];
  so_taken : taken w = []
}.

Lemma start_quiet (w w' : W) : start_ok w → quiet_step w w' → start_ok w'.
Proof. intros [] []. split; congruence || done. Qed.

Lemma start_between (job : Job) (w : W) :
  start_ok w →
  between job (registry w) (Z.to_nat (MaxAttempts (config (job_service job)))) ∅ w.
Proof.
  intros [H3 H4 H5]. split; rewrite ?H4; simpl; try done; try constructor.
  - intros k. rewrite H5. by intros ?%not_elem_of_nil.
  - by intros c ?%not_elem_of_nil.
  - lia.
Qed.

Lemma start_ended {A} (job : Job) (w0 w : W) (out : res A) :
  start_ok w0 → quiet_step w0 w → ended job (registry w0) out w.
Proof.
  intros Hs Hq. rewrite <-(q_registry _ _ Hq).
  eapply between_ended, start_between. by eapply start_quiet.
Qed.

Lemma run_admitted_wp (job : Job) (w0 w : W) :
  start_ok w0 → quiet_step w0 w →
  wp (run_admitted env job) (ended job (registry w0)) w.
Proof.
  intros Hs Hq. unfold run_admitted.
  assert (∀ A (m : M W A) w1, silent m → quiet_step w0 w1 → wp m (ended job (registry w0)) w1) as Hsil.
  { intros A m w1 Hm Hq1. apply wp_silent; [done|apply Hq1|]. intros out w2 Hq2.
    eapply start_ended; [done|]. by eapply quiet_trans. }
  apply wp_bind, wp_caught, wp_silent; [auto with silent|apply Hq|].
  intros out w1 Hq1. assert (quiet_step w0 w1) as Hq01 by by eapply quiet_trans.
  destruct out as [[inp outp]|err|why]; [|apply Hsil; auto with silent|by eapply start_ended].
  apply wp_bind, wp_lift. destruct (budget.CostMicroUSD _ _ _ _) as [reservation|e|why];
    [|by eapply start_ended..].
  apply wp_bind, wp_silent; [auto with silent|apply Hq1|].
  intros out w2 Hq2. assert (quiet_step w0 w2) as Hq02 by by eapply quiet_trans.
  destruct out as [now|e|why]; [|by eapply start_ended..].
  apply wp_bind, wp_caught, wp_silent; [auto with silent|apply Hq2|].
  intros out w3 Hq3. assert (quiet_step w0 w3) as Hq03 by by eapply quiet_trans.
  destruct out as [[]|err|why]; [| |by eapply start_ended].
  2: { apply Hsil; [|done]. apply silent_bind; [destruct (errors.Is _ _); auto with silent|].
       intros _. apply silent_fail. }
  apply wp_bind, wp_silent; [auto with silent|apply Hq3|].
  intros out w4 Hq4. assert (quiet_step w0 w4) as Hq04 by by eapply quiet_trans.
  destruct out as [[]|e|why]; [|by eapply start_ended..].
  apply wp_bind, wp_silent; [auto with silent|apply Hq4|].
  intros out w5 Hq5. assert (quiet_step w0 w5) as Hq05 by by eapply quiet_trans.
  destruct out as [[]|e|why]; [|by eapply start_ended..].
  apply wp_bind. eapply wp_mono; [apply (attempt_loop_wp job (registry w0))|].
  - rewrite <-(q_registry _ _ Hq05). apply start_between. by eapply start_quiet.
  - intros out w6 He. destruct out as [e|err|why]; [|done..].
    apply wp_silent; [apply silent_conclude|apply He|]. intros out w7 Hq7. by eapply ended_quiet.
Qed.
Lemma ended_later {A} (job : Job) reg (w w' : W) (out out' : res A) :
  ended job reg out w → quiet_step w w' → (not_panic out' → not_panic out) → ended job reg out' w'.
Proof.
  intros (E1 & E2 & E3 & E4) Hq Hp.
  assert (not_panic out' → all_released w') as Hr by eauto using all_released_quiet.
  destruct Hq as [Q1 Q2 Q3 Q4 Q5]. split_and!; [done|congruence|by rewrite Q4|done].
Qed.

(** ** The whole request *)

Context (json_Marshal : request.ChatInput → res string) (sha256 : string → string).

Lemma deferred_wp {A} (d : M W unit) (m : M W A) (job : Job) reg (w : W) :
  silent d → wp m (ended job reg) w → wp (deferred d m) (ended job reg) w.
Proof.
  intros Hd Hm. unfold wp, deferred in *. destruct (m w) as [out w1]. simpl in Hm.
  pose proof (Hd w1 (proj1 Hm)) as Hq.
  destruct (d w1) as [[]  w2]; simpl in *; by eapply ended_later.
Qed.

(** How a request ends: before any provider was involved, or after running as
    a job under a policy the store answered for its tenant and model. *)
Definition request_ended (service : Service) (principal : auth.Principal)
  (input : request.ChatInput) (w0 : W) (out : res Outcome) (w : W) : Prop :=
  quiet_step w0 w ∨
  ∃ (job : Job (C := C)) io s s',
    job_service job = service ∧ job_input job = input ∧
    persistence.GetTenantPolicy io (auth.TenantID principal) (request.in_Model input) s =
      (Ok (job_policy job), s') ∧
    ended job (registry w0) out w.

Lemma policy_wp (t model : string) (Q : res persistence.TenantPolicy → W → Prop) (w : W) :
  wf w →
  (∀ out w', quiet_step w w' →
     (∀ p, out = Ok p → ∃ io s s', persistence.GetTenantPolicy io t model s = (Ok p, s')) →
     Q out w') →
  wp (on_store env (λ io, persistence.GetTenantPolicy io t model)) Q w.
Proof.
  intros Hw HQ. unfold on_store. apply wp_bind.
  destruct (next_spec w Hw) as (w1 & Hn & Hq1 & _). unfold wp at 1. rewrite Hn. simpl.
  unfold wp, act.
  destruct (persistence.GetTenantPolicy (env_io env (tick w)) t model (store w1)) as [out s] eqn:Hp.
  simpl. apply HQ.
  - eapply quiet_trans; [exact Hq1|]. apply quiet_same; try done. apply Hq1.
  - intros p ->. eauto.
Qed.

Lemma execute_wp (service : Service) (principal : auth.Principal) (key correlation : string)
  (input : request.ChatInput) (emit : option (provider.Chunk → C → option error * C)) (w : W) :
  start_ok w →
  wp (execute json_Marshal sha256 env service principal key correlation input emit)
     (request_ended service principal input w) w.
Proof.
  intros Hs. unfold execute. pose proof (quiet_refl w (so_wf _ Hs)) as Hq.
  apply wp_bind, wp_lift. destruct (request.Validate input); [|by left..].
  apply wp_bind, wp_lift. destruct (idempotency.HashChat json_Marshal sha256 input); [|by left..].
  apply wp_bind, wp_silent; [auto with silent|apply Hs|]. intros out w1 Hq1.
  destruct out as [[r created]|e|why]; [|by left..].
  destruct created; simpl.
  2: { destruct (request.Response r); [destruct (bool_decide _)|]; by left. }
  apply wp_bind, wp_silent; [auto with silent|apply Hq1|].
  intros out w2 Hq2. assert (quiet_step w w2) as Hq02 by by eapply quiet_trans.
  destruct out as [[]|e|why]; [|by left..].
  apply wp_bind, wp_caught, policy_wp; [apply Hq2|]. intros out w3 Hq3 Hpol.
  assert (quiet_step w w3) as Hq03 by by eapply quiet_trans.
  assert (∀ (m : M W Outcome) w', silent m → quiet_step w w' →
    wp m (request_ended service principal input w) w') as Hsil.
  { intros m w' Hm Hq'. apply wp_silent; [done|apply Hq'|]. intros o w'' Hq''. left.
    by eapply quiet_trans. }
  destruct out as [policy|e|why]; [|apply Hsil; auto with silent|by left].
  destruct (Hpol policy eq_refl) as (io & s & s' & Hget).
  apply wp_bind, wp_caught, wp_silent; [auto with silent|apply Hq3|].
  intros out w4 Hq4. assert (quiet_step w w4) as Hq04 by by eapply quiet_trans.
  destruct out as [permits|e|why]; [|apply Hsil; auto with silent|by left].
  set (job := mkJob service principal correlation input emit r policy).
  eapply wp_mono; [apply (deferred_wp _ _ job (registry w)); [apply silent_release|]|].
  - by apply run_admitted_wp.
  - intros out w5 He. right. exists job, io, s, s'. done.
Qed.

(** A request's provider calls obey the limits and the policy of its tenant. *)
Record disciplined_calls (service : Service) (principal : auth.Principal)
  (input : request.ChatInput) (reg : list (routing.Handle * routing.ProviderConfig))
  (cs : list Called) : Prop := {
  dc_count : Z.of_nat (length cs) <= Z.max 0 (MaxAttempts (config service));
  dc_distinct : NoDup (called_name <$> cs);
  dc_retry : ∀ pre c post, cs = pre ++ c :: post → post ≠ [] → retried c;
  dc_policy : ∀ c, c ∈ cs → ∃ policy io s s' p,
    persistence.GetTenantPolicy io (auth.TenantID principal) (request.in_Model input) s =
      (Ok policy, s') ∧
    p ∈ reg ∧ routing.Name p.1 = called_name c ∧ routing.Enabled p.2 = true ∧
    request.in_Model input ∈ provider.Models (routing.Capabilities p.1) ∧
    persistence.DataClassification policy ∈ provider.DataClassifications (routing.Capabilities p.1) ∧
    ∀ allowed, persistence.AllowedProviders policy = Some allowed → called_name c ∈ allowed
}.

(** C1 (safety): whatever the store, Redis, the providers, the client and
    the other requests do, one request calls at most [MaxAttempts] providers,
    never the same one twice, only providers that are enabled, serve the
    model and are permitted by the tenant's policy; and it goes on to another
    provider only after a retryable failure before any content was sent to
    the client. *)
Theorem failover_discipline (service : Service) (principal : auth.Principal)
  (key correlation : string) (input : request.ChatInput)
  (emit : option (provider.Chunk → C → option error * C)) (w : W) (Hs : start_ok w) :
  disciplined_calls service principal input (registry w)
    (calls (execute json_Marshal sha256 env service principal key correlation input emit w).2).
Proof.
  destruct (execute_wp service principal key correlation input emit w Hs) as
    [Hq|(job & io & s & s' & <- & <- & Hget & _ & _ & [D1 D2 D3 D4] & _)].
  - rewrite (q_calls _ _ Hq), (so_calls _ Hs). split; simpl; [lia|constructor| |].
    + intros pre c post Heq. by destruct pre.
    + by intros c ?%not_elem_of_nil.
  - split; [done..|]. intros c Hc. rewrite Forall_forall in D4.
    destruct (D4 c Hc) as (p & Hp & [P1 P2 P3 P4] & Hname). simpl in *.
    exists (job_policy job), io, s, s', p. split_and!; try done. rewrite <-Hname. done.
Qed.

(** C6 (safety): when a request returns (a result or an error, not a panic of
    a provider or of the store), every provider lease it took has been given
    back, and router capacity, outstanding counters and breakers are
    consistent with the leases still held by other requests. *)
Theorem leases_returned (service : Service) (principal : auth.Principal)
  (key correlation : string) (input : request.ChatInput)
  (emit : option (provider.Chunk → C → option error * C)) (w : W) (Hs : start_ok w) :
  let '(out, w') := execute json_Marshal sha256 env service principal key correlation input emit w in
  wf w' ∧ (is_panic out = false → all_released w').
Proof.
  pose proof (execute_wp service principal key correlation input emit w Hs) as Hwp.
  unfold wp in Hwp. destruct (execute _ _ _ _ _ _ _ _ _ w) as [out w']. simpl in Hwp.
  destruct Hwp as [Hq|(job & io & s & s' & _ & _ & _ & He1 & _ & _ & He4)].
  - split; [apply Hq|]. intros _ k. rewrite (q_taken _ _ Hq), (so_taken _ Hs).
    by intros ?%not_elem_of_nil.
  - by split.
Qed.
(** ** Replays *)

(** Nothing but the store and the clock moved. *)
Definition untouched (w w' : W) : Prop :=
  server w' = server w ∧ providers w' = providers w ∧ client w' = client w ∧
  calls w' = calls w ∧ taken w' = taken w.

(** Repeating an idempotency key has no further effect.
    When the store answers that the request exists, the gateway returns it at
    once: with its response when it is completed, as pending otherwise; when
    the store refuses (a different payload), its error is returned. In both
    cases no provider is called, no lease taken, no rate-limit or client
    action happens, and the store was only asked that one question. *)
Theorem replay_passive (service : Service) (principal : auth.Principal)
  (key correlation hash : string) (input : request.ChatInput)
  (emit : option (provider.Chunk → C → option error * C)) (w : W)
  (Hw : wf w) (Hv : request.Validate input = Ok ())
  (Hh : idempotency.HashChat json_Marshal sha256 input = Ok hash) :
  let asked := persistence.CreateOrGetRequest (env_io env (tick w))
    (create_params principal key hash correlation input) (others_store env (tick w) (store w)) in
  let run := execute json_Marshal sha256 env service principal key correlation input emit w in
  (∀ r, asked.1 = Ok (r, false) →
     let complete := bool_decide (request.state r = request.Completed ∧ is_Some (request.Response r)) in
     run.1 = Ok (mkOutcome r (if complete then request.Response r else None) true (negb complete)) ∧
     store run.2 = asked.2 ∧ untouched w run.2) ∧
  (∀ e, asked.1 = Err e → run.1 = Err e ∧ store run.2 = asked.2 ∧ untouched w run.2).
Proof.
  destruct (next_spec w Hw) as (w1 & Hn & Hq & Hst & Hsv & Hpr & Hcl). cbv zeta.
  unfold execute, on_store, lift, mbind, M_bind. rewrite Hv, Hh, Hn, <-Hst. unfold act.
  destruct (persistence.CreateOrGetRequest _ _ (store w1)) as [out s'].
  pose proof (q_calls _ _ Hq) as Hc. pose proof (q_taken _ _ Hq) as Ht.
  split; [intros r|intros e]; intros Ha; simpl in Ha; rewrite Ha; simpl; [|by split_and!].
  destruct (request.Response r) as [resp|] eqn:Hr; simpl.
  - destruct (decide (request.state r = request.Completed)) as [Hs|Hs].
    + rewrite (bool_decide_true (request.state r = request.Completed)) by done.
      rewrite bool_decide_true by eauto. by split_and!.
    + rewrite (bool_decide_false (request.state r = request.Completed)) by done.
      rewrite bool_decide_false by naive_solver. by split_and!.
  - rewrite bool_decide_false by (intros [_ [x Hx]]; done). by split_and!.
Qed.

(** ** Cost and reservation *)

(** A completed outcome is priced by a registered provider the policy permits. *)
Definition priced (job : Job (C := C)) (reg : list (routing.Handle * routing.ProviderConfig))
  (o : Outcome) : Prop :=
  ∃ s resp, s ∈ reg ∧ routing.permitted (selection job ∅ 0) s ∧ response o = Some resp ∧
    Replayed o = false ∧
    budget.CostMicroUSD (request.PromptTokens (request.resp_Usage resp))
      (request.CompletionTokens (request.resp_Usage resp))
      (routing.InputCostPerMillionMicro s.2) (routing.OutputCostPerMillionMicro s.2) =
      Ok (request.CostMicroUSD (record o)).

(** A step followed by an error never returns a value. *)
Lemma fails_wp {A B} (m : M W A) (e : error) (Q : res B → W → Prop) (w : W) :
  (∀ out w', is_ok out = false → Q out w') → wp (m ≫= λ _, fail e) Q w.
Proof. intros HQ. apply wp_bind. unfold wp. destruct (m w) as [[] w']; by apply HQ. Qed.

(** Rule for a step of which only the value matters. *)
Lemma wp_any {A B} (m : M W A) (f : A → M W B) (Q : res B → W → Prop) (w : W) :
  (∀ out w', is_ok out = false → Q out w') → (∀ a w', wp (f a) Q w') → wp (m ≫= f) Q w.
Proof.
  intros HQ Hf. apply wp_bind. unfold wp at 1. destruct (m w) as [[a|e|why] w']; simpl;
    [apply Hf|by apply HQ..].
Qed.

Lemma silent_lease_failure (k : nat) (retryable : bool) : silent (lease_failure env k retryable).
Proof.
  apply silent_bind; [auto with silent|]. intros now w Hw.
  destruct (leases w !! k) as [l|] eqn:El.
  - destruct (failure_report k retryable now w Hw) as (w' & -> & Hq & _); [by exists l|done].
  - unfold on_lease, leases in *. rewrite El. by apply quiet_refl.
Qed.
#[local] Hint Resolve silent_lease_failure : silent.

Lemma finish_priced (job : Job) (number : Z) (k : nat) (lease : routing.Lease) (started : time.Time)
  (completion : provider.Completion) (reg : list (routing.Handle * routing.ProviderConfig))
  (s : routing.Handle * routing.ProviderConfig) (w : W) :
  s ∈ reg → routing.permitted (selection job ∅ 0) s →
  routing.lease_InputCost lease = routing.InputCostPerMillionMicro s.2 →
  routing.lease_OutputCost lease = routing.OutputCostPerMillionMicro s.2 →
  wp (finish env job number k lease started completion)
     (λ out _, ∀ o, out = Ok o → priced job reg o) w.
Proof.
  intros Hs Hp Hi Ho. unfold finish. rewrite Hi, Ho.
  destruct (budget.CostMicroUSD _ _ _ _) as [cost|e|why] eqn:Hcost; [|by apply fails_wp; intros []|done].
  apply wp_any; [by intros []|]. intros now w1. apply wp_any; [by intros []|]. intros [_|err] w2.
  2: { by apply fails_wp; intros []. }
  apply wp_any; [by intros []|]. intros _ w3. apply wp_any; [by intros []|]. intros _ w4.
  intros o [= <-]. exists s. eexists. split_and!; try done.
Qed.

Lemma attempt_loop_priced (job : Job) reg (remaining : nat) (number : Z) (excluded : gset string)
  (lastErr : option error) (w : W) :
  wf w → registry w = reg →
  wp (attempt_loop env job remaining number excluded lastErr)
     (λ out _, ∀ o, out = Ok (Returned o) → priced job reg o) w.
Proof.
  revert number excluded lastErr w.
  induction remaining as [|remaining IH]; intros number excluded lastErr w Hw Hreg; simpl; [done|].
  apply wp_bind, wp_silent; [auto with silent|done|]. intros out w1 Hq1.
  destruct out as [now|e|why]; [|done..].
  apply wp_bind, wp_caught, select_wp; [apply Hq1| |done].
  intros k l w2 s Ht Hs Hp _ _ Hi Ho. destruct Ht as (Hw2 & Hreg2 & _).
  apply (routing.permitted_same_policy (selection job ∅ 0)) in Hp; [|done].
  rewrite (q_registry _ _ Hq1), Hreg in Hs, Hreg2.
  apply wp_bind, wp_caught, wp_silent; [auto with silent|done|]. intros out w3 Hq3.
  destruct out as [[]|err|why]; [|by apply fails_wp; intros []|done].
  apply wp_bind, wp_silent; [auto with silent|apply Hq3|]. intros out w4 Hq4.
  destruct out as [started|err|why]; [|done..].
  assert (wf w4 ∧ registry w4 = reg) as [Hw4 Hreg4].
  { split; [apply Hq4|]. by rewrite (q_registry _ _ Hq4), (q_registry _ _ Hq3). }
  apply wp_bind, call_wp; [done|..|done].
  - intros completion partial w5 _. apply wp_bind. eapply wp_mono; [by eapply finish_priced|].
    intros out w6 Hout. destruct out as [o|e|why]; [|done..]. intros o' [= <-]. by apply Hout.
  - intros e partial w5 (Hw5 & Hreg5 & _). rewrite Hreg4 in Hreg5.
    apply wp_bind, wp_silent; [auto with silent|done|]. intros out w6 Hq6.
    destruct out as [[]|err|why]; [|done..].
    apply wp_bind, wp_caught, wp_silent; [auto with silent|apply Hq6|]. intros out w7 Hq7.
    destruct out as [[]|err|why]; [|done..].
    destruct (negb _); [done|].
    apply wp_bind, wp_caught, wp_silent; [auto with silent|apply Hq7|]. intros out w8 Hq8.
    destruct out as [[]|err|why]; [|done..]. apply IH; [apply Hq8|].
    by rewrite (q_registry _ _ Hq8), (q_registry _ _ Hq7), (q_registry _ _ Hq6).
Qed.

(** The reservation of a job made against the registry of [w0]. *)
Definition reservation_of (job : Job (C := C)) (w0 : W) (reservation : Z) : Prop :=
  ∃ inp outp, routing.HighestPrices (selection job ∅ 0) (routing.sys_router (router w0)) = Ok (inp, outp) ∧
    budget.CostMicroUSD (estimatePromptTokens (request.in_Messages (job_input job)))
      (max_completion (job_service job) (job_input job)) inp outp = Ok reservation.

Lemma highest_prices_wp (sel : routing.Selection) (w0 : W) (Q : res (Z * Z) → W → Prop) (w : W) :
  quiet_step w0 w →
  (∀ out w', quiet_step w0 w' →
     out = routing.HighestPrices sel (routing.sys_router (router w0)) → Q out w') →
  wp (highest_prices env sel) Q w.
Proof.
  intros Hq HQ. apply wp_bind. destruct (next_spec w (q_wf _ _ Hq)) as (w1 & Hn & Hq1 & _).
  unfold wp at 1. rewrite Hn. simpl. unfold wp, act. simpl.
  assert (quiet_step w0 w1) as Hq01 by by eapply quiet_trans.
  apply HQ; [done|]. apply routing.HighestPrices_static, Hq01.
Qed.

Lemma run_admitted_priced (job : Job) (w0 w : W) :
  quiet_step w0 w →
  wp (run_admitted env job)
     (λ out _, ∀ o, out = Ok o → priced job (registry w0) o) w.
Proof.
  intros Hq. unfold run_admitted.
  apply wp_bind, wp_caught. apply (highest_prices_wp _ w0); [done|].
  intros out w1 Hq1 Hout. destruct out as [[inp outp]|err|why]; [|by apply fails_wp; intros []|done].
  apply wp_bind, wp_lift. destruct (budget.CostMicroUSD _ _ _ _) as [reservation|e|why]; [|done..].
  apply wp_bind, wp_silent; [auto with silent|apply Hq1|]. intros out w2 Hq2.
  destruct out as [now|e|why]; [|done..].
  apply wp_bind, wp_caught, wp_silent; [auto with silent|apply Hq2|]. intros out w3 Hq3.
  destruct out as [[]|err|why]; [|by apply fails_wp; intros []|done].
  apply wp_bind, wp_silent; [auto with silent|apply Hq3|]. intros out w4 Hq4.
  destruct out as [[]|e|why]; [|done..].
  apply wp_bind, wp_silent; [auto with silent|apply Hq4|]. intros out w5 Hq5.
  destruct out as [[]|e|why]; [|done..].
  assert (quiet_step w0 w5) as Hq05
    by exact (quiet_trans _ _ _ (quiet_trans _ _ _ (quiet_trans _ _ _ (quiet_trans _ _ _ Hq1 Hq2) Hq3)
                Hq4) Hq5).
  apply wp_bind. eapply wp_mono; [apply (attempt_loop_priced job (registry w0)); apply Hq05|].
  intros out w6 Hl. destruct out as [e|err|why]; [|done..].
  destruct e as [o|lastErr finalized]; simpl.
  - intros o' [= <-]. by apply Hl.
  - apply wp_any; [by intros []|]. intros _ w7. by apply fails_wp; intros [].
Qed.
End Proofs.
End gateway_proofs.
