(* ===== verification/GatewayEffects.v ===== *)
(** * GatewayEffects: what a request does to the store

    [GatewayProofs] leaves the store alone; here the calls on it are followed, against
    its interface: a result that was returned is durable whatever other clients do, and
    the cost of a completed request is covered by the amount that the service reserved
    for it. *)

From S2P Require Import Prelude Golib Request Budget Auth CircuitBreaker Provider Routing RateLimit.
From S2P Require Import Store Gateway GatewayProofs.

Module gateway_effects.
Import gateway gateway_proofs.

(** ** Steps that preserve a property of the store

    [I n s] is an invariant of the store at the n-th step and [K] relates the stores
    before and after. When the calls of the request and of the others respect both, so
    does every part of the request but the creation. *)

Create HintDb preserved.
Create HintDb silent.

Section Preserved.
Context {S : Type} `{persistence.Store S}.
Context {R : Type} `{redis.Server R}.
Context {P : Type} `{provider.Interface P}.
Context {C : Type}.
Context {env : Env} {I : nat → S → Prop} {K : relation S} {Horder : PreOrder K}.

Abbreviation W := (@World S R P C).

Class Respected : Prop := {
  by_others n s : I n s →
    I (Datatypes.S n) (others_store env n s) ∧ K s (others_store env n s);
  by_call io c n s : persistence.draws c = false → I n s →
    I n (persistence.perform io c s).2 ∧ K s (persistence.perform io c s).2;
  by_policy io t model n s : I n s →
    I n (persistence.GetTenantPolicy io t model s).2 ∧ K s (persistence.GetTenantPolicy io t model s).2
}.

Definition preserves (w w' : W) : Prop := I (tick w') (store w') ∧ K (store w) (store w').
Definition preserved {A} (m : M W A) : Prop := ∀ w, I (tick w) (store w) → preserves w (m w).2.

Context `{Hrespected : Respected}.

Lemma preserves_refl (w : W) : I (tick w) (store w) → preserves w w.
Proof. by split. Qed.
Lemma preserves_trans (w1 w2 w3 : W) : preserves w1 w2 → preserves w2 w3 → preserves w1 w3.
Proof. intros [G1 K1] [G2 K2]. split; [done|by etrans]. Qed.

Lemma preserved_wp {A} (m : M W A) (Q : res A → W → Prop) (w : W) :
  preserved m → I (tick w) (store w) → (∀ out w', preserves w w' → Q out w') → wp m Q w.
Proof. intros Hm Hw HQ. by apply HQ, Hm. Qed.

Lemma preserved_ret {A} (a : A) : preserved (mret a).
Proof. intros w Hw. by apply preserves_refl. Qed.
Lemma preserved_fail {A} (e : error) : preserved (fail e : M W A).
Proof. intros w Hw. by apply preserves_refl. Qed.
Lemma preserved_bind {A B} (m : M W A) (f : A → M W B) :
  preserved m → (∀ a, preserved (f a)) → preserved (m ≫= f).
Proof.
  intros Hm Hf w Hw. unfold mbind, M_bind. specialize (Hm w Hw).
  destruct (m w) as [[a|e|why] w']; simpl in *; [|done..].
  eapply preserves_trans; [exact Hm|]. apply Hf, Hm.
Qed.
Lemma preserved_caught {A} (m : M W A) : preserved m → preserved (caught m).
Proof. intros Hm w Hw. unfold caught. specialize (Hm w Hw). by destruct (m w) as [[] w']. Qed.
Lemma preserved_ignore {A} (m : M W A) : preserved m → preserved (ignore m).
Proof. intros Hm w Hw. unfold ignore. specialize (Hm w Hw). by destruct (m w) as [[] w']. Qed.

#[local] Hint Resolve preserved_ret preserved_fail preserved_caught preserved_ignore : preserved.
#[local] Hint Extern 1 (preserved (_ ≫= _)) => apply preserved_bind; [|intros ?] : preserved.

Lemma next_store (w : W) :
  store (next env w).2 = others_store env (tick w) (store w) ∧ tick (next env w).2 = Datatypes.S (tick w).
Proof. unfold next. by destruct (others_router _ _ _). Qed.

Lemma preserved_next : preserved (next env).
Proof.
  intros w Hw. unfold preserves. destruct (next_store w) as [-> ->]. by apply by_others.
Qed.
#[local] Hint Resolve preserved_next : preserved.

Lemma preserved_clock : preserved (clock env).
Proof. unfold clock. auto with preserved. Qed.
#[local] Hint Resolve preserved_clock : preserved.

(** A step that leaves the store alone. *)
Lemma preserved_same {A} (m : M W A) :
  (∀ w, store (m w).2 = store w ∧ tick (m w).2 = tick w) → preserved m.
Proof. intros Hm w Hw. unfold preserves. by destruct (Hm w) as [-> ->]. Qed.

Lemma preserved_on_store {A} (f : IO → M S A) :
  (∀ io n s, I n s → I n (f io s).2 ∧ K s (f io s).2) → preserved (on_store env f).
Proof.
  intros Hf. apply preserved_bind; [auto with preserved|]. intros io w Hw. unfold act.
  specialize (Hf io (tick w) (store w) Hw). by destruct (f io (store w)).
Qed.

(** A call of the store that creates nothing. *)
Lemma preserved_call (c : persistence.call) (f : IO → M S unit) :
  persistence.draws c = false → (∀ io, ∃ io', f io = persistence.perform io' c) →
  preserved (on_store env f).
Proof.
  intros Hd Hf. apply preserved_on_store. intros io n s Hs. destruct (Hf io) as [io' ->].
  by apply by_call.
Qed.

Lemma preserved_on_server {A} (f : IO → M R A) : preserved (on_server env f).
Proof.
  apply preserved_bind; [auto with preserved|]. intros io. apply preserved_same. intros w. unfold act.
  by destruct (f io (server w)).
Qed.
#[local] Hint Resolve preserved_on_server : preserved.

Lemma preserved_select (sel : routing.Selection) : preserved (select env sel).
Proof.
  apply preserved_bind; [auto with preserved|]. intros now. apply preserved_same. intros w. unfold act.
  by destruct (routing.Select _ _ _) as [[] ?].
Qed.

Lemma preserved_on_lease (k : nat) f : preserved (on_lease k f).
Proof.
  apply preserved_same. intros w. unfold on_lease. destruct (_ !! k); [|done].
  by destruct (f _ _) as [[] ?].
Qed.
#[local] Hint Resolve preserved_select preserved_on_lease : preserved.

Lemma preserved_lease_failure (k : nat) (b : bool) : preserved (lease_failure env k b).
Proof. unfold lease_failure. auto with preserved. Qed.
Lemma preserved_lease_success (k : nat) (t : time.Time) : preserved (lease_success env k t).
Proof. unfold lease_success. auto with preserved. Qed.

Lemma preserved_provider (service : Service) (h : routing.Handle) (id : string)
  (input : request.ChatInput) emit : preserved (call env service h id input emit).
Proof.
  apply preserved_bind; [auto with preserved|]. intros io. apply preserved_same. intros w. unfold act.
  destruct (providers w !! _); [|done]. destruct emit.
  - destruct (provider.Stream _ _ _). destruct (provider.run_stream _ _ _) as [[] [[] ?]]; done.
  - by destruct (provider.Complete _ _ _) as [[] ?].
Qed.
#[local] Hint Resolve preserved_lease_failure preserved_lease_success preserved_provider : preserved.

Lemma preserved_release (permits : list (option ratelimit.Permit)) :
  preserved (releasePermits env permits).
Proof.
  induction permits as [|p permits IH]; simpl; [auto with preserved|].
  apply preserved_bind; [|done]. apply preserved_ignore, preserved_on_server.
Qed.

Lemma preserved_backoff (initial maximum : time.Duration) (attempt : Z) :
  preserved (waitBackoff env initial maximum attempt).
Proof. apply preserved_bind; [auto with preserved|]. intros io. destruct (io_ctx io 0); auto with preserved. Qed.

Lemma preserved_move (p : auth.Principal) (r : request.LogicalRequest) (from to : request.State) :
  preserved (move env p r from to).
Proof. by apply (preserved_call (persistence.CTransition (auth.TenantID p) (request.ID r) from to)); eauto. Qed.
#[local] Hint Resolve preserved_release preserved_backoff preserved_move : preserved.
Lemma preserved_start (p : persistence.AttemptParams) :
  preserved (on_store env (λ io, persistence.StartAttempt io p)).
Proof. by apply (preserved_call (persistence.CStart p)); eauto. Qed.
Lemma preserved_fail_attempt (p : persistence.FailureParams) :
  preserved (on_store_detached env (λ io, persistence.FailAttempt io p)).
Proof.
  apply (preserved_call (persistence.CFail p)); [done|]. intros io. by exists (without_cancel io).
Qed.
Lemma preserved_reconcile (id : string) (amount : Z) :
  preserved (on_store_detached env (λ io, persistence.ReconcileBudget io id amount)).
Proof.
  apply (preserved_call (persistence.CReconcile id amount)); [done|].
  intros io. by exists (without_cancel io).
Qed.
Lemma preserved_reserve (t id : string) (amount : Z) (now : time.Time) :
  preserved (on_store env (λ io, persistence.ReserveBudget io t id amount now)).
Proof. by apply (preserved_call (persistence.CReserve t id amount now)); eauto. Qed.
Lemma preserved_reject (t id c : string) (amount : Z) :
  preserved (on_store_detached env (λ io, persistence.RejectBudget io t id c amount)).
Proof.
  apply (preserved_call (persistence.CReject t id c amount)); [done|].
  intros io. by exists (without_cancel io).
Qed.
Lemma preserved_policy (t model : string) :
  preserved (on_store env (λ io, persistence.GetTenantPolicy io t model)).
Proof.
  apply preserved_on_store. intros io n s Hs. by apply by_policy.
Qed.
Lemma preserved_prices (sel : routing.Selection) : preserved (highest_prices env sel).
Proof. apply preserved_bind; [auto with preserved|]. intros _. by apply preserved_same. Qed.
#[local] Hint Resolve preserved_start preserved_fail_attempt preserved_reconcile preserved_reserve
  preserved_reject preserved_policy preserved_prices : preserved.

Lemma preserved_conclude_broke (job : Job) (lastErr : option error) (finalized : bool) :
  preserved (conclude env job (Broke lastErr finalized)).
Proof.
  simpl. apply preserved_bind; [destruct finalized; auto with preserved|]. intros _. auto with preserved.
Qed.
#[local] Hint Resolve preserved_conclude_broke : preserved.

Lemma preserved_admit (service : Service) (principal : auth.Principal)
  (policy : persistence.TenantPolicy) (tokens : Z) : preserved (Service_admit env service principal policy tokens).
Proof.
  unfold Service_admit. destruct (limiter service) as [l|]; [|apply preserved_ret].
  generalize (@nil (option ratelimit.Permit)).
  generalize ["tenant:" +:+ auth.TenantID principal; "key:" +:+ auth.APIKeyID principal].
  intros buckets. induction buckets as [|b buckets IH]; intros permits; simpl; [apply preserved_ret|].
  apply preserved_bind; [auto with preserved|]. intros [[d p]|e]; [|auto with preserved].
  destruct (ratelimit.Allowed d); simpl; [apply IH|auto with preserved].
Qed.
#[local] Hint Resolve preserved_admit : preserved.

End Preserved.

Arguments Respected {S _} env I K.
Arguments preserves {S R P C} I K w w'.
Arguments preserved {S R P C} I K {A} m.

#[global] Hint Resolve preserved_ret preserved_fail preserved_caught preserved_ignore
  preserved_next preserved_clock preserved_on_server preserved_select preserved_on_lease
  preserved_lease_failure preserved_lease_success preserved_provider preserved_release
  preserved_backoff preserved_move preserved_start preserved_fail_attempt preserved_reconcile
  preserved_reserve preserved_reject preserved_policy preserved_prices preserved_conclude_broke
  preserved_admit : preserved.
#[global] Hint Extern 1 (preserved _ _ (_ ≫= _)) => apply preserved_bind; [|intros ?] : preserved.

(** ** Durable results *)

Section Durable.
Context {S : Type} `{persistence.Spec S}.
Context {R : Type} `{redis.Server R}.
Context {P : Type} `{provider.Interface P}.
Context {C : Type}.
Context (env : Env) (json_Marshal : request.ChatInput → res string) (sha256 : string → string).

Abbreviation W := (@World S R P C).
Abbreviation lookup_request := persistence.lookup_request.

(** The identifiers that other clients draw just before the n-th step, in order. While the
    request runs they may do anything to the store, create requests included; random
    identifiers do not repeat. *)
Definition creations (l : list (IO * persistence.call)) : list string :=
  (λ ic, persistence.drawn ic.1) <$> List.filter (λ ic, persistence.draws ic.2) l.
Definition drawn_at (n : nat) : list string := creations (env_store env n).
Record distinct_draws : Prop := {
  drawn_once n : NoDup (drawn_at n);
  drawn_apart n m id : (n < m)%nat → id ∈ drawn_at n → id ∉ drawn_at m
}.
Context (Hdraws : distinct_draws).

(** The store is good and knows none of the identifiers that will be drawn from the
    n-th step on. *)
Definition sound (n : nat) (s : S) : Prop :=
  persistence.good s ∧ ∀ m id, (n <= m)%nat → id ∈ drawn_at m → lookup_request s id = None.

(** Final records survive. *)
Definition kept (s s' : S) : Prop :=
  ∀ id r, lookup_request s id = Some r → request.terminal (request.state r) = true →
    lookup_request s' id = Some r.

#[local] Instance kept_preorder : PreOrder kept.
Proof. split; [by intros s id r|]. intros s1 s2 s3 K1 K2 id r Hr Ht. apply K2; [by apply K1|done]. Qed.

Abbreviation store_keeps := (preserves sound kept).

(** A call, with the identifier it draws unknown so far. *)
Lemma perform_kept (io : IO) (c : persistence.call) (s : S) :
  persistence.good s → (persistence.draws c = true → lookup_request s (persistence.drawn io) = None) →
  persistence.good (persistence.perform io c s).2 ∧ kept s (persistence.perform io c s).2.
Proof.
  intros Hg Hd.
  assert (persistence.draws c = true → persistence.fresh io s) as Hf.
  { intros Hc. apply persistence.spec_fresh; auto. }
  split; [by apply persistence.spec_good|]. intros id r Hr Ht.
  destruct (persistence.spec_evolves io c s id r) as (r' & Hr' & Hev); [done..|].
  by rewrite Hr', (persistence.ev_final _ _ Hev Ht).
Qed.

Lemma perform_sound (io : IO) (c : persistence.call) (n : nat) (s : S) :
  sound n s → persistence.draws c = false →
  sound n (persistence.perform io c s).2 ∧ kept s (persistence.perform io c s).2.
Proof.
  intros [Hg Hs] Hd. destruct (perform_kept io c s Hg) as [Hg' Hk]; [congruence|].
  split; [|done]. split; [done|]. intros m id Hm Hid.
  apply persistence.spec_drawn; [done|congruence|]. by apply (Hs m).
Qed.

(** The calls of others, with new identifiers each. *)
Lemma calls_kept (l : list (IO * persistence.call)) (s : S) :
  persistence.good s → NoDup (creations l) → (∀ id, id ∈ creations l → lookup_request s id = None) →
  let s' := foldl (λ s ic, (persistence.perform ic.1 ic.2 s).2) s l in
  persistence.good s' ∧ kept s s' ∧
  (∀ id, id ∉ creations l → lookup_request s id = None → lookup_request s' id = None).
Proof.
  revert s. induction l as [|[io c] l IH]; intros s Hg Hnd Hnew; simpl; [by split_and!|].
  assert (persistence.draws c = true → creations ((io, c) :: l) = persistence.drawn io :: creations l) as Hcons
    by (unfold creations; simpl; by intros ->).
  assert (∀ id, id ∈ creations l → id ∈ creations ((io, c) :: l)) as Hsub.
  { intros id. unfold creations. simpl. destruct (persistence.draws c); [by right|done]. }
  destruct (perform_kept io c s Hg) as [Hg1 Hk1].
  { intros Hc. apply Hnew. rewrite Hcons by done. by left. }
  destruct (IH (persistence.perform io c s).2) as (Hg2 & Hk2 & Hn2); [done| | |].
  { unfold creations in *. simpl in Hnd. by destruct (persistence.draws c); [apply NoDup_cons in Hnd as [_ ?]|]. }
  { intros id Hid. apply persistence.spec_drawn; [done| |by apply Hnew, Hsub].
    intros Hc ->. rewrite Hcons in Hnd by done. by apply NoDup_cons in Hnd as [? _]. }
  split_and!; [done| |].
  - by etrans.
  - intros id Hid Hr. apply Hn2; [by intros ?%Hsub|]. apply persistence.spec_drawn; [done| |done].
    intros Hc ->. apply Hid. rewrite Hcons by done. by left.
Qed.

Lemma others_keeps (n : nat) (s : S) : sound n s →
  sound (Datatypes.S n) (others_store env n s) ∧ kept s (others_store env n s) ∧
  (∀ id, id ∉ drawn_at n → lookup_request s id = None → lookup_request (others_store env n s) id = None).
Proof.
  intros [Hg Hs]. unfold others_store.
  destruct (calls_kept (env_store env n) s Hg (drawn_once Hdraws n)) as (Hg' & Hk & Hn).
  { intros id Hid. by apply (Hs n). }
  split_and!; [split; [done|]|done|done]. intros m id Hm Hid. apply Hn; [|by apply (Hs m); [lia|]].
  intros Hin. by apply (drawn_apart Hdraws n m id).
Qed.

#[local] Instance sound_respected : Respected env sound kept.
Proof.
  split.
  - intros n s Hs. by destruct (others_keeps n s Hs) as (? & ? & _).
  - intros io c n s Hd Hs. by apply perform_sound.
  - intros io t model n s Hs. by rewrite persistence.spec_policy.
Qed.
#[local] Hint Resolve kept_preorder sound_respected : preserved.
Abbreviation durable := (preserved sound kept).

(** The store holds the outcome's request, completed with its response and cost. *)
Definition completed_in (o : Outcome) (w : W) : Prop :=
  ∃ r, lookup_request (store w) (request.ID (record o)) = Some r ∧
       request.state r = request.Completed ∧ request.Response r = response o ≫= persistence.durable_response ∧
       request.CostMicroUSD r = request.CostMicroUSD (record o).

Lemma completed_kept (o : Outcome) (w w' : W) :
  store_keeps w w' → completed_in o w → completed_in o w'.
Proof.
  intros [_ Hk] (r & Hr & Hs & Hrest). exists r. split; [|done]. apply Hk; [done|]. by rewrite Hs.
Qed.

(** Every returned outcome satisfies [completed_in]. *)
Definition records {A} (outcome : A → option Outcome) (w : W) (out : res A) (w' : W) : Prop :=
  store_keeps w w' ∧
  ∀ a o, out = Ok a → outcome a = Some o → completed_in o w'.

(** Rules: an end that carries no outcome, a durable step before the rest, and
    a durable step before an error. *)
Lemma records_end {A} (outcome : A → option Outcome) (w0 w : W) (out : res A) :
  store_keeps w0 w → (∀ a, out = Ok a → outcome a = None) →
  records outcome w0 out w.
Proof. intros Hk Hno. split; [done|]. intros a o Ha Ho. by rewrite (Hno a Ha) in Ho. Qed.

Lemma records_bind {A B} (outcome : B → option Outcome) (m : M W A) (f : A → M W B) (w0 w : W) :
  durable m → store_keeps w0 w →
  (∀ a w', store_keeps w0 w' → wp (f a) (records outcome w0) w') →
  wp (m ≫= f) (records outcome w0) w.
Proof.
  intros Hm Hk Hf. apply wp_bind, (preserved_wp (I := sound) (K := kept)); [done|apply Hk|]. intros out w' Hk'.
  assert (store_keeps w0 w') by by eapply preserves_trans.
  destruct out; [by apply Hf|by apply records_end..].
Qed.

Lemma records_fails {A B} (outcome : B → option Outcome) (m : M W A) (e : error) (w0 w : W) :
  durable m → store_keeps w0 w → wp (m ≫= λ _, fail e) (records outcome w0) w.
Proof. intros Hm Hk. apply records_bind; [done..|]. intros _ w' Hk'. by apply records_end. Qed.

Lemma complete_wp (p : persistence.CompletionParams) (w : W) :
  sound (tick w) (store w) →
  wp (on_store env (λ io, persistence.CompleteRequest io p))
     (λ out w', store_keeps w w' ∧
        (out = Ok () → ∃ r, lookup_request (store w') (persistence.co_RequestID p) = Some r ∧
           request.state r = request.Completed ∧
           request.Response r = persistence.durable_response (persistence.co_Response p) ∧
           request.CostMicroUSD r = persistence.co_CostMicroUSD p)) w.
Proof.
  intros Hg. split.
  - apply (preserved_call (persistence.CComplete p)); [done|eauto|done].
  - unfold on_store, mbind, M_bind. pose proof (preserved_next (I := sound) (K := kept) w Hg) as Hn.
    destruct (next env w) as [[io|e|why] w1]; simpl in *; [|done..]. unfold act.
    destruct (persistence.CompleteRequest io p (store w1)) as [out s] eqn:Hc. simpl.
    intros ->. eapply persistence.spec_complete, Hc. apply Hn.
Qed.

Lemma finish_records (job : Job) (number : Z) (k : nat) (lease : routing.Lease)
  (started : time.Time) (completion : provider.Completion) (w0 w : W) :
  store_keeps w0 w →
  wp (finish env job number k lease started completion) (records Some w0) w.
Proof.
  intros Hk. unfold finish.
  destruct (budget.CostMicroUSD _ _ _ _) as [cost|e|why];
    [|apply records_fails; auto with preserved|by apply records_end].
  apply records_bind; [auto with preserved|done|]. intros now w1 Hk1.
  apply wp_bind, wp_caught. eapply wp_mono; [apply complete_wp; apply Hk1|].
  intros out w2 [Hk12 Hdone].
  assert (store_keeps w0 w2) as Hk2 by by eapply preserves_trans.
  destruct out as [[]|err|why]; [|apply records_fails; auto with preserved|by apply records_end].
  destruct (Hdone eq_refl) as (r & Hr & Hst & Hresp & Hcost). simpl in *.
  (* the rest keeps the final record of [w2] *)
  eapply wp_mono; [apply (records_bind Some _ _ w2); [auto with preserved| |]|].
  - by apply preserves_refl; apply Hk2.
  - intros _ w3 Hk3. apply records_bind; [auto with preserved|done|]. intros _ w4 Hk4.
    split; [done|]. intros a o [= <-] [= <-]. eapply (completed_kept _ w2); [done|]. by exists r.
  - intros out w5 [Hk5 Hrec]. split; [by eapply preserves_trans|done].
Qed.

Definition returned (e : loop_end) : option Outcome :=
  match e with Returned o => Some o | Broke _ _ => None end.

Lemma attempt_loop_records (job : Job) (remaining : nat) (number : Z) (excluded : gset string)
  (lastErr : option error) (w0 w : W) :
  store_keeps w0 w →
  wp (attempt_loop env job remaining number excluded lastErr) (records returned w0) w.
Proof.
  revert number excluded lastErr w.
  induction remaining as [|remaining IH]; intros number excluded lastErr w Hk; simpl.
  { apply wp_ret, records_end; [done|]. by intros a [= <-]. }
  apply records_bind; [auto with preserved|done|]. intros now w1 Hk1.
  apply records_bind; [auto with preserved|done|]. intros [[k l]|e] w2 Hk2.
  2: { apply wp_ret, records_end; [done|]. by intros a [= <-]. }
  apply records_bind; [auto with preserved|done|]. intros [[]|e] w3 Hk3;
    [|apply records_fails; auto with preserved].
  apply records_bind; [auto with preserved|done|]. intros started w4 Hk4.
  apply records_bind; [auto with preserved|done|]. intros [[completion|callErr] partial] w5 Hk5.
  { apply wp_bind. eapply wp_mono; [by apply finish_records|].
    intros out w6 [Hk6 Hrec]. destruct out as [o|e|why]; [|by apply records_end..].
    split; [done|]. intros a o' [= <-] [= <-]. by eapply Hrec. }
  apply records_bind; [auto with preserved|done|]. intros _ w6 Hk6.
  apply records_bind; [auto with preserved|done|]. intros [[]|e] w7 Hk7;
    [|by apply wp_fail, records_end].
  destruct (negb _). { apply wp_ret, records_end; [done|]. by intros a [= <-]. }
  apply records_bind; [auto with preserved|done|]. intros [[]|e] w8 Hk8; [by apply IH|].
  apply wp_ret, records_end; [done|]. by intros a [= <-].
Qed.

Lemma run_admitted_records (job : Job) (w0 w : W) :
  store_keeps w0 w → wp (run_admitted env job) (records Some w0) w.
Proof.
  intros Hk. unfold run_admitted.
  apply records_bind; [auto with preserved|done|]. intros [[inp outp]|err] w1 Hk1;
    [|apply records_fails; auto with preserved].
  apply wp_bind, wp_lift. destruct (budget.CostMicroUSD _ _ _ _) as [reservation|e|why];
    [|by apply records_end..].
  apply records_bind; [auto with preserved|done|]. intros now w2 Hk2.
  apply records_bind; [auto with preserved|done|]. intros [[]|err] w3 Hk3.
  2: { apply records_fails; [|done]. destruct (errors.Is _ _); auto with preserved. }
  apply records_bind; [auto with preserved|done|]. intros _ w4 Hk4.
  apply records_bind; [auto with preserved|done|]. intros _ w5 Hk5.
  apply wp_bind. eapply wp_mono; [by apply attempt_loop_records|].
  intros out w6 [Hk6 Hrec]. destruct out as [e|err|why]; [|by apply records_end..].
  destruct e as [o|lastErr finalized].
  - split; [done|]. intros a o' [= <-] [= <-]. by apply (Hrec (Returned o)).
  - apply records_bind; [destruct finalized; auto with preserved|done|]. intros _ w7 Hk7.
    apply records_fails; auto with preserved.
Qed.

(** The outcomes that are not replays. *)
Definition new_outcome (o : Outcome) : option Outcome := if Replayed o then None else Some o.

Lemma deferred_records (d : M W unit) (m : M W Outcome) (w0 w : W) :
  durable d → wp m (records Some w0) w → wp (deferred d m) (records new_outcome w0) w.
Proof.
  intros Hd Hm. unfold wp, deferred in *. destruct (m w) as [out w1]. destruct Hm as [Hk Hrec].
  simpl in *. pose proof (Hd w1 (proj1 Hk)) as Hk1.
  assert (records new_outcome w0 out (d w1).2) as Hout.
  { split; [by eapply preserves_trans|]. intros o o' -> Ho. unfold new_outcome in Ho.
    destruct (Replayed o); simplify_eq. eapply completed_kept; [done|]. by eapply Hrec. }
  destruct (d w1) as [[] w2]; simpl in *; [done..|]. by apply records_end; [apply Hout|].
Qed.

(** Creating the request, with an identifier of its own. *)
Lemma create_wp (p : persistence.CreateRequestParams) (w : W) :
  sound (tick w) (store w) →
  lookup_request (store w) (persistence.drawn (env_io env (tick w))) = None →
  (∀ n, (tick w <= n)%nat → persistence.drawn (env_io env (tick w)) ∉ drawn_at n) →
  wp (on_store env (λ io, persistence.CreateOrGetRequest io p))
     (λ _ w', sound (tick w') (store w')) w.
Proof.
  intros Hs Hnew Hown. unfold on_store, wp, mbind, M_bind.
  destruct (others_keeps (tick w) (store w) Hs) as ([Hg Hs1] & _ & Hn).
  pose proof (Hn _ (Hown (tick w) (le_n _)) Hnew) as Hnew1.
  destruct (next_store (env := env) w) as [Hst Htk]. destruct (next env w) as [[io|e|why] w1] eqn:Hnx; simpl in *;
    [|by rewrite Hst, Htk..].
  assert (io = env_io env (tick w)) as ->.
  { unfold next in Hnx. destruct (others_router _ _ _); simplify_eq/=. done. }
  destruct (perform_kept (env_io env (tick w)) (persistence.CCreate p) _ Hg (λ _, Hnew1)) as [Hg2 _].
  assert (∀ m id, (Datatypes.S (tick w) <= m)%nat → id ∈ drawn_at m → lookup_request (persistence.perform
    (env_io env (tick w)) (persistence.CCreate p) (others_store env (tick w) (store w))).2 id = None) as Hs2.
  { intros m id Hm Hid. apply persistence.spec_drawn; [done| |by apply (Hs1 m)].
    intros _ ->. by apply (Hown m); [lia|]. }
  unfold act. rewrite Hst. simpl in Hg2, Hs2. unfold mbind, M_bind in Hg2, Hs2.
  destruct (persistence.CreateOrGetRequest _ _ _) as [[] s']; simpl in *; by rewrite Htk.
Qed.

(** What the identifiers have to satisfy for a request that starts at [w]: the one it
    draws and those that others draw from then on are unknown to the store, and the
    request's own is none of the others'. *)
Record new_identifiers (w : W) : Prop := {
  own_unknown : lookup_request (store w) (persistence.drawn (env_io env (tick w))) = None;
  own_apart n : (tick w <= n)%nat → persistence.drawn (env_io env (tick w)) ∉ drawn_at n;
  others_unknown n id : (tick w <= n)%nat → id ∈ drawn_at n → lookup_request (store w) id = None
}.

(** C2 (refinement): a result the gateway returns is durable. Against any
    store that keeps its contract, when a request returns a new completed
    outcome, the store holds that request in state COMPLETED with the returned
    cost and the returned response, as the store reads it back
    ([durable_response], the identity for the memory store), whatever other
    clients did to the store while it ran and until it returned: create requests,
    transition, complete, fail or cancel any of them (this one included), reserve and
    settle budgets. The only condition is that random identifiers do not repeat. *)
Theorem completion_durable (service : Service) (principal : auth.Principal)
  (key correlation : string) (input : request.ChatInput)
  (emit : option (provider.Chunk → C → option error * C)) (w w' : W) (o : Outcome)
  (Hg : persistence.good (store w))
  (Hids : new_identifiers w)
  (Hrun : execute json_Marshal sha256 env service principal key correlation input emit w = (Ok o, w'))
  (Hnew : Replayed o = false) :
  ∃ r, persistence.lookup_request (store w') (request.ID (record o)) = Some r ∧
       request.state r = request.Completed ∧ request.Response r = response o ≫= persistence.durable_response ∧
       request.CostMicroUSD r = request.CostMicroUSD (record o).
Proof.
  enough (wp (execute json_Marshal sha256 env service principal key correlation input emit)
             (λ out w', ∀ o, out = Ok o → Replayed o = false → completed_in o w') w) as Hwp.
  { unfold wp in Hwp. rewrite Hrun in Hwp. by apply Hwp. }
  clear Hrun Hnew w' o. unfold execute.
  apply wp_bind, wp_lift. destruct (request.Validate input); [|done..].
  apply wp_bind, wp_lift. destruct (idempotency.HashChat json_Marshal sha256 input); [|done..].
  assert (sound (tick w) (store w)) as Hsound by (split; [done|apply Hids]).
  apply wp_bind. eapply wp_mono; [by apply create_wp; [|apply Hids..]|]. intros out w1 Hg1.
  destruct out as [[r created]|e|why]; [|done..]. destruct created; simpl.
  2: { destruct (request.Response r); [destruct (bool_decide _)|]; by intros o [= <-]. }
  eapply (wp_mono _ (records new_outcome w1)).
  2: { intros out w2 [_ Hrec] o Ho Hn. apply (Hrec o o Ho). unfold new_outcome. by rewrite Hn. }
  pose proof (preserves_refl (K := kept) _ Hg1) as Hk1.
  apply records_bind; [auto with preserved|done|]. intros _ w2 Hk2.
  apply records_bind; [auto with preserved|done|]. intros [policy|e] w3 Hk3;
    [|apply records_fails; auto with preserved].
  apply records_bind; [auto with preserved|done|]. intros [permits|e] w4 Hk4;
    [|apply records_fails; auto with preserved].
  apply deferred_records; [auto with preserved|]. by apply run_admitted_records.
Qed.
End Durable.

(** ** What is reserved and what is charged

    A store that keeps a ledger of the calls made on it, with whether they succeeded,
    and otherwise is any store at all: what a request did to its store is read off the
    ledger. *)

Definition entry : Type := persistence.call * bool.

Record Ledger (S : Type) : Type := mkLedger { inner : S; made : list entry }.
Arguments mkLedger {S} inner made.
Arguments inner {S} l.
Arguments made {S} l.

Section Ledger.
Context {S : Type} `{persistence.Store S}.

(** A call that is entered in the ledger, and one that is not. *)
Definition entered {A} (c : persistence.call) (m : M S A) : M (Ledger S) A := λ l,
  let '(out, s) := m (inner l) in (out, mkLedger s (made l ++ [(c, is_ok out)])).
Definition passed {A} (m : M S A) : M (Ledger S) A := λ l,
  let '(out, s) := m (inner l) in (out, mkLedger s (made l)).

#[global] Instance ledger_store : persistence.Store (Ledger S) := {
  FindAPIKeyByPrefix io p := passed (persistence.FindAPIKeyByPrefix io p);
  CreateOrGetRequest io p := entered (persistence.CCreate p) (persistence.CreateOrGetRequest io p);
  GetRequest io t id := passed (persistence.GetRequest io t id);
  TransitionRequest io t id from to :=
    entered (persistence.CTransition t id from to) (persistence.TransitionRequest io t id from to);
  StartAttempt io p := entered (persistence.CStart p) (persistence.StartAttempt io p);
  CompleteRequest io p := entered (persistence.CComplete p) (persistence.CompleteRequest io p);
  FailAttempt io p := entered (persistence.CFail p) (persistence.FailAttempt io p);
  CancelRequest io t id c := entered (persistence.CCancel t id c) (persistence.CancelRequest io t id c);
  GetTenantPolicy io t model := passed (persistence.GetTenantPolicy io t model);
  ReserveBudget io t id a now :=
    entered (persistence.CReserve t id a now) (persistence.ReserveBudget io t id a now);
  RejectBudget io t id c a :=
    entered (persistence.CReject t id c a) (persistence.RejectBudget io t id c a);
  ReconcileBudget io id a := entered (persistence.CReconcile id a) (persistence.ReconcileBudget io id a)
}.

(** Every call adds exactly one entry. *)
Lemma perform_entered (io : IO) (c : persistence.call) (l : Ledger S) :
  made (persistence.perform io c l).2 = made l ++ [(c, is_ok (persistence.perform io c l).1)].
Proof.
  destruct c; simpl; unfold mbind, M_bind, entered;
    match goal with |- context [?m (inner l)] => by destruct (m (inner l)) as [[] s] end.
Qed.

(** Between two ledgers the entries [es] were made, in this order, among others. *)
Definition gained (es : list entry) (l l' : Ledger S) : Prop :=
  ∃ new, made l' = made l ++ new ∧ es `sublist_of` new.

Lemma gained_trans (es1 es2 : list entry) (l1 l2 l3 : Ledger S) :
  gained es1 l1 l2 → gained es2 l2 l3 → gained (es1 ++ es2) l1 l3.
Proof.
  intros (n1 & H1 & S1) (n2 & H2 & S2). exists (n1 ++ n2).
  split; [by rewrite H2, H1, (assoc_L (++))|by apply sublist_app].
Qed.

#[global] Instance gained_preorder : PreOrder (gained []).
Proof.
  split; [intros l; exists []; by rewrite app_nil_r|].
  intros l1 l2 l3. apply (gained_trans [] []).
Qed.

Lemma perform_gained (io : IO) (c : persistence.call) (l : Ledger S) :
  gained [(c, is_ok (persistence.perform io c l).1)] l (persistence.perform io c l).2.
Proof. eexists. split; [apply perform_entered|done]. Qed.

Lemma gained_more (es : list entry) (l l' : Ledger S) : gained es l l' → gained [] l l'.
Proof. intros (new & Hnew & _). exists new. split; [done|apply sublist_nil_l]. Qed.

Context {R : Type} `{redis.Server R}.
Context {P : Type} `{provider.Interface P}.
Context {C : Type}.
Context (env : Env) (json_Marshal : request.ChatInput → res string) (sha256 : string → string).

Abbreviation W := (@World (Ledger S) R P C).

#[local] Instance ledger_respected : Respected env (λ _ _, True) (gained []).
Proof.
  split.
  - intros n l _. split; [done|]. unfold others_store. revert l.
    induction (env_store env n) as [|[io c] calls IH]; intros l; simpl; [done|].
    etrans; [|apply IH]. eapply gained_more, perform_gained.
  - intros io c n l _ _. split; [done|]. eapply gained_more, perform_gained.
  - intros io t model n l _. split; [done|]. exists []. simpl. unfold passed.
    destruct (persistence.GetTenantPolicy _ _ _ _). by rewrite app_nil_r.
Qed.
#[local] Hint Resolve gained_preorder ledger_respected : preserved.
Abbreviation books := (preserved (S := Ledger S) (R := R) (P := P) (C := C) (λ _ _, True) (gained [])).

(** A store call of the request enters its own entry. *)
Lemma call_entered (c : persistence.call) (f : IO → M (Ledger S) unit) (w : W) :
  (∀ io, ∃ io', f io = persistence.perform io' c) →
  wp (on_store env f)
     (λ out w', is_panic out = false → gained [(c, is_ok out)] (store w) (store w')) w.
Proof.
  intros Hf. destruct (preserved_next (I := λ _ _, True) (K := gained []) (env := env) w I) as [_ K1].
  unfold on_store, wp, mbind, M_bind. unfold next in *.
  destruct (others_router _ _ _) as [r|e|why]; simpl in *; [|done..].
  destruct (Hf (env_io env (tick w))) as [io' ->]. unfold act. simpl.
  pose proof (perform_gained io' c (others_store env (tick w) (store w))) as Hg.
  destruct (persistence.perform io' c _) as [out l]. simpl in *.
  intros _. exact (gained_trans [] _ _ _ _ K1 Hg).
Qed.

(** The entries of a request that completed: the completion, with the outcome's
    response and cost, and the settlement of the reservation at that cost. *)
Definition settles (o : Outcome) (p : persistence.CompletionParams) : Prop :=
  persistence.co_RequestID p = request.ID (record o) ∧
  Some (persistence.co_Response p) = response o ∧
  persistence.co_CostMicroUSD p = request.CostMicroUSD (record o).
Definition charges {A} (outcome : A → option Outcome) (id : string) (es : list entry) (w0 : W)
  (out : res A) (w : W) : Prop :=
  ∀ a o, out = Ok a → outcome a = Some o → request.ID (record o) = id ∧ ∃ p ok, settles o p ∧
    gained (es ++ [(persistence.CComplete p, true);
                   (persistence.CReconcile id (request.CostMicroUSD (record o)), ok)])
      (store w0) (store w).

Lemma charges_bind {A B} (outcome : B → option Outcome) (id : string) (es : list entry)
  (m : M W A) (f : A → M W B) (w0 w : W) :
  books m → gained es (store w0) (store w) →
  (∀ a w', gained es (store w0) (store w') → wp (f a) (charges outcome id es w0) w') →
  wp (m ≫= f) (charges outcome id es w0) w.
Proof.
  intros Hm Hw Hf. apply wp_bind, (preserved_wp (I := λ _ _, True) (K := gained [])); [done..|].
  intros out w' [_ Hk]. destruct out as [a|e|why]; [|by intros ?..]. apply Hf.
  rewrite <-(app_nil_r es). by eapply gained_trans.
Qed.

Lemma finish_charges (job : Job) (number : Z) (k : nat) (lease : routing.Lease)
  (started : time.Time) (completion : provider.Completion) (es : list entry) (w0 w : W) :
  gained es (store w0) (store w) →
  wp (finish env job number k lease started completion)
     (charges Some (request.ID (job_record job)) es w0) w.
Proof.
  intros Hw. unfold finish.
  destruct (budget.CostMicroUSD _ _ _ _) as [cost|e|why]; [|by apply fails_wp; intros []|by intros ?].
  apply charges_bind; [auto with preserved|done|]. intros now w1 Hw1.
  set (p := completion_params _ _ _ _ _ _).
  apply wp_bind, wp_caught. eapply wp_mono; [apply (call_entered (persistence.CComplete p)); eauto|].
  intros out w2 Hc. destruct out as [[]|err|why]; [|by apply fails_wp; intros []|by intros ?].
  pose proof (gained_trans _ _ _ _ _ Hw1 (Hc eq_refl)) as Hw2. simpl in Hw2. clear Hc.
  apply wp_bind, (preserved_wp (I := λ _ _, True) (K := gained [])); [auto with preserved|done|].
  intros out w3 [_ Hk3]. destruct out as [[]|err|why]; [|by intros ?..].
  pose proof (gained_trans _ _ _ _ _ Hw2 Hk3) as Hw3. rewrite app_nil_r in Hw3.
  apply wp_bind, wp_ignore. eapply wp_mono.
  { apply (call_entered (persistence.CReconcile (request.ID (job_record job)) cost)).
    intros io. by exists (without_cancel io). }
  intros out w4 Hc. destruct out as [[]|err|why]; [..|by intros ?].
  all: intros a o [= <-] [= <-]; split; [done|].
  all: exists p; eexists; split; [done|]; simpl.
  all: pose proof (gained_trans _ _ _ _ _ Hw3 (Hc eq_refl)) as Hw4;
    rewrite <-(assoc_L (++)) in Hw4; exact Hw4.
Qed.

Lemma attempt_loop_charges (job : Job) (remaining : nat) (number : Z) (excluded : gset string)
  (lastErr : option error) (es : list entry) (w0 w : W) :
  gained es (store w0) (store w) →
  wp (attempt_loop env job remaining number excluded lastErr)
     (charges returned (request.ID (job_record job)) es w0) w.
Proof.
  revert number excluded lastErr w.
  induction remaining as [|remaining IH]; intros number excluded lastErr w Hw;
    cbn [attempt_loop].
  { by intros a o [= <-]. }
  apply charges_bind; [auto with preserved|done|]. intros now w1 Hw1.
  apply charges_bind; [auto with preserved|done|]. intros [[k l]|e] w2 Hw2; [|by intros a o [= <-]].
  apply charges_bind; [auto with preserved|done|]. intros [[]|e] w3 Hw3;
    [|by apply fails_wp; intros []].
  apply charges_bind; [auto with preserved|done|]. intros started w4 Hw4.
  apply charges_bind; [auto with preserved|done|]. intros [[completion|callErr] partial] w5 Hw5.
  { apply wp_bind. eapply wp_mono; [by apply finish_charges|].
    intros out w6 Hrec. destruct out as [o|e|why]; [|by intros ?..].
    intros a o' [= <-] [= <-]. by apply (Hrec o). }
  apply charges_bind; [auto with preserved|done|]. intros _ w6 Hw6.
  apply charges_bind; [auto with preserved|done|]. intros [[]|e] w7 Hw7; [|by intros ?].
  destruct (negb _); [by intros a o [= <-]|].
  apply charges_bind; [auto with preserved|done|]. intros [[]|e] w8 Hw8; [by apply IH|by intros a o [= <-]].
Qed.

(** An admitted request reserves the cost of its estimate at the highest prices of the
    providers it may use, before anything else. *)
Lemma run_admitted_charges (job : Job) (w0 w : W) :
  quiet_step w0 w → gained [] (store w0) (store w) →
  wp (run_admitted env job)
     (λ out w', ∀ o, out = Ok o → ∃ amount now, reservation_of job w0 amount ∧
        charges Some (request.ID (job_record job))
          [(persistence.CReserve (auth.TenantID (job_principal job)) (request.ID (job_record job)) amount now, true)]
          w0 out w') w.
Proof.
  intros Hq Hw. unfold run_admitted.
  apply wp_bind, wp_caught. eapply wp_both.
  { apply (preserved_wp (I := λ _ _, True) (K := gained [])); [auto with preserved|done|].
    intros out w1 [_ Hk]. exact Hk. }
  apply (highest_prices_wp env _ w0); [done|]. intros out w1 _ Hout Hk1.
  assert (gained [] (store w0) (store w1)) as Hw1 by by etrans.
  destruct out as [[inp outp]|err|why]; [|by apply fails_wp; intros []|done].
  apply wp_bind, wp_lift. destruct (budget.CostMicroUSD _ _ _ _) as [amount|e|why] eqn:Hres; [|done..].
  apply wp_bind, (preserved_wp (I := λ _ _, True) (K := gained [])); [auto with preserved|done|].
  intros out w2 [_ Hk2]. destruct out as [now|e|why]; [|done..].
  assert (gained [] (store w0) (store w2)) as Hw2 by by etrans.
  set (c := persistence.CReserve (auth.TenantID (job_principal job)) (request.ID (job_record job)) amount now).
  apply wp_bind, wp_caught. eapply wp_mono; [apply (call_entered c); eauto|].
  intros out w3 Hc. destruct out as [[]|err|why]; [|by apply fails_wp; intros []|done].
  pose proof (gained_trans _ _ _ _ _ Hw2 (Hc eq_refl)) as Hw3. simpl in Hw3.
  eapply (wp_mono _ (charges Some (request.ID (job_record job)) [(c, true)] w0)).
  2: { intros out w' Hch o ->. exists amount, now. split; [|done]. by exists inp, outp. }
  apply charges_bind; [auto with preserved|done|]. intros _ w4 Hw4.
  apply charges_bind; [auto with preserved|done|]. intros _ w5 Hw5.
  apply wp_bind. eapply wp_mono; [by apply attempt_loop_charges|].
  intros out w6 Hl. destruct out as [e|err|why]; [|by intros ?..].
  destruct e as [o|lastErr finalized]; cbn [conclude].
  - intros a o' [= <-] [= <-]. by apply (Hl (Returned o)).
  - apply wp_any; [by intros []|]. intros _ w7. by apply fails_wp; intros [].
Qed.
#[local] Hint Resolve silent_caught silent_on_store silent_move silent_admit : silent.

Lemma books_create (p : persistence.CreateRequestParams) :
  books (on_store env (λ io, persistence.CreateOrGetRequest io p)).
Proof.
  apply preserved_on_store. intros io n l _. split; [done|]. simpl. unfold entered.
  destruct (persistence.CreateOrGetRequest io p (inner l)) as [out s].
  eexists. split; [done|apply sublist_nil_l].
Qed.
#[local] Hint Resolve books_create : preserved.

(** A step before the reservation: no provider is touched and the ledger only grows. *)
Lemma wp_track {A} (m : M W A) (Q : res A → W → Prop) (w0 w : W) :
  silent m → books m → quiet_step w0 w ∧ gained [] (store w0) (store w) →
  (∀ out w', quiet_step w0 w' ∧ gained [] (store w0) (store w') → Q out w') → wp m Q w.
Proof.
  intros Hs Hb [Hq Hw] HQ. apply HQ. split; [eapply quiet_trans; [done|apply Hs, Hq]|].
  etrans; [done|]. by apply Hb.
Qed.

Lemma execute_charges (service : Service) (principal : auth.Principal) (key correlation : string)
  (input : request.ChatInput) (emit : option (provider.Chunk → C → option error * C)) (w : W) :
  wf w →
  wp (execute json_Marshal sha256 env service principal key correlation input emit)
     (λ out w', ∀ o, out = Ok o → Replayed o = true ∨
        ∃ (job : Job (C := C)) amount now, job_service job = service ∧ job_input job = input ∧
          job_principal job = principal ∧ priced job (registry w) o ∧ reservation_of job w amount ∧
          charges Some (request.ID (job_record job))
            [(persistence.CReserve (auth.TenantID principal) (request.ID (job_record job)) amount now, true)]
            w out w') w.
Proof.
  intros Hw. unfold execute.
  apply wp_bind, wp_lift. destruct (request.Validate input); [|done..].
  apply wp_bind, wp_lift. destruct (idempotency.HashChat json_Marshal sha256 input); [|done..].
  apply wp_bind, (wp_track _ _ w); [auto with silent|auto with preserved|split; [by apply quiet_refl|done]|].
  intros out w1 Hs1. destruct out as [[r created]|e|why]; [|done..]. destruct created; cbn [negb].
  2: { destruct (request.Response r); [destruct (bool_decide _)|]; intros o [= <-]; by left. }
  apply wp_bind, (wp_track _ _ w); [auto with silent|auto with preserved|done|].
  intros out w2 Hs2. destruct out as [[]|e|why]; [|done..].
  apply wp_bind, wp_caught, (wp_track _ _ w); [auto with silent|auto with preserved|done|].
  intros out w3 Hs3. destruct out as [policy|e|why]; [|by apply fails_wp; intros []|done].
  apply wp_bind, wp_caught, (wp_track _ _ w); [auto with silent|auto with preserved|done|].
  intros out w4 [Hq4 Hw4]. destruct out as [permits|e|why]; [|by apply fails_wp; intros []|done].
  set (job := mkJob service principal correlation input emit r policy).
  pose proof (run_admitted_priced env job w w4 Hq4) as Hpriced.
  pose proof (run_admitted_charges job w w4 Hq4 Hw4) as Hcharges.
  unfold wp, deferred in *. destruct (run_admitted env job w4) as [out w5]. cbn [fst snd] in *.
  destruct (preserved_release (env := env) (I := λ _ _, True) (K := gained []) permits w5 I) as [_ Hk].
  destruct (releasePermits env permits w5) as [[] w6]; cbn [fst snd] in *; try done.
  all: intros o Ho; right; destruct (Hcharges o Ho) as (amount & now & Hres & Hch).
  all: exists job, amount, now; split_and!; [done..|by apply Hpriced|done|].
  all: intros b o' Ha Ho'; destruct (Hch b o' Ha Ho') as (Hid & p & ok & Hp & Hg).
  all: split; [done|]; exists p, ok; split; [done|].
  all: eapply gained_trans in Hk; [|exact Hg]; by rewrite app_nil_r in Hk.
Qed.

(** C5 (safety): the cost charged for a completed request never exceeds the amount that
    was reserved for it, as long as the provider reports no more tokens than estimated.
    The store may be any store: its ledger shows that the request reserved an amount for
    its tenant, successfully, and after that completed with a cost and settled the
    reservation at that cost, which is the returned one; the amount is the cost of the
    estimate at the highest prices among the providers that the request may use, and so
    covers whichever provider answered after whatever failovers. *)
Theorem cost_within_reservation (service : Service) (principal : auth.Principal)
  (key correlation : string) (input : request.ChatInput)
  (emit : option (provider.Chunk → C → option error * C)) (w w' : W) (o : Outcome)
  (Hw : wf w)
  (Hrun : execute json_Marshal sha256 env service principal key correlation input emit w = (Ok o, w'))
  (Hnew : Replayed o = false) :
  ∃ (job : Job (C := C)) amount now completion settled new,
    made (store w') = made (store w) ++ new ∧
    [(persistence.CReserve (auth.TenantID principal) (request.ID (record o)) amount now, true);
     (persistence.CComplete completion, true);
     (persistence.CReconcile (request.ID (record o)) (request.CostMicroUSD (record o)), settled)]
      `sublist_of` new ∧
    persistence.co_RequestID completion = request.ID (record o) ∧
    persistence.co_CostMicroUSD completion = request.CostMicroUSD (record o) ∧
    response o = Some (persistence.co_Response completion) ∧
    job_service job = service ∧ job_input job = input ∧ job_principal job = principal ∧
    reservation_of job w amount ∧
    let usage := request.resp_Usage (persistence.co_Response completion) in
    (0 <= request.PromptTokens usage <= estimatePromptTokens (request.in_Messages input) →
     0 <= request.CompletionTokens usage <= max_completion service input →
     0 <= request.CostMicroUSD (record o) <= amount).
Proof.
  pose proof (execute_charges service principal key correlation input emit w Hw) as Hwp.
  unfold wp in Hwp. rewrite Hrun in Hwp. cbn [fst snd] in Hwp.
  destruct (Hwp o eq_refl) as [Hr|(job & amount & now & <- & <- & <- & Hpriced & Hres & Hch)]; [congruence|].
  destruct (Hch o o eq_refl eq_refl) as (Hid & p & ok & (Hpid & Hresp & Hcost) & new & Hnewl & Hsub).
  rewrite <-Hid in Hsub.
  exists job, amount, now, p, ok, new. split_and!; try done. intros usage Hpt Hct. subst usage.
  destruct Hpriced as (s & resp & Hs & Hp & Hresp' & _ & Hcost'). rewrite Hresp' in Hresp.
  injection Hresp as Hresp. rewrite Hresp in Hpt, Hct.
  destruct Hres as (inp & outp & Hprices & Hreserved).
  destruct (routing.HighestPrices_bound _ _ _ _ s Hprices Hs Hp) as [Hi Ho].
  pose proof (proj1 (proj1 (budget.CostMicroUSD_Ok _ _ _ _ _) Hcost')) as Hnn.
  destruct (budget.CostMicroUSD_mono _ _ _ _ _ _ _ _ _ Hnn (proj2 Hpt) (proj2 Hct) Hi Ho Hreserved)
    as (cost & Hcost'' & Hle).
  rewrite Hcost' in Hcost''. injection Hcost'' as <-. done.
Qed.
End Ledger.
End gateway_effects.
