(* ===== verification/GatewayDemo.v ===== *)
(** * GatewayDemo: the gateway on concrete components

    The in-memory store, the Redis model of [RateLimit.v] and two mock
    providers, the first of which fails its first call. The runs evaluate, and
    show that the hypotheses of the gateway's theorems can hold. *)

From S2P Require Import Prelude Golib Request Budget Auth CircuitBreaker Provider Routing RateLimit.
From S2P Require Import Store Memory Gateway GatewayProofs GatewayEffects.

Module gateway_demo.
Import gateway gateway_proofs gateway_effects.

Definition capabilities : provider.Capabilities := provider.mkCapabilities {["m"]} {["PUBLIC"]}.
Definition entry (i : nat) (name : string) (priority price : Z) : routing.ProviderConfig :=
  routing.mkProviderConfig (Some (routing.mkHandle i name capabilities)) 1 priority 2 0 price price true.
Definition configs : list routing.ProviderConfig := [entry 0 "a" 1 2000000; entry 1 "b" 2 3000000].
Definition breaker : circuitbreaker.Config := circuitbreaker.mkConfig 0 0 0 0.

Definition demo_router : routing.Router :=
  match routing.NewRouter configs breaker with
  | Ok r => r
  | _ => routing.mkRouter [] 0 float64.zero
  end.

Definition mocks : list provider.Mock :=
  [provider.NewMock (provider.mkMockConfig "a" ["m"] 0 1 "");
   provider.NewMock (provider.mkMockConfig "b" ["m"] 0 0 "")].

Abbreviation W := (@World memory.Memory (gmap string (Z * option time.Time)) provider.Mock
  (list provider.Chunk)).

Definition world : W :=
  mkWorld memory.demo_memory (routing.mkSystem demo_router []) ∅ mocks [] 0 [] [].

(** A quiet environment whose clock advances one second per step. *)
Definition env : Env :=
  mkEnv (λ n, quiet (time.epoch + Z.of_nat (n + 1) * time.Second) (repeat (Z.of_nat n) 16))
        (λ _, []) (λ _, []).

Definition marshal (input : request.ChatInput) : res string := Ok (request.in_Model input).
Definition digest (s : string) : string := s.

Definition service : Service :=
  NewService (Some (ratelimit.NewLimiter "")) (mkConfig routing.PriorityFallback 0 0 0 8 0).
Definition principal : auth.Principal := auth.mkPrincipal "k" "t" "u" ∅.
Definition client_emit (c : provider.Chunk) (log : list provider.Chunk)
  : option error * list provider.Chunk := (None, log ++ [c]).

Definition submit (w : W) : res Outcome * W :=
  execute marshal digest env service principal "idem" "c" memory.demo_input None w.
Definition streamed (w : W) : res Outcome * W :=
  execute marshal digest env service principal "idem2" "c" memory.demo_input (Some client_emit) w.

(** The first provider fails, the second answers; the request is completed
    and its cost is within the reservation of 27 micro-USD; the rate limiter's
    slots are free again. *)
Example submit_runs :
  match submit world with
  | (Ok o, w') =>
    called_name <$> calls w' = ["a"; "b"] ∧ request.state (record o) = request.Completed ∧
    request.CostMicroUSD (record o) = 27 ∧ Replayed o = false ∧
    request.state <$> memory.requests (store w') !! request.ID (record o) = Some request.Completed ∧
    memory.reservations (store w') = ∅ ∧ memory.used (store w') !! "t" = Some 27
  | _ => False
  end.
Proof. vm_compute. done. Qed.

Lemma router_ok : routing.inv demo_router [].
Proof.
  apply (routing.NewRouter_inv configs breaker); [|reflexivity].
  split; [by vm_compute|]. split; [|by unfold configs; simpl].
  unfold configs, in_int64, int64_min, int64_max. repeat constructor; simpl; lia.
Qed.

Lemma world_ok : start_ok world.
Proof. split; [apply router_ok|done|done]. Qed.

Lemma failover_discipline_witness :
  disciplined_calls (S := memory.Memory) service principal memory.demo_input (registry world)
    (calls (submit world).2).
Proof. apply (failover_discipline env marshal digest). apply world_ok. Defined.

Lemma leases_returned_witness :
  let '(out, w') := submit world in wf w' ∧ (is_panic out = false → all_released w').
Proof. apply (leases_returned env marshal digest). apply world_ok. Defined.

(** The same run with a ledger around the store. *)
Definition ledger_world : @World (Ledger memory.Memory) (gmap string (Z * option time.Time)) provider.Mock
    (list provider.Chunk) :=
  mkWorld (mkLedger memory.demo_memory []) (routing.mkSystem demo_router []) ∅ mocks [] 0 [] [].
Definition ledger_submit :=
  execute marshal digest env service principal "idem" "c" memory.demo_input None ledger_world.

Lemma ledger_outcome :
  match ledger_submit.1 with
  | Ok o => Replayed o = false ∧ request.resp_Usage <$> response o = Some (request.mkUsage 1 8 9)
  | _ => False
  end.
Proof. vm_compute. split; reflexivity. Qed.

(** The reservation of 27 micro-USD, its completion and its settlement. *)
Example ledger_entries :
  let id := memory.randomID (env_io env 0) in
  (made (store ledger_submit.2) ≫= λ e, match e with
        | (persistence.CReserve t i a _, ok) => [(t, i, a, ok)]
        | (persistence.CComplete p, ok) =>
          [("complete", persistence.co_RequestID p, persistence.co_CostMicroUSD p, ok)]
        | (persistence.CReconcile i a, ok) => [("reconcile", i, a, ok)]
        | _ => []
        end) =
  [("t", id, 27, true); ("complete", id, 27, true); ("reconcile", id, 27, true)].
Proof. vm_compute. reflexivity. Qed.

Lemma cost_within_reservation_witness :
  ∃ o w' amount now, ledger_submit = (Ok o, w') ∧
    (persistence.CReserve "t" (request.ID (record o)) amount now, true) ∈ made (store w') ∧
    0 <= request.CostMicroUSD (record o) <= amount.
Proof.
  pose proof ledger_outcome as Hout. destruct ledger_submit as [out w'] eqn:Hrun.
  destruct out as [o|e|why]; [|destruct Hout..]. destruct Hout as [Hnew Husage].
  destruct (cost_within_reservation env marshal digest service principal "idem" "c"
    memory.demo_input None ledger_world w' o router_ok Hrun Hnew)
    as (job & amount & now & p & ok & new & Hmade & Hsub & _ & _ & Hresp & _ & _ & _ & _ & Hle).
  exists o, w', amount, now. split; [reflexivity|]. split.
  { rewrite Hmade. apply elem_of_app; right. eapply elem_of_submseteq; [|apply sublist_submseteq, Hsub].
    left. }
  rewrite Hresp in Husage. simpl in Husage. injection Husage as Husage. rewrite Husage in Hle.
  apply Hle; clear; split; vm_compute; discriminate.
Defined.

(** Another client creates a request before the first and the fifth step, and works on
    them, while ours runs. *)
Definition other_io (n : Z) : IO := quiet (time.epoch + n) (repeat (200 + n) 16).
Definition other_request (key : string) : persistence.call :=
  persistence.CCreate (persistence.mkCreateRequestParams "t" "k2" "u2" key "h2" memory.demo_input "c2").
Definition busy_env : Env :=
  mkEnv (env_io env) (λ _, [])
    (λ n, if (n =? 0)%nat then [(other_io 0, other_request "other-1")]
          else if (n =? 4)%nat then
            [(other_io 1, other_request "other-2");
             (other_io 2, persistence.CTransition "t" (memory.randomID (other_io 0)) request.Received request.Validated);
             (other_io 3, persistence.CCancel "t" (memory.randomID (other_io 1)) "c2")]
          else []).

Lemma busy_draws_at (n : nat) :
  drawn_at busy_env n =
  if (n =? 0)%nat then [memory.randomID (other_io 0)]
  else if (n =? 4)%nat then [memory.randomID (other_io 1)] else [].
Proof. unfold drawn_at, busy_env. cbn [env_store]. by destruct (n =? 0)%nat, (n =? 4)%nat. Qed.

Lemma busy_draws : distinct_draws busy_env.
Proof.
  split; [intros n|intros n m id Hlt]; rewrite !busy_draws_at.
  - destruct (n =? 0)%nat, (n =? 4)%nat; repeat constructor; set_solver.
  - destruct (Nat.eqb_spec n 0), (Nat.eqb_spec m 0), (Nat.eqb_spec n 4), (Nat.eqb_spec m 4);
      rewrite ?list_elem_of_singleton, ?elem_of_nil; try lia; try done; naive_solver.
Qed.

Lemma busy_identifiers : new_identifiers busy_env world.
Proof.
  split; [by vm_compute|intros n _|intros n id _]; rewrite busy_draws_at.
  - destruct (n =? 0)%nat, (n =? 4)%nat; rewrite ?list_elem_of_singleton;
      [intros Heq; vm_compute in Heq; discriminate..|apply not_elem_of_nil].
  - destruct (n =? 0)%nat, (n =? 4)%nat; rewrite ?list_elem_of_singleton;
      [intros ->; by vm_compute..|by intros ?%not_elem_of_nil].
Qed.

Lemma world_good : persistence.good (store world).
Proof. exact memory.demo_good. Qed.

Definition busy_submit : res Outcome * W :=
  execute marshal digest busy_env service principal "idem" "c" memory.demo_input None world.

Lemma busy_outcome :
  match busy_submit.1 with Ok o => Replayed o = false | _ => False end ∧
  size (memory.requests (store busy_submit.2)) = 3%nat.
Proof. vm_compute. split; reflexivity. Qed.

(** The request completes in between, and three requests are stored in the end. *)
Lemma completion_durable_witness :
  ∃ o w' r, busy_submit = (Ok o, w') ∧
    size (memory.requests (store w')) = 3%nat ∧
    memory.requests (store w') !! request.ID (record o) = Some r ∧
    request.state r = request.Completed ∧ request.Response r = response o.
Proof.
  pose proof busy_outcome as [Hout Hsize]. destruct busy_submit as [out w'] eqn:Hrun.
  destruct out as [o|e|why]; [|destruct Hout..].
  destruct (completion_durable busy_env marshal digest busy_draws service principal "idem" "c"
    memory.demo_input None world w' o world_good busy_identifiers Hrun Hout)
    as (r & Hr & Hs & Hresp & _).
  exists o, w', r. split; [reflexivity|]. split; [exact Hsize|]. split; [exact Hr|]. split; [exact Hs|].
  rewrite Hresp. destruct (response o); reflexivity.
Defined.

(** The same idempotency key was used before with another payload. *)
Definition used_world : W :=
  mkWorld (memory.run_calls memory.demo_memory (take 1 memory.demo_history))
    (routing.mkSystem demo_router []) ∅ mocks [] 1 [] [].

Lemma replay_passive_witness :
  (submit used_world).1 = Err persistence.ErrConflict ∧
  store (submit used_world).2 = store used_world ∧ untouched used_world (submit used_world).2.
Proof.
  destruct (replay_passive env marshal digest service principal "idem" "c" "m" memory.demo_input
    None used_world router_ok eq_refl eq_refl) as [_ Herr].
  destruct (Herr persistence.ErrConflict) as (Hout & Hstore & Hrest); [by vm_compute|].
  split_and!; [exact Hout| |apply Hrest..]. etrans; [exact Hstore|]. by vm_compute.
Defined.

(** ** A reservation that is never settled

    A client cancels the request while its provider call runs. The call
    succeeds, [CompleteRequest] answers that the request is final, and
    [execute] returns without settling the reservation: the amount stays
    reserved although the request is CANCELLED and will never be charged. *)
Definition cancelling_env : Env :=
  mkEnv (env_io env) (λ _, [])
    (λ n, if (n =? 15)%nat
          then [(quiet 1 [], persistence.CCancel "t" (memory.randomID (env_io env 0)) "c")] else []).

Definition cancelled_world : W :=
  mkWorld memory.demo_memory (routing.mkSystem demo_router []) ∅ (drop 1 mocks ++ drop 1 mocks) [] 0 [] [].

(** A reservation that nothing settles. When the client cancels its
    request while the provider works on it, the completion is refused, the
    request is final and [execute] returns the store's error; the reservation it
    made is still counted against the tenant's budget. *)
Theorem cancel_leaks_reservation :
  let '(out, w') := execute marshal digest cancelling_env service principal "idem" "c"
                      memory.demo_input None cancelled_world in
  out = Err persistence.ErrAlreadyFinal ∧
  request.state <$> memory.requests (store w') !! memory.randomID (env_io env 0)
    = Some request.Cancelled ∧
  memory.reservations (store w') !! memory.randomID (env_io env 0) = Some 27.
Proof. vm_compute. repeat split. Qed.
End gateway_demo.
