(* ===== verification/Outbox.v ===== *)
(** * Outbox: facts from the outbox table to the audit and usage tables

    Models [src/internal/events/event.go], [src/internal/outbox/outbox.go],
    [src/internal/kafka/kafka.go], [src/internal/kafka/consumer.go] and
    [src/internal/persistence/audit.go]. An SQL statement is one atomic step on
    its tables. The broker is a log of messages; it and the JSON coder are
    parameters of the definitions that use them. *)

From S2P Require Import Prelude Golib.

Module events.

Definition RequestAccepted : string := "ai.request.accepted.v1".
Definition ProviderSelected : string := "ai.provider.selected.v1".
Definition RequestCompleted : string := "ai.request.completed.v1".
Definition RequestFailed : string := "ai.request.failed.v1".
Definition UsageRecorded : string := "ai.usage.recorded.v1".
Definition BudgetExceeded : string := "ai.budget.exceeded.v1".
Definition SecurityViolation : string := "ai.security.violation.v1".
Definition EvaluationComplete : string := "evaluation.completed.v1".
Definition EvaluationFailed : string := "evaluation.failed.v1".

Definition supported : list string :=
  [RequestAccepted; ProviderSelected; RequestCompleted; RequestFailed; UsageRecorded;
   BudgetExceeded; SecurityViolation; EvaluationComplete; EvaluationFailed].

Record Envelope : Type := mkEnvelope {
  EventID : string;
  EventType : string;
  Version : Z;
  AggregateID : string;
  TenantID : string;
  Timestamp : time.Time;
  CorrelationID : string;
  CausationID : string;
  Payload : string
}.

#[global] Instance Envelope_eq_dec : EqDecision Envelope.
Proof. solve_decision. Defined.

(** [json_Valid] is [json.Valid]. *)
Definition Validate (json_Valid : string → bool) (event : Envelope) : res unit :=
  if (EventID event =s "") || (AggregateID event =s "") || (TenantID event =s "")
     || (CorrelationID event =s "")
  then Err (New "event identifiers are required")
  else if negb (EventType event ∈? supported) then Err (New "unsupported event type")
  else if negb (Version event =? 1) then Err (New "unsupported event version")
  else if time.IsZero (Timestamp event) || negb (json_Valid (Payload event))
  then Err (New "event timestamp and valid payload are required")
  else Ok ().

Lemma Validate_payload (json_Valid : string → bool) (event : Envelope) :
  Validate json_Valid event = Ok () → json_Valid (Payload event) = true.
Proof.
  unfold Validate. destruct (_ || _); [done|]. destruct (negb _); [done|].
  destruct (negb _); [done|]. destruct (_ || _) eqn:Hv; [done|]. intros _. by reflect.
Qed.
End events.

Module outbox.

(** The columns of [outbox_events] that [Claim] returns. *)
Record Row : Type := mkRow {
  ID : string;
  EventType : string;
  EventVersion : Z;
  AggregateID : string;
  TenantID : string;
  CorrelationID : string;
  CausationID : string;
  Payload : string;
  OccurredAt : time.Time
}.

(** A row of the table with its bookkeeping columns. *)
Record Entry : Type := mkEntry {
  row : Row;
  created_at : time.Time;
  available_at : time.Time;
  claimed_at : option time.Time;
  claimed_by : option string;
  publish_attempts : Z;
  published_at : option time.Time;
  last_error : option string
}.

Abbreviation Table := (gmap string Entry).

(** The WHERE clause of the candidates. *)
Definition claimable (now : time.Time) (ttl : Z) (e : Entry) : bool :=
  bool_decide (published_at e = None) && (available_at e <=? now) &&
  match claimed_at e with None => true | Some t => t <? now - ttl * time.Second end.

Definition claim_entry (now : time.Time) (workerID : string) (e : Entry) : Entry :=
  mkEntry (row e) (created_at e) (available_at e) (Some now) (Some workerID)
          (publish_attempts e + 1) (published_at e) (last_error e).

(** [candidates]: oldest first, without the rows that concurrent transactions
    hold locked (SKIP LOCKED), at most [limit]. *)
Definition candidates (now : time.Time) (locked : string → bool) (limit : nat) (ttl : Z)
  (tbl : Table) : list (string * Entry) :=
  take limit (List.filter (λ ie, claimable now ttl ie.2 && negb (locked ie.1))
    (sort.SliceStable (λ a b, created_at a.2 <? created_at b.2) (map_to_list tbl))).

Definition claim_all (now : time.Time) (workerID : string) (ids : list string) (tbl : Table) : Table :=
  foldr (λ id, alter (claim_entry now workerID) id) tbl ids.

(** The statement's rows come back in an order of the server's choice, [order].
    The query may fail before (fault 0) or after (fault 1) it ran, and reading
    its rows may fail (faults 2 and 3), which leaves the claims in place. *)
Definition Claim (io : IO) (order : list Row → list Row) (locked : string → bool)
  (workerID : string) (limit : nat) (claimTTL : time.Duration) : M Table (list Row) := λ tbl,
  match io_fault io 0 with
  | Some e => (Err (Wrap "claim outbox rows" e), tbl)
  | None =>
    let cs := candidates (io_now io) locked limit (time.WholeSeconds claimTTL) tbl in
    let tbl := claim_all (io_now io) workerID cs.*1 tbl in
    match io_fault io 1, io_fault io 2, io_fault io 3 with
    | Some e, _, _ => (Err (Wrap "claim outbox rows" e), tbl)
    | None, Some e, _ => (Err (Wrap "scan outbox row" e), tbl)
    | None, None, Some e => (Err e, tbl)
    | None, None, None => (Ok (order (row ∘ snd <$> cs)), tbl)
    end
  end.

(** [WHERE id=$1 AND claimed_by=$2 AND published_at IS NULL]. *)
Definition holds_claim (workerID : string) (e : Entry) : bool :=
  bool_decide (claimed_by e = Some workerID) && bool_decide (published_at e = None).

(** One UPDATE statement by key; the request may be lost before it runs
    (fault 0) or its answer after (fault 1). *)
Definition update_one (io : IO) (what : string) (id : string) (f : Entry → Entry) : M Table unit :=
  λ tbl,
  match io_fault io 0 with
  | Some e => (Err (Wrap what e), tbl)
  | None =>
    match io_fault io 1 with
    | Some e => (Err (Wrap what e), alter f id tbl)
    | None => (Ok (), alter f id tbl)
    end
  end.

Definition published_entry (now : time.Time) (workerID : string) (e : Entry) : Entry :=
  if holds_claim workerID e
  then mkEntry (row e) (created_at e) (available_at e) None None (publish_attempts e) (Some now) None
  else e.

Definition MarkPublished (io : IO) (eventID workerID : string) : M Table unit :=
  update_one io "mark outbox event published" eventID (published_entry (io_now io) workerID).

Definition failed_entry (now : time.Time) (workerID category : string) (delay : Z) (e : Entry)
  : Entry :=
  if holds_claim workerID e
  then mkEntry (row e) (created_at e) (now + delay * time.Second) None None (publish_attempts e)
               (published_at e) (Some category)
  else e.

Definition MarkFailed (io : IO) (eventID workerID category : string) (delay : time.Duration)
  : M Table unit :=
  update_one io "release failed outbox event" eventID
    (failed_entry (io_now io) workerID category (time.WholeSeconds delay)).

Definition envelope (r : Row) : events.Envelope :=
  events.mkEnvelope (ID r) (EventType r) (EventVersion r) (AggregateID r) (TenantID r)
    (OccurredAt r) (CorrelationID r) (CausationID r) (Payload r).
End outbox.

Module kafka.
Section Publish.
(** [json.Valid], [json.Marshal] of an envelope, and the headers the tracing
    propagator injects. *)
Context (json_Valid : string → bool) (marshal : events.Envelope → res string)
  (inject : IO → list (string * string)).

Record Message : Type := mkMessage {
  Key : string;
  Value : string;
  Time : time.Time;
  Headers : list (string * string)
}.

Definition message (io : IO) (event : events.Envelope) (encoded : string) : Message :=
  mkMessage (events.TenantID event) encoded (events.Timestamp event)
    ([("event_id", events.EventID event); ("correlation_id", events.CorrelationID event)]
     ++ inject io).

(** [Publisher.Publish] on the topic's log: a write may fail before (fault 0)
    or after (fault 1) the brokers stored the message. *)
Definition Publish (io : IO) (event : events.Envelope) : M (list Message) unit := λ log,
  match events.Validate json_Valid event with
  | Err e => (Err e, log)
  | Panic w => (Panic w, log)
  | Ok _ =>
    match marshal event with
    | Err e => (Err (Wrap "marshal Kafka event" e), log)
    | Panic w => (Panic w, log)
    | Ok encoded =>
      match io_fault io 0, io_fault io 1 with
      | Some e, _ => (Err (Wrap "publish Kafka event" e), log)
      | None, Some e => (Err (Wrap "publish Kafka event" e), log ++ [message io event encoded])
      | None, None => (Ok (), log ++ [message io event encoded])
      end
    end
  end.
End Publish.
End kafka.

Module relay.
Section Relay.
Context (json_Valid : string → bool) (marshal : events.Envelope → res string)
  (inject : IO → list (string * string)) (order : list outbox.Row → list outbox.Row).

Record Relay : Type := mkRelay { workerID : string; batchSize : Z; poll : time.Duration }.

Definition NewRelay (workerID : string) (batchSize : Z) (poll : time.Duration) : Relay :=
  mkRelay workerID (if batchSize <=? 0 then 100 else batchSize)
          (if poll <=? 0 then 500 * time.Millisecond else poll).

(** The table and the topic. *)
Record State : Type := mkState { table : outbox.Table; topic : list kafka.Message }.

Definition on_table {A} (m : M outbox.Table A) : M State A := λ s,
  let '(out, t) := m (table s) in (out, mkState t (topic s)).
Definition on_topic {A} (m : M (list kafka.Message) A) : M State A := λ s,
  let '(out, l) := m (topic s) in (out, mkState (table s) l).

(** What other processes did just before the n-th step of a batch. *)
Definition interfere (others : nat → State → State) (n : nat) : M State unit := λ s,
  (Ok (), others n s).

(** The end of an iteration, by the outcome of the send. *)
Definition mark_row (relay : Relay) (io : IO) (row : outbox.Row) (sent : unit + error)
  : M State unit :=
  match sent with
  | inr _ => ignore (on_table (outbox.MarkFailed io (outbox.ID row) (workerID relay)
                                 "kafka_publish" time.Second))
  | inl _ => on_table (outbox.MarkPublished io (outbox.ID row) (workerID relay))
  end.

(** The loop of [runBatch] over the claimed rows; [io n] is the outside of its
    n-th step. *)
Fixpoint publish_rows (relay : Relay) (io : nat → IO) (others : nat → State → State) (n : nat)
  (rows : list outbox.Row) : M State unit :=
  match rows with
  | [] => mret ()
  | row :: rows =>
    _ ← interfere others n;
    sent ← caught (on_topic (kafka.Publish json_Valid marshal inject (io n) (outbox.envelope row)));
    _ ← interfere others (S n);
    _ ← mark_row relay (io (S n)) row sent;
    publish_rows relay io others (n + 2) rows
  end.

Definition runBatch (relay : Relay) (io : nat → IO) (others : nat → State → State)
  (locked : string → bool) : M State unit :=
  _ ← interfere others 0;
  rows ← on_table (outbox.Claim (io 0%nat) order locked (workerID relay)
                     (Z.to_nat (batchSize relay)) time.Minute);
  publish_rows relay io others 1 rows.

(** [Run] for the given ticks: the context of each tick tells whether it is
    done ([ctx.Err()] after a batch, polls 0; [ctx.Done()] in the select,
    poll 1). *)
Record Tick : Type := mkTick {
  tick_ctx : nat → option error;
  tick_io : nat → IO;
  tick_others : nat → State → State;
  tick_locked : string → bool
}.

Fixpoint Run (relay : Relay) (ticks : list Tick) : M State unit :=
  match ticks with
  | [] => mret ()
  | t :: ticks =>
    batch ← caught (runBatch relay (tick_io t) (tick_others t) (tick_locked t));
    match batch, tick_ctx t 0, tick_ctx t 1 with
    | inr e, None, _ => fail e
    | _, _, Some _ => mret ()
    | _, _, None => Run relay ticks
    end
  end.

(** *** At-least-once delivery

    The broker holds the message of row [r]; the table holds row [r]. *)
Definition carries (m : kafka.Message) (r : outbox.Row) : Prop :=
  events.Validate json_Valid (outbox.envelope r) = Ok () ∧
  ∃ io encoded, marshal (outbox.envelope r) = Ok encoded ∧
                m = kafka.message inject io (outbox.envelope r) encoded.
Definition sent (s : State) (r : outbox.Row) : Prop := ∃ m, m ∈ topic s ∧ carries m r.
Definition stored (s : State) (r : outbox.Row) : Prop :=
  ∃ e, table s !! outbox.ID r = Some e ∧ outbox.row e = r.

(** Rows are filed under their identifiers, what is marked as published is on
    the topic, and every message of the topic carries a row of the table. *)
Definition filed (s : State) : Prop := ∀ id e, table s !! id = Some e →
  outbox.ID (outbox.row e) = id ∧ (is_Some (outbox.published_at e) → sent s (outbox.row e)).
Definition retained (s : State) : Prop :=
  filed s ∧ ∀ m, m ∈ topic s → ∃ r, stored s r ∧ carries m r.

(** The topic grows at its end only, rows are neither lost nor rewritten, and a
    published row is never touched again. *)
Definition evolves (s s' : State) : Prop :=
  topic s `prefix_of` topic s' ∧ ∀ id e, table s !! id = Some e →
  ∃ e', table s' !! id = Some e' ∧ outbox.row e' = outbox.row e ∧
        (is_Some (outbox.published_at e) → e' = e).

(** What a relay promises to the others and relies on from them. *)
Definition rely (s s' : State) : Prop := evolves s s' ∧ (retained s → retained s').

#[global] Instance evolves_preorder : PreOrder evolves.
Proof.
  split.
  - intros s. split; [done|]. eauto.
  - intros s t u [Hp Ht] [Hp' Ht']. split; [by etrans|]. intros id e He.
    destruct (Ht _ _ He) as (e1 & H1 & Hr1 & Hf1). destruct (Ht' _ _ H1) as (e2 & H2 & Hr2 & Hf2).
    exists e2. split_and!; [done|congruence|]. intros Hp1. specialize (Hf1 Hp1). subst.
    by apply Hf2.
Qed.

#[global] Instance rely_preorder : PreOrder rely.
Proof.
  split; [by split|]. intros s t u [H1 R1] [H2 R2]. split; [by etrans|auto].
Qed.

Lemma evolves_sent (s s' : State) (r : outbox.Row) : evolves s s' → sent s r → sent s' r.
Proof.
  intros [[l Hl] _] (m & Hin & Hm). exists m. split; [|done]. rewrite Hl.
  apply elem_of_app. by left.
Qed.

Lemma evolves_stored (s s' : State) (r : outbox.Row) : evolves s s' → stored s r → stored s' r.
Proof. intros [_ Ht] (e & He & Hr). destruct (Ht _ _ He) as (e' & ? & ? & _). exists e'. by subst. Qed.

(** A step that changes each row by itself, keeps its contents, spares published
    rows and publishes only what was sent. *)
Lemma pointwise_rely (s : State) (t : outbox.Table) (f : string → outbox.Entry → outbox.Entry) :
  (∀ id, t !! id = f id <$> table s !! id) →
  (∀ id e, table s !! id = Some e →
     outbox.row (f id e) = outbox.row e ∧
     (is_Some (outbox.published_at e) → f id e = e) ∧
     (is_Some (outbox.published_at (f id e)) →
      is_Some (outbox.published_at e) ∨ sent s (outbox.row e))) →
  rely s (mkState t (topic s)).
Proof.
  intros Ht Hf. assert (evolves s (mkState t (topic s))) as Hev.
  { split; [done|]. intros id e He. destruct (Hf _ _ He) as (? & ? & _).
    exists (f id e). simpl. rewrite Ht, He. done. }
  split; [done|]. intros [Hs Hm]. split.
  - intros id e' He'. simpl in He'. rewrite Ht in He'.
    destruct (table s !! id) as [e|] eqn:He; [|done]. simplify_eq/=.
    destruct (Hf _ _ He) as (-> & _ & Hp'), (Hs _ _ He) as [Hid Hp].
    split; [done|]. intros H'. by destruct (Hp' H'); [apply Hp|].
  - intros m (r & Hr & Hc)%Hm. exists r. split; [|done]. by eapply evolves_stored.
Qed.

Definition gentle (f : outbox.Entry → outbox.Entry) : Prop := ∀ e,
  outbox.row (f e) = outbox.row e ∧ (is_Some (outbox.published_at e) → f e = e).

Lemma alter_rely (s : State) (id : string) (f : outbox.Entry → outbox.Entry) :
  gentle f →
  (∀ e, table s !! id = Some e → is_Some (outbox.published_at (f e)) →
        is_Some (outbox.published_at e) ∨ sent s (outbox.row e)) →
  rely s (mkState (alter f id (table s)) (topic s)).
Proof.
  intros Hf Hsent. apply (pointwise_rely _ _ (λ id', if decide (id = id') then f else λ e, e)).
  - intros id'. destruct (decide (id = id')) as [<-|Hne].
    + by rewrite lookup_alter_eq.
    + rewrite lookup_alter_ne by done. by destruct (table s !! id').
  - intros id' e He. destruct (decide (id = id')) as [<-|Hne]; [|by auto].
    destruct (Hf e). auto.
Qed.

Lemma failed_entry_gentle (now : time.Time) (w c : string) (d : Z) :
  gentle (outbox.failed_entry now w c d).
Proof.
  intros e. unfold outbox.failed_entry, outbox.holds_claim. case_bool_decide; [|done].
  case_bool_decide as Hp; [|done]. simpl. split; [done|]. rewrite Hp. by intros [].
Qed.

Lemma published_entry_gentle (now : time.Time) (w : string) :
  gentle (outbox.published_entry now w).
Proof.
  intros e. unfold outbox.published_entry, outbox.holds_claim. case_bool_decide; [|done].
  case_bool_decide as Hp; [|done]. simpl. split; [done|]. rewrite Hp. by intros [].
Qed.

Lemma failed_entry_published (now : time.Time) (w c : string) (d : Z) (e : outbox.Entry) :
  outbox.published_at (outbox.failed_entry now w c d e) = outbox.published_at e.
Proof. unfold outbox.failed_entry. by destruct outbox.holds_claim. Qed.

Lemma update_one_rely (io : IO) (what id : string) (f : outbox.Entry → outbox.Entry) (s : State) :
  rely s (mkState (alter f id (table s)) (topic s)) →
  rely s (on_table (outbox.update_one io what id f) s).2.
Proof.
  intros Hr. unfold on_table, outbox.update_one.
  destruct (io_fault io 0); [by destruct s|]. by destruct (io_fault io 1).
Qed.

Lemma MarkFailed_rely (io : IO) (id w c : string) (d : time.Duration) (s : State) :
  rely s (on_table (outbox.MarkFailed io id w c d) s).2.
Proof.
  apply update_one_rely, alter_rely; [apply failed_entry_gentle|].
  intros e _. rewrite failed_entry_published. by left.
Qed.

Lemma MarkPublished_rely (io : IO) (r : outbox.Row) (w : string) (s : State) :
  stored s r → sent s r → rely s (on_table (outbox.MarkPublished io (outbox.ID r) w) s).2.
Proof.
  intros (e & He & Hr) Hsent. apply update_one_rely, alter_rely; [apply published_entry_gentle|].
  intros e' He' _. right. by simplify_eq.
Qed.

(** A send leaves the table alone and only appends; an acknowledged one leaves
    the message on the topic. *)
Lemma Publish_spec (io : IO) (r : outbox.Row) (s : State) :
  wp (on_topic (kafka.Publish json_Valid marshal inject io (outbox.envelope r)))
     (λ out s', table s' = table s ∧ topic s `prefix_of` topic s' ∧
        (∀ m, m ∈ topic s' → m ∈ topic s ∨ carries m r) ∧ (is_ok out → sent s' r)) s.
Proof.
  unfold wp, on_topic, kafka.Publish.
  destruct events.Validate as [[]|?|?] eqn:Hv; [|by naive_solver..].
  destruct (marshal _) as [enc|?|?] eqn:He; [|by naive_solver..].
  destruct (io_fault io 0); [by naive_solver|].
  set (msg := kafka.message inject io (outbox.envelope r) enc).
  assert (carries msg r) as Hmsg by (split; [done|]; by exists io, enc).
  assert (topic s `prefix_of` topic s ++ [msg]) by apply prefix_app_r, (reflexivity (topic s)).
  assert (∀ m, m ∈ topic s ++ [msg] → m ∈ topic s ∨ carries m r) as Hnew.
  { intros m [?|?]%elem_of_app; [by left|right]. by set_solver. }
  destruct (io_fault io 1); (split_and!; [done..|]); [done|]. intros _.
  exists msg. split; [|done]. simpl. apply elem_of_app. right. by apply list_elem_of_singleton.
Qed.

Lemma topic_grows_rely (r : outbox.Row) (s s' : State) :
  table s' = table s → topic s `prefix_of` topic s' → stored s r →
  (∀ m, m ∈ topic s' → m ∈ topic s ∨ carries m r) → rely s s'.
Proof.
  intros Ht Hp Hr Hnew. assert (evolves s s') as He by (split; [done|]; rewrite Ht; eauto).
  split; [done|]. intros [Hs Hm]. split.
  - intros id e Hid. rewrite Ht in Hid. destruct (Hs _ _ Hid). eauto using evolves_sent.
  - intros m [(r' & ? & ?)%Hm|?]%Hnew; [exists r'|exists r]; eauto using evolves_stored.
Qed.

Lemma candidates_claimable (now : time.Time) (locked : string → bool) (limit : nat) (ttl : Z)
  (tbl : outbox.Table) (id : string) (e : outbox.Entry) :
  (id, e) ∈ outbox.candidates now locked limit ttl tbl →
  tbl !! id = Some e ∧ outbox.claimable now ttl e = true.
Proof.
  unfold outbox.candidates. intros Hin. apply elem_of_take in Hin as (i & Hi & _).
  apply list_elem_of_lookup_2, list_elem_of_In, filter_In in Hi as [Hi Hc].
  apply list_elem_of_In in Hi. rewrite sort.SliceStable_Permutation in Hi.
  apply elem_of_map_to_list in Hi. by apply andb_prop in Hc as [? _].
Qed.

Lemma candidates_NoDup (now : time.Time) (locked : string → bool) (limit : nat) (ttl : Z)
  (tbl : outbox.Table) : NoDup (outbox.candidates now locked limit ttl tbl).*1.
Proof.
  unfold outbox.candidates. rewrite fmap_take. eapply sublist_NoDup; [|apply sublist_take].
  set (l := sort.SliceStable _ _).
  assert (NoDup l.*1) as Hl.
  { unfold l. rewrite sort.SliceStable_Permutation. apply NoDup_fst_map_to_list. }
  clearbody l. induction l as [|x l IH]; simpl; [constructor|].
  rewrite fmap_cons in Hl. apply NoDup_cons in Hl as [Hx Hl].
  destruct (_ && _); [|by auto]. rewrite fmap_cons. apply NoDup_cons. split; [|by auto].
  intros Hin. apply Hx. apply list_elem_of_fmap in Hin as (y & -> & Hy).
  apply list_elem_of_fmap. exists y. split; [done|].
  apply list_elem_of_In, filter_In in Hy as [Hy _]. by apply list_elem_of_In.
Qed.

Lemma claim_all_lookup (now : time.Time) (w : string) (ids : list string) (tbl : outbox.Table)
  (id : string) : NoDup ids →
  outbox.claim_all now w ids tbl !! id =
  (if id ∈? ids then outbox.claim_entry now w else λ e, e) <$> tbl !! id.
Proof. clear json_Valid.
  induction ids as [|i ids IH]; intros Hnd.
  - change (outbox.claim_all now w [] tbl) with tbl.
    rewrite bool_decide_eq_false_2 by apply not_elem_of_nil. by destruct (tbl !! id).
  - cbn [outbox.claim_all foldr]. fold (outbox.claim_all now w ids tbl). apply NoDup_cons in Hnd as [Hi Hnd]. destruct (decide (i = id)) as [->|Hne].
    + rewrite lookup_alter_eq, IH by done. rewrite bool_decide_eq_false_2 by done.
      rewrite bool_decide_eq_true_2 by left. by destruct (tbl !! id).
    + rewrite lookup_alter_ne, IH by done. f_equal.
      rewrite (bool_decide_ext (id ∈ i :: ids) (id ∈ ids)); [done|]. set_solver.
Qed.

(** What a claim leaves: unpublished rows marked with the worker, others as they
    were. *)
Lemma claim_rely (now : time.Time) (locked : string → bool) (w : string) (limit : nat) (ttl : Z)
  (s : State) :
  rely s (mkState (outbox.claim_all now w (outbox.candidates now locked limit ttl (table s)).*1
                     (table s)) (topic s)).
Proof.
  eapply pointwise_rely.
  - intros id. apply claim_all_lookup, candidates_NoDup.
  - intros id e He. cbv beta. destruct (bool_decide _) eqn:Hin; [|by auto].
    apply bool_decide_eq_true in Hin.
    apply list_elem_of_fmap in Hin as ([id' e'] & Heq & Hc). simpl in Heq. subst id'.
    apply candidates_claimable in Hc as [He' Hc]. simplify_eq.
    unfold outbox.claimable in Hc. apply andb_prop in Hc as [Hc _].
    apply andb_prop in Hc as [Hc _]. apply bool_decide_eq_true in Hc. simpl.
    split; [done|]. rewrite Hc. split; intros []; done.
Qed.

Context (order_perm : ∀ rows, order rows ≡ₚ rows).

Lemma Claim_spec (io : IO) (locked : string → bool) (w : string) (limit : nat)
  (ttl : time.Duration) (s : State) : retained s →
  wp (on_table (outbox.Claim io order locked w limit ttl))
     (λ out s', rely s s' ∧ ∀ rows, out = Ok rows → Forall (stored s') rows) s.
Proof.
  intros Hs. unfold wp, on_table, outbox.Claim. destruct (io_fault io 0); [by destruct s|].
  pose proof (claim_rely (io_now io) locked w limit (time.WholeSeconds ttl) s) as Hr.
  destruct (io_fault io 1); [by split|]. destruct (io_fault io 2); [by split|].
  destruct (io_fault io 3); [by split|]. split; [done|]. simpl. intros rows [= <-].
  rewrite order_perm. apply Forall_fmap, Forall_forall. intros [id e] Hc.
  apply candidates_claimable in Hc as [He _]. eapply evolves_stored; [apply Hr|].
  exists e. simpl. destruct (proj1 Hs _ _ He) as [-> _]. done.
Qed.

(** *** A batch among other processes *)

Lemma mark_row_rely (relay : Relay) (io : IO) (r : outbox.Row) (out : unit + error) (s : State) :
  stored s r → (out = inl () → sent s r) → wp (mark_row relay io r out) (λ _ s', rely s s') s.
Proof.
  intros Hr Hsent. destruct out as [[]|e]; simpl.
  - by apply MarkPublished_rely; [|apply Hsent].
  - apply wp_ignore, (wp_mono _ (λ _ s', rely s s')); [apply MarkFailed_rely|]. by intros [] ?.
Qed.

Section Interference.
Context (others : nat → State → State) (others_rely : ∀ n s, retained s → rely s (others n s)).

Lemma interfere_rely (n : nat) (Q : res unit → State → Prop) (s : State) :
  retained s → (∀ s', rely s s' → Q (Ok ()) s') → wp (interfere others n) Q s.
Proof. intros Hs HQ. by apply HQ, others_rely. Qed.

Lemma publish_rows_rely (relay : Relay) (io : nat → IO) (rows : list outbox.Row) (n : nat)
  (s : State) : retained s → Forall (stored s) rows →
  wp (publish_rows relay io others n rows) (λ _ s', rely s s') s.
Proof.
  revert n s. induction rows as [|r rows IH]; intros n s Hs Hrows; [by apply wp_ret|].
  cbn [publish_rows]. apply Forall_cons in Hrows as [Hr Hrows].
  apply wp_bind, interfere_rely; [done|]. intros s1 R1.
  apply wp_bind, wp_caught. eapply wp_mono; [apply Publish_spec|].
  intros out s2 (Ht & Hp & Hnew & Hok).
  assert (rely s s2) as R2.
  { etrans; [exact R1|]. eapply topic_grows_rely; [done..| |exact Hnew].
    eapply evolves_stored, Hr. apply R1. }
  assert (∀ out' : unit + error, (out' = inl () → sent s2 r) →
    wp (_ ← interfere others (S n); _ ← mark_row relay (io (S n)) r out';
        publish_rows relay io others (n + 2) rows) (λ _ s', rely s s') s2) as Hrest.
  { intros out' Hsent. apply wp_bind, interfere_rely; [by apply R2|]. intros s3 R3.
    assert (rely s s3) as Rs3 by (by etrans).
    apply wp_bind. eapply wp_mono.
    { apply mark_row_rely; [by eapply evolves_stored, Hr; apply Rs3|].
      intros Hin. eapply evolves_sent; [apply R3|auto]. }
    intros [[]|e|w] s4 R4; (assert (rely s s4) as Rs4 by (by etrans)); [|done..].
    eapply wp_mono; [apply IH; [by apply Rs4|]|intros ? s' R; by etrans].
    eapply Forall_impl; [exact Hrows|]. intros r'. apply evolves_stored, Rs4. }
  destruct out as [[]|e|w]; [|by apply Hrest|done]. apply Hrest. intros _. by apply Hok.
Qed.

Lemma runBatch_rely (relay : Relay) (io : nat → IO) (locked : string → bool) (s : State) :
  retained s → wp (runBatch relay io others locked) (λ _ s', rely s s') s.
Proof.
  intros Hs. apply wp_bind, interfere_rely; [done|]. intros s1 R1.
  apply wp_bind. eapply wp_mono; [apply Claim_spec; by apply R1|].
  intros [rows|e|w] s2 [R2 Hrows]; (assert (rely s s2) as Rs2 by (by etrans)); [|done..].
  eapply wp_mono; [apply publish_rows_rely; [by apply Rs2|by apply Hrows]|].
  intros ? s' R. by etrans.
Qed.
End Interference.

Lemma Run_rely (relay : Relay) (ticks : list Tick) (s : State) :
  Forall (λ t, ∀ n s, retained s → rely s (tick_others t n s)) ticks → retained s →
  wp (Run relay ticks) (λ _ s', rely s s') s.
Proof.
  revert s. induction ticks as [|t ticks IH]; intros s Ht Hs; [by apply wp_ret|].
  apply Forall_cons in Ht as [Ht Hts]. simpl. apply wp_bind, wp_caught.
  eapply wp_mono; [by apply runBatch_rely|]. intros out s1 R1. simpl in R1.
  assert (∀ out' : unit + error,
    wp match out', tick_ctx t 0, tick_ctx t 1 with
       | inr e, None, _ => fail e
       | _, _, Some _ => mret ()
       | _, _, None => Run relay ticks
       end (λ _ s', rely s s') s1) as Hnext.
  { intros out'. assert (wp (Run relay ticks) (λ _ s', rely s s') s1).
    { eapply wp_mono; [apply IH; [done|by apply R1]|]. intros ? s' R. by etrans. }
    by destruct out', (tick_ctx t 0), (tick_ctx t 1). }
  destruct out as [a|e|w]; [apply (Hnext (inl a))|apply (Hnext (inr e))|exact R1].
Qed.

(** C23 (safety): at-least-once publication. Whatever a relay does over any
    number of ticks, with sends whose acknowledgement is lost, updates that fail
    before or after they ran, and any number of other relays working on the same
    table in between (as long as each of them keeps the same promise), every row
    marked as published has its message on the topic, every message carries a row
    of the table, no row is lost or rewritten, and a published row is never touched again. *)
Theorem published_implies_sent (relay : Relay) (ticks : list Tick) (s : State) :
  (∀ t n s, t ∈ ticks → retained s → rely s (tick_others t n s)) → retained s →
  let s' := (Run relay ticks s).2 in retained s' ∧ evolves s s'.
Proof.
  intros Ht Hs. destruct (Run_rely relay ticks s) as [He Hr]; [|done|by auto].
  apply Forall_forall. intros t Hin n s0 Hs0. by apply Ht.
Qed.

(** *** A batch alone: everything due is published *)

Section Alone.
Context (relay : Relay) (io : nat → IO) (no_faults : ∀ n k, io_fault (io n) k = None).

Definition alone : nat → State → State := λ _ s, s.

(** The row can be sent; the worker holds its claim; it is done with. *)
Definition publishable (r : outbox.Row) : Prop :=
  events.Validate json_Valid (outbox.envelope r) = Ok () ∧
  is_ok (marshal (outbox.envelope r)).
Definition in_hand (s : State) (r : outbox.Row) : Prop := ∃ e,
  table s !! outbox.ID r = Some e ∧ outbox.row e = r ∧ outbox.holds_claim (workerID relay) e.
Definition done_with (s : State) (r : outbox.Row) : Prop := sent s r ∧ ∃ e,
  table s !! outbox.ID r = Some e ∧ outbox.row e = r ∧ is_Some (outbox.published_at e).

(** One iteration on a row in hand. *)
Lemma publish_row_alone (n : nat) (r : outbox.Row) (rows : list outbox.Row) (s : State) :
  publishable r → in_hand s r → ∃ s',
  publish_rows relay io alone n (r :: rows) s = publish_rows relay io alone (n + 2) rows s' ∧
  done_with s' r ∧ topic s `prefix_of` topic s' ∧
  ∀ id, id ≠ outbox.ID r → table s' !! id = table s !! id.
Proof.
  intros [Hv Hm] (e & He & Hr & Hc). destruct (marshal (outbox.envelope r)) as [enc|?|?] eqn:Henc;
    [|done..].
  set (msg := kafka.message inject (io n) (outbox.envelope r) enc).
  exists (mkState (alter (outbox.published_entry (io_now (io (S n))) (workerID relay)) (outbox.ID r)
                    (table s)) (topic s ++ [msg])).
  split_and!.
  - cbn [publish_rows]. unfold mbind, M_bind, interfere, alone, caught, on_topic, kafka.Publish.
    rewrite Hv, Henc, !no_faults. cbn [mark_row]. unfold on_table, outbox.MarkPublished,
      outbox.update_one. rewrite !no_faults. done.
  - split.
    + exists msg. split; [|split; [done|by exists (io n), enc]]. apply elem_of_app. right.
      by apply list_elem_of_singleton.
    + eexists. cbn [table]. rewrite lookup_alter_eq, He. split; [done|].
      unfold outbox.published_entry. destruct outbox.holds_claim; [|done]. simpl. eauto.
  - apply prefix_app_r, (reflexivity (topic s)).
  - intros id Hne. simpl. by rewrite lookup_alter_ne.
Qed.

Lemma publish_rows_alone (rows : list outbox.Row) (n : nat) (s : State) :
  NoDup (outbox.ID <$> rows) → Forall publishable rows → Forall (in_hand s) rows →
  ∃ s', publish_rows relay io alone n rows s = (Ok (), s') ∧ Forall (done_with s') rows ∧
        topic s `prefix_of` topic s' ∧
        ∀ id, id ∉ outbox.ID <$> rows → table s' !! id = table s !! id.
Proof.
  revert n s. induction rows as [|r rows IH]; intros n s Hnd Hp Hh; [by exists s|].
  rewrite fmap_cons in Hnd |- *. apply NoDup_cons in Hnd as [Hr Hnd].
  apply Forall_cons in Hp as [Hpr Hp]. apply Forall_cons in Hh as [Hhr Hh].
  destruct (publish_row_alone n r rows s Hpr Hhr) as (s1 & -> & [Hs1 Hd1] & Ht1 & Hk1).
  destruct (IH (n + 2)%nat s1) as (s' & -> & Hd & Ht & Hk); [done..| |].
  { apply Forall_forall. intros r' Hr'. rewrite Forall_forall in Hh. specialize (Hh _ Hr').
    unfold in_hand. rewrite Hk1; [done|]. intros Heq. apply Hr. rewrite <- Heq.
    by apply list_elem_of_fmap_2. }
  exists s'. split_and!; [done| |by etrans|].
  - constructor; [|done]. split.
    + destruct Hs1 as (m & Hin & Hm). exists m. split; [|done].
      destruct Ht as [l ->]. apply elem_of_app. by left.
    + by rewrite (Hk _ Hr).
  - intros id Hid. apply not_elem_of_cons in Hid as [Hid1 Hid2]. by rewrite Hk, Hk1.
Qed.

(** The rows due at [now], under the relay's claim timeout of one minute. *)
Definition due (now : time.Time) (tbl : outbox.Table) : list (string * outbox.Entry) :=
  List.filter (λ ie, outbox.claimable now 60 ie.2) (map_to_list tbl).

Lemma candidates_due (now : time.Time) (limit : nat) (tbl : outbox.Table) :
  (length (due now tbl) <= limit)%nat →
  outbox.candidates now (λ _, false) limit (time.WholeSeconds time.Minute) tbl ≡ₚ due now tbl.
Proof.
  intros Hlen. unfold outbox.candidates.
  change (time.WholeSeconds time.Minute) with 60.
  erewrite (List.filter_ext _ (λ ie : string * outbox.Entry, outbox.claimable now 60 ie.2))
    by (intros []; simpl; by rewrite andb_true_r).
  assert (List.filter (λ ie : string * outbox.Entry, outbox.claimable now 60 ie.2)
            (sort.SliceStable (λ a b, outbox.created_at a.2 <? outbox.created_at b.2)
               (map_to_list tbl)) ≡ₚ due now tbl) as Hperm.
  { unfold due. generalize (sort.SliceStable_Permutation
      (λ a b : string * outbox.Entry, outbox.created_at a.2 <? outbox.created_at b.2)
      (map_to_list tbl)).
    generalize (sort.SliceStable (λ a b : string * outbox.Entry, outbox.created_at a.2 <?
      outbox.created_at b.2) (map_to_list tbl)). intros l Hl.
    induction Hl; simpl; repeat case_match; eauto using Permutation_swap, Permutation_trans. }
  rewrite take_ge; [done|]. by rewrite Hperm.
Qed.

Lemma due_spec (now : time.Time) (tbl : outbox.Table) (id : string) (e : outbox.Entry) :
  (id, e) ∈ due now tbl ↔ tbl !! id = Some e ∧ outbox.claimable now 60 e = true.
Proof.
  unfold due. by rewrite list_elem_of_In, filter_In, <- list_elem_of_In, elem_of_map_to_list.
Qed.

Lemma claimable_unpublished (now : time.Time) (ttl : Z) (e : outbox.Entry) :
  outbox.claimable now ttl e = true → outbox.published_at e = None.
Proof. unfold outbox.claimable. intros Hc. by reflect. Qed.

(** What an undisturbed claim takes: its candidates, once each, and nothing else. *)
Lemma Claim_quiet (s : State) :
  let cs := outbox.candidates (io_now (io 0%nat)) (λ _, false) (Z.to_nat (batchSize relay))
              (time.WholeSeconds time.Minute) (table s) in
  retained s →
  ∃ rows s', on_table (outbox.Claim (io 0%nat) order (λ _, false) (workerID relay)
      (Z.to_nat (batchSize relay)) time.Minute) s = (Ok rows, s') ∧
    topic s' = topic s ∧ rows ≡ₚ outbox.row ∘ snd <$> cs ∧ outbox.ID <$> rows ≡ₚ cs.*1 ∧
    NoDup (outbox.ID <$> rows) ∧ Forall (in_hand s') rows ∧
    ∀ id e, table s !! id = Some e → id ∉ cs.*1 → table s' !! id = Some e.
Proof.
  intros cs Hs. pose proof (candidates_NoDup (io_now (io 0%nat)) (λ _, false)
    (Z.to_nat (batchSize relay)) (time.WholeSeconds time.Minute) (table s)) as Hnd. fold cs in Hnd.
  assert (∀ id e, (id, e) ∈ cs → table s !! id = Some e ∧ outbox.ID (outbox.row e) = id ∧
            outbox.published_at e = None) as Hin.
  { intros id e [He Hc]%candidates_claimable. split; [done|]. split; [by apply Hs|].
    by eapply claimable_unpublished. }
  assert (outbox.ID <$> (outbox.row ∘ snd <$> cs) = cs.*1) as Hids.
  { rewrite <- list_fmap_compose. apply list_fmap_ext. intros i [id e] Hi.
    by apply list_elem_of_lookup_2, Hin in Hi as (_ & ? & _). }
  unfold on_table, outbox.Claim. rewrite !no_faults. fold cs. do 2 eexists. split; [done|].
  split_and!; [done|apply order_perm|by rewrite order_perm, Hids|by rewrite order_perm, Hids| |].
  - rewrite order_perm. apply Forall_fmap, Forall_forall. intros [id e] Hie. cbn [compose snd].
    destruct (Hin _ _ Hie) as (He & Hid & Hp).
    exists (outbox.claim_entry (io_now (io 0%nat)) (workerID relay) e). cbn [table].
    rewrite Hid, claim_all_lookup, He by done.
    rewrite bool_decide_eq_true_2 by (apply list_elem_of_fmap; by exists (id, e)).
    split_and!; [done..|]. unfold outbox.holds_claim. simpl. rewrite Hp. by rewrite !bool_decide_eq_true_2.
  - intros id e He Hid. cbn [table]. rewrite claim_all_lookup, He by done.
    by rewrite bool_decide_eq_false_2.
Qed.

(** An undisturbed claim takes exactly the rows due, once each. *)
Lemma Claim_alone (s : State) :
  let now := io_now (io 0%nat) in
  retained s →
  (length (due now (table s)) <= Z.to_nat (batchSize relay))%nat →
  ∃ rows s', on_table (outbox.Claim (io 0%nat) order (λ _, false) (workerID relay)
      (Z.to_nat (batchSize relay)) time.Minute) s = (Ok rows, s') ∧
    NoDup (outbox.ID <$> rows) ∧ Forall (in_hand s') rows ∧
    (∀ r, r ∈ rows → ∃ id e, table s !! id = Some e ∧ outbox.claimable now 60 e = true ∧
                             outbox.row e = r) ∧
    ∀ id e, table s !! id = Some e →
      if outbox.claimable now 60 e then outbox.row e ∈ rows
      else (id ∉ outbox.ID <$> rows) ∧ table s' !! id = Some e.
Proof.
  intros now Hs Hlen. pose proof (candidates_due now _ _ Hlen) as Hcs.
  destruct (Claim_quiet s Hs) as (rows & s' & Hrun & _ & Hrows & Hids & Hnd & Hh & Hk).
  fold now in Hrows, Hids, Hk. rewrite Hcs in Hrows.
  assert (∀ id, id ∈ outbox.ID <$> rows ↔
            ∃ e, table s !! id = Some e ∧ outbox.claimable now 60 e = true) as Hin.
  { intros id. rewrite Hids, Hcs, list_elem_of_fmap. split.
    - intros ([id' e] & -> & [? ?]%due_spec). eauto.
    - intros (e & ? & ?). exists (id, e). by rewrite due_spec. }
  exists rows, s'. split_and!; [done..| |].
  - intros r Hr. rewrite Hrows in Hr. apply list_elem_of_fmap in Hr as ([id e] & -> & [? ?]%due_spec). eauto.
  - intros id e He. destruct (outbox.claimable now 60 e) eqn:Hc.
    + rewrite Hrows. apply list_elem_of_fmap. exists (id, e). by rewrite due_spec.
    + assert (id ∉ outbox.ID <$> rows) as Hid by (intros (e' & ? & ?)%Hin; congruence).
      split; [done|]. apply Hk; [done|]. by rewrite <- Hids.
Qed.

(** C28 (liveness): nothing due is left behind. When no exchange fails and nobody
    interferes, a batch large enough for the rows that are due (unpublished,
    available, and not under a fresh claim: in particular those whose relay died
    more than a minute ago) returns normally with each of them published and its
    message on the topic, provided the events are well formed; every other row is
    as it was. *)
Theorem runBatch_drains (s : State) :
  let now := io_now (io 0%nat) in
  retained s →
  (length (due now (table s)) <= Z.to_nat (batchSize relay))%nat →
  (∀ id e, table s !! id = Some e → outbox.claimable now 60 e = true →
           publishable (outbox.row e)) →
  ∃ s', runBatch relay io alone (λ _, false) s = (Ok (), s') ∧
    ∀ id e, table s !! id = Some e →
      if outbox.claimable now 60 e then done_with s' (outbox.row e)
      else table s' !! id = Some e.
Proof.
  intros now Hs Hlen Hpub. destruct (Claim_alone s Hs Hlen) as (rows & s1 & Hc & Hnd & Hh & Hdue & Hk).
  unfold runBatch, mbind, M_bind, interfere, alone. rewrite Hc. cbv beta iota.
  destruct (publish_rows_alone rows 1 s1 Hnd) as (s' & Hrun & Hd & _ & Hrest); [|done|].
  { apply Forall_forall. intros r (id & e & ? & ? & <-)%Hdue. eauto. }
  exists s'. split; [exact Hrun|]. intros id e He. specialize (Hk _ _ He).
  destruct (outbox.claimable (io_now (io 0%nat)) 60 e) eqn:Hce; fold now in Hce; rewrite Hce.
  - rewrite Forall_forall in Hd. by apply Hd.
  - destruct Hk as [Hid <-]. by apply Hrest.
Qed.
End Alone.
End Relay.
End relay.

(** ** Concrete relays

    Two rows, one of them left claimed by a relay that died; the broker loses
    the first acknowledgement while a second relay works on the same table. *)
Module relay_demo.
Definition valid : string → bool := λ _, true.
Definition trace (io : IO) : list (string * string) := [].
Definition now : time.Time := 3600 * time.Second.

Definition row (id : string) : outbox.Row :=
  outbox.mkRow id events.UsageRecorded 1 "request-1" "tenant-1" "corr-1" "" "{}" time.Second.
(** An encoder for the events of such rows. *)
Definition marshal (e : events.Envelope) : res string :=
  if decide (e = outbox.envelope (row (events.EventID e))) then Ok (events.EventID e)
  else Err (New "unsupported value").
Definition entry (id : string) (claim : option (time.Time * string)) : outbox.Entry :=
  outbox.mkEntry (row id) 0 0 (fst <$> claim) (snd <$> claim) 0 None None.
Definition start : relay.State := relay.mkState
  {["a" := entry "a" None; "b" := entry "b" (Some (now - 120 * time.Second, "dead"))]} [].

Definition backwards : list outbox.Row → list outbox.Row := rev (A:=outbox.Row).
Definition calm : nat → IO := λ _, quiet now [].
Definition lossy : nat → IO := λ n,
  if (n =? 1)%nat then mkIO now [] (λ _, None) (λ k, if (k =? 1)%nat then Some (New "timeout") else None)
  else calm n.
Definition first : relay.Relay := relay.NewRelay "first" 0 0.
Definition second : relay.Relay := relay.NewRelay "second" 10 time.Second.
(** The first relay is slow: the second takes over its claims. *)
Definition later : nat → IO := λ _, quiet (now + 120 * time.Second) [].
Definition batch_of_second (n : nat) (s : relay.State) : relay.State :=
  if (n =? 0)%nat then s
  else (relay.runBatch valid marshal trace backwards second later relay.alone (λ _, false) s).2.
Definition tick : relay.Tick := relay.mkTick (λ _, None) lossy batch_of_second (λ _, false).

Lemma start_entries (id : string) (e : outbox.Entry) :
  relay.table start !! id = Some e → ∃ claim, e = entry id claim.
Proof.
  unfold start. cbn [relay.table]. intros He.
  apply lookup_insert_Some in He as [[<- <-]|[_ He]]; [by eexists|].
  apply lookup_singleton_Some in He as [<- <-]. by eexists.
Qed.

Lemma start_retained : relay.retained valid marshal trace start.
Proof.
  split; [|by intros m ?%not_elem_of_nil].
  intros id e [claim ->]%start_entries. split; [done|by intros []].
Qed.

Lemma backwards_perm (rows : list outbox.Row) : backwards rows ≡ₚ rows.
Proof. symmetry. apply Permutation_rev. Qed.

Lemma second_rely (n : nat) (s : relay.State) :
  relay.retained valid marshal trace s → relay.rely valid marshal trace s (batch_of_second n s).
Proof.
  intros Hs. unfold batch_of_second. destruct (n =? 0)%nat; [reflexivity|].
  eapply (relay.runBatch_rely valid marshal trace backwards backwards_perm relay.alone); [|exact Hs].
  intros ? ? _. reflexivity.
Qed.

Lemma published_implies_sent_witness :
  let s' := (relay.Run valid marshal trace backwards first [tick; tick] start).2 in
  relay.retained valid marshal trace s' ∧ relay.evolves start s' ∧
  ∃ e, relay.table s' !! "a" = Some e ∧ outbox.published_at e = Some (now + 120 * time.Second).
Proof.
  intros s'.
  destruct (relay.published_implies_sent valid marshal trace backwards backwards_perm first [tick; tick] start)
    as [Hr He].
  - intros t n s Ht Hs. assert (t = tick) as -> by set_solver. exact (second_rely n s Hs).
  - exact start_retained.
  - split; [exact Hr|]. split; [exact He|]. eexists. vm_compute. split; reflexivity.
Defined.

Lemma runBatch_drains_witness :
  ∃ s', relay.runBatch valid marshal trace backwards second calm relay.alone (λ _, false) start = (Ok (), s') ∧
        relay.done_with valid marshal trace s' (row "b").
Proof.
  destruct (relay.runBatch_drains valid marshal trace backwards backwards_perm second calm (λ _ _, eq_refl) start)
    as (s' & Hs & Hd).
  - exact start_retained.
  - vm_compute. lia.
  - intros id e He Hc. split; [|by apply start_entries in He as [claim ->]; unfold marshal; rewrite decide_True].
    destruct (decide (id = "")) as [->|Hne].
    + vm_compute in He. discriminate.
    + apply start_entries in He as [claim ->]. unfold events.Validate. simpl.
      by rewrite (proj2 (String.eqb_neq _ _) Hne).
  - exists s'. split; [exact Hs|].
    exact (Hd "b" (entry "b" (Some (now - 120 * time.Second, "dead"))) eq_refl).
Defined.
End relay_demo.
