(* ===== verification/AuditTrail.v ===== *)
(** * AuditTrail: the consumer of the topic and its exactly-once effects

    Models [src/internal/persistence/audit.go] (the transaction that applies an
    event together with its deduplication marker) and
    [src/internal/kafka/consumer.go] (the loop that acknowledges a message after
    that transaction). A transaction is one atomic step on its tables: its
    marker's primary key serialises concurrent transactions on one event. The
    JSON decoders are parameters. *)

From S2P Require Import Prelude Golib Outbox.

Module audit.

(** The usage payload. *)
Record Usage : Type := mkUsage {
  RequestID : string;
  PromptTokens : Z;
  CompletionTokens : Z;
  CostMicroUSD : Z
}.

(** Rows of [audit_events] and [usage_ledger] without their keys. *)
Record AuditRow : Type := mkAuditRow {
  tenant_id : string;
  event_type : string;
  event_version : Z;
  aggregate_id : string;
  correlation_id : string;
  causation_id : option string;
  payload : string;
  occurred_at : time.Time
}.

Record LedgerRow : Type := mkLedgerRow {
  usage : Usage;
  recorded_for : time.Time
}.

(** The three tables by their unique keys: consumer and event, event, tenant and
    event. *)
Record DB : Type := mkDB {
  processed : gmap (string * string) (string * Z);
  audit_events : gmap string AuditRow;
  usage_ledger : gmap (string * string) LedgerRow
}.

(** INSERT ... ON CONFLICT DO NOTHING. *)
Definition insert_new {K V} `{Countable K} (k : K) (v : V) (m : gmap K V) : gmap K V :=
  match m !! k with Some _ => m | None => <[k := v]> m end.

Definition nilIfEmpty (value : string) : option string :=
  if value =s "" then None else Some value.

Definition audit_row (event : events.Envelope) : AuditRow :=
  mkAuditRow (events.TenantID event) (events.EventType event) (events.Version event)
    (events.AggregateID event) (events.CorrelationID event)
    (nilIfEmpty (events.CausationID event)) (events.Payload event) (events.Timestamp event).

Section Process.
#[local] Set Default Proof Using "Type".
(** [json.Valid], and [json.Unmarshal] into the usage payload. *)
Context (json_Valid : string → bool) (decode : string → res Usage).

Definition mark (name : string) (event : events.Envelope) (db : DB) : DB :=
  mkDB (<[(name, events.EventID event) := (events.EventType event, events.Version event)]>
          (processed db)) (audit_events db) (usage_ledger db).
Definition insert_audit (event : events.Envelope) (db : DB) : DB :=
  mkDB (processed db) (insert_new (events.EventID event) (audit_row event) (audit_events db))
    (usage_ledger db).
Definition insert_usage (event : events.Envelope) (u : Usage) (db : DB) : DB :=
  mkDB (processed db) (audit_events db)
    (insert_new (events.TenantID event, events.EventID event)
       (mkLedgerRow u (events.Timestamp event)) (usage_ledger db)).

Definition is_usage (event : events.Envelope) : bool :=
  events.EventType event =s events.UsageRecorded.

(** The usage part of the transaction; fault 3 is its insert. *)
Definition record_usage (io : IO) (event : events.Envelope) (db : DB) : res DB :=
  if is_usage event then
    match decode (events.Payload event) with
    | Ok u =>
      match io_fault io 3 with
      | Some e => Err (Wrap "insert usage ledger entry" e)
      | None => Ok (insert_usage event u db)
      end
    | Err e => Err (Wrap "decode usage event" e)
    | Panic w => Panic w
    end
  else Ok db.

(** A failed statement rolls everything back; a failed COMMIT is lost before it
    took effect (fault 4) or its answer is lost after (fault 5). *)
Definition ProcessKafkaEvent (io : IO) (consumerName : string) (event : events.Envelope)
  : M DB bool := λ db,
  match events.Validate json_Valid event with
  | Err e => (Err e, db)
  | Panic w => (Panic w, db)
  | Ok _ =>
    match io_fault io 0, io_fault io 1 with
    | Some e, _ => (Err (Wrap "begin Kafka event processing" e), db)
    | None, Some e => (Err (Wrap "insert processed event marker" e), db)
    | None, None =>
      match processed db !! (consumerName, events.EventID event) with
      | Some _ =>
        match io_fault io 4 with
        | Some e => (Err (Wrap "commit duplicate event" e), db)
        | None => (Ok false, db)
        end
      | None =>
        match io_fault io 2 with
        | Some e => (Err (Wrap "insert immutable audit event" e), db)
        | None =>
          match record_usage io event (insert_audit event (mark consumerName event db)) with
          | Err e => (Err e, db)
          | Panic w => (Panic w, db)
          | Ok db' =>
            match io_fault io 4, io_fault io 5 with
            | Some e, _ => (Err (Wrap "commit Kafka event processing" e), db)
            | None, Some e => (Err (Wrap "commit Kafka event processing" e), db')
            | None, None => (Ok true, db')
            end
          end
        end
      end
    end
  end.

(** *** Reference semantics: an event applied once *)

Definition apply_event (name : string) (event : events.Envelope) (db : DB) : DB :=
  let db := insert_audit event (mark name event db) in
  match is_usage event, decode (events.Payload event) with
  | true, Ok u => insert_usage event u db
  | _, _ => db
  end.

(** Deliveries in order, each with its outside world. *)
Definition deliver_all (name : string) (ds : list (IO * events.Envelope)) (db : DB) : DB :=
  foldl (λ db d, (ProcessKafkaEvent d.1 name d.2 db).2) db ds.

Definition known (name : string) (db : DB) (id : string) : Prop :=
  is_Some (processed db !! (name, id)).

(** Everything recorded carries the consumer's marker. *)
Definition coherent (name : string) (db : DB) : Prop :=
  (∀ id, is_Some (audit_events db !! id) → known name db id) ∧
  (∀ tenant id, is_Some (usage_ledger db !! (tenant, id)) → known name db id).

Lemma empty_coherent (name : string) : coherent name (mkDB ∅ ∅ ∅).
Proof. split; intros *; simpl; rewrite lookup_empty; by intros []. Qed.

(** What the ledger says a tenant has used, and what an event adds to it. *)
Definition spent (tenant : string) (db : DB) : Z :=
  zsum ((λ kv : (string * string) * LedgerRow,
           if kv.1.1 =s tenant then CostMicroUSD (usage kv.2) else 0) <$> map_to_list (usage_ledger db)).
Definition charge (tenant : string) (event : events.Envelope) : Z :=
  match is_usage event, decode (events.Payload event) with
  | true, Ok u => if events.TenantID event =s tenant then CostMicroUSD u else 0
  | _, _ => 0
  end.

(** The transaction either applies the event, which it does only to an unknown
    one, or leaves the tables alone; it acknowledges only known events. *)
Lemma Process_cases (io : IO) (name : string) (event : events.Envelope) (db : DB) :
  let '(out, db') := ProcessKafkaEvent io name event db in
  (db' = db ∧ (is_ok out → known name db (events.EventID event) ∧ out = Ok false)) ∨
  (processed db !! (name, events.EventID event) = None ∧ db' = apply_event name event db ∧
   (is_ok out → out = Ok true)).
Proof.
  unfold ProcessKafkaEvent. destruct events.Validate; [|by left..].
  destruct (io_fault io 0); [by left|]. destruct (io_fault io 1); [by left|].
  destruct (processed db !! _) eqn:Hp.
  { destruct (io_fault io 4); [by left|]. left. split; [done|]. intros _. split; [by eexists|done]. }
  destruct (io_fault io 2); [by left|].
  destruct record_usage as [db'|?|?] eqn:Hu; [|by left..].
  assert (db' = apply_event name event db) as ->.
  { unfold record_usage, apply_event in *. destruct (is_usage event); [|by simplify_eq].
    destruct (decode _); [|done..]. destruct (io_fault io 3); by simplify_eq. }
  destruct (io_fault io 4); [by left|]. destruct (io_fault io 5); by right.
Qed.

Lemma insert_new_lookup {K V} `{Countable K} (k k' : K) (v : V) (m : gmap K V) :
  m !! k = None → insert_new k v m !! k' = if decide (k = k') then Some v else m !! k'.
Proof. intros Hk. unfold insert_new. rewrite Hk. destruct (decide (k = k')); by simplify_map_eq. Qed.

Lemma apply_processed (name : string) (event : events.Envelope) (db : DB) :
  processed (apply_event name event db) =
  <[(name, events.EventID event) := (events.EventType event, events.Version event)]> (processed db).
Proof. unfold apply_event. by destruct (is_usage event), (decode (events.Payload event)). Qed.

Lemma apply_audit (name : string) (event : events.Envelope) (db : DB) :
  audit_events (apply_event name event db) =
  insert_new (events.EventID event) (audit_row event) (audit_events db).
Proof. unfold apply_event. by destruct (is_usage event), (decode (events.Payload event)). Qed.

Lemma apply_known (name : string) (event : events.Envelope) (db : DB) (id : string) :
  known name (apply_event name event db) id ↔ id = events.EventID event ∨ known name db id.
Proof.
  unfold known. rewrite apply_processed. destruct (decide (id = events.EventID event)) as [->|Hne].
  - rewrite lookup_insert_eq. split; eauto.
  - rewrite lookup_insert_ne by (intros [= ?]; done). split; [by right|by intros [?|?]].
Qed.

Lemma coherent_unknown (name : string) (event : events.Envelope) (db : DB) :
  coherent name db → processed db !! (name, events.EventID event) = None →
  audit_events db !! events.EventID event = None ∧
  ∀ tenant, usage_ledger db !! (tenant, events.EventID event) = None.
Proof. clear json_Valid.
  intros [Ha Hl] Hp. split; [|intros tenant]; apply eq_None_not_Some.
  - intros H'%Ha. unfold known in H'. rewrite Hp in H'. by destruct H'.
  - intros H'%Hl. unfold known in H'. rewrite Hp in H'. by destruct H'.
Qed.

Lemma apply_coherent (name : string) (event : events.Envelope) (db : DB) :
  coherent name db → coherent name (apply_event name event db).
Proof. clear json_Valid.
  intros [Ha Hl]. split.
  - intros id. rewrite apply_audit, apply_known. unfold insert_new.
    destruct (audit_events db !! events.EventID event) eqn:He; [by auto|].
    destruct (decide (id = events.EventID event)); [by left|]. rewrite lookup_insert_ne by done. auto.
  - intros tenant id. rewrite apply_known. unfold apply_event.
    destruct (is_usage event), (decode (events.Payload event)); simpl; [|by eauto..]. unfold insert_new.
    destruct (usage_ledger db !! (events.TenantID event, events.EventID event)); [by eauto|].
    destruct (decide (id = events.EventID event)); [by left|].
    rewrite lookup_insert_ne by congruence. eauto.
Qed.

Lemma apply_spent (name tenant : string) (event : events.Envelope) (db : DB) :
  coherent name db → processed db !! (name, events.EventID event) = None →
  spent tenant (apply_event name event db) = charge tenant event + spent tenant db.
Proof. clear json_Valid.
  intros Hc Hp. destruct (coherent_unknown name event db Hc Hp) as [_ Hl].
  unfold apply_event, charge. destruct (is_usage event), (decode (events.Payload event)) as [u|?|?]; try done.
  unfold spent, insert_usage, insert_new. simpl. rewrite Hl.
  rewrite map_to_list_insert by done. rewrite fmap_cons, zsum_cons. done.
Qed.

(** *** Many deliveries *)

Definition replay (name : string) (evs : list events.Envelope) (db : DB) : DB :=
  foldl (λ db ev, apply_event name ev db) db evs.
Definition unknown (name : string) (db : DB) (ev : events.Envelope) : Prop :=
  processed db !! (name, events.EventID ev) = None.

Lemma unknown_apply (name : string) (ev ev' : events.Envelope) (db : DB) :
  unknown name (apply_event name ev db) ev' ↔
  events.EventID ev' ≠ events.EventID ev ∧ unknown name db ev'.
Proof. clear json_Valid.
  unfold unknown. rewrite !eq_None_not_Some. fold (known name db (events.EventID ev')).
  fold (known name (apply_event name ev db) (events.EventID ev')). rewrite apply_known. tauto.
Qed.

Lemma unknown_rest (name : string) (ev : events.Envelope) (evs : list events.Envelope) (db : DB) :
  events.EventID ev ∉ events.EventID <$> evs → Forall (unknown name db) evs →
  Forall (unknown name (apply_event name ev db)) evs.
Proof. clear json_Valid.
  intros Hev Hun. apply Forall_forall. intros ev' Hin. apply unknown_apply.
  rewrite Forall_forall in Hun. split; [|by apply Hun]. intros Heq. apply Hev. rewrite <- Heq.
  by apply list_elem_of_fmap_2.
Qed.

(** Deliveries amount to applying some of the events, each identifier once. *)
Lemma deliver_all_replay (name : string) (ds : list (IO * events.Envelope)) (db : DB) :
  ∃ committed, committed `sublist_of` ds.*2 ∧ NoDup (events.EventID <$> committed) ∧
    Forall (unknown name db) committed ∧ deliver_all name ds db = replay name committed db.
Proof.
  revert db. induction ds as [|[io ev] ds IH]; intros db.
  { exists []. split_and!; [constructor..|done]. }
  unfold deliver_all. cbn [foldl fst snd].
  pose proof (Process_cases io name ev db) as Hc.
  destruct (ProcessKafkaEvent io name ev db) as [out db1]. cbn [snd].
  destruct (IH db1) as (evs & Hsub & Hnd & Hun & Hrun). unfold deliver_all in Hrun. rewrite Hrun.
  destruct Hc as [[-> _]|(Hp & -> & _)].
  - exists evs. split_and!; [by apply sublist_cons|done..].
  - exists (ev :: evs). split_and!; [by apply sublist_skip| | |done].
    + rewrite fmap_cons. apply NoDup_cons. split; [|done].
      intros (ev' & Heq & Hin)%list_elem_of_fmap. rewrite Forall_forall in Hun.
      by apply Hun, unknown_apply in Hin as [Hne _].
    + constructor; [done|]. eapply Forall_impl; [exact Hun|]. by intros ev' [_ ?]%unknown_apply.
Qed.

Lemma replay_known (name : string) (evs : list events.Envelope) (db : DB) (id : string) :
  known name (replay name evs db) id ↔ known name db id ∨ id ∈ events.EventID <$> evs.
Proof. clear json_Valid.
  revert db. induction evs as [|ev evs IH]; intros db; simpl.
  - rewrite elem_of_nil. tauto.
  - unfold replay in *. cbn [foldl]. rewrite IH, apply_known, elem_of_cons. tauto.
Qed.

Lemma replay_coherent (name : string) (evs : list events.Envelope) (db : DB) :
  coherent name db → coherent name (replay name evs db).
Proof. revert db. induction evs as [|ev evs IH]; intros db Hc; [done|]. by apply IH, apply_coherent. Qed.

(** Rows of known events stay as they are. *)
Lemma replay_audit_keep (name : string) (evs : list events.Envelope) (db : DB) (id : string)
  (row : AuditRow) :
  audit_events db !! id = Some row → audit_events (replay name evs db) !! id = Some row.
Proof. clear json_Valid.
  revert db. induction evs as [|ev evs IH]; intros db Hid; [done|]. apply IH.
  rewrite apply_audit. unfold insert_new. destruct (audit_events db !! events.EventID ev) eqn:He; [done|].
  rewrite lookup_insert_ne; [done|congruence].
Qed.

Lemma replay_effects (name : string) (evs : list events.Envelope) (db : DB) :
  coherent name db → NoDup (events.EventID <$> evs) → Forall (unknown name db) evs →
  (∀ ev, ev ∈ evs →
     audit_events (replay name evs db) !! events.EventID ev = Some (audit_row ev)) ∧
  (∀ tenant, spent tenant (replay name evs db) = spent tenant db + zsum (charge tenant <$> evs)).
Proof. clear json_Valid.
  revert db. induction evs as [|ev evs IH]; intros db Hc Hnd Hun.
  { split; [by intros ev ?%not_elem_of_nil|]. intros tenant. simpl. unfold zsum. simpl. lia. }
  rewrite fmap_cons in Hnd. apply NoDup_cons in Hnd as [Hev Hnd].
  apply Forall_cons in Hun as [Hu Hun].
  destruct (IH (apply_event name ev db)) as [Ha Hs];
    [by apply apply_coherent|done|by apply unknown_rest|].
  unfold replay in *. cbn [foldl]. split.
  - intros ev' [->|Hin]%elem_of_cons; [|by apply Ha]. apply replay_audit_keep. rewrite apply_audit.
    rewrite insert_new_lookup by by eapply coherent_unknown. by rewrite decide_True.
  - intros tenant. rewrite Hs, fmap_cons, zsum_cons, apply_spent by done. lia.
Qed.

Lemma deliver_all_known (name : string) (ds : list (IO * events.Envelope)) (db : DB) (id : string) :
  known name db id → known name (deliver_all name ds db) id.
Proof.
  intros Hk. destruct (deliver_all_replay name ds db) as (evs & _ & _ & _ & ->).
  apply replay_known. by left.
Qed.

Lemma Process_acknowledged (io : IO) (name : string) (ev : events.Envelope) (db : DB) :
  is_ok (ProcessKafkaEvent io name ev db).1 →
  known name (ProcessKafkaEvent io name ev db).2 (events.EventID ev).
Proof.
  intros Hok. pose proof (Process_cases io name ev db) as Hc.
  destruct (ProcessKafkaEvent io name ev db) as [out db']. simpl in *.
  destruct Hc as [[-> Hk]|(_ & -> & _)]; [by apply Hk|]. apply apply_known. by left.
Qed.

(** The ledger after applying unknown events with distinct identifiers. *)
Definition ledger_of (ev : events.Envelope) (k : string * string) (row : LedgerRow) : Prop :=
  k = (events.TenantID ev, events.EventID ev) ∧ is_usage ev = true ∧
  ∃ u, decode (events.Payload ev) = Ok u ∧ row = mkLedgerRow u (events.Timestamp ev).

Lemma apply_ledger (name : string) (ev : events.Envelope) (db : DB) (k : string * string)
  (row : LedgerRow) : coherent name db → unknown name db ev →
  usage_ledger (apply_event name ev db) !! k = Some row ↔
  ledger_of ev k row ∨ usage_ledger db !! k = Some row.
Proof. clear json_Valid.
  intros Hc Hu. destruct (coherent_unknown name ev db Hc Hu) as [_ Hl].
  unfold apply_event, ledger_of.
  destruct (is_usage ev) eqn:Hev, (decode (events.Payload ev)) as [u|?|?] eqn:Hd; simpl;
    [|naive_solver..].
  rewrite insert_new_lookup by apply Hl. destruct (decide (_ = k)) as [<-|Hne]; [|naive_solver].
  rewrite Hl. naive_solver.
Qed.

Lemma replay_ledger (name : string) (evs : list events.Envelope) (db : DB)
  (k : string * string) (row : LedgerRow) :
  coherent name db → NoDup (events.EventID <$> evs) → Forall (unknown name db) evs →
  usage_ledger (replay name evs db) !! k = Some row ↔
  (∃ ev, ev ∈ evs ∧ ledger_of ev k row) ∨ usage_ledger db !! k = Some row.
Proof. clear json_Valid.
  revert db. induction evs as [|ev evs IH]; intros db Hc Hnd Hun.
  { simpl. split; [by right|]. intros [(ev & ?%not_elem_of_nil & _)|?]; done. }
  rewrite fmap_cons in Hnd. apply NoDup_cons in Hnd as [Hev Hnd].
  apply Forall_cons in Hun as [Hu Hun]. unfold replay in *. cbn [foldl].
  rewrite IH; [|by apply apply_coherent|done|by apply unknown_rest].
  rewrite apply_ledger by done. set_solver.
Qed.

(** Exactly-once effects. Whatever is delivered to the audit
    consumer, in any order, any number of times, with transactions that fail at
    any statement and commits whose answer is lost, the tables end as if some of
    the delivered events had been applied once each in order: every event
    identifier at most once, one immutable audit row per applied event, and each
    tenant's recorded usage grown by exactly the sum of the applied usage events;
    and an event whose processing was ever acknowledged is among the recorded
    ones. *)
Theorem exactly_once_effects (name : string) (ds : list (IO * events.Envelope)) (db : DB) :
  coherent name db →
  let db' := deliver_all name ds db in
  coherent name db' ∧
  (∃ committed, committed `sublist_of` ds.*2 ∧ NoDup (events.EventID <$> committed) ∧
     Forall (unknown name db) committed ∧
     (∀ id, known name db' id ↔ known name db id ∨ id ∈ events.EventID <$> committed) ∧
     (∀ ev, ev ∈ committed → audit_events db' !! events.EventID ev = Some (audit_row ev)) ∧
     (∀ tenant, spent tenant db' = spent tenant db + zsum (charge tenant <$> committed))) ∧
  (∀ ds1 io ev ds2, ds = ds1 ++ (io, ev) :: ds2 →
     is_ok (ProcessKafkaEvent io name ev (deliver_all name ds1 db)).1 →
     known name db' (events.EventID ev)).
Proof.
  intros Hc db'. destruct (deliver_all_replay name ds db) as (evs & Hsub & Hnd & Hun & Hrun).
  unfold db'. destruct (replay_effects name evs db Hc Hnd Hun) as [Ha Hs]. split_and!.
  - rewrite Hrun. by apply replay_coherent.
  - exists evs. rewrite Hrun. split_and!; [done..| |done|done]. intros id. apply replay_known.
  - intros ds1 io ev ds2 -> Hok. unfold deliver_all at 1. rewrite foldl_app. cbn [foldl fst snd].
    by apply deliver_all_known, Process_acknowledged.
Qed.
End Process.
End audit.

Module consumer.
Section Run.
Context (json_Valid : string → bool) (decode : string → res audit.Usage)
  (unmarshal : string → res events.Envelope) (name : string).

(** The partition's log, the group's committed offset and the tables. A reader
    starts at the committed offset, and [Run] returns when a commit fails, so a
    fetch always reads the message at the committed offset. *)
Record State : Type := mkState {
  log : list kafka.Message;
  offset : nat;
  db : audit.DB
}.

(** [CommitMessages]: lost before (fault 7) or after (fault 8) it took effect. *)
Definition CommitMessages (io : IO) : M State unit := λ s,
  let s' := mkState (log s) (S (offset s)) (db s) in
  match io_fault io 7, io_fault io 8 with
  | Some e, _ => (Err (Wrap "commit Kafka offset" e), s)
  | None, Some e => (Err (Wrap "commit Kafka offset" e), s')
  | None, None => (Ok (), s')
  end.

Definition process (io : IO) (event : events.Envelope) : M State bool := λ s,
  match audit.ProcessKafkaEvent json_Valid decode io name event (db s) with
  | (Err e, d) => (Err (Wrap ("process Kafka event " +:+ events.EventID event) e),
                   mkState (log s) (offset s) d)
  | (Ok b, d) => (Ok b, mkState (log s) (offset s) d)
  | (Panic w, d) => (Panic w, mkState (log s) (offset s) d)
  end.

(** One message of the loop. *)
Definition handle (io : IO) (message : kafka.Message) : M State unit :=
  match unmarshal (kafka.Value message) with
  | Err e => fail (Wrap "decode Kafka event" e)
  | Panic w => lift (Panic w)
  | Ok event => _ ← process io event; CommitMessages io
  end.

(** The loop, one world per iteration; fault 6 is the fetch. Past the end of the
    log the fetch blocks until the context is done. *)
Fixpoint Run (ios : list IO) : M State unit := act (λ s,
  match ios with
  | [] => (Ok (), s)
  | io :: ios =>
    match io_ctx io 0, io_fault io 6, log s !! offset s with
    | Some _, _, _ => (Ok (), s)
    | None, Some e, _ => (Err (Wrap "fetch Kafka message" e), s)
    | None, None, None => (Ok (), s)
    | None, None, Some message => (_ ← handle io message; Run ios) s
    end
  end).

(** The life of the consumer: it starts on empty tables; it is run, stops for
    whatever reason and is started again; messages are appended meanwhile. *)
Inductive reachable : State → Prop :=
| reach_start l : reachable (mkState l 0 (audit.mkDB ∅ ∅ ∅))
| reach_run ios s : reachable s → reachable (Run ios s).2
| reach_append ms s : reachable s → reachable (mkState (log s ++ ms) (offset s) (db s)).

(** The tables are the result of deliveries of events of the log, and every
    message below the committed offset was decoded and recorded. *)
Definition recorded (s : State) : Prop :=
  (∃ ds, db s = audit.deliver_all json_Valid decode name ds (audit.mkDB ∅ ∅ ∅) ∧
         ∀ ev, ev ∈ ds.*2 → ∃ m, m ∈ log s ∧ unmarshal (kafka.Value m) = Ok ev) ∧
  (offset s <= length (log s))%nat ∧
  (∀ i m, (i < offset s)%nat → log s !! i = Some m →
     ∃ ev, unmarshal (kafka.Value m) = Ok ev ∧ audit.known name (db s) (events.EventID ev)).

Lemma handle_recorded (io : IO) (m : kafka.Message) (s : State) :
  recorded s → log s !! offset s = Some m → wp (handle io m) (λ _ s', recorded s') s.
Proof.
  intros Hs Hm. pose proof Hs as ((ds & Hds & Hin) & Hle & Hbelow). unfold handle.
  destruct (unmarshal (kafka.Value m)) as [ev|e|w] eqn:Hev; [|done..].
  set (d := (audit.ProcessKafkaEvent json_Valid decode io name ev (db s)).2).
  assert (∀ o : nat, (o <= offset s)%nat ∨ o = S (offset s) ∧ audit.known name d (events.EventID ev) →
            recorded (mkState (log s) o d)) as Hrec.
  { intros o Ho. apply lookup_lt_Some in Hm as Hlt. split_and!; simpl.
    - exists (ds ++ [(io, ev)]). split.
      + unfold audit.deliver_all. rewrite foldl_app. simpl. unfold d. by rewrite Hds.
      + rewrite fmap_app. intros ev' [?|Hev']%elem_of_app; [by apply Hin|].
        assert (ev' = ev) as -> by set_solver. exists m. split; [|done].
        by eapply list_elem_of_lookup_2.
    - lia.
    - intros i m' Hi Hm'. destruct (decide (i = offset s)) as [->|Hne].
      + simplify_eq. exists ev. split; [done|]. destruct Ho as [?|[_ ?]]; [lia|done].
      + destruct (Hbelow i m') as (ev' & ? & ?); [lia|done|]. exists ev'. split; [done|].
        by apply (audit.deliver_all_known json_Valid decode name [(io, ev)]). }
  pose proof (audit.Process_acknowledged json_Valid decode io name ev (db s)) as Hack. fold d in Hack.
  unfold wp, mbind, M_bind, process, CommitMessages.
  destruct (audit.ProcessKafkaEvent json_Valid decode io name ev (db s)) as [[b|e|w] d'];
    simpl in *; subst d; [|apply Hrec; lia..].
  destruct (io_fault io 7); [apply Hrec; lia|].
  destruct (io_fault io 8); simpl; apply Hrec; right; auto.
Qed.

Lemma Run_recorded (ios : list IO) (s : State) : recorded s → wp (Run ios) (λ _ s', recorded s') s.
Proof.
  revert s. induction ios as [|io ios IH]; intros s Hs; [done|].
  unfold wp. cbn [Run]. unfold act. destruct (io_ctx io 0); [done|].
  destruct (io_fault io 6); [done|]. destruct (log s !! offset s) as [m|] eqn:Hm; [|done].
  apply (wp_bind (handle io m) (λ _, Run ios) (λ _ s', recorded s')).
  eapply wp_mono; [by apply handle_recorded|].
  intros [[]|?|?] s' Hs'; [by apply IH|done..].
Qed.

Lemma reachable_recorded (s : State) : reachable s → recorded s.
Proof.
  induction 1 as [l|ios s _ IH|ms s _ IH].
  - split_and!; simpl; [|lia|intros; lia]. exists []. split; [done|]. by intros ev ?%not_elem_of_nil.
  - by apply Run_recorded.
  - destruct IH as ((ds & Hds & Hin) & Hle & Hbelow). split_and!; simpl.
    + exists ds. split; [done|]. intros ev (m & ? & ?)%Hin. exists m. split; [|done].
      apply elem_of_app. by left.
    + rewrite length_app. lia.
    + intros i m Hi Hm. rewrite lookup_app_l in Hm by lia. eauto.
Qed.
End Run.
End consumer.

(** ** From the outbox table to the ledger *)
Module pipeline.
Section EndToEnd.
Context (json_Valid : string → bool) (decode : string → res audit.Usage)
  (marshal : events.Envelope → res string) (unmarshal : string → res events.Envelope)
  (inject : IO → list (string * string)) (name : string).

Definition with_payload (event : events.Envelope) (p : string) : events.Envelope :=
  events.mkEnvelope (events.EventID event) (events.EventType event) (events.Version event)
    (events.AggregateID event) (events.TenantID event) (events.Timestamp event)
    (events.CorrelationID event) (events.CausationID event) p.

(** Decoding an encoded envelope gives it back, with a payload that decodes to
    the same usage: [json.Marshal] compacts a [json.RawMessage]. *)
Context (json_round_trip : ∀ event encoded,
  json_Valid (events.Payload event) = true → marshal event = Ok encoded →
  ∃ p, unmarshal encoded = Ok (with_payload event p) ∧
       decode p = decode (events.Payload event)).

(** The rows of the table that the relay has sent. *)
Definition published (s : relay.State) (r : outbox.Row) : Prop := ∃ e,
  relay.table s !! outbox.ID r = Some e ∧ outbox.row e = r ∧ is_Some (outbox.published_at e).

Lemma carried_event (m : kafka.Message) (r : outbox.Row) :
  relay.carries json_Valid marshal inject m r → ∃ p,
  unmarshal (kafka.Value m) = Ok (with_payload (outbox.envelope r) p) ∧
  decode p = decode (outbox.Payload r).
Proof.
  intros (Hv & io & enc & Henc & ->). apply events.Validate_payload in Hv.
  by destruct (json_round_trip _ _ Hv Henc) as (p & ? & ?); exists p.
Qed.

(** Events of the topic with one identifier come from one row. *)
Lemma stored_unique (s : relay.State) (r r' : outbox.Row) :
  relay.stored s r → relay.stored s r' → outbox.ID r = outbox.ID r' → r = r'.
Proof. intros (e & He & <-) (e' & He' & <-) Hid. rewrite Hid in He. by simplify_eq. Qed.

(** What the consumer's tables hold: the effects, once each, of events that
    carry rows of the table. *)
Lemma reachable_effects (c : consumer.State) (s : relay.State) :
  relay.retained json_Valid marshal inject s →
  consumer.reachable json_Valid decode unmarshal name c → consumer.log c = relay.topic s →
  ∃ evs : list events.Envelope,
    (∀ ev, ev ∈ evs → ∃ r p, relay.stored s r ∧ ev = with_payload (outbox.envelope r) p ∧
                              decode p = decode (outbox.Payload r)) ∧
    (∀ id, audit.known name (consumer.db c) id ↔ id ∈ events.EventID <$> evs) ∧
    (∀ k row, audit.usage_ledger (consumer.db c) !! k = Some row ↔
              ∃ ev, ev ∈ evs ∧ audit.ledger_of decode ev k row).
Proof.
  intros [_ Hm] Hc Hlog. apply consumer.reachable_recorded in Hc as ((ds & Hds & Hin) & _ & _).
  destruct (audit.deliver_all_replay json_Valid decode name ds (audit.mkDB ∅ ∅ ∅))
    as (evs & Hsub & Hnd & Hun & Hrun). rewrite Hds, Hrun. exists evs. split_and!.
  - intros ev Hev. destruct (Hin ev) as (m & Hlm & Hum); [by eapply elem_of_sublist|].
    rewrite Hlog in Hlm. destruct (Hm _ Hlm) as (r & Hst & Hcar).
    destruct (carried_event _ _ Hcar) as (p & Hp & Hdec). exists r, p. split_and!; [done| |done].
    congruence.
  - intros id. rewrite audit.replay_known. split; [|by right]. intros [[? Hk]|?]; [by simplify_map_eq/=|done].
  - intros k row. rewrite audit.replay_ledger by (done || apply audit.empty_coherent).
    split; [|by left]. intros [?|Hk]; [done|]. by simplify_map_eq/=.
Qed.

(** A published row has been delivered to a consumer that is not behind. *)
Lemma published_delivered (s : relay.State) (c : consumer.State) (r : outbox.Row) :
  relay.retained json_Valid marshal inject s →
  consumer.reachable json_Valid decode unmarshal name c →
  consumer.log c = relay.topic s → consumer.offset c = length (relay.topic s) →
  published s r → relay.stored s r ∧ audit.known name (consumer.db c) (outbox.ID r).
Proof.
  intros [Hf _] Hc Hlog Hoff (e & He & <- & Hp). split; [by exists e|].
  apply consumer.reachable_recorded in Hc as (_ & _ & Hbelow).
  destruct (proj2 (Hf _ _ He) Hp) as (m & Hin & Hcar).
  apply list_elem_of_lookup_1 in Hin as [i Hi]. rewrite Hlog, Hoff in Hbelow.
  destruct (Hbelow i m) as (ev & Hev & Hk); [by eapply lookup_lt_Some|done|].
  destruct (carried_event _ _ Hcar) as (p & Hp' & _). rewrite Hp' in Hev. by simplify_eq.
Qed.

(** Every ledger entry is the usage of one row of the table. *)
Lemma ledger_from_row (s : relay.State) (c : consumer.State) (tenant id : string)
  (row : audit.LedgerRow) :
  relay.retained json_Valid marshal inject s →
  consumer.reachable json_Valid decode unmarshal name c → consumer.log c = relay.topic s →
  audit.usage_ledger (consumer.db c) !! (tenant, id) = Some row →
  ∃ r u, relay.stored s r ∧ outbox.ID r = id ∧ outbox.TenantID r = tenant ∧
    outbox.EventType r = events.UsageRecorded ∧ decode (outbox.Payload r) = Ok u ∧
    row = audit.mkLedgerRow u (outbox.OccurredAt r).
Proof.
  intros Hret Hc Hlog. destruct (reachable_effects c s Hret Hc Hlog) as (evs & Hfrom & _ & Hledger).
  intros (ev & Hev & Hk & Hty & u & Hu & ->)%Hledger.
  destruct (Hfrom ev Hev) as (r & p & Hst & -> & Hp). simplify_eq/=.
  exists r, u. split_and!; [done..|by apply String.eqb_eq|congruence|done].
Qed.

(** A published usage row has its ledger entry once the consumer is not behind. *)
Lemma published_billed (s : relay.State) (c : consumer.State) (r : outbox.Row) (u : audit.Usage) :
  relay.retained json_Valid marshal inject s →
  consumer.reachable json_Valid decode unmarshal name c →
  consumer.log c = relay.topic s → consumer.offset c = length (relay.topic s) →
  published s r → outbox.EventType r = events.UsageRecorded → decode (outbox.Payload r) = Ok u →
  audit.usage_ledger (consumer.db c) !! (outbox.TenantID r, outbox.ID r) =
  Some (audit.mkLedgerRow u (outbox.OccurredAt r)).
Proof.
  intros Hret Hc Hlog Hoff Hpub Hty Hu.
  destruct (reachable_effects c s Hret Hc Hlog) as (evs & Hfrom & Hknown & Hledger).
  destruct (published_delivered s c r Hret Hc Hlog Hoff Hpub) as [Hst Hk].
  apply Hknown, list_elem_of_fmap in Hk as (ev & Hid & Hev).
  destruct (Hfrom ev Hev) as (r' & p & Hst' & -> & Hp).
  assert (r' = r) as -> by (by eapply stored_unique).
  apply Hledger. exists (with_payload (outbox.envelope r) p). split; [done|].
  split_and!; [done|by apply String.eqb_eq|]. exists u. split; [|done]. rewrite <- Hu. exact Hp.
Qed.
End EndToEnd.
End pipeline.

(** ** A concrete run

    The relays of [relay_demo] leave a duplicate on the topic; the consumer
    crashes between its transaction and the acknowledgement. *)
Module audit_demo.
Import relay_demo.

Definition decode (p : string) : res audit.Usage := Ok (audit.mkUsage "request-1" 10 20 300).
Definition unmarshal (s : string) : res events.Envelope := Ok (outbox.envelope (row s)).
Definition faulty (k : nat) : IO :=
  mkIO now [] (λ _, None) (λ n, if (n =? k)%nat then Some (New "connection lost") else None).
Definition empty : audit.DB := audit.mkDB ∅ ∅ ∅.

(** Lost commit answer, redelivery, another event, a duplicate. *)
Definition deliveries : list (IO * events.Envelope) :=
  [(faulty 5, outbox.envelope (row "a")); (faulty 99, outbox.envelope (row "a"));
   (faulty 3, outbox.envelope (row "b")); (faulty 99, outbox.envelope (row "b"));
   (faulty 99, outbox.envelope (row "a"))].

Lemma exactly_once_effects_witness :
  audit.spent "tenant-1" (audit.deliver_all valid decode "audit" deliveries empty) = 600 ∧
  audit.known "audit" (audit.deliver_all valid decode "audit" deliveries empty) "b".
Proof.
  split; [vm_compute; reflexivity|].
  destruct (audit.exactly_once_effects valid decode "audit" deliveries empty
              (audit.empty_coherent "audit")) as (_ & _ & Hack).
  exact (Hack (take 3 deliveries) (faulty 99) (outbox.envelope (row "b")) (drop 4 deliveries)
           eq_refl I).
Defined.

Lemma json_round_trip (event : events.Envelope) (encoded : string) :
  valid (events.Payload event) = true → marshal event = Ok encoded → ∃ p, unmarshal encoded = Ok (pipeline.with_payload event p) ∧
                                    decode p = decode (events.Payload event).
Proof.
  intros _. unfold marshal. destruct (decide _) as [He|]; [|done]. intros [= <-].
  exists (events.Payload event). split; [|done]. unfold unmarshal. rewrite <- He. by destruct event.
Qed.

Definition relayed : relay.State := (relay.Run valid marshal trace backwards first [tick; tick] start).2.
Definition crashed : consumer.State :=
  (consumer.Run valid decode unmarshal "audit" [faulty 7] (consumer.mkState (relay.topic relayed) 0 empty)).2.
Definition caught_up : consumer.State :=
  (consumer.Run valid decode unmarshal "audit" (replicate 10 (faulty 99)) crashed).2.

Lemma relayed_retained : relay.retained valid marshal trace relayed.
Proof.
  apply (relay.Run_rely valid marshal trace backwards backwards_perm first [tick; tick] start);
    [|apply start_retained..].
  apply Forall_forall. intros t Ht n s Hs. assert (t = tick) as -> by set_solver.
  exact (second_rely n s Hs).
Qed.

Example duplicates_billed_once :
  (length (relay.topic relayed) = 4)%nat ∧
  audit.usage_ledger (consumer.db caught_up) !! ("tenant-1", "a") =
  Some (audit.mkLedgerRow (audit.mkUsage "request-1" 10 20 300) time.Second).
Proof.
  split; [vm_compute; reflexivity|].
  apply (pipeline.published_billed valid decode marshal unmarshal trace "audit" json_round_trip
           relayed caught_up (row "a")).
  - exact relayed_retained.
  - apply consumer.reach_run, consumer.reach_run, consumer.reach_start.
  - vm_compute. reflexivity.
  - vm_compute. reflexivity.
  - eexists. split; [vm_compute; reflexivity|]. split; [reflexivity|]. eexists. reflexivity.
  - reflexivity.
  - reflexivity.
Qed.
End audit_demo.
