(* ===== verification/Postgres.v ===== *)
(** * Postgres: the production repository

    Models [src/internal/persistence/postgres.go] over the tables of
    [src/migrations/000001_initial.up.sql]. A transaction is one atomic step:
    the row locks it takes (the unique index of [ai_requests] on insert, FOR
    UPDATE on the tenant's limits, the status guards of its updates) serialise
    the conflicting ones. Every statement may fail ([io_fault]), which stands
    for lost connections and for violated CHECK and foreign-key constraints
    alike; a COMMIT may fail before or after it took effect. *)

From S2P Require Import Prelude Golib Request Budget Auth Store Outbox AuditTrail.

Module postgres.
Import persistence.

(** ** Tables *)

(** [user_id] is nullable; the key's own [UserID] field is not read. *)
Record KeyRow : Type := mkKeyRow { key : auth.StoredKey; key_user : option string }.
Record ModelRow : Type := mkModelRow { public_name : string; model_enabled : bool }.
Record ProviderRow : Type := mkProviderRow { provider_name : string; provider_enabled : bool }.
Record TenantRow : Type := mkTenantRow { data_classification : string; active : bool }.
Record LimitsRow : Type := mkLimitsRow {
  requests_per_minute : Z;
  tokens_per_minute : Z;
  max_concurrent_requests : Z;
  monthly_budget : Z;
  daily_budget : option Z
}.

(** Configuration tables, which no method of the store writes. *)
Record Catalog : Type := mkCatalog {
  api_keys : gmap string KeyRow;
  models : gmap string ModelRow;
  providers : gmap string ProviderRow;
  tenants : gmap string TenantRow;
  tenant_model_policies : gmap (string * string) bool;
  tenant_provider_policies : gmap (string * string) bool;
  tenant_limits : gmap string LimitsRow
}.

Record RequestRow : Type := mkRequestRow {
  tenant_id : string;
  api_key_id : string;
  user_id : option string;
  idempotency_key : string;
  canonical_request_hash : string;
  model_id : string;
  status : request.State;
  stream_requested : bool;
  partial_response_streamed : bool;
  request_metadata : string;
  response_body : option string;
  prompt_tokens : option Z;
  completion_tokens : option Z;
  actual_cost : option Z;
  failure_category : option string;
  correlation_id : string;
  created_at : time.Time;
  updated_at : time.Time;
  completed_at : option time.Time
}.

Inductive AttemptStatus : Type := STARTED | SUCCEEDED | FAILED.
#[global] Instance AttemptStatus_eq_dec : EqDecision AttemptStatus.
Proof. solve_decision. Defined.

Record AttemptRow : Type := mkAttemptRow {
  at_tenant : string;
  at_provider : string;
  at_model : string;
  at_status : AttemptStatus;
  provider_request_id : option string;
  at_started : time.Time;
  at_finished : option time.Time;
  at_prompt : option Z;
  at_completion : option Z;
  at_cost : option Z;
  error_category : option string;
  at_retryable : option bool;
  latency_ms : option Z
}.

Inductive ReservationState : Type := RESERVED | RECONCILED | RELEASED.
#[global] Instance ReservationState_eq_dec : EqDecision ReservationState.
Proof. solve_decision. Defined.

(** A period is the start of its month or day. *)
Record ReservationRow : Type := mkReservationRow {
  rs_tenant : string;
  period_month : time.Time;
  period_day : time.Time;
  reserved : Z;
  actual : option Z;
  released : option Z;
  rs_state : ReservationState
}.

(** [ai_requests] by id, [provider_attempts] by request and number,
    [budget_reservations] by request, [usage_ledger] by tenant and event. *)
Record DB : Type := mkDB {
  catalog : Catalog;
  ai_requests : gmap string RequestRow;
  provider_attempts : gmap (string * Z) AttemptRow;
  budget_reservations : gmap string ReservationRow;
  usage_ledger : gmap (string * string) audit.LedgerRow;
  outbox_events : gmap string outbox.Entry
}.

Definition set_requests (t : gmap string RequestRow) (db : DB) : DB :=
  mkDB (catalog db) t (provider_attempts db) (budget_reservations db) (usage_ledger db)
       (outbox_events db).
Definition set_attempts (t : gmap (string * Z) AttemptRow) (db : DB) : DB :=
  mkDB (catalog db) (ai_requests db) t (budget_reservations db) (usage_ledger db)
       (outbox_events db).
Definition set_reservations (t : gmap string ReservationRow) (db : DB) : DB :=
  mkDB (catalog db) (ai_requests db) (provider_attempts db) t (usage_ledger db)
       (outbox_events db).
Definition set_outbox (t : gmap string outbox.Entry) (db : DB) : DB :=
  mkDB (catalog db) (ai_requests db) (provider_attempts db) (budget_reservations db)
       (usage_ledger db) t.

(** The row a WHERE clause selects; the keys the code searches by are unique. *)
Definition find_where {K V} `{Countable K} (P : V → bool) (m : gmap K V) : option (K * V) :=
  List.find (λ kv, P kv.2) (map_to_list m).

(** ** Code outside the program *)

(** The values of a payload map. *)
Inductive value : Type := VString (s : string) | VInt (n : Z) | VBool (b : bool).
Definition Payload : Type := list (string * value).

(** The n-th [gen_random_uuid()] of a call; [json.Marshal] of metadata, payloads
    and responses; [json.Unmarshal] of what the JSONB column returns for a
    stored response. *)
Class Outside : Type := {
  uuid : IO → nat → string;
  encode_metadata : option (list (string * json)) → res string;
  encode_payload : Payload → res string;
  encode_response : request.ChatResponse → res string;
  decode_response : string → res request.ChatResponse
}.

Definition ErrNoRows : error := Sentinel "pgx.ErrNoRows" "no rows in result set".
Definition unique_violation : error := New "duplicate key value violates unique constraint".

(** ** Statements and transactions *)

(** A query or update inside a transaction. *)
Definition statement {S A} (io : IO) (k : nat) (what : error → error) (f : M S A) : M S A := λ db,
  match io_fault io k with
  | Some e => (Err (what e), db)
  | None => f db
  end.

(** A statement by itself: lost before (fault 0) or its answer after (fault 1). *)
Definition autocommit {S A} (io : IO) (what : error → error) (f : M S A) : M S A := λ db,
  match io_fault io 0 with
  | Some e => (Err (what e), db)
  | None =>
    match io_fault io 1 with
    | Some e => (Err (what e), (f db).2)
    | None => f db
    end
  end.

(** BEGIN, the body, COMMIT; an error of the body rolls back. *)
Definition transaction {S A} (io : IO) (begin : error → error) (commit : error → error) (body : M S A)
  : M S A := λ db,
  match io_fault io 0 with
  | Some e => (Err (begin e), db)
  | None =>
    match body db with
    | (Ok a, db') =>
      match io_fault io 1, io_fault io 2 with
      | Some e, _ => (Err (commit e), db)
      | None, Some e => (Err (commit e), db')
      | None, None => (Ok a, db')
      end
    | (Err e, _) => (Err e, db)
    | (Panic w, _) => (Panic w, db)
    end
  end.

(** UPDATE ai_requests ... WHERE tenant_id and id and [P]: the rows affected. *)
Definition update_request (tenantID requestID : string) (P : RequestRow → bool)
  (g : RequestRow → RequestRow) : M DB Z := λ db,
  match ai_requests db !! requestID with
  | Some r =>
    if (tenant_id r =s tenantID) && P r
    then (Ok 1, set_requests (<[requestID := g r]> (ai_requests db)) db)
    else (Ok 0, db)
  | None => (Ok 0, db)
  end.

(** [if tag.RowsAffected() != 1 { return e }]. *)
Definition one_row {S} (n : Z) (e : error) : M S unit := if n =? 1 then mret () else fail e.

(** UPDATE provider_attempts ... WHERE status='STARTED'. *)
Definition update_attempt (tenantID requestID : string) (number : Z)
  (g : AttemptRow → AttemptRow) : M DB unit := λ db,
  match provider_attempts db !! (requestID, number) with
  | Some a =>
    if (at_tenant a =s tenantID) && bool_decide (at_status a = STARTED)
    then (Ok (), set_attempts (<[(requestID, number) := g a]> (provider_attempts db)) db)
    else (Ok (), db)
  | None => (Ok (), db)
  end.

(** The SET clauses on [ai_requests]. *)
Definition with_status (st : request.State) (now : time.Time) (r : RequestRow) : RequestRow :=
  mkRequestRow (tenant_id r) (api_key_id r) (user_id r) (idempotency_key r)
    (canonical_request_hash r) (model_id r) st (stream_requested r)
    (partial_response_streamed r) (request_metadata r) (response_body r) (prompt_tokens r)
    (completion_tokens r) (actual_cost r) (failure_category r) (correlation_id r) (created_at r)
    now (completed_at r).

Definition completed_row (body : string) (u : request.Usage) (cost : Z) (now : time.Time)
  (r : RequestRow) : RequestRow :=
  mkRequestRow (tenant_id r) (api_key_id r) (user_id r) (idempotency_key r)
    (canonical_request_hash r) (model_id r) request.Completed (stream_requested r)
    (partial_response_streamed r) (request_metadata r) (Some body)
    (Some (request.PromptTokens u)) (Some (request.CompletionTokens u)) (Some cost)
    (failure_category r) (correlation_id r) (created_at r) now (Some now).

Definition failed_row (category : string) (partial : bool) (now : time.Time) (r : RequestRow)
  : RequestRow :=
  mkRequestRow (tenant_id r) (api_key_id r) (user_id r) (idempotency_key r)
    (canonical_request_hash r) (model_id r) request.Failed (stream_requested r) partial
    (request_metadata r) (response_body r) (prompt_tokens r) (completion_tokens r)
    (actual_cost r) (Some category) (correlation_id r) (created_at r) now (Some now).

Definition cancelled_row (now : time.Time) (r : RequestRow) : RequestRow :=
  mkRequestRow (tenant_id r) (api_key_id r) (user_id r) (idempotency_key r)
    (canonical_request_hash r) (model_id r) request.Cancelled (stream_requested r)
    (partial_response_streamed r) (request_metadata r) (response_body r) (prompt_tokens r)
    (completion_tokens r) (actual_cost r) (failure_category r) (correlation_id r) (created_at r)
    now (Some now).

Definition rejected_row (now : time.Time) (r : RequestRow) : RequestRow :=
  mkRequestRow (tenant_id r) (api_key_id r) (user_id r) (idempotency_key r)
    (canonical_request_hash r) (model_id r) request.BudgetRejected (stream_requested r)
    (partial_response_streamed r) (request_metadata r) (response_body r) (prompt_tokens r)
    (completion_tokens r) (actual_cost r) (Some "budget_exceeded") (correlation_id r)
    (created_at r) now (Some now).

(** The SET clauses on [provider_attempts]. *)
Definition succeeded_attempt (p : CompletionParams) (latency : Z) (now : time.Time)
  (a : AttemptRow) : AttemptRow :=
  let u := request.resp_Usage (co_Response p) in
  mkAttemptRow (at_tenant a) (at_provider a) (at_model a) SUCCEEDED (Some (co_ProviderRequestID p))
    (at_started a) (Some now) (Some (request.PromptTokens u)) (Some (request.CompletionTokens u))
    (Some (co_CostMicroUSD p)) (error_category a) (Some false) (Some latency).

Definition failed_attempt (p : FailureParams) (latency : Z) (now : time.Time) (a : AttemptRow)
  : AttemptRow :=
  mkAttemptRow (at_tenant a) (at_provider a) (at_model a) FAILED (provider_request_id a)
    (at_started a) (Some now) (at_prompt a) (at_completion a) (at_cost a) (Some (Category p))
    (Some (Retryable p)) (Some latency).

(** ** The store's methods *)

Section Store.
Context `{Outside}.

Definition find_api_key (io : IO) (prefix : string) : M DB auth.StoredKey := λ db,
  match io_fault io 0 with
  | Some e => (Err (Wrap "find API key" e), db)
  | None =>
    match api_keys (catalog db) !! prefix with
    | None => (Err ErrNotFound, db)
    | Some row =>
      let k := key row in
      (Ok (auth.mkStoredKey (auth.key_ID k) (auth.key_TenantID k) (default "" (key_user row))
             (auth.Prefix k) (auth.key_Hash k) (auth.key_Scopes k) (auth.ExpiresAt k)
             (auth.RevokedAt k)), db)
    end
  end.

(** *** Outbox *)

Definition outbox_entry (id eventType aggregateID tenantID correlationID encoded : string)
  (now : time.Time) : outbox.Entry :=
  outbox.mkEntry (outbox.mkRow id eventType 1 aggregateID tenantID correlationID "" encoded now)
    now now None None 0 None None.

(** [k] numbers the statement and [n] the identifier it draws. *)
Definition insertOutbox (io : IO) (k n : nat)
  (eventType aggregateID tenantID correlationID : string) (payload : Payload) : M DB unit :=
  match encode_payload payload with
  | Err e => fail (Wrap "marshal outbox payload" e)
  | Panic w => lift (Panic w)
  | Ok encoded => statement io k (Wrap "insert outbox event") (λ db,
    match outbox_events db !! uuid io n with
    | Some _ => (Err (Wrap "insert outbox event" unique_violation), db)
    | None =>
      (Ok (), set_outbox (<[uuid io n := outbox_entry (uuid io n) eventType aggregateID tenantID
                              correlationID encoded (io_now io)]> (outbox_events db)) db)
    end)
  end.

(** *** Requests *)

(** The record a row is read as, with the name of its model. *)
Definition record_of (id : string) (r : RequestRow) (model : string)
  (response : option request.ChatResponse) : request.LogicalRequest :=
  request.mkRecord id (tenant_id r) (api_key_id r) (idempotency_key r) (canonical_request_hash r)
    model (status r) (stream_requested r) (partial_response_streamed r) response
    (default "" (failure_category r)) (correlation_id r) (created_at r) (updated_at r)
    (completed_at r) (default 0 (prompt_tokens r)) (default 0 (completion_tokens r))
    (default 0 (actual_cost r)).

(** The response a row's body decodes to. *)
Definition stored_response (r : RequestRow) : option request.ChatResponse :=
  body ← response_body r;
  if body =s "" then None
  else match decode_response body with Ok response => Some response | _ => None end.

Definition queryRequest (io : IO) (k : nat) (tenantID requestID : string)
  : M DB request.LogicalRequest := statement io k (Wrap "get logical request") (λ db,
  match ai_requests db !! requestID with
  | Some r =>
    match models (catalog db) !! model_id r with
    | Some m =>
      if negb (tenant_id r =s tenantID) then (Err ErrNotFound, db)
      else match response_body r with
           | Some body =>
             if body =s "" then (Ok (record_of requestID r (public_name m) None), db)
             else match decode_response body with
                  | Ok response => (Ok (record_of requestID r (public_name m) (Some response)), db)
                  | Err e => (Err (Wrap "decode stored response" e), db)
                  | Panic w => (Panic w, db)
                  end
           | None => (Ok (record_of requestID r (public_name m) None), db)
           end
    | None => (Err ErrNotFound, db)
    end
  | None => (Err ErrNotFound, db)
  end).

(** The model of that name that is enabled for everyone and for the tenant. *)
Definition authorize_model (tenantID model : string) : M DB string := λ db,
  match find_where (λ m, public_name m =s model) (models (catalog db)) with
  | Some (id, m) =>
    if model_enabled m && default false (tenant_model_policies (catalog db) !! (tenantID, id))
    then (Ok id, db) else (Err ErrModelForbidden, db)
  | None => (Err ErrModelForbidden, db)
  end.

Definition same_key (tenantID idempotencyKey : string) (r : RequestRow) : bool :=
  (tenant_id r =s tenantID) && (idempotency_key r =s idempotencyKey).

Definition new_row (p : CreateRequestParams) (modelID metadata : string) (now : time.Time)
  : RequestRow :=
  mkRequestRow (cr_TenantID p) (cr_APIKeyID p) (audit.nilIfEmpty (cr_UserID p))
    (cr_IdempotencyKey p) (cr_CanonicalHash p) modelID request.Received
    (request.in_Stream (cr_Input p)) false metadata None None None None None
    (cr_CorrelationID p) now now None.

(** INSERT ... ON CONFLICT (tenant_id, idempotency_key) DO NOTHING RETURNING id. *)
Definition insert_request (io : IO) (p : CreateRequestParams) (modelID metadata : string)
  : M DB (option string) := λ db,
  match find_where (same_key (cr_TenantID p) (cr_IdempotencyKey p)) (ai_requests db) with
  | Some _ => (Ok None, db)
  | None =>
    match ai_requests db !! uuid io 0 with
    | Some _ => (Err (Wrap "insert logical request" unique_violation), db)
    | None =>
      (Ok (Some (uuid io 0)),
       set_requests (<[uuid io 0 := new_row p modelID metadata (io_now io)]> (ai_requests db)) db)
    end
  end.

Definition conflicting_request (p : CreateRequestParams) : M DB string := λ db,
  match find_where (same_key (cr_TenantID p) (cr_IdempotencyKey p)) (ai_requests db) with
  | Some (id, _) => (Ok id, db)
  | None => (Err (Wrap "load conflicting logical request" ErrNoRows), db)
  end.

(** The transaction after the insert, by its result. *)
Definition create_rest (io : IO) (p : CreateRequestParams) (inserted : option string)
  : M DB (request.LogicalRequest * bool) :=
  let created := bool_decide (is_Some inserted) in
  id ← match inserted with
       | Some id => mret id
       | None => statement io 5 (Wrap "load conflicting logical request") (conflicting_request p)
       end;
  record ← queryRequest io 6 (cr_TenantID p) id;
  _ ← (if negb created && negb (request.CanonicalHash record =s cr_CanonicalHash p)
       then fail ErrConflict else mret ());
  _ ← (if created
       then insertOutbox io 7 1 events.RequestAccepted (request.ID record) (cr_TenantID p)
              (cr_CorrelationID p)
              [("request_id", VString (request.ID record));
               ("model", VString (request.in_Model (cr_Input p)));
               ("stream", VBool (request.in_Stream (cr_Input p)))]
       else mret ());
  mret (record, created).

Definition create_body (io : IO) (p : CreateRequestParams) : M DB (request.LogicalRequest * bool) :=
  modelID ← statement io 3 (Wrap "authorize model")
              (authorize_model (cr_TenantID p) (request.in_Model (cr_Input p)));
  metadata ← lift match encode_metadata (request.in_Metadata (cr_Input p)) with
                  | Err e => Err (Wrap "marshal request metadata" e)
                  | out => out
                  end;
  inserted ← statement io 4 (Wrap "insert logical request") (insert_request io p modelID metadata);
  create_rest io p inserted.

Definition create_or_get (io : IO) (p : CreateRequestParams)
  : M DB (request.LogicalRequest * bool) :=
  transaction io (Wrap "begin create request") (Wrap "commit create request") (create_body io p).

Definition get_request (io : IO) (tenantID requestID : string) : M DB request.LogicalRequest :=
  queryRequest io 0 tenantID requestID.

Definition transition (io : IO) (tenantID requestID : string) (from to : request.State)
  : M DB unit :=
  _ ← lift (request.Transition from to);
  n ← autocommit io (Wrap "transition logical request")
        (update_request tenantID requestID (λ r, bool_decide (status r = from))
           (with_status to (io_now io)));
  one_row n ErrAlreadyFinal.

(** *** Attempts *)

(** INSERT ... SELECT from the provider and the model of these names. *)
Definition insert_attempt (io : IO) (p : AttemptParams) : M DB Z := λ db,
  match find_where (λ x, provider_name x =s ProviderName p) (providers (catalog db)),
        find_where (λ m, public_name m =s at_Model p) (models (catalog db)) with
  | Some (pid, _), Some (mid, _) =>
    match provider_attempts db !! (at_RequestID p, Number p) with
    | Some _ => (Err (Wrap "start provider attempt" unique_violation), db)
    | None =>
      (Ok 1, set_attempts (<[(at_RequestID p, Number p) :=
         mkAttemptRow (at_TenantID p) pid mid STARTED None (io_now io) None None None None None None
                      None]> (provider_attempts db)) db)
    end
  | _, _ => (Ok 0, db)
  end.

Definition start_attempt (io : IO) (p : AttemptParams) : M DB unit :=
  transaction io (Wrap "begin provider attempt") (Wrap "commit provider attempt") (
    n ← statement io 3 (Wrap "start provider attempt") (insert_attempt io p);
    _ ← one_row n ErrNotFound;
    insertOutbox io 4 0 events.ProviderSelected (at_RequestID p) (at_TenantID p)
      (at_CorrelationID p)
      [("request_id", VString (at_RequestID p)); ("provider", VString (ProviderName p));
       ("model", VString (at_Model p)); ("attempt_number", VInt (Number p))]).

(** [time.Since(started).Milliseconds()]. *)
Definition latency_since (io : IO) (started : time.Time) : Z :=
  time.Milliseconds (time.Sub (io_now io) started).

Definition usage_payload (p : CompletionParams) (latency : Z) : Payload :=
  let u := request.resp_Usage (co_Response p) in
  [("request_id", VString (co_RequestID p));
   ("model", VString (request.resp_Model (co_Response p)));
   ("prompt_tokens", VInt (request.PromptTokens u));
   ("completion_tokens", VInt (request.CompletionTokens u));
   ("cost_micro_usd", VInt (co_CostMicroUSD p)); ("latency_ms", VInt latency)].

Definition complete_request (io : IO) (p : CompletionParams) : M DB unit :=
  match encode_response (co_Response p) with
  | Err e => fail (Wrap "marshal final response" e)
  | Panic w => lift (Panic w)
  | Ok body =>
    transaction io (Wrap "begin request completion") (Wrap "commit request completion") (
      let latency := latency_since io (co_StartedAt p) in
      _ ← statement io 3 (Wrap "complete provider attempt")
            (update_attempt (co_TenantID p) (co_RequestID p) (co_AttemptNumber p)
               (succeeded_attempt p latency (io_now io)));
      n ← statement io 4 (Wrap "finalize logical request")
            (update_request (co_TenantID p) (co_RequestID p)
               (λ r, bool_decide (status r = request.InProgress))
               (completed_row body (request.resp_Usage (co_Response p)) (co_CostMicroUSD p)
                  (io_now io)));
      _ ← one_row n ErrAlreadyFinal;
      _ ← insertOutbox io 5 0 events.RequestCompleted (co_RequestID p) (co_TenantID p)
            (co_CorrelationID p) (usage_payload p latency);
      insertOutbox io 6 1 events.UsageRecorded (co_RequestID p) (co_TenantID p)
        (co_CorrelationID p) (usage_payload p latency))
  end.

Definition fail_attempt (io : IO) (p : FailureParams) : M DB unit :=
  transaction io (Wrap "begin attempt failure") (Wrap "commit attempt failure") (
    _ ← (if 0 <? fa_AttemptNumber p
         then statement io 3 (Wrap "fail provider attempt")
                (update_attempt (fa_TenantID p) (fa_RequestID p) (fa_AttemptNumber p)
                   (failed_attempt p (latency_since io (fa_StartedAt p)) (io_now io)))
         else mret ());
    if Final p then
      n ← statement io 4 (Wrap "fail logical request")
            (update_request (fa_TenantID p) (fa_RequestID p)
               (λ r, bool_decide (status r = request.InProgress))
               (failed_row (Category p) (Partial p) (io_now io)));
      _ ← one_row n ErrAlreadyFinal;
      insertOutbox io 5 0 events.RequestFailed (fa_RequestID p) (fa_TenantID p)
        (fa_CorrelationID p)
        [("request_id", VString (fa_RequestID p)); ("error_category", VString (Category p));
         ("partial_streamed", VBool (Partial p))]
    else mret ()).

(** status IN ('RECEIVED','VALIDATED','ROUTING','IN_PROGRESS'). *)
Definition cancellable (r : RequestRow) : bool :=
  bool_decide (status r ∈ [request.Received; request.Validated; request.Routing;
                           request.InProgress]).

Definition cancel_request (io : IO) (tenantID requestID correlationID : string) : M DB unit :=
  n ← autocommit io (Wrap "cancel request")
        (update_request tenantID requestID cancellable (cancelled_row (io_now io)));
  one_row n ErrAlreadyFinal.

(** *** Policy and budget *)

Definition select_policy (tenantID model : string) (c : Catalog) : option TenantPolicy :=
  t ← tenants c !! tenantID;
  l ← tenant_limits c !! tenantID;
  '(mid, m) ← find_where (λ m, public_name m =s model) (models c);
  if active t && default false (tenant_model_policies c !! (tenantID, mid)) && model_enabled m
  then Some (mkTenantPolicy (data_classification t) None (requests_per_minute l)
               (tokens_per_minute l) (max_concurrent_requests l) (monthly_budget l)
               (default 0 (daily_budget l)))
  else None.

(** The names of the enabled providers with an enabled policy of the tenant. *)
Definition allowed_providers (tenantID : string) (c : Catalog) : gset string :=
  list_to_set (omap (λ kp : string * ProviderRow,
    if provider_enabled kp.2 && default false (tenant_provider_policies c !! (tenantID, kp.1))
    then Some (provider_name kp.2) else None) (map_to_list (providers c))).

Definition tenant_policy (io : IO) (tenantID model : string) : M DB TenantPolicy := λ db,
  match io_fault io 0 with
  | Some e => (Err (Wrap "load tenant policy" e), db)
  | None =>
    match select_policy tenantID model (catalog db) with
    | None => (Err ErrModelForbidden, db)
    | Some policy =>
      match io_fault io 1, io_fault io 2, io_fault io 3 with
      | Some e, _, _ => (Err (Wrap "load tenant provider policy" e), db)
      | None, Some e, _ => (Err (Wrap "scan tenant provider policy" e), db)
      | None, None, Some e => (Err e, db)
      | None, None, None =>
        (Ok (mkTenantPolicy (DataClassification policy)
               (Some (allowed_providers tenantID (catalog db))) (RequestsPerMinute policy)
               (TokensPerMinute policy) (MaxConcurrent policy) (MonthlyBudget policy)
               (DailyBudget policy)), db)
      end
    end
  end.

(** SUM over the usage of a tenant since [from], and over its open reservations
    of a period. *)
Definition used_since (tenantID : string) (from : time.Time) (db : DB) : Z :=
  zsum ((λ kv : (string * string) * audit.LedgerRow,
           if (kv.1.1 =s tenantID) && (from <=? audit.recorded_for kv.2)
           then audit.CostMicroUSD (audit.usage kv.2) else 0) <$> map_to_list (usage_ledger db)).
Definition open_reservation (tenantID : string) (period : ReservationRow → bool)
  (r : ReservationRow) : bool :=
  (rs_tenant r =s tenantID) && period r && bool_decide (rs_state r = RESERVED).
Definition reserved_in (tenantID : string) (period : ReservationRow → bool) (db : DB) : Z :=
  zsum ((λ kv : string * ReservationRow,
           if open_reservation tenantID period kv.2 then reserved kv.2 else 0)
          <$> map_to_list (budget_reservations db)).

(** The sums are scanned into int64 variables. *)
Definition scan_sums (l : list Z) : res unit :=
  if bool_decide (Forall in_int64 l) then Ok ()
  else Err (Wrap "calculate available budget" (New "value out of range")).

Definition insert_reservation (tenantID requestID : string) (month day : time.Time) (amount : Z)
  : M DB unit := λ db,
  (Ok (), set_reservations (audit.insert_new requestID
            (mkReservationRow tenantID month day amount None None RESERVED)
            (budget_reservations db)) db).

Definition reserve_budget (io : IO) (tenantID requestID : string) (amount : Z) (now : time.Time)
  : M DB unit :=
  transaction io (Wrap "begin budget reservation") (Wrap "commit budget reservation") (
    limits ← statement io 3 (Wrap "lock tenant budget") (act (λ db,
      match tenant_limits (catalog db) !! tenantID with
      | Some l => (Ok (monthly_budget l, default 0 (daily_budget l)), db)
      | None => (Err ErrNotFound, db)
      end));
    let month := time.StartOfMonth now in
    let day := time.StartOfDay now in
    sums ← statement io 4 (Wrap "calculate available budget") (act (λ db,
      let monthUsed := used_since tenantID month db in
      let monthReserved := reserved_in tenantID (λ r, period_month r =? month) db in
      let dayUsed := used_since tenantID day db in
      let dayReserved := reserved_in tenantID (λ r, period_day r =? day) db in
      match scan_sums [monthUsed; monthReserved; dayUsed; dayReserved] with
      | Ok _ => (Ok (monthUsed, monthReserved, dayUsed, dayReserved), db)
      | Err e => (Err e, db)
      | Panic w => (Panic w, db)
      end));
    let '(monthUsed, monthReserved, dayUsed, dayReserved) := sums in
    _ ← lift (budget.CanReserve limits.1 monthUsed monthReserved amount);
    _ ← lift (budget.CanReserve limits.2 dayUsed dayReserved amount);
    statement io 5 (Wrap "insert budget reservation")
      (insert_reservation tenantID requestID month day amount)).

Definition reject_budget (io : IO) (tenantID requestID correlationID : string) (requested : Z)
  : M DB unit :=
  transaction io (Wrap "begin budget rejection") (λ e, e) (
    n ← statement io 3 (Wrap "reject request budget")
          (update_request tenantID requestID (λ r, bool_decide (status r = request.Validated))
             (rejected_row (io_now io)));
    _ ← one_row n ErrAlreadyFinal;
    insertOutbox io 4 0 events.BudgetExceeded requestID tenantID correlationID
      [("request_id", VString requestID); ("requested_micro_usd", VInt requested)]).

Definition reconciled_row (amount : Z) (r : ReservationRow) : ReservationRow :=
  mkReservationRow (rs_tenant r) (period_month r) (period_day r) (reserved r) (Some amount)
    (Some (Z.max (reserved r - amount) 0)) RECONCILED.

Definition reconcile_budget (io : IO) (requestID : string) (amount : Z) : M DB unit :=
  n ← autocommit io (Wrap "reconcile budget") (act (λ db,
    match budget_reservations db !! requestID with
    | Some r =>
      if bool_decide (rs_state r = RESERVED)
      then (Ok 1, set_reservations (<[requestID := reconciled_row amount r]>
                    (budget_reservations db)) db)
      else (Ok 0, db)
    | None => (Ok 0, db)
    end));
  one_row n ErrNotFound.

#[global] Instance postgres_store : Store DB := {|
  FindAPIKeyByPrefix := find_api_key;
  CreateOrGetRequest := create_or_get;
  GetRequest := get_request;
  TransitionRequest := transition;
  StartAttempt := start_attempt;
  CompleteRequest := complete_request;
  FailAttempt := fail_attempt;
  CancelRequest := cancel_request;
  GetTenantPolicy := tenant_policy;
  ReserveBudget := reserve_budget;
  RejectBudget := reject_budget;
  ReconcileBudget := reconcile_budget
|}.
End Store.

(** ** Effects of the calls

    What a call can do to requests and outbox, whatever fails along the way. *)
Section Effects.
Context `{Outside}.

(** New entries in the outbox, each under a new identifier. *)
Inductive posted : outbox.Table → outbox.Table → list outbox.Entry → Prop :=
| posted_nil t : posted t t []
| posted_cons t t' id e es :
    t !! id = None → outbox.ID (outbox.row e) = id → posted (<[id := e]> t) t' es →
    posted t t' (e :: es).

Definition event_type (e : outbox.Entry) : string := outbox.EventType (outbox.row e).
Definition about (id : string) (e : outbox.Entry) : Prop := outbox.AggregateID (outbox.row e) = id.

(** The usage event of a completed row. *)
Definition reports (r : RequestRow) (e : outbox.Entry) : Prop := ∃ p latency,
  encode_payload (usage_payload p latency) = Ok (outbox.Payload (outbox.row e)) ∧
  co_RequestID p = outbox.AggregateID (outbox.row e) ∧
  completed_at r = Some (outbox.OccurredAt (outbox.row e)) ∧
  outbox.TenantID (outbox.row e) = tenant_id r ∧
  actual_cost r = Some (co_CostMicroUSD p) ∧
  prompt_tokens r = Some (request.PromptTokens (request.resp_Usage (co_Response p))) ∧
  completion_tokens r = Some (request.CompletionTokens (request.resp_Usage (co_Response p))).

(** The events of a status change. *)
Definition announce (id : string) (r : RequestRow) (es : list outbox.Entry) : Prop :=
  Forall (about id) es ∧
  match status r with
  | request.Completed => ∃ c u, es = [c; u] ∧ event_type c = events.RequestCompleted ∧
                                event_type u = events.UsageRecorded ∧ reports r u
  | request.BudgetRejected => ∃ e, es = [e] ∧ event_type e = events.BudgetExceeded
  | request.Failed => es = [] ∨ ∃ e, es = [e] ∧ event_type e = events.RequestFailed
  | _ => es = []
  end.

(** A change of status along the state machine that keeps what identifies the
    request. *)
Record row_step (r r' : RequestRow) : Prop := {
  rs_step : request.step (status r) (status r');
  rs_same_tenant : tenant_id r' = tenant_id r;
  rs_same_key : idempotency_key r' = idempotency_key r;
  rs_same_hash : canonical_request_hash r' = canonical_request_hash r;
  rs_same_model : model_id r' = model_id r
}.

(** Transitions into the states that carry events are left to the methods that
    write them. *)
Definition orderly (c : call) : Prop :=
  match c with
  | CTransition _ _ _ to => to ≠ request.Completed ∧ to ≠ request.BudgetRejected
  | _ => True
  end.

Inductive effect (c : call) (db db' : DB) : Prop :=
| effect_rest es :
    catalog db' = catalog db → ai_requests db' = ai_requests db →
    posted (outbox_events db) (outbox_events db') es →
    Forall (λ e, event_type e = events.ProviderSelected) es → effect c db db'
| effect_move id r r' es :
    catalog db' = catalog db → ai_requests db !! id = Some r →
    ai_requests db' = <[id := r']> (ai_requests db) → row_step r r' →
    posted (outbox_events db) (outbox_events db') es → (orderly c → announce id r' es) →
    effect c db db'
| effect_create id p mid meta now e :
    catalog db' = catalog db → ai_requests db !! id = None →
    find_where (same_key (cr_TenantID p) (cr_IdempotencyKey p)) (ai_requests db) = None →
    is_Some (models (catalog db) !! mid) →
    ai_requests db' = <[id := new_row p mid meta now]> (ai_requests db) →
    posted (outbox_events db) (outbox_events db') [e] → about id e →
    event_type e = events.RequestAccepted → draws c = true → effect c db db'.

Lemma effect_same (c : call) (db : DB) : effect c db db.
Proof. by apply (effect_rest c db db []); [..|constructor|constructor]. Qed.

(** A transaction or statement has the effect of its body or none. *)
Lemma transaction_effect {A} (c : call) (io : IO) (b k : error → error) (body : M DB A)
  (db : DB) :
  (∀ a db', body db = (Ok a, db') → effect c db db') → effect c db (transaction io b k body db).2.
Proof.
  intros Hb. unfold transaction. destruct (io_fault io 0); [apply effect_same|].
  destruct (body db) as [[a|?|?] db']; [|apply effect_same..].
  specialize (Hb a db' eq_refl). destruct (io_fault io 1); [apply effect_same|].
  by destruct (io_fault io 2).
Qed.

Lemma autocommit_effect {A B} (c : call) (io : IO) (what : error → error) (f : M DB A) (g : A → M DB B)
  (db : DB) :
  (∀ a db, (g a db).2 = db) → effect c db (f db).2 →
  effect c db ((autocommit io what f ≫= g) db).2.
Proof.
  intros Hg Hf. unfold mbind, M_bind, autocommit. destruct (io_fault io 0); [apply effect_same|].
  destruct (io_fault io 1); [done|]. destruct (f db) as [[a|?|?] db']; simpl in *; [|done..].
  by rewrite Hg.
Qed.

Lemma one_row_same {S} (n : Z) (e : error) (db : S) : (one_row n e db).2 = db.
Proof. unfold one_row. by destruct (n =? 1). Qed.

(** *** Inversion of successful runs *)

Lemma bind_ok {S A B} (m : M S A) (f : A → M S B) (db db' : S) (b : B) :
  (m ≫= f) db = (Ok b, db') → ∃ a db1, m db = (Ok a, db1) ∧ f a db1 = (Ok b, db').
Proof. unfold mbind, M_bind. destruct (m db) as [[a|?|?] db1]; intros Hf; [eauto|done..]. Qed.

Lemma statement_ok {S A} (io : IO) (k : nat) (what : error → error) (f : M S A) (db db' : S) (a : A) :
  statement io k what f db = (Ok a, db') → f db = (Ok a, db').
Proof. unfold statement. by destruct (io_fault io k). Qed.

Lemma transaction_ok {S A} (io : IO) (b k : error → error) (body : M S A) (db db' : S)
  (a : A) : transaction io b k body db = (Ok a, db') → body db = (Ok a, db').
Proof.
  unfold transaction. destruct (io_fault io 0); [done|].
  destruct (body db) as [[?|?|?] ?]; [|done..]. destruct (io_fault io 1); [done|].
  by destruct (io_fault io 2).
Qed.

Lemma autocommit_ok {S A} (io : IO) (what : error → error) (f : M S A) (db db' : S) (a : A) :
  autocommit io what f db = (Ok a, db') → f db = (Ok a, db').
Proof.
  unfold autocommit. destruct (io_fault io 0); [done|]. by destruct (io_fault io 1).
Qed.

Lemma one_row_ok {S} (n : Z) (e : error) (db db' : S) :
  one_row n e db = (Ok (), db') → n = 1 ∧ db' = db.
Proof. unfold one_row. destruct (n =? 1) eqn:Hn; intros [=]. by reflect. Qed.

Lemma update_request_ok (t id : string) (P : RequestRow → bool) (g : RequestRow → RequestRow)
  (db db' : DB) :
  update_request t id P g db = (Ok 1, db') →
  ∃ r, ai_requests db !! id = Some r ∧ tenant_id r = t ∧ P r = true ∧
       db' = set_requests (<[id := g r]> (ai_requests db)) db.
Proof.
  unfold update_request. destruct (ai_requests db !! id) as [r|]; [|done].
  destruct (_ && _) eqn:HP; [|done]. intros [= <-]. reflect. eauto.
Qed.

Lemma update_attempt_ok (t id : string) (n : Z) (g : AttemptRow → AttemptRow) (db db' : DB)
  (u : unit) :
  update_attempt t id n g db = (Ok u, db') →
  catalog db' = catalog db ∧ ai_requests db' = ai_requests db ∧ outbox_events db' = outbox_events db.
Proof.
  unfold update_attempt. destruct (provider_attempts db !! _) as [a|]; [|by intros [= _ <-]].
  by destruct (_ && _); intros [= _ <-].
Qed.

Lemma insertOutbox_ok (io : IO) (k n : nat) (ty agg t corr : string) (p : Payload) (db db' : DB) :
  insertOutbox io k n ty agg t corr p db = (Ok (), db') →
  ∃ encoded, encode_payload p = Ok encoded ∧ outbox_events db !! uuid io n = None ∧
    db' = set_outbox (<[uuid io n := outbox_entry (uuid io n) ty agg t corr encoded (io_now io)]>
                        (outbox_events db)) db.
Proof.
  unfold insertOutbox. destruct (encode_payload p) as [enc|?|?]; [|done..].
  intros Hs%statement_ok. destruct (outbox_events db !! uuid io n) eqn:Hid; [done|].
  injection Hs as <-. eauto.
Qed.
End Effects.

(** Unfold a successful run into the steps it took. *)
Ltac inv_ok H := 
  match type of H with
  | (_ ≫= _) _ = (Ok _, _) =>
    let a := fresh "a" in let db := fresh "db" in let H1 := fresh "Hs" in
    apply bind_ok in H as (a & db & H1 & H); inv_ok H1; inv_ok H
  | statement _ _ _ _ _ = (Ok _, _) => apply statement_ok in H; inv_ok H
  | one_row _ _ _ = (Ok ?u, _) => destruct u; apply one_row_ok in H as [-> ->]
  | insertOutbox _ _ _ _ _ _ _ _ _ = (Ok ?u, _) =>
    let enc := fresh "enc" in
    destruct u; apply insertOutbox_ok in H as (enc & ? & ? & ->)
  | _ => idtac
  end.

Section Changes.
Context `{Outside}.

Lemma find_where_Some {K V} `{Countable K} (P : V → bool) (m : gmap K V) (k : K) (v : V) :
  find_where P m = Some (k, v) → m !! k = Some v ∧ P v = true.
Proof.
  unfold find_where. intros [Hin HP]%find_some. split; [|done].
  by apply elem_of_map_to_list, list_elem_of_In.
Qed.

Lemma find_where_None {K V} `{Countable K} (P : V → bool) (m : gmap K V) (k : K) (v : V) :
  find_where P m = None → m !! k = Some v → P v = false.
Proof.
  unfold find_where. intros Hn Hk.
  apply (find_none _ _ Hn (k, v)), list_elem_of_In, elem_of_map_to_list, Hk.
Qed.

Lemma posted_one (t : outbox.Table) (id ty agg tn corr enc : string) (now : time.Time) :
  t !! id = None →
  posted t (<[id := outbox_entry id ty agg tn corr enc now]> t) [outbox_entry id ty agg tn corr enc now].
Proof. intros Hid. eapply posted_cons; [done..|constructor]. Qed.

Lemma queryRequest_ok (io : IO) (k : nat) (t id : string) (db db' : DB) (r : request.LogicalRequest) :
  queryRequest io k t id db = (Ok r, db') →
  db' = db ∧ ∃ row m, ai_requests db !! id = Some row ∧ tenant_id row = t ∧
    models (catalog db) !! model_id row = Some m ∧
    r = record_of id row (public_name m) (stored_response row).
Proof.
  unfold queryRequest. intros Hq%statement_ok.
  destruct (ai_requests db !! id) as [row|] eqn:Hid; [|done].
  destruct (models (catalog db) !! model_id row) as [m|] eqn:Hm; [|done].
  destruct (negb _) eqn:Ht; [done|]. reflect. unfold stored_response.
  destruct (response_body row) as [body|] eqn:Hb; [destruct (body =s "") eqn:He|].
  - injection Hq as <- <-. split; [done|]. exists row, m. rewrite Hb. simpl. by rewrite He.
  - destruct (decode_response body) eqn:Hd; try done. injection Hq as <- <-. split; [done|].
    exists row, m. rewrite Hb. simpl. by rewrite He, Hd.
  - injection Hq as <- <-. split; [done|]. exists row, m. by rewrite Hb.
Qed.

Lemma transition_effect (io : IO) (t id : string) (from to : request.State) (db : DB) :
  effect (CTransition t id from to) db (transition io t id from to db).2.
Proof.
  unfold transition. unfold mbind at 1, M_bind at 1, lift.
  destruct (request.Transition from to) as [[]|?|?] eqn:Ht; [|apply effect_same..].
  apply autocommit_effect; [intros; apply one_row_same|].
  unfold update_request. destruct (ai_requests db !! id) as [r|] eqn:Hr; [|apply effect_same].
  destruct (_ && _) eqn:HP; [|apply effect_same]. reflect. subst from.
  eapply (effect_move _ _ _ id r _ []); [done..|by split|constructor|]. intros [Hc Hb].
  split; [constructor|]. simpl. destruct to; try done. by left.
Qed.

Lemma start_effect (io : IO) (p : AttemptParams) (db : DB) :
  effect (CStart p) db (start_attempt io p db).2.
Proof.
  apply transaction_effect. intros [] db' Hrun. inv_ok Hrun.
  assert (catalog db0 = catalog db ∧ ai_requests db0 = ai_requests db ∧
          outbox_events db0 = outbox_events db) as (Hc & Hr & Ho).
  { unfold insert_attempt in Hs. repeat case_match; simplify_eq; done. }
  eapply effect_rest; simpl; [done..|rewrite Ho in *; by apply posted_one|by repeat constructor].
Qed.

Lemma complete_effect (io : IO) (p : CompletionParams) (db : DB) :
  effect (CComplete p) db (complete_request io p db).2.
Proof.
  unfold complete_request. destruct (encode_response (co_Response p)) as [body|?|?];
    [|apply effect_same..].
  apply transaction_effect. intros [] db' Hrun. inv_ok Hrun.
  apply update_attempt_ok in Hs as (Hc & Hr & Ho).
  apply update_request_ok in Hs0 as (r & Hid & Ht & HP & ->). rewrite Hr in Hid. reflect.
  eapply (effect_move _ _ _ (co_RequestID p) r); simpl in *.
  - done.
  - done.
  - by rewrite Hr.
  - split; try done. rewrite HP. reflexivity.
  - rewrite Ho in *. eapply posted_cons; [| |by apply posted_one]; done.
  - intros _. split; [by repeat constructor|]. simpl. do 2 eexists. split_and!; [done..|].
    exists p, (latency_since io (co_StartedAt p)). done.
Qed.

Lemma fail_effect (io : IO) (p : FailureParams) (db : DB) :
  effect (CFail p) db (fail_attempt io p db).2.
Proof.
  apply transaction_effect. intros [] db' Hrun.
  apply bind_ok in Hrun as ([] & db0 & Hs & Hrun).
  assert (catalog db0 = catalog db ∧ ai_requests db0 = ai_requests db ∧
          outbox_events db0 = outbox_events db) as (Hc & Hr & Ho).
  { destruct (0 <? fa_AttemptNumber p); [inv_ok Hs; by eapply update_attempt_ok|].
    by injection Hs as <-. }
  destruct (Final p).
  - inv_ok Hrun. apply update_request_ok in Hs0 as (r & Hid & Ht & HP & ->). rewrite Hr in Hid.
    reflect. eapply (effect_move _ _ _ (fa_RequestID p) r); simpl in *.
    + done.
    + done.
    + by rewrite Hr.
    + split; try done. rewrite HP. reflexivity.
    + rewrite Ho in *. by apply posted_one.
    + intros _. split; [by repeat constructor|]. simpl. right. by eexists.
  - injection Hrun as <-. apply (effect_rest _ _ _ []); [done..| |constructor]. rewrite Ho. constructor.
Qed.

Lemma cancellable_step (st : request.State) :
  st ∈ [request.Received; request.Validated; request.Routing; request.InProgress] →
  request.step st request.Cancelled.
Proof. destruct st; intros Hin; try reflexivity; set_solver. Qed.

Lemma cancel_effect (io : IO) (t id corr : string) (db : DB) :
  effect (CCancel t id corr) db (cancel_request io t id corr db).2.
Proof.
  apply autocommit_effect; [intros; apply one_row_same|].
  unfold update_request. destruct (ai_requests db !! id) as [r|] eqn:Hr; [|apply effect_same].
  destruct (_ && _) eqn:HP; [|apply effect_same]. reflect. unfold cancellable in *. reflect.
  eapply (effect_move _ _ _ id r _ []); [done..| |constructor|].
  - split; try done. simpl. apply cancellable_step. done.
  - intros _. split; [constructor|done].
Qed.

Lemma reserve_effect (io : IO) (t id : string) (amount : Z) (now : time.Time) (db : DB) :
  effect (CReserve t id amount now) db (reserve_budget io t id amount now db).2.
Proof.
  apply transaction_effect. intros [] db' Hrun. 
  apply bind_ok in Hrun as (limits & db0 & Hs & Hrun). inv_ok Hs. unfold act in Hs.
  destruct (tenant_limits (catalog db) !! t); [|done]. injection Hs as <- <-.
  apply bind_ok in Hrun as (sums & db1 & Hs & Hrun). inv_ok Hs. unfold act in Hs.
  destruct (scan_sums _); [|done..]. injection Hs as <- <-.
  apply bind_ok in Hrun as ([] & db2 & Hs & Hrun). injection Hs as _ <-.
  apply bind_ok in Hrun as ([] & db3 & Hs & Hrun). injection Hs as _ <-.
  inv_ok Hrun. injection Hrun as <-.
  apply (effect_rest _ _ _ []); [done..|constructor|constructor].
Qed.

Lemma reject_effect (io : IO) (t id corr : string) (amount : Z) (db : DB) :
  effect (CReject t id corr amount) db (reject_budget io t id corr amount db).2.
Proof.
  apply transaction_effect. intros [] db' Hrun. inv_ok Hrun.
  apply update_request_ok in Hs as (r & Hid & Ht & HP & ->). reflect.
  eapply (effect_move _ _ _ id r); simpl in *; [done..| |by apply posted_one|].
  - split; try done. rewrite HP. reflexivity.
  - intros _. split; [by repeat constructor|]. by eexists.
Qed.

Lemma reconcile_effect (io : IO) (id : string) (amount : Z) (db : DB) :
  effect (CReconcile id amount) db (reconcile_budget io id amount db).2.
Proof.
  apply autocommit_effect; [intros; apply one_row_same|]. unfold act.
  destruct (budget_reservations db !! id); [|apply effect_same].
  case_bool_decide; [|apply effect_same].
  apply (effect_rest _ _ _ []); [done..|constructor|constructor].
Qed.

(** A successful creation, or a replay that changes nothing. *)
Definition creates (io : IO) (p : CreateRequestParams) (db db' : DB)
  (r : request.LogicalRequest) : Prop :=
  effect (CCreate p) db db' ∧ ∃ mid meta m,
    ai_requests db !! uuid io 0 = None ∧ models (catalog db') !! mid = Some m ∧
    ai_requests db' !! uuid io 0 = Some (new_row p mid meta (io_now io)) ∧
    r = record_of (uuid io 0) (new_row p mid meta (io_now io)) (public_name m) None.
Definition replays (p : CreateRequestParams) (db : DB) (r : request.LogicalRequest) : Prop :=
  ∃ id row m, ai_requests db !! id = Some row ∧
    same_key (cr_TenantID p) (cr_IdempotencyKey p) row = true ∧
    canonical_request_hash row = cr_CanonicalHash p ∧
    models (catalog db) !! model_id row = Some m ∧
    r = record_of id row (public_name m) (stored_response row).

Lemma create_new_ok (io : IO) (p : CreateRequestParams) (mid meta : string) (db db' : DB)
  (r : request.LogicalRequest) (b : bool) :
  is_Some (models (catalog db) !! mid) →
  find_where (same_key (cr_TenantID p) (cr_IdempotencyKey p)) (ai_requests db) = None →
  ai_requests db !! uuid io 0 = None →
  create_rest io p (Some (uuid io 0))
    (set_requests (<[uuid io 0 := new_row p mid meta (io_now io)]> (ai_requests db)) db)
    = (Ok (r, b), db') →
  b = true ∧ creates io p db db' r.
Proof.
  intros Hm Hkey Hid Hrun. unfold create_rest in Hrun. cbn [negb andb] in Hrun.
  apply bind_ok in Hrun as (id & db1 & Hs & Hrun). injection Hs as <- <-.
  apply bind_ok in Hrun as (record & db1 & Hs & Hrun).
  apply queryRequest_ok in Hs as (-> & row & m & Hrow & _ & Hmod & ->). simpl in Hrow, Hmod.
  rewrite lookup_insert_eq in Hrow. injection Hrow as <-.
  rewrite bool_decide_eq_true_2 in Hrun by eauto. cbn [negb andb] in Hrun.
  apply bind_ok in Hrun as ([] & db1 & Hs & Hrun). injection Hs as <-.
  inv_ok Hrun. injection Hrun as <- <- <-. split; [done|]. split.
  - eapply (effect_create _ _ _ (uuid io 0) p mid meta (io_now io)); simpl; try done.
    + by apply posted_one.
    + done.
    + done.
  - exists mid, meta, m. simpl. by rewrite lookup_insert_eq.
Qed.

Lemma create_old_ok (io : IO) (p : CreateRequestParams) (db db' : DB)
  (r : request.LogicalRequest) (b : bool) :
  create_rest io p None db = (Ok (r, b), db') → b = false ∧ db' = db ∧ replays p db r.
Proof.
  unfold create_rest. intros Hrun. apply bind_ok in Hrun as (id & db1 & Hs & Hrun). inv_ok Hs.
  unfold conflicting_request in Hs.
  destruct (find_where (same_key _ _) _) as [[id' row]|] eqn:Hkey; [|done]. injection Hs as <- <-.
  apply find_where_Some in Hkey as [Hrow Hkey].
  apply bind_ok in Hrun as (record & db1 & Hs & Hrun).
  apply queryRequest_ok in Hs as (-> & row' & m & Hrow' & _ & Hmod & ->). simplify_eq.
  rewrite bool_decide_eq_false_2 in Hrun by (by intros []). cbn [negb andb] in Hrun.
  apply bind_ok in Hrun as ([] & db1 & Hs & Hrun).
  destruct (_ =s _) eqn:Hh; [|done]. injection Hs as <-.
  apply bind_ok in Hrun as ([] & db1 & Hs & Hrun). injection Hs as <-.
  injection Hrun as <- <- <-. reflect.
  split; [done|]. split; [done|]. by exists id', row, m.
Qed.

Lemma create_ok (io : IO) (p : CreateRequestParams) (db db' : DB) (r : request.LogicalRequest)
  (b : bool) :
  create_body io p db = (Ok (r, b), db') →
  if b then creates io p db db' r else db' = db ∧ replays p db r.
Proof.
  unfold create_body. intros Hrun.
  apply bind_ok in Hrun as (mid & db0 & Hs & Hrun). inv_ok Hs. unfold authorize_model in Hs.
  destruct (find_where _ (models _)) as [[mid' m']|] eqn:Hmodel; [|done].
  destruct (_ && _); [|done]. injection Hs as -> ->. apply find_where_Some in Hmodel as [Hmodel _].
  apply bind_ok in Hrun as (meta & db1 & Hs & Hrun). injection Hs as _ <-.
  apply bind_ok in Hrun as (ins & db2 & Hs & Hrun). inv_ok Hs. unfold insert_request in Hs.
  destruct (find_where (same_key _ _) _) as [[id row]|] eqn:Hkey.
  - injection Hs as <- <-. by apply create_old_ok in Hrun as (-> & ?).
  - destruct (ai_requests db0 !! uuid io 0) eqn:Hid; [done|]. injection Hs as <- <-.
    apply create_new_ok in Hrun as (-> & ?); eauto.
Qed.

Lemma create_effect (io : IO) (p : CreateRequestParams) (db : DB) :
  effect (CCreate p) db (create_or_get io p db).2.
Proof.
  apply transaction_effect. intros [r b] db' Hrun%create_ok.
  destruct b; [apply Hrun|]. destruct Hrun as [-> _]. apply effect_same.
Qed.

Lemma perform_effect (io : IO) (c : call) (db : DB) : effect c db (perform io c db).2.
Proof.
  destruct c; simpl.
  - pose proof (create_effect io p db) as Hc. unfold mbind, M_bind.
    by destruct (create_or_get io p db) as [[]].
  - apply transition_effect.
  - apply start_effect.
  - apply complete_effect.
  - apply fail_effect.
  - apply cancel_effect.
  - apply reserve_effect.
  - apply reject_effect.
  - apply reconcile_effect.
Qed.
End Changes.

(** ** The store's contract *)

Section Contract.
Context `{Outside}.

(** The foreign key of the rows' models and the unique idempotency keys. *)
Record good_db (db : DB) : Prop := {
  gd_model : ∀ id r, ai_requests db !! id = Some r → is_Some (models (catalog db) !! model_id r);
  gd_unique : ∀ id id' r r', ai_requests db !! id = Some r → ai_requests db !! id' = Some r' →
    tenant_id r = tenant_id r' → idempotency_key r = idempotency_key r' → id = id'
}.

Definition lookup (db : DB) (id : string) : option request.LogicalRequest :=
  r ← ai_requests db !! id;
  m ← models (catalog db) !! model_id r;
  Some (record_of id r (public_name m) (stored_response r)).

Lemma lookup_row (db : DB) (id : string) (r : RequestRow) (m : ModelRow) :
  ai_requests db !! id = Some r → models (catalog db) !! model_id r = Some m →
  lookup db id = Some (record_of id r (public_name m) (stored_response r)).
Proof. intros Hr Hm. unfold lookup. rewrite Hr. simpl. by rewrite Hm. Qed.

Lemma effect_good (c : call) (db db' : DB) : effect c db db' → good_db db → good_db db'.
Proof.
  intros [es Hc Hr _ _|id r r' es Hc Hid Hr [_ Ht Hk _ Hm] _ _|id p mid meta now e Hc Hid Hn Hmid Hr _ _ _]
    [Gm Gu]; split; rewrite ?Hc, Hr; [done|done|..].
  - intros id' r2. destruct (decide (id = id')) as [<-|Hne].
    + rewrite lookup_insert_eq. intros [= <-]. rewrite Hm. eauto.
    + rewrite lookup_insert_ne by done. eauto.
  - intros i j ri rj Hi Hj Htt Hkk.
    assert (∀ k rk, <[id := r']> (ai_requests db) !! k = Some rk → ∃ rk',
      ai_requests db !! k = Some rk' ∧ tenant_id rk' = tenant_id rk ∧
      idempotency_key rk' = idempotency_key rk) as Hold.
    { intros k rk. destruct (decide (id = k)) as [<-|Hne].
      - rewrite lookup_insert_eq. intros [= <-]. by exists r.
      - rewrite lookup_insert_ne by done. by exists rk. }
    destruct (Hold _ _ Hi) as (? & ? & ? & ?), (Hold _ _ Hj) as (? & ? & ? & ?).
    eapply Gu; [done..|congruence|congruence].
  - intros id' r2. destruct (decide (id = id')) as [<-|Hne].
    + rewrite lookup_insert_eq. by intros [= <-].
    + rewrite lookup_insert_ne by done. eauto.
  - assert (∀ k rk, ai_requests db !! k = Some rk → tenant_id rk = cr_TenantID p →
      idempotency_key rk = cr_IdempotencyKey p → False) as Hnew.
    { intros k rk Hk Ht Hkey. pose proof (find_where_None _ _ _ _ Hn Hk) as Hf.
      unfold same_key in Hf. by rewrite Ht, Hkey, !String.eqb_refl in Hf. }
    intros i j ri rj. destruct (decide (id = i)) as [<-|Hi], (decide (id = j)) as [<-|Hj];
      rewrite ?lookup_insert_eq, ?lookup_insert_ne by done; [done|..].
    + intros [= <-] Hj' Ht Hk. exfalso. by eapply Hnew.
    + intros Hi' [= <-] Ht Hk. exfalso. by eapply Hnew.
    + apply Gu.
Qed.

Lemma row_step_evolves (id model : string) (r r' : RequestRow) :
  row_step r r' →
  evolves (record_of id r model (stored_response r)) (record_of id r' model (stored_response r')).
Proof.
  intros [Hs Ht Hk Hh Hm]. split; simpl; try done.
  - by apply rtc_once.
  - intros Hterm. apply request.step_CanTransition in Hs.
    by rewrite request.terminal_no_transition in Hs.
Qed.

Lemma effect_evolves (c : call) (db db' : DB) (id : string) (r : request.LogicalRequest) :
  effect c db db' → lookup db id = Some r → ∃ r', lookup db' id = Some r' ∧ evolves r r'.
Proof.
  unfold lookup. intros Heff Hl. destruct (ai_requests db !! id) as [row|] eqn:Hrow; [|done].
  simpl in Hl. destruct (models (catalog db) !! model_id row) as [m|] eqn:Hm; [|done].
  injection Hl as <-.
  destruct Heff as [es Hc Hr _ _|id' r1 r' es Hc Hid Hr Hstep _ _|id' p mid meta now e Hc Hid Hn Hmid Hr _ _ _].
  - exists (record_of id row (public_name m) (stored_response row)). rewrite Hr, Hrow, Hc. simpl. by rewrite Hm.
  - rewrite Hr, Hc. destruct (decide (id' = id)) as [->|Hne].
    + simplify_eq. rewrite lookup_insert_eq. simpl. rewrite (rs_same_model _ _ Hstep), Hm. simpl.
      eexists. split; [done|]. by apply row_step_evolves.
    + rewrite lookup_insert_ne, Hrow by done. simpl. rewrite Hm. by eexists.
  - rewrite Hr, Hc. rewrite lookup_insert_ne, Hrow by congruence. simpl. rewrite Hm. by eexists.
Qed.

(** Requests appear only under the identifier drawn for them. *)
Lemma postgres_drawn (io : IO) (c : call) (db : DB) (id : string) :
  (draws c = true → id ≠ uuid io 0) → ai_requests db !! id = None →
  ai_requests (perform io c db).2 !! id = None.
Proof.
  intros Hd Hid. destruct (decide (draws c = true)) as [Hc|Hc].
  - destruct c as [p| | | | | | | |]; try done. specialize (Hd eq_refl). simpl. unfold mbind, M_bind.
    enough (ai_requests (create_or_get io p db).2 !! id = None) by by destruct (create_or_get io p db) as [[]].
    unfold create_or_get, transaction. destruct (io_fault io 0); [done|].
    destruct (create_body io p db) as [[[r b]|?|?] db'] eqn:Hrun; [|done..].
    assert (ai_requests db' !! id = None) as Hn; [|by destruct (io_fault io 1), (io_fault io 2)].
    apply create_ok in Hrun. destruct b; [|by destruct Hrun as [-> _]].
    destruct Hrun as [Heff (mid & meta & m & Hnew & _ & Hnow & _)].
    destruct Heff as [es _ Hr _ _|id' r1 r' es _ Hr1 Hr _ _ _|id' p' mid' meta' now e _ _ _ _ Hr _ _ _ _];
      rewrite Hr in *; [congruence| |]; (destruct (decide (id' = uuid io 0)) as [->|Hne];
      [|by rewrite lookup_insert_ne, Hnew in Hnow]); [congruence|by rewrite lookup_insert_ne].
  - destruct (perform_effect io c db) as [es _ -> _ _|id' r1 r' es _ Hr1 -> _ _ _|id' p' mid' meta' now e _ _ _ _ _ _ _ _ Hdraw];
      [done| |done]. by rewrite lookup_insert_ne by congruence.
Qed.

Lemma lookup_None (db : DB) (id : string) : good_db db → lookup db id = None ↔ ai_requests db !! id = None.
Proof.
  intros Hg. unfold lookup. destruct (ai_requests db !! id) as [r|] eqn:Hr; [|done]. simpl.
  destruct (gd_model _ Hg _ _ Hr) as [m ->]. simpl. split; done.
Qed.

(** After a successful guarded update the request is as the update left it. *)
Lemma updated_lookup (db db' : DB) (id : string) (r r' : RequestRow)
  (Q : request.LogicalRequest → Prop) :
  good_db db → ai_requests db !! id = Some r → catalog db' = catalog db →
  ai_requests db' !! id = Some r' → model_id r' = model_id r →
  (∀ model, Q (record_of id r' model (stored_response r'))) →
  ∃ rec, lookup db' id = Some rec ∧ Q rec.
Proof.
  intros Hg Hr Hc Hr' Hm HQ. destruct (gd_model _ Hg _ _ Hr) as [m Hmod].
  eexists. split; [|apply (HQ (public_name m))]. apply lookup_row; [done|]. by rewrite Hc, Hm.
Qed.

Lemma transition_ok (io : IO) (t id : string) (from to : request.State) (db db' : DB) :
  good_db db → transition io t id from to db = (Ok (), db') →
  ∃ r, lookup db' id = Some r ∧ request.state r = to ∧ request.TenantID r = t.
Proof.
  intros Hg Hrun. unfold transition in Hrun. apply bind_ok in Hrun as ([] & db0 & Hs & Hrun).
  injection Hs as _ <-. apply bind_ok in Hrun as (n & db1 & Hs & Hrun).
  apply one_row_ok in Hrun as [-> ->]. apply autocommit_ok in Hs.
  apply update_request_ok in Hs as (r & Hid & Ht & _ & ->).
  eapply (updated_lookup db); simpl; [done|done|done|apply lookup_insert_eq|done|done].
Qed.

Definition durable (resp : request.ChatResponse) : option request.ChatResponse :=
  match encode_response resp with
  | Ok body => if body =s "" then None
               else match decode_response body with Ok r => Some r | _ => None end
  | _ => None
  end.

Lemma complete_ok (io : IO) (p : CompletionParams) (db db' : DB) :
  good_db db → complete_request io p db = (Ok (), db') →
  ∃ r, lookup db' (co_RequestID p) = Some r ∧ request.state r = request.Completed ∧
       request.Response r = durable (co_Response p) ∧ request.CostMicroUSD r = co_CostMicroUSD p.
Proof.
  intros Hg. unfold complete_request, durable.
  destruct (encode_response (co_Response p)) as [body|?|?]; [|done..].
  intros Hrun%transaction_ok. inv_ok Hrun. apply update_attempt_ok in Hs as (Hc & Hr & _).
  apply update_request_ok in Hs0 as (r & Hid & Ht & _ & ->). rewrite Hr in Hid.
  eapply (updated_lookup db); simpl; [done|exact Hid|exact Hc|apply lookup_insert_eq|done|done].
Qed.

Lemma fail_ok (io : IO) (p : FailureParams) (db db' : DB) :
  good_db db → Final p = true → fail_attempt io p db = (Ok (), db') →
  ∃ r, lookup db' (fa_RequestID p) = Some r ∧ request.state r = request.Failed ∧
       request.FailureCategory r = Category p.
Proof.
  intros Hg Hf Hrun%transaction_ok. apply bind_ok in Hrun as ([] & db0 & Hs & Hrun).
  assert (catalog db0 = catalog db ∧ ai_requests db0 = ai_requests db) as (Hc & Hr).
  { destruct (0 <? fa_AttemptNumber p); [inv_ok Hs; by apply update_attempt_ok in Hs as (? & ? & _)|].
    by injection Hs as <-. }
  rewrite Hf in Hrun. inv_ok Hrun. apply update_request_ok in Hs0 as (r & Hid & Ht & _ & ->).
  rewrite Hr in Hid.
  eapply (updated_lookup db); simpl; [done|exact Hid|exact Hc|apply lookup_insert_eq|done|done].
Qed.

#[global] Instance postgres_spec : Spec DB.
Proof.
  refine {| lookup_request := lookup; good := good_db; fresh := λ _ _, True;
            drawn := λ io, uuid io 0; durable_response := durable |}.
  - intros io c db Hg _. eapply effect_good; [apply perform_effect|done].
  - intros io c db id r Hg _ Hl. eapply effect_evolves; [apply perform_effect|done].
  - intros io p db db' r Hg _ Hrun%transaction_ok%create_ok.
    destruct Hrun as (_ & mid & meta & m & Hid & Hm & Hrow & ->). cbn [request.ID record_of].
    split_and!; try done.
    + unfold lookup. by rewrite Hid.
    + by apply lookup_row.
  - done.
  - intros io c db id Hg Hd Hn. apply lookup_None; [eapply effect_good; [apply perform_effect|done]|].
    apply postgres_drawn; [done|]. by apply lookup_None.
  - intros io t model db. cbn [GetTenantPolicy postgres_store]. unfold tenant_policy.
    destruct (io_fault io 0); [done|]. destruct (select_policy t model (catalog db)); [|done].
    by destruct (io_fault io 1), (io_fault io 2), (io_fault io 3).
  - intros io t id from to db db' Hg Hrun. exact (transition_ok io t id from to db db' Hg Hrun).
  - intros io p db db' Hg Hrun. exact (complete_ok io p db db' Hg Hrun).
  - intros io p db db' Hg Hf Hrun. exact (fail_ok io p db db' Hg Hf Hrun).
Defined.
End Contract.
End postgres.

(** ** Changes that computations are limited to

    A computation keeps a relation if whatever it does, and whatever fails on the
    way, the state changes along it. *)
Module keeping.
Definition keeps {S} (R : relation S) {A} (m : M S A) : Prop := ∀ t, R t (m t).2.

Lemma keeps_run {S} (R : relation S) {A} (m : M S A) (t t' : S) (out : res A) :
  keeps R m → m t = (out, t') → R t t'.
Proof. intros Hm Hrun. specialize (Hm t). by rewrite Hrun in Hm. Qed.

Section Keeps.
Context {S : Type} (R : relation S) `{!PreOrder R}.

Lemma keeps_unchanged {A} (m : M S A) : (∀ t, (m t).2 = t) → keeps R m.
Proof. intros Hm t. by rewrite Hm. Qed.
Lemma keeps_bind {A B} (m : M S A) (f : A → M S B) :
  keeps R m → (∀ a, keeps R (f a)) → keeps R (m ≫= f).
Proof.
  intros Hm Hf t. unfold mbind, M_bind. specialize (Hm t).
  destruct (m t) as [[a|e|w] t']; simpl in *; [|done..]. etrans; [exact Hm|apply Hf].
Qed.
Lemma keeps_transaction {A} (io : IO) (b c : error → error) (m : M S A) :
  keeps R m → keeps R (postgres.transaction io b c m).
Proof.
  intros Hm t. unfold postgres.transaction. specialize (Hm t).
  destruct (io_fault io 0); [done|]. destruct (m t) as [[a|e|w] t']; [|done..].
  by destruct (io_fault io 1), (io_fault io 2).
Qed.
Lemma keeps_autocommit {A} (io : IO) (what : error → error) (m : M S A) :
  keeps R m → keeps R (postgres.autocommit io what m).
Proof.
  intros Hm t. unfold postgres.autocommit. specialize (Hm t).
  destruct (io_fault io 0); [done|]. by destruct (io_fault io 1).
Qed.
Lemma keeps_statement {A} (io : IO) (k : nat) (what : error → error) (m : M S A) :
  keeps R m → keeps R (postgres.statement io k what m).
Proof. intros Hm t. unfold postgres.statement. by destruct (io_fault io k). Qed.
Lemma keeps_one_row (n : Z) (e : error) : keeps R (postgres.one_row n e).
Proof. apply keeps_unchanged. intros t. apply postgres.one_row_same. Qed.
End Keeps.
End keeping.
