(* ===== verification/PostgresProofs.v ===== *)
(** * PostgresProofs: histories of the production repository

    Theorems about [Postgres]: the life of a request over any history of calls,
    the transactional outbox, idempotent creation and budget admission; and
    concrete runs in module [postgres_demo]. *)

From S2P Require Import Prelude Golib Request Budget Auth Store Outbox AuditTrail Postgres.

Module postgres_proofs.
Import persistence postgres.

Section Histories.
Context `{Outside}.

(** Any interleaving of calls by any clients, each with its own faults. *)
Definition run_calls (db : DB) (h : list (IO * call)) : DB :=
  foldl (λ db ic, (perform ic.1 ic.2 db).2) db h.

Lemma run_calls_ind (P : DB → Prop) (Q : call → Prop) (db : DB) (h : list (IO * call)) :
  (∀ c db db', Q c → effect c db db' → P db → P db') → Forall (λ ic, Q ic.2) h → P db →
  P (run_calls db h).
Proof.
  intros Hstep. revert db. induction h as [|[io c] h IH]; intros db HQ Hdb; [done|].
  apply Forall_cons in HQ as [Hc HQ]. apply IH; [done|]. eapply Hstep; [done|apply perform_effect|done].
Qed.

Lemma run_calls_good_db (db : DB) (h : list (IO * call)) : good_db db → good_db (run_calls db h).
Proof.
  apply (run_calls_ind _ (λ _, True)); [|by apply Forall_true].
  intros c db1 db2 _. apply effect_good.
Qed.

Lemma run_calls_lookup (db : DB) (h : list (IO * call)) (id : string) (r : request.LogicalRequest) :
  lookup db id = Some r → ∃ r', lookup (run_calls db h) id = Some r' ∧ evolves r r'.
Proof.
  intros Hr. apply (run_calls_ind (λ db', ∃ r', lookup db' id = Some r' ∧ evolves r r') (λ _, True));
    [|by apply Forall_true|by exists r].
  intros c db1 db2 _ Heff (r1 & H1 & Hev). destruct (effect_evolves _ _ _ _ _ Heff H1) as (r2 & H2 & Hev2).
  exists r2. split; [done|]. by etrans.
Qed.

(** C25 (invariant): in every history of calls on the database, whatever fails at
    any statement or commit, the foreign key and the unique idempotency keys
    hold, and every request moves only along the state machine, keeps its
    identity, tenant, key and payload hash, and is frozen once it is final. *)
Theorem postgres_history (db : DB) (h h' : list (IO * call)) (id : string)
  (r : request.LogicalRequest) :
  good_db db → lookup (run_calls db h) id = Some r →
  good_db (run_calls db (h ++ h')) ∧
  ∃ r', lookup (run_calls db (h ++ h')) id = Some r' ∧ evolves r r'.
Proof.
  intros Hg Hr. split; [by apply run_calls_good_db|].
  unfold run_calls. rewrite foldl_app. by apply run_calls_lookup.
Qed.

(** *** Idempotent creation *)

Lemma lookup_inv (db : DB) (id : string) (r : request.LogicalRequest) :
  lookup db id = Some r → ∃ row, ai_requests db !! id = Some row ∧
    request.TenantID r = tenant_id row ∧ request.IdempotencyKey r = idempotency_key row ∧
    request.CanonicalHash r = canonical_request_hash row.
Proof.
  unfold lookup. destruct (ai_requests db !! id) as [row|]; [|done]. simpl.
  destruct (models (catalog db) !! model_id row); [|done]. intros [= <-]. by exists row.
Qed.

Lemma create_existing (io : IO) (p : CreateRequestParams) (id : string) (row : RequestRow) (db : DB) :
  good_db db → ai_requests db !! id = Some row →
  tenant_id row = cr_TenantID p → idempotency_key row = cr_IdempotencyKey p →
  (create_or_get io p db).2 = db ∧
  ∀ r b, (create_or_get io p db).1 = Ok (r, b) →
    b = false ∧ lookup db id = Some r ∧ canonical_request_hash row = cr_CanonicalHash p.
Proof.
  intros Hg Hid Ht Hk.
  assert (∀ r b db', create_body io p db = (Ok (r, b), db') →
    db' = db ∧ b = false ∧ lookup db id = Some r ∧ canonical_request_hash row = cr_CanonicalHash p) as Hb.
  { intros r b db' Hrun%create_ok. destruct b.
    - exfalso. destruct Hrun as [Heff (mid & meta & m & Hnone & _ & Hnew & _)].
      pose proof (effect_good _ _ _ Heff Hg) as Hg'.
      assert (∃ row', ai_requests db' !! id = Some row' ∧ tenant_id row' = tenant_id row ∧
                      idempotency_key row' = idempotency_key row) as (row' & Hrow' & Ht' & Hk').
      { destruct (gd_model _ Hg _ _ Hid) as [m' Hm'].
        destruct (effect_evolves _ _ _ _ _ Heff (lookup_row _ _ _ _ Hid Hm')) as (r' & Hl & Hev).
        apply lookup_inv in Hl as (row' & Hrow' & Htr & Hkr & _). exists row'.
        rewrite <- Htr, <- Hkr. split_and!; [done|apply Hev|apply Hev]. }
      assert (uuid io 0 = id) as Hu; [|congruence].
      eapply (gd_unique _ Hg'); [done..| |]; simpl; congruence.
    - destruct Hrun as (-> & id' & row' & m & Hrow' & Hkey & Hh & Hm & ->).
      unfold same_key in Hkey. reflect.
      assert (id' = id) as -> by (eapply (gd_unique _ Hg); [done..|congruence|congruence]).
      simplify_eq. split_and!; [done..| |done]. by apply lookup_row. }
  unfold create_or_get, transaction. destruct (io_fault io 0); [done|].
  destruct (create_body io p db) as [[[r b]|?|?] db'] eqn:Hrun; [|done..].
  destruct (Hb _ _ _ eq_refl) as (-> & Hrest).
  destruct (io_fault io 1); [done|]. destruct (io_fault io 2); [done|]. split; [done|].
  intros r' b' [= <- <-]. done.
Qed.

(** Creation is idempotent. After a request was created, and
    after any later history, another submission with the same tenant and
    idempotency key changes nothing: it is answered with the stored request,
    not created again, if the payload hash is the same, and with an error
    otherwise. *)
Theorem postgres_create_idempotent (io io' : IO) (p p' : CreateRequestParams) (db db1 : DB)
  (h : list (IO * call)) (r : request.LogicalRequest) :
  good_db db → create_or_get io p db = (Ok (r, true), db1) →
  cr_TenantID p' = cr_TenantID p → cr_IdempotencyKey p' = cr_IdempotencyKey p →
  let db2 := run_calls db1 h in
  (create_or_get io' p' db2).2 = db2 ∧
  ∀ r' b, (create_or_get io' p' db2).1 = Ok (r', b) →
    b = false ∧ cr_CanonicalHash p' = cr_CanonicalHash p ∧
    lookup db2 (request.ID r) = Some r' ∧ evolves r r'.
Proof.
  intros Hg Hc Ht Hk db2.
  assert (good_db db1) as Hg1.
  { eapply effect_good, Hg. pose proof (create_effect io p db) as He. by rewrite Hc in He. }
  apply transaction_ok, create_ok in Hc as (_ & mid & meta & m & _ & Hm & Hrow & ->).
  pose proof (lookup_row _ _ _ _ Hrow Hm) as Hl1.
  destruct (run_calls_lookup db1 h _ _ Hl1) as (r2 & Hl2 & Hev). fold db2 in Hl2.
  pose proof (lookup_inv _ _ _ Hl2) as (row & Hid & Htr & Hkr & Hhr).
  destruct (create_existing io' p' (uuid io 0) row db2) as [Hsame Hok].
  - by apply run_calls_good_db.
  - done.
  - rewrite <- Htr, Ht. apply Hev.
  - rewrite <- Hkr, Hk. apply Hev.
  - split; [done|]. intros r' b Hr'. destruct (Hok _ _ Hr') as (-> & Hl & Hh).
    split_and!; [done| |done|].
    + rewrite <- Hh, <- Hhr. apply Hev.
    + simplify_eq. exact Hev.
Qed.

(** *** The transactional outbox *)

Definition matches (ty id : string) (e : outbox.Entry) : bool :=
  (event_type e =s ty) && (outbox.AggregateID (outbox.row e) =s id).
Definition count_events (ty id : string) (t : outbox.Table) : Z :=
  count (λ ke : string * outbox.Entry, matches ty id ke.2) (map_to_list t).

(** The events of each kind that a request in a given state has, if it exists;
    a failure announced by [FailAttempt] has one event, one that is a mere
    transition has none. *)
Definition expected (ty : string) (st : option request.State) : Z :=
  match st with
  | None => 0
  | Some s =>
    if ty =s events.RequestAccepted then 1
    else if (ty =s events.RequestCompleted) || (ty =s events.UsageRecorded)
    then if bool_decide (s = request.Completed) then 1 else 0
    else if bool_decide (s = request.BudgetRejected) then 1 else 0
  end.
Definition counted : list string :=
  [events.RequestAccepted; events.RequestCompleted; events.UsageRecorded; events.BudgetExceeded].

Record announced (db : DB) : Prop := {
  an_count : ∀ ty id, ty ∈ counted →
    count_events ty id (outbox_events db) = expected ty (status <$> ai_requests db !! id);
  an_failed : ∀ id, count_events events.RequestFailed id (outbox_events db) <=
    (if bool_decide (status <$> ai_requests db !! id = Some request.Failed) then 1 else 0);
  an_usage : ∀ id r, ai_requests db !! id = Some r → status r = request.Completed →
    ∃ k e, outbox_events db !! k = Some e ∧ event_type e = events.UsageRecorded ∧ about id e ∧
           reports r e
}.

Lemma posted_count (ty id : string) (t t' : outbox.Table) (es : list outbox.Entry) :
  posted t t' es → count_events ty id t' = count (matches ty id) es + count_events ty id t.
Proof.
  induction 1 as [t|t t' k e es Hk _ _ IH]; [done|]. rewrite IH. unfold count_events.
  rewrite map_to_list_insert by done. rewrite !count_cons. simpl. lia.
Qed.

Lemma posted_keep (t t' : outbox.Table) (es : list outbox.Entry) (k : string) (e : outbox.Entry) :
  posted t t' es → t !! k = Some e → t' !! k = Some e.
Proof.
  induction 1 as [t|t t' k' e' es Hk _ _ IH]; [done|]. intros He. apply IH.
  rewrite lookup_insert_ne; [done|congruence].
Qed.

Lemma posted_new (t t' : outbox.Table) (es : list outbox.Entry) (e : outbox.Entry) :
  posted t t' es → e ∈ es → ∃ k, t' !! k = Some e.
Proof.
  induction 1 as [t|t t' k e' es Hk _ Hp IH]; [by intros ?%not_elem_of_nil|].
  intros [->|Hin]%elem_of_cons; [|by apply IH]. exists k. eapply posted_keep; [done|].
  apply lookup_insert_eq.
Qed.

(** Events of other kinds or about other requests do not count. *)
Lemma count_none (ty id : string) (es : list outbox.Entry) :
  Forall (λ e, event_type e ≠ ty ∨ ¬ about id e) es → count (matches ty id) es = 0.
Proof.
  induction 1 as [|e es He _ IH]; [done|]. rewrite count_cons, IH. unfold matches, about in *.
  destruct (event_type e =s ty) eqn:E1, (_ =s id) eqn:E2; try done. reflect. naive_solver.
Qed.

(** The kinds of events a move to a state announces. *)
Definition announced_kinds (s : request.State) : list (list string) :=
  match s with
  | request.Completed => [[events.RequestCompleted; events.UsageRecorded]]
  | request.BudgetRejected => [[events.BudgetExceeded]]
  | request.Failed => [[]; [events.RequestFailed]]
  | _ => [[]]
  end.

Lemma announce_kinds (id : string) (r : RequestRow) (es : list outbox.Entry) :
  announce id r es → event_type <$> es ∈ announced_kinds (status r).
Proof.
  intros [_ Ha]. destruct (status r); simpl in *;
    try (rewrite Ha; by left).
  - destruct Ha as (c & u & -> & Hc & Hu & _). simpl. rewrite Hc, Hu. by left.
  - destruct Ha as [->|(e & -> & He)]; [by left|]. simpl. rewrite He. right. by left.
  - destruct Ha as (e & -> & He). simpl. rewrite He. by left.
Qed.

Lemma count_about (ty id : string) (es : list outbox.Entry) :
  Forall (about id) es → count (matches ty id) es = count (λ k, k =s ty) (event_type <$> es).
Proof.
  induction 1 as [|e es He _ IH]; [done|]. rewrite fmap_cons, !count_cons, IH. f_equal.
  unfold matches. rewrite He, String.eqb_refl, andb_true_r. done.
Qed.

(** A move out of a state that is not final announces what its target expects. *)
Lemma announce_count (ty id : string) (r r' : RequestRow) (es : list outbox.Entry) :
  row_step r r' → announce id r' es → ty ∈ counted →
  count (matches ty id) es + expected ty (Some (status r)) = expected ty (Some (status r')).
Proof.
  intros Hstep Ha Hty. apply rs_step, request.step_CanTransition in Hstep.
  rewrite count_about by apply Ha. apply announce_kinds in Ha.
  revert Ha. generalize (event_type <$> es) as tys. intros tys Ha. unfold counted in Hty.
  rewrite !elem_of_cons, elem_of_nil in Hty.
  destruct (status r'), (status r); try discriminate Hstep; simpl in Ha;
    rewrite ?elem_of_cons, elem_of_nil in Ha;
    destruct_or!; subst; try done.
Qed.

Lemma announce_failed (id : string) (r' : RequestRow) (es : list outbox.Entry) :
  announce id r' es →
  count (matches events.RequestFailed id) es <=
  (if bool_decide (Some (status r') = Some request.Failed) then 1 else 0).
Proof.
  intros Ha. rewrite count_about by apply Ha. apply announce_kinds in Ha.
  revert Ha. generalize (event_type <$> es) as tys. intros tys Ha.
  destruct (status r'); simpl in Ha; rewrite ?elem_of_cons, elem_of_nil in Ha; destruct_or!; subst; done.
Qed.

Lemma step_not_failed (r r' : RequestRow) :
  row_step r r' → Some (status r) ≠ Some request.Failed ∧ status r ≠ request.Completed.
Proof.
  intros [Hs]. apply request.step_CanTransition in Hs. destruct (status r); try done; by destruct (status r').
Qed.

(** The three kinds of effects keep the outbox in step with the requests. *)
Lemma announced_rest (db db' : DB) (es : list outbox.Entry) :
  ai_requests db' = ai_requests db → posted (outbox_events db) (outbox_events db') es →
  Forall (λ e, event_type e = events.ProviderSelected) es → announced db → announced db'.
Proof.
  intros Hr Hp Hes [Hc Hf Hu].
  assert (∀ ty id, ty ≠ events.ProviderSelected → count (matches ty id) es = 0) as Hnone.
  { intros ty id Hty. apply count_none. eapply Forall_impl; [exact Hes|]. intros e He. left. congruence. }
  split; rewrite Hr.
  - intros ty id Hty. rewrite (posted_count _ _ _ _ _ Hp), Hnone, Hc; [lia|done|].
    intros ->. unfold counted in Hty. set_solver.
  - intros id. rewrite (posted_count _ _ _ _ _ Hp), Hnone by done. apply Hf.
  - intros id r Hrow Hst. destruct (Hu id r Hrow Hst) as (k & e & He & ?). exists k, e.
    split; [by eapply posted_keep|done].
Qed.

Lemma announced_move (db db' : DB) (id : string) (r r' : RequestRow) (es : list outbox.Entry) :
  ai_requests db !! id = Some r → ai_requests db' = <[id := r']> (ai_requests db) →
  row_step r r' → posted (outbox_events db) (outbox_events db') es → announce id r' es →
  announced db → announced db'.
Proof.
  intros Hid Hr Hstep Hp Ha [Hc Hf Hu]. destruct (step_not_failed r r' Hstep) as [Hnf Hnc].
  assert (∀ ty id', id ≠ id' → count (matches ty id') es = 0) as Hother.
  { intros ty id' Hne. apply count_none. eapply Forall_impl; [apply Ha|]. unfold about.
    intros e He. right. congruence. }
  split; rewrite Hr.
  - intros ty id' Hty. rewrite (posted_count _ _ _ _ _ Hp), Hc by done.
    destruct (decide (id = id')) as [<-|Hne].
    + rewrite lookup_insert_eq, Hid. by apply announce_count.
    + by rewrite lookup_insert_ne, Hother.
  - intros id'. rewrite (posted_count _ _ _ _ _ Hp). specialize (Hf id').
    destruct (decide (id = id')) as [<-|Hne].
    + rewrite lookup_insert_eq. rewrite Hid in Hf. simpl in *.
      rewrite bool_decide_eq_false_2 in Hf by done. pose proof (announce_failed id r' es Ha). lia.
    + by rewrite lookup_insert_ne, Hother.
  - intros id' r1. destruct (decide (id = id')) as [<-|Hne].
    + rewrite lookup_insert_eq. intros [= <-] Hst. destruct Ha as [Hab Ha]. rewrite Hst in Ha.
      destruct Ha as (c & u & -> & _ & Hty & Hrep). rewrite !Forall_cons in Hab.
      destruct (posted_new _ _ _ u Hp) as [k Hk]; [right; by left|]. exists k, u. naive_solver.
    + rewrite lookup_insert_ne by done. intros Hrow Hst.
      destruct (Hu _ _ Hrow Hst) as (k & e & He & ?). exists k, e.
      split; [by eapply posted_keep|done].
Qed.

Lemma announced_create (db db' : DB) (id : string) (r : RequestRow) (e : outbox.Entry) :
  ai_requests db !! id = None → status r = request.Received →
  ai_requests db' = <[id := r]> (ai_requests db) →
  posted (outbox_events db) (outbox_events db') [e] → about id e →
  event_type e = events.RequestAccepted → announced db → announced db'.
Proof.
  intros Hid Hst Hr Hp Hab He [Hc Hf Hu].
  assert (∀ ty id', count (matches ty id') [e] =
    if (events.RequestAccepted =s ty) && (id =s id') then 1 else 0) as Hcount.
  { intros ty id'. rewrite count_cons. unfold matches. rewrite Hab, He.
    change (count _ []) with 0. lia. }
  split; rewrite Hr.
  - intros ty id' Hty. rewrite (posted_count _ _ _ _ _ Hp), Hc, Hcount by done.
    destruct (decide (id = id')) as [<-|Hne].
    + rewrite lookup_insert_eq, Hid, String.eqb_refl. simpl. rewrite Hst.
      unfold counted in Hty. rewrite !elem_of_cons, elem_of_nil in Hty. destruct_or!; by subst.
    + rewrite (proj2 (String.eqb_neq id id') Hne), andb_false_r, lookup_insert_ne by done. lia.
  - intros id'. rewrite (posted_count _ _ _ _ _ Hp), Hcount. specialize (Hf id'). simpl.
    destruct (decide (id = id')) as [<-|Hne].
    + rewrite lookup_insert_eq. rewrite Hid in Hf. simpl in *. rewrite Hst. done.
    + by rewrite lookup_insert_ne.
  - intros id' r1. destruct (decide (id = id')) as [<-|Hne].
    + rewrite lookup_insert_eq. intros [= <-]. congruence.
    + rewrite lookup_insert_ne by done. intros Hrow Hs.
      destruct (Hu _ _ Hrow Hs) as (k & e' & He' & ?). exists k, e'.
      split; [by eapply posted_keep|done].
Qed.

Lemma effect_announced (c : call) (db db' : DB) :
  orderly c → effect c db db' → announced db → announced db'.
Proof.
  intros Hord [es _ Hr Hp Hes|id r r' es _ Hid Hr Hstep Hp Ha|id p mid meta now e _ Hid _ _ Hr Hp Hab He].
  - by eapply announced_rest.
  - eapply announced_move; try done. by apply Ha.
  - eapply announced_create; [exact Hid| |exact Hr|exact Hp|done..]. done.
Qed.

(** C24 (invariant): the transactional outbox. In every history of calls, through
    rolled-back transactions and commits whose answer is lost, requests and
    events agree: a request has exactly one accepted event; exactly one completed
    and one usage event if it is COMPLETED and none otherwise; exactly one
    budget event if it is BUDGET_REJECTED and none otherwise; at most one failure
    event, and only if it is FAILED; and the usage event of a completed request
    carries its tenant, its tokens and its cost. Nothing is announced for a
    request that does not exist. (Transitions straight into COMPLETED or
    BUDGET_REJECTED are excluded: the gateway never asks for them.) *)
Theorem transactional_outbox (db : DB) (h : list (IO * call)) :
  announced db → Forall (λ ic, orderly ic.2) h → announced (run_calls db h).
Proof.
  intros Hdb Hh. eapply (run_calls_ind announced orderly); [|done|done].
  intros c db1 db2. apply effect_announced.
Qed.

(** *** Budget admission *)

(** A limit of zero is no limit. *)
Definition fits (limit used reserved amount : Z) : Prop :=
  limit = 0 ∨ (0 <= used ∧ 0 <= reserved ∧ 0 <= amount ∧ 0 < limit ∧
               used + reserved + amount <= limit).

Lemma CanReserve_fits (limit used reserved amount : Z) :
  in_int64 limit → in_int64 used → in_int64 reserved → in_int64 amount →
  budget.CanReserve limit used reserved amount = Ok () ↔ fits limit used reserved amount.
Proof. intros. by apply budget.CanReserve_decides. Qed.

Section Reserve.
(** The branch where the exchange [F] failed. *)
#[local] Ltac faulted F :=
  split_and!; [by left|done|let Hq := fresh in intros Hq; by rewrite Hq in F].

Context (t id : string) (amount : Z) (now : time.Time) (db : DB) (l : LimitsRow).

Let month := time.StartOfMonth now.
Let day := time.StartOfDay now.
Let month_used := used_since t month db.
Let month_reserved := reserved_in t (λ r, period_month r =? month) db.
Let day_used := used_since t day db.
Let day_reserved := reserved_in t (λ r, period_day r =? day) db.

Definition admissible : Prop :=
  fits (monthly_budget l) month_used month_reserved amount ∧
  fits (default 0 (daily_budget l)) day_used day_reserved amount.

(** The state after the reservation; a second one for the request changes nothing. *)
Definition with_reservation : DB :=
  set_reservations (audit.insert_new id (mkReservationRow t month day amount None None RESERVED)
                      (budget_reservations db)) db.

(** C26 (functional): budget admission. For a tenant with limits, and amounts and
    sums in the range of int64: whatever statement fails, a reservation is
    recorded only if recorded usage of the month and day plus the open
    reservations of that month and day plus the amount stay within the monthly
    and the daily limit; otherwise nothing changes. When nothing fails the call
    succeeds exactly in that case. *)
Theorem postgres_reserve_exact (io : IO) :
  tenant_limits (catalog db) !! t = Some l →
  Forall in_int64 [monthly_budget l; default 0 (daily_budget l); month_used; month_reserved;
                   day_used; day_reserved; amount] →
  let '(out, db') := reserve_budget io t id amount now db in
  (db' = db ∨ admissible ∧ db' = with_reservation) ∧
  (out = Ok () → admissible ∧ db' = with_reservation) ∧
  ((∀ k, io_fault io k = None) → admissible → out = Ok ()).
Proof.
  intros Hl Hrange. rewrite !Forall_cons in Hrange.
  destruct Hrange as (R1 & R2 & R3 & R4 & R5 & R6 & R7 & _).
  assert (scan_sums [month_used; month_reserved; day_used; day_reserved] = Ok ()) as Hscan.
  { unfold scan_sums. rewrite bool_decide_eq_true_2; [done|]. rewrite !Forall_cons. done. }
  pose proof (CanReserve_fits (monthly_budget l) month_used month_reserved amount R1 R3 R4 R7) as Hm.
  pose proof (CanReserve_fits _ day_used day_reserved amount R2 R5 R6 R7) as Hd.
  unfold reserve_budget, transaction. destruct (io_fault io 0) eqn:F0; [by faulted F0|].
  unfold mbind, M_bind, statement, act, lift, insert_reservation. rewrite Hl.
  destruct (io_fault io 3) eqn:F3; [by faulted F3|].
  destruct (io_fault io 4) eqn:F4; [by faulted F4|].
  fold month day month_used month_reserved day_used day_reserved. rewrite Hscan. cbn [fst snd].
  destruct (budget.CanReserve (monthly_budget l) _ _ _) as [[]|?|?];
    [|by split_and!; [left| |intros _ [Hf%Hm _]]..].
  destruct (budget.CanReserve (default 0 (daily_budget l)) _ _ _) as [[]|?|?];
    [|by split_and!; [left| |intros _ [_ Hf%Hd]]..].
  assert admissible as Had by (split; [by apply Hm|by apply Hd]).
  destruct (io_fault io 5) eqn:F5; [by faulted F5|].
  destruct (io_fault io 1) eqn:F1; [by faulted F1|].
  destruct (io_fault io 2) eqn:F2; [|by split_and!; [right|..]].
  split_and!; [by right|done|]. intros Hq. by rewrite Hq in F2.
Qed.
End Reserve.
End Histories.
End postgres_proofs.

(** ** A concrete database *)
Module postgres_demo.
Import persistence postgres postgres_proofs.

Definition response : request.ChatResponse :=
  request.mkChatResponse "chat-1" "chat.completion" 0 "gpt" []
    (request.mkUsage 10 20 30) (request.mkResponseMeta "req" request.Completed).

#[global] Instance outside : Outside := {|
  uuid := λ io n, hex.EncodeToString (take 2 (io_rand io) ++ [Z.of_nat n]);
  encode_metadata := λ _, Ok "{}";
  encode_payload := λ _, Ok "{}";
  encode_response := λ _, Ok "{...}";
  decode_response := λ _, Ok response
|}.

Definition start : DB := mkDB
  (mkCatalog ∅ {["m1" := mkModelRow "gpt" true]} {["p1" := mkProviderRow "mock" true]}
     {["t" := mkTenantRow "INTERNAL" true]} {[("t", "m1") := true]} {[("t", "p1") := true]}
     {["t" := mkLimitsRow 60 1000 5 100 None]})
  ∅ ∅ ∅ ∅ ∅.

(** The n-th call; the k-th exchange of a flaky one fails. *)
Definition at_ (n : Z) : IO := quiet (time.epoch + n * time.Second) [n; 7].
Definition flaky (n : Z) (k : nat) : IO :=
  mkIO (time.epoch + n * time.Second) [n; 7] (λ _, None)
    (λ j, if (j =? k)%nat then Some (New "connection reset") else None).

Definition input : request.ChatInput := request.mkChatInput "gpt" [] None 20 false None.
Definition create (key hash : string) : CreateRequestParams :=
  mkCreateRequestParams "t" "key-1" "" key hash input "corr".
Definition rid : string := uuid (at_ 1) 0.

(** A request that is completed at the second try; the first loses its commit. *)
Definition history : list (IO * call) :=
  [(at_ 1, CCreate (create "k" "h"));
   (at_ 2, CTransition "t" rid request.Received request.Validated);
   (at_ 3, CReserve "t" rid 80 (time.epoch + 3 * time.Second));
   (at_ 4, CTransition "t" rid request.Validated request.Routing);
   (at_ 5, CTransition "t" rid request.Routing request.InProgress);
   (at_ 6, CStart (mkAttemptParams rid "t" 1 "mock" "gpt" "corr"));
   (flaky 7 1, CComplete (mkCompletionParams rid "t" 1 "prov-1" response 70 time.epoch "corr"));
   (at_ 8, CComplete (mkCompletionParams rid "t" 1 "prov-1" response 70 time.epoch "corr"));
   (at_ 9, CCancel "t" rid "corr");
   (at_ 10, CReconcile rid 70)].

Lemma start_good_db : good_db start.
Proof. split; unfold start; cbn [ai_requests]; intros *; by rewrite lookup_empty. Qed.

Lemma start_announced : announced start.
Proof.
  split; unfold start; cbn [ai_requests outbox_events].
  - intros ty id _. by rewrite lookup_empty.
  - intros id. rewrite lookup_empty. simpl. by vm_compute.
  - intros id r Hr. by rewrite lookup_empty in Hr.
Qed.

Lemma postgres_history_witness :
  ∃ r r', lookup (run_calls start (take 5 history)) rid = Some r ∧
    request.state r = request.InProgress ∧
    lookup (run_calls start (take 5 history ++ drop 5 history)) rid = Some r' ∧ evolves r r' ∧
    request.state r' = request.Completed.
Proof.
  assert (∃ r, lookup (run_calls start (take 5 history)) rid = Some r ∧
               request.state r = request.InProgress) as (r & Hr & Hs).
  { eexists. vm_compute. split; reflexivity. }
  destruct (postgres_history start (take 5 history) (drop 5 history) rid r start_good_db Hr)
    as (_ & r' & Hr' & Hev).
  exists r, r'. split; [exact Hr|]. split; [exact Hs|]. split; [exact Hr'|]. split; [exact Hev|].
  vm_compute in Hr'. injection Hr' as <-. reflexivity.
Defined.

Lemma transactional_outbox_witness :
  announced (run_calls start history) ∧
  count_events events.UsageRecorded rid (outbox_events (run_calls start history)) = 1.
Proof.
  split; [|vm_compute; reflexivity].
  apply (transactional_outbox start history start_announced).
  repeat (apply Forall_cons; split); try (by apply Forall_nil); try exact I; split; discriminate.
Defined.

Lemma postgres_create_idempotent_witness :
  ∃ r db1, create_or_get (at_ 1) (create "k" "h") start = (Ok (r, true), db1) ∧
    let db2 := run_calls db1 (drop 1 history) in
    (create_or_get (at_ 20) (create "k" "h") db2).2 = db2 ∧
    ∃ r', (create_or_get (at_ 20) (create "k" "h") db2).1 = Ok (r', false) ∧
          request.state r' = request.Completed ∧ evolves r r'.
Proof.
  destruct (create_or_get (at_ 1) (create "k" "h") start) as [out db1] eqn:Hc.
  assert (∃ r, out = Ok (r, true)) as [r ->]
    by (vm_compute in Hc; injection Hc as <- _; eexists; reflexivity).
  exists r, db1. split; [reflexivity|]. intros db2.
  destruct (postgres_create_idempotent (at_ 1) (at_ 20) (create "k" "h") (create "k" "h") start db1
              (drop 1 history) r start_good_db Hc eq_refl eq_refl) as [Hsame Hok].
  split; [exact Hsame|].
  assert (∃ r', (create_or_get (at_ 20) (create "k" "h") db2).1 = Ok (r', false) ∧
                request.state r' = request.Completed) as (r' & Hr' & Hs).
  { unfold db2. vm_compute in Hc. injection Hc as _ <-. eexists. vm_compute. split; reflexivity. }
  exists r'. split; [exact Hr'|]. split; [exact Hs|]. apply (Hok r' false Hr').
Defined.

Definition limits : LimitsRow := mkLimitsRow 60 1000 5 100 None.

Lemma postgres_reserve_exact_witness :
  (reserve_budget (at_ 3) "t" rid 80 (time.epoch + 3 * time.Second) start).1 = Ok () ∧
  (reserve_budget (at_ 3) "t" rid 180 (time.epoch + 3 * time.Second) start).2 = start.
Proof.
  pose proof (postgres_reserve_exact "t" rid 80 (time.epoch + 3 * time.Second) start limits (at_ 3)
    eq_refl) as H1.
  pose proof (postgres_reserve_exact "t" rid 180 (time.epoch + 3 * time.Second) start limits (at_ 3)
    eq_refl) as H2.
  split.
  - destruct (reserve_budget _ _ _ 80 _ _) as [out db']. apply H1; [|done|].
    + repeat (apply Forall_cons; split); try (by apply Forall_nil); vm_compute; split; discriminate.
    + split; [right|left; reflexivity]. vm_compute. repeat split; discriminate.
  - destruct (reserve_budget _ _ _ 180 _ _) as [out db']. destruct H2 as [[Hdb|[[Hf _] _]] _].
    + repeat (apply Forall_cons; split); try (by apply Forall_nil); vm_compute; split; discriminate.
    + exact Hdb.
    + exfalso. destruct Hf as [Hf|(_ & _ & _ & _ & Hf)]; vm_compute in Hf; [discriminate|].
      by apply Hf.
Defined.

(** Spent budget is forgotten until the audit consumer runs. A
    reservation stops counting when it is reconciled, and the usage counts only
    once the consumer has recorded it in the ledger; in between the same
    remainder is granted again. With a monthly limit of 100, a request that was
    charged 70 is completed and settled, its usage event waits in the outbox,
    and another 80 are granted: 150 in all. *)
Theorem budget_gap :
  let db := run_calls start history in
  monthly_budget limits = 100 ∧
  (actual_cost <$> ai_requests db !! rid) = Some (Some 70) ∧
  (actual <$> budget_reservations db !! rid) = Some (Some 70) ∧
  (reserve_budget (at_ 11) "t" "other" 80 (time.epoch + 11 * time.Second) db).1 = Ok ().
Proof. vm_compute. repeat split. Qed.
End postgres_demo.
