(* ===== verification/Regexp.v ===== *)
(** * Regexp: runes and regular expressions of the Go library

    UTF-8 decoding into runes, [strings.ToLower] and the like, and the part of
    package [regexp] that the evaluators use: leftmost-first matching of
    sequences, counted repetitions (greedy and lazy) and ASCII word boundaries.
    The matcher backtracks; it is proved to find a match exactly where the
    denotation of the expression has one. *)

From Stdlib Require Import Ascii.
From S2P Require Import Prelude Golib.

(** ** Runes *)

Module runes.

(** A decoded rune with the bytes it was decoded from; an invalid byte is
    U+FFFD. *)
Record rune : Type := mkRune { code : Z; bytes : list ascii }.

Definition payload (c : ascii) : Z := strings.byte c mod 64.

Definition decode_rune (l : list ascii) (n : nat) : Z :=
  match n, l with
  | 1%nat, a :: _ => strings.byte a
  | 2%nat, a :: b :: _ => (strings.byte a mod 32) * 64 + payload b
  | 3%nat, a :: b :: c :: _ => (strings.byte a mod 16) * 4096 + payload b * 64 + payload c
  | 4%nat, a :: b :: c :: d :: _ =>
    (strings.byte a mod 8) * 262144 + payload b * 4096 + payload c * 64 + payload d
  | _, _ => 65533
  end.

Fixpoint decode_aux (fuel : nat) (l : list ascii) : list rune :=
  match fuel, l with
  | S fuel, c :: l' =>
    match utf8.valid_len (strings.nthb l 0) (strings.nthb l 1) (strings.nthb l 2)
            (strings.nthb l 3) with
    | O => mkRune 65533 [c] :: decode_aux fuel l'
    | n => mkRune (decode_rune l n) (take n l) :: decode_aux fuel (drop n l)
    end
  | _, _ => []
  end.
(** [[]rune(s)]. *)
Definition decode (s : string) : list rune := decode_aux (String.length s) (strings.chars s).

(** The UTF-8 encoding of a code point. *)
Definition encode (r : Z) : list ascii :=
  let chr := strings.chr in
  if r <? 128 then [chr r]
  else if r <? 2048 then [chr (192 + r / 64); chr (128 + r mod 64)]
  else if r <? 65536
  then [chr (224 + r / 4096); chr (128 + r / 64 mod 64); chr (128 + r mod 64)]
  else [chr (240 + r / 262144); chr (128 + r / 4096 mod 64); chr (128 + r / 64 mod 64);
        chr (128 + r mod 64)].

Definition text (l : list rune) : string := strings.of_chars (concat (bytes <$> l)).

Lemma decode_aux_bytes (fuel : nat) (l : list ascii) :
  (length l <= fuel)%nat → concat (bytes <$> decode_aux fuel l) = l.
Proof.
  revert l. induction fuel as [|fuel IH]; intros l Hl; [by destruct l; simpl in Hl; [|lia]|].
  destruct l as [|c l]; [done|]. cbn [decode_aux].
  destruct (utf8.valid_len _ _ _ _) as [|n] eqn:Hn.
  - rewrite fmap_cons. simpl. rewrite IH; [done|]. simpl in Hl. lia.
  - rewrite fmap_cons. cbn [concat bytes]. rewrite IH; [apply take_drop|].
    rewrite length_drop. simpl in *. lia.
Qed.

(** No byte of a text is lost by decoding. *)
Lemma text_decode (s : string) : text (decode s) = s.
Proof.
  unfold text, decode. rewrite decode_aux_bytes by (by rewrite length_chars).
  apply of_chars_chars.
Qed.
End runes.

Module gotext.
Section Lower.
(** [unicode.ToLower] outside ASCII. *)
Context (lower_rune : Z → Z).

Definition lower_ascii (c : ascii) : ascii :=
  let b := strings.byte c in if (65 <=? b) && (b <=? 90) then strings.chr (b + 32) else c.

Definition ToLowerRune (r : Z) : Z :=
  if r <? 128 then (if (65 <=? r) && (r <=? 90) then r + 32 else r) else lower_rune r.

(** [strings.ToLower]: bytewise on ASCII texts, else by runes. *)
Definition ToLower (s : string) : string :=
  if forallb (λ c, strings.byte c <? 128) (strings.chars s)
  then strings.of_chars (lower_ascii <$> strings.chars s)
  else strings.of_chars (concat ((λ r, runes.encode (ToLowerRune (runes.code r))) <$> runes.decode s)).

(** *** Prefixes of lowered texts

    Lowering may change the length of a text, but an ASCII prefix of the lowered text
    comes from as many runes, so from at least as many bytes. *)

Lemma byte_chr (n : Z) : 0 <= n < 256 → strings.byte (strings.chr n) = n.
Proof. intros Hn. unfold strings.byte, strings.chr. rewrite N_ascii_embedding; lia. Qed.

Lemma encode_head (r : Z) : 0 <= r < 1114112 →
  runes.encode r = [strings.chr r] ∨ ∃ c l, runes.encode r = c :: l ∧ 128 <= strings.byte c.
Proof.
  intros Hr. unfold runes.encode. destruct (Z.ltb_spec r 128); [by left|right].
  pose proof (Z.div_pos r 64). pose proof (Z.div_pos r 4096). pose proof (Z.div_pos r 262144).
  destruct (Z.ltb_spec r 2048); [|destruct (Z.ltb_spec r 65536)];
    (eexists _, _; split; [reflexivity|]); rewrite byte_chr.
  - lia.
  - pose proof (Z.div_lt_upper_bound r 64 32). lia.
  - lia.
  - pose proof (Z.div_lt_upper_bound r 4096 16). lia.
  - lia.
  - pose proof (Z.div_lt_upper_bound r 262144 5). lia.
Qed.

Lemma byte_nonneg (c : ascii) : 0 <= strings.byte c.
Proof. unfold strings.byte. lia. Qed.

Lemma decode_aux_runes (fuel : nat) (l : list ascii) :
  Forall (λ r, 0 <= runes.code r ∧ runes.bytes r ≠ []) (runes.decode_aux fuel l).
Proof.
  revert l. induction fuel as [|fuel IH]; intros [|c l]; [constructor..|].
  cbn [runes.decode_aux]. destruct (utf8.valid_len _ _ _ _) as [|n] eqn:Hn; constructor;
    try apply IH; (split; [|done]); [done|].
  assert (∀ c k, 0 < k → 0 <= strings.byte c mod k) as Hm by (intros; apply Z.mod_pos_bound; lia).
  cbn [runes.code]. unfold runes.decode_rune, runes.payload.
  destruct n as [|[|[|[|n]]]]; [pose proof (byte_nonneg c); lia|..];
    repeat match goal with |- context [match ?x with [] => _ | _ :: _ => _ end] => destruct x end;
    try lia;
    repeat match goal with |- context [strings.byte ?a mod ?k] => generalize (Hm a k ltac:(lia)); generalize (strings.byte a mod k); intros ?z ? end;
    lia.
Qed.

Lemma ascii_prefix_runes (l : list runes.rune) (p rest : list ascii) :
  (∀ r, 128 <= r → 0 <= lower_rune r < 1114112) → Forall (λ r, 0 <= runes.code r) l →
  Forall (λ c, strings.byte c < 128) p →
  concat ((λ r, runes.encode (ToLowerRune (runes.code r))) <$> l) = p ++ rest →
  (length p <= length l)%nat.
Proof.
  intros Hlower. revert p. induction l as [|r l IH]; intros p Hl Hp Heq.
  - destruct p; [simpl; lia|done].
  - destruct p as [|c p]; [simpl; lia|]. inversion_clear Hl. inversion_clear Hp.
    assert (0 <= ToLowerRune (runes.code r) < 1114112) as Hr.
    { unfold ToLowerRune. destruct (Z.ltb_spec (runes.code r) 128); [|by apply Hlower].
      destruct ((65 <=? _) && _) eqn:?; lia. }
    rewrite fmap_cons in Heq. cbn [concat] in Heq.
    destruct (encode_head _ Hr) as [He|(d & t & He & Hd)]; rewrite He in Heq;
      injection Heq as Hc Heq; subst c.
    + simpl. apply le_n_S. by apply IH.
    + lia.
Qed.

Lemma length_runes (l : list runes.rune) : Forall (λ r, runes.bytes r ≠ []) l →
  (length l <= length (concat (runes.bytes <$> l)))%nat.
Proof.
  induction 1 as [|r l Hr Hl IH]; [simpl; lia|]. rewrite fmap_cons. cbn [concat length].
  rewrite length_app. destruct (runes.bytes r); [done|]. simpl. lia.
Qed.

Lemma ToLower_prefix (s p : string) :
  (∀ r, 128 <= r → 0 <= lower_rune r < 1114112) →
  Forall (λ c, strings.byte c < 128) (strings.chars p) →
  strings.HasPrefix (ToLower s) p = true → strings.len p <= strings.len s.
Proof.
  intros Hlower Hp Hpre.
  assert (∃ rest, strings.chars (ToLower s) = strings.chars p ++ rest) as [rest Heq].
  { revert Hpre. unfold strings.HasPrefix. generalize (ToLower s). clear Hp. induction p as [|c p IH]; intros t Ht.
    - by eexists.
    - destruct t as [|d t]; [done|]. simpl in Ht. destruct (ascii_dec c d) as [->|]; [|done].
      destruct (IH t Ht) as [rest Hr]. exists rest. simpl. by rewrite Hr. }
  unfold strings.len. rewrite <- !length_chars. apply inj_le. unfold ToLower in Heq.
  destruct (forallb _ _); rewrite chars_of_chars in Heq.
  - rewrite <- (length_fmap lower_ascii (strings.chars s)), Heq, length_app. lia.
  - pose proof (decode_aux_runes (String.length s) (strings.chars s)) as Hrunes. fold (runes.decode s) in Hrunes.
    transitivity (length (runes.decode s)).
    + eapply ascii_prefix_runes; [done| |done|done]. eapply Forall_impl; [done|]. naive_solver.
    + rewrite <- (runes.text_decode s) at 2. unfold runes.text. rewrite chars_of_chars. apply length_runes.
      eapply Forall_impl; [done|]. naive_solver.
Qed.
End Lower.

Fixpoint contains_aux (l p : list ascii) : bool :=
  bool_decide (take (length p) l = p) || match l with [] => false | _ :: l => contains_aux l p end.
Definition Contains (s p : string) : bool := contains_aux (strings.chars s) (strings.chars p).

Definition HasSuffix (s p : string) : bool :=
  let l := strings.chars s in let q := strings.chars p in
  bool_decide (drop (length l - length q) l = q).

Lemma contains_aux_spec (l p : list ascii) :
  contains_aux l p = true ↔ ∃ a b, l = a ++ p ++ b.
Proof.
  induction l as [|c l IH]; cbn [contains_aux]; rewrite orb_true_iff, bool_decide_eq_true.
  - rewrite take_nil. split.
    + intros [<-|]; [by exists [], []|done].
    + intros (a & b & Hab). symmetry in Hab. apply app_eq_nil in Hab as [-> Hp].
      apply app_eq_nil in Hp as [-> ->]. by left.
  - rewrite IH. split.
    + intros [Ht|(a & b & ->)]; [|by exists (c :: a), b].
      exists [], (drop (length p) (c :: l)). simpl app.
      rewrite <- (take_drop (length p) (c :: l)) at 1. by rewrite Ht.
    + intros ([|a0 a] & b & Hab); simpl in Hab.
      * left. rewrite Hab. by rewrite take_app_length.
      * right. injection Hab as <- ->. by exists a, b.
Qed.

Lemma Contains_spec (s p : string) : Contains s p = true ↔ ∃ a b, s = a +:+ p +:+ b.
Proof.
  unfold Contains. rewrite contains_aux_spec. split.
  - intros (a & b & Hs). exists (strings.of_chars a), (strings.of_chars b).
    rewrite <- (of_chars_chars s), Hs. rewrite <- (of_chars_chars (_ +:+ _)), !chars_app.
    by rewrite !chars_of_chars.
  - intros (a & b & ->). exists (strings.chars a), (strings.chars b). by rewrite !chars_app.
Qed.
End gotext.

(** ** Regular expressions *)

Module regexp.

(** [Rep lazy min extra r]: [min] copies of [r] and then up to [extra] more
    ([None]: any number), as many as possible, or as few if lazy. *)
Inductive re : Type :=
| Set_ (p : Z → bool)
| Boundary
| Cat (r s : re)
| Rep (lazy : bool) (min : nat) (extra : option nat) (r : re).

(** A place in a text: the rune before it and the runes after it. *)
Definition place : Type := option Z * list Z.

Definition is_word (r : Z) : bool :=
  ((48 <=? r) && (r <=? 57)) || ((65 <=? r) && (r <=? 90)) || (r =? 95) ||
  ((97 <=? r) && (r <=? 122)).
Definition word_at (r : option Z) : bool := match r with Some r => is_word r | None => false end.
(** [\b]. *)
Definition boundary (p : place) : bool := xorb (word_at p.1) (word_at (head p.2)).

(** *** The matcher *)

Section Matcher.
Context {A : Type}.

(** Take one of two ways, the first if both lead to a match. *)
Definition either (x y : option A) : option A := match x with Some _ => x | None => y end.

(** Up to [fuel] further iterations of [step], each of which consumes text. *)
Fixpoint repeat_more (step : place → (place → option A) → option A) (lazy : bool) (fuel : nat)
  (p : place) (k : place → option A) : option A :=
  match fuel with
  | O => k p
  | S fuel =>
    let again := step p (λ q, if (length q.2 <? length p.2)%nat
                              then repeat_more step lazy fuel q k else None) in
    if lazy then either (k p) again else either again (k p)
  end.

Fixpoint repeat_min (step : place → (place → option A) → option A) (n : nat)
  (p : place) (k : place → option A) : option A :=
  match n with
  | O => k p
  | S n => step p (λ q, repeat_min step n q k)
  end.

(** Match [r] at [p] and continue with [k]. *)
Fixpoint run (r : re) (p : place) (k : place → option A) : option A :=
  match r with
  | Set_ f => match p.2 with c :: l => if f c then k (Some c, l) else None | [] => None end
  | Boundary => if boundary p then k p else None
  | Cat r s => run r p (λ q, run s q k)
  | Rep lazy min extra r =>
    repeat_min (run r) min p (λ q,
      repeat_more (run r) lazy (default (length q.2) extra) q k)
  end.
End Matcher.

(** *** What an expression denotes *)

Inductive star (R : place → place → Prop) : nat → place → place → Prop :=
| star_done n p : star R n p p
| star_more n p q s : R p q → (length q.2 < length p.2)%nat → star R n q s → star R (S n) p s.

(** [denotes r p q]: [r] matches the text between the places [p] and [q]. *)
Fixpoint denotes (r : re) : place → place → Prop :=
  match r with
  | Set_ f => λ p q, ∃ c l, p.2 = c :: l ∧ f c = true ∧ q = (Some c, l)
  | Boundary => λ p q, boundary p = true ∧ q = p
  | Cat r s => λ p q, ∃ m, denotes r p m ∧ denotes s m q
  | Rep _ min extra r => λ p q, ∃ m, nsteps (denotes r) min p m ∧
      ∃ n, (from_option (λ e, n <= e) True extra)%nat ∧ star (denotes r) n m q
  end.

(** A matcher agrees with a relation: it succeeds exactly if some related place
    lets the continuation succeed, and answers with what such a place gave. *)
Definition agrees {A} (step : place → (place → option A) → option A)
  (R : place → place → Prop) : Prop := ∀ p k,
  (∀ a, step p k = Some a → ∃ q, R p q ∧ k q = Some a) ∧
  (∀ q, R p q → is_Some (k q) → is_Some (step p k)).

Lemma either_Some {A} (x y : option A) (a : A) :
  either x y = Some a → x = Some a ∨ y = Some a.
Proof. destruct x; simpl; auto. Qed.
Lemma either_is_Some {A} (x y : option A) : is_Some x ∨ is_Some y → is_Some (either x y).
Proof. intros [[a ->]|[a ->]]; [by exists a|]. destruct x; by eexists. Qed.

Lemma repeat_min_agrees {A} (step : place → (place → option A) → option A)
  (R : place → place → Prop) (n : nat) : agrees step R → agrees (repeat_min step n) (nsteps R n).
Proof.
  intros Hs. induction n as [|n IH]; intros p k; cbn [repeat_min].
  - split.
    + intros a Ha. exists p. split; [constructor|done].
    + intros q Hq. by inversion Hq; subst.
  - split.
    + intros a Ha. apply Hs in Ha as (q & Hq & Ha). apply IH in Ha as (q' & Hq' & Ha).
      exists q'. split; [by econstructor|done].
    + intros q Hq Hk. inversion Hq as [|? ? m ? Hpm Hmq]; subst. eapply Hs; [done|].
      by eapply IH.
Qed.

Lemma repeat_more_agrees {A} (step : place → (place → option A) → option A)
  (R : place → place → Prop) (lazy : bool) (fuel : nat) :
  agrees step R → agrees (repeat_more step lazy fuel) (λ p q, ∃ n, (n <= fuel)%nat ∧ star R n p q).
Proof.
  intros Hs. induction fuel as [|fuel IH]; intros p k; cbn [repeat_more].
  - split.
    + intros a Ha. exists p. split; [exists 0%nat; split; [done|constructor]|done].
    + intros q (n & Hn & Hst). inversion Hst; subst; [done|lia].
  - set (again := step p _).
    assert (∀ a, again = Some a → ∃ q, (∃ n, (n <= S fuel)%nat ∧ star R n p q) ∧ k q = Some a) as Hsound.
    { intros a Ha. apply Hs in Ha as (q & Hq & Ha). destruct (_ <? _)%nat eqn:Hlt; [|done].
      apply Nat.ltb_lt in Hlt. apply IH in Ha as (q' & (n & Hn & Hst) & Ha).
      exists q'. split; [|done]. exists (S n). split; [lia|by econstructor]. }
    assert (∀ q n, (n <= S fuel)%nat → star R n p q → is_Some (k q) → is_Some (k p) ∨ is_Some again) as Hcomp.
    { intros q n Hn Hst Hk. inversion Hst as [|n' p' m q' Hpm Hlt Hmq]; subst; [by left|]. right.
      eapply Hs; [done|]. rewrite (proj2 (Nat.ltb_lt _ _) Hlt). eapply IH; [|done].
      exists n'. split; [lia|done]. }
    split.
    + intros a Ha. assert (k p = Some a ∨ again = Some a) as [Hk|Hag].
      { destruct lazy; apply either_Some in Ha as [?|?]; auto. }
      * exists p. split; [exists 0%nat; split; [lia|constructor]|done].
      * by apply Hsound.
    + intros q (n & Hn & Hst) Hk. specialize (Hcomp q n Hn Hst Hk).
      destruct lazy; apply either_is_Some; tauto.
Qed.

(** Every further iteration consumes text, so the length of the text is fuel
    enough for an unbounded repetition. *)
Lemma star_length (R : place → place → Prop) (n : nat) (p q : place) :
  star R n p q → ∃ m, (m <= n)%nat ∧ (m <= length p.2)%nat ∧ star R m p q.
Proof.
  induction 1 as [n p|n p q s Hpq Hlt _ (m & Hm & Hq & Hst)].
  - exists 0%nat. split_and!; [lia|lia|constructor].
  - exists (S m). split_and!; [lia|lia|by econstructor].
Qed.

Lemma run_agrees {A} (r : re) : agrees (A:=A) (run r) (denotes r).
Proof.
  induction r as [f| |r IHr s IHs|lazy min extra r IH]; intros p k; cbn [run denotes].
  - destruct p as [b [|c l]]; simpl.
    + split; [done|]. intros q (c & l & ? & _); done.
    + split.
      * intros a Ha. destruct (f c) eqn:Hf; [|done]. exists (Some c, l). split; [by exists c, l|done].
      * intros q (c' & l' & Hl & Hf' & ->). simplify_eq. by rewrite Hf'.
  - destruct (boundary p) eqn:Hb; (split; [intros a Ha|intros q [Hq ->]]); [|done..].
    by exists p.
  - split.
    + intros a Ha. apply IHr in Ha as (m & Hm & Ha). apply IHs in Ha as (q & Hq & Ha).
      exists q. split; [by exists m|done].
    + intros q (m & Hm & Hq) Hk. eapply IHr; [done|]. by eapply IHs.
  - pose proof (repeat_min_agrees _ _ min IH) as Hmin. split.
    + intros a Ha. apply Hmin in Ha as (m & Hm & Ha).
      apply (repeat_more_agrees _ _ lazy _ IH) in Ha as (q & (n & Hn & Hst) & Ha).
      exists q. split; [|done]. exists m. split; [done|]. exists n. split; [|done].
      destruct extra; simpl in *; [done|done].
    + intros q (m & Hm & n & Hn & Hst) Hk. eapply Hmin; [done|].
      eapply (repeat_more_agrees _ _ lazy _ IH); [|done].
      destruct extra as [e|]; simpl in *; [by exists n|].
      apply star_length in Hst as (n' & _ & Hn' & Hst). by exists n'.
Qed.

(** *** Searching a text *)

(** Match [r] at this place: the place where the match ends. *)
Definition match_at (r : re) (p : place) : option place := run r p Some.

(** The first place at which [r] matches, with the end of the match there. *)
Fixpoint find (r : re) (before : option Z) (l : list Z) : option (place * place) :=
  match match_at r (before, l), l with
  | Some q, _ => Some ((before, l), q)
  | None, c :: l => find r (Some c) l
  | None, [] => None
  end.

(** [FindAll]: the successive matches. The search goes on where a match ended;
    after an empty match at the place searched from it goes on one rune further,
    and an empty match right where the previous one ended is dropped. *)
Fixpoint find_all (fuel : nat) (r : re) (prev : option nat) (p : place) : list (place * place) :=
  match fuel with
  | O => []
  | S fuel =>
    match find r p.1 p.2 with
    | None => []
    | Some (s, e) =>
      if (length e.2 =? length p.2)%nat then
        let rest := match p.2 with
                    | [] => []
                    | c :: l => find_all fuel r (Some (length e.2)) (Some c, l)
                    end in
        if bool_decide (prev = Some (length s.2)) then rest else (s, e) :: rest
      else (s, e) :: find_all fuel r (Some (length e.2)) e
    end
  end.

(** The runes between two places of the text [rs]. *)
Definition between (rs : list runes.rune) (s e : place) : list runes.rune :=
  take (length s.2 - length e.2) (drop (length rs - length s.2) rs).

(** [FindAllString(s, -1)]. *)
Definition FindAllString (r : re) (s : string) : list string :=
  let rs := runes.decode s in
  (λ m, runes.text (between rs m.1 m.2)) <$>
    find_all (S (length rs)) r None (None, runes.code <$> rs).

(** The places of a text from a place on. *)
Inductive later : place → place → Prop :=
| later_here p : later p p
| later_next b c l p : later (Some c, l) p → later (b, c :: l) p.

Lemma match_at_sound (r : re) (p q : place) : match_at r p = Some q → denotes r p q.
Proof. intros H. apply run_agrees in H as (q' & Hq & H). by simplify_eq. Qed.

Lemma match_at_complete (r : re) (p q : place) : denotes r p q → is_Some (match_at r p).
Proof. intros H. eapply (run_agrees r p Some); [exact H|by eexists]. Qed.

Lemma find_sound (r : re) (b : option Z) (l : list Z) (s e : place) :
  find r b l = Some (s, e) → later (b, l) s ∧ denotes r s e.
Proof.
  revert b. induction l as [|c l IH]; intros b; cbn [find];
    (destruct (match_at r _) as [q|] eqn:Hm;
     [intros ?; simplify_eq; split; [constructor|by apply match_at_sound]|]); [done|].
  intros H. apply IH in H as [Hl Hd]. split; [by constructor|done].
Qed.

Lemma find_complete (r : re) (p s e : place) :
  later p s → denotes r s e → is_Some (find r p.1 p.2).
Proof.
  induction 1 as [p|b c l s Hl IH]; intros Hd.
  - apply match_at_complete in Hd as [q Hq]. destruct p as [b l]. simpl.
    destruct l; simpl; rewrite Hq; by eexists.
  - cbn [find fst snd]. destruct (match_at r _); [by eexists|]. by apply IH.
Qed.

Lemma later_trans (p q s : place) : later p q → later q s → later p s.
Proof. induction 1; [done|]. intros. constructor. auto. Qed.

Lemma nsteps_later (R : place → place → Prop) (n : nat) (p q : place) :
  (∀ p q, R p q → later p q) → nsteps R n p q → later p q.
Proof.
  intros HR. induction 1 as [p|n p q s Hpq _ IH]; [constructor|].
  eapply later_trans; [by apply HR|done].
Qed.

Lemma star_nsteps (R : place → place → Prop) (n : nat) (p q : place) :
  star R n p q → ∃ m, (m <= n)%nat ∧ nsteps R m p q.
Proof.
  induction 1 as [n p|n p q s Hpq _ _ (m & Hm & IH)].
  - exists 0%nat. split; [lia|constructor].
  - exists (S m). split; [lia|by econstructor].
Qed.

(** A match moves forward. *)
Lemma denotes_later (r : re) (p q : place) : denotes r p q → later p q.
Proof.
  revert p q. induction r as [f| |r IHr s IHs|lazy min extra r IH]; intros p q; cbn [denotes].
  - destruct p as [b t]. simpl. intros (c & l & -> & _ & ->). repeat constructor.
  - intros [_ ->]. constructor.
  - intros (m & Hm & Hq). eapply later_trans; eauto.
  - intros (m & Hm & n & _ & Hst). apply star_nsteps in Hst as (n' & _ & Hst).
    eapply later_trans; eauto using nsteps_later.
Qed.

Lemma find_all_sound (fuel : nat) (r : re) (prev : option nat) (p s e : place) :
  (s, e) ∈ find_all fuel r prev p → later p s ∧ denotes r s e.
Proof.
  revert prev p. induction fuel as [|fuel IH]; intros prev p; cbn [find_all]; [by rewrite elem_of_nil|].
  destruct (find r p.1 p.2) as [[a b]|] eqn:Hf; [|by rewrite elem_of_nil].
  apply find_sound in Hf as [Hpa Hab]. rewrite <- surjective_pairing in Hpa.
  set (rest := match p.2 with [] => [] | _ => _ end).
  assert ((s, e) ∈ rest → later p s ∧ denotes r s e) as Hrest.
  { subst rest. destruct p as [pb [|c l]]; simpl; [by rewrite elem_of_nil|].
    intros [Hl Hd]%IH. split; [by constructor|done]. }
  assert ((s, e) = (a, b) → later p s ∧ denotes r s e) as Hhere by (intros; by simplify_eq).
  destruct (_ =? _)%nat; [case_bool_decide; [done|]|]; rewrite elem_of_cons; (intros [?|Hin]; [auto|]);
    [auto|]. apply IH in Hin as [Hl Hd]. split; [|done].
  eapply later_trans; [done|]. eapply later_trans; [by eapply denotes_later|done].
Qed.

(** Some part of the text [s] matches. *)
Definition matches_in (r : re) (s : string) : Prop :=
  ∃ a e, later (None, runes.code <$> runes.decode s) a ∧ denotes r a e.

(** [FindAllString] finds something exactly if some part of the text matches. *)
Lemma FindAllString_ne (r : re) (s : string) : FindAllString r s ≠ [] ↔ matches_in r s.
Proof.
  unfold FindAllString, matches_in. set (l := runes.code <$> runes.decode s).
  assert (∀ ms : list (place * place), (λ m, runes.text (between (runes.decode s) m.1 m.2)) <$> ms ≠ []
    ↔ ms ≠ []) as -> by (intros []; naive_solver).
  cbn [find_all fst snd].
  destruct (find r None l) as [[a e]|] eqn:Hf.
  - split.
    + intros _. apply find_sound in Hf. by exists a, e.
    + intros _. case_bool_decide as Hp; [done|]. by destruct (_ =? _)%nat.
  - split; [done|]. intros (a & e & Hl & Hd).
    destruct (find_complete r (None, l) a e Hl Hd) as [? Hs]. simpl in Hs. congruence.
Qed.

(** Every string [FindAllString] returns is a part of the text that matches. *)
Lemma FindAllString_sound (r : re) (s m : string) :
  m ∈ FindAllString r s →
  ∃ a e, later (None, runes.code <$> runes.decode s) a ∧ denotes r a e ∧
    m = runes.text (between (runes.decode s) a e).
Proof.
  unfold FindAllString. rewrite list_elem_of_fmap. intros ([a e] & -> & Hin).
  apply find_all_sound in Hin as [Hl Hd]. by exists a, e.
Qed.
End regexp.
