(* ===== verification/Strconv.v ===== *)
(** * Strconv: numbers, booleans and durations as text

    The parsers of the Go library that the configuration and the evaluation API use:
    [strconv.Atoi], [strconv.ParseBool] and [time.ParseDuration], with their overflow
    checks. *)

From Stdlib Require Import Ascii.
From Stdlib Require Import Floats.SpecFloat.
From S2P Require Import Prelude Golib.

Module strconv.
(** The causes; the [*NumError] around them only adds the quoted text. *)
Definition ErrSyntax : error := Sentinel "strconv.ErrSyntax" "invalid syntax".
Definition ErrRange : error := Sentinel "strconv.ErrRange" "value out of range".

Definition is_digit (c : ascii) : bool := (48 <=? strings.byte c) && (strings.byte c <=? 57).
Definition digit (c : ascii) : Z := strings.byte c - 48.

Definition maxUint64 : Z := 2 ^ 64 - 1.

(** [ParseUint(s, 10, 64)]: a range error is reported as soon as the number overflows. *)
Fixpoint parse_uint (l : list ascii) (n : Z) : Z * option error :=
  match l with
  | [] => (n, None)
  | c :: l =>
    if negb (is_digit c) then (0, Some ErrSyntax)
    else if maxUint64 / 10 + 1 <=? n then (maxUint64, Some ErrRange)
    else
      let n1 := n * 10 + digit c in
      if maxUint64 <? n1 then (maxUint64, Some ErrRange) else parse_uint l n1
  end.
Definition ParseUint (l : list ascii) : Z * option error :=
  match l with [] => (0, Some ErrSyntax) | _ => parse_uint l 0 end.

(** The sign of a number, and the rest. *)
Definition sign (l : list ascii) : bool * list ascii :=
  match l with
  | c :: rest => if Ascii.eqb c "-"%char then (true, rest)
                 else if Ascii.eqb c "+"%char then (false, rest) else (false, l)
  | [] => (false, [])
  end.

(** [Atoi]: out of range the nearest [int] is returned, with an error. *)
Definition Atoi (s : string) : Z * option error :=
  let '(neg, l) := sign (strings.chars s) in
  match ParseUint l with
  | (un, Some e) =>
    if errors.Is e ErrRange
    then (if neg then int64_min else int64_max, Some e) else (0, Some e)
  | (un, None) =>
    if negb neg && (2 ^ 63 <=? un) then (int64_max, Some ErrRange)
    else if neg && (2 ^ 63 <? un) then (int64_min, Some ErrRange)
    else (if neg then - un else un, None)
  end.

Definition ParseBool (s : string) : bool * option error :=
  if existsb (String.eqb s) ["1"; "t"; "T"; "TRUE"; "true"; "True"] then (true, None)
  else if existsb (String.eqb s) ["0"; "f"; "F"; "FALSE"; "false"; "False"] then (false, None)
  else (false, Some ErrSyntax).

(** ** What a decimal text denotes *)

Definition value (l : list ascii) (n : Z) : Z := foldl (λ n c, n * 10 + digit c) n l.

Lemma digit_range (c : ascii) : is_digit c = true → 0 <= digit c <= 9.
Proof. unfold is_digit, digit. intros [?%Z.leb_le ?%Z.leb_le]%andb_true_iff. lia. Qed.

Lemma value_grows (l : list ascii) (n : Z) :
  Forall (λ c, is_digit c = true) l → 0 <= n → n <= value l n.
Proof.
  intros Hl. revert n. induction Hl as [|c l Hc Hl IH]; intros n Hn; [done|].
  apply digit_range in Hc. unfold value in *. simpl. specialize (IH (n * 10 + digit c)). lia.
Qed.

(** Digits are read exactly, or out of range. *)
Lemma parse_uint_digits (l : list ascii) (n : Z) :
  Forall (λ c, is_digit c = true) l → 0 <= n <= maxUint64 →
  parse_uint l n = if value l n <=? maxUint64 then (value l n, None) else (maxUint64, Some ErrRange).
Proof.
  intros Hl. revert n. induction Hl as [|c l Hc Hl IH]; intros n Hn; simpl.
  { unfold value. simpl. by rewrite (proj2 (Z.leb_le _ _)) by lia. }
  rewrite Hc. simpl. pose proof (digit_range c Hc) as Hd.
  pose proof (value_grows l (n * 10 + digit c) Hl ltac:(lia)) as Hg.
  change (value (c :: l) n) with (value l (n * 10 + digit c)).
  unfold maxUint64 in *. destruct (Z.leb_spec ((2 ^ 64 - 1) / 10 + 1) n) as [Hb|Hb].
  - rewrite (proj2 (Z.leb_gt _ _)); [done|]. change ((2 ^ 64 - 1) / 10) with 1844674407370955161 in Hb. lia.
  - destruct (Z.ltb_spec (2 ^ 64 - 1) (n * 10 + digit c)) as [Ho|Ho].
    + rewrite (proj2 (Z.leb_gt _ _)); [done|]. lia.
    + apply IH. lia.
Qed.

Lemma parse_uint_range (l : list ascii) (n : Z) : 0 <= n <= maxUint64 →
  0 <= (parse_uint l n).1 <= maxUint64.
Proof.
  revert n. induction l as [|c l IH]; intros n Hn; simpl; [done|].
  destruct (is_digit c) eqn:Hc; simpl; [|done]. apply digit_range in Hc.
  destruct (_ <=? n); [done|]. destruct (Z.ltb_spec maxUint64 (n * 10 + digit c)); [done|].
  apply IH. lia.
Qed.

(** [Atoi] is an [int] whatever the text. *)
Lemma Atoi_range (s : string) : in_int64 (Atoi s).1.
Proof.
  unfold Atoi. destruct (sign _) as [neg l].
  assert (0 <= (ParseUint l).1 <= maxUint64) as Hr.
  { unfold ParseUint. destruct l; [done|]. apply parse_uint_range. unfold maxUint64. lia. }
  destruct (ParseUint l) as [un [e|]]; simpl in Hr; unfold in_int64, int64_min, int64_max, maxUint64 in *.
  - destruct (errors.Is e ErrRange), neg; simpl; lia.
  - destruct neg; simpl; [destruct (Z.ltb_spec (2 ^ 63) un)|destruct (Z.leb_spec (2 ^ 63) un)]; simpl; lia.
Qed.

Lemma sign_digits (c : ascii) (l : list ascii) : is_digit c = true → sign (c :: l) = (false, c :: l).
Proof.
  unfold sign. destruct (Ascii.eqb_spec c "-") as [->|]; [done|].
  by destruct (Ascii.eqb_spec c "+") as [->|].
Qed.

(** A signed decimal that fits is read exactly. *)
Lemma Atoi_digits (neg : bool) (l : list ascii) : l ≠ [] → Forall (λ c, is_digit c = true) l →
  let n := if neg then - value l 0 else value l 0 in
  in_int64 n → Atoi (strings.of_chars ((if neg then ["-"%char] else []) ++ l)) = (n, None).
Proof.
  intros Hne Hl n Hn. unfold Atoi. rewrite chars_of_chars.
  assert (sign ((if neg then ["-"%char] else []) ++ l) = (neg, l)) as ->.
  { destruct neg; [done|]. destruct l as [|c l]; [done|]. apply Forall_cons in Hl as [Hc _]. by apply sign_digits. }
  pose proof (value_grows l 0 Hl ltac:(lia)) as Hg.
  assert (ParseUint l = (value l 0, None)) as ->.
  { unfold ParseUint. destruct l as [|c l']; [done|]. rewrite parse_uint_digits by (done || (unfold maxUint64; lia)).
    rewrite (proj2 (Z.leb_le _ _)); [done|]. unfold n, in_int64, int64_min, int64_max, maxUint64 in *.
    destruct neg; lia. }
  subst n. unfold in_int64, int64_min, int64_max in Hn.
  destruct neg; simpl; [rewrite (proj2 (Z.ltb_ge _ _)) by lia|rewrite (proj2 (Z.leb_gt _ _)) by lia]; done.
Qed.
End strconv.

(** ** Durations *)

Module duration.
Import strconv.

(** The limit [1 << 63] of the accumulators, which are [uint64]. *)
Definition top : Z := 2 ^ 63.

(** [leadingInt]: the digits at the start, [None] on overflow. *)
Fixpoint leadingInt (l : list ascii) (x : Z) : option (Z * list ascii) :=
  match l with
  | c :: l' =>
    if is_digit c then
      if top / 10 <? x then None
      else let x := x * 10 + digit c in if top <? x then None else leadingInt l' x
    else Some (x, l)
  | [] => Some (x, [])
  end.

(** [leadingFraction]: the digits after the point with their scale; those that do not
    fit are dropped. *)
Fixpoint leadingFraction (l : list ascii) (x : Z) (scale : float64.t) (overflow : bool)
  : Z * float64.t * list ascii :=
  match l with
  | c :: l' =>
    if is_digit c then
      if overflow then leadingFraction l' x scale true
      else if (top - 1) / 10 <? x then leadingFraction l' x scale true
      else
        let y := x * 10 + digit c in
        if top <? y then leadingFraction l' x scale true
        else leadingFraction l' y (float64.mul scale (float64.of_int 10)) false
    else (x, scale, l)
  | [] => (x, scale, [])
  end.

(** The unit: everything up to the next digit or point. *)
Fixpoint unit_text (l : list ascii) : list ascii * list ascii :=
  match l with
  | c :: l' => if Ascii.eqb c "."%char || is_digit c then ([], l)
               else let '(u, rest) := unit_text l' in (c :: u, rest)
  | [] => ([], [])
  end.

(** The two spellings of the micro sign in UTF-8. *)
Definition micro (b0 b1 : Z) : string := strings.of_chars [strings.chr b0; strings.chr b1; "s"%char].
Definition unitMap (u : string) : option Z :=
  if u =s "ns" then Some time.Nanosecond
  else if (u =s "us") || (u =s micro 194 181) || (u =s micro 206 188) then Some 1000
  else if u =s "ms" then Some time.Millisecond
  else if u =s "s" then Some time.Second
  else if u =s "m" then Some time.Minute
  else if u =s "h" then Some time.Hour
  else None.

(** [float64(f) * (float64(unit) / scale)], cut to an integer. *)
Definition truncate (x : float64.t) : Z :=
  match x with
  | S754_finite false m e => if 0 <=? e then Zpos m * 2 ^ e else Zpos m / 2 ^ (- e)
  | _ => 0
  end.
Definition fraction (f unit : Z) (scale : float64.t) : Z :=
  truncate (float64.mul (float64.of_int f) (SFdiv float64.prec float64.emax (float64.of_int unit) scale)).

Definition ErrInvalid : error := New "time: invalid duration".
Definition ErrMissingUnit : error := New "time: missing unit in duration".
Definition ErrUnknownUnit : error := New "time: unknown unit in duration".

(** One number with its unit: its value, or an error, and the rest of the text. *)
Definition term (l : list ascii) : res (Z * list ascii) :=
  match l with
  | [] => Err ErrInvalid
  | c :: _ =>
    if negb (Ascii.eqb c "."%char || is_digit c) then Err ErrInvalid
    else
      match leadingInt l 0 with
      | None => Err ErrInvalid
      | Some (v, l1) =>
        let pre := negb (length l1 =? length l)%nat in
        let '(f, scale, l2, post) :=
          match l1 with
          | c :: l1' => if Ascii.eqb c "."%char
                        then let '(f, scale, l2) := leadingFraction l1' 0 (float64.of_int 1) false in
                             (f, scale, l2, negb (length l2 =? length l1')%nat)
                        else (0, float64.of_int 1, l1, false)
          | [] => (0, float64.of_int 1, [], false)
          end in
        if negb pre && negb post then Err ErrInvalid
        else
          let '(u, rest) := unit_text l2 in
          match u with
          | [] => Err ErrMissingUnit
          | _ =>
            match unitMap (strings.of_chars u) with
            | None => Err ErrUnknownUnit
            | Some unit =>
              if top / unit <? v then Err ErrInvalid
              else
                let v := v * unit in
                let v := if 0 <? f then wrapu64 (v + fraction f unit scale) else v in
                if (0 <? f) && (top <? v) then Err ErrInvalid else Ok (v, rest)
            end
          end
      end
  end.

(** The loop; each turn consumes at least one character. *)
Fixpoint terms (fuel : nat) (l : list ascii) (d : Z) : res Z :=
  match fuel, l with
  | _, [] => Ok d
  | O, _ => Err ErrInvalid
  | S fuel, _ =>
    match term l with
    | Panic w => Panic w
    | Err e => Err e
    | Ok (v, rest) =>
      let d := wrapu64 (d + v) in if top <? d then Err ErrInvalid else terms fuel rest d
    end
  end.

Definition ParseDuration (s : string) : res time.Duration :=
  let '(neg, l) := sign (strings.chars s) in
  if bool_decide (l = ["0"%char]) then Ok 0
  else match l with
       | [] => Err ErrInvalid
       | _ =>
         match terms (length l) l 0 with
         | Panic w => Panic w
         | Err e => Err e
         | Ok d => if neg then Ok (wrap64 (- d))
                   else if top - 1 <? d then Err ErrInvalid else Ok d
         end
       end.

Example minutes_seconds : ParseDuration "1m30.5s" = Ok 90500000000.
Proof. vm_compute. reflexivity. Qed.
Example negative : ParseDuration "-2h" = Ok (-7200000000000).
Proof. vm_compute. reflexivity. Qed.
Example too_long : ParseDuration "9223372036854775808ns" = Err ErrInvalid.
Proof. vm_compute. reflexivity. Qed.

(** *** The loop ends, within the range of a duration *)

Lemma leadingInt_shorter (l : list ascii) (x y : Z) (rest : list ascii) :
  leadingInt l x = Some (y, rest) → (length rest <= length l)%nat.
Proof.
  revert x. induction l as [|c l IH]; intros x; simpl; [by intros [= _ <-]|].
  destruct (is_digit c); [|by intros [= _ <-]].
  destruct (_ <? x); [done|]. destruct (_ <? _); [done|]. intros ?%IH. lia.
Qed.

Lemma leadingFraction_shorter (l : list ascii) (x : Z) (scale : float64.t) (o : bool) :
  (length (leadingFraction l x scale o).2 <= length l)%nat.
Proof.
  revert x scale o. induction l as [|c l IH]; intros x scale o; simpl; [done|].
  destruct (is_digit c); [|simpl; lia]. pose proof (λ x s o, Nat.le_trans _ _ _ (IH x s o) (Nat.le_succ_diag_r _)).
  destruct o; [done|]. destruct (_ <? x); [done|]. by destruct (top <? _).
Qed.

Lemma unit_text_split (l : list ascii) : l = (unit_text l).1 ++ (unit_text l).2.
Proof.
  induction l as [|c l IH]; simpl; [done|]. destruct (_ || _); [done|].
  destruct (unit_text l) as [u rest]. simpl in *. by rewrite <- IH.
Qed.

Lemma term_shorter (l rest : list ascii) (v : Z) :
  term l = Ok (v, rest) → (length rest < length l)%nat.
Proof.
  unfold term. destruct l as [|c l]; [done|]. destruct (negb _); [done|].
  destruct (leadingInt (c :: l) 0) as [[x l1]|] eqn:Hi; [|done]. apply leadingInt_shorter in Hi.
  set (parts := match l1 with [] => _ | _ :: _ => _ end).
  assert (length parts.1.2 <= length l1)%nat as Hp.
  { unfold parts. destruct l1 as [|d l1]; [done|]. destruct (Ascii.eqb d "."%char); [|done].
    pose proof (leadingFraction_shorter l1 0 (float64.of_int 1) false) as Hf.
    destruct (leadingFraction l1 _ _ _) as [[f scale] l2]. simpl in *. lia. }
  destruct parts as [[[f scale] l2] post]. simpl in Hp. destruct (_ && _); [done|].
  pose proof (unit_text_split l2) as Hs. destruct (unit_text l2) as [[|u0 u] r]; [done|].
  destruct (unitMap _) as [unit|]; [|done]. destruct (_ <? x); [done|].
  destruct ((0 <? f) && _); [done|]. intros [= _ <-].
  apply (f_equal length) in Hs. simpl in Hs. rewrite length_app in Hs. simpl in *. lia.
Qed.

(** Fuel of the length of the text is enough. *)
Lemma terms_fuel (fuel : nat) (l : list ascii) (d : Z) :
  (length l <= fuel)%nat → terms fuel l d = terms (length l) l d.
Proof.
  remember (length l) as n eqn:Hn. revert fuel l d Hn.
  induction n as [n IH] using lt_wf_ind. intros fuel l d -> Hf.
  destruct l as [|c l]; [by destruct fuel|]. destruct fuel as [|fuel]; [simpl in Hf; lia|].
  cbn [terms length]. destruct (term (c :: l)) as [[v rest]|e|w] eqn:Ht; [|done..].
  apply term_shorter in Ht. simpl in Ht, Hf. destruct (top <? _); [done|].
  rewrite (IH (length rest) ltac:(simpl; lia) fuel rest _ eq_refl ltac:(lia)).
  by rewrite (IH (length rest) ltac:(simpl; lia) (length l) rest _ eq_refl ltac:(lia)).
Qed.

Lemma terms_range (fuel : nat) (l : list ascii) (d d' : Z) :
  0 <= d <= top → terms fuel l d = Ok d' → 0 <= d' <= top.
Proof.
  revert l d. induction fuel as [|fuel IH]; intros [|c l] d Hd; cbn [terms]; try (by intros [= <-]).
  destruct (term _) as [[v rest]|e|w]; [|done..].
  destruct (Z.ltb_spec top (wrapu64 (d + v))); [done|]. apply IH. split; [|done].
  unfold wrapu64. apply Z.mod_pos_bound. lia.
Qed.

(** A parsed duration is an [int64]. *)
Lemma ParseDuration_range (s : string) (d : time.Duration) : ParseDuration s = Ok d → in_int64 d.
Proof.
  unfold ParseDuration. destruct (sign _) as [neg l].
  destruct (bool_decide _); [intros [= <-]; by vm_compute|]. destruct l as [|c l]; [done|].
  destruct (terms _ _ 0) as [x|e|w] eqn:Ht; [|done..]. apply terms_range in Ht; [|unfold top; lia].
  destruct neg; [intros [= <-]; apply wrap64_range|].
  destruct (Z.ltb_spec (top - 1) x); [done|]. intros [= <-].
  unfold in_int64, int64_min, int64_max, top in *. lia.
Qed.

(** Whole seconds are read exactly. *)
Lemma leadingInt_digits (l rest : list ascii) (x : Z) :
  Forall (λ c, is_digit c = true) l → 0 <= x → value l x <= top →
  match rest with [] => True | c :: _ => is_digit c = false end →
  leadingInt (l ++ rest) x = Some (value l x, rest).
Proof.
  intros Hl. revert x. induction Hl as [|c l Hc Hl IH]; intros x Hx Hv Hr.
  { destruct rest as [|c rest]; [done|]. simpl. by rewrite Hr. }
  pose proof (digit_range c Hc) as Hd. pose proof (value_grows l (x * 10 + digit c) Hl ltac:(lia)) as Hg.
  change (value (c :: l) x) with (value l (x * 10 + digit c)) in *. simpl. rewrite Hc.
  rewrite (proj2 (Z.ltb_ge (top / 10) x)) by (apply Z.div_le_lower_bound; unfold top in *; lia).
  rewrite (proj2 (Z.ltb_ge top _)) by lia. apply IH; done || lia.
Qed.

Lemma ParseDuration_seconds (l : list ascii) : l ≠ [] → Forall (λ c, is_digit c = true) l →
  value l 0 * time.Second < top →
  ParseDuration (strings.of_chars (l ++ ["s"%char])) = Ok (value l 0 * time.Second).
Proof.
  intros Hne Hl Hv. pose proof (value_grows l 0 Hl ltac:(lia)) as Hg. unfold time.Second, top in Hv.
  destruct l as [|c l]; [done|]. pose proof Hl as [Hc _]%Forall_cons.
  unfold ParseDuration. rewrite chars_of_chars.
  change ((c :: l) ++ ["s"%char]) with (c :: (l ++ ["s"%char])).
  rewrite sign_digits by done. rewrite bool_decide_false by (by destruct l).
  assert (term (c :: (l ++ ["s"%char])) = Ok (value (c :: l) 0 * time.Second, [])) as Ht.
  { unfold term. change (c :: (l ++ ["s"%char])) with ((c :: l) ++ ["s"%char]) at 1.
    rewrite leadingInt_digits by (done || (unfold top; lia)).
    rewrite Hc, orb_true_r. cbn [negb length]. rewrite (length_app l). cbn [length].
    assert ((1 =? S (length l + 1))%nat = false) as -> by (apply Nat.eqb_neq; lia).
    cbn -[Z.ltb Z.div top Z.mul value time.Second]. change (0 <? 0) with false. cbn iota.
    change (is_digit "s") with false. cbn iota. change (unitMap _) with (Some time.Second). cbn iota.
    rewrite (proj2 (Z.ltb_ge _ _)); [done|]. apply Z.div_le_lower_bound; unfold top, time.Second; lia. }
  cbn [length terms]. rewrite Ht. cbn iota zeta.
  assert (wrapu64 (0 + value (c :: l) 0 * time.Second) = value (c :: l) 0 * time.Second) as ->.
  { unfold wrapu64, time.Second. apply Z.mod_small. lia. }
  unfold time.Second, top. rewrite (proj2 (Z.ltb_ge _ _)) by lia.
  assert (∀ f d, terms f [] d = Ok d) as -> by (by intros []). by rewrite (proj2 (Z.ltb_ge _ _)) by lia.
Qed.
End duration.
