(* ===== verification/Flag.v ===== *)
(** * Flag: command-line flags

    What [cmd/admin-cli] uses of the Go library: [flag.FlagSet] with string and
    int64 flags under [ContinueOnError] (module [flag]), and [strconv.ParseInt] with
    base 0, which its numeric flags are read with (module [intlit]). *)

From Stdlib Require Import Ascii.
From S2P Require Import Prelude Golib Strconv.

(** ** Integer literals *)

Module intlit.

(** [c | ('x' - 'X')]. *)
Definition lower (c : ascii) : Z := Z.lor (strings.byte c) 32.
Definition is_letter (c : ascii) : bool := (97 <=? lower c) && (lower c <=? 122).

(** The base a literal's prefix names, and the digits after it. *)
Definition base_of (s : list ascii) : Z * list ascii :=
  match s with
  | "0"%char :: c :: d :: rest =>
    if lower c =? 98 then (2, d :: rest)
    else if lower c =? 111 then (8, d :: rest)
    else if lower c =? 120 then (16, d :: rest)
    else (8, c :: d :: rest)
  | "0"%char :: rest => (8, rest)
  | _ => (10, s)
  end.

(** The loop over the digits: the number, whether an underscore was seen, an error. *)
Fixpoint digits (base : Z) (l : list ascii) (n : Z) (underscores : bool) : Z * bool * option error :=
  match l with
  | [] => (n, underscores, None)
  | c :: l =>
    if Ascii.eqb c "_"%char then digits base l n true
    else
      let d := if strconv.is_digit c then Some (strconv.digit c)
               else if is_letter c then Some (lower c - 97 + 10) else None in
      match d with
      | None => (0, underscores, Some strconv.ErrSyntax)
      | Some d =>
        if base <=? d then (0, underscores, Some strconv.ErrSyntax)
        else if strconv.maxUint64 / base + 1 <=? n
        then (strconv.maxUint64, underscores, Some strconv.ErrRange)
        else
          let n1 := n * base + d in
          if strconv.maxUint64 <? n1 then (strconv.maxUint64, underscores, Some strconv.ErrRange)
          else digits base l n1 underscores
      end
  end.

(** [underscoreOK] without the sign: underscores only between digits, a base prefix
    counting as a digit. *)
Inductive seen : Type := SStart | SDigit | SUnderscore | SOther.
Fixpoint underscore_loop (hex : bool) (l : list ascii) (saw : seen) : bool :=
  match l with
  | [] => match saw with SUnderscore => false | _ => true end
  | c :: l =>
    if strconv.is_digit c || hex && (97 <=? lower c) && (lower c <=? 102)
    then underscore_loop hex l SDigit
    else if Ascii.eqb c "_"%char
    then match saw with SDigit => underscore_loop hex l SUnderscore | _ => false end
    else match saw with SUnderscore => false | _ => underscore_loop hex l SOther end
  end.
Definition underscoreOK (s : list ascii) : bool :=
  match s with
  | "0"%char :: c :: rest =>
    if (lower c =? 98) || (lower c =? 111) || (lower c =? 120)
    then underscore_loop (lower c =? 120) rest SDigit
    else underscore_loop false s SStart
  | _ => underscore_loop false s SStart
  end.

(** [ParseUint(s, 0, 64)]. *)
Definition ParseUint (s : list ascii) : Z * option error :=
  match s with
  | [] => (0, Some strconv.ErrSyntax)
  | _ =>
    let '(base, l) := base_of s in
    match digits base l 0 false with
    | (n, _, Some e) => (n, Some e)
    | (n, underscores, None) =>
      if underscores && negb (underscoreOK s) then (0, Some strconv.ErrSyntax) else (n, None)
    end
  end.

(** [ParseInt(s, 0, 64)]: the nearest int64 with a range error. *)
Definition ParseInt (s : string) : Z * option error :=
  let '(neg, l) := strconv.sign (strings.chars s) in
  match ParseUint l with
  | (un, Some e) =>
    if errors.Is e strconv.ErrRange
    then (if neg then int64_min else int64_max, Some e) else (0, Some e)
  | (un, None) =>
    if negb neg && (2 ^ 63 <=? un) then (int64_max, Some strconv.ErrRange)
    else if neg && (2 ^ 63 <? un) then (int64_min, Some strconv.ErrRange)
    else (if neg then - un else un, None)
  end.

Example ParseInt_examples :
  ParseInt "1_000_000" = (1000000, None) ∧ ParseInt "0x7F" = (127, None) ∧
  ParseInt "-0b101" = (-5, None) ∧ ParseInt "0" = (0, None) ∧
  ParseInt "1__0" = (0, Some strconv.ErrSyntax) ∧ ParseInt "" = (0, Some strconv.ErrSyntax) ∧
  ParseInt "9223372036854775808" = (int64_max, Some strconv.ErrRange) ∧
  ParseInt "0x" = (0, Some strconv.ErrSyntax) ∧ ParseInt "0_10" = (8, None).
Proof. split_and!; vm_compute; reflexivity. Qed.

(** A leading zero makes a number octal. *)
Example ParseInt_octal : ParseInt "0100" = (64, None).
Proof. vm_compute. reflexivity. Qed.

Lemma digits_range (base : Z) (l : list ascii) (n : Z) (u : bool) :
  2 <= base → 0 <= n <= strconv.maxUint64 → 0 <= (digits base l n u).1.1 <= strconv.maxUint64.
Proof.
  intros Hbase. revert n u. induction l as [|c l IH]; intros n u Hn; cbn [digits]; [done|].
  destruct (Ascii.eqb c "_"); [by apply IH|].
  set (o := if strconv.is_digit c then _ else _).
  assert (∀ d, o = Some d → 0 <= d) as Ho.
  { unfold o. intros d. destruct (strconv.is_digit c) eqn:Hd; [intros [= <-]; by apply strconv.digit_range|].
    unfold is_letter. destruct (_ && _) eqn:Hl; [|done]. intros [= <-]. reflect. lia. }
  destruct o as [d|]; [|done]. specialize (Ho d eq_refl).
  destruct (base <=? d); [done|]. destruct (_ / base + 1 <=? n); [done|].
  destruct (Z.ltb_spec strconv.maxUint64 (n * base + d)); [done|]. apply IH. nia.
Qed.

Lemma base_of_ge (s : list ascii) : 2 <= (base_of s).1.
Proof.
  destruct s as [|c s]; [done|]. unfold base_of. destruct c as [[] [] [] [] [] [] [] []]; try done.
  destruct s as [|c [|c' s]]; [done..|]. by destruct (lower c =? 98), (lower c =? 111), (lower c =? 120).
Qed.

(** What is read is an int64 whatever the text. *)
Lemma ParseInt_range (s : string) : in_int64 (ParseInt s).1.
Proof.
  unfold ParseInt. destruct (strconv.sign _) as [neg l].
  assert (0 <= (ParseUint l).1 <= strconv.maxUint64) as Hr.
  { unfold ParseUint. destruct l as [|c l]; [done|]. pose proof (base_of_ge (c :: l)) as Hb.
    destruct (base_of (c :: l)) as [base l']. pose proof (digits_range base l' 0 false Hb) as Hd.
    destruct (digits base l' 0 false) as [[n u] [e|]]; [by apply Hd|].
    destruct (u && _); [done|by apply Hd]. }
  destruct (ParseUint l) as [un [e|]]; simpl in Hr;
    unfold in_int64, int64_min, int64_max, strconv.maxUint64 in *.
  - destruct (errors.Is e strconv.ErrRange), neg; simpl; lia.
  - destruct neg; simpl; [destruct (Z.ltb_spec (2 ^ 63) un)|destruct (Z.leb_spec (2 ^ 63) un)]; simpl; lia.
Qed.
End intlit.

(** ** Flag sets *)

Module flag.

(** A flag's variable with its current value. *)
Inductive Value : Type := VString (s : string) | VInt64 (n : Z).
Definition FlagSet : Type := list (string * Value).

Definition ErrHelp : error := Sentinel "flag.ErrHelp" "flag: help requested".
Definition errParse : error := New "parse error".
Definition errRange : error := New "value out of range".

(** [Value.Set]; [numError] replaces the cause of a failure. *)
Definition Set_ (v : Value) (text : string) : res Value :=
  match v with
  | VString _ => Ok (VString text)
  | VInt64 _ =>
    match intlit.ParseInt text with
    | (_, Some e) => Err (if errors.Is e strconv.ErrRange then errRange else errParse)
    | (n, None) => Ok (VInt64 n)
    end
  end.

Definition lookup (set : FlagSet) (name : string) : option Value :=
  snd <$> List.find (λ f, f.1 =s name) set.
Definition assign (set : FlagSet) (name : string) (v : Value) : FlagSet :=
  map (λ f, if f.1 =s name then (f.1, v) else f) set.
(** The pointers that [set.String] and [set.Int64] return. *)
Definition String_ (set : FlagSet) (name : string) : string :=
  match lookup set name with Some (VString s) => s | _ => "" end.
Definition Int64 (set : FlagSet) (name : string) : Z :=
  match lookup set name with Some (VInt64 n) => n | _ => 0 end.

(** What an argument is: the first words of [parseOne]. *)
Inductive word : Type :=
| Positional
| Terminator
| Malformed
| Named (name : string) (value : option string).

(** The name up to an equals sign that is not its first character. *)
Definition cut (name : list ascii) : word :=
  match name with
  | [] => Malformed
  | c :: rest =>
    if Ascii.eqb c "-"%char || Ascii.eqb c "="%char then Malformed
    else match strings.splitN_aux "="%char 2 [] rest with
         | [before; after] => Named (strings.of_chars (c :: before)) (Some (strings.of_chars after))
         | _ => Named (strings.of_chars name) None
         end
  end.

Definition classify (s : string) : word :=
  match strings.chars s with
  | "-"%char :: "-"%char :: [] => Terminator
  | "-"%char :: "-"%char :: name => cut name
  | "-"%char :: c :: name => cut (c :: name)
  | _ => Positional
  end.

(** [Parse]: flags up to the first argument that is not one; what follows is left. *)
Fixpoint Parse (set : FlagSet) (args : list string) : res FlagSet :=
  match args with
  | [] => Ok set
  | s :: args =>
    match classify s with
    | Positional | Terminator => Ok set
    | Malformed => Err (New "bad flag syntax")
    | Named name value =>
      match lookup set name with
      | None => if (name =s "help") || (name =s "h") then Err ErrHelp
                else Err (New "flag provided but not defined")
      | Some v =>
        match value, args with
        | Some text, _ =>
          match Set_ v text with
          | Ok v => Parse (assign set name v) args
          | _ => Err (New "invalid value")
          end
        | None, text :: args =>
          match Set_ v text with
          | Ok v => Parse (assign set name v) args
          | _ => Err (New "invalid value")
          end
        | None, [] => Err (New "flag needs an argument")
        end
      end
    end
  end.
End flag.
