(* ===== verification/Config.v ===== *)
(** * Config: process configuration from the environment

    Models [internal/config/config.go]. The environment is a function from names to
    values; a variable that is not set is empty, as [os.Getenv] gives it. *)

From Stdlib Require Import Ascii.
From S2P Require Import Prelude Golib Regexp Strconv.

Module config.

(** [strings.Split(s, ",")]: every separator splits. *)
Definition comma : ascii := ","%char.
Definition Split (s : string) : list string := strings.SplitN s comma (S (S (String.length s))).

Definition defaultHTTPAddress : string := ":8080".
Definition defaultShutdownTimeout : time.Duration := 20 * time.Second.
Definition defaultReadHeaderTimeout : time.Duration := 5 * time.Second.
Definition defaultReadTimeout : time.Duration := 15 * time.Second.
Definition defaultWriteTimeout : time.Duration := 30 * time.Second.
Definition defaultIdleTimeout : time.Duration := 60 * time.Second.
Definition defaultMaxHeaderBytes : Z := Z.shiftl 1 20.

Record Config : Type := mkConfig {
  Service : string;
  Environment : string;
  LogLevel : string;
  HTTPAddress : string;
  ShutdownTimeout : time.Duration;
  ReadHeaderTimeout : time.Duration;
  ReadTimeout : time.Duration;
  WriteTimeout : time.Duration;
  IdleTimeout : time.Duration;
  MaxHeaderBytes : Z;
  DatabaseURL : string;
  RedisAddress : string;
  KafkaBrokers : list string;
  RabbitMQURL : string;
  APIKeyPepper : string;
  DevAPIKey : string;
  ProviderName : string;
  ProviderEndpoint : string;
  ProviderAPIKey : string;
  ProviderModels : list string;
  RoutingStrategy : string;
  KafkaTopic : string;
  KafkaConsumerGroup : string;
  OTLPEndpoint : string;
  MaxBodyBytes : Z;
  WorkerConcurrency : Z;
  DevMemory : bool
}.

Section Load.
(** The environment, and [strings.ToUpper]. *)
Context (Getenv : string → string) (ToUpper : string → string).

Definition env (name : string) : string := strings.TrimSpace (Getenv name).

Definition envOr (name fallback : string) : string :=
  let value := env name in if negb (value =s "") then value else fallback.

Definition boolEnv (name : string) (fallback : bool) : res bool :=
  let value := env name in
  if value =s "" then Ok fallback
  else match strconv.ParseBool value with
       | (_, Some e) => Err (Wrap ("parse " +:+ name) e)
       | (parsed, None) => Ok parsed
       end.

Definition durationEnv (name : string) (fallback : time.Duration) : res time.Duration :=
  let value := env name in
  if value =s "" then Ok fallback
  else match duration.ParseDuration value with
       | Err e => Err (Wrap ("parse " +:+ name) e)
       | Panic w => Panic w
       | Ok parsed => Ok parsed
       end.

Definition intEnv (name : string) (fallback : Z) : res Z :=
  let value := env name in
  if value =s "" then Ok fallback
  else match strconv.Atoi value with
       | (_, Some e) => Err (Wrap ("parse " +:+ name) e)
       | (parsed, None) => Ok parsed
       end.

(** The loops over comma-separated lists. *)
Fixpoint nonblank (items : list string) : list string :=
  match items with
  | [] => []
  | item :: items =>
    let item := strings.TrimSpace item in
    if negb (item =s "") then item :: nonblank items else nonblank items
  end.

Definition positive_settings (cfg : Config) : bool :=
  negb ((ShutdownTimeout cfg <=? 0) || (ReadHeaderTimeout cfg <=? 0) || (MaxHeaderBytes cfg <=? 0)
        || (MaxBodyBytes cfg <=? 0) || (WorkerConcurrency cfg <=? 0)).

Definition Load (service : string) : res Config :=
  if strings.TrimSpace service =s "" then Err (New "service name is required")
  else
    let database := env "AEGIS_DATABASE_URL" in
    devMemory ← boolEnv "AEGIS_DEV_MEMORY" (database =s "");
    shutdown ← durationEnv "AEGIS_SHUTDOWN_TIMEOUT" defaultShutdownTimeout;
    readHeader ← durationEnv "AEGIS_READ_HEADER_TIMEOUT" defaultReadHeaderTimeout;
    read ← durationEnv "AEGIS_READ_TIMEOUT" defaultReadTimeout;
    write ← durationEnv "AEGIS_WRITE_TIMEOUT" defaultWriteTimeout;
    idle ← durationEnv "AEGIS_IDLE_TIMEOUT" defaultIdleTimeout;
    maxHeader ← intEnv "AEGIS_MAX_HEADER_BYTES" defaultMaxHeaderBytes;
    maxBody ← intEnv "AEGIS_MAX_BODY_BYTES" (Z.shiftl 1 20);
    workers ← intEnv "AEGIS_WORKER_CONCURRENCY" 4;
    let cfg := mkConfig service
      (envOr "AEGIS_ENVIRONMENT" "development")
      (ToUpper (envOr "AEGIS_LOG_LEVEL" "INFO"))
      (envOr "AEGIS_HTTP_ADDRESS" defaultHTTPAddress)
      shutdown readHeader read write idle maxHeader database
      (env "AEGIS_REDIS_ADDRESS")
      (nonblank (Split (Getenv "AEGIS_KAFKA_BROKERS")))
      (env "AEGIS_RABBITMQ_URL")
      (envOr "AEGIS_API_KEY_PEPPER" "development-only-pepper-change-me-32-bytes")
      (envOr "AEGIS_DEV_API_KEY" "aegis_devkey0000_0123456789abcdefghijklmnopqrstuvwxyzABCDEFG")
      (envOr "AEGIS_PROVIDER_NAME" "mock-primary")
      (env "AEGIS_PROVIDER_ENDPOINT")
      (env "AEGIS_PROVIDER_API_KEY")
      (nonblank (Split (envOr "AEGIS_PROVIDER_MODELS" "aegis-small,aegis-medium")))
      (envOr "AEGIS_ROUTING_STRATEGY" "weighted_round_robin")
      (envOr "AEGIS_KAFKA_TOPIC" "aegis.events.v1")
      (envOr "AEGIS_KAFKA_CONSUMER_GROUP" "aegis-audit-v1")
      (env "AEGIS_OTLP_ENDPOINT")
      maxBody workers devMemory in
    if negb (positive_settings cfg)
    then Err (New "timeouts and maximum header bytes must be positive")
    else if strings.len (APIKeyPepper cfg) <? 32
    then Err (New "AEGIS_API_KEY_PEPPER must contain at least 32 bytes")
    else if Z.of_nat (length (ProviderModels cfg)) =? 0
    then Err (New "at least one provider model is required")
    else Ok cfg.

(** ** What a loaded configuration promises *)

Definition items_ok (l : list string) : Prop := Forall (λ m, m ≠ "" ∧ ∃ raw, m = strings.TrimSpace raw) l.

Record valid (cfg : Config) : Prop := mkValid {
  valid_service : strings.TrimSpace (Service cfg) ≠ "";
  valid_timeouts : 0 < ShutdownTimeout cfg <= int64_max ∧ 0 < ReadHeaderTimeout cfg <= int64_max;
  valid_connections : in_int64 (ReadTimeout cfg) ∧ in_int64 (WriteTimeout cfg) ∧ in_int64 (IdleTimeout cfg);
  valid_sizes : 0 < MaxHeaderBytes cfg <= int64_max ∧ 0 < MaxBodyBytes cfg <= int64_max;
  valid_workers : 0 < WorkerConcurrency cfg <= int64_max;
  valid_pepper : 32 <= strings.len (APIKeyPepper cfg);
  valid_models : ProviderModels cfg ≠ [] ∧ items_ok (ProviderModels cfg);
  valid_brokers : items_ok (KafkaBrokers cfg);
  valid_names : Environment cfg ≠ "" ∧ HTTPAddress cfg ≠ "" ∧ ProviderName cfg ≠ "" ∧
                RoutingStrategy cfg ≠ "" ∧ KafkaTopic cfg ≠ "" ∧ KafkaConsumerGroup cfg ≠ ""
}.

Lemma nonblank_ok (items : list string) : items_ok (nonblank items).
Proof.
  induction items as [|item items IH]; simpl; [constructor|].
  destruct (String.eqb_spec (strings.TrimSpace item) ""); simpl; [done|].
  constructor; [|done]. split; [done|by exists item].
Qed.

Lemma envOr_ne (name fallback : string) : fallback ≠ "" → envOr name fallback ≠ "".
Proof. unfold envOr. by destruct (String.eqb_spec (env name) ""). Qed.

Lemma durationEnv_range (name : string) (fallback d : time.Duration) :
  in_int64 fallback → durationEnv name fallback = Ok d → in_int64 d.
Proof.
  unfold durationEnv. intros Hf. destruct (env name =s ""); [by intros [= <-]|].
  destruct (duration.ParseDuration _) as [x|e|w] eqn:Hp; [|done..]. intros [= <-].
  by apply duration.ParseDuration_range in Hp.
Qed.
Lemma intEnv_range (name : string) (fallback n : Z) :
  in_int64 fallback → intEnv name fallback = Ok n → in_int64 n.
Proof.
  unfold intEnv. intros Hf. destruct (env name =s ""); [by intros [= <-]|].
  pose proof (strconv.Atoi_range (env name)) as Hr. destruct (strconv.Atoi _) as [x [e|]]; [done|].
  by intros [= <-].
Qed.

Lemma res_bind_Ok {A B} (m : res A) (f : A → res B) (b : B) :
  m ≫= f = Ok b → ∃ a, m = Ok a ∧ f a = Ok b.
Proof. destruct m as [a|e|w]; [by exists a|done..]. Qed.

(** C35 (type): a configuration that [Load] returns is usable: positive shutdown and
    header timeouts, sizes and concurrency, every number within int64 whatever the text
    of its variable, a pepper long enough for key generation, at least one provider
    model, no blank entry in the lists, and no blank name. *)
Theorem Load_valid (service : string) (cfg : Config) : Load service = Ok cfg → valid cfg.
Proof.
  unfold Load. destruct (String.eqb_spec (strings.TrimSpace service) "") as [|Hs]; [done|].
  intros (devMemory & _ & H)%res_bind_Ok.
  apply res_bind_Ok in H as (shutdown & H1%durationEnv_range & H); [|by vm_compute].
  apply res_bind_Ok in H as (readHeader & H2%durationEnv_range & H); [|by vm_compute].
  apply res_bind_Ok in H as (read & H3%durationEnv_range & H); [|by vm_compute].
  apply res_bind_Ok in H as (write & H4%durationEnv_range & H); [|by vm_compute].
  apply res_bind_Ok in H as (idle & H5%durationEnv_range & H); [|by vm_compute].
  apply res_bind_Ok in H as (maxHeader & H6%intEnv_range & H); [|by vm_compute].
  apply res_bind_Ok in H as (maxBody & H7%intEnv_range & H); [|by vm_compute].
  apply res_bind_Ok in H as (workers & H8%intEnv_range & H); [|by vm_compute].
  unfold in_int64 in *. set (c := mkConfig _ _ _ _ _ _ _ _ _ _ _ _ _ _ _ _ _ _ _ _ _ _ _ _ _ _ _) in H.
  destruct (positive_settings c) eqn:Hp; cbn [negb] in H; [|done].
  destruct (Z.ltb_spec (strings.len (APIKeyPepper c)) 32); [done|].
  destruct (Z.eqb_spec (Z.of_nat (length (ProviderModels c))) 0) as [|Hm]; [done|]. injection H as <-.
  unfold positive_settings in Hp. apply negb_true_iff in Hp. rewrite !orb_false_iff, !Z.leb_gt in Hp.
  simpl in Hp. split; simpl; try done; try lia.
  - split; [|apply nonblank_ok]. intros Hn. apply Hm. simpl. by rewrite Hn.
  - apply nonblank_ok.
  - split_and!; by apply envOr_ne.
Qed.
End Load.

Lemma Load_valid_witness :
  ∃ cfg, Load (λ name, if name =s "AEGIS_SHUTDOWN_TIMEOUT" then " 1m30s " else "") (λ s, s) "gateway" = Ok cfg ∧
    ShutdownTimeout cfg = 90 * time.Second ∧ valid cfg.
Proof.
  eexists. split; [reflexivity|]. split; [vm_compute; reflexivity|].
  apply (Load_valid (λ name, if name =s "AEGIS_SHUTDOWN_TIMEOUT" then " 1m30s " else "") (λ s, s) "gateway").
  reflexivity.
Defined.

(** Timeouts that are not positive. [Load] means to refuse them, but it
    looks only at two of the five: with a zero or negative read, write or idle timeout
    it succeeds, and [net/http] then takes the timeout as absent. *)
Theorem negative_timeouts_accepted :
  match Load (λ name, if name =s "AEGIS_READ_TIMEOUT" then "-15s"
                      else if name =s "AEGIS_WRITE_TIMEOUT" then "0"
                      else if name =s "AEGIS_IDLE_TIMEOUT" then "-1h" else "") (λ s, s) "gateway" with
  | Ok cfg => ReadTimeout cfg = - 15 * time.Second ∧ WriteTimeout cfg = 0 ∧
              IdleTimeout cfg = - time.Hour
  | _ => False
  end.
Proof. vm_compute. repeat split. Qed.
End config.
