(* ===== verification/Pool.v ===== *)
(** * Pool: the connection pool of the PostgreSQL store

    Models [NewPostgres], [Ping] and [Close] of
    [internal/persistence/postgres.go]. The pools of the driver are known by their
    settings; the state is the list of pools that are open. *)

From S2P Require Import Prelude Golib.

Module pool.

Record Config : Type := mkConfig {
  connection : string;
  MaxConns : Z;
  MinConns : Z;
  MaxConnLifetime : time.Duration;
  MaxConnIdleTime : time.Duration;
  HealthCheckPeriod : time.Duration
}.

(** The driver: [pgxpool.ParseConfig], [pgxpool.NewWithConfig] and [Pool.Ping]. *)
Class Driver : Type := {
  ParseConfig : string → res Config;
  NewWithConfig : IO → Config → option error;
  pool_Ping : IO → Config → option error
}.

Section Pool.
Context `{Driver}.

Definition bounded (c : Config) : Config :=
  mkConfig (connection c) 30 2 time.Hour (10 * time.Minute) (30 * time.Second).

Definition open_pool (c : Config) : M (list Config) unit := λ pools, (Ok (), c :: pools).
Fixpoint without (c : string) (pools : list Config) : list Config :=
  match pools with
  | [] => []
  | p :: pools => if connection p =s c then pools else p :: without c pools
  end.
Definition Close (c : Config) : M (list Config) unit := λ pools, (Ok (), without (connection c) pools).

Definition Ping (io : IO) (c : Config) : res unit :=
  match pool_Ping io c with Some e => Err e | None => Ok () end.

Definition NewPostgres (io : IO) (databaseURL : string) : M (list Config) Config :=
  match ParseConfig databaseURL with
  | Panic w => lift (Panic w)
  | Err e => fail (Wrap "parse database URL" e)
  | Ok config =>
    let config := bounded config in
    match NewWithConfig io config with
    | Some e => fail (Wrap "open database pool" e)
    | None =>
      _ ← open_pool config;
      match Ping io config with
      | Ok _ => mret config
      | Err e => _ ← Close config; fail (Wrap "ping database" e)
      | Panic w => lift (Panic w)
      end
    end
  end.

(** Opening a pool succeeds exactly if the URL parses, the pool opens and the database
    answers; then one bounded pool more is open, and otherwise none is left behind. *)
Lemma NewPostgres_spec (io : IO) (url : string) (pools : list Config) :
  let '(out, pools') := NewPostgres io url pools in
  match out with
  | Ok c => pools' = c :: pools ∧ MaxConns c = 30 ∧ MinConns c = 2 ∧
            ∃ c0, ParseConfig url = Ok c0 ∧ c = bounded c0 ∧
                  NewWithConfig io c = None ∧ pool_Ping io c = None
  | Err _ | Panic _ => pools' = pools
  end.
Proof.
  unfold NewPostgres. destruct (ParseConfig url) as [c|e|w] eqn:Hp; [|done..].
  destruct (NewWithConfig io (bounded c)) eqn:Hn; [done|].
  unfold open_pool, mbind, M_bind, Ping. cbn. destruct (pool_Ping io (bounded c)) eqn:Hg; cbn.
  - by rewrite String.eqb_refl.
  - split_and!; [done..|]. by exists c.
Qed.
End Pool.
End pool.
