(* ===== verification/Admin.v ===== *)
(** * Admin: the administration command

    Models [cmd/admin-cli/main.go] over the configuration tables of
    [migrations/000001_initial.up.sql]: the dispatch, the flags of each command and
    its SQL, with the unique, check and foreign-key constraints the statements can run
    into. [view] is the database the store of [Postgres] sees on these tables. *)

From Stdlib Require Import Ascii.
From S2P Require Import Prelude Golib Request Auth Store Postgres Strconv Flag Config Pool.

Module admin.

(** ** Tables *)

Inductive TenantStatus : Type := ACTIVE | SUSPENDED | CLOSED.

Record Tenant : Type := mkTenant {
  tenant_name : string;
  slug : string;
  tenant_status : TenantStatus;
  classification : string
}.

Record ApiKey : Type := mkApiKey {
  key_tenant : string;
  key_user : option string;
  key_name : string;
  key_prefix : string;
  key_hash : string;
  scopes : list string;
  expires_at : option time.Time;
  revoked_at : option time.Time
}.

Record Model : Type := mkModel { public_name : string; description : string; model_enabled : bool }.

Record Provider : Type := mkProvider {
  provider_name : string;
  endpoint : string;
  weight : Z;
  priority : Z;
  max_concurrency : Z;
  timeout_ms : Z;
  provider_enabled : bool;
  data_classifications : list string
}.

Record ProviderModel : Type := mkProviderModel {
  provider_model_name : string;
  input_cost : Z;
  output_cost : Z;
  offer_enabled : bool
}.

Record Limits : Type := mkLimits { limits : postgres.LimitsRow; limits_updated : time.Time }.

(** All by primary key. *)
Record Tables : Type := mkTables {
  tenants : gmap string Tenant;
  api_keys : gmap string ApiKey;
  models : gmap string Model;
  providers : gmap string Provider;
  provider_models : gmap (string * string) ProviderModel;
  tenant_model_policies : gmap (string * string) bool;
  tenant_provider_policies : gmap (string * string) bool;
  tenant_limits : gmap string Limits
}.

Definition no_tables : Tables := mkTables ∅ ∅ ∅ ∅ ∅ ∅ ∅ ∅.

Definition set_tenants x (t : Tables) : Tables :=
  mkTables x (api_keys t) (models t) (providers t) (provider_models t) (tenant_model_policies t)
    (tenant_provider_policies t) (tenant_limits t).
Definition set_keys x (t : Tables) : Tables :=
  mkTables (tenants t) x (models t) (providers t) (provider_models t) (tenant_model_policies t)
    (tenant_provider_policies t) (tenant_limits t).
Definition set_models x (t : Tables) : Tables :=
  mkTables (tenants t) (api_keys t) x (providers t) (provider_models t) (tenant_model_policies t)
    (tenant_provider_policies t) (tenant_limits t).
Definition set_providers x (t : Tables) : Tables :=
  mkTables (tenants t) (api_keys t) (models t) x (provider_models t) (tenant_model_policies t)
    (tenant_provider_policies t) (tenant_limits t).
Definition set_offers x (t : Tables) : Tables :=
  mkTables (tenants t) (api_keys t) (models t) (providers t) x (tenant_model_policies t)
    (tenant_provider_policies t) (tenant_limits t).
Definition set_model_policies x (t : Tables) : Tables :=
  mkTables (tenants t) (api_keys t) (models t) (providers t) (provider_models t) x
    (tenant_provider_policies t) (tenant_limits t).
Definition set_provider_policies x (t : Tables) : Tables :=
  mkTables (tenants t) (api_keys t) (models t) (providers t) (provider_models t)
    (tenant_model_policies t) x (tenant_limits t).
Definition set_limits x (t : Tables) : Tables :=
  mkTables (tenants t) (api_keys t) (models t) (providers t) (provider_models t)
    (tenant_model_policies t) (tenant_provider_policies t) x.

(** The database: these tables, and those of [Postgres] (without their catalog). *)
Record DB : Type := mkDB { tables : Tables; records : postgres.DB }.

(** ** What the store sees *)

Definition stored_key (id : string) (k : ApiKey) : postgres.KeyRow :=
  postgres.mkKeyRow (auth.mkStoredKey id (key_tenant k) "" (key_prefix k) (key_hash k) (scopes k)
                       (expires_at k) (revoked_at k)) (key_user k).

Definition catalog_of (t : Tables) : postgres.Catalog :=
  postgres.mkCatalog
    (list_to_map ((λ kv, (key_prefix kv.2, stored_key kv.1 kv.2)) <$> map_to_list (api_keys t)))
    ((λ m, postgres.mkModelRow (public_name m) (model_enabled m)) <$> models t)
    ((λ p, postgres.mkProviderRow (provider_name p) (provider_enabled p)) <$> providers t)
    ((λ x, postgres.mkTenantRow (classification x)
             match tenant_status x with ACTIVE => true | _ => false end) <$> tenants t)
    (tenant_model_policies t) (tenant_provider_policies t) (limits <$> tenant_limits t).

Definition view (db : DB) : postgres.DB :=
  let r := records db in
  postgres.mkDB (catalog_of (tables db)) (postgres.ai_requests r) (postgres.provider_attempts r)
    (postgres.budget_reservations r) (postgres.usage_ledger r) (postgres.outbox_events r).

(** ** Constraints *)

Definition check_violation : error := New "new row violates check constraint".
Definition fk_violation : error := New "insert or update violates foreign key constraint".

(** [slug ~ '^[a-z0-9][a-z0-9-]{1,62}$']. *)
Definition slug_char (c : ascii) : bool :=
  let b := strings.byte c in ((97 <=? b) && (b <=? 122)) || strconv.is_digit c.
Definition slug_ok (s : string) : bool :=
  match strings.chars s with
  | c :: rest =>
    slug_char c && forallb (λ c, slug_char c || Ascii.eqb c "-"%char) rest &&
    (1 <=? Z.of_nat (length rest)) && (Z.of_nat (length rest) <=? 62)
  | [] => false
  end.

(** The CHECK constraints of [tenant_limits]. *)
Definition limits_ok (l : postgres.LimitsRow) : bool :=
  (0 <? postgres.requests_per_minute l) && (0 <? postgres.tokens_per_minute l) &&
  (0 <? postgres.max_concurrent_requests l) && (0 <=? postgres.monthly_budget l) &&
  match postgres.daily_budget l with Some d => 0 <=? d | None => true end.

(** Some row satisfies [P]. *)
Definition taken {K V} `{Countable K} (P : V → bool) (m : gmap K V) : bool :=
  bool_decide (is_Some (postgres.find_where P m)).
Definition has {K V} `{Countable K} (k : K) (m : gmap K V) : bool := bool_decide (is_Some (m !! k)).

(** A statement's result, or the constraint it violates. *)
Definition checked (t : Tables) (violations : list (bool * error)) (t' : Tables) : res unit * Tables :=
  match List.find fst violations with
  | Some v => (Err v.2, t)
  | None => (Ok (), t')
  end.

(** ** Statements *)

Definition insert_tenant (id : string) (row : Tenant) : M Tables unit := λ t,
  checked t
    [(negb (slug_ok (slug row)), check_violation);
     (has id (tenants t), postgres.unique_violation);
     (taken (λ x, slug x =s slug row) (tenants t), postgres.unique_violation)]
    (set_tenants (<[id := row]> (tenants t)) t).

Definition insert_limits (id : string) (row : Limits) : M Tables unit := λ t,
  checked t
    [(negb (limits_ok (limits row)), check_violation);
     (has id (tenant_limits t), postgres.unique_violation);
     (negb (has id (tenants t)), fk_violation)]
    (set_limits (<[id := row]> (tenant_limits t)) t).

(** UNIQUE (tenant_id, name) and UNIQUE (key_prefix), against the other rows. *)
Definition same_name (row : ApiKey) (k : ApiKey) : bool :=
  (key_tenant k =s key_tenant row) && (key_name k =s key_name row).
Definition same_prefix (prefix : string) (k : ApiKey) : bool := key_prefix k =s prefix.

Definition insert_key (id : string) (row : ApiKey) : M Tables unit := λ t,
  checked t
    [(has id (api_keys t), postgres.unique_violation);
     (taken (same_name row) (api_keys t), postgres.unique_violation);
     (taken (same_prefix (key_prefix row)) (api_keys t), postgres.unique_violation);
     (negb (has (key_tenant row) (tenants t)), fk_violation)]
    (set_keys (<[id := row]> (api_keys t)) t).

(** ON CONFLICT (id) DO NOTHING, one row. *)
Definition or_nothing {V} (present : Tables → bool) (f : M Tables V) (d : V) : M Tables V := λ t,
  if present t then (Ok d, t) else f t.

Definition insert_model (id : string) (row : Model) : M Tables unit := λ t,
  checked t
    [(has id (models t), postgres.unique_violation);
     (taken (λ m, public_name m =s public_name row) (models t), postgres.unique_violation)]
    (set_models (<[id := row]> (models t)) t).

(** ON CONFLICT (id) DO UPDATE SET endpoint=EXCLUDED.endpoint. *)
Definition with_endpoint (e : string) (p : Provider) : Provider :=
  mkProvider (provider_name p) e (weight p) (priority p) (max_concurrency p) (timeout_ms p)
    (provider_enabled p) (data_classifications p).
Definition upsert_provider (id : string) (row : Provider) : M Tables unit := λ t,
  match providers t !! id with
  | Some p => (Ok (), set_providers (<[id := with_endpoint (endpoint row) p]> (providers t)) t)
  | None =>
    checked t
      [(taken (λ p, provider_name p =s provider_name row) (providers t), postgres.unique_violation)]
      (set_providers (<[id := row]> (providers t)) t)
  end.

Definition insert_offer (key : string * string) (row : ProviderModel) : M Tables unit := λ t,
  checked t
    [(has key (provider_models t), postgres.unique_violation);
     (negb (has key.1 (providers t)) || negb (has key.2 (models t)), fk_violation)]
    (set_offers (<[key := row]> (provider_models t)) t).

Definition insert_model_policy (key : string * string) : M Tables unit := λ t,
  checked t
    [(has key (tenant_model_policies t), postgres.unique_violation);
     (negb (has key.1 (tenants t)) || negb (has key.2 (models t)), fk_violation)]
    (set_model_policies (<[key := true]> (tenant_model_policies t)) t).

Definition insert_provider_policy (key : string * string) : M Tables unit := λ t,
  checked t
    [(has key (tenant_provider_policies t), postgres.unique_violation);
     (negb (has key.1 (tenants t)) || negb (has key.2 (providers t)), fk_violation)]
    (set_provider_policies (<[key := true]> (tenant_provider_policies t)) t).

(** ON CONFLICT (id) DO UPDATE SET key_hash=EXCLUDED.key_hash,key_prefix=EXCLUDED.key_prefix. *)
Definition with_secret (prefix hash : string) (k : ApiKey) : ApiKey :=
  mkApiKey (key_tenant k) (key_user k) (key_name k) prefix hash (scopes k) (expires_at k) (revoked_at k).
Definition upsert_key (id : string) (row : ApiKey) : M Tables unit := λ t,
  match api_keys t !! id with
  | Some k =>
    checked t
      [(taken (same_prefix (key_prefix row)) (delete id (api_keys t)), postgres.unique_violation)]
      (set_keys (<[id := with_secret (key_prefix row) (key_hash row) k]> (api_keys t)) t)
  | None => insert_key id row t
  end.

(** ** Commands *)

(** What a command prints. *)
Inductive document : Type :=
| DSeed (tenant_slug development_api_key warning : string)
| DTenant (tenant_id slug : string)
| DKey (api_key_id api_key : string) (shown_once : bool) (key_scopes : list string)
| DRevoked (api_key_id : string) (revoked : bool)
| DRecord (r : request.LogicalRequest)
| DNothing.

Definition devTenant : string := "00000000-0000-0000-0000-000000000001".
Definition devKey : string := "00000000-0000-0000-0000-000000000003".
Definition smallModel : string := "00000000-0000-0000-0000-000000000010".
Definition mediumModel : string := "00000000-0000-0000-0000-000000000011".
Definition devProvider : string := "00000000-0000-0000-0000-000000000020".

Definition splitCSV (value : string) : list string := config.nonblank (config.Split value).

(** Writing to standard output is the eleventh exchange of a command. *)
Definition printJSON {S} (io : IO) (v : document) : M S document :=
  match io_fault io 11 with Some e => fail e | None => mret v end.

Section Commands.
Context `{postgres.Outside}.
(** The digest, and PostgreSQL's input of a UUID: its canonical text. *)
Context (hmac_sha256 : string → string → string) (uuid_in : string → option string).

(** *** seed *)

(** [tx.Exec] of one statement. *)
Definition exec (io : IO) (k : nat) (f : M Tables unit) : M Tables unit := λ t,
  match io_fault io k with
  | Some e => (Err (Wrap "seed database" e), t)
  | None =>
    match f t with
    | (Err e, t') => (Err (Wrap "seed database" e), t')
    | out => out
    end
  end.

Definition seed_limits (now : time.Time) : Limits :=
  mkLimits (postgres.mkLimitsRow 600 1000000 100 100000000 (Some 10000000)) now.

Definition seed_statements (io : IO) (cfg : config.Config) (prefix : string) : list (M Tables unit) :=
  [ or_nothing (λ t, has devTenant (tenants t))
      (insert_tenant devTenant (mkTenant "Aegis Development" "aegis-development" ACTIVE "INTERNAL")) ();
    (_ ← or_nothing (λ t, has smallModel (models t))
           (insert_model smallModel (mkModel "aegis-small" "Deterministic development model" true)) ();
     or_nothing (λ t, has mediumModel (models t))
       (insert_model mediumModel (mkModel "aegis-medium" "Deterministic development model" true)) ());
    upsert_provider devProvider
      (mkProvider (config.ProviderName cfg) (config.ProviderEndpoint cfg) 1 10 50 30000 true
         ["PUBLIC"; "INTERNAL"; "CONFIDENTIAL"]);
    (_ ← or_nothing (λ t, has (devProvider, smallModel) (provider_models t))
           (insert_offer (devProvider, smallModel) (mkProviderModel "aegis-small" 1000 2000 true)) ();
     or_nothing (λ t, has (devProvider, mediumModel) (provider_models t))
       (insert_offer (devProvider, mediumModel) (mkProviderModel "aegis-medium" 2000 4000 true)) ());
    (_ ← or_nothing (λ t, has (devTenant, smallModel) (tenant_model_policies t))
           (insert_model_policy (devTenant, smallModel)) ();
     or_nothing (λ t, has (devTenant, mediumModel) (tenant_model_policies t))
       (insert_model_policy (devTenant, mediumModel)) ());
    or_nothing (λ t, has (devTenant, devProvider) (tenant_provider_policies t))
      (insert_provider_policy (devTenant, devProvider)) ();
    or_nothing (λ t, has devTenant (tenant_limits t)) (insert_limits devTenant (seed_limits (io_now io))) ();
    upsert_key devKey
      (mkApiKey devTenant None "development" prefix
         (auth.Hash hmac_sha256 (config.APIKeyPepper cfg) (config.DevAPIKey cfg)) ["*"] None None) ].

(** The loop over the statements, numbered from [k]. *)
Fixpoint run_statements (io : IO) (k : nat) (l : list (M Tables unit)) : M Tables unit :=
  match l with
  | [] => mret ()
  | f :: l => _ ← exec io k f; run_statements io (S k) l
  end.

Definition seed (io : IO) (cfg : config.Config) : M Tables document :=
  prefix ← lift (auth.ParsePrefix (config.DevAPIKey cfg));
  _ ← postgres.transaction io (λ e, e) (λ e, e)
        (run_statements io 3 (seed_statements io cfg prefix));
  printJSON io (DSeed "aegis-development" (config.DevAPIKey cfg)
                  "development credential only; rotate outside local environments").

(** *** create-tenant *)

Definition default_limits (now : time.Time) : Limits :=
  mkLimits (postgres.mkLimitsRow 60 100000 10 0 None) now.

(** One statement inserts both rows, so both or neither; its failure is that of the
    transaction it runs in. *)
Definition createTenant (io : IO) (args : list string) : M Tables document :=
  set ← lift (flag.Parse [("name", flag.VString ""); ("slug", flag.VString "")] args);
  let name := flag.String_ set "name" in
  let slug := flag.String_ set "slug" in
  if (name =s "") || (slug =s "") then fail (New "--name and --slug are required")
  else
    let id := postgres.uuid io 0 in
    _ ← postgres.transaction io (λ e, e) (λ e, e)
          (_ ← insert_tenant id (mkTenant name slug ACTIVE "INTERNAL");
           insert_limits id (default_limits (io_now io)));
    printJSON io (DTenant id slug).

(** *** create-api-key *)

Definition default_scopes : string :=
  "chat:write,requests:read,requests:cancel,evaluations:write,evaluations:read".

(** INSERT ... SELECT id FROM tenants WHERE slug=$1 RETURNING id. *)
Definition insert_key_of (io : IO) (slug_ name prefix hash : string) (key_scopes : list string)
  : M Tables unit := λ t,
  match postgres.find_where (λ x, slug x =s slug_) (tenants t) with
  | None => (Err postgres.ErrNoRows, t)
  | Some (tenant, _) =>
    insert_key (postgres.uuid io 0) (mkApiKey tenant None name prefix hash key_scopes None None) t
  end.

(** [rand.Read] is the twelfth exchange. *)
Definition random (io : IO) : res (list Z) :=
  match io_fault io 12 with Some e => Err e | None => Ok (take 32 (io_rand io)) end.

Definition createAPIKey (io : IO) (cfg : config.Config) (args : list string) : M Tables document :=
  set ← lift (flag.Parse [("tenant", flag.VString ""); ("name", flag.VString "");
                          ("scopes", flag.VString default_scopes)] args);
  let tenant := flag.String_ set "tenant" in
  let name := flag.String_ set "name" in
  if (tenant =s "") || (name =s "") then fail (New "--tenant and --name are required")
  else
    generated ← lift (auth.Generate hmac_sha256 (config.APIKeyPepper cfg) (random io));
    let '(plain, prefix, hash) := generated in
    let key_scopes := splitCSV (flag.String_ set "scopes") in
    _ ← postgres.autocommit io (λ e, e) (insert_key_of io tenant name prefix hash key_scopes);
    printJSON io (DKey (postgres.uuid io 0) plain true key_scopes).

(** *** revoke-api-key *)

Definition revoked_key (now : time.Time) (k : ApiKey) : ApiKey :=
  mkApiKey (key_tenant k) (key_user k) (key_name k) (key_prefix k) (key_hash k) (scopes k) (expires_at k)
    (Some now).

Definition revoke (io : IO) (id : string) : M Tables Z := λ t,
  match uuid_in id with
  | None => (Err (New "invalid input syntax for type uuid"), t)
  | Some id =>
    match api_keys t !! id with
    | Some k =>
      if bool_decide (revoked_at k = None)
      then (Ok 1, set_keys (<[id := revoked_key (io_now io) k]> (api_keys t)) t)
      else (Ok 0, t)
    | None => (Ok 0, t)
    end
  end.

Definition revokeAPIKey (io : IO) (args : list string) : M Tables document :=
  set ← lift (flag.Parse [("id", flag.VString "")] args);
  let id := flag.String_ set "id" in
  n ← postgres.autocommit io (λ e, e) (revoke io id);
  _ ← postgres.one_row n persistence.ErrNotFound;
  printJSON io (DRevoked id true).

(** *** set-budget *)

Definition with_budget (monthly daily : Z) (now : time.Time) (l : Limits) : Limits :=
  let r := limits l in
  mkLimits (postgres.mkLimitsRow (postgres.requests_per_minute r) (postgres.tokens_per_minute r)
              (postgres.max_concurrent_requests r) monthly (Some daily)) now.

(** UPDATE tenant_limits ... FROM tenants: the row of the tenant with this slug. *)
Definition update_budget (io : IO) (slug_ : string) (monthly daily : Z) : M Tables unit := λ t,
  match postgres.find_where (λ x, slug x =s slug_) (tenants t) with
  | None => (Ok (), t)
  | Some (tenant, _) =>
    match tenant_limits t !! tenant with
    | None => (Ok (), t)
    | Some l =>
      let l' := with_budget monthly daily (io_now io) l in
      checked t [(negb (limits_ok (limits l')), check_violation)]
        (set_limits (<[tenant := l']> (tenant_limits t)) t)
    end
  end.

Definition setBudget (io : IO) (args : list string) : M Tables document :=
  set ← lift (flag.Parse [("tenant", flag.VString ""); ("monthly-micro-usd", flag.VInt64 0);
                          ("daily-micro-usd", flag.VInt64 0)] args);
  _ ← postgres.autocommit io (λ e, e)
        (update_budget io (flag.String_ set "tenant") (flag.Int64 set "monthly-micro-usd")
           (flag.Int64 set "daily-micro-usd"));
  mret DNothing.

(** *** inspect-request *)

Definition inspectRequest (io : IO) (args : list string) : M DB document := λ db,
  (set ← lift (flag.Parse [("tenant-id", flag.VString ""); ("id", flag.VString "")] args);
   record ← act (λ db, ((postgres.get_request io (flag.String_ set "tenant-id") (flag.String_ set "id")
                           (view db)).1, db));
   printJSON io (DRecord record)) db.

(** *** Dispatch *)

(** A command on the tables alone. *)
Definition on_tables {A} (f : M Tables A) : M DB A := λ db,
  let '(out, t) := f (tables db) in (out, mkDB t (records db)).

Definition dispatch (io : IO) (cfg : config.Config) (command : string) (args : list string) : M DB document :=
  if command =s "seed" then on_tables (seed io cfg)
  else if command =s "create-tenant" then on_tables (createTenant io args)
  else if command =s "create-api-key" then on_tables (createAPIKey io cfg args)
  else if command =s "revoke-api-key" then on_tables (revokeAPIKey io args)
  else if command =s "set-budget" then on_tables (setBudget io args)
  else if command =s "inspect-request" then inspectRequest io args
  else fail (New "unknown command").

Section Run.
Context `{pool.Driver} (Getenv ToUpper : string → string).

(** [run] on the database and the pools that are open; [opening] is the world while the
    pool is opened. *)
Definition run (opening io : IO) (args : list string) : M (DB * list pool.Config) document := λ st,
  match args with
  | [] => (Err (New "usage: admin-cli <seed|create-tenant|create-api-key|revoke-api-key|set-budget|inspect-request> [flags]"), st)
  | command :: args =>
    match config.Load Getenv ToUpper "admin-cli" with
    | Err e => (Err e, st)
    | Panic w => (Panic w, st)
    | Ok cfg =>
      match pool.NewPostgres opening (config.DatabaseURL cfg) st.2 with
      | (Err e, pools) => (Err e, (st.1, pools))
      | (Panic w, pools) => (Panic w, (st.1, pools))
      | (Ok postgres, pools) =>
        let '(out, db) := dispatch io cfg command args st.1 in
        (out, (db, (pool.Close postgres pools).2))
      end
    end
  end.
End Run.
End Commands.
End admin.
