(* ===== verification/AdminProofs.v ===== *)
(** * AdminProofs: what administrators' commands can and cannot do

    A relation between the tables before and after is kept by every command if it is
    kept by the ten statements the commands consist of (class [Kept]). Instances: the
    constraints of the schema, the history of an API key, and the tenants that have
    policies. On top of them: the life of an API key as the gateway sees it, the seed,
    and budgets. *)

From Stdlib Require Import Ascii.
From S2P Require Import Prelude Golib Request Budget Auth Store Postgres Strconv Flag Config Pool Admin.

Module admin_proofs.
Import admin keeping.

(** ** Tables *)

Lemma taken_false {K V} `{Countable K} (P : V → bool) (m : gmap K V) :
  taken P m = false ↔ ∀ k v, m !! k = Some v → P v = false.
Proof.
  unfold taken. split.
  - intros Ht k v. apply postgres.find_where_None. apply bool_decide_eq_false in Ht.
    by apply eq_None_not_Some.
  - intros Hall. apply bool_decide_eq_false. intros [[k v] Hf].
    apply postgres.find_where_Some in Hf as [Hk Hv]. rewrite (Hall k v Hk) in Hv. done.
Qed.

Lemma has_true {K V} `{Countable K} (k : K) (m : gmap K V) : has k m = true ↔ is_Some (m !! k).
Proof. apply bool_decide_eq_true. Qed.
Lemma has_false {K V} `{Countable K} (k : K) (m : gmap K V) : has k m = false ↔ m !! k = None.
Proof. unfold has. by rewrite bool_decide_eq_false, eq_None_not_Some. Qed.

(** A column (or a pair of columns) without duplicates. *)
Definition unique_by {V A} (f : V → A) (m : gmap string V) : Prop :=
  ∀ i j a b, m !! i = Some a → m !! j = Some b → f a = f b → i = j.

Lemma unique_insert {V A} (f : V → A) (m : gmap string V) (i : string) (x : V) :
  unique_by f m → (∀ j b, m !! j = Some b → j ≠ i → f b ≠ f x) → unique_by f (<[i := x]> m).
Proof.
  intros Hu Hx j k a b. rewrite !lookup_insert_Some. naive_solver.
Qed.

(** A change that keeps the columns. *)
Lemma unique_update {V A} (f : V → A) (m : gmap string V) (i : string) (x y : V) :
  unique_by f m → m !! i = Some x → f y = f x → unique_by f (<[i := y]> m).
Proof.
  intros Hu Hi Hf. apply unique_insert; [done|]. intros j b Hj Hne He. rewrite Hf in He.
  apply Hne. eapply Hu; eauto.
Qed.

(** The row a statement selects by a unique column. *)
Lemma find_by_unique {V} (f : V → string) (m : gmap string V) (i : string) (a : V) :
  unique_by f m → m !! i = Some a → postgres.find_where (λ x, f x =s f a) m = Some (i, a).
Proof.
  intros Hu Hi. destruct (postgres.find_where _ m) as [[j b]|] eqn:Hf.
  - apply postgres.find_where_Some in Hf as [Hj He]. apply String.eqb_eq in He.
    assert (j = i) as -> by (eapply Hu; eauto). by rewrite Hi in Hj; injection Hj as ->.
  - apply (postgres.find_where_None _ _ i a) in Hf; [|done]. cbn beta in Hf. by rewrite String.eqb_refl in Hf.
Qed.

(** ** What every command keeps *)

(** A statement with constraints changes nothing, or does its change within them. *)
Lemma checked_cases (t t' : Tables) (vs : list (bool * error)) :
  (∃ e, checked t vs t' = (Err e, t)) ∨
  (checked t vs t' = (Ok (), t') ∧ Forall (λ v, v.1 = false) vs).
Proof.
  unfold checked. induction vs as [|[b e] vs IH]; [by right|]. simpl.
  destruct b; [left; by eexists|]. destruct IH as [IH|[IH Hall]]; [by left|right]. split; [done|].
  by constructor.
Qed.

(** Case on a statement: failed and unchanged, or its constraints hold. *)
Ltac constraint :=
  match goal with
  | |- context [checked ?t ?vs ?t'] =>
    let He := fresh "He" in
    destruct (checked_cases t t' vs) as [[? He]|[He Hok]]; rewrite He; cbn [fst snd];
      [try reflexivity|repeat (rewrite Forall_cons in Hok); cbn [fst snd] in Hok]
  end.

Section Keeps.
Context (R : relation Tables) `{!PreOrder R}.

Lemma keeps_exec (io : IO) (k : nat) (m : M Tables unit) : keeps R m → keeps R (exec io k m).
Proof.
  intros Hm t. unfold exec. specialize (Hm t). destruct (io_fault io k); [done|].
  by destruct (m t) as [[] t'].
Qed.
Lemma keeps_or_nothing (present : Tables → bool) (m : M Tables unit) :
  keeps R m → keeps R (or_nothing present m ()).
Proof. intros Hm t. unfold or_nothing. by destruct (present t). Qed.
Lemma keeps_statements (io : IO) (k : nat) (l : list (M Tables unit)) :
  Forall (keeps R) l → keeps R (run_statements io k l).
Proof.
  intros Hl. revert k. induction Hl as [|f l Hf Hl IH]; intros k; [by apply keeps_unchanged; [apply _|]|].
  cbn [run_statements]. apply keeps_bind; [apply _|by apply keeps_exec|]. intros _. apply IH.
Qed.
Lemma keeps_print (io : IO) (v : document) : keeps R (printJSON io v).
Proof. apply keeps_unchanged; [apply _|]. intros t. unfold printJSON. by destruct (io_fault io 11). Qed.
End Keeps.

(** The statements; a tenant is inserted together with its limits. *)
Class Kept (R : relation Tables) : Prop := {
  kept_preorder :: PreOrder R;
  kept_tenant id row : keeps R (insert_tenant id row);
  kept_limits id row : keeps R (insert_limits id row);
  kept_key `{postgres.Outside} io slug name prefix hash scopes :
    keeps R (insert_key_of io slug name prefix hash scopes);
  kept_model id row : keeps R (insert_model id row);
  kept_provider id row : keeps R (upsert_provider id row);
  kept_offer key row : keeps R (insert_offer key row);
  kept_model_policy model : keeps R (insert_model_policy (devTenant, model));
  kept_provider_policy p : keeps R (insert_provider_policy (devTenant, p));
  kept_dev_key prefix hash :
    keeps R (upsert_key devKey (mkApiKey devTenant None "development" prefix hash ["*"] None None));
  kept_revoke uuid_in io id : keeps R (revoke uuid_in io id);
  kept_budget io slug m d : keeps R (update_budget io slug m d)
}.

Section Commands.
Context (R : relation Tables) `{!Kept R} `{postgres.Outside}.
Context (hmac_sha256 : string → string → string) (uuid_in : string → option string).

Lemma seed_kept (io : IO) (cfg : config.Config) : keeps R (seed hmac_sha256 io cfg).
Proof.
  unfold seed. apply keeps_bind; [apply _|by apply keeps_unchanged; [apply _|]|]. intros prefix.
  apply keeps_bind; [apply _| |intros; apply keeps_print, _].
  apply keeps_transaction, keeps_statements; [apply _..|]. unfold seed_statements.
  repeat (apply Forall_cons; split); try (by apply Forall_nil);
    repeat first [apply keeps_or_nothing; [apply _|] | apply keeps_bind; [apply _| |intros _]];
    first [apply kept_tenant | apply kept_model | apply kept_provider | apply kept_offer |
           apply kept_model_policy | apply kept_provider_policy | apply kept_limits | apply kept_dev_key].
Qed.

Lemma dispatch_kept (io : IO) (cfg : config.Config) (command : string) (args : list string) (db : DB) :
  R (tables db) (tables (dispatch hmac_sha256 uuid_in io cfg command args db).2) ∧
  records (dispatch hmac_sha256 uuid_in io cfg command args db).2 = records db.
Proof.
  assert (∀ A (m : M Tables A), keeps R m →
    R (tables db) (tables (on_tables m db).2) ∧ records (on_tables m db).2 = records db) as Hon.
  { intros A m Hm. unfold on_tables. specialize (Hm (tables db)). by destruct (m (tables db)). }
  assert (∀ A (r : res A), keeps R (lift r)) as Hlift by by intros; apply keeps_unchanged; [apply _|].
  unfold dispatch. destruct (command =s "seed"); [apply Hon, seed_kept|].
  destruct (command =s "create-tenant").
  { apply Hon, keeps_bind; [apply _|done|]. intros set. cbn beta zeta.
    match goal with |- context [if ?b then _ else _] => destruct b end; [by apply keeps_unchanged; [apply _|]|].
    apply keeps_bind; [apply _| |intros; apply keeps_print, _].
    apply keeps_transaction; [apply _|].
    apply keeps_bind; [apply _|apply kept_tenant|]. intros _. apply kept_limits. }
  destruct (command =s "create-api-key").
  { apply Hon, keeps_bind; [apply _|done|]. intros set. cbn beta zeta.
    match goal with |- context [if ?b then _ else _] => destruct b end; [by apply keeps_unchanged; [apply _|]|].
    apply keeps_bind; [apply _|done|]. intros [[plain prefix] hash].
    apply keeps_bind; [apply _| |intros; apply keeps_print, _].
    apply keeps_autocommit, kept_key; apply _. }
  destruct (command =s "revoke-api-key").
  { apply Hon, keeps_bind; [apply _|done|]. intros set.
    apply keeps_bind; [apply _|apply keeps_autocommit, kept_revoke; apply _|]. intros n.
    apply keeps_bind; [apply _| |intros; apply keeps_print, _].
    apply keeps_unchanged; [apply _|]. intros t. unfold postgres.one_row. by destruct (n =? 1). }
  destruct (command =s "set-budget").
  { apply Hon, keeps_bind; [apply _|done|]. intros set.
    apply keeps_bind; [apply _|apply keeps_autocommit, kept_budget; apply _|]. intros _.
    by apply keeps_unchanged; [apply _|]. }
  destruct (command =s "inspect-request"); [|done].
  unfold inspectRequest, mbind, M_bind, lift, act, printJSON. destruct (flag.Parse _ _); [|done..].
  destruct (postgres.get_request _ _ _ _) as [[] ?]; [|done..]. by destruct (io_fault io 11).
Qed.

(** Any number of invocations, by any administrators with any configuration, whatever
    fails on the way. *)
Inductive history : DB → DB → Prop :=
| history_done db : history db db
| history_run `{pool.Driver} Getenv ToUpper opening io args pools db db' :
    history (run hmac_sha256 uuid_in Getenv ToUpper opening io args (db, pools)).2.1 db' → history db db'.

Lemma run_kept `{pool.Driver} Getenv ToUpper opening io args pools (db : DB) :
  let db' := (run hmac_sha256 uuid_in Getenv ToUpper opening io args (db, pools)).2.1 in
  R (tables db) (tables db') ∧ records db' = records db.
Proof.
  cbn zeta. unfold run. destruct args as [|command args]; [done|].
  destruct (config.Load _ _ _) as [cfg|e|w]; [|done..]. cbn [fst snd].
  destruct (pool.NewPostgres _ _ _) as [[c|e|w] pools']; [|done..].
  pose proof (dispatch_kept io cfg command args db) as Hd.
  by destruct (dispatch _ _ _ _ _ _ _) as [out db'].
Qed.

Lemma history_kept (db db' : DB) : history db db' → R (tables db) (tables db') ∧ records db' = records db.
Proof.
  induction 1 as [db|? Getenv ToUpper opening io args pools db db' _ [IHt IHr]]; [done|].
  destruct (run_kept Getenv ToUpper opening io args pools db) as [Ht Hr].
  split; [by etrans|congruence].
Qed.
End Commands.

(** *** The constraints of the schema *)

Record wf (t : Tables) : Prop := mkWf {
  wf_slugs : unique_by slug (tenants t);
  wf_slug_ok : map_Forall (λ _ x, slug_ok (slug x) = true) (tenants t);
  wf_prefixes : unique_by key_prefix (api_keys t);
  wf_key_names : unique_by (λ k, (key_tenant k, key_name k)) (api_keys t);
  wf_key_tenants : map_Forall (λ _ k, is_Some (tenants t !! key_tenant k)) (api_keys t);
  wf_model_names : unique_by public_name (models t);
  wf_provider_names : unique_by provider_name (providers t);
  wf_offers : map_Forall (λ k _, is_Some (providers t !! k.1) ∧ is_Some (models t !! k.2)) (provider_models t);
  wf_model_policies :
    map_Forall (λ k _, is_Some (tenants t !! k.1) ∧ is_Some (models t !! k.2)) (tenant_model_policies t);
  wf_provider_policies :
    map_Forall (λ k _, is_Some (tenants t !! k.1) ∧ is_Some (providers t !! k.2)) (tenant_provider_policies t);
  wf_limits :
    map_Forall (λ id l, is_Some (tenants t !! id) ∧ limits_ok (limits l) = true) (tenant_limits t)
}.

Lemma no_tables_wf : wf no_tables.
Proof. by split; try apply map_Forall_empty; intros i j a b. Qed.

Definition wf_kept (t t' : Tables) : Prop := wf t → wf t'.
#[global] Instance wf_preorder : PreOrder wf_kept.
Proof. split; unfold wf_kept; [by intros t|intros t1 t2 t3; tauto]. Qed.

(** References stay good when the table they refer to grows. *)
Lemma refers_insert {V} (m : gmap string V) (i : string) (x : V) (j : string) :
  is_Some (m !! j) → is_Some (<[i := x]> m !! j).
Proof. intros Hj. apply lookup_insert_is_Some. destruct (decide (i = j)); [by left|by right]. Qed.

#[local] Ltac refs := eapply map_Forall_impl; [eassumption|]; cbn; intros; intuition (eauto using refers_insert).

Lemma insert_tenant_wf id row : keeps wf_kept (insert_tenant id row).
Proof.
  intros t. unfold insert_tenant. constraint. destruct Hok as (Hs & Hi & Hu & _). intros [].
  apply negb_false_iff in Hs. rewrite taken_false in Hu. split; cbn; try done; try refs.
  - apply unique_insert; [done|]. intros j b Hj _. apply String.eqb_neq. by apply (Hu j).
  - by apply map_Forall_insert_2.
Qed.
Lemma insert_limits_wf id row : keeps wf_kept (insert_limits id row).
Proof.
  intros t. unfold insert_limits. constraint. destruct Hok as (Hs & _ & Ht & _). intros [].
  apply negb_false_iff in Hs, Ht. apply has_true in Ht. split; cbn; try done.
  by apply map_Forall_insert_2.
Qed.
Lemma insert_key_wf id row : keeps wf_kept (insert_key id row).
Proof.
  intros t. unfold insert_key. constraint. destruct Hok as (_ & Hn & Hp & Ht & _). intros [].
  apply negb_false_iff, has_true in Ht. rewrite taken_false in Hn, Hp. split; cbn; try done.
  - apply unique_insert; [done|]. intros j b Hj _. apply String.eqb_neq. by apply (Hp j).
  - apply unique_insert; [done|]. intros j b Hj _ [= H1 H2]. specialize (Hn j b Hj). unfold same_name in Hn.
    by rewrite H1, H2, !String.eqb_refl in Hn.
  - by apply map_Forall_insert_2.
Qed.
Lemma insert_model_wf id row : keeps wf_kept (insert_model id row).
Proof.
  intros t. unfold insert_model. constraint. destruct Hok as (_ & Hu & _). intros [].
  rewrite taken_false in Hu. split; cbn; try done; try refs.
  apply unique_insert; [done|]. intros j b Hj _. apply String.eqb_neq. by apply (Hu j).
Qed.
Lemma upsert_provider_wf id row : keeps wf_kept (upsert_provider id row).
Proof.
  intros t. unfold upsert_provider. destruct (providers t !! id) as [p|] eqn:Hp.
  - intros []. split; cbn; try done; try refs. by eapply unique_update.
  - constraint. destruct Hok as (Hu & _). intros [].
    rewrite taken_false in Hu. split; cbn; try done; try refs.
    apply unique_insert; [done|]. intros j b Hj _. apply String.eqb_neq. by apply (Hu j).
Qed.
Lemma insert_offer_wf key row : keeps wf_kept (insert_offer key row).
Proof.
  intros t. unfold insert_offer. constraint. destruct Hok as (_ & Hr & _). intros []. reflect.
  split; cbn; try done. apply map_Forall_insert_2; [|done]. by rewrite <- !has_true.
Qed.
Lemma insert_model_policy_wf key : keeps wf_kept (insert_model_policy key).
Proof.
  intros t. unfold insert_model_policy. constraint. destruct Hok as (_ & Hr & _). intros []. reflect.
  split; cbn; try done. apply map_Forall_insert_2; [|done]. by rewrite <- !has_true.
Qed.
Lemma insert_provider_policy_wf key : keeps wf_kept (insert_provider_policy key).
Proof.
  intros t. unfold insert_provider_policy. constraint. destruct Hok as (_ & Hr & _). intros []. reflect.
  split; cbn; try done. apply map_Forall_insert_2; [|done]. by rewrite <- !has_true.
Qed.

(** A key's row rewritten in place: its tenant and name stay, its prefix is nobody else's. *)
Lemma rewrite_key_wf (t : Tables) (id : string) (k k' : ApiKey) :
  api_keys t !! id = Some k → key_tenant k' = key_tenant k → key_name k' = key_name k →
  (∀ j b, api_keys t !! j = Some b → j ≠ id → key_prefix b ≠ key_prefix k') →
  wf_kept t (set_keys (<[id := k']> (api_keys t)) t).
Proof.
  intros Hk Ht Hn Hp []. split; cbn; try done.
  - by apply unique_insert.
  - eapply unique_update; [done..|]. by rewrite Ht, Hn.
  - apply map_Forall_insert_2; [|done]. rewrite Ht. by eapply wf_key_tenants0.
Qed.

#[global] Instance wf_is_kept : Kept wf_kept.
Proof.
  split; auto using wf_preorder, insert_tenant_wf, insert_limits_wf, insert_model_wf, upsert_provider_wf,
    insert_offer_wf, insert_model_policy_wf, insert_provider_policy_wf; try apply _.
  - intros ? io slug name prefix hash scopes t. unfold insert_key_of.
    destruct (postgres.find_where _ _) as [[tn x]|]; [apply insert_key_wf|done].
  - intros prefix hash t. unfold upsert_key. destruct (api_keys t !! devKey) as [k|] eqn:Hk; [|apply insert_key_wf].
    constraint. destruct Hok as (Hu & _). rewrite taken_false in Hu. apply (rewrite_key_wf t devKey k); [done..|].
    intros j b Hj Hne. apply String.eqb_neq, (Hu j). by rewrite lookup_delete_ne.
  - intros uuid_in io id t. unfold revoke. destruct (uuid_in id) as [i|]; [|done].
    destruct (api_keys t !! i) as [k|] eqn:Hk; [|done]. destruct (bool_decide _); [|done]. intros Hwf.
    apply (rewrite_key_wf t i k); [done..| |done]. intros j b Hj Hne He. by eapply Hne, (wf_prefixes t Hwf).
  - intros io slug m d t. unfold update_budget. destruct (postgres.find_where _ _) as [[tn x]|]; [|done].
    destruct (tenant_limits t !! tn) as [l|] eqn:Hl; [|done]. constraint. destruct Hok as (Hs & _).
    apply negb_false_iff in Hs. intros []. split; cbn; try done. apply map_Forall_insert_2; [|done].
    split; [|done]. by eapply wf_limits0.
Qed.

(** *** The life of a key's row *)

(** A row keeps its owner and its scopes, a revocation is final, and only the seed
    exchanges a secret: that of the development key. *)
Record key_evolves (id : string) (k k' : ApiKey) : Prop := mkKeyEvolves {
  same_tenant : key_tenant k' = key_tenant k;
  same_user : key_user k' = key_user k;
  same_key_name : key_name k' = key_name k;
  same_scopes : scopes k' = scopes k;
  same_expiry : expires_at k' = expires_at k;
  revocation_final : is_Some (revoked_at k) → revoked_at k' = revoked_at k;
  same_secret : id ≠ devKey → key_prefix k' = key_prefix k ∧ key_hash k' = key_hash k
}.

Definition keys_kept (t t' : Tables) : Prop :=
  ∀ id k, api_keys t !! id = Some k → ∃ k', api_keys t' !! id = Some k' ∧ key_evolves id k k'.

Lemma key_evolves_refl id k : key_evolves id k k.
Proof. by split. Qed.

#[global] Instance keys_preorder : PreOrder keys_kept.
Proof.
  split; [intros t id k Hk; by exists k; split; [|apply key_evolves_refl]|].
  intros t1 t2 t3 H12 H23 id k Hk. destruct (H12 id k Hk) as (k' & Hk' & []).
  destruct (H23 id k' Hk') as (k'' & Hk'' & []). exists k''. split; [done|]. split; try congruence.
  - intros Hr. rewrite revocation_final1; [by apply revocation_final0|]. by rewrite revocation_final0.
  - intros Hid. destruct (same_secret0 Hid), (same_secret1 Hid). split; congruence.
Qed.

Lemma keys_same (t t' : Tables) : api_keys t' = api_keys t → keys_kept t t'.
Proof. intros He id k Hk. rewrite He. exists k. split; [done|apply key_evolves_refl]. Qed.

Lemma rewrite_key_kept (t : Tables) (id : string) (k k' : ApiKey) :
  api_keys t !! id = Some k → key_evolves id k k' → keys_kept t (set_keys (<[id := k']> (api_keys t)) t).
Proof.
  intros Hk He j b Hj. destruct (decide (j = id)) as [->|Hne]; cbn.
  - rewrite lookup_insert_eq. exists k'. by simplify_eq.
  - rewrite lookup_insert_ne by done. exists b. split; [done|apply key_evolves_refl].
Qed.

Lemma insert_key_kept id row : keeps keys_kept (insert_key id row).
Proof.
  intros t. unfold insert_key. constraint. destruct Hok as (Hi & _). apply has_false in Hi.
  intros j b Hj. cbn. rewrite lookup_insert_ne by congruence. exists b. split; [done|apply key_evolves_refl].
Qed.

#[global] Instance keys_are_kept : Kept keys_kept.
Proof.
  split; [apply _|intros; intros t..].
  - unfold insert_tenant. constraint. by apply keys_same.
  - unfold insert_limits. constraint. by apply keys_same.
  - unfold insert_key_of. destruct (postgres.find_where _ _) as [[tn x]|]; [apply insert_key_kept|done].
  - unfold insert_model. constraint. by apply keys_same.
  - unfold upsert_provider. destruct (providers t !! id); [by apply keys_same|]. constraint. by apply keys_same.
  - unfold insert_offer. constraint. by apply keys_same.
  - unfold insert_model_policy. constraint. by apply keys_same.
  - unfold insert_provider_policy. constraint. by apply keys_same.
  - unfold upsert_key. destruct (api_keys t !! devKey) as [k|] eqn:Hk; [|apply insert_key_kept].
    constraint. apply (rewrite_key_kept t devKey k); [done|]. by split.
  - unfold revoke. destruct (uuid_in id) as [i|]; [|done]. destruct (api_keys t !! i) as [k|] eqn:Hk; [|done].
    destruct (bool_decide _) eqn:Hr; [|done]. apply bool_decide_eq_true in Hr.
    apply (rewrite_key_kept t i k); [done|]. split; try done. rewrite Hr. by intros [].
  - unfold update_budget. destruct (postgres.find_where _ _) as [[tn x]|]; [|done].
    destruct (tenant_limits t !! tn); [|done]. constraint. by apply keys_same.
Qed.

(** *** Tenants with policies *)

Definition only_dev (t : Tables) : Prop :=
  map_Forall (λ k _, k.1 = devTenant) (tenant_model_policies t) ∧
  map_Forall (λ k _, k.1 = devTenant) (tenant_provider_policies t).
Definition only_dev_kept (t t' : Tables) : Prop := only_dev t → only_dev t'.
#[global] Instance only_dev_preorder : PreOrder only_dev_kept.
Proof. split; unfold only_dev_kept; [by intros t|intros t1 t2 t3; tauto]. Qed.

#[local] Ltac untouched := constraint; exact (λ H, H).
#[global] Instance only_dev_is_kept : Kept only_dev_kept.
Proof.
  split; [apply _|intros; intros t..].
  - unfold insert_tenant. untouched.
  - unfold insert_limits. untouched.
  - unfold insert_key_of. destruct (postgres.find_where _ _) as [[tn x]|]; [|done]. unfold insert_key. untouched.
  - unfold insert_model. untouched.
  - unfold upsert_provider. destruct (providers t !! id); [exact (λ H, H)|]. untouched.
  - unfold insert_offer. untouched.
  - unfold insert_model_policy. constraint. intros [H1 H2]. split; [|done]. by apply map_Forall_insert_2.
  - unfold insert_provider_policy. constraint. intros [H1 H2]. split; [done|]. by apply map_Forall_insert_2.
  - unfold upsert_key, insert_key. destruct (api_keys t !! devKey); untouched.
  - unfold revoke. destruct (uuid_in id) as [i|]; [|done]. destruct (api_keys t !! i); [|done]. destruct (bool_decide _); exact (λ H, H).
  - unfold update_budget. destruct (postgres.find_where _ _) as [[tn x]|]; [|done].
    destruct (tenant_limits t !! tn); [|done]. untouched.
Qed.

(** ** Keys as the gateway sees them *)

Section Keys.
Context `{postgres.Outside}.
Context (hmac_sha256 : string → string → string) (uuid_in : string → option string).

(** [auth.Verify] on the store over these tables. *)
Definition verify (db : DB) (io : IO) (pepper plain : string) (now : time.Time) : res auth.Principal :=
  auth.Verify hmac_sha256 (λ prefix, (postgres.find_api_key io prefix (view db)).1) pepper plain now.

Lemma catalog_key (t : Tables) (prefix : string) (row : postgres.KeyRow) :
  postgres.api_keys (catalog_of t) !! prefix = Some row →
  ∃ id k, api_keys t !! id = Some k ∧ key_prefix k = prefix ∧ row = stored_key id k.
Proof.
  cbn. intros Hl%elem_of_list_to_map_2. apply list_elem_of_fmap in Hl as ([id k] & [= -> ->] & Hin).
  apply elem_of_map_to_list in Hin. by exists id, k.
Qed.

Lemma catalog_has_key (t : Tables) (id : string) (k : ApiKey) :
  unique_by key_prefix (api_keys t) → api_keys t !! id = Some k →
  postgres.api_keys (catalog_of t) !! key_prefix k = Some (stored_key id k).
Proof.
  intros Hu Hk. cbn. apply elem_of_list_to_map_1'.
  - intros row Hin. apply list_elem_of_fmap in Hin as ([j b] & [= He ->] & Hin). cbn in *.
    apply elem_of_map_to_list in Hin. assert (j = id) as -> by (eapply Hu; eauto). by simplify_eq.
  - apply list_elem_of_fmap. exists (id, k). split; [done|]. by apply elem_of_map_to_list.
Qed.

(** Whoever is let in holds the secret of a row that is not revoked. *)
Lemma verify_row (db : DB) (io : IO) (pepper plain : string) (now : time.Time) (pr : auth.Principal) :
  verify db io pepper plain now = Ok pr →
  ∃ k, api_keys (tables db) !! auth.APIKeyID pr = Some k ∧ revoked_at k = None ∧
       auth.TenantID pr = key_tenant k ∧ auth.Scopes pr = list_to_set (scopes k) ∧
       key_hash k = hmac_sha256 pepper plain.
Proof.
  unfold verify. intros Hv. pose proof (auth.Verify_cases hmac_sha256
    (λ prefix, (postgres.find_api_key io prefix (view db)).1) pepper plain now) as Hc.
  rewrite Hv in Hc. destruct Hc as (st & (prefix & _ & Hl & Hh) & [Hr _] & ->).
  unfold postgres.find_api_key in Hl. destruct (io_fault io 0); [done|].
  destruct (postgres.api_keys (postgres.catalog (view db)) !! prefix) as [row|] eqn:Hrow; [|done].
  apply catalog_key in Hrow as (id & k & Hk & _ & ->). simplify_eq/=. by exists k.
Qed.

(** The secret of a row lets its holder in, unless the row is revoked or expired. *)
Lemma verify_of_row (db : DB) (io : IO) (pepper plain prefix : string) (now : time.Time) (id : string) (k : ApiKey) :
  wf (tables db) → io_fault io 0 = None → api_keys (tables db) !! id = Some k →
  auth.ParsePrefix plain = Ok prefix → key_prefix k = prefix → key_hash k = auth.Hash hmac_sha256 pepper plain →
  expires_at k = None →
  verify db io pepper plain now =
    if bool_decide (revoked_at k = None)
    then Ok (auth.mkPrincipal id (key_tenant k) (default "" (key_user k)) (list_to_set (scopes k)))
    else Err auth.ErrRevokedKey.
Proof.
  intros Hwf Hf Hk Hp <- Hh He. unfold verify, auth.Verify, postgres.find_api_key.
  rewrite Hp, Hf. change (postgres.catalog (view db)) with (catalog_of (tables db)).
  rewrite (catalog_has_key _ id k) by (done || apply Hwf). cbn.
  rewrite (proj2 (auth.hash_check _ _)) by done. rewrite He.
  destruct (revoked_at k) as [x|]; [by rewrite bool_decide_true by eauto|].
  rewrite bool_decide_false by (by intros []). done.
Qed.

(** C15 (safety): a revocation is final. Once an API key is revoked, no credential
    whatever is accepted as that key again, in any later state of the database:
    whatever commands administrators run (the seed included, which rewrites the
    development key), with whatever flags and configuration and whatever fails on the
    way, and with any pepper, at any time. *)
Theorem revocation_is_final (db db' : DB) (id : string) (k : ApiKey)
  (io : IO) (pepper plain : string) (now : time.Time) :
  api_keys (tables db) !! id = Some k → is_Some (revoked_at k) →
  history hmac_sha256 uuid_in db db' →
  ∀ pr, verify db' io pepper plain now = Ok pr → auth.APIKeyID pr ≠ id.
Proof.
  intros Hk Hr Hh pr Hv <-. apply verify_row in Hv as (k2 & Hk2 & Hn & _).
  destruct (history_kept keys_kept _ _ _ _ Hh) as [Hkept _].
  destruct (Hkept _ k Hk) as (k' & Hk' & Hev). rewrite Hk2 in Hk'. injection Hk' as <-.
  rewrite (revocation_final _ _ _ Hev Hr) in Hn. rewrite Hn in Hr. by destruct Hr.
Qed.

(** The prefix a generated key is stored under is the one it parses to, if it parses. *)
Lemma Generate_inv (pepper : string) (random : res (list Z)) (plain prefix hash p : string) :
  auth.Generate hmac_sha256 pepper random = Ok (plain, prefix, hash) → auth.ParsePrefix plain = Ok p →
  p = prefix ∧ hash = auth.Hash hmac_sha256 pepper plain.
Proof.
  unfold auth.Generate. destruct (strings.len pepper <? 32); [done|]. destruct random as [bytes|e|w]; [|done..].
  cbn zeta. destruct (strings.len (base64.EncodeToString bytes) <? 10) eqn:Hlen; [done|]. apply Z.ltb_ge in Hlen.
  set (pre := strings.of_chars _). set (encoded := base64.EncodeToString bytes) in *.
  intros [= <- <- <-] Hp. split; [|done].
  apply auth.ParsePrefix_Ok in Hp as (secret & Hshape & _ & Hl & _). unfold auth.key_shape in Hshape.
  symmetry. apply (auth.shape_prefix_unique _ _ encoded secret Hshape). rewrite Hl.
  unfold pre. rewrite len_of_chars, length_take, length_chars. unfold strings.len in Hlen. lia.
Qed.

Definition key_flags : flag.FlagSet :=
  [("tenant", flag.VString ""); ("name", flag.VString ""); ("scopes", flag.VString default_scopes)].

(** A successful [create-api-key], taken apart. *)
Lemma createAPIKey_Ok (io : IO) (cfg : config.Config) (args : list string) (t t' : Tables) (d : document) :
  createAPIKey hmac_sha256 io cfg args t = (Ok d, t') →
  ∃ set plain prefix hash tn x,
    flag.Parse key_flags args = Ok set ∧
    auth.Generate hmac_sha256 (config.APIKeyPepper cfg) (random io) = Ok (plain, prefix, hash) ∧
    tenants t !! tn = Some x ∧ slug x = flag.String_ set "tenant" ∧
    (let scs := splitCSV (flag.String_ set "scopes") in
     let row := mkApiKey tn None (flag.String_ set "name") prefix hash scs None None in
     insert_key (postgres.uuid io 0) row t = (Ok (), t') ∧
     t' = set_keys (<[postgres.uuid io 0 := row]> (api_keys t)) t ∧
     d = DKey (postgres.uuid io 0) plain true scs).
Proof.
  unfold createAPIKey, mbind, M_bind, lift. fold key_flags.
  destruct (flag.Parse key_flags args) as [set|e|w]; [|done..].
  destruct (_ || _); [done|].
  destruct (auth.Generate _ _ _) as [[[plain prefix] hash]|e|w]; [|done..].
  unfold postgres.autocommit. destruct (io_fault io 0); [done|]. destruct (io_fault io 1); [done|].
  unfold insert_key_of. destruct (postgres.find_where _ _) as [[tn x]|] eqn:Hx; [|done].
  apply postgres.find_where_Some in Hx as [Hx Hs]. apply String.eqb_eq in Hs.
  destruct (insert_key _ _ t) as [[[]|e|w] t1] eqn:Hins; [|done..].
  unfold printJSON. destruct (io_fault io 11); [done|]. intros [= <- <-].
  exists set, plain, prefix, hash, tn, x. split_and!; try done.
  revert Hins. unfold insert_key. constraint; [done|]. by intros [= <-].
Qed.

(** C16 (functional): the life of an API key. A key that create-api-key printed belongs
    to the tenant with the given slug and has the given scopes: in every later state
    of the database, whatever commands are run in between, if the text of the key can be
    parsed, its holder is accepted as that key of that tenant with exactly those scopes
    while the key is not revoked, and is told that it is revoked if it is; if it cannot
    (a prefix with an underscore, which the program issues all the same), it is refused
    as invalid in every later state. (The identifier drawn is not the fixed one of the
    development key.) *)
Theorem key_lifecycle (io : IO) (cfg : config.Config) (args : list string) (t t' : Tables)
  (id plain : string) (shown : bool) (scs : list string) (records_ : postgres.DB) :
  wf t → createAPIKey hmac_sha256 io cfg args t = (Ok (DKey id plain shown scs), t') →
  id ≠ devKey →
  ∃ set tn x, flag.Parse key_flags args = Ok set ∧ tenants t !! tn = Some x ∧
    slug x = flag.String_ set "tenant" ∧ scs = splitCSV (flag.String_ set "scopes") ∧
    ∀ db', history hmac_sha256 uuid_in (mkDB t' records_) db' →
    ∃ k, api_keys (tables db') !! id = Some k ∧
      ∀ io' now, io_fault io' 0 = None →
      verify db' io' (config.APIKeyPepper cfg) plain now =
        if negb (is_ok (auth.ParsePrefix plain)) then Err auth.ErrInvalidKey
        else if bool_decide (revoked_at k = None) then Ok (auth.mkPrincipal id tn "" (list_to_set scs))
        else Err auth.ErrRevokedKey.
Proof.
  intros Hwf Hc Hid.
  apply createAPIKey_Ok in Hc as (set & plain' & prefix & hash & tn & x & Hset & Hg & Hx & Hs & Hins & Ht & [= -> -> -> ->]).
  exists set, tn, x. split_and!; try done. intros db' Hh.
  assert (wf t') as Hwf'.
  { pose proof (insert_key_wf (postgres.uuid io 0) (mkApiKey tn None (flag.String_ set "name") prefix hash
      (splitCSV (flag.String_ set "scopes")) None None) t) as Hk. rewrite Hins in Hk. by apply Hk. }
  destruct (history_kept wf_kept _ _ _ _ Hh) as [Hwf2 _]. specialize (Hwf2 Hwf').
  destruct (history_kept keys_kept _ _ _ _ Hh) as [Hkeys _].
  destruct (Hkeys (postgres.uuid io 0) (mkApiKey tn None (flag.String_ set "name") prefix hash
    (splitCSV (flag.String_ set "scopes")) None None)) as (k & Hk & []).
  { subst t'. cbn. by rewrite lookup_insert_eq. }
  destruct (same_secret0 Hid) as [Hkp Hkh]. cbn in *.
  exists k. split; [done|]. intros io' now Hf.
  destruct (auth.ParsePrefix plain') as [p|e|why] eqn:Hp; cbn [is_ok negb].
  - destruct (Generate_inv _ _ _ _ _ _ Hg Hp) as [-> Hhash].
    rewrite (verify_of_row db' io' _ plain' prefix now _ k) by (done || congruence).
    by rewrite same_tenant0, same_user0, same_scopes0.
  - unfold verify, auth.Verify. by rewrite Hp.
  - destruct (auth.ParsePrefix_total plain') as [[? ?]|?]; congruence.
Qed.
End Keys.

(** ** The seed

    Each of its statements writes one table of its own. *)

Section Seed.
Context (hmac_sha256 : string → string → string).

Lemma or_nothing_has {K} `{Countable K} {V} (get : Tables → gmap K V) (k : K) (f : M Tables unit) (t t' : Tables)
  (put : gmap K V → Tables → Tables) :
  put (get t) t = t → (∀ t1, f t = (Ok (), t1) → ∃ v, t1 = put (<[k := v]> (get t)) t) →
  or_nothing (λ t, has k (get t)) f () t = (Ok (), t') →
  ∃ x, t' = put x t ∧ is_Some (x !! k) ∧ (∀ j, is_Some (get t !! j) → is_Some (x !! j)).
Proof.
  intros Hput Hf. unfold or_nothing. destruct (has k (get t)) eqn:Hh.
  - intros [= <-]. exists (get t). split_and!; [done|by apply has_true|done].
  - intros [v ->]%Hf. eexists. split_and!; [done|by rewrite lookup_insert_eq; eauto|].
    intros j Hj. apply lookup_insert_is_Some. destruct (decide (k = j)); [by left|by right].
Qed.

(** A constrained insertion that succeeded made its change. *)
Lemma checked_Ok (t t1 t' : Tables) (vs : list (bool * error)) : checked t vs t1 = (Ok (), t') → t' = t1.
Proof. constraint; [done|]. by intros [= <-]. Qed.

(** The insertions, each into its own table. *)
#[local] Ltac one_table get put :=
  intros H; eapply (or_nothing_has get _ _ _ _ put); [match goal with |- _ = ?x => by destruct x end| |exact H];
  intros ? ->%checked_Ok; by eexists.
Section Insertions.
Context (t t' : Tables).
Lemma insert_tenant_has (k : string) (row : Tenant) :
  or_nothing (λ t, has k (tenants t)) (insert_tenant k row) () t = (Ok (), t') →
  ∃ x, t' = set_tenants x t ∧ is_Some (x !! k) ∧ (∀ j, is_Some (tenants t !! j) → is_Some (x !! j)).
Proof. one_table tenants set_tenants. Qed.
Lemma insert_model_has (k : string) (row : Model) :
  or_nothing (λ t, has k (models t)) (insert_model k row) () t = (Ok (), t') →
  ∃ x, t' = set_models x t ∧ is_Some (x !! k) ∧ (∀ j, is_Some (models t !! j) → is_Some (x !! j)).
Proof. one_table models set_models. Qed.
Lemma insert_offer_has (k : string * string) (row : ProviderModel) :
  or_nothing (λ t, has k (provider_models t)) (insert_offer k row) () t = (Ok (), t') →
  ∃ x, t' = set_offers x t ∧ is_Some (x !! k) ∧ (∀ j, is_Some (provider_models t !! j) → is_Some (x !! j)).
Proof. one_table provider_models set_offers. Qed.
Lemma insert_model_policy_has (k : string * string) :
  or_nothing (λ t, has k (tenant_model_policies t)) (insert_model_policy k) () t = (Ok (), t') →
  ∃ x, t' = set_model_policies x t ∧ is_Some (x !! k) ∧
       (∀ j, is_Some (tenant_model_policies t !! j) → is_Some (x !! j)).
Proof. one_table tenant_model_policies set_model_policies. Qed.
Lemma insert_provider_policy_has (k : string * string) :
  or_nothing (λ t, has k (tenant_provider_policies t)) (insert_provider_policy k) () t = (Ok (), t') →
  ∃ x, t' = set_provider_policies x t ∧ is_Some (x !! k) ∧
       (∀ j, is_Some (tenant_provider_policies t !! j) → is_Some (x !! j)).
Proof. one_table tenant_provider_policies set_provider_policies. Qed.
Lemma insert_limits_has (k : string) (row : Limits) :
  or_nothing (λ t, has k (tenant_limits t)) (insert_limits k row) () t = (Ok (), t') →
  ∃ x, t' = set_limits x t ∧ is_Some (x !! k) ∧ (∀ j, is_Some (tenant_limits t !! j) → is_Some (x !! j)).
Proof. one_table tenant_limits set_limits. Qed.
End Insertions.

(** The tables after a successful seed. *)
Record seeded (cfg : config.Config) (prefix : string) (t : Tables) : Prop := mkSeeded {
  seeded_tenant : is_Some (tenants t !! devTenant);
  seeded_small : is_Some (models t !! smallModel);
  seeded_medium : is_Some (models t !! mediumModel);
  seeded_provider : ∃ p, providers t !! devProvider = Some p ∧ endpoint p = config.ProviderEndpoint cfg;
  seeded_small_offer : is_Some (provider_models t !! (devProvider, smallModel));
  seeded_medium_offer : is_Some (provider_models t !! (devProvider, mediumModel));
  seeded_small_policy : is_Some (tenant_model_policies t !! (devTenant, smallModel));
  seeded_medium_policy : is_Some (tenant_model_policies t !! (devTenant, mediumModel));
  seeded_provider_policy : is_Some (tenant_provider_policies t !! (devTenant, devProvider));
  seeded_limits : is_Some (tenant_limits t !! devTenant);
  seeded_key : ∃ k, api_keys t !! devKey = Some k ∧ key_prefix k = prefix ∧
    key_hash k = auth.Hash hmac_sha256 (config.APIKeyPepper cfg) (config.DevAPIKey cfg)
}.

Lemma exec_Ok (io : IO) (k : nat) (f : M Tables unit) (t t' : Tables) :
  exec io k f t = (Ok (), t') → f t = (Ok (), t').
Proof. unfold exec. destruct (io_fault io k); [done|]. by destruct (f t) as [[[]| |] ?]. Qed.

Lemma run_statements_Ok (io : IO) (k : nat) (f : M Tables unit) (l : list (M Tables unit)) (t t' : Tables) :
  run_statements io k (f :: l) t = (Ok (), t') →
  ∃ t1, f t = (Ok (), t1) ∧ run_statements io (S k) l t1 = (Ok (), t').
Proof.
  cbn [run_statements]. unfold mbind, M_bind.
  destruct (exec io k f t) as [[[]| |] t1] eqn:He; [|done..]. intros Hl. exists t1. split; [|done].
  by eapply exec_Ok.
Qed.

Lemma bind_Ok {A B} (m : M Tables A) (f : A → M Tables B) (t t' : Tables) (b : B) :
  (m ≫= f) t = (Ok b, t') → ∃ a t1, m t = (Ok a, t1) ∧ f a t1 = (Ok b, t').
Proof. unfold mbind, M_bind. destruct (m t) as [[a| |] t1]; [|done..]. eauto. Qed.

Lemma upsert_provider_Ok (id : string) (row : Provider) (t t' : Tables) :
  upsert_provider id row t = (Ok (), t') →
  ∃ x p, t' = set_providers x t ∧ x !! id = Some p ∧ endpoint p = endpoint row.
Proof.
  unfold upsert_provider. destruct (providers t !! id) as [p|].
  - intros [= <-]. eexists _, _. split_and!; [done|by rewrite lookup_insert_eq|done].
  - intros ->%checked_Ok. eexists _, _. split_and!; [done|by rewrite lookup_insert_eq|done].
Qed.

Lemma upsert_key_Ok (id : string) (row : ApiKey) (t t' : Tables) :
  upsert_key id row t = (Ok (), t') →
  ∃ x k, t' = set_keys x t ∧ x !! id = Some k ∧ key_prefix k = key_prefix row ∧ key_hash k = key_hash row.
Proof.
  unfold upsert_key, insert_key. destruct (api_keys t !! id) as [k|];
    intros ->%checked_Ok; eexists _, _; (split_and!; [done|by rewrite lookup_insert_eq|done..]).
Qed.

Lemma run_statements_seeded (io : IO) (cfg : config.Config) (prefix : string) (t t' : Tables) :
  run_statements io 3 (seed_statements hmac_sha256 io cfg prefix) t = (Ok (), t') → seeded cfg prefix t'.
Proof.
  unfold seed_statements.
  intros (t1 & (x1 & -> & T1 & _)%insert_tenant_has & (t2 & ([] & t2' & (x2 & -> & T2 & _)%insert_model_has &
    (x2' & -> & T2' & G2)%insert_model_has)%bind_Ok & H)%run_statements_Ok)%run_statements_Ok.
  apply run_statements_Ok in H as (t3 & (x3 & p & -> & Tp & Ep)%upsert_provider_Ok & H).
  apply run_statements_Ok in H as (t4 & ([] & t4' & (x4 & -> & T4 & _)%insert_offer_has &
    (x4' & -> & T4' & G4)%insert_offer_has)%bind_Ok & H).
  apply run_statements_Ok in H as (t5 & ([] & t5' & (x5 & -> & T5 & _)%insert_model_policy_has &
    (x5' & -> & T5' & G5)%insert_model_policy_has)%bind_Ok & H).
  apply run_statements_Ok in H as (t6 & (x6 & -> & T6 & _)%insert_provider_policy_has & H).
  apply run_statements_Ok in H as (t7 & (x7 & -> & T7 & _)%insert_limits_has & H).
  apply run_statements_Ok in H as (t8 & (keys & k & -> & Tk & Ek & Ek')%upsert_key_Ok & [= <-]).
  split; cbn; eauto.
Qed.

(** On seeded tables with good constraints the statements change nothing. *)
Lemma or_nothing_present {K} `{Countable K} {V} (get : Tables → gmap K V) (k : K) (f : M Tables unit) (t : Tables) :
  is_Some (get t !! k) → or_nothing (λ t, has k (get t)) f () t = (Ok (), t).
Proof. intros Hk%has_true. unfold or_nothing. by rewrite Hk. Qed.

Lemma upsert_provider_same (id : string) (row p : Provider) (t : Tables) :
  providers t !! id = Some p → endpoint p = endpoint row → upsert_provider id row t = (Ok (), t).
Proof.
  intros Hp He. unfold upsert_provider. rewrite Hp, <- He, insert_id; [by destruct t|].
  rewrite Hp. by destruct p.
Qed.

Lemma upsert_key_same (id : string) (row k : ApiKey) (t : Tables) :
  unique_by key_prefix (api_keys t) → api_keys t !! id = Some k →
  key_prefix k = key_prefix row → key_hash k = key_hash row → upsert_key id row t = (Ok (), t).
Proof.
  intros Hu Hk Hp Hh. unfold upsert_key. rewrite Hk, <- Hp, <- Hh.
  rewrite insert_id by (rewrite Hk; by destruct k).
  assert (taken (same_prefix (key_prefix k)) (delete id (api_keys t)) = false) as Ht.
  { apply taken_false. intros j b [Hne Hj]%lookup_delete_Some. apply String.eqb_neq. intros He.
    apply Hne. eapply Hu; eauto. }
  unfold checked. cbn. rewrite Ht. by destruct t.
Qed.

Lemma seeded_same (io : IO) (cfg : config.Config) (prefix : string) (t : Tables) :
  (∀ k, io_fault io k = None) → wf t → seeded cfg prefix t →
  run_statements io 3 (seed_statements hmac_sha256 io cfg prefix) t = (Ok (), t).
Proof.
  intros Hio Hwf []. destruct seeded_provider0 as (p & Hp & He). destruct seeded_key0 as (k & Hk & Hkp & Hkh).
  assert (∀ n f l, f t = (Ok (), t) → run_statements io n (f :: l) t = run_statements io (S n) l t) as Hstep.
  { intros n f l Hf. cbn [run_statements]. unfold mbind, M_bind, exec. by rewrite Hio, Hf. }
  assert (∀ f g : M Tables unit, f t = (Ok (), t) → g t = (Ok (), t) → (_ ← f; g) t = (Ok (), t)) as Hseq.
  { intros f g Hf Hg. unfold mbind, M_bind. by rewrite Hf. }
  unfold seed_statements. rewrite !Hstep; [done|..].
  - eapply upsert_key_same; eauto. apply Hwf.
  - by apply or_nothing_present.
  - by apply or_nothing_present.
  - apply Hseq; by apply or_nothing_present.
  - apply Hseq; by apply or_nothing_present.
  - by eapply upsert_provider_same.
  - apply Hseq; by apply or_nothing_present.
  - by apply or_nothing_present.
Qed.

Lemma transaction_Ok {A} (io : IO) (b c : error → error) (m : M Tables A) (t t' : Tables) (a : A) :
  postgres.transaction io b c m t = (Ok a, t') → m t = (Ok a, t').
Proof.
  unfold postgres.transaction. destruct (io_fault io 0); [done|]. destruct (m t) as [[x|e|w] t1]; [|done..].
  by destruct (io_fault io 1), (io_fault io 2).
Qed.
Lemma transaction_quiet {A} (io : IO) (b c : error → error) (m : M Tables A) (t t' : Tables) (a : A) :
  (∀ k, io_fault io k = None) → m t = (Ok a, t') → postgres.transaction io b c m t = (Ok a, t').
Proof. intros Hio Hm. unfold postgres.transaction. by rewrite !Hio, Hm. Qed.

(** The seed can be repeated: what it did once, it does not change again. *)
Lemma seed_idempotent (io io' : IO) (cfg : config.Config) (t t' : Tables) (d : document) :
  wf t → seed hmac_sha256 io cfg t = (Ok d, t') → (∀ k, io_fault io' k = None) →
  seed hmac_sha256 io' cfg t' = (Ok d, t').
Proof.
  intros Hwf Hs Hio.
  pose proof (seed_kept wf_kept hmac_sha256 io cfg t Hwf) as Hwf'. rewrite Hs in Hwf'. cbn in Hwf'.
  unfold seed in *. apply bind_Ok in Hs as (prefix & t0 & Hp & Hs). injection Hp as Hp <-.
  apply bind_Ok in Hs as ([] & t1 & Hr & Hs).
  assert (t1 = t') as -> by (revert Hs; unfold printJSON; destruct (io_fault io 11); [done|by intros [= _ ->]]).
  apply transaction_Ok, run_statements_seeded in Hr.
  unfold mbind, M_bind at 1, lift. rewrite Hp. unfold M_bind.
  rewrite (transaction_quiet io' _ _ _ t' t' ()); [|done|by apply seeded_same].
  revert Hs. unfold printJSON. rewrite Hio. by destruct (io_fault io 11).
Qed.

(** *** The first seed *)

(** The statements when no exchange fails. *)
Fixpoint run_plain (l : list (M Tables unit)) : M Tables unit :=
  match l with
  | [] => mret ()
  | f :: l => λ t,
    match f t with
    | (Ok _, t') => run_plain l t'
    | (Err e, t') => (Err (Wrap "seed database" e), t')
    | (Panic w, t') => (Panic w, t')
    end
  end.
Lemma run_statements_quiet (io : IO) (k : nat) (l : list (M Tables unit)) (t : Tables) :
  (∀ k, io_fault io k = None) → run_statements io k l t = run_plain l t.
Proof.
  intros Hio. revert k t. induction l as [|f l IH]; intros k t; [done|]. cbn [run_statements run_plain].
  unfold mbind, M_bind, exec. rewrite Hio. destruct (f t) as [[[]|e|w] t']; [apply IH|done..].
Qed.

Definition fresh_tables (cfg : config.Config) (prefix : string) (now : time.Time) : Tables :=
  mkTables
    {[devTenant := mkTenant "Aegis Development" "aegis-development" ACTIVE "INTERNAL"]}
    {[devKey := mkApiKey devTenant None "development" prefix
                  (auth.Hash hmac_sha256 (config.APIKeyPepper cfg) (config.DevAPIKey cfg)) ["*"] None None]}
    (<[mediumModel := mkModel "aegis-medium" "Deterministic development model" true]>
      {[smallModel := mkModel "aegis-small" "Deterministic development model" true]})
    {[devProvider := mkProvider (config.ProviderName cfg) (config.ProviderEndpoint cfg) 1 10 50 30000 true
                       ["PUBLIC"; "INTERNAL"; "CONFIDENTIAL"]]}
    (<[(devProvider, mediumModel) := mkProviderModel "aegis-medium" 2000 4000 true]>
      {[(devProvider, smallModel) := mkProviderModel "aegis-small" 1000 2000 true]})
    (<[(devTenant, mediumModel) := true]> {[(devTenant, smallModel) := true]})
    {[(devTenant, devProvider) := true]}
    {[devTenant := seed_limits now]}.

Lemma seed_fresh (io : IO) (cfg : config.Config) (prefix : string) :
  (∀ k, io_fault io k = None) →
  run_statements io 3 (seed_statements hmac_sha256 io cfg prefix) no_tables =
    (Ok (), fresh_tables cfg prefix (io_now io)).
Proof. intros Hio. rewrite run_statements_quiet by done. vm_compute. reflexivity. Qed.

Lemma fresh_policy (cfg : config.Config) (prefix model : string) (now : time.Time) :
  model = "aegis-small" ∨ model = "aegis-medium" →
  let c := catalog_of (fresh_tables cfg prefix now) in
  postgres.select_policy devTenant model c =
    Some (persistence.mkTenantPolicy "INTERNAL" None 600 1000000 100 100000000 10000000) ∧
  postgres.allowed_providers devTenant c = {[config.ProviderName cfg]}.
Proof.
  intros Hm. split; [destruct Hm as [-> | ->]; vm_compute; reflexivity|].
  unfold postgres.allowed_providers.
  change (postgres.providers _) with ((λ p, postgres.mkProviderRow (provider_name p) (provider_enabled p)) <$>
    providers (fresh_tables cfg prefix now)).
  unfold providers at 1, fresh_tables. rewrite map_fmap_singleton, map_to_list_singleton.
  change (postgres.tenant_provider_policies _) with ({[(devTenant, devProvider) := true]} : gmap (string * string) bool).
  cbn [omap list_omap fst snd]. rewrite lookup_singleton_eq. cbn. apply (right_id_L ∅ (∪)).
Qed.

(** The seed makes a working tenant. On a freshly migrated database, if
    the configured development key is well formed and nothing fails, the seed succeeds;
    the development key is then accepted as a key of the development tenant with every
    scope, the tenant may use both development models and exactly the configured
    provider, under the seeded limits; and running the seed again succeeds without
    changing anything. *)
Theorem seed_ready `{postgres.Outside} (io : IO) (cfg : config.Config) (prefix : string) (r : postgres.DB) :
  (∀ k, io_fault io k = None) → auth.ParsePrefix (config.DevAPIKey cfg) = Ok prefix →
  let '(out, t) := seed hmac_sha256 io cfg no_tables in
  is_ok out = true ∧
  (∀ now, verify hmac_sha256 (mkDB t r) io (config.APIKeyPepper cfg) (config.DevAPIKey cfg) now =
     Ok (auth.mkPrincipal devKey devTenant "" {["*"]})) ∧
  (∀ model, model = "aegis-small" ∨ model = "aegis-medium" →
     (postgres.tenant_policy io devTenant model (view (mkDB t r))).1 =
     Ok (persistence.mkTenantPolicy "INTERNAL" (Some {[config.ProviderName cfg]}) 600 1000000 100
           100000000 10000000)) ∧
  (∀ io', (∀ k, io_fault io' k = None) → seed hmac_sha256 io' cfg t = (out, t)).
Proof.
  intros Hio Hp. destruct (seed hmac_sha256 io cfg no_tables) as [out t] eqn:Hs. pose proof Hs as Hs'.
  unfold seed, mbind, M_bind, lift in Hs'. rewrite Hp in Hs'.
  rewrite (transaction_quiet io _ _ _ _ _ _ Hio (seed_fresh io cfg prefix Hio)) in Hs'.
  unfold printJSON in Hs'. rewrite Hio in Hs'. injection Hs' as <- <-.
  pose proof (seed_kept wf_kept hmac_sha256 io cfg no_tables no_tables_wf) as Hwf. rewrite Hs in Hwf.
  split_and!; [done| | |].
  - intros now. set (db := mkDB _ r).
    assert (api_keys (tables db) !! devKey = Some (mkApiKey devTenant None "development" prefix
      (auth.Hash hmac_sha256 (config.APIKeyPepper cfg) (config.DevAPIKey cfg)) ["*"] None None)) as Hk
      by apply lookup_singleton_eq.
    rewrite (verify_of_row hmac_sha256 db io _ _ prefix now devKey _ Hwf (Hio 0%nat) Hk Hp eq_refl eq_refl eq_refl).
    cbn. by rewrite (right_id_L ∅ (∪)).
  - intros model Hm. destruct (fresh_policy cfg prefix model (io_now io) Hm) as [Hsel Hall].
    unfold postgres.tenant_policy. rewrite !Hio.
    change (postgres.catalog _) with (catalog_of (fresh_tables cfg prefix (io_now io))).
    by rewrite Hsel, Hall.
  - intros io' Hio'. exact (seed_idempotent io io' cfg no_tables _ _ no_tables_wf Hs Hio').
Qed.
End Seed.

(** ** Tenants without policies *)

(** C37 (error): a tenant that create-tenant made cannot use the platform. No command
    grants a tenant a model or a provider; only the seed does, to the development
    tenant. So in every history that starts on a migrated database, any request of
    another tenant is refused when it is created, with [ErrModelForbidden] unless the
    database fails first, and changes nothing. *)
Theorem created_tenants_powerless `{postgres.Outside} (hmac_sha256 : string → string → string)
  (uuid_in : string → option string) (r : postgres.DB) (db : DB) (io : IO)
  (p : persistence.CreateRequestParams) :
  history hmac_sha256 uuid_in (mkDB no_tables r) db → persistence.cr_TenantID p ≠ devTenant →
  ∃ e, postgres.create_or_get io p (view db) = (Err e, view db) ∧
       ((∀ k, io_fault io k = None) → e = persistence.ErrModelForbidden).
Proof.
  intros Hh Hne. destruct (history_kept only_dev_kept _ _ _ _ Hh) as [[Hmodels _] _].
  { split; apply map_Forall_empty. }
  assert (∀ model, postgres.authorize_model (persistence.cr_TenantID p) model (view db) =
    (Err persistence.ErrModelForbidden, view db)) as Hau.
  { intros model. unfold postgres.authorize_model. destruct (postgres.find_where _ _) as [[id m]|]; [|done].
    change (postgres.tenant_model_policies _) with (tenant_model_policies (tables db)).
    destruct (tenant_model_policies (tables db) !! (persistence.cr_TenantID p, id)) as [b|] eqn:Hl.
    - by apply Hmodels in Hl.
    - by rewrite andb_false_r. }
  unfold postgres.create_or_get, postgres.transaction.
  destruct (io_fault io 0) as [e|] eqn:F0; [eexists; split; [done|]; intros Hq; by rewrite Hq in F0|].
  unfold postgres.create_body, mbind, M_bind at 1, postgres.statement at 1.
  destruct (io_fault io 3) as [e|] eqn:F3; [eexists; split; [done|]; intros Hq; by rewrite Hq in F3|].
  rewrite Hau. by eexists.
Qed.

(** ** Budgets *)

Definition budget_flags : flag.FlagSet :=
  [("tenant", flag.VString ""); ("monthly-micro-usd", flag.VInt64 0); ("daily-micro-usd", flag.VInt64 0)].

(** Every branch of set-budget when the database answers: the row of the tenant with the
    slug gets exactly the two amounts, if they are not negative; a slug nobody has is no
    error. *)
Lemma setBudget_spec (io : IO) (args : list string) (t : Tables) :
  (∀ k, io_fault io k = None) → wf t →
  match flag.Parse budget_flags args with
  | Ok set =>
    let s := flag.String_ set "tenant" in
    let m := flag.Int64 set "monthly-micro-usd" in
    let d := flag.Int64 set "daily-micro-usd" in
    (∀ tn x l, tenants t !! tn = Some x → slug x = s → tenant_limits t !! tn = Some l →
       setBudget io args t =
       if (0 <=? m) && (0 <=? d)
       then (Ok DNothing, set_limits (<[tn := with_budget m d (io_now io) l]> (tenant_limits t)) t)
       else (Err check_violation, t)) ∧
    ((∀ tn x, tenants t !! tn = Some x → slug x ≠ s) → setBudget io args t = (Ok DNothing, t))
  | Err e => setBudget io args t = (Err e, t)
  | Panic w => setBudget io args t = (Panic w, t)
  end.
Proof.
  intros Hio Hwf. unfold setBudget, mbind, M_bind, lift. fold budget_flags.
  destruct (flag.Parse budget_flags args) as [set|e|w]; [|done..]. cbn zeta.
  unfold postgres.autocommit. rewrite !Hio. unfold update_budget. split.
  - intros tn x l Hx <- Hl. rewrite (find_by_unique slug _ tn x) by (done || apply Hwf). rewrite Hl.
    unfold checked. cbn. assert (limits_ok (limits l) = true) as Hlim by by eapply (wf_limits t Hwf).
    unfold limits_ok in *. cbn. reflect. rewrite !(proj2 (Z.ltb_lt _ _)) by done. cbn.
    by destruct (_ <=? _), (_ <=? _).
  - intros Hno. destruct (postgres.find_where _ _) as [[tn x]|] eqn:Hf; [|done].
    apply postgres.find_where_Some in Hf as [Hx Hs]. apply String.eqb_eq in Hs. by eapply Hno in Hx.
Qed.

(** Arguments that name the tenant [s] and set at most some of the amounts. *)
Definition budget_args (s : string) (monthly daily : option string) : list string :=
  ["--tenant"; s] ++ (match monthly with Some v => ["--monthly-micro-usd"; v] | None => [] end) ++
  (match daily with Some v => ["--daily-micro-usd"; v] | None => [] end).

(** What an amount is set to. *)
Definition amount_of (given : option string) : option Z :=
  match given with
  | None => Some 0
  | Some v => match intlit.ParseInt v with (d, None) => Some d | _ => None end
  end.

Lemma budget_args_parse (s : string) (monthly daily : option string) (m d : Z) :
  amount_of monthly = Some m → amount_of daily = Some d →
  flag.Parse budget_flags (budget_args s monthly daily) =
  Ok [("tenant", flag.VString s); ("monthly-micro-usd", flag.VInt64 m); ("daily-micro-usd", flag.VInt64 d)].
Proof.
  unfold amount_of. destruct monthly as [vm|], daily as [vd|]; cbn -[intlit.ParseInt];
    repeat (match goal with |- context [intlit.ParseInt ?v] => destruct (intlit.ParseInt v) as [? [?|]] end);
    intros; simplify_eq; done.
Qed.

Lemma positional_slug (x : Tenant) (rest : list string) :
  slug_ok (slug x) = true → flag.Parse budget_flags (slug x :: rest) = Ok budget_flags.
Proof.
  intros Hslug. cbn [flag.Parse]. assert (flag.classify (slug x) = flag.Positional) as ->; [|done].
  unfold flag.classify, slug_ok in *. destruct (strings.chars (slug x)) as [|c l]; [done|].
  destruct c as [[] [] [] [] [] [] [] []]; done.
Qed.

(** C38 (error): an omitted budget flag lifts the limit. Setting the budget of a tenant
    with the monthly amount, the daily amount, both or none sets each amount that is
    given to its value and each that is omitted to 0; and admission reads a limit of 0 as
    no limit: it then grants every amount, whatever has been spent. Naming the tenant
    without its flag, or one that does not exist, is reported as success too and changes
    nothing. *)
Theorem set_budget_lifts_limit (io : IO) (t : Tables) (tn other : string) (x : Tenant) (l : Limits)
  (monthly daily : option string) (m d : Z) :
  (∀ k, io_fault io k = None) → wf t → tenants t !! tn = Some x → tenant_limits t !! tn = Some l →
  amount_of monthly = Some m → amount_of daily = Some d → 0 <= m → 0 <= d →
  (∃ t' l', setBudget io (budget_args (slug x) monthly daily) t = (Ok DNothing, t') ∧
     postgres.tenant_limits (catalog_of t') !! tn = Some l' ∧
     postgres.monthly_budget l' = m ∧ postgres.daily_budget l' = Some d ∧
     (monthly = None → ∀ used reserved amount,
        budget.CanReserve (postgres.monthly_budget l') used reserved amount = Ok ()) ∧
     (daily = None → ∀ used reserved amount,
        budget.CanReserve (default 0 (postgres.daily_budget l')) used reserved amount = Ok ())) ∧
  (∀ rest, setBudget io (slug x :: rest) t = (Ok DNothing, t)) ∧
  ((∀ tn' x', tenants t !! tn' = Some x' → slug x' ≠ other) →
   setBudget io (budget_args other monthly daily) t = (Ok DNothing, t)).
Proof.
  intros Hio Hwf Hx Hl Hm Hd Pm Pd.
  pose proof (λ s, budget_args_parse s _ _ _ _ Hm Hd) as Hparse.
  split_and!.
  - pose proof (setBudget_spec io (budget_args (slug x) monthly daily) t Hio Hwf) as H.
    rewrite Hparse in H. destruct H as [H _]. rewrite (H tn x l Hx eq_refl Hl). cbn -[budget.CanReserve].
    rewrite !(proj2 (Z.leb_le _ _)) by done. eexists _, _. split; [done|].
    cbn -[budget.CanReserve]. rewrite lookup_fmap, lookup_insert_eq. split; [done|].
    cbn -[budget.CanReserve]. split_and!; [done..| |]; intros ->; by simplify_eq/=.
  - intros rest. pose proof (setBudget_spec io (slug x :: rest) t Hio Hwf) as H.
    rewrite positional_slug in H by by apply (wf_slug_ok t Hwf tn). destruct H as [_ H]. apply H.
    intros tn' x' Hx' He. assert (slug_ok (slug x') = true) as Hs' by by apply (wf_slug_ok t Hwf tn').
    by rewrite He in Hs'.
  - intros Hno. pose proof (setBudget_spec io (budget_args other monthly daily) t Hio Hwf) as H.
    rewrite Hparse in H. destruct H as [_ H]. by apply H.
Qed.

(** ** The whole command *)

(** Every invocation closes the pool it opened. *)
Lemma run_closes `{postgres.Outside} `{pool.Driver} hmac_sha256 uuid_in Getenv ToUpper opening io args db pools :
  (run hmac_sha256 uuid_in Getenv ToUpper opening io args (db, pools)).2.2 = pools.
Proof.
  unfold run. destruct args as [|command args]; [done|].
  destruct (config.Load _ _ _) as [cfg|e|w]; [|done..]. cbn [fst snd].
  pose proof (pool.NewPostgres_spec opening (config.DatabaseURL cfg) pools) as Hp.
  destruct (pool.NewPostgres _ _ _) as [[c|e|w] pools']; [|done..]. destruct Hp as [-> _].
  destruct (dispatch _ _ _ _ _ _ _) as [out db']. cbn. by rewrite String.eqb_refl.
Qed.

(** C17 (invariant): what administrators can do to the configuration. From every state
    that satisfies the constraints of the schema (an empty database does), every
    history of invocations, with any configurations and arguments and whatever fails,
    leads to one that does: unique well-formed slugs, unique key prefixes and names,
    existing tenants, models and providers behind every reference, limits in range. No
    key row disappears or changes hands: each keeps its tenant, user, name, scopes and
    expiry, its revocation once it has one, and its secret unless it is the development
    key. Requests, reservations and the ledger are not touched, and no pool is left
    open. *)
Theorem admin_history `{postgres.Outside} `{pool.Driver} (hmac_sha256 : string → string → string)
  (uuid_in : string → option string) (db db' : DB) :
  history hmac_sha256 uuid_in db db' → wf (tables db) →
  wf (tables db') ∧ keys_kept (tables db) (tables db') ∧ records db' = records db ∧
  ∀ Getenv ToUpper opening io args pools,
    (run hmac_sha256 uuid_in Getenv ToUpper opening io args (db', pools)).2.2 = pools.
Proof.
  intros Hh Hwf. destruct (history_kept wf_kept _ _ _ _ Hh) as [Hw Hr].
  destruct (history_kept keys_kept _ _ _ _ Hh) as [Hk _].
  split_and!; [auto|done|done|]. intros. apply run_closes.
Qed.
End admin_proofs.
