(* ===== verification/AdminDemo.v ===== *)
(** * AdminDemo: concrete runs of the administration command *)

From S2P Require Import Prelude Golib Request Budget Auth Store Postgres PostgresProofs Strconv Flag Config Pool Admin AdminProofs.

Module admin_demo.
Import admin admin_proofs.
#[local] Existing Instance postgres_demo.outside.
#[local] Abbreviation start := postgres_demo.start.

(** A driver whose database always answers. *)
#[global] Instance driver : pool.Driver := {|
  pool.ParseConfig := λ url, Ok (pool.mkConfig url 4 0 0 0 0);
  pool.NewWithConfig := λ _ _, None;
  pool.pool_Ping := λ _ _, None
|}.

(** The default environment with a database; canonical identifiers. *)
Definition Getenv (name : string) : string :=
  if name =s "AEGIS_DATABASE_URL" then "postgres://localhost/aegis" else "".
Definition same (s : string) : string := s.
Definition hmac (pepper plain : string) : string := pepper +:+ plain.
Definition uuid_in (s : string) : option string := if s =s "" then None else Some s.

(** The n-th invocation, with random bytes for a key. *)
Definition world (n : Z) : IO := quiet (time.epoch + n * time.Second) ([n; 7] ++ repeat 0 30).
Definition invoke (db : DB) (call : Z * list string) : DB :=
  (run hmac uuid_in Getenv same (world call.1) (world call.1) call.2 (db, [])).2.1.
Definition empty : DB := mkDB no_tables start.

Lemma history_invocations (calls : list (Z * list string)) (db : DB) :
  history hmac uuid_in db (foldl invoke db calls).
Proof.
  revert db. induction calls as [|call calls IH]; intros db; [apply history_done|].
  apply (history_run hmac uuid_in Getenv same (world call.1) (world call.1) call.2 [] db). apply IH.
Qed.

Definition create_tenant : Z * list string := (2, ["create-tenant"; "--name=Payments AI"; "--slug=payments-ai"]).
Definition key_args : list string := ["--tenant=payments-ai"; "-name"; "client"; "--scopes"; " chat:write, ,requests:read"].
Definition setup : list (Z * list string) := [(1, ["seed"]); create_tenant].
Definition keyID : string := postgres.uuid (world 3) 0.
Definition revoke_key : Z * list string := (4, ["revoke-api-key"; "--id"; keyID]).
Definition later : list (Z * list string) := [(5, ["seed"]); (6, ["revoke-api-key"; "--id"; keyID]); (7, ["unknown"])].

Definition config_of : res config.Config := config.Load Getenv same "admin-cli".
Definition cfg : config.Config :=
  match config_of with
  | Ok c => c
  | _ => config.mkConfig "" "" "" "" 0 0 0 0 0 0 "" "" [] "" "" "" "" "" "" [] "" "" "" "" 0 0 false
  end.

Definition before : DB := foldl invoke empty setup.

Lemma before_wf : wf (tables before).
Proof.
  destruct (history_kept wf_kept hmac uuid_in _ _ (history_invocations setup empty)) as [Hwf _].
  apply Hwf, no_tables_wf.
Qed.

(** A key is created for the new tenant. *)
Definition created : res document * Tables := createAPIKey hmac (world 3) cfg key_args (tables before).
Definition after : DB := mkDB created.2 (records before).
Definition plain : string :=
  match created.1 with Ok (DKey _ p _ _) => p | _ => "" end.

Lemma created_Ok :
  created.1 = Ok (DKey keyID plain true ["chat:write"; "requests:read"]).
Proof. vm_compute. reflexivity. Qed.

Lemma key_lifecycle_witness :
  ∃ tn x, tenants (tables before) !! tn = Some x ∧ slug x = "payments-ai" ∧
    verify hmac after (world 8) (config.APIKeyPepper cfg) plain 0 =
      Ok (auth.mkPrincipal keyID tn "" (list_to_set ["chat:write"; "requests:read"])) ∧
    verify hmac (foldl invoke after [revoke_key]) (world 8) (config.APIKeyPepper cfg) plain 0 =
      Err auth.ErrRevokedKey.
Proof.
  destruct (key_lifecycle hmac uuid_in (world 3) cfg key_args (tables before) created.2 keyID plain true
    ["chat:write"; "requests:read"] (records before)) as (set & tn & x & Hset & Hx & Hs & _ & Hlife).
  - apply before_wf.
  - rewrite <- created_Ok. unfold created. by destruct (createAPIKey _ _ _ _ _).
  - intros He. vm_compute in He. discriminate.
  - exists tn, x. split; [exact Hx|]. split.
    { rewrite Hs. vm_compute in Hset. injection Hset as <-. vm_compute. reflexivity. }
    fold after in Hlife. split.
    + destruct (Hlife after (history_done hmac uuid_in after)) as (k & Hk & Hv). rewrite (Hv (world 8) 0 eq_refl).
      vm_compute in Hk. injection Hk as <-. reflexivity.
    + destruct (Hlife _ (history_invocations [revoke_key] after)) as (k & Hk & Hv). rewrite (Hv (world 8) 0 eq_refl).
      vm_compute in Hk. injection Hk as <-. reflexivity.
Defined.

Definition revoked : DB := foldl invoke after [revoke_key].

Lemma revocation_is_final_witness :
  ∃ k, api_keys (tables revoked) !! keyID = Some k ∧ is_Some (revoked_at k) ∧
    ∀ pr, verify hmac (foldl invoke revoked later) (world 9) (config.APIKeyPepper cfg) plain 0 = Ok pr →
          auth.APIKeyID pr ≠ keyID.
Proof.
  assert (∃ k, api_keys (tables revoked) !! keyID = Some k ∧ is_Some (revoked_at k)) as (k & Hk & Hr).
  { eexists. split; [vm_compute; reflexivity|]. eexists. reflexivity. }
  exists k. split; [exact Hk|]. split; [exact Hr|].
  exact (revocation_is_final hmac uuid_in revoked _ keyID k (world 9) _ plain 0 Hk Hr (history_invocations later revoked)).
Defined.

Lemma admin_history_witness :
  wf (tables (foldl invoke empty (setup ++ later))) ∧
  records (foldl invoke empty (setup ++ later)) = start.
Proof.
  destruct (admin_history hmac uuid_in empty (foldl invoke empty (setup ++ later))) as (Hwf & _ & Hr & _).
  - apply history_invocations.
  - apply no_tables_wf.
  - by split.
Defined.

Lemma seed_ready_witness :
  verify hmac (mkDB (seed hmac (world 1) cfg no_tables).2 start) (world 1) (config.APIKeyPepper cfg)
    (config.DevAPIKey cfg) 0 = Ok (auth.mkPrincipal devKey devTenant "" {["*"]}).
Proof.
  pose proof (seed_ready hmac (world 1) cfg "devkey0000" start) as H.
  destruct (seed hmac (world 1) cfg no_tables) as [out t]. destruct H as (_ & Hv & _).
  - done.
  - vm_compute. reflexivity.
  - apply (Hv 0).
Defined.

(** A request of the new tenant. *)
Definition tenantID : string := postgres.uuid (world 2) 0.
Definition request_params : persistence.CreateRequestParams :=
  persistence.mkCreateRequestParams tenantID keyID "" "idempotent" "hash"
    (request.mkChatInput "aegis-small" [] None 20 false None) "corr".

Lemma created_tenants_powerless_witness :
  tenants (tables before) !! tenantID = Some (mkTenant "Payments AI" "payments-ai" ACTIVE "INTERNAL") ∧
  postgres.create_or_get (world 9) request_params (view before) = (Err persistence.ErrModelForbidden, view before).
Proof.
  split; [vm_compute; reflexivity|].
  destruct (created_tenants_powerless hmac uuid_in start before (world 9) request_params) as (e & Hrun & He).
  - apply history_invocations.
  - intros He. vm_compute in He. discriminate.
  - rewrite Hrun. by rewrite He.
Defined.

Lemma set_budget_lifts_limit_witness :
  ∃ t' l', setBudget (world 9) ["--tenant"; "aegis-development"; "--daily-micro-usd"; "5_000"]
             (tables before) = (Ok DNothing, t') ∧
    postgres.tenant_limits (catalog_of t') !! devTenant = Some l' ∧ postgres.monthly_budget l' = 0 ∧
    budget.CanReserve (postgres.monthly_budget l') 0 0 (10 ^ 15) = Ok ().
Proof.
  destruct (set_budget_lifts_limit (world 9) (tables before) devTenant "nobody"
    (mkTenant "Aegis Development" "aegis-development" ACTIVE "INTERNAL")
    (seed_limits (time.epoch + 1 * time.Second)) None (Some "5_000") 0 5000)
    as [(t' & l' & Hrun & Hl & Hm & _ & Hall & _) _].
  - done.
  - apply before_wf.
  - vm_compute. reflexivity.
  - vm_compute. reflexivity.
  - reflexivity.
  - vm_compute. reflexivity.
  - done.
  - done.
  - exists t', l'. split; [exact Hrun|]. split; [exact Hl|]. split; [exact Hm|]. apply (Hall eq_refl).
Defined.

(** Seeding again under another provider name updates the endpoint only: the tenant may
    still use the provider of the old name alone. *)
Definition renamed (name : string) : string :=
  if name =s "AEGIS_PROVIDER_NAME" then "openai-primary"
  else if name =s "AEGIS_PROVIDER_ENDPOINT" then "https://api.example/v1" else Getenv name.
Example seed_keeps_provider_name :
  let db := (run hmac uuid_in renamed same (world 9) (world 9) ["seed"] (before, [])).2.1 in
  (provider_name <$> providers (tables db) !! devProvider) = Some "mock-primary" ∧
  (endpoint <$> providers (tables db) !! devProvider) = Some "https://api.example/v1" ∧
  elements (postgres.allowed_providers devTenant (catalog_of (tables db))) = ["mock-primary"].
Proof. vm_compute. repeat split. Qed.
End admin_demo.
