(* ===== verification/Evaluators.v ===== *)
(** * Evaluators: the deterministic response evaluators

    [internal/evaluation/evaluation.go]: the PII, quality, safety and
    performance evaluators with the patterns, the masking and the repetition
    measure they use. The time an evaluation took is an argument. *)

From Stdlib Require Import Ascii.
From Stdlib Require Import Floats.SpecFloat.
From S2P Require Import Prelude Golib Regexp.

(** ** [net.ParseIP] on dotted decimals

    The text given to it matches the address pattern below: digits and dots, so
    only the IPv4 branch is taken. *)

Module netip.
Definition digit (c : ascii) : option Z :=
  let b := strings.byte c in if (48 <=? b) && (b <=? 57) then Some (b - 48) else None.

(** [val], [pos] and [digLen] are the locals of [parseIPv4Fields]. *)
Fixpoint parseIPv4Fields (l : list ascii) (val : Z) (pos digLen : nat) : bool :=
  match l with
  | [] => (pos =? 3)%nat
  | c :: l' =>
    match digit c with
    | Some d =>
      if (digLen =? 1)%nat && (val =? 0) then false
      else let val := val * 10 + d in
           if 255 <? val then false else parseIPv4Fields l' val pos (S digLen)
    | None =>
      if Ascii.eqb c "."%char then
        if (digLen =? 0)%nat || bool_decide (l' = []) then false
        else if (pos =? 3)%nat then false
        else parseIPv4Fields l' 0 (S pos) 0
      else false
    end
  end.

(** [net.ParseIP(s) != nil]. *)
Definition ParseIPv4 (s : string) : bool := parseIPv4Fields (strings.chars s) 0 0 0.
End netip.

Module evaluation.

Record Input : Type := mkInput {
  Response : string;
  RequestedFormat : string;
  ProviderLatency : time.Duration;
  TotalLatency : time.Duration;
  PromptTokens : Z;
  CompletionTokens : Z;
  CostMicroUSD : Z;
  MaxProviderLatency : time.Duration;
  MaxTotalLatency : time.Duration;
  MaxTokens : Z;
  MaxCostMicroUSD : Z;
  BlockedTerms : list string;
}.

Record Finding : Type := mkFinding {
  Code : string;
  Severity : string;
  Message : string;
  Masked : string;
}.

Record Result : Type := mkResult {
  Name : string;
  Version : string;
  ScoreMilli : Z;
  Status : string;
  Findings : list Finding;
  Duration : time.Duration;
}.

(** The interface [Evaluator]: an evaluator of type [E] evaluates an input; the
    second argument is the time it takes. *)
Class Evaluator (E : Type) : Type := Evaluate : E → Input → time.Duration → Result.

(** ** Helpers *)

Fixpoint Repeat (n : nat) : string := match n with O => "" | S n => "*" +:+ Repeat n end.

Definition rune_text (r : runes.rune) : string := strings.of_chars (runes.encode (runes.code r)).

Definition mask (value : string) : string :=
  let rs := runes.decode value in
  if (length rs <=? 4)%nat then Repeat (length rs)
  else match head rs, last rs with
       | Some first, Some final => rune_text first +:+ Repeat (length rs - 2) +:+ rune_text final
       | _, _ => ""
       end.

(** The loop of [repeatedRatio]: the counts of the words so far and the largest. *)
Definition count_word (st : gmap string Z * Z) (word : string) : gmap string Z * Z :=
  let n := default 0 (st.1 !! word) + 1 in (<[word := n]> st.1, Z.max st.2 n).
Definition maximum (words : list string) : Z := (foldl count_word (∅, 0) words).2.

Definition float_div (x y : float64.t) : float64.t := SFdiv float64.prec float64.emax x y.
Definition repeatedRatio (words : list string) : float64.t :=
  match words with
  | [] => float64.zero
  | _ => float_div (float64.of_int (maximum words)) (float64.of_int (Z.of_nat (length words)))
  end.

(** The double nearest to 0.6. *)
Definition c0_6 : float64.t := S754_finite false 5404319552844595 (-53).

(** ** PII *)

Import regexp.

Definition range (lo hi : Z) (r : Z) : bool := (lo <=? r) && (r <=? hi).
Definition upper : Z → bool := range 65 90.
Definition digit : Z → bool := range 48 57.
(** [[A-Z]] under [(?i)]: also lower case, and the long s and the Kelvin sign
    that fold to letters. *)
Definition letter (r : Z) : bool := upper r || range 97 122 r || (r =? 383) || (r =? 8490).
Definition one_of (cs : list Z) (r : Z) : bool := existsb (Z.eqb r) cs.
Definition lit (c : Z) : re := Set_ (Z.eqb c).
Definition plus (f : Z → bool) : re := Rep false 1 None (Set_ f).
Definition optional (r : re) : re := Rep false 0 (Some 1%nat) r.
Definition exactly (n : nat) (r : re) : re := Rep false n (Some 0%nat) r.
Fixpoint cat (rs : list re) : re :=
  match rs with [] => Rep false 0 (Some 0%nat) Boundary | [r] => r | r :: rs => Cat r (cat rs) end.

(** [(?i)\b[A-Z0-9._%+-]+@[A-Z0-9.-]+\.[A-Z]{2,}\b] *)
Definition email : re :=
  cat [Boundary; plus (λ r, letter r || digit r || one_of [46; 95; 37; 43; 45] r); lit 64;
       plus (λ r, letter r || digit r || one_of [46; 45] r); lit 46;
       Rep false 2 None (Set_ letter); Boundary].

(** [\b(?:\+?[0-9][0-9 ()-]{7,}[0-9])\b] *)
Definition phone : re :=
  cat [Boundary; optional (lit 43); Set_ digit;
       Rep false 7 None (Set_ (λ r, digit r || one_of [32; 40; 41; 45] r)); Set_ digit; Boundary].

(** [\b(?:[0-9][ -]*?){13,19}\b] *)
Definition payment_card_like : re :=
  cat [Boundary;
       Rep false 13 (Some 6%nat) (Cat (Set_ digit) (Rep true 0 None (Set_ (one_of [32; 45]))));
       Boundary].

(** [\b[A-Z]{2}[0-9]{6}[A-Z]?\b] *)
Definition national_identifier_like : re :=
  cat [Boundary; exactly 2 (Set_ upper); exactly 6 (Set_ digit); optional (Set_ upper); Boundary].

(** [\b(?:[0-9]{1,3}\.){3}[0-9]{1,3}\b] *)
Definition ip_address : re :=
  cat [Boundary; exactly 3 (Cat (Rep false 1 (Some 2%nat) (Set_ digit)) (lit 46));
       Rep false 1 (Some 2%nat) (Set_ digit); Boundary].

Definition piiPatterns : list (string * re) :=
  [("email", email); ("phone", phone); ("payment_card_like", payment_card_like);
   ("national_identifier_like", national_identifier_like); ("ip_address", ip_address)].

(** The body of the inner loop: the finding a match gives, if any. *)
Definition pii_finding (code match_ : string) : option Finding :=
  if (code =s "ip_address") && negb (netip.ParseIPv4 match_) then None
  else Some (mkFinding code "high" "possible sensitive value detected" (mask match_)).

Definition pii_findings (response : string) : list Finding :=
  concat ((λ candidate, omap (pii_finding candidate.1) (FindAllString candidate.2 response))
    <$> piiPatterns).

Inductive PII : Type := mkPII.
#[global] Instance PII_Evaluate : Evaluator PII := λ _ input elapsed,
  let findings := pii_findings (Response input) in
  let n := Z.of_nat (length findings) in
  let '(status, score) :=
    if 0 <? n then ("fail", Z.max 0 (1000 - n * 250)) else ("pass", 1000) in
  mkResult "pii_detector" "1.0.0" score status findings elapsed.

(** ** Quality *)

Section Lower.
(** [unicode.ToLower] outside ASCII. *)
Context (lower_rune : Z → Z).

Definition too_short : Finding := mkFinding "too_short" "medium" "response may not be useful" "".
Definition repetition : Finding :=
  mkFinding "repetition" "medium" "response contains excessive repetition" "".
Definition format_mismatch : Finding :=
  mkFinding "format_mismatch" "medium" "response does not match requested JSON format" "".
Definition empty_response : Finding := mkFinding "empty_response" "high" "response is empty" "".

(** One of the checks: whether it fires, what it reports and what it costs. *)
Definition charge (acc : Z * list Finding) (check : bool * Finding * Z) : Z * list Finding :=
  let '(fires, f, penalty) := check in
  if fires : bool then (acc.1 - penalty, acc.2 ++ [f]) else acc.

Definition repetitive (trimmed : string) : bool :=
  let words := strings.Fields (gotext.ToLower lower_rune trimmed) in
  float64.lt c0_6 (repeatedRatio words) && (8 <=? Z.of_nat (length words)).
Definition wrong_format (input : Input) (trimmed : string) : bool :=
  (RequestedFormat input =s "json") &&
  negb (strings.HasPrefix trimmed "{" && gotext.HasSuffix trimmed "}").

Definition quality_checks (input : Input) (trimmed : string) : list (bool * Finding * Z) :=
  [(strings.len trimmed <? 20, too_short, 250);
   (repetitive trimmed, repetition, 300);
   (wrong_format input trimmed, format_mismatch, 300)].

Inductive Quality : Type := mkQuality.
#[export] Instance Quality_Evaluate : Evaluator Quality := λ _ input elapsed,
  let trimmed := strings.TrimSpace (Response input) in
  let '(score, findings) :=
    if trimmed =s "" then (0, [empty_response])
    else foldl charge (1000, []) (quality_checks input trimmed) in
  let status := if score <? 700 then "fail" else "pass" in
  mkResult "quality" "1.0.0" (Z.max 0 score) status findings elapsed.

(** ** Safety *)

Definition normal_term (term : string) : string :=
  strings.TrimSpace (gotext.ToLower lower_rune term).
Definition blocked (lower term : string) : option Finding :=
  let term := normal_term term in
  if negb (term =s "") && gotext.Contains lower term
  then Some (mkFinding "blocked_term" "high" "configured blocked pattern detected" (mask term))
  else None.

Inductive Safety : Type := mkSafety.
#[export] Instance Safety_Evaluate : Evaluator Safety := λ _ input elapsed,
  let lower := gotext.ToLower lower_rune (Response input) in
  let findings := omap (blocked lower) (BlockedTerms input) in
  let '(status, score) := match findings with [] => ("pass", 1000) | _ => ("fail", 0) end in
  mkResult "safety" "1.0.0" score status findings elapsed.
End Lower.

(** ** Performance *)

Definition performance_checks (input : Input) : list (bool * string * string) :=
  [((0 <? MaxProviderLatency input) && (MaxProviderLatency input <? ProviderLatency input),
    "provider_latency", "provider latency exceeded threshold");
   ((0 <? MaxTotalLatency input) && (MaxTotalLatency input <? TotalLatency input),
    "total_latency", "total latency exceeded threshold");
   ((0 <? MaxTokens input) &&
    (MaxTokens input <? wrap64 (PromptTokens input + CompletionTokens input)),
    "token_count", "token count exceeded threshold");
   ((0 <? MaxCostMicroUSD input) && (MaxCostMicroUSD input <? CostMicroUSD input),
    "cost", "cost exceeded threshold")].

Definition exceeded (check : bool * string * string) : option Finding :=
  let '(b, code, message) := check in
  if b : bool then Some (mkFinding code "medium" message "") else None.

Inductive Performance : Type := mkPerformance.
#[global] Instance Performance_Evaluate : Evaluator Performance := λ _ input elapsed,
  let findings := omap exceeded (performance_checks input) in
  let n := Z.of_nat (length findings) in
  let status := if 0 <? n then "fail" else "pass" in
  mkResult "performance" "1.0.0" (Z.max 0 (1000 - n * 250)) status findings elapsed.

(** An evaluator as a value, as in [[]evaluation.Evaluator]. *)
Record evaluator : Type := pack { kind : Type; impl :: Evaluator kind; it : kind }.
Definition run_evaluator (e : evaluator) (input : Input) (elapsed : time.Duration) : Result :=
  @Evaluate _ (impl e) (it e) input elapsed.

(** The suite of the evaluation worker. *)
Definition suite (lower_rune : Z → Z) : list evaluator :=
  [pack PII _ mkPII; pack Quality (Quality_Evaluate lower_rune) mkQuality;
   pack Safety (Safety_Evaluate lower_rune) mkSafety; pack Performance _ mkPerformance].

(** ** Lemmas *)

Lemma omap_ne {A B} (f : A → option B) (l : list A) :
  omap f l ≠ [] ↔ ∃ x, x ∈ l ∧ is_Some (f x).
Proof.
  induction l as [|x l IH]; simpl; [set_solver|].
  destruct (f x) as [y|] eqn:Hx; rewrite ?IH.
  - split; [|done]. intros _. exists x. rewrite Hx. split; [set_solver|by eexists].
  - split; [set_solver|]. intros (z & [->|Hz]%elem_of_cons & Hs); [|by exists z].
    rewrite Hx in Hs. by destruct Hs.
Qed.

Lemma concat_ne {A} (ls : list (list A)) : concat ls ≠ [] ↔ ∃ l, l ∈ ls ∧ l ≠ [].
Proof. induction ls as [|[|x l] ls IH]; simpl; [set_solver|rewrite IH|]; set_solver. Qed.

Lemma pii_finding_Some (code match_ : string) :
  is_Some (pii_finding code match_) ↔ (code = "ip_address" → netip.ParseIPv4 match_ = true).
Proof.
  unfold pii_finding. rewrite <- not_eq_None_Some.
  destruct (code =s "ip_address") eqn:Hc; [apply String.eqb_eq in Hc|
    apply String.eqb_neq in Hc]; destruct (netip.ParseIPv4 match_); simpl; naive_solver.
Qed.

(** What the evaluator is to detect: a match of a pattern; a match of the
    address pattern must also be an address. *)
Definition detects (code : string) (r : re) (response : string) : Prop :=
  if code =s "ip_address"
  then ∃ m, m ∈ FindAllString r response ∧ netip.ParseIPv4 m = true
  else matches_in r response.

Lemma pattern_findings_ne (code : string) (r : re) (response : string) :
  omap (pii_finding code) (FindAllString r response) ≠ [] ↔ detects code r response.
Proof.
  rewrite omap_ne. setoid_rewrite pii_finding_Some. unfold detects.
  destruct (code =s "ip_address") eqn:Hc.
  - apply String.eqb_eq in Hc. naive_solver.
  - apply String.eqb_neq in Hc. rewrite <- FindAllString_ne. split.
    + intros (m & Hm & _) Hn. rewrite Hn in Hm. set_solver.
    + destruct (FindAllString r response) as [|m l]; [done|]. intros _. exists m. set_solver.
Qed.

Lemma pii_findings_ne (response : string) :
  pii_findings response ≠ [] ↔
  ∃ code r, (code, r) ∈ piiPatterns ∧ detects code r response.
Proof.
  unfold pii_findings. rewrite concat_ne. setoid_rewrite list_elem_of_fmap. split.
  - intros (l & ([code r] & -> & Hin) & Hl). exists code, r. by rewrite <- pattern_findings_ne.
  - intros (code & r & Hin & Hd). eexists. split; [by exists (code, r)|]. by apply pattern_findings_ne.
Qed.

(** ** Properties *)

(** A result is well-formed: a score in thousandths, a verdict, and a full score
    exactly if nothing was found. *)
Definition well_formed (r : Result) : Prop :=
  0 <= ScoreMilli r <= 1000 ∧ (Status r = "pass" ∨ Status r = "fail") ∧
  (ScoreMilli r = 1000 ↔ Findings r = []) ∧ (Findings r = [] → Status r = "pass").

Lemma counted_well_formed {A} (fs : list A) :
  let n := Z.of_nat (length fs) in
  0 <= Z.max 0 (1000 - n * 250) <= 1000 ∧ (Z.max 0 (1000 - n * 250) = 1000 ↔ fs = []).
Proof. destruct fs; simpl; (split; [lia|]); split; intros; done || lia. Qed.

Lemma PII_well_formed (x : PII) (input : Input) (d : time.Duration) : well_formed (Evaluate x input d).
Proof.
  unfold well_formed, Evaluate, PII_Evaluate.
  pose proof (counted_well_formed (pii_findings (Response input))) as [Hb Hf].
  destruct (pii_findings (Response input)) as [|f fs]; cbn -[Z.mul] in *; naive_solver.
Qed.

Lemma Performance_well_formed (x : Performance) (input : Input) (d : time.Duration) :
  well_formed (Evaluate x input d).
Proof.
  unfold well_formed, Evaluate, Performance_Evaluate. cbn [ScoreMilli Status Findings].
  set (fs := omap exceeded _). pose proof (counted_well_formed fs) as [Hb Hf].
  split; [done|]. split; [destruct (_ <? _); auto|]. split; [done|]. by intros ->.
Qed.

Lemma Quality_well_formed (lower : Z → Z) (x : Quality) (input : Input) (d : time.Duration) :
  well_formed (@Evaluate _ (Quality_Evaluate lower) x input d).
Proof.
  unfold well_formed, Evaluate, Quality_Evaluate.
  destruct (_ =s _); [cbn; split_and!; try lia; auto; done|].
  unfold quality_checks. cbn [foldl charge].
  destruct (_ <? 20), (repetitive _ _), (wrong_format _ _); cbn; split_and!; lia || auto; done.
Qed.

Lemma Safety_well_formed (lower : Z → Z) (x : Safety) (input : Input) (d : time.Duration) :
  well_formed (@Evaluate _ (Safety_Evaluate lower) x input d).
Proof.
  unfold well_formed, Evaluate, Safety_Evaluate.
  destruct (omap _ _); cbn; split_and!; lia || auto; done.
Qed.

(** Every evaluator of the worker's suite returns a well-formed result
    on every input. *)
Theorem suite_well_formed (lower_rune : Z → Z) (input : Input) (elapsed : time.Duration) :
  Forall (λ e, well_formed (run_evaluator e input elapsed)) (suite lower_rune).
Proof.
  unfold suite. rewrite !Forall_cons, Forall_nil. unfold run_evaluator. cbn [impl it kind].
  eauto using PII_well_formed, Quality_well_formed, Safety_well_formed, Performance_well_formed.
Qed.

(** C34 (equivalence): the PII evaluator fails a response exactly if one of the
    patterns, read as the set of texts it denotes, matches somewhere in it (for
    the address pattern: if one of the matches found is an IPv4 address). *)
Theorem PII_exact (input : Input) (elapsed : time.Duration) :
  Status (Evaluate mkPII input elapsed) = "fail" ↔
  ∃ code r, (code, r) ∈ piiPatterns ∧ detects code r (Response input).
Proof.
  assert (Status (Evaluate mkPII input elapsed) = "fail" ↔ pii_findings (Response input) ≠ []) as Hs.
  { unfold Evaluate, PII_Evaluate. destruct (pii_findings _); simpl; naive_solver. }
  by rewrite Hs, pii_findings_ne.
Qed.

(** What a reader of a finding may learn of a value: its length in runes and, if
    it has more than four, its first and last rune. *)
Definition disclosed (value : string) : nat * option Z * option Z :=
  let rs := runes.decode value in
  (length rs, if (length rs <=? 4)%nat then None else runes.code <$> head rs,
   if (length rs <=? 4)%nat then None else runes.code <$> last rs).

(** The masked value of a finding depends on nothing but the length
    of the value and, for values longer than four runes, its first and last
    rune. *)
Theorem mask_confidential (v w : string) : disclosed v = disclosed w → mask v = mask w.
Proof.
  unfold disclosed, mask, rune_text.
  generalize (runes.decode v), (runes.decode w). clear v w. intros v w [[Hl Hh]%pair_equal_spec Ht]%pair_equal_spec.
  rewrite Hl in *. destruct (length w <=? 4)%nat eqn:Hw; [done|]. apply Nat.leb_gt in Hw.
  destruct v as [|a l], w as [|b k]; simpl in Hl, Hw; try lia.
  destruct (last (a :: l)) as [x|] eqn:Hx; [|by apply last_None in Hx].
  destruct (last (b :: k)) as [y|] eqn:Hy; [|by apply last_None in Hy].
  simpl in Hh. simpl in Ht. injection Hh as Hh. injection Ht as Ht. cbv [head hd_error]. by rewrite Hh, Ht.
Qed.
Lemma mask_confidential_witness :
  mask "4111-1111-1111-1111" = mask "4929 2222 3333 4441" ∧ mask "4111-1111-1111-1111" = "4*****************1".
Proof. split; [apply mask_confidential; vm_compute; reflexivity|vm_compute; reflexivity]. Defined.

Section SafetyExact.
Context (lower_rune : Z → Z).

(** The safety evaluator fails a response exactly if some
    configured term that is not blank occurs in it, both in lower case; then the
    score is zero. *)
Theorem Safety_exact (input : Input) (elapsed : time.Duration) :
  let r := @Evaluate _ (Safety_Evaluate lower_rune) mkSafety input elapsed in
  (Status r = "fail" ↔
   ∃ term, term ∈ BlockedTerms input ∧ normal_term lower_rune term ≠ "" ∧
     ∃ a b, gotext.ToLower lower_rune (Response input) = a +:+ normal_term lower_rune term +:+ b) ∧
  (Status r = "fail" ↔ ScoreMilli r = 0).
Proof.
  cbn zeta. unfold Evaluate, Safety_Evaluate.
  set (lower := gotext.ToLower _ _). set (fs := omap (blocked lower_rune lower) _).
  assert (∀ s n, mkResult s n (match fs with [] => 1000 | _ => 0 end)
    (match fs with [] => "pass" | _ => "fail" end) fs elapsed =
    (let '(status, score) := match fs with [] => ("pass", 1000) | _ => ("fail", 0) end in
     mkResult s n score status fs elapsed)) as <- by (intros; by destruct fs).
  cbn [Status ScoreMilli]. split; [|by destruct fs].
  transitivity (fs ≠ []); [by destruct fs|]. subst fs. rewrite omap_ne.
  apply exist_proper. intros term. unfold blocked. rewrite <- gotext.Contains_spec.
  destruct (normal_term lower_rune term =s "") eqn:He;
    [apply String.eqb_eq in He|apply String.eqb_neq in He];
    destruct (gotext.Contains _ _); simpl; rewrite ?is_Some_alt; naive_solver.
Qed.
End SafetyExact.

(** ** Repetition *)

Definition occurrences (w : string) (words : list string) : Z :=
  Z.of_nat (length (filter (λ v, v = w) words)).

Lemma count_word_fold (words : list string) :
  let st := foldl count_word (∅, 0) words in
  (∀ w, default 0 (st.1 !! w) = occurrences w words) ∧
  (∀ w, occurrences w words <= st.2) ∧
  (words ≠ [] → ∃ w, w ∈ words ∧ occurrences w words = st.2) ∧ (words = [] → st.2 = 0).
Proof.
  induction words as [|x words IH] using rev_ind; cbn zeta in *.
  { split_and!; [done..]. }
  rewrite foldl_app. simpl. set (st := foldl count_word (∅, 0) words) in *.
  destruct IH as (Hc & Hle & Hmax & H0). unfold count_word. simpl.
  assert (∀ w, occurrences w (words ++ [x]) =
    occurrences w words + (if decide (x = w) then 1 else 0)) as Hocc.
  { intros w. unfold occurrences. rewrite filter_app, length_app, filter_cons, filter_nil.
    destruct (decide (x = w)); simpl; lia. }
  rewrite (Hc x). split_and!.
  - intros w. rewrite Hocc. destruct (decide (x = w)) as [->|Hne].
    + by rewrite lookup_insert_eq.
    + rewrite lookup_insert_ne by done. rewrite Hc. lia.
  - intros w. rewrite Hocc. specialize (Hle w). destruct (decide (x = w)) as [->|]; lia.
  - intros _. destruct (decide (st.2 <= occurrences x words + 1)) as [Hx|Hx].
    + exists x. split; [set_solver|]. rewrite Hocc. rewrite decide_True by done. lia.
    + destruct (decide (words = [])) as [Hn|Hn]; [specialize (H0 Hn); unfold occurrences in Hx; lia|].
      destruct (Hmax Hn) as (w & Hw & Hw'). exists w. split; [set_solver|].
      rewrite Hocc. rewrite decide_False by (intros ->; lia). lia.
  - intros H. by apply app_eq_nil in H as [_ ?].
Qed.
End evaluation.
