(* ===== verification/EvalStore.v ===== *)
(** * EvalStore: evaluation jobs and results in PostgreSQL

    Models [src/internal/persistence/evaluation.go] over the tables
    [evaluation_jobs] and [evaluation_results] beside those of [Postgres]. As
    there, a statement by itself and a transaction are atomic, each may fail,
    and a failure may hide an effect. The order of jobs requested at the same
    instant is not determined by the query; the list takes one. *)

From S2P Require Import Prelude Golib Request Store Outbox AuditTrail Postgres Evaluators.

Module evalstore.
Import persistence postgres.

(** ** Tables *)

Inductive JobStatus : Type := PENDING | QUEUED | RUNNING | COMPLETED | JFAILED | DEAD_LETTERED.
#[global] Instance JobStatus_eq_dec : EqDecision JobStatus.
Proof. solve_decision. Defined.

(** [status::text]. *)
Definition status_text (s : JobStatus) : string :=
  match s with
  | PENDING => "PENDING" | QUEUED => "QUEUED" | RUNNING => "RUNNING"
  | COMPLETED => "COMPLETED" | JFAILED => "FAILED" | DEAD_LETTERED => "DEAD_LETTERED"
  end.

Record JobRow : Type := mkJobRow {
  j_tenant : string;
  j_request : string;
  j_key : string;
  j_hash : string;
  j_type : string;
  j_status : JobStatus;
  attempt_count : Z;
  j_correlation : string;
  parameters : string;
  requested_at : time.Time;
  started_at : option time.Time;
  j_completed : option time.Time;
  last_error_category : option string
}.

Record ResultRow : Type := mkResultRow {
  r_tenant : string;
  execution_id : string;
  score_milli : Z;
  outcome : string;
  duration_ms : Z;
  result_payload : string
}.

(** The tables of the gateway, [evaluation_jobs] by id and [evaluation_results] by
    job. *)
Record DB : Type := mkDB {
  base : postgres.DB;
  evaluation_jobs : gmap string JobRow;
  evaluation_results : gmap string ResultRow
}.

Definition set_jobs (t : gmap string JobRow) (db : DB) : DB :=
  mkDB (base db) t (evaluation_results db).
Definition set_results (t : gmap string ResultRow) (db : DB) : DB :=
  mkDB (base db) (evaluation_jobs db) t.

(** A statement on the gateway's tables. *)
Definition on_base {A} (m : M postgres.DB A) : M DB A := λ db,
  let '(out, b) := m (base db) in (out, mkDB b (evaluation_jobs db) (evaluation_results db)).

(** ** Types *)

Record EvaluationJob : Type := mkEvaluationJob {
  ID : string;
  TenantID : string;
  RequestID : string;
  IdempotencyKey : string;
  CanonicalHash : string;
  JobType : string;
  Status : string;
  AttemptCount : Z;
  CorrelationID : string;
  Parameters : string;
  RequestedAt : time.Time;
  StartedAt : option time.Time;
  CompletedAt : option time.Time;
  LastErrorCategory : string;
  Result : string
}.

Record CreateEvaluationParams : Type := mkCreateEvaluationParams {
  ce_TenantID : string;
  ce_RequestID : string;
  ce_IdempotencyKey : string;
  ce_CanonicalHash : string;
  ce_JobType : string;
  ce_CorrelationID : string;
  ce_Parameters : string
}.

(** The anonymous struct the parameters of a job are decoded into. *)
Record Thresholds : Type := mkThresholds {
  RequestedFormat : string;
  BlockedTerms : list string;
  MaxProviderMS : Z;
  MaxTotalMS : Z;
  MaxTokens : Z;
  MaxCostMicroUSD : Z
}.

(** ** Code outside the program: what a JSONB column returns for the text put into
    it, the contents of the choices of a stored response, the struct decoded from
    parameters (its error is ignored), and [json.Marshal] of results. *)
Class Codecs : Type := {
  jsonb : string → string;
  decode_choices : string → res (list string);
  decode_thresholds : string → Thresholds;
  encode_results : list evaluation.Result → res string
}.

Definition check_violation : error := New "new row violates check constraint".
Definition foreign_key_violation : error := New "insert violates foreign key constraint".
Definition out_of_range : error := New "integer out of range".

(** ** Methods *)

Section Store.
Context `{Outside} `{Codecs}.

(** One row of the SELECT, the result joined in if there is one. *)
Definition job_of (id : string) (j : JobRow) (result : string) : EvaluationJob :=
  mkEvaluationJob id (j_tenant j) (j_request j) (j_key j) (j_hash j) (j_type j)
    (status_text (j_status j)) (attempt_count j) (j_correlation j) (jsonb (parameters j))
    (requested_at j) (started_at j) (j_completed j) (default "" (last_error_category j)) result.

Definition get_statement (io : IO) (k : nat) (tenantID evaluationID : string) : M DB EvaluationJob :=
  statement io k (Wrap "get evaluation job") (act (λ db,
    match evaluation_jobs db !! evaluationID with
    | Some j =>
      if j_tenant j =s tenantID
      then (Ok (job_of evaluationID j
                  (match evaluation_results db !! evaluationID with
                   | Some r => jsonb (result_payload r)
                   | None => "{}"
                   end)), db)
      else (Err ErrNotFound, db)
    | None => (Err ErrNotFound, db)
    end)).
Definition GetEvaluation (io : IO) (tenantID evaluationID : string) : M DB EvaluationJob :=
  get_statement io 0 tenantID evaluationID.

Definition same_job_key (tenantID key : string) (j : JobRow) : bool :=
  (j_tenant j =s tenantID) && (j_key j =s key).

Definition new_job (p : CreateEvaluationParams) (now : time.Time) : JobRow :=
  mkJobRow (ce_TenantID p) (ce_RequestID p) (ce_IdempotencyKey p) (ce_CanonicalHash p)
    (ce_JobType p) PENDING 0 (ce_CorrelationID p) (ce_Parameters p) now None None None.

(** The request to evaluate: completed and the tenant's own. *)
Definition source_ok (p : CreateEvaluationParams) (db : DB) : bool :=
  match ai_requests (base db) !! ce_RequestID p with
  | Some r => (tenant_id r =s ce_TenantID p) && bool_decide (status r = request.Completed)
  | None => false
  end.

(** INSERT ... SELECT ... ON CONFLICT DO NOTHING RETURNING id: no row if there is no
    source or the key is taken. *)
Definition insert_job (io : IO) (p : CreateEvaluationParams) : M DB (option string) := λ db,
  if source_ok p db then
    match find_where (same_job_key (ce_TenantID p) (ce_IdempotencyKey p)) (evaluation_jobs db) with
    | Some _ => (Ok None, db)
    | None =>
      match evaluation_jobs db !! uuid io 0 with
      | Some _ => (Err (Wrap "create evaluation job" unique_violation), db)
      | None =>
        (Ok (Some (uuid io 0)),
         set_jobs (<[uuid io 0 := new_job p (io_now io)]> (evaluation_jobs db)) db)
      end
    end
  else (Ok None, db).

Definition existing_job (p : CreateEvaluationParams) : M DB string := λ db,
  match find_where (same_job_key (ce_TenantID p) (ce_IdempotencyKey p)) (evaluation_jobs db) with
  | Some (id, _) => (Ok id, db)
  | None => (Err ErrNotFound, db)
  end.

Definition CreateOrGetEvaluation (io : IO) (p : CreateEvaluationParams)
  : M DB (EvaluationJob * bool) :=
  inserted ← autocommit io (Wrap "create evaluation job") (insert_job io p);
  let created := bool_decide (is_Some inserted) in
  id ← match inserted with
       | Some id => mret id
       | None => statement io 2 (Wrap "load existing evaluation job") (existing_job p)
       end;
  job ← get_statement io 3 (ce_TenantID p) id;
  if negb created && negb (CanonicalHash job =s ce_CanonicalHash p)
  then fail ErrConflict else mret (job, created).

Definition ListEvaluations (io : IO) (tenantID : string) (limit offset : Z)
  : M DB (list EvaluationJob) := λ db,
  let limit := if (limit <=? 0) || (100 <? limit) then 50 else limit in
  match io_fault io 0, io_fault io 1, io_fault io 2 with
  | Some e, _, _ => (Err (Wrap "list evaluation jobs" e), db)
  | None, Some e, _ => (Err (Wrap "scan evaluation job" e), db)
  | None, None, Some e => (Err e, db)
  | None, None, None =>
    if offset <? 0
    then (Err (Wrap "list evaluation jobs" (New "OFFSET must not be negative")), db)
    else
      let own := filter (λ kj, j_tenant kj.2 = tenantID) (map_to_list (evaluation_jobs db)) in
      let sorted := sort.SliceStable (λ x y, requested_at y.2 <? requested_at x.2) own in
      (Ok ((λ kj, job_of kj.1 kj.2 "") <$> take (Z.to_nat limit) (drop (Z.to_nat offset) sorted)), db)
  end.

(** UPDATE evaluation_jobs ... WHERE tenant_id and id and status IN [from]. *)
Definition update_job (tenantID jobID : string) (from : list JobStatus)
  (g : JobRow → res JobRow) : M DB unit := λ db,
  match evaluation_jobs db !! jobID with
  | Some j =>
    if (j_tenant j =s tenantID) && bool_decide (j_status j ∈ from)
    then match g j with
         | Ok j' => (Ok (), set_jobs (<[jobID := j']> (evaluation_jobs db)) db)
         | Err e => (Err e, db)
         | Panic w => (Panic w, db)
         end
    else (Ok (), db)
  | None => (Ok (), db)
  end.

Definition queued_row (j : JobRow) : JobRow :=
  mkJobRow (j_tenant j) (j_request j) (j_key j) (j_hash j) (j_type j) QUEUED (attempt_count j)
    (j_correlation j) (parameters j) (requested_at j) (started_at j) (j_completed j)
    (last_error_category j).
Definition MarkEvaluationQueued (io : IO) (tenantID jobID : string) : M DB unit :=
  autocommit io id (update_job tenantID jobID [PENDING; JFAILED] (λ j, Ok (queued_row j))).

(** [attempt_count] is a 32-bit column. *)
Definition running_row (now : time.Time) (j : JobRow) : res JobRow :=
  if 2147483647 <? attempt_count j + 1 then Err out_of_range
  else Ok (mkJobRow (j_tenant j) (j_request j) (j_key j) (j_hash j) (j_type j) RUNNING
             (attempt_count j + 1) (j_correlation j) (parameters j) (requested_at j)
             (Some (default now (started_at j))) (j_completed j) (last_error_category j)).
Definition MarkEvaluationRunning (io : IO) (tenantID jobID : string) : M DB unit :=
  autocommit io id
    (update_job tenantID jobID [PENDING; QUEUED; RUNNING; JFAILED] (running_row (io_now io))).

(** *** The input of an evaluation *)

(** [(EXTRACT(EPOCH FROM d)*1000)::bigint] of an interval in nanoseconds: rounded,
    halves away from zero. *)
Definition epoch_ms (d : Z) : Z := Z.sgn d * ((Z.abs d + 500000) / 1000000).

Definition succeeded_latencies (requestID : string) (db : postgres.DB) : list Z :=
  omap (λ ka : (string * Z) * AttemptRow,
    if (ka.1.1 =s requestID) && bool_decide (at_status ka.2 = SUCCEEDED)
    then latency_ms ka.2 else None) (map_to_list (provider_attempts db)).
(** [COALESCE(MAX(latency_ms), 0)]. *)
Definition max_latency (l : list Z) : Z :=
  match l with [] => 0 | x :: l => foldl Z.max x l end.

(** The columns of the source request: body, tokens, cost and latencies. *)
Definition load_source (io : IO) (tenantID requestID : string)
  : M DB (string * Z * Z * Z * Z * Z) :=
  statement io 1 (Wrap "load evaluation source") (act (λ db,
    let no_rows : error := Wrap "load evaluation source" ErrNoRows in
    match ai_requests (base db) !! requestID with
    | Some r =>
      if (tenant_id r =s tenantID) && bool_decide (status r = request.Completed) then
        match completed_at r with
        | Some finished =>
          (Ok (default "" (response_body r), default 0 (prompt_tokens r),
               default 0 (completion_tokens r), default 0 (actual_cost r),
               epoch_ms (finished - created_at r),
               max_latency (succeeded_latencies requestID (base db))), db)
        | None => (Err (Wrap "load evaluation source" (New "cannot scan NULL into *int64")), db)
        end
      else (Err no_rows, db)
    | None => (Err no_rows, db)
    end)).

Definition milliseconds (n : Z) : time.Duration := wrap64 (n * time.Millisecond).

Definition LoadEvaluationInput (io : IO) (tenantID jobID : string)
  : M DB (evaluation.Input * EvaluationJob) :=
  job ← get_statement io 0 tenantID jobID;
  source ← load_source io tenantID (RequestID job);
  let '(body, promptTokens, completionTokens, cost, totalLatency, providerLatency) := source in
  match decode_choices body with
  | Ok (content :: _) =>
    let t := decode_thresholds (Parameters job) in
    let set {A} (a b : A) : A := if Parameters job =s "" then b else a in
    mret (evaluation.mkInput content (set (RequestedFormat t) "") (milliseconds providerLatency)
            (milliseconds totalLatency) promptTokens completionTokens cost
            (set (milliseconds (MaxProviderMS t)) 0) (set (milliseconds (MaxTotalMS t)) 0)
            (set (MaxTokens t) 0) (set (MaxCostMicroUSD t) 0) (set (BlockedTerms t) []), job)
  | Panic w => lift (Panic w)
  | _ => fail (New "stored response is malformed")
  end.

Definition LoadInput (io : IO) (tenantID jobID : string) : M DB evaluation.Input :=
  loaded ← LoadEvaluationInput io tenantID jobID;
  mret loaded.1.

(** *** Results *)

(** The loop over the results: total score, total duration, verdict. *)
Definition tally (acc : Z * Z * string) (r : evaluation.Result) : Z * Z * string :=
  let '(score, duration, verdict) := acc in
  (wrap64 (score + evaluation.ScoreMilli r),
   wrap64 (duration + time.Milliseconds (evaluation.Duration r)),
   if evaluation.Status r =s "fail" then "fail" else verdict).
Definition summary (results : list evaluation.Result) : Z * Z * string :=
  let '(score, duration, verdict) := foldl tally (0, 0, "pass") results in
  (match results with [] => score | _ => Z.quot score (Z.of_nat (length results)) end,
   duration, verdict).

(** INSERT ... ON CONFLICT (evaluation_job_id) DO NOTHING. *)
Definition insert_result (jobID : string) (row : ResultRow) : M DB unit := λ db,
  let violated (e : error) := (Err (Wrap "persist evaluation result" e), db) in
  if negb ((0 <=? score_milli row) && (score_milli row <=? 1000) && (0 <=? duration_ms row))
  then violated check_violation
  else match evaluation_results db !! jobID with
       | Some _ => (Ok (), db)
       | None =>
         match find_where (λ r, execution_id r =s execution_id row) (evaluation_results db) with
         | Some _ => violated unique_violation
         | None =>
           match evaluation_jobs db !! jobID with
           | None => violated foreign_key_violation
           | Some _ => (Ok (), set_results (<[jobID := row]> (evaluation_results db)) db)
           end
         end
       end.

Definition all_statuses : list JobStatus :=
  [PENDING; QUEUED; RUNNING; COMPLETED; JFAILED; DEAD_LETTERED].

Definition done_row (now : time.Time) (j : JobRow) : JobRow :=
  mkJobRow (j_tenant j) (j_request j) (j_key j) (j_hash j) (j_type j) COMPLETED (attempt_count j)
    (j_correlation j) (parameters j) (requested_at j) (started_at j) (Some now) None.

Definition CompleteEvaluation (io : IO) (tenantID jobID executionID : string)
  (results : list evaluation.Result) : M DB unit :=
  match encode_results results with
  | Err e => fail (Wrap "marshal evaluation results" e)
  | Panic w => lift (Panic w)
  | Ok encoded =>
    let '(score, duration, verdict) := summary results in
    transaction io id id (
      _ ← statement io 3 (Wrap "persist evaluation result")
            (insert_result jobID (mkResultRow tenantID executionID score verdict duration encoded));
      _ ← statement io 4 (Wrap "complete evaluation job")
            (update_job tenantID jobID all_statuses (λ j, Ok (done_row (io_now io) j)));
      on_base (insertOutbox io 5 0 events.EvaluationComplete jobID tenantID jobID
        [("evaluation_id", VString jobID); ("status", VString verdict);
         ("score_milli", VInt score)]))
  end.

Definition failed_row (status : JobStatus) (category : string) (permanent : bool) (now : time.Time)
  (j : JobRow) : JobRow :=
  mkJobRow (j_tenant j) (j_request j) (j_key j) (j_hash j) (j_type j) status (attempt_count j)
    (j_correlation j) (parameters j) (requested_at j) (started_at j)
    (if permanent then Some now else j_completed j) (Some category).

(** UPDATE ... RETURNING correlation_id. *)
Definition update_failed (tenantID jobID : string) (g : JobRow → JobRow) : M DB string := λ db,
  match evaluation_jobs db !! jobID with
  | Some j =>
    if j_tenant j =s tenantID
    then (Ok (j_correlation j), set_jobs (<[jobID := g j]> (evaluation_jobs db)) db)
    else (Err ErrNoRows, db)
  | None => (Err ErrNoRows, db)
  end.

Definition FailEvaluation (io : IO) (tenantID jobID category : string) (permanent : bool)
  : M DB unit :=
  let status := if permanent then DEAD_LETTERED else JFAILED in
  transaction io id id (
    correlationID ← statement io 3 id
      (update_failed tenantID jobID (failed_row status category permanent (io_now io)));
    if permanent
    then on_base (insertOutbox io 4 0 events.EvaluationFailed jobID tenantID correlationID
           [("evaluation_id", VString jobID); ("error_category", VString category)])
    else mret ()).
End Store.
End evalstore.
