(* ===== verification/Amqp.v ===== *)
(** * Amqp: the message broker

    The interface to the RabbitMQ server: what [internal/rabbitmq/rabbitmq.go]
    asks of it through the client library, as a class with the documented effects
    of each command, and a broker that satisfies them. *)

From S2P Require Import Prelude Golib.

Module amqp.

Record Publishing : Type := mkPublishing {
  MessageId : string;
  CorrelationId : string;
  Timestamp : time.Time;
  Headers : list (string * string);
  attempt_header : Z;
  Body : string
}.

(** [x-message-ttl], and [x-dead-letter-exchange] with its routing key. *)
Record QueueArgs : Type := mkQueueArgs { ttl : option Z; dead_letter : option (string * string) }.
Record Binding : Type := mkBinding { b_queue : string; b_key : string; b_exchange : string }.

Record Topology : Type := mkTopology {
  exchanges : list string;
  queues : list (string * QueueArgs);
  bindings : list Binding
}.
Definition empty_topology : Topology := mkTopology [] [] [].

(** The queues of a direct exchange bound with this key. *)
Definition routes (t : Topology) (exchange key : string) : list string :=
  b_queue <$> filter (λ b, b_exchange b = exchange ∧ b_key b = key) (bindings t).

Definition args (t : Topology) (queue : string) : option QueueArgs :=
  snd <$> List.find (λ qa, qa.1 =s queue) (queues t).

(** Where a message rejected by, or expired in, a queue goes. *)
Definition dead_routes (t : Topology) (queue : string) : list string :=
  match args t queue ≫= dead_letter with Some (x, k) => routes t x k | None => [] end.

(** What declarations do: repeating one changes nothing. *)
Definition add_new {A} (same : A → bool) (x : A) (l : list A) : list A :=
  if existsb same l then l else l ++ [x].
Definition with_exchange (x : string) (t : Topology) : Topology :=
  mkTopology (add_new (λ y, y =s x) x (exchanges t)) (queues t) (bindings t).
Definition with_queue (q : string) (a : QueueArgs) (t : Topology) : Topology :=
  mkTopology (exchanges t) (add_new (λ y, y.1 =s q) (q, a) (queues t)) (bindings t).
Definition same_binding (b c : Binding) : bool :=
  (b_queue c =s b_queue b) && (b_key c =s b_key b) && (b_exchange c =s b_exchange b).
Definition with_binding (b : Binding) (t : Topology) : Topology :=
  mkTopology (exchanges t) (queues t) (add_new (same_binding b) b (bindings t)).

(** A broker: its topology, the messages waiting in each queue, the deliveries not
    yet settled (by delivery tag: the queue and the message), the tags given out and
    the queues with a consumer; commands; and what it does by itself. *)
Class Broker (B : Type) : Type := {
  topology : B → Topology;
  queued : B → string → list Publishing;
  unacked : B → gmap N (string * Publishing);
  issued : B → gset N;
  consumed : B → gset string;
  exchange_declare : string → B → B;
  queue_declare : string → QueueArgs → B → B;
  queue_bind : Binding → B → B;
  basic_qos : Z → B → B;
  basic_consume : string → B → B;
  basic_publish : string → string → Publishing → B → B;
  basic_ack : N → B → B;
  basic_nack : N → bool → B → B;
  by_itself : B → B → Prop
}.

(** The messages stay where they are. *)
Definition same_messages `{Broker B} (b b' : B) : Prop :=
  (∀ q, queued b' q = queued b q) ∧ unacked b' = unacked b ∧ issued b' = issued b.
(** What only declarations change. *)
Definition same_setup `{Broker B} (b b' : B) : Prop :=
  topology b' = topology b ∧ consumed b' = consumed b.

(** The messages [ms] are added to the queues [qs]; the rest stays. *)
Definition enqueued `{Broker B} (b b' : B) (qs : list string) (m : Publishing) : Prop :=
  ∀ q, queued b' q ≡ₚ queued b q ++ (if decide (q ∈ qs) then [m] else []).

(** What a broker may do by itself: deliver a message of a consumed queue under a
    new tag, move an expired message where its queue says, and give a delivery
    whose consumer is gone back to its queue. *)
Inductive moved `{Broker B} (b b' : B) : Prop :=
| moved_deliver (q : string) (m : Publishing) (tag : N) :
    q ∈ consumed b →
    (∀ q', queued b' q' ++ (if decide (q' = q) then [m] else []) ≡ₚ queued b q') →
    tag ∉ issued b → issued b' = {[tag]} ∪ issued b → unacked b' = <[tag := (q, m)]> (unacked b) →
    same_setup b b' → moved b b'
| moved_expire (q : string) (m : Publishing) :
    is_Some (args (topology b) q ≫= ttl) →
    (∀ q', queued b' q' ++ (if decide (q' = q) then [m] else []) ≡ₚ
           queued b q' ++ (if decide (q' ∈ dead_routes (topology b) q) then [m] else [])) →
    issued b' = issued b → unacked b' = unacked b → same_setup b b' → moved b b'
| moved_requeue (tag : N) (q : string) (m : Publishing) :
    unacked b !! tag = Some (q, m) → unacked b' = delete tag (unacked b) →
    enqueued b b' [q] m → issued b' = issued b → same_setup b b' → moved b b'.

(** The documented effects of the commands. *)
Class Laws (B : Type) `{Broker B} : Prop := {
  exchange_declare_law x b : let b' := exchange_declare x b in
    topology b' = with_exchange x (topology b) ∧ consumed b' = consumed b ∧ same_messages b b';
  queue_declare_law q a b : let b' := queue_declare q a b in
    topology b' = with_queue q a (topology b) ∧ consumed b' = consumed b ∧ same_messages b b';
  queue_bind_law c b : let b' := queue_bind c b in
    topology b' = with_binding c (topology b) ∧ consumed b' = consumed b ∧ same_messages b b';
  qos_law n b : same_setup b (basic_qos n b) ∧ same_messages b (basic_qos n b);
  consume_law q b : let b' := basic_consume q b in
    topology b' = topology b ∧ consumed b' = {[q]} ∪ consumed b ∧ same_messages b b';
  publish_law x k m b : let b' := basic_publish x k m b in
    enqueued b b' (routes (topology b) x k) m ∧ same_setup b b' ∧ unacked b' = unacked b ∧
    issued b' = issued b;
  ack_law tag b : let b' := basic_ack tag b in
    (∀ q, queued b' q = queued b q) ∧ same_setup b b' ∧ unacked b' = delete tag (unacked b) ∧
    issued b' = issued b;
  nack_law tag (requeue : bool) b : let b' := basic_nack tag requeue b in
    same_setup b b' ∧ unacked b' = delete tag (unacked b) ∧ issued b' = issued b ∧
    match unacked b !! tag with
    | Some (q, m) => enqueued b b' (if requeue then [q] else dead_routes (topology b) q) m
    | None => ∀ q, queued b' q = queued b q
    end;
  by_itself_law b b' : by_itself b b' → moved b b'
}.
End amqp.

(** ** A broker that satisfies the laws *)

Module broker_model.
Import amqp.

Record Broker : Type := mkBroker {
  topo : Topology;
  store : gmap string (list Publishing);
  pending : gmap N (string * Publishing);
  tags : gset N;
  consumers : gset string
}.

Definition waiting (b : Broker) (q : string) : list Publishing := default [] (store b !! q).
Definition put (m : Publishing) (s : gmap string (list Publishing)) (q : string)
  : gmap string (list Publishing) := <[q := default [] (s !! q) ++ [m]]> s.
Definition put_all (qs : list string) (m : Publishing) (b : Broker) : Broker :=
  mkBroker (topo b) (foldl (put m) (store b) (remove_dups qs)) (pending b) (tags b) (consumers b).
Definition set_topo (t : Topology) (b : Broker) : Broker :=
  mkBroker t (store b) (pending b) (tags b) (consumers b).
Definition forget (tag : N) (b : Broker) : Broker :=
  mkBroker (topo b) (store b) (delete tag (pending b)) (tags b) (consumers b).
Definition nack (tag : N) (requeue : bool) (b : Broker) : Broker :=
  match pending b !! tag with
  | Some (q, m) => put_all (if requeue then [q] else dead_routes (topo b) q) m (forget tag b)
  | None => forget tag b
  end.

(** The first message of a queue is delivered; the first expires; a delivery goes
    back. *)
Definition deliver (q : string) (b : Broker) : Broker :=
  match waiting b q with
  | m :: l => let tag := fresh (tags b) in
              mkBroker (topo b) (<[q := l]> (store b)) (<[tag := (q, m)]> (pending b)) ({[tag]} ∪ tags b)
                (consumers b)
  | [] => b
  end.
Definition expire (q : string) (b : Broker) : Broker :=
  match waiting b q with
  | m :: l => put_all (dead_routes (topo b) q) m
                (mkBroker (topo b) (<[q := l]> (store b)) (pending b) (tags b) (consumers b))
  | [] => b
  end.

Definition runs (b b' : Broker) : Prop :=
  (∃ q, q ∈ consumers b ∧ waiting b q ≠ [] ∧ b' = deliver q b) ∨
  (∃ q, waiting b q ≠ [] ∧ is_Some (args (topo b) q ≫= ttl) ∧ b' = expire q b) ∨
  (∃ tag, is_Some (pending b !! tag) ∧ b' = nack tag true b).

#[global] Instance model : amqp.Broker Broker := {|
  topology := topo;
  queued := waiting;
  unacked := pending;
  issued := tags;
  consumed := consumers;
  exchange_declare := λ x b, set_topo (with_exchange x (topo b)) b;
  queue_declare := λ q a b, set_topo (with_queue q a (topo b)) b;
  queue_bind := λ c b, set_topo (with_binding c (topo b)) b;
  basic_qos := λ _ b, b;
  basic_consume := λ q b, mkBroker (topo b) (store b) (pending b) (tags b) ({[q]} ∪ consumers b);
  basic_publish := λ x k m b, put_all (routes (topo b) x k) m b;
  basic_ack := forget;
  basic_nack := nack;
  by_itself := runs
|}.

Lemma put_fold (m : Publishing) (qs : list string) (s : gmap string (list Publishing)) (q : string) :
  NoDup qs →
  default [] (foldl (put m) s qs !! q) =
  default [] (s !! q) ++ (if decide (q ∈ qs) then [m] else []).
Proof.
  intros Hnd. revert s. induction Hnd as [|x qs Hx Hnd IH]; intros s; simpl; [by rewrite app_nil_r|].
  rewrite IH. unfold put. destruct (decide (q = x)) as [->|Hne].
  - rewrite lookup_insert_eq. simpl. rewrite (decide_False (P:=x ∈ qs)) by done.
    rewrite decide_True by set_solver. by rewrite app_nil_r.
  - rewrite lookup_insert_ne by done.
    destruct (decide (q ∈ qs)), (decide (q ∈ x :: qs)); set_solver.
Qed.

Lemma put_all_waiting (qs : list string) (m : Publishing) (b : Broker) (q : string) :
  waiting (put_all qs m b) q = waiting b q ++ (if decide (q ∈ qs) then [m] else []).
Proof.
  unfold waiting, put_all. simpl. rewrite put_fold by apply NoDup_remove_dups.
  f_equal. do 2 case_decide; try done; by rewrite elem_of_remove_dups in *.
Qed.

Lemma waiting_insert (b : Broker) (q q' : string) (l : list Publishing) p t c :
  waiting (mkBroker (topo b) (<[q := l]> (store b)) p t c) q' =
  if decide (q' = q) then l else waiting b q'.
Proof.
  unfold waiting. simpl. case_decide as Hq; [subst; by rewrite lookup_insert_eq|].
  by rewrite lookup_insert_ne.
Qed.

Lemma runs_moved (b b' : Broker) : runs b b' → moved b b'.
Proof.
  intros [(q & Hc & Hq & ->)|[(q & Hq & Ht & ->)|(tag & [[q m] Hm] & ->)]].
  - unfold deliver. destruct (waiting b q) as [|m l] eqn:Hw; [done|].
    eapply (moved_deliver _ _ q m (fresh (tags b))); simpl; [done| |apply is_fresh|done..].
    intros q'. rewrite waiting_insert. case_decide as Hd; [subst q'; rewrite Hw|by rewrite app_nil_r].
    by rewrite Permutation_app_comm.
  - unfold expire. destruct (waiting b q) as [|m l] eqn:Hw; [done|].
    eapply (moved_expire _ _ q m); simpl; [done| |done..].
    intros q'. rewrite put_all_waiting, waiting_insert. cbn [topo].
    destruct (decide (q' = q)) as [->|]; [rewrite Hw|by rewrite app_nil_r].
    rewrite <- app_assoc, (Permutation_app_comm _ [m]). simpl. by rewrite <- Permutation_middle.
  - unfold nack. rewrite Hm. eapply (moved_requeue _ _ tag q m); simpl; [done..| |done|done].
    intros q'. simpl. by rewrite put_all_waiting.
Qed.

#[global] Instance model_laws : Laws Broker.
Proof.
  split; try (intros; cbn zeta; ((split; [done|split; [done|by split]]) || by split)).
  - intros x k m b. split; [|done]. intros q. simpl. by rewrite put_all_waiting.
  - intros tag r b. unfold basic_nack, unacked, topology, issued. simpl. unfold nack.
    destruct (pending b !! tag) as [[q m]|] eqn:Hp; [|done]. split_and!; [done..|].
    intros q'. simpl. by rewrite put_all_waiting.
  - apply runs_moved.
Qed.
End broker_model.
