(* ===== verification/Jobs.v ===== *)
(** * Jobs: evaluation commands, their worker and their service

    Models [internal/rabbitmq/rabbitmq.go] (module [rabbitmq]) and
    [internal/evaluationjob/service.go] (module [evaluationjob]). A handler is a
    program whose steps are the calls it makes to the database and the broker:
    between two of them other handlers may run, and it may be cut off there. *)

From S2P Require Import Prelude Golib Request Postgres Evaluators EvalStore Amqp.

(** ** Programs *)

Module prog.
(** A program on a shared state [W]: done, or an atomic step in some outside world
    and then the rest, which depends on what the step returned. *)
Inductive prog (W A : Type) : Type :=
| Ret (a : A)
| Step (X : Type) (m : IO → W → X * W) (k : X → prog W A).
Arguments Ret {W A} a.
Arguments Step {W A} X m k.

Fixpoint bind {W A B} (f : A → prog W B) (p : prog W A) : prog W B :=
  match p with
  | Ret a => f a
  | Step X m k => Step X m (λ x, bind f (k x))
  end.
#[global] Instance prog_ret {W} : MRet (prog W) := @Ret W.
#[global] Instance prog_bind {W} : MBind (prog W) := λ A B f p, bind f p.

(** A call of a method, with its outcome as a value. *)
Definition call {W A} (f : IO → M W A) : prog W (res A) := Step (res A) f Ret.

(** Run alone, the n-th step in the n-th world. *)
Fixpoint run {W A} (p : prog W A) (ios : nat → IO) (w : W) : A * W :=
  match p with
  | Ret a => (a, w)
  | Step X m k => let '(x, w) := m (ios 0%nat) w in run (k x) (λ n, ios (S n)) w
  end.
End prog.
Export prog (prog).

(** ** Package rabbitmq *)

Module rabbitmq.
Import amqp prog.

Definition MainExchange : string := "aegis.evaluation".
Definition RetryExchange : string := "aegis.evaluation.retry".
Definition DeadExchange : string := "aegis.evaluation.dlx".
Definition WorkQueue : string := "aegis.evaluation.work".
Definition RetryQueue : string := "aegis.evaluation.retry.5s".
Definition DeadQueue : string := "aegis.evaluation.dead".

Record Job : Type := mkJob {
  JobID : string;
  TenantID : string;
  ExecutionID : string;
  JobType : string;
  CorrelationID : string;
  Attempt : Z
}.

(** The worker's interface to persistence. *)
Class Store (D : Type) : Type := {
  MarkEvaluationRunning : IO → string → string → M D unit;
  LoadInput : IO → string → string → M D evaluation.Input;
  CompleteEvaluation : IO → string → string → string → list evaluation.Result → M D unit;
  FailEvaluation : IO → string → string → string → bool → M D unit
}.

(** [json.Marshal] and [json.Unmarshal] of a job, and the tracing headers. *)
Class Wire : Type := {
  encode_job : Job → res string;
  decode_job : string → res Job;
  inject : IO → list (string * string)
}.

(** What the program shares: the database, the broker, the confirmations not yet
    read from the channel of each manager, and, for the statements about it, every
    message the broker has taken so far. *)
Record World (D B : Type) : Type := mkWorld {
  db : D;
  broker : B;
  confirms : gmap N (list bool);
  accepted : list Publishing
}.
Arguments mkWorld {D B} db broker confirms accepted.
Arguments db {D B} w : rename.
Arguments broker {D B} w : rename.
Arguments confirms {D B} w : rename.
Arguments accepted {D B} w : rename.

Section Rabbit.
Context {D B : Type} `{Store D} `{Broker B} `{Wire}.
#[local] Abbreviation W := (World D B).

Definition on_db {A} (m : M D A) : M W A := λ w,
  let '(out, d) := m (db w) in (out, mkWorld d (broker w) (confirms w) (accepted w)).
Definition on_broker {A} (m : M B A) : M W A := λ w,
  let '(out, b) := m (broker w) in (out, mkWorld (db w) b (confirms w) (accepted w)).

(** *** Topology *)

(** One command, the [k]-th exchange with the broker. *)
Definition command (io : IO) (k : nat) (what : error → error) (f : B → B) : M B unit := λ b,
  match io_fault io k with Some e => (Err (what e), b) | None => (Ok (), f b) end.

Fixpoint commands (io : IO) (k : nat) (cs : list ((error → error) * (B → B))) : M B unit :=
  match cs with
  | [] => mret ()
  | (what, f) :: cs => _ ← command io k what f; commands io (S k) cs
  end.

Definition workArgs : QueueArgs := mkQueueArgs None (Some (DeadExchange, "dead")).
Definition retryArgs : QueueArgs := mkQueueArgs (Some 5000) (Some (MainExchange, "evaluate")).
Definition all_bindings : list Binding :=
  [mkBinding WorkQueue "evaluate" MainExchange; mkBinding RetryQueue "retry" RetryExchange;
   mkBinding DeadQueue "dead" DeadExchange].

Definition declarations : list ((error → error) * (B → B)) :=
  ((λ x, (Wrap ("declare exchange " +:+ x), exchange_declare x))
     <$> [MainExchange; RetryExchange; DeadExchange]) ++
  [(Wrap "declare work queue", queue_declare WorkQueue workArgs);
   (Wrap "declare retry queue", queue_declare RetryQueue retryArgs);
   (Wrap "declare dead queue", queue_declare DeadQueue (mkQueueArgs None None))] ++
  ((λ c, (Wrap ("bind queue " +:+ b_queue c), queue_bind c)) <$> all_bindings).

Definition declare (io : IO) (k : nat) : M B unit := commands io k declarations.

(** A connection (exchange 0), a channel (1), the topology (2 to 10) and confirm
    mode (11). The manager is the number of its confirmation channel. *)
Definition Connect (io : IO) : M W N :=
  _ ← on_broker (command io 0 (Wrap "connect RabbitMQ") id);
  _ ← on_broker (command io 1 (Wrap "open RabbitMQ channel") id);
  _ ← on_broker (declare io 2);
  _ ← on_broker (command io 11 (Wrap "enable RabbitMQ confirms") id);
  act (λ w, let manager := fresh (dom (confirms w)) in
            (Ok manager, mkWorld (db w) (broker w) (<[manager := []]> (confirms w)) (accepted w))).

Definition ConsumerChannel (io : IO) (prefetch : Z) : M B unit :=
  _ ← command io 0 id id;
  _ ← declare io 1;
  _ ← command io 10 (Wrap "set RabbitMQ prefetch") (basic_qos prefetch);
  command io 11 (Wrap "consume evaluation queue") (basic_consume WorkQueue).

(** The channel of the confirmations is gone, whatever the connection says (exchange
    1); deliveries that were out go back to their queues, which is the broker's doing. *)
Definition Close (io : IO) (manager : N) : M W unit := λ w,
  let w := mkWorld (db w) (broker w) (delete manager (confirms w)) (accepted w) in
  match io_fault io 1 with Some e => (Err e, w) | None => (Ok (), w) end.

(** *** Publishing *)

Definition wrap32 (x : Z) : Z := (x + 2 ^ 31) mod 2 ^ 32 - 2 ^ 31.

Definition publishing (io : IO) (job : Job) (encoded : string) : Publishing :=
  mkPublishing (ExecutionID job) (CorrelationID job) (io_now io) (inject io)
    (wrap32 (Attempt job)) encoded.

(** The exchange in which the broker answers a publication. *)
Definition refusal : nat := 20.

(** The broker takes the message (or refuses it) and confirms that on the manager's
    channel, where the call reads one confirmation unless its context is done first;
    a lost connection (fault 1) closes the channel. The manager's mutex makes this
    one step for the users of the channel. *)
Definition Publish (io : IO) (manager : N) (job : Job) (retry : bool) : M W unit := λ w,
  match encode_job job with
  | Err e => (Err (Wrap "marshal evaluation job" e), w)
  | Panic why => (Panic why, w)
  | Ok encoded =>
    let '(exchange, key) :=
      if retry then (RetryExchange, "retry") else (MainExchange, "evaluate") in
    match io_fault io 0 with
    | Some e => (Err (Wrap "publish evaluation job" e), w)
    | None =>
      let message := publishing io job encoded in
      let taken := bool_decide (io_fault io refusal = None) in
      let '(b, accepted) :=
        if taken then (basic_publish exchange key message (broker w), accepted w ++ [message])
        else (broker w, accepted w) in
      let unread := default [] (confirms w !! manager) ++
                    (match io_fault io 1 with Some _ => [] | None => [taken] end) in
      let set l := mkWorld (db w) b (<[manager := l]> (confirms w)) accepted in
      match io_ctx io 0 with
      | Some e => (Err e, set unread)
      | None =>
        match unread with
        | true :: rest => (Ok (), set rest)
        | false :: rest => (Err (New "RabbitMQ did not acknowledge publication"), set rest)
        | [] => (Err (New "RabbitMQ did not acknowledge publication"), set [])
        end
      end
    end
  end.

(** *** The worker *)

Record Worker : Type := mkWorker {
  manager : N;
  evaluators : list evaluation.evaluator;
  concurrency : Z;
  maxAttempts : Z
}.

Definition NewWorker (manager : N) (evaluators : list evaluation.evaluator)
  (concurrency maxAttempts : Z) : Worker :=
  mkWorker manager evaluators (if concurrency <=? 0 then 4 else concurrency)
    (if maxAttempts <=? 0 then 3 else maxAttempts).

(** A delivery: its tag and message. *)
Record Delivery : Type := mkDelivery { tag : N; message : Publishing }.

(** The acknowledgement may be lost on the way (fault 0); then the broker gives the
    message out again when it notices the lost channel. *)
Definition Ack (io : IO) (d : Delivery) : M B unit := command io 0 id (basic_ack (tag d)).
Definition Nack (io : IO) (d : Delivery) (requeue : bool) : M B unit :=
  command io 0 id (basic_nack (tag d) requeue).

Definition settle_ack (d : Delivery) : prog W unit :=
  _ ← call (λ io, on_broker (Ack io d)); mret ().
Definition settle_nack (d : Delivery) (requeue : bool) : prog W unit :=
  _ ← call (λ io, on_broker (Nack io d requeue)); mret ().

Definition next_attempt (job : Job) : Job :=
  mkJob (JobID job) (TenantID job) (ExecutionID job) (JobType job) (CorrelationID job)
    (wrap64 (Attempt job + 1)).

(** [_ = store.FailEvaluation(...)] and then [rest]; a panic ends the handler. *)
Definition fail_then (job : Job) (category : string) (permanent : bool) (rest : prog W unit)
  : prog W unit :=
  failed ← call (λ io, on_db (FailEvaluation io (TenantID job) (JobID job) category permanent));
  if is_panic failed then mret () else rest.

Definition retry (worker : Worker) (d : Delivery) (job : Job) (category : string) : prog W unit :=
  let job := next_attempt job in
  if maxAttempts worker <=? Attempt job then
    fail_then job category true (settle_nack d false)
  else
    published ← call (λ io, Publish io (manager worker) job true);
    match published with
    | Ok _ => fail_then job category false (settle_ack d)
    | Err _ => settle_nack d true
    | Panic _ => mret ()
    end.

(** The evaluators in order; [elapsed] are the times they take. *)
Definition evaluate_all (es : list evaluation.evaluator) (elapsed : nat → time.Duration)
  (input : evaluation.Input) : list evaluation.Result :=
  imap (λ i e, evaluation.run_evaluator e input (elapsed i)) es.

Definition malformed (job : Job) : bool :=
  (JobID job =s "") || (TenantID job =s "") || (ExecutionID job =s "").

Definition process (worker : Worker) (elapsed : nat → time.Duration) (d : Delivery) : prog W unit :=
  match decode_job (Body (message d)) with
  | Panic _ => mret ()
  | Err _ => settle_nack d false
  | Ok job =>
    if malformed job then settle_nack d false
    else
      marked ← call (λ io, on_db (MarkEvaluationRunning io (TenantID job) (JobID job)));
      match marked with
      | Panic _ => mret ()
      | Err _ => retry worker d job "database_transient"
      | Ok _ =>
        loaded ← call (λ io, on_db (LoadInput io (TenantID job) (JobID job)));
        match loaded with
        | Panic _ => mret ()
        | Err _ => retry worker d job "evaluation_source"
        | Ok input =>
          let results := evaluate_all (evaluators worker) elapsed input in
          completed ← call (λ io, on_db (CompleteEvaluation io (TenantID job) (JobID job)
                                          (ExecutionID job) results));
          match completed with
          | Panic _ => mret ()
          | Err _ => retry worker d job "database_transient"
          | Ok _ => settle_ack d
          end
        end
      end
  end.
End Rabbit.
End rabbitmq.

(** ** Package evaluationjob *)

Module evaluationjob.
Import prog evalstore.

Definition ErrNotRetryable : error :=
  Sentinel "evaluationjob.ErrNotRetryable" "evaluation job is not retryable".

Class Store (D : Type) : Type := {
  CreateOrGetEvaluation : IO → CreateEvaluationParams → M D (EvaluationJob * bool);
  GetEvaluation : IO → string → string → M D EvaluationJob;
  ListEvaluations : IO → string → Z → Z → M D (list EvaluationJob);
  MarkEvaluationQueued : IO → string → string → M D unit
}.

(** The parameters are a JSON object; a nil map is [None]. *)
Record SubmitInput : Type := mkSubmitInput {
  in_RequestID : string;
  in_JobType : string;
  in_Parameters : option (list (string * json))
}.

(** [json.Marshal] of the input and of its parameters, and SHA-256. *)
Class Hashing : Type := {
  marshal_input : SubmitInput → res string;
  marshal_parameters : option (list (string * json)) → res string;
  sha256 : string → string
}.

Section Service.
Context {D B : Type} `{Store D} `{amqp.Broker B} `{rabbitmq.Wire} `{Hashing}.
#[local] Abbreviation W := (rabbitmq.World D B).
(** The service's manager. *)
Context (publisher : N).

Definition executionID (io : IO) : string := hex.EncodeToString (take 16 (io_rand io)).

Definition with_queued (job : EvaluationJob) : EvaluationJob :=
  mkEvaluationJob (ID job) (TenantID job) (RequestID job) (IdempotencyKey job) (CanonicalHash job)
    (JobType job) "QUEUED" (AttemptCount job) (CorrelationID job) (Parameters job)
    (RequestedAt job) (StartedAt job) (CompletedAt job) (LastErrorCategory job) (Result job).

(** Build the command of a job and publish it. *)
Definition publish_command (io : IO) (job : EvaluationJob) (tenantID correlationID : string)
  : M W unit :=
  rabbitmq.Publish io publisher
    (rabbitmq.mkJob (ID job) tenantID (executionID io) (JobType job) correlationID 0) false.

(** The callers read the job only if there is no error. *)
Definition Submit (tenantID idempotencyKey correlationID : string) (input : SubmitInput)
  : prog W (res (EvaluationJob * bool)) :=
  if (in_RequestID input =s "") || (in_JobType input =s "")
  then mret (Err (New "request_id and job_type are required"))
  else
    match marshal_input input, marshal_parameters (in_Parameters input) with
    | Ok canonical, Ok parameters =>
      let p := mkCreateEvaluationParams tenantID (in_RequestID input) idempotencyKey
                 (sha256 canonical) (in_JobType input) correlationID parameters in
      created ← call (λ io, rabbitmq.on_db (CreateOrGetEvaluation io p));
      match created with
      | Ok (job, true) =>
        published ← call (λ io, publish_command io job tenantID correlationID);
        match published with
        | Ok _ =>
          queued ← call (λ io, rabbitmq.on_db (MarkEvaluationQueued io tenantID (ID job)));
          match queued with
          | Ok _ => mret (Ok (with_queued job, true))
          | Err e => mret (Err (Wrap "mark evaluation queued" e))
          | Panic w => mret (Panic w)
          end
        | Err e => mret (Err (Wrap "publish evaluation command" e))
        | Panic w => mret (Panic w)
        end
      | Ok (job, false) => mret (Ok (job, false))
      | Err e => mret (Err e)
      | Panic w => mret (Panic w)
      end
    | Err e, _ => mret (Err e)
    | Panic w, _ => mret (Panic w)
    | Ok _, Err e => mret (Err e)
    | Ok _, Panic w => mret (Panic w)
    end.

Definition Get (tenantID id : string) : prog W (res EvaluationJob) :=
  call (λ io, rabbitmq.on_db (GetEvaluation io tenantID id)).

Definition List (tenantID : string) (limit offset : Z) : prog W (res (list EvaluationJob)) :=
  call (λ io, rabbitmq.on_db (ListEvaluations io tenantID limit offset)).

Definition retryable (job : EvaluationJob) : bool :=
  (Status job =s "FAILED") || (Status job =s "DEAD_LETTERED") || (Status job =s "PENDING").

Definition Retry (tenantID id correlationID : string) : prog W (res EvaluationJob) :=
  found ← call (λ io, rabbitmq.on_db (GetEvaluation io tenantID id));
  match found with
  | Ok job =>
    if negb (retryable job) then mret (Err ErrNotRetryable)
    else
      published ← call (λ io, publish_command io job tenantID correlationID);
      match published with
      | Ok _ =>
        queued ← call (λ io, rabbitmq.on_db (MarkEvaluationQueued io tenantID id));
        match queued with
        | Ok _ => mret (Ok (with_queued job))
        | Err e => mret (Err e)
        | Panic w => mret (Panic w)
        end
      | Err e => mret (Err e)
      | Panic w => mret (Panic w)
      end
  | Err e => mret (Err e)
  | Panic w => mret (Panic w)
  end.
End Service.
End evaluationjob.

(** ** The database implements both interfaces *)

#[global] Instance evalstore_worker `{postgres.Outside} `{evalstore.Codecs}
  : rabbitmq.Store evalstore.DB := {|
  rabbitmq.MarkEvaluationRunning := evalstore.MarkEvaluationRunning;
  rabbitmq.LoadInput := evalstore.LoadInput;
  rabbitmq.CompleteEvaluation := evalstore.CompleteEvaluation;
  rabbitmq.FailEvaluation := evalstore.FailEvaluation
|}.
#[global] Instance evalstore_service `{postgres.Outside} `{evalstore.Codecs}
  : evaluationjob.Store evalstore.DB := {|
  evaluationjob.CreateOrGetEvaluation := evalstore.CreateOrGetEvaluation;
  evaluationjob.GetEvaluation := evalstore.GetEvaluation;
  evaluationjob.ListEvaluations := evalstore.ListEvaluations;
  evaluationjob.MarkEvaluationQueued := evalstore.MarkEvaluationQueued
|}.
