(* ===== verification/JobsProofs.v ===== *)
(** * JobsProofs: no evaluation command is lost

    The evaluation service, its workers, the broker and the database as one system
    of handlers that interleave at their calls and may be cut off between any two.
    Proved against the interfaces of the store ([Contract]) and the broker
    ([amqp.Laws]) by rely and guarantee: what a handler knows between two of its
    steps survives the steps of the others. *)

From S2P Require Import Prelude Golib Request Postgres Evaluators EvalStore Amqp Jobs.

(** ** Interleaved programs *)

Module pool.
Import prog.
Section Pool.
Context {W : Type} (allowed : IO → Prop) (Inv : W → Prop) (evolves : W → W → Prop).

(** Knowledge that the steps of others do not destroy. *)
Definition stable (K : W → Prop) : Prop := ∀ w w', evolves w w' → K w → K w'.

(** From a state where [K] is known, every step of the program keeps the invariant
    and evolves the state, whatever the others do in between. *)
Fixpoint ok {A} (p : prog W A) (K : W → Prop) : Prop :=
  match p with
  | Ret _ => True
  | Step X m k => ∀ io w, allowed io → Inv w → K w →
      Inv (m io w).2 ∧ evolves w (m io w).2 ∧
      ∃ K', stable K' ∧ K' (m io w).2 ∧ ok (k (m io w).1) K'
  end.

Inductive thread : Type :=
| Thread {A : Type} (p : prog W A).
Definition thread_ok (w : W) (t : thread) : Prop :=
  match t with Thread p => ∃ K, stable K ∧ K w ∧ ok p K end.

(** One step of a thread. *)
Inductive advance (io : IO) (w : W) : thread → W → thread → Prop :=
| advance_step A X m (k : X → prog W A) :
    advance io w (Thread (Step X m k)) (m io w).2 (Thread (k (m io w).1)).

Lemma advance_ok (io : IO) (w w' : W) (t t' : thread) :
  advance io w t w' t' → allowed io → Inv w → thread_ok w t →
  Inv w' ∧ evolves w w' ∧ thread_ok w' t'.
Proof.
  destruct 1 as [A X m k]. intros Hio Hw (K & HK & Hk & Hok).
  destruct (Hok io w Hio Hw Hk) as (Hi & He & K' & HK' & Hk' & Hok').
  split_and!; [done..|]. by exists K'.
Qed.

Lemma evolves_ok (w w' : W) (ts : list thread) :
  evolves w w' → Forall (thread_ok w) ts → Forall (thread_ok w') ts.
Proof.
  intros He Hts. eapply Forall_impl; [done|]. intros [A p] (K & HK & Hk & Hok).
  exists K. split_and!; [done|by eapply HK|done].
Qed.
End Pool.
End pool.

(** ** The system *)

Module system.
Import amqp prog rabbitmq pool.

(** What the system needs of the database: every method keeps its consistency
    ([good]) and only lets it grow in the order [grows], along which recorded results
    stay recorded; an evaluation that is reported complete is recorded. *)
Class Contract (D : Type) `{rabbitmq.Store D} `{evaluationjob.Store D} : Type := {
  good : D → Prop;
  grows : D → D → Prop;
  recorded : D → string → Prop;
  others : D → D → Prop;
  keeps {A} (m : M D A) : Prop := ∀ d, good d → good (m d).2 ∧ grows d (m d).2;
  grows_trans :: PreOrder grows;
  grows_recorded d d' id : grows d d' → recorded d id → recorded d' id;
  keeps_mark io t j : keeps (MarkEvaluationRunning io t j);
  keeps_load io t j : keeps (LoadInput io t j);
  keeps_complete io t j e rs : keeps (CompleteEvaluation io t j e rs);
  keeps_fail io t j c p : keeps (FailEvaluation io t j c p);
  keeps_create io p : keeps (evaluationjob.CreateOrGetEvaluation io p);
  keeps_get io t j : keeps (evaluationjob.GetEvaluation io t j);
  keeps_list io t l o : keeps (evaluationjob.ListEvaluations io t l o);
  keeps_queued io t j : keeps (evaluationjob.MarkEvaluationQueued io t j);
  keeps_others d d' : others d d' → good d → good d' ∧ grows d d';
  complete_records io t j e rs d d' u :
    good d → CompleteEvaluation io t j e rs d = (Ok u, d') → recorded d' j
}.

(** Encoding keeps the job's identifier and its attempt. *)
Class WireLaws `{Wire} : Prop := {
  encode_decode j s : encode_job j = Ok s →
    ∃ j', decode_job s = Ok j' ∧ JobID j' = JobID j ∧ Attempt j' = Attempt j
}.

Section System.
Context {D B : Type} `{Contract D} `{Laws B} `{WireLaws} `{evaluationjob.Hashing}.
#[local] Abbreviation W := (World D B).

(** The attempts of every worker are limited by [limit]. [patient] restricts the runs to
    those where no context is done while its publication is not confirmed,
    [accepting] to those where the broker refuses no message; with both false there is
    no restriction. With one of them confirmations are not mixed up ([orderly]). *)
Context (limit : Z) (patient accepting : bool).
Definition orderly : Prop := patient || accepting = true.

Definition allowed (io : IO) : Prop :=
  (patient = true → io_ctx io 0 = None) ∧ (accepting = true → io_fault io refusal = None).

(** The messages the broker has: waiting in one of the three queues, or delivered
    and not settled. *)
Definition held (b : B) (m : Publishing) : Prop :=
  (∃ q, q ∈ [WorkQueue; RetryQueue; DeadQueue] ∧ m ∈ queued b q) ∨
  (∃ tag q, unacked b !! tag = Some (q, m)).

Record Config : Type := mkConfig { world : W; threads : list (thread (W:=W)) }.

(** The topology of [declare]. *)
Definition declared : Topology :=
  mkTopology [MainExchange; RetryExchange; DeadExchange]
    [(WorkQueue, workArgs); (RetryQueue, retryArgs); (DeadQueue, mkQueueArgs None None)]
    all_bindings.

(** The system starts with a consistent database, the topology declared and no
    message. *)
Definition initial (c : Config) : Prop :=
  good (db (world c)) ∧ topology (broker (world c)) = declared ∧ consumed (broker (world c)) ⊆ {[WorkQueue]} ∧
  (∀ q, queued (broker (world c)) q = []) ∧ unacked (broker (world c)) = ∅ ∧
  confirms (world c) = ∅ ∧ accepted (world c) = [] ∧ threads c = [].

Definition set_broker (b : B) (w : W) : W := mkWorld (db w) b (confirms w) (accepted w).
Definition set_db (d : D) (w : W) : W := mkWorld d (broker w) (confirms w) (accepted w).

(** A handler takes a step; a call of the API or a delivery starts one; a handler is
    cut off; a manager is closed; the broker acts by itself; other programs use the database. *)
Inductive step : Config → Config → Prop :=
| step_thread i io t t' w w' ts :
    ts !! i = Some t → allowed io → advance io w t w' t' →
    step (mkConfig w ts) (mkConfig w' (<[i := t']> ts))
| step_submit w ts publisher tenant key correlation input :
    step (mkConfig w ts)
      (mkConfig w (Thread (evaluationjob.Submit publisher tenant key correlation input) :: ts))
| step_retry w ts publisher tenant id correlation :
    step (mkConfig w ts)
      (mkConfig w (Thread (evaluationjob.Retry publisher tenant id correlation) :: ts))
| step_read w ts tenant id limit offset :
    step (mkConfig w ts)
      (mkConfig w (Thread (evaluationjob.Get tenant id) ::
                   Thread (evaluationjob.List tenant limit offset) :: ts))
| step_process w ts worker elapsed d :
    unacked (broker w) !! tag d = Some (WorkQueue, message d) →
    maxAttempts worker <= limit →
    step (mkConfig w ts) (mkConfig w (Thread (process worker elapsed d) :: ts))
| step_crash w ts i : step (mkConfig w ts) (mkConfig w (delete i ts))
| step_close w ts io manager : step (mkConfig w ts) (mkConfig (rabbitmq.Close io manager w).2 ts)
| step_broker w ts b : by_itself (broker w) b →
    step (mkConfig w ts) (mkConfig (set_broker b w) ts)
| step_others w ts d : others (db w) d → step (mkConfig w ts) (mkConfig (set_db d w) ts).

Definition reachable (c : Config) : Prop := ∃ c0, initial c0 ∧ rtc step c0 c.

(** *** The invariant *)

(** A message that may be dropped: its job has a result, or a later attempt was
    published. *)
Definition discharged (w : W) (m : Publishing) : Prop :=
  ∃ job, decode_job (Body m) = Ok job ∧
  (recorded (db w) (JobID job) ∨
   ∃ m' job', m' ∈ accepted w ∧ decode_job (Body m') = Ok job' ∧ JobID job' = JobID job ∧
     Attempt job < Attempt job').

Record Inv (w : W) : Prop := {
  inv_good : good (db w);
  inv_topology : topology (broker w) = declared;
  inv_consumed : consumed (broker w) ⊆ {[WorkQueue]};
  inv_unacked tag q m : unacked (broker w) !! tag = Some (q, m) →
    tag ∈ issued (broker w) ∧ q = WorkQueue;
  inv_held m : held (broker w) m → m ∈ accepted w;
  inv_accepted m : orderly → m ∈ accepted w → held (broker w) m ∨ discharged w m;
  inv_attempts m : m ∈ accepted w →
    ∃ job, decode_job (Body m) = Ok job ∧ 0 <= Attempt job < limit;
  inv_patient manager l : patient = true → confirms w !! manager = Some l → l = [];
  inv_accepting manager l : accepting = true → confirms w !! manager = Some l → Forall (eq true) l
}.

(** What every step of the system does: messages are only added to the accepted
    ones, the database grows, tags are not given out twice. *)
Record evolves (w w' : W) : Prop := {
  ev_accepted m : m ∈ accepted w → m ∈ accepted w';
  ev_grows : grows (db w) (db w');
  ev_issued : issued (broker w) ⊆ issued (broker w');
  ev_unacked tag x : tag ∈ issued (broker w) →
    unacked (broker w') !! tag = Some x → unacked (broker w) !! tag = Some x
}.

(** What the handler of a delivery knows about it. *)
Definition delivered (d : Delivery) (w : W) : Prop :=
  tag d ∈ issued (broker w) ∧
  ∀ q m, unacked (broker w) !! tag d = Some (q, m) → m = message d.

Lemma ev_recorded (w w' : W) (id : string) :
  evolves w w' → recorded (db w) id → recorded (db w') id.
Proof. intros He. apply grows_recorded, (ev_grows _ _ He). Qed.

Lemma delivered_stable (d : Delivery) : stable evolves (delivered d).
Proof.
  intros w w' He [Ht Hd]. split; [by apply (ev_issued _ _ He)|].
  intros q m Hm. eapply Hd, (ev_unacked _ _ He); done.
Qed.

Lemma discharged_stable (m : Publishing) : stable evolves (λ w, discharged w m).
Proof.
  intros w w' He (job & Hj & [Hr|(m' & job' & Hm & Hd & Hid & Hlt)]); exists job; (split; [done|]).
  - left. by apply (ev_recorded _ _ _ He).
  - right. exists m', job'. split_and!; [by apply (ev_accepted _ _ He)|done..].
Qed.

Lemma stable_and (P Q : W → Prop) :
  stable evolves P → stable evolves Q → stable evolves (λ w, P w ∧ Q w).
Proof. intros HP HQ w w' He [? ?]. split; [by eapply HP|by eapply HQ]. Qed.

Lemma stable_if (P : Prop) (Q : W → Prop) : stable evolves Q → stable evolves (λ w, P → Q w).
Proof. intros HQ w w' He Hp HP. eapply HQ; [done|auto]. Qed.

Lemma evolves_refl (w : W) : evolves w w.
Proof. by split. Qed.
Lemma evolves_trans (w1 w2 w3 : W) : evolves w1 w2 → evolves w2 w3 → evolves w1 w3.
Proof.
  intros [A1 G1 I1 U1] [A2 G2 I2 U2]. split; [by auto|by etrans|set_solver|].
  intros tag x Ht Hx. auto.
Qed.

(** *** Steps of the broker *)

Lemma elem_of_extra {A} (P : Prop) `{Decision P} (m x : A) (l l' : list A) :
  l' ≡ₚ l ++ (if decide P then [m] else []) → x ∈ l' ↔ x ∈ l ∨ (P ∧ x = m).
Proof. intros ->. rewrite elem_of_app. case_decide; set_solver. Qed.

Lemma routes_work : routes declared MainExchange "evaluate" = [WorkQueue].
Proof. reflexivity. Qed.
Lemma routes_retry : routes declared RetryExchange "retry" = [RetryQueue].
Proof. reflexivity. Qed.
Lemma dead_work : dead_routes declared WorkQueue = [DeadQueue].
Proof. reflexivity. Qed.
Lemma dead_retry : dead_routes declared RetryQueue = [WorkQueue].
Proof. reflexivity. Qed.
Lemma ttl_retry (q : string) : is_Some (args declared q ≫= ttl) → q = RetryQueue.
Proof.
  unfold args, declared. cbn [queues List.find fst].
  destruct (WorkQueue =s q); [by intros [? [=]]|].
  destruct (RetryQueue =s q) eqn:Hq; [by apply String.eqb_eq in Hq|].
  destruct (DeadQueue =s q); by intros [? [=]].
Qed.

Lemma enqueued_held (b b' : B) (q : string) (m x : Publishing) :
  enqueued b b' [q] m → q ∈ [WorkQueue; RetryQueue; DeadQueue] → unacked b' = unacked b →
  held b' x ↔ held b x ∨ x = m.
Proof.
  intros He Hq Hu. unfold held. rewrite Hu.
  assert (∀ q', x ∈ queued b' q' ↔ x ∈ queued b q' ∨ q' ∈ [q] ∧ x = m) as Hx
    by (intros q'; eapply elem_of_extra; apply He). setoid_rewrite Hx. clear Hx. split.
  - intros [(q' & Hin & [Hx|[_ ->]])|Hun]; eauto.
  - intros [[(q' & Hin & Hx)|Hun]| ->]; [left; exists q'; auto|by right|].
    left. exists q. split; [done|]. right. split; [by apply list_elem_of_singleton|done].
Qed.

(** The messages held stay the same. *)
Definition keeps_held (b b' : B) : Prop := ∀ m, held b' m ↔ held b m.

Lemma moved_keeps (w : W) (b : B) : Inv w → moved (broker w) b →
  keeps_held (broker w) b ∧ same_setup (broker w) b ∧ issued (broker w) ⊆ issued b ∧
  (∀ tag q m, unacked b !! tag = Some (q, m) → tag ∈ issued b ∧ q = WorkQueue) ∧
  (∀ tag x, tag ∈ issued (broker w) → unacked b !! tag = Some x → unacked (broker w) !! tag = Some x).
Proof.
  intros Hi [q m tag Hc Hq Ht Hs Hu Hset|q m Htl Hq Hs Hu Hset|tag q m Hm Hu Hq Hs Hset].
  - assert (q = WorkQueue) as -> by (apply (inv_consumed w Hi) in Hc; set_solver).
    assert (∀ q' x, x ∈ queued (broker w) q' ↔ x ∈ queued b q' ∨ q' = WorkQueue ∧ x = m) as Hx
      by (intros; eapply elem_of_extra; first [apply Hq|symmetry; apply Hq]).
    split_and!; [|done|set_solver| |].
    + intros x. unfold held. rewrite Hu. setoid_rewrite Hx. split.
      * intros [(q & Hin & Hxq)|(t & q & Hl)]; [left; exists q; auto|].
        apply lookup_insert_Some in Hl as [[<- [= <- <-]]|[_ Hl]]; [|right; eauto].
        left. exists WorkQueue. split; [set_solver|auto].
      * intros [(q & Hin & [Hxq|[-> ->]])|(t & q & Hl)]; [left; eauto| |].
        -- right. exists tag, WorkQueue. by rewrite lookup_insert_eq.
        -- right. exists t, q. rewrite lookup_insert_ne; [done|].
           intros <-. apply (inv_unacked w Hi) in Hl as [? _]. done.
    + intros t q m'. rewrite Hu, Hs, lookup_insert_Some. intros [[<- [= <- <-]]|[_ Hl]]; [set_solver|].
      apply (inv_unacked w Hi) in Hl. set_solver.
    + intros t x Hin. rewrite Hu, lookup_insert_ne; [done|]. by intros <-.
  - rewrite (inv_topology w Hi) in *. apply ttl_retry in Htl as ->. rewrite dead_retry in Hq.
    assert (∀ q' x, (x ∈ queued b q' ∨ q' = RetryQueue ∧ x = m) ↔
                    (x ∈ queued (broker w) q' ∨ q' ∈ [WorkQueue] ∧ x = m)) as Hx.
    { intros q' x. rewrite <- (elem_of_extra (q' = RetryQueue) m x _ _ (Permutation_refl _)), Hq.
      eapply elem_of_extra. done. }
    split_and!; [|done|by rewrite Hs|rewrite Hu, Hs; apply (inv_unacked w Hi)|by rewrite Hu].
    intros x. unfold held. rewrite Hu.
    assert (x = m → ∃ q, q ∈ [WorkQueue; RetryQueue; DeadQueue] ∧ x ∈ queued b q) as Hm.
    { intros ->. exists WorkQueue. split; [set_solver|].
      destruct (Hx WorkQueue m) as [_ [?|[? _]]]; [right; set_solver|done|done]. }
    assert (x = m → ∃ q, q ∈ [WorkQueue; RetryQueue; DeadQueue] ∧ x ∈ queued (broker w) q) as Hm'.
    { intros ->. exists RetryQueue. split; [set_solver|].
      destruct (Hx RetryQueue m) as [[?|[?%list_elem_of_singleton _]] _]; [by right|done|done]. }
    split; (intros [(q & Hin & Hxq)|Hun]; [|by right]); left.
    + destruct (Hx q x) as [[?|[_ ?]] _]; [by left|by exists q|by apply Hm'].
    + destruct (Hx q x) as [_ [?|[_ ?]]]; [by left|by exists q|by apply Hm].
  - destruct (inv_unacked w Hi _ _ _ Hm) as [Htag ->].
    assert (∀ q' x, x ∈ queued b q' ↔ x ∈ queued (broker w) q' ∨ q' ∈ [WorkQueue] ∧ x = m) as Hx
      by (intros; eapply elem_of_extra; first [apply Hq|symmetry; apply Hq]).
    split_and!; [|done|by rewrite Hs| |].
    + intros x. unfold held. rewrite Hu. setoid_rewrite Hx. split.
      * intros [(q & Hin & [Hxq|[_ ->]])|(t & q & Hl)]; [left; eauto|right; eauto|].
        apply lookup_delete_Some in Hl as [_ Hl]. right. eauto.
      * intros [(q & Hin & Hxq)|(t & q & Hl)]; [left; eauto|]. destruct (decide (t = tag)) as [->|Hne].
        -- left. exists WorkQueue. rewrite Hm in Hl. injection Hl as <- <-. set_solver.
        -- right. exists t, q. by rewrite lookup_delete_ne.
    + intros t q m'. rewrite Hu, Hs, lookup_delete_Some. intros [_ Hl]. by apply (inv_unacked w Hi) in Hl.
    + intros t x _. rewrite Hu, lookup_delete_Some. by intros [_ Hl].
Qed.
(** A change of the broker that drops only messages that may be dropped. *)
Lemma change_inv (w : W) (b : B) : Inv w →
  same_setup (broker w) b → issued (broker w) ⊆ issued b →
  (∀ tag q m, unacked b !! tag = Some (q, m) → tag ∈ issued b ∧ q = WorkQueue) →
  (∀ tag x, tag ∈ issued (broker w) → unacked b !! tag = Some x → unacked (broker w) !! tag = Some x) →
  (∀ m, held b m → held (broker w) m) →
  (∀ m, orderly → held (broker w) m → held b m ∨ discharged w m) →
  Inv (set_broker b w) ∧ evolves w (set_broker b w).
Proof.
  intros [] [Ht Hc] Hs Hu Hm Hh Hd. split; split; simpl; try done.
  - by rewrite Ht.
  - by rewrite Hc.
  - auto.
  - intros m Hc' Hin. destruct (inv_accepted0 m Hc' Hin) as [Hold|Hdis]; [|by right]. by apply Hd in Hold.
Qed.

Lemma moved_inv (w : W) (b : B) :
  Inv w → moved (broker w) b → Inv (set_broker b w) ∧ evolves w (set_broker b w).
Proof.
  intros Hi Hm. destruct (moved_keeps w b Hi Hm) as (Hk & Hset & Hs & Hu & Hmono).
  apply change_inv; try done; intros m Hh; [by apply Hk|left; by apply Hk].
Qed.

(** After a delivery is settled it is not pending any more. *)
Lemma settle_unacked (w : W) (b : B) (t : N) : Inv w →
  unacked b = delete t (unacked (broker w)) → issued b = issued (broker w) →
  (∀ tag q m, unacked b !! tag = Some (q, m) → tag ∈ issued b ∧ q = WorkQueue) ∧
  (∀ tag x, tag ∈ issued (broker w) → unacked b !! tag = Some x → unacked (broker w) !! tag = Some x).
Proof.
  intros Hi Hu Hs. rewrite Hu, Hs. split.
  - intros tag q m [_ Hl]%lookup_delete_Some. by apply (inv_unacked w Hi) in Hl.
  - intros tag x _ [_ Hl]%lookup_delete_Some. done.
Qed.

Lemma ack_inv (w : W) (d : Delivery) : Inv w → delivered d w → (orderly → discharged w (message d)) →
  let b := basic_ack (tag d) (broker w) in Inv (set_broker b w) ∧ evolves w (set_broker b w).
Proof.
  intros Hi [Ht Hd] Hdis b. destruct (ack_law (tag d) (broker w)) as (Hq & Hset & Hu & Hs).
  destruct (settle_unacked w b (tag d) Hi Hu Hs) as [Hwf Hmono].
  apply change_inv; [done|done|by unfold b; rewrite Hs|done|done| |]; unfold held, b.
  - intros m [(q & Hin & Hm)|(t & q & Hl)]; [left; exists q; by rewrite Hq in Hm|right].
    rewrite Hu, lookup_delete_Some in Hl. exists t, q. apply Hl.
  - intros m Hc [(q & Hin & Hm)|(t & q & Hl)]; [left; left; exists q; by rewrite Hq|].
    destruct (decide (t = tag d)) as [->|Hne]; [right; rewrite (Hd _ _ Hl); by apply Hdis|].
    left. right. exists t, q. by rewrite Hu, lookup_delete_ne.
Qed.

Lemma nack_inv (w : W) (d : Delivery) (requeue : bool) : Inv w → delivered d w →
  let b := basic_nack (tag d) requeue (broker w) in
  Inv (set_broker b w) ∧ evolves w (set_broker b w).
Proof.
  intros Hi [Ht Hd] b. destruct (nack_law (tag d) requeue (broker w)) as (Hset & Hu & Hs & Hq).
  destruct (settle_unacked w b (tag d) Hi Hu Hs) as [Hwf Hmono].
  assert (∀ t q m, unacked b !! t = Some (q, m) → unacked (broker w) !! t = Some (q, m)) as Hsub.
  { intros t q m. unfold b. rewrite Hu, lookup_delete_Some. tauto. }
  apply change_inv; [done|done|by unfold b; rewrite Hs|done|done| |]; unfold held.
  - intros m [(q & Hin & Hm)|(t & q & Hl)]; [|right; exists t, q; by apply Hsub].
    unfold b in Hm. destruct (unacked (broker w) !! tag d) as [[q' m']|] eqn:Hl.
    + apply (elem_of_extra _ _ m _ _ (Hq q)) in Hm as [Hm|[_ ->]]; [left; eauto|right; eauto].
    + rewrite Hq in Hm. left. eauto.
  - intros m _ Hold. left. destruct (unacked (broker w) !! tag d) as [[q' m']|] eqn:Hl.
    + destruct (inv_unacked w Hi _ _ _ Hl) as [_ ->].
      assert (∀ q, m ∈ queued b q ↔ m ∈ queued (broker w) q ∨
        q ∈ (if requeue then [WorkQueue] else dead_routes (topology (broker w)) WorkQueue) ∧ m = m') as Hx.
      { intros q. eapply elem_of_extra. apply Hq. }
      destruct Hold as [(q & Hin & Hm)|(t & q & Hl')]; [left; exists q; split; [done|]; apply Hx; by left|].
      destruct (decide (t = tag d)) as [->|Hne]; [|right; exists t, q; unfold b; by rewrite Hu, lookup_delete_ne].
      rewrite Hl in Hl'. injection Hl' as <- <-. left.
      rewrite (inv_topology w Hi), dead_work in Hx. exists (if requeue then WorkQueue else DeadQueue).
      split; [destruct requeue; set_solver|]. apply Hx. right. destruct requeue; set_solver.
    + destruct Hold as [(q & Hin & Hm)|(t & q & Hl')]; [left; exists q; unfold b; by rewrite Hq|].
      right. exists t, q. unfold b. rewrite Hu, lookup_delete_ne; [done|]. intros <-. congruence.
Qed.

Lemma set_db_inv (w : W) (d : D) : Inv w → good d → grows (db w) d →
  Inv (set_db d w) ∧ evolves w (set_db d w).
Proof.
  intros Hi Hg Hr.
  assert (evolves w (set_db d w)) as He by by split.
  split; [|done]. destruct Hi. split; simpl; try done.
  intros m Hc Hm. destruct (inv_accepted0 m Hc Hm) as [?|Hdis]; [by left|right].
  by apply (discharged_stable m w).
Qed.

(** *** Publishing *)

(** A job of this identifier and attempt has been handed to the broker. *)
Definition published (job : Job) (w : W) : Prop :=
  ∃ m job', m ∈ accepted w ∧ decode_job (Body m) = Ok job' ∧ JobID job' = JobID job ∧
    Attempt job' = Attempt job.

Lemma published_stable (job : Job) : stable evolves (published job).
Proof.
  intros w w' He (m & job' & Hm & Hrest). exists m, job'. split; [by apply (ev_accepted _ _ He)|done].
Qed.
(** The confirmations left in a channel. *)
Definition confirms_ok (l : list bool) : Prop :=
  (patient = true → l = []) ∧ (accepting = true → Forall (eq true) l).

Lemma set_confirms_inv (w : W) (manager : N) (l : list bool) : Inv w → confirms_ok l →
  let w' := mkWorld (db w) (broker w) (<[manager := l]> (confirms w)) (accepted w) in
  Inv w' ∧ evolves w w'.
Proof.
  intros [] [Hp Ha]. split; [|by split]. split; simpl; try done.
  - intros k l' Hpat [[_ <-]|[_ Hl]]%lookup_insert_Some; [auto|eauto].
  - intros k l' Hacc [[_ <-]|[_ Hl]]%lookup_insert_Some; [auto|eauto].
Qed.

Lemma close_inv (io : IO) (w : W) (manager : N) : Inv w →
  let w' := (rabbitmq.Close io manager w).2 in Inv w' ∧ evolves w w'.
Proof.
  intros [] w'. assert (w' = mkWorld (db w) (broker w) (delete manager (confirms w)) (accepted w)) as ->
    by (unfold w', rabbitmq.Close; by destruct (io_fault io 1)).
  split; [|by split]. split; simpl; try done;
    intros k l' Hc [_ Hl]%lookup_delete_Some; eauto.
Qed.

Lemma take_inv (w : W) (exchange key q : string) (m : Publishing) (job : Job) :
  Inv w → routes declared exchange key = [q] → q ∈ [WorkQueue; RetryQueue; DeadQueue] →
  decode_job (Body m) = Ok job → 0 <= Attempt job < limit →
  let w' := mkWorld (db w) (basic_publish exchange key m (broker w)) (confirms w) (accepted w ++ [m]) in
  Inv w' ∧ evolves w w'.
Proof.
  intros Hi Hr Hq Hj Hatt w'.
  destruct (publish_law exchange key m (broker w)) as (He & [Ht Hc] & Hu & Hs).
  rewrite (inv_topology w Hi), Hr in He.
  pose proof (λ x, enqueued_held _ _ _ _ x He Hq Hu) as Hh.
  assert (evolves w w') as Hev.
  { split; simpl; [set_solver|done|by rewrite Hs|by rewrite Hu]. }
  split; [|done]. destruct Hi. split; simpl; try done.
  - by rewrite Ht.
  - by rewrite Hc.
  - by rewrite Hu, Hs.
  - intros x [Hx| ->]%Hh; [set_solver|set_solver].
  - intros x Hord [Hx|Hx]%elem_of_app.
    + destruct (inv_accepted0 x Hord Hx) as [?|Hd]; [left; by apply Hh; left|right].
      by apply (discharged_stable x w).
    + left. apply Hh. right. set_solver.
  - intros x [Hx|Hx%list_elem_of_singleton]%elem_of_app; [auto|]. subst x. by exists job.
Qed.

Lemma confirms_head (w : W) (manager : N) : Inv w →
  confirms_ok (default [] (confirms w !! manager)).
Proof.
  intros Hi. split; intros Hx; (destruct (confirms w !! manager) as [l|] eqn:Hl; [|done]); simpl.
  - by eapply inv_patient.
  - by eapply inv_accepting.
Qed.

(** A publication reads its confirmation, or is cut off before. *)
Lemma read_inv (w w1 : W) (manager : N) (l : list bool) (ctx : option error) (taken : bool) (e : error) :
  Inv w1 → evolves w w1 →
  (patient = true → ctx = None ∧ (l = [] ∨ l = [taken])) → (accepting = true → Forall (eq true) l) →
  let set l := mkWorld (db w1) (broker w1) (<[manager := l]> (confirms w1)) (accepted w1) in
  let r : res unit * W :=
    match ctx with
    | Some e' => (Err e', set l)
    | None => match l with
              | true :: rest => (Ok (), set rest)
              | false :: rest => (Err e, set rest)
              | [] => (Err e, set [])
              end
    end in
  Inv r.2 ∧ evolves w r.2 ∧ accepted r.2 = accepted w1 ∧ (r.1 = Ok () → patient = true → taken = true).
Proof.
  intros Hi He Hp Ha set r.
  assert (∀ l, confirms_ok l → Inv (set l) ∧ evolves w (set l)) as Hset.
  { intros l' Hl. destruct (set_confirms_inv w1 manager l' Hi Hl) as [Hi2 He2]. split; [done|].
    by eapply evolves_trans. }
  destruct ctx as [e'|]; [|destruct l as [|b rest]]; subst r; simpl.
  - destruct (Hset l) as [? ?]; [split; [|done]|by split_and!]. intros Hx. by destruct (Hp Hx).
  - destruct (Hset []) as [? ?]; [split; [done|constructor]|by split_and!].
  - destruct (Hset rest) as [? ?].
    { split; intros Hx; [destruct (Hp Hx) as [_ [?|?]]; congruence|].
      by apply Ha, Forall_cons in Hx as [_ ?]. }
    destruct b; split_and!; try done. intros _ Hx. destruct (Hp Hx) as [_ [?|?]]; congruence.
Qed.

Lemma Publish_inv (io : IO) (w : W) (manager : N) (job : Job) (again : bool) :
  allowed io → Inv w → 0 <= Attempt job < limit →
  let r := Publish io manager job again w in
  Inv r.2 ∧ evolves w r.2 ∧ (r.1 = Ok () → orderly → published job r.2).
Proof.
  intros [Hctx Href] Hi Hatt. unfold Publish.
  destruct (encode_job job) as [s|?|?] eqn:Henc; [|split_and!; [done|apply evolves_refl|done]..].
  destruct (encode_decode _ _ Henc) as (job' & Hdec & Hid & Hat).
  set (q := if again then RetryQueue else WorkQueue).
  destruct (if again then (RetryExchange, "retry") else (MainExchange, "evaluate")) as [exchange key] eqn:Hex.
  assert (routes declared exchange key = [q]) as Hr by (subst q; destruct again; by simplify_eq).
  destruct (io_fault io 0); [split_and!; [done|apply evolves_refl|done]|].
  set (m := publishing io job s). destruct (confirms_head w manager Hi) as [Hp Ha].
  set (unread := default [] (confirms w !! manager)) in *.
  assert (∀ taken, patient = true →
    io_ctx io 0 = None ∧ (unread ++ (match io_fault io 1 with Some _ => [] | None => [taken] end) = [] ∨
      unread ++ (match io_fault io 1 with Some _ => [] | None => [taken] end) = [taken])) as Hone.
  { intros taken Hx. split; [auto|]. rewrite (Hp Hx). destruct (io_fault io 1); auto. }
  case_bool_decide as Htaken.
  - destruct (take_inv w exchange key q m job' Hi Hr) as [Hi' He'];
      [subst q; destruct again; set_solver|done|lia|].
    edestruct (read_inv w _ manager (unread ++ (match io_fault io 1 with Some _ => [] | None => [true] end))
      (io_ctx io 0) true (New "RabbitMQ did not acknowledge publication") Hi' He') as (HI & HE & Hacc & _);
      [auto| |split_and!; [exact HI|exact HE|]].
    { intros Hx. apply Forall_app. split; [auto|]. destruct (io_fault io 1); by repeat constructor. }
    intros _ _. exists m, job'. split_and!; [|done..]. simpl in Hacc. rewrite Hacc. set_solver.
  - edestruct (read_inv w w manager (unread ++ (match io_fault io 1 with Some _ => [] | None => [false] end))
      (io_ctx io 0) false (New "RabbitMQ did not acknowledge publication") Hi (evolves_refl w))
      as (HI & HE & _ & Hok); [auto|intros Hx; by specialize (Href Hx)|split_and!; [exact HI|exact HE|]].
    intros Hr1 [Hx|Hx]%orb_true_iff; [by specialize (Hok Hr1 Hx)|by specialize (Href Hx)].
Qed.

(** *** The handlers *)

Section Handlers.
Context (Hlimit : 0 < limit <= int64_max).

#[local] Abbreviation ok_ := (ok allowed Inv evolves).

(** A call to the database that keeps what is recorded, and then the rest. *)
Lemma on_db_ok {A R} (f : IO → M D A) (k : res A → prog W R) (K : W → Prop) :
  (∀ io, keeps (f io)) → stable evolves K →
  (∀ r d, (∃ io d0, good d0 ∧ f io d0 = (r, d)) → ok_ (k r) (λ w, K w ∧ ∃ w0, db w0 = d ∧ evolves w0 w)) →
  ok_ (call (λ io, on_db (f io)) ≫= k) K.
Proof.
  intros Hf HK Hk io w Hio Hi Hw. unfold on_db. destruct (f io (db w)) as [r d] eqn:Hrun. simpl.
  pose proof (inv_good w Hi) as Hgood. destruct (Hf io (db w) Hgood) as [Hg Hgr]. rewrite Hrun in Hg, Hgr.
  destruct (set_db_inv w d Hi Hg Hgr) as [Hi' He]. split_and!; [done..|].
  exists (λ w', K w' ∧ ∃ w0, db w0 = d ∧ evolves w0 w'). split_and!.
  - intros w1 w2 He' [HK1 (w0 & Hd & He0)]. split; [by eapply HK|]. exists w0. split; [done|].
    by eapply evolves_trans.
  - by eapply HK.
  - by exists (set_db d w).
  - apply Hk. by exists io, (db w).
Qed.

Lemma ok_mono {A} (p : prog W A) (K K' : W → Prop) :
  (∀ w, K w → K' w) → ok_ p K' → ok_ p K.
Proof. destruct p as [a|X m k]; simpl; [done|]. intros HK Hok io w Hio Hi Hw. auto. Qed.

Lemma settle_ack_ok (d : Delivery) :
  ok_ (settle_ack d) (λ w, delivered d w ∧ (orderly → discharged w (message d))).
Proof.
  intros io w Hio Hi [Hd Hdis]. unfold on_broker, Ack, command.
  destruct (io_fault io 0); simpl.
  - destruct w. split_and!; [done|by split|]. by exists (λ _, True).
  - destruct (ack_inv w d Hi Hd Hdis). split_and!; [done..|]. by exists (λ _, True).
Qed.

Lemma settle_nack_ok (d : Delivery) (requeue : bool) : ok_ (settle_nack d requeue) (delivered d).
Proof.
  intros io w Hio Hi Hd. unfold on_broker, Nack, command. destruct (io_fault io 0); simpl.
  - destruct w. split_and!; [done|by split|]. by exists (λ _, True).
  - destruct (nack_inv w d requeue Hi Hd). split_and!; [done..|]. by exists (λ _, True).
Qed.

Lemma fail_then_ok (job : Job) (category : string) (permanent : bool) (rest : prog W unit)
  (K : W → Prop) : stable evolves K → ok_ rest K → ok_ (fail_then job category permanent rest) K.
Proof.
  intros HK Hok. unfold fail_then. apply on_db_ok; [intros; apply keeps_fail|done|].
  intros r d _. destruct (is_panic r); [done|]. eapply ok_mono; [|done]. by intros w [? _].
Qed.

(** A step that publishes a job whose attempt is within the limit. *)
Lemma publish_ok {R} (manager : N) (job : IO → Job) (again : bool) (id : string)
  (k : res unit → prog W R) (K : W → Prop) :
  (∀ io, JobID (job io) = id ∧ 0 <= Attempt (job io) < limit) → stable evolves K →
  (∀ n, (∀ io, Attempt (job io) = n) →
    ok_ (k (Ok ())) (λ w, K w ∧ (orderly → ∃ m job', m ∈ accepted w ∧ decode_job (Body m) = Ok job' ∧
                                JobID job' = id ∧ Attempt job' = n))) →
  (∀ io io', Attempt (job io) = Attempt (job io')) →
  (∀ r, r ≠ Ok () → ok_ (k r) K) →
  ok_ (call (λ io, Publish io manager (job io) again) ≫= k) K.
Proof.
  intros Hj HK Hok Hsame Herr io w Hio Hi Hw. destruct (Hj io) as [Hid Hatt].
  destruct (Publish_inv io w manager (job io) again Hio Hi Hatt) as (Hi' & He & Hpub).
  split_and!; [done..|]. destruct (Publish io manager (job io) again w) as [r w']. simpl in *.
  destruct r as [[]|e|e].
  - exists (λ w, K w ∧ (orderly → published (job io) w)). split_and!.
    + apply stable_and; [done|]. apply stable_if, published_stable.
    + by eapply HK.
    + by apply Hpub.
    + eapply ok_mono; [|apply (Hok (Attempt (job io))); intros; apply Hsame].
      intros w2 [HK2 Hp]. split; [done|]. intros Hord.
      destruct (Hp Hord) as (m & job' & Hm & Hd & Hid' & Ha). exists m, job'. by rewrite <- Hid.
  - exists K. split_and!; [done|by eapply HK|by apply Herr].
  - exists K. split_and!; [done|by eapply HK|by apply Herr].
Qed.

Lemma retry_ok (worker : Worker) (d : Delivery) (job : Job) (category : string) :
  decode_job (Body (message d)) = Ok job → 0 <= Attempt job < limit → maxAttempts worker <= limit →
  ok_ (retry worker d job category) (delivered d).
Proof.
  intros Hj Hatt Hmax. unfold retry.
  assert (Attempt (next_attempt job) = Attempt job + 1) as Hnext.
  { simpl. apply wrap64_id. unfold in_int64, int64_min, int64_max in *. lia. }
  destruct (Z.leb_spec (maxAttempts worker) (Attempt (next_attempt job))) as [Hlast|Hlast].
  - apply fail_then_ok; [apply delivered_stable|apply settle_nack_ok].
  - apply (publish_ok _ (λ _, next_attempt job) _ (JobID job)); [|apply delivered_stable| |done|].
    + intros _. split; [done|lia].
    + intros n Hn. apply fail_then_ok.
      * apply stable_and; [apply delivered_stable|]. apply stable_if.
        intros w w' He (m & job' & Hm & Hrest). exists m, job'.
        split; [by apply (ev_accepted _ _ He)|done].
      * eapply ok_mono; [|apply settle_ack_ok].
        intros w [Hd Hp]. split; [done|]. intros Hord.
        destruct (Hp Hord) as (m & job' & Hm & Hdec & Hid & Ha). exists job. split; [done|].
        right. exists m, job'. split_and!; [done..|]. rewrite Ha, <- (Hn (quiet 0 [])), Hnext. lia.
    + intros [[]|e|e] Hr; [done|apply settle_nack_ok|done].
Qed.

Lemma process_ok (worker : Worker) (elapsed : nat → time.Duration) (d : Delivery) (job : Job) :
  decode_job (Body (message d)) = Ok job → 0 <= Attempt job < limit → maxAttempts worker <= limit →
  ok_ (process worker elapsed d) (delivered d).
Proof.
  intros Hj Hatt Hmax. unfold process. rewrite Hj.
  destruct (malformed job); [apply settle_nack_ok|].
  assert (∀ category, ok_ (retry worker d job category) (delivered d)) as Hretry.
  { intros. by apply retry_ok. }
  apply on_db_ok; [intros; apply keeps_mark|apply delivered_stable|].
  intros r1 d1 _. eapply (ok_mono _ _ (delivered d)); [by intros w [? _]|].
  destruct r1 as [[]|e|e]; [|done|done].
  apply on_db_ok; [intros; apply keeps_load|apply delivered_stable|].
  intros r2 d2 _. eapply (ok_mono _ _ (delivered d)); [by intros w [? _]|].
  destruct r2 as [input|e|e]; [|done|done].
  apply on_db_ok; [intros; apply keeps_complete|apply delivered_stable|].
  intros r3 d3 (io & d0 & Hgood & Hrun).
  destruct r3 as [u|e|e]; [|eapply (ok_mono _ _ (delivered d)); [by intros w [? _]|done]|done].
  apply complete_records in Hrun; [|done]. eapply ok_mono; [|apply settle_ack_ok].
  intros w [Hd (w0 & <- & He)]. split; [done|]. intros _. exists job. split; [done|].
  left. by apply (ev_recorded _ _ _ He).
Qed.
Lemma true_stable : stable evolves (λ _ : W, True).
Proof. done. Qed.

(** Publishing a first command. *)
Lemma command_ok {R} (publisher : N) (job : evalstore.EvaluationJob) (tenant correlation : string)
  (k : res unit → prog W R) :
  (∀ r, ok_ (k r) (λ _, True)) →
  ok_ (call (λ io, evaluationjob.publish_command publisher io job tenant correlation) ≫= k)
    (λ _, True).
Proof.
  intros Hk. unfold evaluationjob.publish_command.
  apply (publish_ok publisher (λ io, mkJob (evalstore.ID job) tenant (evaluationjob.executionID io)
    (evalstore.JobType job) correlation 0) false (evalstore.ID job)); [|done| |done|auto].
  - intros io. simpl. split; [done|lia].
  - intros n _. eapply ok_mono; [|apply Hk]. done.
Qed.

Lemma db_ok {A R} (f : IO → M D A) (k : res A → prog W R) :
  (∀ io, keeps (f io)) → (∀ r, ok_ (k r) (λ _, True)) →
  ok_ (call (λ io, on_db (f io)) ≫= k) (λ _, True).
Proof.
  intros Hf Hk. apply on_db_ok; [done|done|]. intros r d _. eapply ok_mono; [|apply Hk]. done.
Qed.

Lemma Submit_ok (publisher : N) (tenant key correlation : string) (input : evaluationjob.SubmitInput) :
  ok_ (evaluationjob.Submit publisher tenant key correlation input) (λ _, True).
Proof.
  unfold evaluationjob.Submit. destruct ((evaluationjob.in_RequestID input =s "") || (evaluationjob.in_JobType input =s "")); [done|].
  destruct (evaluationjob.marshal_input input); [|done..].
  destruct (evaluationjob.marshal_parameters _); [|done..].
  apply db_ok; [intros; apply keeps_create|]. intros [[job []]|e|e]; [|done..].
  apply command_ok. intros [[]|e|e]; [|done..].
  apply db_ok; [intros; apply keeps_queued|]. by intros [[]|e|e].
Qed.

Lemma Retry_ok (publisher : N) (tenant id correlation : string) :
  ok_ (evaluationjob.Retry publisher tenant id correlation) (λ _, True).
Proof.
  unfold evaluationjob.Retry. apply db_ok; [intros; apply keeps_get|].
  intros [job|e|e]; [|done..]. destruct (negb _); [done|].
  apply command_ok. intros [[]|e|e]; [|done..].
  apply db_ok; [intros; apply keeps_queued|]. by intros [[]|e|e].
Qed.

(** *** The system *)

Definition config_ok (c : Config) : Prop :=
  Inv (world c) ∧ Forall (thread_ok allowed Inv evolves (world c)) (threads c).

Lemma initial_ok (c : Config) : initial c → config_ok c.
Proof.
  intros (Hg & Ht & Hc & Hq & Hu & Hcf & Ha & Hth). split; [|rewrite Hth; constructor].
  assert (∀ m, ¬ held (broker (world c)) m) as Hno.
  { intros m [(q & _ & Hm)|(t & q & Hm)]; [rewrite Hq in Hm; set_solver|].
    rewrite Hu in Hm. by apply lookup_empty_Some in Hm. }
  split; rewrite ?Hu, ?Ha, ?Hcf; try done.
  - intros m Hm. by apply Hno in Hm.
  - set_solver.
  - set_solver.
Qed.

Lemma new_thread_ok {A} (w : W) (p : prog W A) (K : W → Prop) (ts : list thread) :
  stable evolves K → K w → ok_ p K → Inv w → Forall (thread_ok allowed Inv evolves w) ts →
  config_ok (mkConfig w (Thread p :: ts)).
Proof. intros HK Hw Hok Hi Hts. split; [done|]. constructor; [by exists K|done]. Qed.

Lemma evolve_config (w w' : W) (ts : list thread) :
  Inv w' ∧ evolves w w' → Forall (thread_ok allowed Inv evolves w) ts →
  config_ok (mkConfig w' ts) ∧ evolves w w'.
Proof. intros [Hi He] Hts. split; [|done]. split; [done|]. by eapply evolves_ok. Qed.

Lemma step_ok (c c' : Config) :
  step c c' → config_ok c → config_ok c' ∧ evolves (world c) (world c').
Proof.
  intros Hs [Hi Hts]. destruct Hs as [i io t t' w w' ts Hl Hio Ha|w ts pub tn key corr input
    |w ts pub tn id corr|w ts tn id l o|w ts worker elapsed d Hu Hmax|w ts i|w ts io manager|w ts b Hb|w ts d Ho];
    simpl in *.
  - assert (thread_ok allowed Inv evolves w t) as Ht by (by eapply Forall_lookup_1).
    destruct (advance_ok _ _ _ _ _ _ _ _ Ha Hio Hi Ht) as (Hi' & He & Ht').
    split; [|done]. split; [done|]. simpl. apply Forall_insert; [by eapply evolves_ok|done].
  - split; [|apply evolves_refl].
    by eapply new_thread_ok; [apply true_stable|done|apply Submit_ok|..].
  - split; [|apply evolves_refl].
    by eapply new_thread_ok; [apply true_stable|done|apply Retry_ok|..].
  - split; [|apply evolves_refl]. eapply new_thread_ok; [apply true_stable|done| |done|].
    + apply (db_ok (λ io, evaluationjob.GetEvaluation io tn id) Ret); [intros; apply keeps_get|done].
    + constructor; [|done]. exists (λ _, True). split_and!; [done..|].
      apply (db_ok (λ io, evaluationjob.ListEvaluations io tn l o) Ret); [intros; apply keeps_list|done].
  - destruct (inv_unacked w Hi _ _ _ Hu) as [Htag _].
    destruct (inv_attempts w Hi (message d)) as (job & Hj & Hatt).
    { apply (inv_held w Hi). right. eauto. }
    split; [|apply evolves_refl].
    eapply new_thread_ok; [apply (delivered_stable d)| |by eapply process_ok|done..].
    split; [done|]. intros q m Hm. rewrite Hu in Hm. by injection Hm as _ <-.
  - split; [|apply evolves_refl]. split; [done|]. simpl. by apply Forall_delete.
  - eapply evolve_config; [|done]. by apply close_inv.
  - eapply evolve_config; [|done]. apply moved_inv; [done|]. by apply by_itself_law.
  - eapply evolve_config; [|done]. destruct (keeps_others _ _ Ho (inv_good w Hi)).
    by apply set_db_inv.
Qed.

Lemma steps_ok (c c' : Config) :
  rtc step c c' → config_ok c → config_ok c' ∧ evolves (world c) (world c').
Proof.
  induction 1 as [c|c1 c2 c3 Hs _ IH]; intros Hc; [split; [done|apply evolves_refl]|].
  destruct (step_ok _ _ Hs Hc) as [Hc2 He]. destruct (IH Hc2). split; [done|].
  by eapply evolves_trans.
Qed.

Lemma reachable_ok (c : Config) : reachable c → config_ok c.
Proof. intros (c0 & Hc0 & Hr). eapply steps_ok; [done|]. by apply initial_ok. Qed.

(** A message taken by the broker leads, over later attempts, to a message the broker
    still has or to a recorded result. *)
Lemma accepted_live (w : W) (m : Publishing) (job : Job) :
  orderly → Inv w → m ∈ accepted w → decode_job (Body m) = Ok job →
  recorded (db w) (JobID job) ∨
  ∃ m' job', held (broker w) m' ∧ decode_job (Body m') = Ok job' ∧ JobID job' = JobID job.
Proof.
  intros Hord Hi. remember (Z.to_nat (limit - Attempt job)) as n eqn:Hn.
  revert m job Hn. induction (lt_wf n) as [n _ IH]. intros m job Hn Hm Hj.
  destruct (inv_accepted w Hi m Hord Hm) as [Hh|(job1 & Hj1 & Hd)]; [right; eauto|].
  rewrite Hj in Hj1. injection Hj1 as <-.
  destruct Hd as [Hr|(m' & job' & Hm' & Hj' & Hid & Hlt)]; [by left|].
  destruct (inv_attempts w Hi m' Hm') as (job2 & Hj2 & Ha2). rewrite Hj' in Hj2. injection Hj2 as <-.
  rewrite <- Hid. eapply (IH (Z.to_nat (limit - Attempt job'))); [lia|done|done|done].
Qed.

(** C7 (safety): no evaluation command is lost. In every reachable state of services,
    workers, broker and database, with any interleaving, crashes at any point, lost
    acknowledgements, failing publications and failing database calls: a command the
    broker has ever taken has its result recorded, or the broker still has a message
    for the same job (waiting, in retry, being processed or dead-lettered). The
    confirmations of publications must not be mixed up: either contexts are not done
    while a publication is unconfirmed, or the broker refuses none. *)
Theorem no_command_lost (c : Config) (m : Publishing) (job : Job) :
  patient || accepting = true → reachable c → m ∈ accepted (world c) → decode_job (Body m) = Ok job →
  recorded (db (world c)) (JobID job) ∨
  ∃ m' job', held (broker (world c)) m' ∧ decode_job (Body m') = Ok job' ∧ JobID job' = JobID job.
Proof. intros Hord Hc. apply accepted_live; [done|]. by apply reachable_ok in Hc as [? _]. Qed.

(** C9 (bounds): attempts are bounded. In every reachable state every message the broker
    has ever taken, and so every message it has, carries an attempt below the limit
    of the workers: a command is published at most that many times in a row. This holds
    in every run, also when contexts end during a publication and the broker refuses
    messages. *)
Theorem attempts_bounded (c : Config) (m : Publishing) :
  reachable c → held (broker (world c)) m ∨ m ∈ accepted (world c) →
  ∃ job, decode_job (Body m) = Ok job ∧ 0 <= Attempt job < limit.
Proof.
  intros [Hi _]%reachable_ok [Hh|Ha]; apply (inv_attempts _ Hi); [by apply (inv_held _ Hi)|done].
Qed.
End Handlers.
End System.
End system.
