(* ===== verification/EvalProofs.v ===== *)
(** * EvalProofs: the evaluation tables keep the contract

    Every method of [EvalStore] keeps the tables consistent and never changes what
    identifies a job or a stored result; so the theorems of [JobsProofs] hold on it.
    Also here: idempotent creation of jobs, and concrete runs. *)

From S2P Require Import Prelude Golib Request Store Outbox AuditTrail Postgres Evaluators EvalStore Amqp Jobs JobsProofs.

Module evalspec.
Import persistence postgres evalstore.

Section Spec.
Context `{Outside} `{Codecs}.

(** The constraints of the tables, and that a completed job has a result. *)
Record good (d : DB) : Prop := {
  good_result id r : evaluation_results d !! id = Some r →
    is_Some (evaluation_jobs d !! id) ∧ 0 <= score_milli r <= 1000 ∧ 0 <= duration_ms r;
  good_execution id id' r r' : evaluation_results d !! id = Some r →
    evaluation_results d !! id' = Some r' → execution_id r = execution_id r' → id = id';
  good_completed id j : evaluation_jobs d !! id = Some j → j_status j = COMPLETED →
    is_Some (evaluation_results d !! id);
  good_key id id' j j' : evaluation_jobs d !! id = Some j → evaluation_jobs d !! id' = Some j' →
    j_tenant j = j_tenant j' → j_key j = j_key j' → id = id'
}.

(** What never changes of a job. *)
Record same_job (j j' : JobRow) : Prop := {
  same_tenant : j_tenant j' = j_tenant j;
  same_request : j_request j' = j_request j;
  same_key_ : j_key j' = j_key j;
  same_hash : j_hash j' = j_hash j;
  same_type : j_type j' = j_type j;
  same_correlation : j_correlation j' = j_correlation j;
  same_parameters : parameters j' = parameters j;
  same_requested : requested_at j' = requested_at j;
  more_attempts : attempt_count j <= attempt_count j'
}.

(** Jobs and results are never removed, results never change. *)
Record grows (d d' : DB) : Prop := {
  grows_results : evaluation_results d ⊆ evaluation_results d';
  grows_jobs id j : evaluation_jobs d !! id = Some j →
    ∃ j', evaluation_jobs d' !! id = Some j' ∧ same_job j j'
}.

#[export] Instance same_job_preorder : PreOrder same_job.
Proof.
  split; [by split|]. intros j1 j2 j3 [] []. split; try congruence. lia.
Qed.
#[export] Instance grows_preorder : PreOrder grows.
Proof.
  split.
  - intros d. split; [done|]. intros id j Hj. exists j. split; [done|reflexivity].
  - intros d1 d2 d3 [R1 J1] [R2 J2]. split; [by etrans|].
    intros id j Hj. destruct (J1 _ _ Hj) as (j' & Hj' & S1).
    destruct (J2 _ _ Hj') as (j2 & Hj2 & S2). exists j2. split; [done|by etrans].
Qed.

(** Both at once. *)
Definition progress (d d' : DB) : Prop := good d' ∧ grows d d'.

Lemma progress_refl (d : DB) : good d → progress d d.
Proof. by split. Qed.

(** The other tables do not matter. *)
Lemma progress_tables (d d' : DB) : good d → evaluation_jobs d' = evaluation_jobs d →
  evaluation_results d' = evaluation_results d → progress d d'.
Proof.
  intros [] Hj Hr. split.
  - split; rewrite ?Hj, ?Hr; done.
  - split; rewrite ?Hj, ?Hr; [done|]. intros id j Hid. exists j. split; [done|reflexivity].
Qed.

Lemma update_progress (d : DB) (id : string) (j j' : JobRow) : good d →
  evaluation_jobs d !! id = Some j → same_job j j' →
  (j_status j' = COMPLETED → is_Some (evaluation_results d !! id)) →
  progress d (set_jobs (<[id := j']> (evaluation_jobs d)) d).
Proof.
  intros [] Hj Hs Hc. split; split; simpl; try done.
  - intros i r Hr. destruct (good_result0 i r Hr) as [Hi Hb]. split; [|done].
    destruct (decide (i = id)) as [->|]; [by rewrite lookup_insert_eq|by rewrite lookup_insert_ne].
  - intros i x [[<- <-]|[_ Hx]]%lookup_insert_Some; [done|eauto].
  - intros i i' x x' Hx Hx' Ht Hk.
    assert (∀ i x, <[id := j']> (evaluation_jobs d) !! i = Some x →
      ∃ y, evaluation_jobs d !! i = Some y ∧ j_tenant y = j_tenant x ∧ j_key y = j_key x) as Hold.
    { intros k y [[<- <-]|[_ Hy]]%lookup_insert_Some; [|by exists y].
      exists j. split; [done|]. by destruct Hs. }
    destruct (Hold _ _ Hx) as (y & Hy & E1 & E2), (Hold _ _ Hx') as (y' & Hy' & E3 & E4).
    eapply good_key0; [done..|congruence|congruence].
  - intros i x Hx. destruct (decide (i = id)) as [->|].
    + rewrite Hj in Hx. injection Hx as <-. exists j'. by rewrite lookup_insert_eq.
    + exists x. rewrite lookup_insert_ne by done. split; [done|reflexivity].
Qed.

Lemma transaction_progress {A} (io : IO) (b k : error → error) (body : M DB A) (d : DB) :
  good d → (∀ a d', body d = (Ok a, d') → progress d d') → progress d (transaction io b k body d).2.
Proof.
  intros Hg Hb. unfold transaction. destruct (io_fault io 0); [by apply progress_refl|].
  destruct (body d) as [[a|?|?] d'] eqn:Hrun; [|by apply progress_refl..].
  specialize (Hb a d' eq_refl). destruct (io_fault io 1); [by apply progress_refl|].
  by destruct (io_fault io 2).
Qed.

Lemma autocommit_progress {A} (io : IO) (what : error → error) (f : M DB A) (d : DB) :
  good d → progress d (f d).2 → progress d (autocommit io what f d).2.
Proof.
  intros Hg Hf. unfold autocommit. destruct (io_fault io 0); [by apply progress_refl|].
  by destruct (io_fault io 1).
Qed.

Lemma update_job_progress (t id : string) (from : list JobStatus) (g : JobRow → res JobRow) (d : DB) :
  good d →
  (∀ j j', evaluation_jobs d !! id = Some j → g j = Ok j' → same_job j j' ∧
     (j_status j' = COMPLETED → is_Some (evaluation_results d !! id))) →
  progress d (update_job t id from g d).2.
Proof.
  intros Hg Hs. unfold update_job. destruct (evaluation_jobs d !! id) as [j|] eqn:Hj;
    [|by apply progress_refl]. destruct (_ && _); [|by apply progress_refl].
  destruct (g j) as [j'|?|?] eqn:Hgj; [|by apply progress_refl..].
  destruct (Hs j j' eq_refl Hgj). by eapply update_progress.
Qed.

Lemma MarkEvaluationQueued_progress (io : IO) (t id : string) (d : DB) :
  good d → progress d (MarkEvaluationQueued io t id d).2.
Proof.
  intros Hg. apply autocommit_progress; [done|]. apply update_job_progress; [done|].
  intros j j' Hj [= <-]. done.
Qed.

Lemma MarkEvaluationRunning_progress (io : IO) (t id : string) (d : DB) :
  good d → progress d (MarkEvaluationRunning io t id d).2.
Proof.
  intros Hg. apply autocommit_progress; [done|]. apply update_job_progress; [done|].
  intros j j' Hj Hr. unfold running_row in Hr. destruct (_ <? _); [done|]. injection Hr as <-.
  split; [|done]. split; simpl; done || lia.
Qed.

Lemma on_base_same {A} (m : M postgres.DB A) (d : DB) :
  evaluation_jobs (on_base m d).2 = evaluation_jobs d ∧
  evaluation_results (on_base m d).2 = evaluation_results d.
Proof. unfold on_base. by destruct (m (base d)). Qed.

Lemma progress_trans (d1 d2 d3 : DB) : progress d1 d2 → progress d2 d3 → progress d1 d3.
Proof. intros [_ G1] [? G2]. split; [done|by etrans]. Qed.

Lemma on_base_progress {A} (m : M postgres.DB A) (d : DB) : good d → progress d (on_base m d).2.
Proof. intros Hg. destruct (on_base_same m d). by apply progress_tables. Qed.

Lemma FailEvaluation_progress (io : IO) (t id category : string) (permanent : bool) (d : DB) :
  good d → progress d (FailEvaluation io t id category permanent d).2.
Proof.
  intros Hg. apply transaction_progress; [done|]. intros [] d' Hrun.
  apply bind_ok in Hrun as (corr & d1 & Hs & Hrest). apply statement_ok in Hs.
  unfold update_failed in Hs. destruct (evaluation_jobs d !! id) as [j|] eqn:Hj; [|done].
  destruct (_ =s _); [|done]. injection Hs as <- <-.
  set (j' := failed_row _ _ _ _ j) in *.
  assert (progress d (set_jobs (<[id := j']> (evaluation_jobs d)) d)) as Hp.
  { eapply update_progress; [done..|by split|]. by destruct permanent. }
  destruct permanent; [|by injection Hrest as <-].
  eapply progress_trans; [exact Hp|]. destruct Hp as [Hg' _].
  pose proof (on_base_progress (insertOutbox io 4 0 events.EvaluationFailed id t (j_correlation j)
           [("evaluation_id", VString id); ("error_category", VString category)]) _ Hg') as Hb.
  by rewrite Hrest in Hb.
Qed.

(** Storing a result: it is the first one, or nothing changes. *)
Lemma insert_result_ok (id : string) (row : ResultRow) (d d' : DB) :
  good d → insert_result id row d = (Ok (), d') →
  progress d d' ∧ evaluation_jobs d' = evaluation_jobs d ∧
  (evaluation_results d !! id = None → evaluation_results d' !! id = Some row) ∧
  is_Some (evaluation_results d' !! id).
Proof.
  intros Hg. unfold insert_result. destruct (negb _) eqn:Hc; [done|].
  destruct (evaluation_results d !! id) as [r|] eqn:Hr.
  { intros [= <-]. split_and!; [by apply progress_refl|done|done|by eexists]. }
  destruct (find_where _ _) as [|] eqn:Hf; [done|].
  destruct (evaluation_jobs d !! id) as [j|] eqn:Hj; [|done].
  intros [= <-]. apply negb_false_iff, andb_true_iff in Hc as [[? ?]%andb_true_iff ?].
  simpl. rewrite lookup_insert_eq. split_and!; [|done|done|by eexists].
  assert (∀ i x, evaluation_results d !! i = Some x → execution_id x ≠ execution_id row) as Hne.
  { intros i x Hx He. pose proof (find_where_None _ _ _ _ Hf Hx) as Hn. simpl in Hn.
    by apply String.eqb_neq in Hn. }
  destruct Hg. split; split; simpl; try done.
  - intros i r [[<- <-]|[_ Hi]]%lookup_insert_Some; [|eauto]. split; [by rewrite Hj|lia].
  - intros i i' r r' [[<- <-]|[_ Hi]]%lookup_insert_Some [[<- <-]|[_ Hi']]%lookup_insert_Some He;
      [done| | |by eauto]; exfalso; [by eapply Hne|by eapply Hne].
  - intros i x Hx Hs. destruct (decide (i = id)) as [->|]; [by rewrite lookup_insert_eq|].
    rewrite lookup_insert_ne by done. eauto.
  - by apply insert_subseteq.
  - intros i x Hx. exists x. split; [done|reflexivity].
Qed.
(** The transaction of a completed evaluation. *)
Definition complete_body (io : IO) (t id execution encoded : string) (results : list evaluation.Result)
  : M DB unit :=
  let '(score, duration, verdict) := summary results in
  _ ← statement io 3 (Wrap "persist evaluation result")
        (insert_result id (mkResultRow t execution score verdict duration encoded));
  _ ← statement io 4 (Wrap "complete evaluation job")
        (update_job t id all_statuses (λ j, Ok (done_row (io_now io) j)));
  on_base (insertOutbox io 5 0 events.EvaluationComplete id t id
    [("evaluation_id", VString id); ("status", VString verdict); ("score_milli", VInt score)]).

Lemma CompleteEvaluation_body (io : IO) (t id execution : string) (results : list evaluation.Result)
  (d : DB) :
  CompleteEvaluation io t id execution results d =
  match encode_results results with
  | Err e => (Err (Wrap "marshal evaluation results" e), d)
  | Panic w => (Panic w, d)
  | Ok encoded => transaction io Datatypes.id Datatypes.id (complete_body io t id execution encoded results) d
  end.
Proof.
  unfold CompleteEvaluation, complete_body. destruct (encode_results results); [|done..].
  by destruct (summary results) as [[score duration] verdict].
Qed.

Lemma complete_body_ok (io : IO) (t id execution encoded : string)
  (results : list evaluation.Result) (d d' : DB) :
  good d → complete_body io t id execution encoded results d = (Ok (), d') →
  progress d d' ∧ is_Some (evaluation_results d' !! id).
Proof.
  unfold complete_body. destruct (summary results) as [[score duration] verdict].
  intros Hg Hrun.
  apply bind_ok in Hrun as ([] & d1 & Hs1%statement_ok & Hrun).
  apply insert_result_ok in Hs1 as (Hp1 & Hj1 & _ & Hr1); [|done].
  apply bind_ok in Hrun as ([] & d2 & Hs2%statement_ok & Hrun).
  assert (progress d1 d2) as Hp2.
  { pose proof (update_job_progress t id all_statuses (λ j, Ok (done_row (io_now io) j)) d1) as Hu.
    rewrite Hs2 in Hu. apply Hu; [apply Hp1|]. by intros j j' Hj [= <-]. }
  pose proof (on_base_progress (insertOutbox io 5 0 events.EvaluationComplete id t id
    [("evaluation_id", VString id); ("status", VString verdict); ("score_milli", VInt score)]) d2) as Hp3.
  rewrite Hrun in Hp3. specialize (Hp3 (proj1 Hp2)).
  pose proof (progress_trans _ _ _ Hp2 Hp3) as Hp23. split; [by eapply progress_trans|].
  destruct Hr1 as [r Hr]. exists r. by eapply lookup_weaken, (grows_results _ _ (proj2 Hp23)).
Qed.

Lemma CompleteEvaluation_progress (io : IO) (t id execution : string)
  (results : list evaluation.Result) (d : DB) :
  good d → progress d (CompleteEvaluation io t id execution results d).2.
Proof.
  intros Hg. rewrite CompleteEvaluation_body. destruct (encode_results results) as [s|?|?];
    [|by apply progress_refl..].
  apply transaction_progress; [done|]. intros [] d' Hrun. by eapply complete_body_ok.
Qed.

Lemma CompleteEvaluation_recorded (io : IO) (t id execution : string)
  (results : list evaluation.Result) (d d' : DB) (u : unit) :
  good d → CompleteEvaluation io t id execution results d = (Ok u, d') →
  is_Some (evaluation_results d' !! id).
Proof.
  intros Hg. rewrite CompleteEvaluation_body. destruct (encode_results results) as [s|?|?]; [|done..].
  destruct u. intros Hrun%transaction_ok. by eapply complete_body_ok.
Qed.

Lemma get_statement_same (io : IO) (k : nat) (t id : string) (d : DB) :
  (get_statement io k t id d).2 = d.
Proof.
  unfold get_statement, statement, act. destruct (io_fault io k); [done|].
  destruct (evaluation_jobs d !! id) as [j|]; [|done]. by destruct (_ =s _).
Qed.

Lemma LoadInput_same (io : IO) (t id : string) (d : DB) : (LoadInput io t id d).2 = d.
Proof.
  unfold LoadInput, LoadEvaluationInput, mbind, M_bind.
  pose proof (get_statement_same io 0 t id d) as Hg.
  destruct (get_statement io 0 t id d) as [[job|?|?] d1]; simpl in Hg; subst d1; [|done..].
  assert ((load_source io t (RequestID job) d).2 = d) as Hs.
  { unfold load_source, statement, act. destruct (io_fault io 1); [done|]. by repeat case_match. }
  destruct (load_source io t (RequestID job) d) as [[x|?|?] d2]; simpl in Hs; subst d2; [|done..].
  destruct x as [[[[[body ?] ?] ?] ?] ?]. by destruct (decode_choices body) as [[|? ?]|?|?].
Qed.

Lemma ListEvaluations_same (io : IO) (t : string) (l o : Z) (d : DB) :
  (ListEvaluations io t l o d).2 = d.
Proof.
  unfold ListEvaluations. destruct (io_fault io 0), (io_fault io 1), (io_fault io 2); try done.
  by destruct (o <? 0).
Qed.

Lemma insert_job_progress (io : IO) (p : CreateEvaluationParams) (d : DB) :
  good d → progress d (insert_job io p d).2.
Proof.
  intros Hg. unfold insert_job. destruct (source_ok p d); [|by apply progress_refl].
  destruct (find_where _ _) eqn:Hf; [by apply progress_refl|].
  destruct (evaluation_jobs d !! uuid io 0) eqn:Hid; [by apply progress_refl|].
  assert (∀ i j, evaluation_jobs d !! i = Some j →
    ¬ (j_tenant j = ce_TenantID p ∧ j_key j = ce_IdempotencyKey p)) as Hne.
  { intros i j Hj [Ht Hk]. pose proof (find_where_None _ _ _ _ Hf Hj) as Hn.
    unfold same_job_key in Hn. by rewrite Ht, Hk, !String.eqb_refl in Hn. }
  destruct Hg. split; split; simpl; try done.
  - intros i r Hr. destruct (good_result0 _ _ Hr) as [[j Hj] ?]. split; [|done].
    exists j. rewrite lookup_insert_ne; [done|congruence].
  - intros i j [[<- <-]|[_ Hj]]%lookup_insert_Some; [done|eauto].
  - intros i i' j j' [[<- <-]|[_ Hj]]%lookup_insert_Some [[<- <-]|[_ Hj']]%lookup_insert_Some Ht Hk;
      simpl in *; [done| | |by eauto].
    + by destruct (Hne _ _ Hj').
    + by destruct (Hne _ _ Hj).
  - intros i j Hj. exists j. split; [|reflexivity]. rewrite lookup_insert_ne; [done|congruence].
Qed.

Lemma CreateOrGetEvaluation_progress (io : IO) (p : CreateEvaluationParams) (d : DB) :
  good d → progress d (CreateOrGetEvaluation io p d).2.
Proof.
  intros Hg. unfold CreateOrGetEvaluation, mbind, M_bind.
  pose proof (autocommit_progress io (Wrap "create evaluation job") (insert_job io p) d Hg
    (insert_job_progress io p d Hg)) as Hp.
  destruct (autocommit _ _ _ d) as [[ins|?|?] d1]; simpl in *; [|done..].
  assert (∀ m : M DB string, (m d1).2 = d1 →
    progress d ((match m d1 with
                 | (Ok id, s) => match get_statement io 3 (ce_TenantID p) id s with
                   | (Ok job, s0) =>
                     (if negb (bool_decide (is_Some ins)) && negb (CanonicalHash job =s ce_CanonicalHash p)
                      then fail ErrConflict else mret (job, bool_decide (is_Some ins))) s0
                   | (Err e, s0) => (Err e, s0)
                   | (Panic w, s0) => (Panic w, s0)
                   end
                 | (Err e, s) => (Err e, s)
                 | (Panic w, s) => (Panic w, s)
                 end).2)) as Hrest.
  { intros m Hm. destruct (m d1) as [[id|?|?] d2]; simpl in *; subst d2; [|done..].
    pose proof (get_statement_same io 3 (ce_TenantID p) id d1) as Hs.
    destruct (get_statement io 3 (ce_TenantID p) id d1) as [[job|?|?] d3]; simpl in *; subst d3; [|done..].
    by destruct (_ && _). }
  destruct ins as [id|].
  - by apply (Hrest (mret id)).
  - apply (Hrest (statement io 2 (Wrap "load existing evaluation job") (existing_job p))).
    unfold statement, existing_job. destruct (io_fault io 2); [done|]. by destruct (find_where _ _) as [[? ?]|].
Qed.

(** The database as the system sees it. *)
#[global] Instance evalstore_contract : system.Contract DB.
Proof.
  simple refine (@system.Build_Contract DB _ _ good grows
    (λ d id, is_Some (evaluation_results d !! id))
    (λ d d', evaluation_jobs d' = evaluation_jobs d ∧ evaluation_results d' = evaluation_results d)
    grows_preorder _ _ _ _ _ _ _ _ _ _ _).
  - intros d d' id Hgr [r Hr]. exists r. by eapply lookup_weaken, grows_results.
  - intros io t j d Hg. by apply MarkEvaluationRunning_progress.
  - intros io t j d Hg. simpl. rewrite LoadInput_same. by apply progress_refl.
  - intros io t j e rs d Hg. by apply CompleteEvaluation_progress.
  - intros io t j c p d Hg. by apply FailEvaluation_progress.
  - intros io p d Hg. by apply CreateOrGetEvaluation_progress.
  - intros io t j d Hg. simpl. unfold GetEvaluation. rewrite get_statement_same. by apply progress_refl.
  - intros io t l o d Hg. simpl. rewrite ListEvaluations_same. by apply progress_refl.
  - intros io t j d Hg. by apply MarkEvaluationQueued_progress.
  - intros d d' [Hj Hr] Hg. by apply progress_tables.
  - intros io t j e rs d d' u Hg Hrun. exact (CompleteEvaluation_recorded io t j e rs d d' u Hg Hrun).
Defined.

(** *** Idempotent creation *)

Lemma get_statement_ok (io : IO) (k : nat) (t id : string) (d d' : DB) (job : EvaluationJob) :
  get_statement io k t id d = (Ok job, d') →
  ∃ j result, evaluation_jobs d !! id = Some j ∧ j_tenant j = t ∧ job = job_of id j result.
Proof.
  unfold get_statement. intros Hs%statement_ok. unfold act in Hs.
  destruct (evaluation_jobs d !! id) as [j|]; [|done].
  destruct (j_tenant j =s t) eqn:Ht; [|done]. apply String.eqb_eq in Ht.
  injection Hs as <- _. eauto.
Qed.

(** A job created: the new row is there under the identifier returned. *)
Lemma evaluation_created (io : IO) (p : CreateEvaluationParams) (d d' : DB) (job : EvaluationJob) :
  CreateOrGetEvaluation io p d = (Ok (job, true), d') →
  ∃ j, evaluation_jobs d' !! ID job = Some j ∧ j_tenant j = ce_TenantID p ∧
    j_key j = ce_IdempotencyKey p ∧ j_hash j = ce_CanonicalHash p.
Proof.
  unfold CreateOrGetEvaluation. intros Hrun.
  apply bind_ok in Hrun as (ins & d1 & Hins%autocommit_ok & Hrun).
  apply bind_ok in Hrun as (id & d2 & Hid & Hrun). apply bind_ok in Hrun as (job' & d3 & Hget & Hrun).
  destruct ins as [id'|]; [|by destruct (_ && _); simplify_eq]. injection Hid as <- <-.
  pose proof (get_statement_same io 3 (ce_TenantID p) id' d1) as Hsame. rewrite Hget in Hsame.
  simpl in Hsame. subst d3. apply get_statement_ok in Hget as (j & res & Hj & Ht & ->).
  simpl in Hrun. injection Hrun as <- <-. exists j. simpl. split; [done|].
  unfold insert_job in Hins. destruct (source_ok p d); [|done].
  destruct (find_where _ _); [done|]. destruct (evaluation_jobs d !! uuid io 0); [done|].
  injection Hins as <- <-. simpl in Hj. rewrite lookup_insert_eq in Hj. by injection Hj as <-.
Qed.

(** Creating an evaluation is idempotent. Once a job was created under a
    tenant's key, any later creation under the same key, after any growth of the
    database, changes nothing; it answers with the same job, not created, if and only
    if the canonical hash is the same, and if nothing fails it does answer. *)
Theorem evaluation_idempotent (io io' : IO) (p p' : CreateEvaluationParams) (d d1 d2 : DB)
  (job : EvaluationJob) :
  CreateOrGetEvaluation io p d = (Ok (job, true), d1) → grows d1 d2 → good d2 →
  ce_TenantID p' = ce_TenantID p → ce_IdempotencyKey p' = ce_IdempotencyKey p →
  let r := CreateOrGetEvaluation io' p' d2 in
  r.2 = d2 ∧
  (∀ job' created, r.1 = Ok (job', created) →
     created = false ∧ ID job' = ID job ∧ ce_CanonicalHash p' = ce_CanonicalHash p) ∧
  ((∀ k, io_fault io' k = None) →
   if ce_CanonicalHash p' =s ce_CanonicalHash p then ∃ job', r.1 = Ok (job', false)
   else r.1 = Err ErrConflict).
Proof.
  intros Hc Hg Hgood Ht Hk. apply evaluation_created in Hc as (j & Hj & Hjt & Hjk & Hjh).
  destruct (grows_jobs _ _ Hg _ _ Hj) as (j' & Hj' & [Et _ Ek Eh _ _ _ _ _]).
  destruct (find_where (same_job_key (ce_TenantID p') (ce_IdempotencyKey p')) (evaluation_jobs d2))
    as [[id x]|] eqn:Hf.
  2:{ pose proof (find_where_None _ _ _ _ Hf Hj') as Hn. unfold same_job_key in Hn.
      by rewrite Et, Ek, Hjt, Hjk, Ht, Hk, !String.eqb_refl in Hn. }
  assert (id = ID job ∧ x = j') as [-> ->].
  { apply find_where_Some in Hf as [Hx Hs]. unfold same_job_key in Hs.
    apply andb_true_iff in Hs as [H1%String.eqb_eq H2%String.eqb_eq].
    assert (id = ID job) as ->; [|split; congruence].
    eapply (good_key _ Hgood); [done..|congruence|congruence]. }
  assert (∀ io, insert_job io p' d2 = (Ok None, d2)) as Hins.
  { intros i. unfold insert_job. rewrite Hf. by destruct (source_ok p' d2). }
  unfold CreateOrGetEvaluation, mbind, M_bind, autocommit, statement, existing_job.
  rewrite Hins. destruct (io_fault io' 0) eqn:F0; [split_and!; [done..|intros Hq; by rewrite Hq in F0]|].
  destruct (io_fault io' 1) eqn:F1; [split_and!; [done..|intros Hq; by rewrite Hq in F1]|].
  destruct (io_fault io' 2) eqn:F2; [split_and!; [done..|intros Hq; by rewrite Hq in F2]|].
  rewrite Hf. unfold get_statement, statement, act.
  destruct (io_fault io' 3) eqn:F3; [split_and!; [done..|intros Hq; by rewrite Hq in F3]|].
  rewrite Hj', Et, Hjt, Ht, String.eqb_refl. cbn [negb andb bool_decide].
  rewrite bool_decide_eq_false_2 by by intros [? ?]. cbn [negb andb CanonicalHash job_of].
  rewrite Eh, Hjh. rewrite (String.eqb_sym (ce_CanonicalHash p)).
  destruct (ce_CanonicalHash p' =s ce_CanonicalHash p) eqn:Hh;
    [apply String.eqb_eq in Hh|apply String.eqb_neq in Hh]; cbn; split_and!; try done.
  - by intros job' created [= <- <-].
  - intros _. by eexists.
Qed.

(** *** Summaries of results *)

Lemma tally_bounds (rs : list evaluation.Result) (a b : Z) (v : string) (n : Z) :
  Forall evaluation.well_formed rs →
  Forall (λ r, 0 <= evaluation.Duration r <= time.Hour) rs →
  0 <= a <= 1000 * n → 0 <= b <= 3600000 * n → 0 <= n → n + Z.of_nat (length rs) <= 1000000 →
  (v = "pass" ∨ v = "fail") →
  ∃ s t u, foldl tally (a, b, v) rs = (s, t, u) ∧
    0 <= s <= 1000 * (n + Z.of_nat (length rs)) ∧ 0 <= t ∧ (u = "pass" ∨ u = "fail") ∧
    (u = "fail" ↔ v = "fail" ∨ Exists (λ r, evaluation.Status r = "fail") rs).
Proof.
  revert a b v n. induction rs as [|r rs IH]; intros a b v n Hw Hd Ha Hb Hn Hl Hv.
  - exists a, b, v. simpl. rewrite Z.add_0_r. split_and!; [done|lia..|done|].
    rewrite Exists_nil. tauto.
  - apply Forall_cons in Hw as [(Hs & Hst & _) Hw], Hd as [Hdur Hd].
    cbn [foldl]. unfold tally at 2. cbn [length] in *.
    assert (0 <= time.Milliseconds (evaluation.Duration r) <= 3600000) as Hms.
    { unfold time.Milliseconds, time.Hour, time.Millisecond in *.
      rewrite Z.quot_div_nonneg by lia.
      split; [apply Z.div_pos; lia|apply Z.div_le_upper_bound; lia]. }
    rewrite !wrap64_id by (unfold in_int64, int64_min, int64_max; lia).
    destruct (IH (a + evaluation.ScoreMilli r) (b + time.Milliseconds (evaluation.Duration r))
      (if evaluation.Status r =s "fail" then "fail" else v) (n + 1)) as (s & t & u & Hf & Hs' & Ht & Hu & Hiff);
      [done|done|lia|lia|lia|lia|by destruct (_ =s _); auto|].
    exists s, t, u. split_and!; [done|lia|lia|done|done|]. rewrite Hiff, Exists_cons.
    destruct (evaluation.Status r =s "fail") eqn:Hfail;
      [apply String.eqb_eq in Hfail|apply String.eqb_neq in Hfail]; tauto.
Qed.

(** The results of well-formed evaluators. *)
Lemma summary_bounds (rs : list evaluation.Result) :
  Forall evaluation.well_formed rs → Forall (λ r, 0 <= evaluation.Duration r <= time.Hour) rs →
  Z.of_nat (length rs) <= 1000000 →
  ∃ s t u, summary rs = (s, t, u) ∧ 0 <= s <= 1000 ∧ 0 <= t ∧
    (u = "fail" ↔ Exists (λ r, evaluation.Status r = "fail") rs).
Proof.
  intros Hw Hd Hl.
  destruct (tally_bounds rs 0 0 "pass" 0) as (s & t & u & Hf & Hs & Ht & _ & Hiff); [done|done|lia|lia|lia|lia|auto|].
  unfold summary. rewrite Hf. eexists _, t, u. split; [done|]. split; [|split; [done|rewrite Hiff; naive_solver]].
  destruct rs as [|r rs]; [simpl in *; lia|]. rewrite Z.quot_div_nonneg by (simpl length; lia).
  simpl length in *. split; [apply Z.div_pos; lia|]. apply Z.div_le_upper_bound; lia.
Qed.

Lemma suite_summary_eq (lower_rune : Z → Z) (elapsed : nat → time.Duration) (input : evaluation.Input)
  (results : list evaluation.Result) (score duration : Z) (verdict : string) :
  (∀ i, 0 <= elapsed i <= time.Hour) →
  results = rabbitmq.evaluate_all (evaluation.suite lower_rune) elapsed input →
  summary results = (score, duration, verdict) →
  0 <= score <= 1000 ∧ 0 <= duration ∧
  (verdict = "fail" ↔ Exists (λ r, evaluation.Status r = "fail") results).
Proof.
  intros He Hresults Hsum.
  assert (Forall evaluation.well_formed results) as Hw.
  { rewrite Hresults. unfold rabbitmq.evaluate_all, evaluation.suite. cbn [imap].
    rewrite !Forall_cons, Forall_nil. unfold evaluation.run_evaluator. cbn [evaluation.impl evaluation.it].
    eauto using evaluation.PII_well_formed, evaluation.Quality_well_formed,
      evaluation.Safety_well_formed, evaluation.Performance_well_formed. }
  assert (∀ r, r ∈ results → 0 <= evaluation.Duration r <= time.Hour) as Hdur.
  { intros r. rewrite Hresults. unfold rabbitmq.evaluate_all, evaluation.suite. cbn [imap compose].
    rewrite !elem_of_cons, elem_of_nil.
    intros [->|[->|[->|[->|[]]]]]; unfold evaluation.run_evaluator; cbn [evaluation.impl evaluation.it].
    - unfold evaluation.Evaluate, evaluation.PII_Evaluate. case_match. apply He.
    - unfold evaluation.Evaluate, evaluation.Quality_Evaluate. case_match. apply He.
    - unfold evaluation.Evaluate, evaluation.Safety_Evaluate. case_match. apply He.
    - apply He. }
  destruct (summary_bounds results) as (s & t & u & Hsum' & Hs & Ht & Hu);
    [done|by apply Forall_forall|by rewrite Hresults|].
  rewrite Hsum in Hsum'. by simplify_eq.
Qed.

(** The results of the worker's suite, each evaluator taking at most an hour,
    always satisfy the constraints of the results table: the mean score is between 0
    and 1000, the total duration is not negative; and the stored outcome is fail
    exactly if one of the evaluators failed. *)
Theorem suite_summary (lower_rune : Z → Z) (elapsed : nat → time.Duration) (input : evaluation.Input) :
  (∀ i, 0 <= elapsed i <= time.Hour) →
  let results := rabbitmq.evaluate_all (evaluation.suite lower_rune) elapsed input in
  let '(score, duration, verdict) := summary results in
  0 <= score <= 1000 ∧ 0 <= duration ∧
  (verdict = "fail" ↔ Exists (λ r, evaluation.Status r = "fail") results).
Proof.
  intros He results. destruct (summary results) as [[score duration] verdict] eqn:Hs.
  by eapply suite_summary_eq.
Qed.

Section Histories.
Context {B : Type} `{amqp.Laws B} `{system.WireLaws} `{evaluationjob.Hashing}.
Context (limit : Z) (patient accepting : bool).

(** C8 (invariant): evaluation results are final. Whatever happens after a reachable
    state (redeliveries, retries, competing workers, crashes, publications cut off or
    refused; with [patient] and [accepting] false no run is excluded), a stored result stays
    exactly as it is, jobs keep their tenant, source, key, hash and parameters, and in
    every state a completed job has a result, with a score between 0 and 1000, and no
    two jobs share a tenant and an idempotency key or two results an execution. *)
Theorem results_final (c c' : system.Config (D:=DB) (B:=B)) :
  0 < limit <= int64_max →
  system.reachable limit patient accepting c → rtc (system.step limit patient accepting) c c' →
  let d := rabbitmq.db (system.world c) in
  let d' := rabbitmq.db (system.world c') in
  good d' ∧ (∀ id r, evaluation_results d !! id = Some r → evaluation_results d' !! id = Some r) ∧
  (∀ id j, evaluation_jobs d !! id = Some j →
     ∃ j', evaluation_jobs d' !! id = Some j' ∧ same_job j j').
Proof.
  intros Hlim Hr Hs. apply system.reachable_ok in Hr; [|done..].
  destruct (system.steps_ok limit patient accepting Hlim _ _ Hs Hr) as [[Hi _] He].
  pose proof (system.ev_grows _ _ He) as [Hres Hjobs]. split_and!.
  - apply (system.inv_good _ _ _ _ Hi).
  - intros id r Hid. by eapply lookup_weaken.
  - done.
Qed.
End Histories.

(** *** A delivery processed without failures *)

Section Process.
Context {B : Type} `{amqp.Laws B} `{rabbitmq.Wire}.

Lemma run_call {W A R} (f : IO → M W A) (k : res A → prog W R) (ios : nat → IO) (w : W) :
  prog.run (prog.call f ≫= k) ios w =
  prog.run (k (f (ios 0%nat) w).1) (λ n, ios (S n)) (f (ios 0%nat) w).2.
Proof. simpl. by destruct (f (ios 0%nat) w). Qed.

Definition never_fails (io : IO) : Prop := ∀ k, io_fault io k = None.

Lemma mark_runs (io : IO) (t id : string) (d : DB) (j : JobRow) :
  never_fails io → evaluation_jobs d !! id = Some j → j_tenant j = t →
  attempt_count j < 2147483647 →
  ∃ j', MarkEvaluationRunning io t id d = (Ok (), set_jobs (<[id := j']> (evaluation_jobs d)) d) ∧
        same_job j j'.
Proof.
  intros Hio Hj Ht Ha. unfold MarkEvaluationRunning, autocommit. rewrite !Hio.
  unfold update_job. rewrite Hj, Ht, String.eqb_refl. simpl. destruct (bool_decide _).
  - unfold running_row. destruct (Z.ltb_spec 2147483647 (attempt_count j + 1)); [lia|].
    eexists. split; [done|]. split; simpl; done || lia.
  - exists j. rewrite insert_id by done. split; [|reflexivity]. by destruct d.
Qed.

(** What the job of a delivery needs to be evaluated: its source is the tenant's own
    completed request with a readable response. *)
Record evaluable (d : DB) (job : rabbitmq.Job) (j : JobRow) (r : RequestRow) : Prop := {
  ev_job : evaluation_jobs d !! rabbitmq.JobID job = Some j;
  ev_tenant : j_tenant j = rabbitmq.TenantID job;
  ev_source : ai_requests (base d) !! j_request j = Some r;
  ev_owner : tenant_id r = rabbitmq.TenantID job;
  ev_completed : status r = request.Completed;
  ev_finished : is_Some (completed_at r);
  ev_readable : ∃ c l, decode_choices (default "" (response_body r)) = Ok (c :: l)
}.

(** What the evaluators have to be given: the first choice of the stored response, the
    usage and cost of the request, the latency of the request and the largest one of
    its successful attempts, and the limits of the job's parameters, if it has any. *)
Record evaluation_input (d : DB) (j : JobRow) (r : RequestRow) (i : evaluation.Input) : Prop := {
  in_response : ∃ rest, decode_choices (default "" (response_body r)) = Ok (evaluation.Response i :: rest);
  in_prompt : evaluation.PromptTokens i = default 0 (prompt_tokens r);
  in_completion : evaluation.CompletionTokens i = default 0 (completion_tokens r);
  in_cost : evaluation.CostMicroUSD i = default 0 (actual_cost r);
  in_total : ∃ finished, completed_at r = Some finished ∧
    evaluation.TotalLatency i = milliseconds (epoch_ms (finished - created_at r));
  in_provider : evaluation.ProviderLatency i =
    milliseconds (max_latency (succeeded_latencies (j_request j) (base d)));
  in_limits :
    let p := jsonb (parameters j) in
    let t := decode_thresholds p in
    (evaluation.RequestedFormat i, evaluation.BlockedTerms i, evaluation.MaxProviderLatency i,
     evaluation.MaxTotalLatency i, evaluation.MaxTokens i, evaluation.MaxCostMicroUSD i) =
    (if decide (p = "") then ("", [], 0, 0, 0, 0)
     else (RequestedFormat t, BlockedTerms t, milliseconds (MaxProviderMS t), milliseconds (MaxTotalMS t),
           MaxTokens t, MaxCostMicroUSD t))
}.

Lemma load_runs (io : IO) (d : DB) (job : rabbitmq.Job) (j : JobRow) (r : RequestRow) :
  never_fails io → evaluable d job j r →
  ∃ input, LoadInput io (rabbitmq.TenantID job) (rabbitmq.JobID job) d = (Ok input, d) ∧
           evaluation_input d j r input.
Proof.
  intros Hio [Hj Ht Hs Ho Hc [f Hf] (c & l & Hd)].
  unfold LoadInput, LoadEvaluationInput, get_statement, load_source, mbind, M_bind, statement, act.
  rewrite !Hio, Hj, Ht, String.eqb_refl. cbn [job_of RequestID].
  rewrite Hs, Ho, String.eqb_refl, (bool_decide_eq_true_2 _ Hc). cbn [andb].
  rewrite Hf, Hd. eexists. split; [done|]. cbn [job_of Parameters].
  split; cbn; [by exists l|done|done|done|by exists f|done|].
  destruct (String.eqb_spec (jsonb (parameters j)) ""); by case_decide.
Qed.

Lemma complete_runs (io : IO) (d : DB) (t id execution encoded : string) (j : JobRow)
  (results : list evaluation.Result) (score duration : Z) (verdict : string) :
  never_fails io → evaluation_jobs d !! id = Some j → j_tenant j = t →
  summary results = (score, duration, verdict) → 0 <= score <= 1000 → 0 <= duration →
  encode_results results = Ok encoded → evaluation_results d !! id = None →
  find_where (λ r, execution_id r =s execution) (evaluation_results d) = None →
  (∀ p, is_ok (encode_payload p) = true) → outbox_events (base d) !! uuid io 0 = None →
  ∃ d', CompleteEvaluation io t id execution results d = (Ok (), d') ∧
    evaluation_jobs d' !! id = Some (done_row (io_now io) j) ∧
    evaluation_results d' !! id = Some (mkResultRow t execution score verdict duration encoded) ∧
    ∃ payload,
      encode_payload [("evaluation_id", VString id); ("status", VString verdict); ("score_milli", VInt score)] =
        Ok payload ∧
      outbox_events (base d') !! uuid io 0 =
        Some (outbox_entry (uuid io 0) events.EvaluationComplete id t id payload (io_now io)).
Proof.
  intros Hio Hj Ht Hsum Hsc Hdu Henc Hr Hex Hpay Hid. unfold CompleteEvaluation. rewrite Henc, Hsum.
  unfold transaction, mbind, M_bind, statement, insert_result. rewrite !Hio. cbn [score_milli duration_ms execution_id].
  rewrite !(proj2 (Z.leb_le _ _)) by lia. cbn [andb negb]. rewrite Hr, Hex, Hj.
  unfold update_job, set_results, set_jobs. cbn [evaluation_jobs evaluation_results base].
  rewrite Hj, Ht, String.eqb_refl. rewrite (bool_decide_eq_true_2 (j_status j ∈ all_statuses)).
  2:{ unfold all_statuses. destruct (j_status j); set_solver. }
  cbn [andb]. unfold on_base, insertOutbox. cbn [base].
  match goal with |- context [encode_payload ?p] =>
    pose proof (Hpay p) as Hp; destruct (encode_payload p) as [payload|?|?] end; [|done..].
  unfold statement. rewrite Hio, Hid. eexists. split; [done|]. simpl. rewrite !lookup_insert_eq.
  split_and!; [done..|]. by exists payload.
Qed.

(** C10 (functional): processing a delivery works. If nothing fails, the worker that gets a
    command for an evaluable job runs the suite on the stored response of the job's
    request, with its usage, cost, latencies and the limits of the job
    ([evaluation_input]), stores the summary and the encoding of these very results
    under the command's execution, announces them, marks the job completed and settles
    the delivery, whatever attempt this is. *)
Theorem process_completes (w : rabbitmq.World DB B) (worker : rabbitmq.Worker)
  (lower_rune : Z → Z) (elapsed : nat → time.Duration) (d : rabbitmq.Delivery) (job : rabbitmq.Job)
  (j : JobRow) (r : RequestRow) (ios : nat → IO) :
  rabbitmq.evaluators worker = evaluation.suite lower_rune →
  (∀ i, 0 <= elapsed i <= time.Hour) → (∀ n, never_fails (ios n)) →
  rabbitmq.decode_job (amqp.Body (rabbitmq.message d)) = Ok job → rabbitmq.malformed job = false →
  evaluable (rabbitmq.db w) job j r → attempt_count j < 2147483647 →
  evaluation_results (rabbitmq.db w) !! rabbitmq.JobID job = None →
  find_where (λ x, execution_id x =s rabbitmq.ExecutionID job) (evaluation_results (rabbitmq.db w)) = None →
  outbox_events (base (rabbitmq.db w)) !! uuid (ios 2%nat) 0 = None →
  (∀ rs, is_ok (encode_results rs) = true) → (∀ p, is_ok (encode_payload p) = true) →
  let w' := (prog.run (rabbitmq.process worker elapsed d) ios w).2 in
  amqp.unacked (rabbitmq.broker w') = delete (rabbitmq.tag d) (amqp.unacked (rabbitmq.broker w)) ∧
  (∃ j', evaluation_jobs (rabbitmq.db w') !! rabbitmq.JobID job = Some j' ∧ j_status j' = COMPLETED ∧
         same_job j j') ∧
  ∃ input encoded payload,
    evaluation_input (rabbitmq.db w) j r input ∧
    let results := rabbitmq.evaluate_all (evaluation.suite lower_rune) elapsed input in
    encode_results results = Ok encoded ∧
    let '(score, duration, verdict) := summary results in
    evaluation_results (rabbitmq.db w') !! rabbitmq.JobID job =
      Some (mkResultRow (rabbitmq.TenantID job) (rabbitmq.ExecutionID job) score verdict duration encoded) ∧
    encode_payload [("evaluation_id", VString (rabbitmq.JobID job)); ("status", VString verdict);
                    ("score_milli", VInt score)] = Ok payload ∧
    outbox_events (base (rabbitmq.db w')) !! uuid (ios 2%nat) 0 =
      Some (outbox_entry (uuid (ios 2%nat) 0) events.EvaluationComplete (rabbitmq.JobID job)
              (rabbitmq.TenantID job) (rabbitmq.JobID job) payload (io_now (ios 2%nat))).
Proof.
  intros Hev Hel Hios Hdec Hmal He Hatt Hres Hex Hout Henc Hpay. destruct w as [db0 b0 cf0 ac0]. cbn [rabbitmq.db rabbitmq.broker] in *.
  unfold rabbitmq.process. rewrite Hdec, Hmal, run_call. unfold rabbitmq.on_db. cbn [rabbitmq.db].
  destruct (mark_runs (ios 0%nat) (rabbitmq.TenantID job) (rabbitmq.JobID job) db0 j) as (j1 & Hmark & Hsame);
    [done|apply He|apply He|done|]. cbn [rabbitmq.MarkEvaluationRunning evalstore_worker]. rewrite Hmark. cbn [fst snd].
  set (db1 := set_jobs _ db0) in *.
  assert (evaluable db1 job j1 r) as He1.
  { destruct He, Hsame. split; simpl; try done; [by rewrite lookup_insert_eq|congruence|congruence]. }
  cbn [prog.bind mbind prog.prog_bind]. rewrite run_call. cbn [rabbitmq.db].
  destruct (load_runs (ios 1%nat) db1 job j1 r) as (input & Hload & Hinput); [done..|].
  cbn [rabbitmq.LoadInput evalstore_worker]. rewrite Hload. cbn [fst snd]. rewrite run_call. cbn [rabbitmq.db].
  rewrite Hev. remember (rabbitmq.evaluate_all (evaluation.suite lower_rune) elapsed input) as results eqn:Hrs.
  destruct (summary results) as [[score duration] verdict] eqn:Hsm.
  destruct (suite_summary_eq lower_rune elapsed input results score duration verdict Hel Hrs Hsm) as (Hsc & Hdu & _).
  pose proof (Henc results) as Hr. destruct (encode_results results) as [encoded|?|?] eqn:Hencoded; [|done..].
  destruct (complete_runs (ios 2%nat) db1 (rabbitmq.TenantID job) (rabbitmq.JobID job)
    (rabbitmq.ExecutionID job) encoded j1 results score duration verdict) as (d' & Hcomp & Hj' & Hr' & payload & Hpl & Hev');
    try done; try apply He1.
  cbn [rabbitmq.CompleteEvaluation evalstore_worker]. rewrite Hcomp. cbn [fst snd].
  unfold rabbitmq.settle_ack. rewrite run_call. unfold rabbitmq.on_broker, rabbitmq.Ack, rabbitmq.command.
  rewrite (Hios 3%nat). cbn [rabbitmq.broker rabbitmq.db fst snd prog.run mret prog.prog_ret].
  split_and!.
  - by destruct (amqp.ack_law (rabbitmq.tag d) b0) as (_ & _ & -> & _).
  - eexists. split; [done|]. split; [done|]. destruct Hsame. by split.
  - exists input, encoded, payload. split.
    { destruct Hinput, Hsame as [Ht Hq Hk Hh Hty Hco Hpa ? ?]. by split; rewrite <- ?Hq, <- ?Hpa. }
    cbv zeta. by rewrite <- Hrs, Hsm.
Qed.
End Process.
End Spec.
End evalspec.
