(* ===== verification/Clients.v ===== *)
(** * Clients: what the users of the database may do to the shared tables

    The calls of the gateway's store ([Postgres]) and of the evaluation store
    ([EvalStore]) seen from the other processes: none of them touches the usage
    ledger, none changes or removes an outbox row, the rows they add can be
    published, and the requests keep drawn identifiers and 64-bit amounts. *)

From S2P Require Import Prelude Golib Request Budget Auth Store Outbox AuditTrail Postgres.
From S2P Require Import PostgresProofs Evaluators EvalStore EvalProofs.

Module clients.
Import persistence postgres postgres_proofs keeping.

(** ** Changes of the tables by clients *)

Section Clients.
Context `{Outside}.

(** A row that an exchange at [io] may put into the outbox under [k]. *)
Definition posting (io : IO) (k : string) (e : outbox.Entry) : Prop :=
  ∃ n ty agg tn corr payload enc,
    k = uuid io n ∧ e = outbox_entry k ty agg tn corr enc (io_now io) ∧
    encode_payload payload = Ok enc ∧ ty ∈ events.supported ∧ agg ≠ "" ∧ tn ≠ "" ∧ corr ≠ "".

(** Requests have drawn identifiers and 64-bit amounts. *)
Definition typed_row (id : string) (r : RequestRow) : Prop :=
  (∃ io n, id = uuid io n) ∧ in_int64 (default 0 (prompt_tokens r)) ∧
  in_int64 (default 0 (completion_tokens r)) ∧ in_int64 (default 0 (actual_cost r)).
Definition typed (db : DB) : Prop := ∀ id r, ai_requests db !! id = Some r → typed_row id r.

(** What a client may do: the ledger is not its business, outbox rows are added
    and none is changed. *)
Record writes (io : IO) (db db' : DB) : Prop := {
  wr_ledger : usage_ledger db' = usage_ledger db;
  wr_typed : typed db → typed db';
  wr_new k e : outbox_events db' !! k = Some e → outbox_events db !! k = Some e ∨ posting io k e
}.

#[global] Instance writes_preorder (io : IO) : PreOrder (writes io).
Proof.
  split; [split; auto|]. intros db1 db2 db3 [L1 T1 N1] [L2 T2 N2].
  split; [congruence|auto|]. intros k e [?%N1|?]%N2; auto.
Qed.

Lemma writes_rest (io : IO) (db db' : DB) :
  usage_ledger db' = usage_ledger db → ai_requests db' = ai_requests db →
  outbox_events db' = outbox_events db → writes io db db'.
Proof. intros Hl Hr Ho. split; [done| |]; unfold typed; rewrite ?Hr, ?Ho; auto. Qed.

Lemma update_request_writes (io : IO) (t id : string) (P : RequestRow → bool)
  (g : RequestRow → RequestRow) :
  (∀ r, typed_row id r → typed_row id (g r)) → keeps (writes io) (update_request t id P g).
Proof.
  intros Hg db. unfold update_request. destruct (ai_requests db !! id) as [r|] eqn:Hr; [|done].
  destruct (_ && _); [|done]. split; [done| |by left]. intros Ht id' r'. simpl.
  intros [[<- <-]|[_ ?]]%lookup_insert_Some; auto.
Qed.

Lemma update_attempt_writes (io : IO) (t id : string) (n : Z) (g : AttemptRow → AttemptRow) :
  keeps (writes io) (update_attempt t id n g).
Proof.
  intros db. unfold update_attempt. destruct (provider_attempts db !! _); [|done].
  destruct (_ && _); [|done]. by apply writes_rest.
Qed.

Lemma insertOutbox_writes (io : IO) (k n : nat) (ty agg tn corr : string) (payload : Payload) :
  ty ∈ events.supported → agg ≠ "" → tn ≠ "" → corr ≠ "" →
  keeps (writes io) (insertOutbox io k n ty agg tn corr payload).
Proof.
  intros Hty Ha Ht Hc. unfold insertOutbox.
  destruct (encode_payload payload) as [enc|?|?] eqn:Henc; [|by apply keeps_unchanged; [apply _|]..].
  apply keeps_statement; [apply _|]. intros db. destruct (outbox_events db !! uuid io n); [done|].
  split; [done|done|]. intros k' e. simpl. intros [[<- <-]|[_ ?]]%lookup_insert_Some; [right|by left].
  by exists n, ty, agg, tn, corr, payload, enc.
Qed.

(** The values of a call that a client has to get right: identifiers are not
    empty and amounts fit their 64-bit fields. *)
Definition identified (c : call) : Prop :=
  match c with
  | CCreate p => cr_TenantID p ≠ "" ∧ cr_CorrelationID p ≠ ""
  | CStart p => at_RequestID p ≠ "" ∧ at_TenantID p ≠ "" ∧ at_CorrelationID p ≠ ""
  | CComplete p =>
    (co_RequestID p ≠ "" ∧ co_TenantID p ≠ "" ∧ co_CorrelationID p ≠ "") ∧
    in_int64 (request.PromptTokens (request.resp_Usage (co_Response p))) ∧
    in_int64 (request.CompletionTokens (request.resp_Usage (co_Response p))) ∧
    in_int64 (co_CostMicroUSD p)
  | CFail p => fa_RequestID p ≠ "" ∧ fa_TenantID p ≠ "" ∧ fa_CorrelationID p ≠ ""
  | CReject t id corr _ => id ≠ "" ∧ t ≠ "" ∧ corr ≠ ""
  | _ => True
  end.

Section Drawn.
Context (uuid_nonempty : ∀ io n, uuid io n ≠ "").

Lemma zero_int64 : in_int64 0.
Proof. vm_compute. split; discriminate. Qed.

Lemma create_writes (io : IO) (p : CreateRequestParams) :
  identified (CCreate p) → keeps (writes io) (create_or_get io p).
Proof.
  intros [Ht Hc] db. unfold create_or_get, transaction. destruct (io_fault io 0); [done|].
  destruct (create_body io p db) as [[[r b]|?|?] db'] eqn:Hrun; [|done..].
  assert (writes io db db') as Hw; [|by destruct (io_fault io 1), (io_fault io 2)].
  unfold create_body in Hrun.
  apply bind_ok in Hrun as (mid & db0 & Hs & Hrun). inv_ok Hs. unfold authorize_model in Hs.
  assert (db0 = db) as -> by (repeat case_match; by simplify_eq).
  apply bind_ok in Hrun as (meta & db1 & Hm & Hrun). injection Hm as _ <-.
  apply bind_ok in Hrun as (ins & db2 & Hi & Hrun). inv_ok Hi. unfold insert_request in Hi.
  destruct (find_where (same_key _ _) _) as [[id row]|] eqn:Hkey.
  - injection Hi as <- <-. by apply create_old_ok in Hrun as (_ & -> & _).
  - destruct (ai_requests db !! uuid io 0) eqn:Hid; [done|]. injection Hi as <- <-.
    unfold create_rest in Hrun. apply bind_ok in Hrun as (id & db1 & Hret & Hrun).
    injection Hret as <- <-. apply bind_ok in Hrun as (record & db1 & Hq & Hrun).
    apply queryRequest_ok in Hq as (-> & row & m & _ & _ & _ & ->).
    apply bind_ok in Hrun as ([] & db1 & Hn & Hrun). injection Hn as <-.
    apply bind_ok in Hrun as ([] & db1 & Ho & Hrun). injection Hrun as _ _ <-.
    rewrite bool_decide_eq_true_2 in Ho by eauto.
    etrans; [|eapply keeps_run, Ho; apply insertOutbox_writes; [left|apply uuid_nonempty|done..]].
    split; [done| |by left]. intros Hty id r'. simpl.
    intros [[<- <-]|[_ ?]]%lookup_insert_Some; [|by auto].
    split_and!; [by eexists _, _|apply zero_int64..].
Qed.

(** The steps of a method, each limited to what clients write. *)
#[local] Ltac piece :=
  first [ apply keeps_transaction; [apply _|]
        | apply keeps_autocommit; [apply _|]
        | apply keeps_statement; [apply _|]
        | apply keeps_one_row, _
        | apply update_attempt_writes
        | apply insertOutbox_writes; [set_solver|done..]
        | apply keeps_bind; [apply _| |intros ?]
        | by apply keeps_unchanged; [apply _|intros ?; unfold act; repeat case_match] ].

Lemma perform_writes (io : IO) (c : call) : identified c → keeps (writes io) (perform io c).
Proof.
  intros Hc. destruct c as [p|t id from to|p|p|p|t id corr|t id amount now|t id corr amount|id amount];
    cbn [perform CreateOrGetRequest TransitionRequest StartAttempt CompleteRequest FailAttempt
         CancelRequest ReserveBudget RejectBudget ReconcileBudget postgres_store].
  - apply keeps_bind; [apply _|by apply create_writes|]. by intros []; apply keeps_unchanged; [apply _|].
  - unfold transition. repeat piece. apply update_request_writes. by intros r Hr.
  - destruct Hc as (? & ? & ?). unfold start_attempt. repeat piece.
    intros db. unfold insert_attempt. repeat case_match; try reflexivity. by apply writes_rest.
  - destruct Hc as ((? & ? & ?) & ? & ? & ?). unfold complete_request.
    destruct (encode_response (co_Response p)); [|repeat piece..]. repeat piece.
    apply update_request_writes. by intros r [? _].
  - destruct Hc as (? & ? & ?). unfold fail_attempt. repeat piece.
    + destruct (0 <? fa_AttemptNumber p); repeat piece.
    + destruct (Final p); repeat piece. apply update_request_writes. by intros r Hr.
  - unfold cancel_request. repeat piece. apply update_request_writes. by intros r Hr.
  - unfold reserve_budget. repeat piece.
    destruct a0 as [[[? ?] ?] ?]. repeat piece. intros db. by apply writes_rest.
  - destruct Hc as (? & ? & ?). unfold reject_budget. repeat piece.
    apply update_request_writes. by intros r Hr.
  - unfold reconcile_budget. repeat piece. intros db. unfold act.
    repeat case_match; try reflexivity. by apply writes_rest.
Qed.
End Drawn.

(** ** Changes of the tables by the evaluation API and its workers *)

Context `{evalstore.Codecs}.

Inductive evaluation_call : Type :=
| ECreate (p : evalstore.CreateEvaluationParams)
| EQueued (tenantID jobID : string)
| ERunning (tenantID jobID : string)
| EComplete (tenantID jobID executionID : string) (results : list evaluation.Result)
| EFail (tenantID jobID category : string) (permanent : bool).

Definition evaluate (io : IO) (c : evaluation_call) : M evalstore.DB unit :=
  match c with
  | ECreate p => evalstore.CreateOrGetEvaluation io p ≫= λ _, mret ()
  | EQueued t id => evalstore.MarkEvaluationQueued io t id
  | ERunning t id => evalstore.MarkEvaluationRunning io t id
  | EComplete t id execution results => evalstore.CompleteEvaluation io t id execution results
  | EFail t id category permanent => evalstore.FailEvaluation io t id category permanent
  end.

Definition evaluation_identified (c : evaluation_call) : Prop :=
  match c with
  | ECreate p => evalstore.ce_CorrelationID p ≠ ""
  | EComplete t id _ _ | EFail t id _ _ => t ≠ "" ∧ id ≠ ""
  | _ => True
  end.

Definition correlated (d : evalstore.DB) : Prop := ∀ id j,
  evalstore.evaluation_jobs d !! id = Some j → evalstore.j_correlation j ≠ "".

Definition evaluation_kinds : list string := [events.EvaluationComplete; events.EvaluationFailed].

(** What evaluations do to the tables they share with the gateway. *)
Record evaluates (io : IO) (db db' : DB) : Prop := {
  ev_writes : writes io db db';
  ev_requests : ai_requests db' = ai_requests db;
  ev_posted : ∃ es, posted (outbox_events db) (outbox_events db') es ∧
                    Forall (λ e, event_type e ∈ evaluation_kinds) es
}.

#[global] Instance evaluates_refl (io : IO) : Reflexive (evaluates io).
Proof. intros db. split; [reflexivity|done|]. exists []. split; constructor. Qed.

Lemma insertOutbox_evaluates (io : IO) (k n : nat) (ty agg tn corr : string) (payload : Payload)
  (db db' : DB) :
  ty ∈ evaluation_kinds → agg ≠ "" → tn ≠ "" → corr ≠ "" →
  insertOutbox io k n ty agg tn corr payload db = (Ok (), db') → evaluates io db db'.
Proof.
  intros Hty Ha Ht Hc Hrun. assert (ty ∈ events.supported) as Hsup.
  { unfold evaluation_kinds, events.supported in *. set_solver. }
  pose proof (keeps_run _ _ _ _ _ (insertOutbox_writes io k n ty agg tn corr payload Hsup Ha Ht Hc) Hrun).
  apply insertOutbox_ok in Hrun as (enc & _ & Hnew & ->). split; [done..|].
  eexists. split; [by apply posted_one|]. by apply Forall_singleton.
Qed.

Lemma on_base_ok {A} (m : M DB A) (a : A) (d d' : evalstore.DB) :
  evalstore.on_base m d = (Ok a, d') →
  m (evalstore.base d) = (Ok a, evalstore.base d') ∧
  evalstore.evaluation_jobs d' = evalstore.evaluation_jobs d.
Proof. unfold evalstore.on_base. destruct (m (evalstore.base d)) as [out b]. by intros [= -> <-]. Qed.

(** The relation of one transaction. *)
Lemma transaction_ends {S A} (R : relation S) `{!Reflexive R} (io : IO) (b c : error → error)
  (m : M S A) (t : S) :
  (∀ a t', m t = (Ok a, t') → R t t') → R t (transaction io b c m t).2.
Proof.
  intros Hm. unfold transaction. destruct (io_fault io 0); [done|].
  destruct (m t) as [[a|?|?] t']; [|done..]. specialize (Hm a t' eq_refl).
  by destruct (io_fault io 1), (io_fault io 2).
Qed.

Definition evaluation_step (io : IO) (d d' : evalstore.DB) : Prop :=
  correlated d → correlated d' ∧ evaluates io (evalstore.base d) (evalstore.base d').
#[global] Instance evaluation_step_refl (io : IO) : Reflexive (evaluation_step io).
Proof. intros d Hd. split; [done|reflexivity]. Qed.

Lemma jobs_step (io : IO) (d : evalstore.DB) (id : string) (j : evalstore.JobRow) :
  (correlated d → evalstore.j_correlation j ≠ "") →
  evaluation_step io d (evalstore.set_jobs (<[id := j]> (evalstore.evaluation_jobs d)) d).
Proof.
  intros Hj Hd. split; [|reflexivity]. intros id' j'. simpl.
  intros [[<- <-]|[_ ?]]%lookup_insert_Some; eauto.
Qed.

Lemma update_job_step (io : IO) (t id : string) (from : list evalstore.JobStatus)
  (g : evalstore.JobRow → res evalstore.JobRow) (d : evalstore.DB) :
  (∀ j j', g j = Ok j' → evalstore.j_correlation j' = evalstore.j_correlation j) →
  evaluation_step io d (evalstore.update_job t id from g d).2 ∧
  evalstore.base (evalstore.update_job t id from g d).2 = evalstore.base d.
Proof.
  intros Hg. unfold evalstore.update_job.
  destruct (evalstore.evaluation_jobs d !! id) as [j|] eqn:Hj; [|done]. destruct (_ && _); [|done].
  destruct (g j) as [j'|?|?] eqn:Hgj; [|done..]. split; [|done]. apply jobs_step. intros Hd.
  rewrite (Hg _ _ Hgj). by eapply Hd.
Qed.

Lemma autocommit_step {A} (io : IO) (what : error → error) (m : M evalstore.DB A) (d : evalstore.DB) :
  evaluation_step io d (m d).2 → evaluation_step io d (autocommit io what m d).2.
Proof. intros Hm. unfold autocommit. destruct (io_fault io 0); [done|]. by destruct (io_fault io 1). Qed.

Lemma create_step (io : IO) (p : evalstore.CreateEvaluationParams) (d : evalstore.DB) :
  evalstore.ce_CorrelationID p ≠ "" →
  evaluation_step io d (evalstore.CreateOrGetEvaluation io p d).2.
Proof.
  intros Hp. unfold evalstore.CreateOrGetEvaluation.
  assert (evaluation_step io d (autocommit io (Wrap "create evaluation job") (evalstore.insert_job io p) d).2) as Hs.
  { apply autocommit_step. unfold evalstore.insert_job. repeat case_match; try reflexivity.
    by apply jobs_step. }
  unfold mbind at 1, M_bind at 1. destruct (autocommit _ _ _ d) as [[ins|?|?] d1]; [|done..].
  cbn [snd] in Hs.
  match goal with |- evaluation_step _ _ (?m d1).2 => assert (keeps (=) m) as Hsame end;
    [|by rewrite <- (Hsame d1)].
  apply keeps_bind; [apply _| |].
  - apply keeps_unchanged; [apply _|]. intros d2. unfold statement, evalstore.existing_job. by repeat case_match.
  - intros id. apply keeps_bind; [apply _| |].
    + apply keeps_unchanged; [apply _|]. intros d2. apply evalspec.get_statement_same.
    + intros job. apply keeps_unchanged; [apply _|]. intros d2. by destruct (_ && _).
Qed.

Lemma insert_result_base (id : string) (row : evalstore.ResultRow) (d d' : evalstore.DB) (u : unit) :
  evalstore.insert_result id row d = (Ok u, d') →
  evalstore.base d' = evalstore.base d ∧ evalstore.evaluation_jobs d' = evalstore.evaluation_jobs d.
Proof. unfold evalstore.insert_result. intros. repeat case_match; by simplify_eq. Qed.

Lemma complete_step (io : IO) (t id execution : string) (results : list evaluation.Result)
  (d : evalstore.DB) : t ≠ "" → id ≠ "" →
  evaluation_step io d (evalstore.CompleteEvaluation io t id execution results d).2.
Proof.
  intros Ht Hid. rewrite evalspec.CompleteEvaluation_body.
  destruct (evalstore.encode_results results) as [encoded|?|?]; [|reflexivity..].
  apply transaction_ends; [apply _|]. intros [] d' Hrun Hd. unfold evalspec.complete_body in Hrun.
  destruct (evalstore.summary results) as [[score duration] verdict].
  apply bind_ok in Hrun as ([] & d1 & Hs1%statement_ok & Hrun).
  apply insert_result_base in Hs1 as [Hb1 Hj1].
  apply bind_ok in Hrun as ([] & d2 & Hs2%statement_ok & Hrun).
  destruct (update_job_step io t id evalstore.all_statuses
    (λ j, Ok (evalstore.done_row (io_now io) j)) d1) as [Hs Hb2]; [by intros j j' [= <-]|].
  rewrite Hs2 in Hs, Hb2. cbn [snd] in Hs, Hb2.
  apply on_base_ok in Hrun as [Hrun Hj3]. rewrite Hb2, Hb1 in Hrun. split.
  - unfold correlated. rewrite Hj3. apply Hs. unfold correlated. by rewrite Hj1.
  - eapply insertOutbox_evaluates, Hrun; [by left|done..].
Qed.

Lemma fail_step (io : IO) (t id category : string) (permanent : bool) (d : evalstore.DB) :
  t ≠ "" → id ≠ "" →
  evaluation_step io d (evalstore.FailEvaluation io t id category permanent d).2.
Proof.
  intros Ht Hid. unfold evalstore.FailEvaluation. apply transaction_ends; [apply _|].
  intros [] d' Hrun Hd. apply bind_ok in Hrun as (corr & d1 & Hs%statement_ok & Hrun).
  unfold evalstore.update_failed in Hs.
  destruct (evalstore.evaluation_jobs d !! id) as [j|] eqn:Hj; [|done].
  destruct (_ =s t); [|done]. injection Hs as <- <-.
  match type of Hrun with context [evalstore.set_jobs (<[id := ?j']> _) _] =>
    destruct (jobs_step io d id j') as [Hd1 _]; [intros _; exact (Hd _ _ Hj)|done|] end.
  destruct permanent; [|by injection Hrun as <-].
  apply on_base_ok in Hrun as [Hrun Hj3]. split.
  - unfold correlated. by rewrite Hj3.
  - eapply insertOutbox_evaluates, Hrun; [right; by left|done|done|exact (Hd _ _ Hj)].
Qed.

Lemma evaluate_step (io : IO) (c : evaluation_call) (d : evalstore.DB) :
  evaluation_identified c → evaluation_step io d (evaluate io c d).2.
Proof.
  destruct c as [p|t id|t id|t id execution results|t id category permanent]; cbn [evaluate]; intros Hc.
  - pose proof (create_step io p d Hc) as Hs. unfold mbind, M_bind.
    by destruct (evalstore.CreateOrGetEvaluation io p d) as [[] d'].
  - apply autocommit_step, update_job_step. by intros j j' [= <-].
  - apply autocommit_step, update_job_step. intros j j'. unfold evalstore.running_row.
    destruct (_ <? _); [done|]. by intros [= <-].
  - destruct Hc. by apply complete_step.
  - destruct Hc. by apply fail_step.
Qed.
End Clients.
End clients.
