(* ===== verification/Platform.v ===== *)
(** * Platform: from a request to its bill

    The components around the database put together: clients write requests,
    evaluations and outbox rows ([Clients]); any number of relays ([Outbox]) move
    the rows to the topic, one exchange at a time; the audit consumer
    ([AuditTrail]) applies the topic to the usage ledger that admission control
    reads. A state holds the tables, the topic and the program point of every
    relay; the steps of all of them interleave, and any exchange may fail or lose
    its answer. As in the programs, an error of the database ends the loop of a relay
    or of the consumer until its process is started again. *)

From S2P Require Import Prelude Golib Request Budget Auth Store Outbox AuditTrail Postgres.
From S2P Require Import PostgresProofs Evaluators EvalStore EvalProofs Clients.

Module platform.
Import persistence postgres postgres_proofs keeping clients.

(** Where a relay is in its loop: before a claim, before the send of the first of
    the claimed rows, between the send of a row and its mark, or at its end, which an
    error of the database brings about. *)
Inductive point : Type :=
| Stopped
| Idle
| Sending (rows : list outbox.Row)
| Marking (row : outbox.Row) (sent : unit + error) (rows : list outbox.Row).

(** The database, the topic (one partition), the consumer group's offset, the
    consumer's own tables and whether it is in its loop, and the relays. *)
Record State : Type := mkState {
  db : evalstore.DB;
  topic : list kafka.Message;
  offset : nat;
  processed : gmap (string * string) (string * Z);
  audit_events : gmap string audit.AuditRow;
  consuming : bool;
  relays : nat → point
}.

Definition tables (s : State) : DB := evalstore.base (db s).

(** The parts that the relays and the consumer work on. *)
Definition queue (s : State) : relay.State := relay.mkState (outbox_events (tables s)) (topic s).
Definition trail (s : State) : consumer.State :=
  consumer.mkState (topic s) (offset s)
    (audit.mkDB (processed s) (audit_events s) (usage_ledger (tables s))).

Definition with_db (d : evalstore.DB) (s : State) : State :=
  mkState d (topic s) (offset s) (processed s) (audit_events s) (consuming s) (relays s).
Definition with_tables (b : DB) (s : State) : State :=
  with_db (evalstore.mkDB b (evalstore.evaluation_jobs (db s)) (evalstore.evaluation_results (db s))) s.
Definition with_relay (i : nat) (p : point) (s : State) : State :=
  mkState (db s) (topic s) (offset s) (processed s) (audit_events s) (consuming s)
    (λ j, if (j =? i)%nat then p else relays s j).
Definition with_queue (q : relay.State) (s : State) : State :=
  let s := with_tables (set_outbox (relay.table q) (tables s)) s in
  mkState (db s) (relay.topic q) (offset s) (processed s) (audit_events s) (consuming s) (relays s).
Definition set_ledger (t : gmap (string * string) audit.LedgerRow) (d : DB) : DB :=
  mkDB (catalog d) (ai_requests d) (provider_attempts d) (budget_reservations d) t (outbox_events d).
Definition with_trail (c : consumer.State) (s : State) : State :=
  let s := with_tables (set_ledger (audit.usage_ledger (consumer.db c)) (tables s)) s in
  mkState (db s) (consumer.log c) (consumer.offset c) (audit.processed (consumer.db c))
    (audit.audit_events (consumer.db c)) (consuming s) (relays s).
Definition with_consuming (b : bool) (s : State) : State :=
  mkState (db s) (topic s) (offset s) (processed s) (audit_events s) b (relays s).

Section Machine.
Context `{Outside} `{evalstore.Codecs}.
(** The JSON coders, the tracing headers, the order in which a claim returns its
    rows, the consumer's name and the configuration of the relays. *)
Context (json_Valid : string → bool) (decode : string → res audit.Usage)
  (marshal : events.Envelope → res string) (unmarshal : string → res events.Envelope)
  (inject : IO → list (string * string)) (order : list outbox.Row → list outbox.Row)
  (name : string) (worker : nat → relay.Relay).

(** One exchange of a relay with the database or the broker: [Run] in pieces. An error
    that ends the batch ends the loop. *)
Definition exchange (w : relay.Relay) (io : IO) (locked : string → bool) (p : point) (q : relay.State)
  : point * relay.State :=
  match p with
  | Stopped => (Stopped, q)
  | Idle =>
    match relay.on_table (outbox.Claim io order locked (relay.workerID w)
            (Z.to_nat (relay.batchSize w)) time.Minute) q with
    | (Ok rows, q) => (Sending rows, q)
    | (_, q) => (Stopped, q)
    end
  | Sending [] => (Idle, q)
  | Sending (row :: rows) =>
    match caught (relay.on_topic (kafka.Publish json_Valid marshal inject io (outbox.envelope row))) q with
    | (Ok sent, q) => (Marking row sent rows, q)
    | (_, q) => (Stopped, q)
    end
  | Marking row sent rows =>
    match relay.mark_row w io row sent q with
    | (Ok _, q) => (Sending rows, q)
    | (_, q) => (Stopped, q)
    end
  end.

(** The next iteration of the consumer's loop, when it is in it: an error, and the end
    of its context, end the loop. The transaction of a message and the commit of its
    offset touch different data than the other steps in between could, so they are one
    step. *)
Definition consume (io : IO) (s : State) : State :=
  if consuming s then
    let '(out, c) := consumer.Run json_Valid decode unmarshal name [io] (trail s) in
    with_consuming (is_ok out && bool_decide (io_ctx io 0 = None)) (with_trail c s)
  else s.

(** The clock of the database: after the zero time and before the year 10000. *)
Definition clock (io : IO) : Prop := 0 < io_now io < 3652059 * time.Day.

(** What the relays and the consumer do in their loops. Neither program starts a loop
    again that has ended. *)
Inductive background : State → State → Prop :=
| bg_relay s i io locked p q :
    exchange (worker i) io locked (relays s i) (queue s) = (p, q) →
    background s (with_relay i p (with_queue q s))
| bg_consume s io : background s (consume io s).

(** Everything that happens without an operator: the calls of clients, the loops, and
    the death of a process at any point. *)
Inductive unattended : State → State → Prop :=
| un_call s io c : clock io → orderly c → identified c →
    unattended s (with_tables (perform io c (tables s)).2 s)
| un_evaluate s io c : clock io → evaluation_identified c →
    unattended s (with_db (evaluate io c (db s)).2 s)
| un_background s s' : background s s' → unattended s s'
| un_relay_dies s i : unattended s (with_relay i Stopped s)
| un_consumer_dies s : unattended s (with_consuming false s).

(** A process that is not running may be started. *)
Inductive step : State → State → Prop :=
| step_unattended s s' : unattended s s' → step s s'
| step_start_relay s i : relays s i = Stopped → step s (with_relay i Idle s)
| step_start_consumer s : consuming s = false → step s (with_consuming true s).

(** A configured database without requests, and no process running yet. *)
Definition initial (s : State) : Prop := ∃ c,
  s = mkState (evalstore.mkDB (mkDB c ∅ ∅ ∅ ∅ ∅) ∅ ∅) [] 0 ∅ ∅ false (λ _, Stopped).
Definition reachable (s : State) : Prop := ∃ s0, initial s0 ∧ rtc step s0 s.

(** ** What the accounts say

    The usage of the completed requests, and what the ledger holds: tenant, usage
    and time of each. *)
Definition account : Type := string * audit.Usage * time.Time.
Definition charged (s : State) : list account :=
  omap (λ ir : string * RequestRow,
    if bool_decide (status ir.2 = request.Completed)
    then Some (tenant_id ir.2,
               audit.mkUsage ir.1 (default 0 (prompt_tokens ir.2)) (default 0 (completion_tokens ir.2))
                 (default 0 (actual_cost ir.2)), default 0 (completed_at ir.2))
    else None) (map_to_list (ai_requests (tables s))).
Definition billed (s : State) : list account :=
  (λ kv : (string * string) * audit.LedgerRow,
     (kv.1.1, audit.usage kv.2, audit.recorded_for kv.2)) <$> map_to_list (usage_ledger (tables s)).

(** What a tenant has spent from a time on, by a list of accounts. *)
Definition spent_since (tenantID : string) (from : time.Time) (l : list account) : Z :=
  zsum ((λ a : account, if (a.1.1 =s tenantID) && (from <=? a.2) then audit.CostMicroUSD a.1.2 else 0) <$> l).

(** Everything announced has been sent, and everything sent has been processed. *)
Definition settled (s : State) : Prop :=
  (∀ k e, outbox_events (tables s) !! k = Some e → is_Some (outbox.published_at e)) ∧
  offset s = length (topic s).

(** ** Invariant *)

Definition point_ok (q : relay.State) (p : point) : Prop :=
  match p with
  | Stopped | Idle => True
  | Sending rows => Forall (relay.stored q) rows
  | Marking row sent rows =>
    relay.stored q row ∧ (sent = inl () → relay.sent json_Valid marshal inject q row) ∧
    Forall (relay.stored q) rows
  end.

Definition publishable_rows (t : outbox.Table) : Prop := ∀ k e, t !! k = Some e →
  relay.publishable json_Valid marshal (outbox.row e).

Record Inv (s : State) : Prop := {
  inv_announced : announced (tables s);
  inv_typed : typed (tables s);
  inv_correlated : correlated (db s);
  inv_retained : relay.retained json_Valid marshal inject (queue s);
  inv_publishable : publishable_rows (outbox_events (tables s));
  inv_points i : point_ok (queue s) (relays s i);
  inv_trail : consumer.reachable json_Valid decode unmarshal name (trail s)
}.

(** The code outside the program: identifiers are not empty; the encoder of the
    payloads writes JSON, and what it writes of a usage decodes to that usage;
    an envelope with a JSON payload and a time within the calendar can be encoded,
    and decodes to itself with an equivalent payload (it is used for envelopes made of
    columns of the database, whose texts are UTF-8; of other texts JSON would replace
    bytes); a claim returns each row once. *)
Class Laws : Prop := {
  law_uuid io n : uuid io n ≠ "";
  law_payload p enc : encode_payload p = Ok enc → json_Valid enc = true;
  law_usage p latency enc :
    let u := request.resp_Usage (co_Response p) in
    (∃ io n, co_RequestID p = uuid io n) → in_int64 (request.PromptTokens u) →
    in_int64 (request.CompletionTokens u) → in_int64 (co_CostMicroUSD p) →
    encode_payload (usage_payload p latency) = Ok enc →
    decode enc = Ok (audit.mkUsage (co_RequestID p) (request.PromptTokens u)
                       (request.CompletionTokens u) (co_CostMicroUSD p));
  law_marshal ev : json_Valid (events.Payload ev) = true → 0 < events.Timestamp ev < 3652059 * time.Day →
    is_ok (marshal ev);
  law_round_trip ev enc : json_Valid (events.Payload ev) = true → marshal ev = Ok enc →
    ∃ p, unmarshal enc = Ok (pipeline.with_payload ev p) ∧ decode p = decode (events.Payload ev) ∧
         json_Valid p = true;
  law_order rows : order rows ≡ₚ rows
}.
End Machine.

#[global] Arguments law_uuid {_ _ _ _ _ _ _}.
#[global] Arguments law_payload {_ _ _ _ _ _ _}.
#[global] Arguments law_usage {_ _ _ _ _ _ _}.
#[global] Arguments law_marshal {_ _ _ _ _ _ _}.
#[global] Arguments law_round_trip {_ _ _ _ _ _ _}.
#[global] Arguments law_order {_ _ _ _ _ _ _}.
End platform.
