(* ===== verification/PlatformProofs.v ===== *)
(** * PlatformProofs: every completed request is billed once

    The invariant of [Platform] and its two consequences: in every reachable state
    the ledger is a part of the charges of the completed requests, all of them once
    everything is settled; and from every reachable state in which a relay and the
    consumer are running, these settle everything by themselves. *)

From S2P Require Import Prelude Golib Request Budget Auth Store Outbox AuditTrail Postgres.
From S2P Require Import PostgresProofs Evaluators EvalStore EvalProofs Clients Platform.

Module platform_proofs.
Import persistence postgres postgres_proofs keeping clients platform.

(** ** Tables with the same rows *)

Definition same_rows (t t' : outbox.Table) : Prop := outbox.row <$> t' = outbox.row <$> t.

Lemma same_rows_pointwise (t t' : outbox.Table) (f : string → outbox.Entry → outbox.Entry) :
  (∀ k, t' !! k = f k <$> t !! k) → (∀ k e, outbox.row (f k e) = outbox.row e) → same_rows t t'.
Proof.
  intros Ht Hf. apply map_eq. intros k. rewrite !lookup_fmap, Ht. destruct (t !! k); simpl; [|done].
  by rewrite Hf.
Qed.

Lemma same_rows_alter (t : outbox.Table) (k : string) (f : outbox.Entry → outbox.Entry) :
  (∀ e, outbox.row (f e) = outbox.row e) → same_rows t (alter f k t).
Proof.
  intros Hf. apply (same_rows_pointwise _ _ (λ k', if decide (k = k') then f else λ e, e)).
  - intros k'. destruct (decide (k = k')) as [<-|Hne]; [by rewrite lookup_alter_eq|].
    rewrite lookup_alter_ne by done. by destruct (t !! k').
  - intros k' e. by destruct (decide _).
Qed.

Lemma same_rows_lookup (t t' : outbox.Table) (k : string) (e' : outbox.Entry) :
  same_rows t t' → t' !! k = Some e' → ∃ e, t !! k = Some e ∧ outbox.row e' = outbox.row e.
Proof.
  intros Hs He. apply (f_equal (λ m : gmap string outbox.Row, m !! k)) in Hs.
  rewrite !lookup_fmap, He in Hs. simpl in Hs. symmetry in Hs. apply fmap_Some in Hs as (e & ? & ?). eauto.
Qed.

#[global] Instance same_rows_sym : Symmetric same_rows.
Proof. intros t t' Hs. symmetry. exact Hs. Qed.

Lemma count_events_rows (ty id : string) (t t' : outbox.Table) :
  same_rows t t' → count_events ty id t' = count_events ty id t.
Proof.
  intros Hs. set (f := λ kr : string * outbox.Row,
    (outbox.EventType kr.2 =s ty) && (outbox.AggregateID kr.2 =s id)).
  assert (∀ m : outbox.Table, count_events ty id m = count f (map_to_list (outbox.row <$> m))) as Hc.
  { intros m. unfold count_events. by rewrite map_to_list_fmap, count_fmap. }
  by rewrite !Hc, Hs.
Qed.

Section Proofs.
Context `{Outside} `{evalstore.Codecs}.

Lemma announced_same_rows (d d' : DB) :
  ai_requests d' = ai_requests d → same_rows (outbox_events d) (outbox_events d') →
  announced d → announced d'.
Proof.
  intros Hr Hs [Hc Hf Hu]. split; rewrite Hr.
  - intros ty id Hty. rewrite (count_events_rows _ _ _ _ Hs). auto.
  - intros id. rewrite (count_events_rows _ _ _ _ Hs). auto.
  - intros id r Hid Hst. destruct (Hu id r Hid Hst) as (k & e & He & Hty & Hab & Hrep).
    destruct (same_rows_lookup _ _ k e (symmetry Hs) He) as (e' & He' & Hrow). exists k, e'.
    unfold event_type, about, reports in *. rewrite <- Hrow. eauto.
Qed.

(** ** Effects seen by the relays *)

Lemma effect_keep (c : call) (d d' : DB) (k : string) (e : outbox.Entry) :
  effect c d d' → outbox_events d !! k = Some e → outbox_events d' !! k = Some e.
Proof.
  intros [es _ _ Hp _|id r r' es _ _ _ _ Hp _|id p mid meta now e' _ _ _ _ _ Hp _ _] He;
    by eapply posted_keep.
Qed.

Lemma announced_evaluates (io : IO) (d d' : DB) : evaluates io d d' → announced d → announced d'.
Proof.
  intros [_ Hr (es & Hp & Hes)] [Hc Hf Hu].
  assert (∀ ty id, ty ∉ evaluation_kinds → count (matches ty id) es = 0) as Hnone.
  { intros ty id Hty. apply count_none. eapply Forall_impl; [exact Hes|].
    intros e He. left. congruence. }
  split; rewrite Hr.
  - intros ty id Hty. rewrite (posted_count _ _ _ _ _ Hp), Hnone, Hc; [lia|done|].
    unfold counted in Hty. unfold evaluation_kinds. rewrite !elem_of_cons in Hty. set_solver.
  - intros id. rewrite (posted_count _ _ _ _ _ Hp), Hnone; [apply Hf|].
    unfold evaluation_kinds. set_solver.
  - intros id r Hid Hst. destruct (Hu id r Hid Hst) as (k & e & He & ?). exists k, e.
    split; [by eapply posted_keep|done].
Qed.

Context (json_Valid : string → bool) (decode : string → res audit.Usage)
  (marshal : events.Envelope → res string) (unmarshal : string → res events.Envelope)
  (inject : IO → list (string * string)) (order : list outbox.Row → list outbox.Row)
  (name : string) (worker : nat → relay.Relay)
  `{!Laws json_Valid decode marshal unmarshal order}.
#[local] Abbreviation Inv := (platform.Inv json_Valid decode marshal unmarshal inject name).
#[local] Abbreviation rely := (relay.rely json_Valid marshal inject).
#[local] Abbreviation retained := (relay.retained json_Valid marshal inject).
#[local] Abbreviation point_ok := (platform.point_ok json_Valid marshal inject).
#[local] Abbreviation exchange := (platform.exchange json_Valid marshal inject order).
#[local] Abbreviation consume := (platform.consume json_Valid decode unmarshal name).
#[local] Abbreviation background := (platform.background json_Valid decode marshal unmarshal inject order name worker).
#[local] Abbreviation unattended := (platform.unattended json_Valid decode marshal unmarshal inject order name worker).
#[local] Abbreviation step := (platform.step json_Valid decode marshal unmarshal inject order name worker).
#[local] Abbreviation reachable := (platform.reachable json_Valid decode marshal unmarshal inject order name worker).

Lemma posting_publishable (io : IO) (k : string) (e : outbox.Entry) :
  clock io → posting io k e → relay.publishable json_Valid marshal (outbox.row e).
Proof.
  intros Hclock (n & ty & agg & tn & corr & payload & enc & -> & -> & Henc & Hty & Ha & Ht & Hc).
  apply law_payload in Henc. unfold clock in Hclock.
  pose proof (law_uuid io n). apply String.eqb_neq in Ha, Ht, Hc. split.
  - unfold events.Validate. cbn -[events.supported time.Day].
    rewrite Ha, Ht, Hc, (proj2 (String.eqb_neq (uuid io n) "")) by done. cbn [orb].
    rewrite bool_decide_eq_true_2 by done. cbn [negb]. rewrite Henc. unfold time.IsZero.
    by rewrite (proj2 (Z.eqb_neq (io_now io) 0)) by lia.
  - by apply law_marshal.
Qed.

Lemma point_evolves (q q' : relay.State) (p : point) :
  relay.evolves q q' → point_ok q p → point_ok q' p.
Proof.
  intros He. assert (∀ rows, Forall (relay.stored q) rows → Forall (relay.stored q') rows) as Hrows.
  { intros rows Hr. eapply Forall_impl; [exact Hr|]. intros r. by apply relay.evolves_stored. }
  destruct p as [| |rows|row sent rows]; simpl; [done|done|auto|]. intros (? & Hs & ?).
  split_and!; [by eapply relay.evolves_stored| |auto]. intros Hsent.
  by eapply relay.evolves_sent, Hs.
Qed.

(** *** Clients *)

Lemma client_inv (io : IO) (d : evalstore.DB) (s : State) :
  clock io → writes io (tables s) (evalstore.base d) → announced (evalstore.base d) → correlated d →
  (∀ k e, outbox_events (tables s) !! k = Some e → outbox_events (evalstore.base d) !! k = Some e) →
  Inv s → Inv (with_db d s).
Proof.
  intros Hclock [Hl Ht Hn] Ha Hc Hk [_ It _ [If Im] Ip Ipt Itr].
  assert (relay.evolves (queue s) (queue (with_db d s))) as Hev.
  { split; [done|]. intros k e He%Hk. exists e. done. }
  split; try done.
  - auto.
  - split.
    + intros k e [He|Hp]%Hn.
      * destruct (If k e He) as [? Hs]. split; [done|]. intros Hpub. by eapply relay.evolves_sent, Hs.
      * destruct Hp as (n & ty & agg & tn & corr & payload & enc & -> & -> & _). split; [done|by intros []].
    + intros m (r & ? & ?)%Im. exists r. split; [by eapply relay.evolves_stored|done].
  - intros k e [He|Hp]%Hn; [by eapply Ip|by eapply posting_publishable].
  - intros i. by eapply point_evolves, Ipt.
  - unfold trail, tables. simpl. rewrite Hl. exact Itr.
Qed.

Lemma call_inv (io : IO) (c : call) (s : State) :
  clock io → orderly c → identified c → Inv s → Inv (with_tables (perform io c (tables s)).2 s).
Proof.
  intros Hclock Hord Hid Hs. pose proof (perform_effect io c (tables s)) as Heff.
  apply (client_inv io); [done| | | | |done].
  - apply perform_writes; [apply law_uuid|done].
  - by eapply effect_announced, inv_announced.
  - exact (inv_correlated _ _ _ _ _ _ _ Hs).
  - intros k e. by apply (effect_keep c).
Qed.

Lemma evaluate_inv (io : IO) (c : evaluation_call) (s : State) :
  clock io → evaluation_identified c → Inv s → Inv (with_db (evaluate io c (db s)).2 s).
Proof.
  intros Hclock Hid Hs. destruct (evaluate_step io c (db s) Hid) as [Hc Hev]; [apply Hs|].
  apply (client_inv io); [done|apply Hev| |done| |done].
  - eapply announced_evaluates; [exact Hev|apply Hs].
  - intros k e He. destruct Hev as [_ _ (es & Hp & _)]. by eapply posted_keep.
Qed.

(** *** Relays *)

Lemma Claim_rows (io : IO) (locked : string → bool) (w : string) (limit : nat) (ttl : time.Duration)
  (t : outbox.Table) : same_rows t (outbox.Claim io order locked w limit ttl t).2.
Proof.
  unfold outbox.Claim. destruct (io_fault io 0); [done|].
  set (cs := outbox.candidates _ _ _ _ t).
  assert (same_rows t (outbox.claim_all (io_now io) w cs.*1 t)) as Hs.
  { apply (same_rows_pointwise _ _ (λ k, if k ∈? cs.*1 then outbox.claim_entry (io_now io) w else λ e, e)).
    - intros k. apply relay.claim_all_lookup, relay.candidates_NoDup.
    - intros k e. by destruct (k ∈? cs.*1). }
  destruct (io_fault io 1); [done|]. destruct (io_fault io 2); [done|]. by destruct (io_fault io 3).
Qed.

Lemma update_one_rows (io : IO) (what id : string) (f : outbox.Entry → outbox.Entry) (t : outbox.Table) :
  relay.gentle f → same_rows t (outbox.update_one io what id f t).2.
Proof.
  intros Hf. unfold outbox.update_one. destruct (io_fault io 0); [done|].
  assert (same_rows t (alter f id t)) by (apply same_rows_alter; intros e; apply Hf).
  by destruct (io_fault io 1).
Qed.

Lemma mark_row_rows (w : relay.Relay) (io : IO) (row : outbox.Row) (sent : unit + error)
  (q : relay.State) :
  same_rows (relay.table q) (relay.table (relay.mark_row w io row sent q).2) ∧
  relay.topic (relay.mark_row w io row sent q).2 = relay.topic q.
Proof.
  assert (∀ f what, relay.gentle f →
    same_rows (relay.table q) (relay.table (relay.on_table (outbox.update_one io what (outbox.ID row) f) q).2) ∧
    relay.topic (relay.on_table (outbox.update_one io what (outbox.ID row) f) q).2 = relay.topic q) as Hu.
  { intros f what Hf. pose proof (update_one_rows io what (outbox.ID row) f (relay.table q) Hf) as Hs.
    unfold relay.on_table. by destruct (outbox.update_one _ _ _ _ _) as [out t]. }
  destruct sent as [[]|e]; cbn [relay.mark_row].
  - apply Hu, relay.published_entry_gentle.
  - unfold ignore. destruct (Hu (outbox.failed_entry (io_now io) (relay.workerID w) "kafka_publish" 1)
      "release failed outbox event" (relay.failed_entry_gentle _ _ _ _)) as [Hs Ht].
    unfold outbox.MarkFailed. change (time.WholeSeconds time.Second) with 1.
    by destruct (relay.on_table _ q) as [[] q'].
Qed.

Lemma exchange_spec (w : relay.Relay) (io : IO) (locked : string → bool) (p p' : point)
  (q q' : relay.State) :
  retained q → point_ok q p → exchange w io locked p q = (p', q') →
  rely q q' ∧ same_rows (relay.table q) (relay.table q') ∧ point_ok q' p'.
Proof.
  intros Hq Hp Hex. destruct p as [| |[|row rows]|row sent rows]; cbn [platform.exchange] in Hex.
  - injection Hex as <- <-. split_and!; [reflexivity|done|done].
  - pose proof (relay.Claim_spec json_Valid marshal inject order law_order io locked (relay.workerID w)
      (Z.to_nat (relay.batchSize w)) time.Minute q Hq) as Hspec.
    pose proof (Claim_rows io locked (relay.workerID w) (Z.to_nat (relay.batchSize w)) time.Minute
      (relay.table q)) as Hrows.
    unfold wp, relay.on_table in *. destruct (outbox.Claim _ _ _ _ _ _ _) as [out t].
    destruct Hspec as [Hr Hst]. destruct out as [rows|?|?]; injection Hex as <- <-; split_and!;
      [done..|by apply Hst|done|done|done|done|done|done].
  - injection Hex as <- <-. split_and!; [reflexivity|done|done].
  - apply Forall_cons in Hp as [Hrow Hrows].
    pose proof (relay.Publish_spec json_Valid marshal inject io row q) as Hspec.
    unfold wp, caught in *. destruct (relay.on_topic _ q) as [out q1].
    cbn [fst snd] in Hspec. destruct Hspec as (Ht & Hpre & Hnew & Hok).
    assert (rely q q1) as Hr by by eapply relay.topic_grows_rely.
    assert (q' = q1) as -> by by destruct out; injection Hex.
    split; [done|]. split; [by unfold same_rows; rewrite Ht|].
    destruct out as [[]|e|?]; injection Hex as <-; [| |done];
      (split_and!; [by eapply relay.evolves_stored, Hrow; apply Hr| |
                    eapply Forall_impl; [exact Hrows|]; intros r; apply relay.evolves_stored, Hr]);
      [by intros _; apply Hok|done].
  - destruct Hp as (Hrow & Hsent & Hrows).
    pose proof (relay.mark_row_rely json_Valid marshal inject w io row sent q Hrow Hsent) as Hr.
    destruct (mark_row_rows w io row sent q) as [Hs _]. unfold wp in Hr.
    destruct (relay.mark_row w io row sent q) as [out q1]. cbn [snd] in Hs.
    assert (q' = q1) as -> by by destruct out; injection Hex. split_and!; [done|done|].
    destruct out; injection Hex as <-; [|done..].
    eapply Forall_impl; [exact Hrows|]; intros r; apply relay.evolves_stored, Hr.
Qed.

Lemma relay_inv (i : nat) (io : IO) (locked : string → bool) (p : point) (q : relay.State) (s : State) :
  exchange (worker i) io locked (relays s i) (queue s) = (p, q) → Inv s →
  Inv (with_relay i p (with_queue q s)).
Proof.
  intros Hex [Ia It Ic Ir Ip Ipt Itr].
  destruct (exchange_spec _ _ _ _ _ _ _ Ir (Ipt i) Hex) as ([Hev Hret] & Hrows & Hp).
  assert (queue (with_relay i p (with_queue q s)) = q) as Hq by by destruct q.
  split; rewrite ?Hq.
  - eapply announced_same_rows; [|exact Hrows|exact Ia]. done.
  - exact It.
  - exact Ic.
  - auto.
  - intros k e He. destruct (same_rows_lookup _ _ k e Hrows He) as (e0 & He0 & ->). by eapply Ip.
  - intros j. cbn [with_relay relays]. destruct (j =? i)%nat; [done|]. by eapply point_evolves, Ipt.
  - destruct (proj1 Hev) as [ms Hms]. simpl in Hms.
    replace (trail (with_relay i p (with_queue q s))) with
      (consumer.mkState (consumer.log (trail s) ++ ms) (consumer.offset (trail s)) (consumer.db (trail s))).
    + by apply consumer.reach_append.
    + unfold trail, tables. simpl. by rewrite Hms.
Qed.

(** *** The consumer *)

Lemma Run_log (ios : list IO) (c : consumer.State) :
  consumer.log (consumer.Run json_Valid decode unmarshal name ios c).2 = consumer.log c.
Proof.
  revert c. induction ios as [|io ios IH]; intros c; [done|]. cbn [consumer.Run]. unfold act.
  destruct (io_ctx io 0); [done|]. destruct (io_fault io 6); [done|].
  destruct (consumer.log c !! consumer.offset c) as [m|]; [|done].
  unfold mbind, M_bind, consumer.handle.
  destruct (unmarshal (kafka.Value m)) as [ev|?|?]; [|done..].
  unfold mbind, M_bind, consumer.process, consumer.CommitMessages.
  destruct (audit.ProcessKafkaEvent _ _ _ _ _ _) as [[b|?|?] d]; [|done..]. simpl.
  destruct (io_fault io 7); [done|]. destruct (io_fault io 8); [done|]. by rewrite IH.
Qed.

Lemma consume_cases (io : IO) (s : State) : consume io s = s ∨ ∃ b,
  consume io s = with_consuming b (with_trail (consumer.Run json_Valid decode unmarshal name [io] (trail s)).2 s).
Proof.
  unfold platform.consume. destruct (consuming s); [|by left]. right.
  destruct (consumer.Run _ _ _ _ _ _) as [out c]. by eexists.
Qed.

Lemma consume_queue (io : IO) (s : State) : queue (consume io s) = queue s.
Proof.
  destruct (consume_cases io s) as [->|[b ->]]; [done|]. set (c := (consumer.Run _ _ _ _ _ _).2).
  change (queue (with_consuming b (with_trail c s))) with
    (relay.mkState (outbox_events (tables s)) (consumer.log c)).
  unfold c. by rewrite Run_log.
Qed.

Lemma consume_inv (io : IO) (s : State) : Inv s → Inv (consume io s).
Proof.
  intros Hs. pose proof (consume_queue io s) as Hq.
  destruct (consume_cases io s) as [Hc|[b Hc]]; rewrite Hc in *; [done|].
  destruct Hs as [Ia It Ic Ir Ip Ipt Itr]. split; rewrite ?Hq; try done.
  - by apply (announced_same_rows (tables s)).
  - apply (consumer.reach_run _ _ _ _ [io]) in Itr.
    by destruct (consumer.Run json_Valid decode unmarshal name [io] (trail s)).2 as [? ? []].
Qed.

Lemma point_inv (i : nat) (p : point) (s : State) : p = Stopped ∨ p = Idle → Inv s → Inv (with_relay i p s).
Proof.
  intros Hp [Ia It Ic Ir Ip Ipt Itr]. split; try done. intros j. cbn [with_relay relays].
  destruct (j =? i)%nat; [by destruct Hp as [-> | ->]|apply Ipt].
Qed.

Lemma consuming_inv (b : bool) (s : State) : Inv s → Inv (with_consuming b s).
Proof. intros []. by split. Qed.

Lemma background_inv (s s' : State) : background s s' → Inv s → Inv s'.
Proof. destruct 1; [by apply relay_inv with (io := io) (locked := locked)|apply consume_inv]. Qed.

Lemma unattended_inv (s s' : State) : unattended s s' → Inv s → Inv s'.
Proof.
  destruct 1; [by apply call_inv|by apply evaluate_inv|by apply background_inv|apply point_inv; auto|
    apply consuming_inv].
Qed.

Lemma step_inv (s s' : State) : step s s' → Inv s → Inv s'.
Proof. destruct 1; [by apply unattended_inv|apply point_inv; auto|apply consuming_inv]. Qed.

Lemma empty_inv (s : State) : initial s → Inv s.
Proof.
  intros [c ->].
  assert (∀ A (m : gmap string A) k x, m = ∅ → m !! k = Some x → False) as Hempty
    by (intros A m k x ->; by rewrite lookup_empty).
  split.
  - split; unfold tables; cbn [ai_requests outbox_events db evalstore.base].
    + intros ty id _. by rewrite lookup_empty.
    + intros id. by rewrite lookup_empty.
    + intros id r Hr. by rewrite lookup_empty in Hr.
  - intros id r Hr. by eapply Hempty in Hr.
  - intros id j Hj. by eapply Hempty in Hj.
  - split; [intros k e Hk; by eapply Hempty in Hk|by intros m ?%not_elem_of_nil].
  - intros k e Hk. by eapply Hempty in Hk.
  - done.
  - apply (consumer.reach_start json_Valid decode unmarshal name []).
Qed.

Lemma platform_inv (s : State) : reachable s → Inv s.
Proof.
  intros (s0 & Hinit & Hsteps). apply empty_inv in Hinit.
  induction Hsteps as [|s0 s1 s2 Hstep _ IH]; [done|]. by eapply IH, step_inv.
Qed.

(** ** Bills and charges *)

(** The charge of a completed request. *)
Definition charge_of (id : string) (r : RequestRow) : account :=
  (tenant_id r, audit.mkUsage id (default 0 (prompt_tokens r)) (default 0 (completion_tokens r))
     (default 0 (actual_cost r)), default 0 (completed_at r)).
Definition completed (s : State) (id : string) (r : RequestRow) : Prop :=
  ai_requests (tables s) !! id = Some r ∧ status r = request.Completed.

Lemma elem_of_charged (s : State) (a : account) :
  a ∈ charged s ↔ ∃ id r, completed s id r ∧ a = charge_of id r.
Proof.
  unfold charged. rewrite list_elem_of_omap. split.
  - intros ([id r] & Hin & Ha). cbn [fst snd] in Ha. case_bool_decide as Hst; [|done].
    apply elem_of_map_to_list in Hin. injection Ha as <-. by exists id, r.
  - intros (id & r & [Hr Hst] & ->). exists (id, r). cbn [fst snd].
    rewrite bool_decide_eq_true_2 by done. by rewrite elem_of_map_to_list.
Qed.

Lemma usage_matches (e : outbox.Entry) :
  event_type e = events.UsageRecorded →
  matches events.UsageRecorded (outbox.AggregateID (outbox.row e)) e = true.
Proof. unfold matches. intros ->. by rewrite !String.eqb_refl. Qed.

(** Usage events are about completed requests, one event each. *)
Lemma usage_count (s : State) (k : string) (e : outbox.Entry) :
  Inv s → outbox_events (tables s) !! k = Some e → event_type e = events.UsageRecorded →
  let id := outbox.AggregateID (outbox.row e) in
  (∃ r, completed s id r) ∧ count_events events.UsageRecorded id (outbox_events (tables s)) = 1.
Proof.
  intros Hs He Hty id. pose proof (an_count _ (inv_announced _ _ _ _ _ _ _ Hs) events.UsageRecorded id) as Hc.
  assert (1 <= count_events events.UsageRecorded id (outbox_events (tables s))) as Hpos.
  { apply (count_pos _ _ (k, e)); [by apply elem_of_map_to_list|by apply usage_matches]. }
  unfold completed. rewrite Hc in * by (right; right; by left). unfold expected in *.
  destruct (ai_requests (tables s) !! id) as [r|]; simpl in *; [|lia].
  case_bool_decide as Hst; [|lia]. split; [by exists r|done].
Qed.

Lemma usage_unique (s : State) (k k' : string) (e e' : outbox.Entry) :
  Inv s → outbox_events (tables s) !! k = Some e → outbox_events (tables s) !! k' = Some e' →
  event_type e = events.UsageRecorded → event_type e' = events.UsageRecorded →
  outbox.AggregateID (outbox.row e) = outbox.AggregateID (outbox.row e') → k = k' ∧ e = e'.
Proof.
  intros Hs He He' Hty Hty' Hag. destruct (usage_count s k e Hs He Hty) as [_ Hc].
  assert ((k, e) = (k', e')) as [= -> ->]; [|done].
  apply (count_one _ _ _ _ Hc); [by apply elem_of_map_to_list..|by apply usage_matches|].
  rewrite Hag. by apply usage_matches.
Qed.

(** The usage event of a request carries its charge. *)
Lemma usage_event (s : State) (k : string) (e : outbox.Entry) :
  Inv s → outbox_events (tables s) !! k = Some e → event_type e = events.UsageRecorded →
  ∃ id r u, id = outbox.AggregateID (outbox.row e) ∧ completed s id r ∧
    decode (outbox.Payload (outbox.row e)) = Ok u ∧
    charge_of id r = (outbox.TenantID (outbox.row e), u, outbox.OccurredAt (outbox.row e)).
Proof.
  intros Hs He Hty. destruct (usage_count s k e Hs He Hty) as [(r & Hr & Hst) _].
  destruct (an_usage _ (inv_announced _ _ _ _ _ _ _ Hs) _ _ Hr Hst) as (k' & e' & He' & Hty' & Hab & Hrep).
  destruct (usage_unique s k k' e e' Hs He He' Hty Hty') as [<- <-]; [by rewrite Hab|].
  destruct Hrep as (p & lat & Henc & Hid & Hat & Ht & Hcost & Hpt & Hct).
  destruct (inv_typed _ _ _ _ _ _ _ Hs _ _ Hr) as (Huu & Hipt & Hict & Hicost).
  rewrite Hpt, Hct, Hcost in *. simpl in Hipt, Hict, Hicost. rewrite <- Hid in Huu.
  apply law_usage in Henc; [|done..]. eexists _, r, _. split_and!; [done..|exact Henc|].
  unfold charge_of. by rewrite Hpt, Hct, Hcost, Hat, Ht, Hid.
Qed.

Lemma round_trip (ev : events.Envelope) (enc : string) :
  json_Valid (events.Payload ev) = true → marshal ev = Ok enc →
  ∃ p, unmarshal enc = Ok (pipeline.with_payload ev p) ∧ decode p = decode (events.Payload ev).
Proof. intros Hv Hm. destruct (law_round_trip ev enc Hv Hm) as (p & ? & ? & _). eauto. Qed.

(** A ledger entry is the charge of a completed request, under the identifier of
    its usage event. *)
Lemma ledger_charge (s : State) (t k : string) (row : audit.LedgerRow) :
  Inv s → usage_ledger (tables s) !! (t, k) = Some row →
  ∃ e r, outbox_events (tables s) !! k = Some e ∧ event_type e = events.UsageRecorded ∧
    completed s (outbox.AggregateID (outbox.row e)) r ∧
    charge_of (outbox.AggregateID (outbox.row e)) r = (t, audit.usage row, audit.recorded_for row).
Proof.
  intros Hs Hrow.
  destruct (pipeline.ledger_from_row json_Valid decode marshal unmarshal inject name round_trip
    (queue s) (trail s) t k row) as (r & u & (e & He & <-) & <- & <- & Hty & Hu & ->);
    [apply Hs|apply Hs|done|done|].
  destruct (usage_event s _ e Hs He Hty) as (id & r & u' & -> & Hr & Hu' & Hch).
  exists e, r. split_and!; [done|done|exact Hr|].
  assert (u' = u) as -> by congruence. exact Hch.
Qed.

Lemma elem_of_billed (s : State) (a : account) :
  a ∈ billed s ↔ ∃ t k row, usage_ledger (tables s) !! (t, k) = Some row ∧
                             a = (t, audit.usage row, audit.recorded_for row).
Proof.
  unfold billed. rewrite list_elem_of_fmap. split.
  - intros ([[t k] row] & -> & Hin%elem_of_map_to_list). by exists t, k, row.
  - intros (t & k & row & Hin & ->). exists ((t, k), row). by rewrite elem_of_map_to_list.
Qed.

Lemma billed_NoDup (s : State) : Inv s → NoDup (billed s).
Proof.
  intros Hs. unfold billed. apply NoDup_fmap_2_strong; [|apply NoDup_map_to_list].
  intros [[t k] row] [[t' k'] row'] Hin Hin' Heq. cbn [fst snd] in Heq.
  apply elem_of_map_to_list in Hin, Hin'.
  destruct (ledger_charge s t k row Hs Hin) as (e & r & He & Hty & _ & Hch).
  destruct (ledger_charge s t' k' row' Hs Hin') as (e' & r' & He' & Hty' & _ & Hch').
  assert (outbox.AggregateID (outbox.row e) = outbox.AggregateID (outbox.row e')) as Hag.
  { unfold charge_of in *. injection Hch as _ Hu _. injection Hch' as _ Hu' _. injection Heq as _ Heq _.
    apply (f_equal audit.RequestID) in Hu, Hu', Heq. simpl in *. congruence. }
  destruct (usage_unique s k k' e e' Hs He He' Hty Hty' Hag) as [-> _].
  assert (t = t') as -> by congruence. by simplify_eq.
Qed.

Lemma charged_NoDup (s : State) : NoDup (charged s).
Proof.
  apply (NoDup_fmap_1 (λ a : account, audit.RequestID a.1.2)).
  eapply sublist_NoDup; [apply (NoDup_fst_map_to_list (ai_requests (tables s)))|].
  unfold charged. generalize (map_to_list (ai_requests (tables s))).
  intros l. induction l as [|[id r] l IH]; [done|]. cbn [omap list_omap fst snd].
  case_bool_decide; [by apply sublist_skip|by apply sublist_cons].
Qed.

Lemma billed_charged (s : State) (a : account) : Inv s → a ∈ billed s → a ∈ charged s.
Proof.
  intros Hs (t & k & row & Hrow & ->)%elem_of_billed. apply elem_of_charged.
  destruct (ledger_charge s t k row Hs Hrow) as (e & r & _ & _ & Hr & Hch). eauto.
Qed.

Lemma settled_billed (s : State) (a : account) : Inv s → settled s → a ∈ charged s → a ∈ billed s.
Proof.
  intros Hs [Hpub Hoff] (id & r & [Hr Hst] & ->)%elem_of_charged. apply elem_of_billed.
  destruct (an_usage _ (inv_announced _ _ _ _ _ _ _ Hs) _ _ Hr Hst) as (k & e & He & Hty & Hab & _).
  destruct (usage_event s k e Hs He Hty) as (id' & r' & u & -> & [Hr' _] & Hu & Hch).
  rewrite Hab in *. simplify_eq. rewrite Hch. do 2 eexists. exists (audit.mkLedgerRow u (outbox.OccurredAt (outbox.row e))).
  split; [|done].
  apply (pipeline.published_billed json_Valid decode marshal unmarshal inject name round_trip
           (queue s) (trail s) (outbox.row e) u); [apply Hs|apply Hs|done|done| |done|done].
  destruct (proj1 (inv_retained _ _ _ _ _ _ _ Hs) k e He) as [Hid _]. exists e. rewrite Hid.
  split_and!; [done|done|by eapply Hpub].
Qed.

Lemma settled_accounts (s : State) : Inv s → settled s → billed s ≡ₚ charged s.
Proof.
  intros Hs Hset. apply NoDup_Permutation; [by apply billed_NoDup|apply charged_NoDup|].
  intros a. split; [by apply billed_charged|by apply settled_billed].
Qed.

(** *** The sums that admission control reads *)

Lemma used_since_billed (t : string) (from : time.Time) (s : State) :
  used_since t from (tables s) = spent_since t from (billed s).
Proof. unfold used_since, spent_since, billed. by rewrite <- list_fmap_compose. Qed.

Lemma spent_since_part (t : string) (from : time.Time) (l k : list account) :
  l ⊆+ k → (∀ a, a ∈ k → 0 <= audit.CostMicroUSD a.1.2) → spent_since t from l <= spent_since t from k.
Proof.
  intros [rest Hk]%submseteq_Permutation Hpos. unfold spent_since. rewrite Hk, fmap_app, zsum_app.
  match goal with |- _ <= _ + zsum ?z => assert (0 <= zsum z); [apply zsum_nonneg|lia] end.
  apply Forall_fmap, Forall_forall. intros a Ha. cbn [compose]. destruct (_ && _); [|lia].
  apply Hpos. rewrite Hk. apply elem_of_app. by right.
Qed.

(** C3 (refinement): every completed request is billed, once, and nothing else is.
    Take any state that the platform reaches by any interleaving of calls on the
    store, evaluations, relays and the audit consumer, with crashes, lost
    acknowledgements, duplicate deliveries and failing statements and commits. The
    entries of the usage ledger (tenant, request, tokens, cost and time) are, each
    at most once, the charges of the COMPLETED requests of the request table; and
    once every outbox row is sent and the consumer has caught up, they are exactly
    those charges. So the recorded usage from which budgets are admitted is never
    more than what completed requests cost, and then is the sum of the costs of
    the tenant's requests completed since the start of the period. *)
Theorem billed_once (s : State) :
  reachable s →
  billed s ⊆+ charged s ∧
  (∀ t from, (∀ a, a ∈ charged s → 0 <= audit.CostMicroUSD a.1.2) →
     used_since t from (tables s) <= spent_since t from (charged s)) ∧
  (settled s → billed s ≡ₚ charged s ∧
     ∀ t from, used_since t from (tables s) = spent_since t from (charged s)).
Proof.
  intros Hs%platform_inv.
  assert (billed s ⊆+ charged s) as Hsub.
  { apply NoDup_submseteq; [by apply billed_NoDup|]. intros a. by apply billed_charged. }
  split; [done|]. split.
  - intros t from Hpos. rewrite used_since_billed. by apply spent_since_part.
  - intros Hset. pose proof (settled_accounts s Hs Hset) as Hperm.
    split; [done|]. intros t from. rewrite used_since_billed. unfold spent_since. by rewrite Hperm.
Qed.

(** ** Settling *)

(** Steps of the loops that leave the requests alone, and the consumer in its loop. *)
Definition leads (s s' : State) : Prop :=
  rtc background s s' ∧ ai_requests (tables s') = ai_requests (tables s) ∧ consuming s' = consuming s.
#[local] Instance leads_preorder : PreOrder leads.
Proof.
  split; [by split|]. intros s1 s2 s3 (H1 & E1 & C1) (H2 & E2 & C2). split_and!; [by etrans|congruence..].
Qed.

Lemma leads_inv (s s' : State) : leads s s' → Inv s → Inv s'.
Proof. intros [Hsteps _]. induction Hsteps; [done|]. eauto using background_inv. Qed.

Lemma leads_charged (s s' : State) : leads s s' → charged s' = charged s.
Proof. intros (_ & Hr & _). unfold charged. by rewrite Hr. Qed.

Lemma exchange_leads (i : nat) (io : IO) (locked : string → bool) (p p' : point) (q : relay.State)
  (s : State) :
  relays s i = p → exchange (worker i) io locked p (queue s) = (p', q) →
  ∃ s', leads s s' ∧ relays s' i = p' ∧ queue s' = q.
Proof.
  intros Hp Hex. exists (with_relay i p' (with_queue q s)). split_and!.
  - split; [|done]. apply rtc_once. eapply bg_relay. by rewrite Hp.
  - simpl. by rewrite Nat.eqb_refl.
  - by destruct q.
Qed.

(** The machine's relay can do what an undisturbed batch does. *)
Definition ended (out : res unit) : point := if out is Ok _ then Idle else Stopped.

Lemma publish_rows_leads (i : nat) (io : nat → IO) (rows : list outbox.Row) (n : nat) (s : State) :
  relays s i = Sending rows →
  let run := relay.publish_rows json_Valid marshal inject (worker i) io relay.alone n rows (queue s) in
  ∃ s', leads s s' ∧ relays s' i = ended run.1 ∧ queue s' = run.2.
Proof.
  revert n s. induction rows as [|row rows IH]; intros n s Hp.
  { by apply (exchange_leads i (io n) (λ _, false) (Sending [])). }
  cbn [relay.publish_rows]. unfold mbind, M_bind, relay.interfere, relay.alone.
  destruct (caught _ (queue s)) as [out q1] eqn:Hsend.
  destruct (exchange_leads i (io n) (λ _, false) (Sending (row :: rows))
    (match out with Ok sent => Marking row sent rows | _ => Stopped end) q1 s Hp) as (s1 & L1 & Hp1 & Hq1).
  { cbn [platform.exchange]. rewrite Hsend. by destruct out. }
  destruct out as [sent|?|?]; [|by exists s1..].
  destruct (relay.mark_row (worker i) (io (S n)) row sent q1) as [out q2] eqn:Hmark.
  destruct (exchange_leads i (io (S n)) (λ _, false) (Marking row sent rows)
    (match out with Ok _ => Sending rows | _ => Stopped end) q2 s1 Hp1) as (s2 & L2 & Hp2 & Hq2).
  { cbn [platform.exchange]. rewrite Hq1, Hmark. by destruct out. }
  assert (leads s s2) as L by by etrans.
  destruct out as [[]|?|?]; [|by exists s2..].
  destruct (IH (n + 2)%nat s2 Hp2) as (s3 & L3 & Hp3 & Hq3). rewrite Hq2 in Hp3, Hq3.
  exists s3. split_and!; [by etrans|done|done].
Qed.

Lemma runBatch_leads (i : nat) (io : nat → IO) (locked : string → bool) (s : State) :
  relays s i = Idle →
  let run := relay.runBatch json_Valid marshal inject order (worker i) io relay.alone locked (queue s) in
  ∃ s', leads s s' ∧ relays s' i = ended run.1 ∧ queue s' = run.2.
Proof.
  intros Hp. unfold relay.runBatch, mbind, M_bind, relay.interfere, relay.alone.
  destruct (relay.on_table _ (queue s)) as [out q1] eqn:Hclaim.
  destruct (exchange_leads i (io 0%nat) locked Idle
    (match out with Ok rows => Sending rows | _ => Stopped end) q1 s Hp) as (s1 & L1 & Hp1 & Hq1).
  { cbn [platform.exchange]. rewrite Hclaim. by destruct out. }
  destruct out as [rows|?|?]; [|by exists s1..].
  destruct (publish_rows_leads i io rows 1 s1 Hp1) as (s2 & L2 & Hp2 & Hq2). rewrite Hq1 in Hp2, Hq2.
  exists s2. split_and!; [by etrans|done|done].
Qed.

(** The rows still to be sent. *)
Definition pending (t : outbox.Table) : gset string :=
  dom (filter (λ ke : string * outbox.Entry, outbox.published_at ke.2 = None) t).

Lemma elem_of_pending (t : outbox.Table) (k : string) :
  k ∈ pending t ↔ ∃ e, t !! k = Some e ∧ outbox.published_at e = None.
Proof.
  unfold pending. rewrite elem_of_dom. split.
  - intros [e [? ?]%map_lookup_filter_Some]. by exists e.
  - intros (e & ? & ?). exists e. by apply map_lookup_filter_Some.
Qed.

(** At some time every claim has expired and every row is available. *)
Lemma late (t : outbox.Table) : ∃ now, ∀ k e, t !! k = Some e → outbox.published_at e = None →
  outbox.claimable now 60 e = true.
Proof.
  assert (∀ l : list (string * outbox.Entry), ∃ now, ∀ k e, (k, e) ∈ l →
    outbox.available_at e <= now ∧ default 0 (outbox.claimed_at e) < now - 60 * time.Second) as Hl.
  { induction l as [|[k e] l [now IH]]; [exists 0; by intros ? ? ?%not_elem_of_nil|].
    exists (Z.max now (Z.max (outbox.available_at e)
      (default 0 (outbox.claimed_at e) + 60 * time.Second + 1))).
    intros k' e' [[= -> ->]|Hin]%elem_of_cons; [lia|]. destruct (IH _ _ Hin). lia. }
  destruct (Hl (map_to_list t)) as [now Hnow]. exists now. intros k e He Hp.
  destruct (Hnow k e) as [Ha Hc]; [by apply elem_of_map_to_list|].
  unfold outbox.claimable. rewrite bool_decide_eq_true_2 by done.
  rewrite (proj2 (Z.leb_le _ _) Ha). simpl. destruct (outbox.claimed_at e); [|done].
  by apply Z.ltb_lt.
Qed.

Lemma candidates_some (now : time.Time) (limit : nat) (t : outbox.Table) (k : string) (e : outbox.Entry) :
  t !! k = Some e → outbox.claimable now 60 e = true → (0 < limit)%nat →
  ∃ c cs, outbox.candidates now (λ _, false) limit 60 t = c :: cs.
Proof.
  intros He Hc Hlim. unfold outbox.candidates.
  assert ((k, e) ∈ List.filter (λ ie : string * outbox.Entry, outbox.claimable now 60 ie.2 && negb false)
    (sort.SliceStable (λ a b : string * outbox.Entry, outbox.created_at a.2 <? outbox.created_at b.2)
       (map_to_list t))) as Hin.
  { rewrite list_elem_of_In, filter_In, <- list_elem_of_In, sort.SliceStable_Permutation,
      elem_of_map_to_list. split; [done|]. simpl. by rewrite Hc. }
  destruct limit as [|limit]; [lia|].
  destruct (List.filter _ _) as [|c cs]; [by apply not_elem_of_nil in Hin|]. by exists c, (take limit cs).
Qed.

(** What an undisturbed batch at that time does to the table: the candidates are
    sent, the other rows stay. *)
Lemma quiet_batch (w : relay.Relay) (now : time.Time) (q : relay.State) :
  retained q → publishable_rows json_Valid marshal (relay.table q) →
  let cs := outbox.candidates now (λ _, false) (Z.to_nat (relay.batchSize w)) 60 (relay.table q) in
  let run := relay.runBatch json_Valid marshal inject order w (λ _, quiet now []) relay.alone
               (λ _, false) q in
  let q' := run.2 in
  run.1 = Ok () ∧ (∀ k, k ∈ cs.*1 → k ∉ pending (relay.table q')) ∧
  (∀ k e, relay.table q' !! k = Some e → k ∉ cs.*1 → relay.table q !! k = Some e).
Proof.
  intros Hq Hpub cs run q'. set (io := λ _ : nat, quiet now []) in *.
  assert (∀ n k, io_fault (io n) k = None) as Hquiet by done.
  destruct (relay.Claim_quiet json_Valid marshal inject order law_order w io Hquiet q Hq)
    as (rows & q1 & Hclaim & _ & Hrows & Hids & Hnd & Hhand & Hkeep).
  change (time.WholeSeconds time.Minute) with 60 in *. cbn [io quiet io_now] in Hrows, Hids, Hkeep.
  fold cs in Hrows, Hids, Hkeep.
  assert (Forall (relay.publishable json_Valid marshal) rows) as Hprows.
  { rewrite Hrows. apply Forall_fmap, Forall_forall. intros [k e] [He _]%relay.candidates_claimable.
    by eapply Hpub. }
  destruct (relay.publish_rows_alone json_Valid marshal inject w io Hquiet rows 1 q1 Hnd Hprows Hhand)
    as (q2 & Hrun & Hdone & _ & Hrest).
  assert (run = (Ok (), q2)) as Hrun2.
  { unfold run, relay.runBatch, mbind, M_bind, relay.interfere, relay.alone at 1.
    by rewrite Hclaim, Hrun. }
  unfold q'. rewrite Hrun2. cbn [fst snd]. split; [done|].
  assert (same_rows (relay.table q) (relay.table q1)) as Hsame.
  { pose proof (Claim_rows (quiet now []) (λ _, false) (relay.workerID w)
      (Z.to_nat (relay.batchSize w)) time.Minute (relay.table q)) as Hc.
    unfold relay.on_table in Hclaim. destruct (outbox.Claim _ _ _ _ _ _ _) as [out t1].
    by injection Hclaim as _ <-. }
  setoid_rewrite <- Hids. split.
  - intros k (r & -> & Hr)%list_elem_of_fmap (e & He & Hn)%elem_of_pending.
    rewrite Forall_forall in Hdone. destruct (Hdone r Hr) as (_ & e' & He' & _ & Hsome).
    rewrite He in He'. injection He' as <-. rewrite Hn in Hsome. by destruct Hsome.
  - intros k e He Hin. rewrite Hrest in He by done.
    destruct (same_rows_lookup _ _ k e Hsame He) as (e0 & He0 & _). rewrite Hids in Hin.
    rewrite (Hkeep k e0 He0 Hin) in He. by injection He as ->.
Qed.

Lemma batch_progress (i : nat) (s : State) :
  0 < relay.batchSize (worker i) → Inv s → relays s i = Idle →
  pending (outbox_events (tables s)) ≠ ∅ →
  ∃ s', leads s s' ∧ relays s' i = Idle ∧
        pending (outbox_events (tables s')) ⊂ pending (outbox_events (tables s)).
Proof.
  intros Hb Hs Hp Hpend. destruct (late (outbox_events (tables s))) as [now Hnow].
  destruct (quiet_batch (worker i) now (queue s)) as (Hok & Hout & Hrest); [apply Hs|apply Hs|].
  destruct (runBatch_leads i (λ _, quiet now []) (λ _, false) s Hp) as (s' & L & Hp' & Hq').
  rewrite Hok in Hp'. rewrite <- Hq' in Hout, Hrest. exists s'. split_and!; [done..|].
  set (cs := outbox.candidates _ _ _ _ _) in *. split.
  - intros k Hk. destruct (decide (k ∈ cs.*1)) as [Hin|Hin]; [by destruct (Hout k)|].
    apply elem_of_pending in Hk as (e & He & Hn). apply elem_of_pending. exists e. eauto.
  - apply set_choose_L in Hpend as [k0 (e0 & He0 & Hn0)%elem_of_pending].
    destruct (candidates_some now (Z.to_nat (relay.batchSize (worker i))) (relay.table (queue s)) k0 e0)
      as ([k e] & cs' & Hcs); [done|by eapply Hnow|lia|].
    fold cs in Hcs. assert ((k, e) ∈ cs) as Hin by (rewrite Hcs; by left).
    intros Hsub. apply (Hout k); [apply list_elem_of_fmap; by exists (k, e)|].
    apply Hsub, elem_of_pending. apply relay.candidates_claimable in Hin as [He Hc].
    exists e. split; [done|]. by eapply relay.claimable_unpublished.
Qed.

Lemma drain (i : nat) (s : State) :
  0 < relay.batchSize (worker i) → Inv s → relays s i = Idle →
  ∃ s', leads s s' ∧ pending (outbox_events (tables s')) = ∅.
Proof.
  intros Hb. remember (size (pending (outbox_events (tables s)))) as n eqn:Hn. revert s Hn.
  induction (lt_wf n) as [n _ IH]. intros s -> Hs Hp.
  destruct (decide (pending (outbox_events (tables s)) = ∅)) as [He|Hne]; [by exists s|].
  destruct (batch_progress i s Hb Hs Hp Hne) as (s1 & L1 & Hp1 & Hsub).
  destruct (IH _ (subset_size _ _ Hsub) s1 eq_refl) as (s2 & L2 & He2); [by eapply leads_inv|done|].
  exists s2. split; [by etrans|done].
Qed.

(** *** The consumer can process every message *)

Lemma Validate_with_payload (ev : events.Envelope) (p : string) :
  events.Validate json_Valid ev = Ok () → json_Valid p = true →
  events.Validate json_Valid (pipeline.with_payload ev p) = Ok ().
Proof.
  unfold events.Validate. cbn -[events.supported]. destruct (_ || _); [done|].
  destruct (negb _); [done|]. destruct (negb _); [done|].
  destruct (time.IsZero _); [done|]. simpl. destruct (json_Valid (events.Payload ev)); [|done].
  by intros _ ->.
Qed.

(** Every message of the topic decodes to a valid event, and one about usage to a
    usage. *)
Lemma no_poison (s : State) (m : kafka.Message) :
  Inv s → m ∈ topic s →
  ∃ ev, unmarshal (kafka.Value m) = Ok ev ∧ events.Validate json_Valid ev = Ok () ∧
        (audit.is_usage ev = true → is_ok (decode (events.Payload ev))).
Proof.
  intros Hs Hm. destruct (proj2 (inv_retained _ _ _ _ _ _ _ Hs) m Hm) as (r & (e & He & <-) & Hv & io & enc & Henc & ->).
  destruct (law_round_trip _ _ (events.Validate_payload _ _ Hv) Henc) as (p & Hp & Hdec & Hjson).
  exists (pipeline.with_payload (outbox.envelope (outbox.row e)) p). split_and!.
  - exact Hp.
  - by apply Validate_with_payload.
  - intros Hu. apply String.eqb_eq in Hu. simpl. rewrite Hdec. simpl.
    destruct (usage_event s _ e Hs He Hu) as (_ & _ & u & _ & _ & -> & _). done.
Qed.

Lemma Process_quiet (ev : events.Envelope) (d : audit.DB) (now : time.Time) :
  events.Validate json_Valid ev = Ok () →
  (audit.is_usage ev = true → is_ok (decode (events.Payload ev))) →
  is_ok (audit.ProcessKafkaEvent json_Valid decode (quiet now []) name ev d).1.
Proof.
  intros Hv Hu. unfold audit.ProcessKafkaEvent. rewrite Hv. cbn [quiet io_fault].
  destruct (audit.processed d !! _); [done|]. unfold audit.record_usage.
  destruct (audit.is_usage ev); [|done]. specialize (Hu eq_refl).
  by destruct (decode (events.Payload ev)).
Qed.

Lemma consume_advances (s : State) (m : kafka.Message) :
  Inv s → consuming s = true → topic s !! offset s = Some m →
  offset (consume (quiet 0 []) s) = S (offset s) ∧ consuming (consume (quiet 0 []) s) = true.
Proof.
  intros Hs Hc Hm. destruct (no_poison s m Hs) as (ev & Hun & Hv & Hu); [by eapply list_elem_of_lookup_2|].
  pose proof (Process_quiet ev (consumer.db (trail s)) 0 Hv Hu) as Hok.
  unfold platform.consume. rewrite Hc.
  cbn [consumer.Run]. unfold act. cbn [quiet io_ctx io_fault].
  change (consumer.log (trail s) !! consumer.offset (trail s)) with (topic s !! offset s). rewrite Hm.
  unfold mbind, M_bind, consumer.handle. rewrite Hun.
  unfold mbind, M_bind, consumer.process, consumer.CommitMessages.
  by destruct (audit.ProcessKafkaEvent _ _ _ _ _ _) as [[b|?|?] d].
Qed.

Lemma consume_requests (io : IO) (s : State) : ai_requests (tables (consume io s)) = ai_requests (tables s).
Proof. by destruct (consume_cases io s) as [->|[b ->]]. Qed.

Lemma catch_up (s : State) : Inv s → consuming s = true →
  ∃ s', leads s s' ∧ queue s' = queue s ∧ offset s' = length (topic s').
Proof.
  intros Hs Hc. remember (length (topic s) - offset s)%nat as n eqn:Hn. revert s Hs Hc Hn.
  induction n as [|n IH]; intros s Hs Hc Hn.
  - exists s. split_and!; [reflexivity|done|].
    destruct (consumer.reachable_recorded _ _ _ _ _ (inv_trail _ _ _ _ _ _ _ Hs)) as (_ & Hle & _).
    simpl in Hle. lia.
  - destruct (topic s !! offset s) as [m|] eqn:Hm; [|apply lookup_ge_None in Hm; lia].
    destruct (consume_advances s m Hs Hc Hm) as [Hoff Hc'].
    assert (queue (consume (quiet 0 []) s) = queue s) as Hq by apply consume_queue.
    assert (leads s (consume (quiet 0 []) s)) as L
      by (split_and!; [apply rtc_once, bg_consume|apply consume_requests|congruence]).
    assert (topic (consume (quiet 0 []) s) = topic s) as Ht by apply (f_equal relay.topic Hq).
    destruct (IH (consume (quiet 0 []) s)) as (s' & L' & Hq' & Ho'); [by apply consume_inv|done| |].
    { rewrite Ht, Hoff. lia. }
    exists s'. split_and!; [by etrans|congruence|done].
Qed.

(** A relay that is in a batch can finish it. *)
Lemma batch_ends (i : nat) (rows : list outbox.Row) (s : State) :
  Inv s → relays s i = Sending rows → ∃ s', leads s s' ∧ relays s' i = Idle.
Proof.
  revert s. induction rows as [|row rows IH]; intros s Hs Hp.
  { destruct (exchange_leads i (quiet 0 []) (λ _, false) (Sending []) Idle (queue s) s Hp)
      as (s1 & L1 & Hp1 & _); [done|]. by exists s1. }
  assert (relay.publishable json_Valid marshal row) as [Hv Hm].
  { pose proof (inv_points _ _ _ _ _ _ _ Hs i) as Hi. rewrite Hp in Hi.
    apply Forall_cons in Hi as [(e & He & <-) _]. by eapply inv_publishable. }
  destruct (marshal (outbox.envelope row)) as [enc|?|?] eqn:Henc; [|done..].
  destruct (exchange_leads i (quiet 0 []) (λ _, false) (Sending (row :: rows)) (Marking row (inl ()) rows)
    (relay.mkState (relay.table (queue s))
       (topic s ++ [kafka.message inject (quiet 0 []) (outbox.envelope row) enc])) s Hp)
    as (s1 & L1 & Hp1 & _).
  { cbn [platform.exchange]. unfold caught, relay.on_topic, kafka.Publish. by rewrite Hv, Henc. }
  destruct (exchange_leads i (quiet 0 []) (λ _, false) (Marking row (inl ()) rows) (Sending rows)
    (relay.mark_row (worker i) (quiet 0 []) row (inl ()) (queue s1)).2 s1 Hp1) as (s2 & L2 & Hp2 & _).
  { done. }
  destruct (IH s2) as (s3 & L3 & Hp3); [by repeat (eapply leads_inv; [done|])|done|].
  exists s3. split; [|done]. etrans; [exact L1|]. by etrans.
Qed.

Lemma becomes_idle (i : nat) (s : State) :
  Inv s → relays s i ≠ Stopped → ∃ s', leads s s' ∧ relays s' i = Idle.
Proof.
  intros Hs Hlive. destruct (relays s i) as [| |rows|row sent rows] eqn:Hp; [done| | |].
  - by exists s.
  - by eapply batch_ends.
  - destruct (exchange_leads i (quiet 0 []) (λ _, false) (Marking row sent rows) (Sending rows)
      (relay.mark_row (worker i) (quiet 0 []) row sent (queue s)).2 s Hp) as (s1 & L1 & Hp1 & _).
    { by destruct sent. }
    destruct (batch_ends i rows s1) as (s2 & L2 & Hp2); [by eapply leads_inv|done|].
    exists s2. split; [by etrans|done].
Qed.

(** *** What does not run changes nothing *)

Definition stalled (s s' : State) : Prop :=
  ((∀ i, relays s i = Stopped) → (∀ i, relays s' i = Stopped) ∧ topic s' = topic s) ∧
  (consuming s = false → consuming s' = false ∧ offset s' = offset s ∧
     usage_ledger (tables s') = usage_ledger (tables s)).

#[local] Instance stalled_preorder : PreOrder stalled.
Proof.
  split; [by split|]. intros s1 s2 s3 [A1 B1] [A2 B2]. split.
  - intros [Hr Ht]%A1. destruct (A2 Hr). split; [done|congruence].
  - intros (Hc & Ho & Hl)%B1. destruct (B2 Hc) as (? & ? & ?). split_and!; congruence.
Qed.

Lemma unattended_stalled (s s' : State) : Inv s → unattended s s' → stalled s s'.
Proof.
  intros Hs. destruct 1 as [s io c Hclock Hord Hid|s io c Hclock Hid|s s' Hb|s i|s].
  - split; [done|]. intros Hc. split_and!; [done..|].
    by destruct (perform_writes law_uuid io c Hid (tables s)) as [Hl _ _].
  - split; [done|]. intros Hc. split_and!; [done..|].
    destruct (evaluate_step io c (db s) Hid) as [_ [[Hl _ _] _ _]]; [apply Hs|exact Hl].
  - destruct Hb as [s i io locked p q Hex|s io].
    + split; [|done]. intros Hstop. rewrite Hstop in Hex. injection Hex as <- <-.
      split; [|done]. intros j. simpl. by destruct (j =? i)%nat.
    + split.
      * intros Hstop. pose proof (f_equal relay.topic (consume_queue io s)) as Ht. split; [|exact Ht].
        by destruct (consume_cases io s) as [->|[b ->]].
      * intros Hc. unfold platform.consume. by rewrite Hc.
  - split; [|done]. intros Hstop. split; [|done]. intros j. simpl. by destruct (j =? i)%nat.
  - by split.
Qed.

(** C4 (liveness): the platform settles as long as its loops run, and only then. From
    every state that it reaches in which one relay and the consumer are in their loops,
    wherever in them and whatever was interrupted before, steps of these loops alone (no
    process is started) lead to a state in which every outbox row has been sent, the
    consumer has caught up, and the ledger holds exactly the charges of the completed
    requests: no row and no message is ever stuck. An error of the database ends a loop,
    though: once no relay is left in its loop nothing is sent any more, and once the
    consumer's has ended nothing is billed any more, whatever clients do, until a
    process is started again. (A relay of [NewRelay] has a batch size of at least one.) *)
Theorem always_settles (s : State) :
  reachable s →
  ((∃ i id size poll, worker i = relay.NewRelay id size poll ∧ relays s i ≠ Stopped) →
   consuming s = true →
   ∃ s', rtc background s s' ∧ settled s' ∧ charged s' = charged s ∧ billed s' ≡ₚ charged s) ∧
  (∀ s', rtc unattended s s' →
     ((∀ i, relays s i = Stopped) → topic s' = topic s) ∧
     (consuming s = false → billed s' = billed s)).
Proof.
  intros Hs%platform_inv. split.
  2: { intros s' Hsteps. assert (stalled s s') as [Hr Hc].
       { induction Hsteps as [|s1 s2 s3 Hstep _ IH]; [done|].
         etrans; [by apply unattended_stalled|by eapply IH, unattended_inv]. }
       split; [by intros [_ ?]%Hr|]. intros (_ & _ & Hl)%Hc. unfold billed. by rewrite Hl. }
  intros (i & id & n & poll & Hw & Hlive) Hc.
  assert (0 < relay.batchSize (worker i)) as Hb.
  { rewrite Hw. simpl. destruct (n <=? 0) eqn:Hle; lia. }
  destruct (becomes_idle i s Hs Hlive) as (s1 & L1 & Hp1).
  destruct (drain i s1 Hb) as (s2 & L2 & Hempty); [by eapply leads_inv|done|].
  assert (leads s s2) as L12 by by etrans.
  destruct (catch_up s2) as (s3 & L3 & Hq & Hoff); [by eapply leads_inv|by rewrite (proj2 (proj2 L12))|].
  assert (leads s s3) as L by by etrans.
  assert (Inv s3) as Hs3 by by eapply leads_inv.
  assert (settled s3) as Hset.
  { split; [|done]. intros k e He. apply (f_equal relay.table) in Hq. simpl in Hq. rewrite Hq in He.
    destruct (outbox.published_at e) eqn:Hp; [done|]. exfalso.
    assert (k ∈ pending (outbox_events (tables s2))) as Hk by (apply elem_of_pending; eauto).
    rewrite Hempty in Hk. by apply not_elem_of_empty in Hk. }
  pose proof (leads_charged _ _ L) as Hch. exists s3. rewrite <- Hch at 2.
  split_and!; [apply L|done|done|by apply settled_accounts].
Qed.
End Proofs.
End platform_proofs.
