(* ===== verification/PlatformDemo.v ===== *)
(** * PlatformDemo: a concrete platform

    An instance of the code outside, a script of interleaved steps in which
    relays, consumer and connections fail, and the witnesses of
    [PlatformProofs]. *)

From Stdlib Require Import Ascii.
From S2P Require Import Prelude Golib Request Budget Auth Store Outbox AuditTrail Postgres.
From S2P Require Import PostgresProofs Evaluators EvalStore EvalProofs Clients Platform PlatformProofs.

Module platform_demo.
Import persistence postgres clients platform.

(** ** Coders: any countable value as a text of binary digits *)

Fixpoint digits (p : positive) : string :=
  match p with
  | xH => ""
  | xO p => String "0"%char (digits p)
  | xI p => String "1"%char (digits p)
  end.
Fixpoint number (s : string) : positive :=
  match s with
  | EmptyString => xH
  | String c s => if Ascii.eqb c "1"%char then xI (number s) else xO (number s)
  end.
Lemma number_digits (p : positive) : number (digits p) = p.
Proof. induction p as [p IH|p IH|]; simpl; [by rewrite IH..|done]. Qed.

Definition to_text {A} `{Countable A} (a : A) : string := digits (countable.encode a).
Definition of_text {A} `{Countable A} (s : string) : res A :=
  match countable.decode (number s) with Some a => Ok a | None => Err (New "bad text") end.
Lemma text_round_trip {A} `{Countable A} (a : A) : of_text (to_text a) = Ok a.
Proof. unfold of_text, to_text. by rewrite number_digits, countable.decode_encode. Qed.

(** The fields of a payload that a usage has. *)
Definition field (k : string) (p : Payload) : option value :=
  snd <$> List.find (λ kv : string * value, kv.1 =s k) p.
Definition text (v : option value) : string := match v with Some (VString s) => s | _ => "" end.
Definition int (v : option value) : Z := match v with Some (VInt n) => n | _ => 0 end.

#[global] Instance outside : Outside := {|
  uuid := λ io n, hex.EncodeToString (Z.of_nat n :: take 2 (io_rand io));
  encode_metadata := λ _, Ok "{}";
  encode_payload := λ p, Ok (to_text (text (field "request_id" p), int (field "prompt_tokens" p),
                                      int (field "completion_tokens" p), int (field "cost_micro_usd" p)));
  encode_response := λ _, Ok "{...}";
  decode_response := λ _, Ok postgres_demo.response
|}.
#[global] Instance codecs : evalstore.Codecs := {|
  evalstore.jsonb := λ s, s;
  evalstore.decode_choices := λ _, Ok ["hello"];
  evalstore.decode_thresholds := λ _, evalstore.mkThresholds "" [] 0 0 0 0;
  evalstore.encode_results := λ _, Ok "[]"
|}.

Definition valid (s : string) : bool := true.
Definition decode (s : string) : res audit.Usage :=
  match of_text s with
  | Ok (id, prompt, completion, cost) => Ok (audit.mkUsage id prompt completion cost)
  | Err e => Err e
  | Panic w => Panic w
  end.

Definition tuple (e : events.Envelope) :=
  (events.EventID e, events.EventType e, events.Version e, events.AggregateID e, events.TenantID e,
   events.Timestamp e, events.CorrelationID e, events.CausationID e, events.Payload e).
Definition marshal (e : events.Envelope) : res string := Ok (to_text (tuple e)).
Definition unmarshal (s : string) : res events.Envelope :=
  match of_text s with
  | Ok (id, ty, v, agg, tn, at_, corr, caus, payload) =>
    Ok (events.mkEnvelope id ty v agg tn at_ corr caus payload)
  | Err e => Err e
  | Panic w => Panic w
  end.
Definition trace (io : IO) : list (string * string) := [].
Definition worker (i : nat) : relay.Relay :=
  relay.NewRelay (if (i =? 0)%nat then "first" else "second") 2 time.Second.

#[global] Instance laws : Laws valid decode marshal unmarshal relay_demo.backwards.
Proof.
  split.
  - done.
  - done.
  - intros p latency enc u _ _ _ _ [= <-]. unfold decode. by rewrite text_round_trip.
  - done.
  - intros ev enc _ [= <-]. exists (events.Payload ev). split_and!; [|done|done].
    unfold unmarshal. rewrite text_round_trip. unfold tuple. by destruct ev.
  - apply relay_demo.backwards_perm.
Qed.

(** ** Scripts *)

Inductive action : Type :=
| ACall (io : IO) (c : call)
| AEvaluate (io : IO) (c : evaluation_call)
| ARelay (i : nat) (io : IO)
| ACrash (i : nat)
| AStart (i : nat)
| AConsume (io : IO)
| AResume.

Definition act_on (s : State) (a : action) : State :=
  match a with
  | ACall io c => with_tables (perform io c (tables s)).2 s
  | AEvaluate io c => with_db (evaluate io c (db s)).2 s
  | ARelay i io =>
    let '(p, q) := exchange valid marshal trace relay_demo.backwards (worker i) io (λ _, false)
                     (relays s i) (queue s) in
    with_relay i p (with_queue q s)
  | ACrash i => with_relay i Stopped s
  | AStart i => with_relay i Idle (with_relay i Stopped s)
  | AConsume io => consume valid decode unmarshal "audit" io s
  | AResume => with_consuming true (with_consuming false s)
  end.

Definition fine (a : action) : Prop :=
  match a with
  | ACall io c => clock io ∧ orderly c ∧ identified c
  | AEvaluate io c => clock io ∧ evaluation_identified c
  | _ => True
  end.

#[local] Abbreviation step :=
  (platform.step valid decode marshal unmarshal trace relay_demo.backwards "audit" worker).
#[local] Abbreviation reachable :=
  (platform.reachable valid decode marshal unmarshal trace relay_demo.backwards "audit" worker).

#[local] Abbreviation unattended :=
  (platform.unattended valid decode marshal unmarshal trace relay_demo.backwards "audit" worker).

Lemma act_steps (s : State) (a : action) : fine a → rtc step s (act_on s a).
Proof.
  assert (∀ s', unattended s s' → rtc step s s') as Hone by (intros; by apply rtc_once, step_unattended).
  destruct a as [io c|io c|i io|i|i|io|]; simpl; intros Ha.
  - destruct Ha as (? & ? & ?). by apply Hone, un_call.
  - destruct Ha. by apply Hone, un_evaluate.
  - destruct (exchange _ _ _ _ _ _ _ _ _) as [p q] eqn:Hex. eapply Hone, un_background, bg_relay, Hex.
  - apply Hone, un_relay_dies.
  - eapply rtc_l; [apply step_unattended, un_relay_dies|]. apply rtc_once, step_start_relay.
    simpl. by rewrite Nat.eqb_refl.
  - apply Hone, un_background, bg_consume.
  - eapply rtc_l; [apply step_unattended, un_consumer_dies|]. by apply rtc_once, step_start_consumer.
Qed.

Definition empty (c : Catalog) : State :=
  mkState (evalstore.mkDB (mkDB c ∅ ∅ ∅ ∅ ∅) ∅ ∅) [] 0 ∅ ∅ false (λ _, Stopped).

Lemma script_reachable (c : Catalog) (l : list action) :
  Forall fine l → reachable (foldl act_on (empty c) l).
Proof.
  intros Hl. exists (empty c). split; [by exists c|]. generalize (empty c).
  induction Hl as [|a l Ha Hl IH]; intros s; [done|]. etrans; [by apply act_steps|apply IH].
Qed.

(** ** An eventful day

    A request is completed at the second try, another one is only accepted, an
    evaluation of the first is dead-lettered. The first relay loses the broker's
    answer and dies with its claim; the second takes over after the claim has
    expired. The consumer loses an offset commit, then the answer of a
    transaction, and is started again both times. *)
Import postgres_demo.

Definition rid : string := uuid (at_ 1) 0.
Definition job : string := uuid (at_ 14) 0.
Definition completion : CompletionParams := mkCompletionParams rid "t" 1 "prov-1" response 70 time.epoch "corr".
Definition evaluation : evalstore.CreateEvaluationParams :=
  evalstore.mkCreateEvaluationParams "t" rid "eval-1" "eh" "pii" "corr" "{}".

Definition busy : list action :=
  [AStart 0; AStart 1; AResume;
   ACall (at_ 1) (CCreate (create "k" "h"));
   ACall (at_ 2) (CTransition "t" rid request.Received request.Validated);
   ACall (at_ 3) (CReserve "t" rid 80 (time.epoch + 3 * time.Second));
   ACall (at_ 4) (CTransition "t" rid request.Validated request.Routing);
   ACall (at_ 5) (CTransition "t" rid request.Routing request.InProgress);
   ACall (at_ 6) (CStart (mkAttemptParams rid "t" 1 "mock" "gpt" "corr"));
   ACall (flaky 7 1) (CComplete completion);
   ARelay 0 (at_ 8); ARelay 0 (flaky 9 1); ACrash 0;
   ACall (at_ 10) (CComplete completion);
   ACall (at_ 11) (CReconcile rid 70);
   ACall (at_ 12) (CCreate (create "k2" "h2"));
   AEvaluate (at_ 14) (ECreate evaluation);
   AEvaluate (at_ 15) (EFail "t" job "timeout" true)].
Definition relaying : list action := ARelay 0 (at_ 90) :: AStart 0 :: ((λ n, ARelay 1 (at_ (100 + Z.of_nat n))) <$> seq 0 20).
Definition reading : list action :=
  [AConsume (flaky 130 7); AResume; AConsume (flaky 131 5); AResume] ++
  ((λ n, AConsume (at_ (140 + Z.of_nat n))) <$> seq 0 8).

Definition start : State := empty (catalog postgres_demo.start).
Definition middle : State := foldl act_on start busy.
Definition final : State := foldl act_on start (busy ++ relaying ++ reading).

Lemma at_clock (n : Z) : 0 <= n < 1000 → clock (at_ n).
Proof.
  intros Hn. unfold clock, at_. cbn [quiet io_now]. change time.epoch with 62135596800000000000.
  change time.Second with 1000000000. change (3652059 * time.Day) with 315537897600000000000. lia.
Qed.

Lemma busy_fine : Forall fine busy.
Proof.
  unfold busy. repeat (apply Forall_cons; split); try (by apply Forall_nil); try exact I;
    (split; [first [apply at_clock; lia|exact (at_clock 7 ltac:(lia))]|]);
    try (split; [try exact I; split; discriminate|]); try exact I; try (split; discriminate);
    try discriminate; vm_compute; intuition discriminate.
Qed.

Lemma script_fine : Forall fine (busy ++ relaying ++ reading).
Proof.
  apply Forall_app. split; [exact busy_fine|]. apply Forall_app. split.
  - unfold relaying. do 2 (apply Forall_cons; split; [exact I|]). by apply Forall_fmap, Forall_true.
  - unfold reading. apply Forall_app. split; [by repeat constructor|]. by apply Forall_fmap, Forall_true.
Qed.

Lemma final_settled : settled final.
Proof.
  split; [|vm_compute; reflexivity].
  assert (map_Forall (λ _ e, is_Some (outbox.published_at e)) (outbox_events (tables final))) as Hall.
  { apply (bool_decide_unpack _). vm_compute. exact I. }
  exact Hall.
Qed.

Lemma billed_once_witness :
  reachable final ∧ (length (topic final) = 7)%nat ∧ billed final ≡ₚ charged final ∧
  used_since "t" time.epoch (tables final) = 70.
Proof.
  pose proof (script_reachable (catalog postgres_demo.start) (busy ++ relaying ++ reading) script_fine) as Hr.
  split; [exact Hr|]. split; [vm_compute; reflexivity|].
  destruct (platform_proofs.billed_once valid decode marshal unmarshal trace relay_demo.backwards "audit"
    worker final Hr) as (_ & _ & Hset).
  destruct (Hset final_settled) as [Hperm Hused]. split; [exact Hperm|].
  rewrite Hused. vm_compute. reflexivity.
Defined.

(** The second relay dies too, and the database fails the consumer. *)
Definition halting : list action := [ACrash 1; AConsume (flaky 130 5)].
Definition halted : State := foldl act_on start (busy ++ halting).
Definition later : State := act_on (act_on halted (ARelay 1 (at_ 200))) (AConsume (at_ 201)).

Lemma halted_fine : Forall fine (busy ++ halting).
Proof. apply Forall_app. split; [exact busy_fine|]. by repeat constructor. Qed.
Lemma halted_stopped (i : nat) : relays halted i = Stopped.
Proof. destruct i as [|[|i]]; vm_compute; reflexivity. Qed.
Lemma halted_later : rtc unattended halted later.
Proof.
  eapply rtc_l; [|apply rtc_once, un_background, bg_consume]. cbn [act_on].
  destruct (exchange _ _ _ _ _ _ _ _ _) as [p q] eqn:Hex. eapply un_background, bg_relay, Hex.
Qed.

(** In the middle of that day the second relay and the consumer settle the accounts;
    once they have stopped, a completed request stays unbilled. *)
Lemma always_settles_witness :
  (reachable middle ∧ billed middle = [] ∧
   ∃ s, settled s ∧ charged s = charged middle ∧ billed s ≡ₚ [platform_proofs.charge_of rid
     (completed_row "{...}" (request.mkUsage 10 20 30) 70 (io_now (at_ 10))
        (new_row (create "k" "h") "m1" "{}" (io_now (at_ 1))))]) ∧
  (reachable halted ∧ length (charged halted) = 1%nat ∧ topic later = topic halted ∧ billed later = []).
Proof.
  pose proof (script_reachable (catalog postgres_demo.start) busy busy_fine) as Hr.
  pose proof (script_reachable (catalog postgres_demo.start) (busy ++ halting) halted_fine) as Hh.
  split.
  - split; [exact Hr|]. split; [vm_compute; reflexivity|].
    destruct (platform_proofs.always_settles valid decode marshal unmarshal trace relay_demo.backwards "audit"
      worker middle Hr) as [Hlive _]. destruct Hlive as (s & _ & Hset & Hch & Hb).
    + exists 1%nat, "second", 2, time.Second. split; [reflexivity|]. vm_compute. discriminate.
    + vm_compute. reflexivity.
    + exists s. split; [exact Hset|]. split; [exact Hch|].
      replace [_] with (charged middle) by (vm_compute; reflexivity). exact Hb.
  - split; [exact Hh|]. split; [vm_compute; reflexivity|].
    destruct (platform_proofs.always_settles valid decode marshal unmarshal trace relay_demo.backwards "audit"
      worker halted Hh) as [_ Hstop]. destruct (Hstop later halted_later) as [Ht Hb].
    split; [apply Ht, halted_stopped|]. rewrite Hb by (vm_compute; reflexivity). vm_compute. reflexivity.
Defined.
End platform_demo.
