(* ===== verification/Http.v ===== *)
(** * Http: requests, response writers, problem documents and middleware

    What the handlers use of [net/http] (module [http]), and the packages
    [pkg/problem/problem.go] (module [problem]) and
    [pkg/middleware/context.go] (module [middleware]). *)

From Stdlib Require Import Ascii.
From S2P Require Import Prelude Golib Auth.

Module http.
(** A request: [Path] is [r.URL.Path], [EscapedPath] the path as it was sent; [limit] is
    set by [MaxBytesReader]. *)
Record Request : Type := mkRequest {
  Method : string;
  Path : string;
  EscapedPath : string;
  Header : list (string * string);
  Body : string;
  ContentLength : Z;
  PathValues : list (string * string);
  Query : list (string * string);
  limit : option Z
}.

Definition lookup (same : string → bool) (l : list (string * string)) : string :=
  match List.find (λ kv, same kv.1) l with Some kv => kv.2 | None => "" end.
(** Header names are compared without case. *)
Definition lower (c : ascii) : ascii :=
  let b := strings.byte c in if (65 <=? b) && (b <=? 90) then strings.chr (b + 32) else c.
Definition same_header (a b : string) : bool :=
  bool_decide (map lower (strings.chars a) = map lower (strings.chars b)).
(** [r.Header.Get(name)], [r.PathValue(name)] and [r.URL.Query().Get(name)]. *)
Definition HeaderGet (r : Request) (name : string) : string := lookup (same_header name) (Header r).
Definition PathValue (r : Request) (name : string) : string := lookup (String.eqb name) (PathValues r).
Definition QueryGet (r : Request) (name : string) : string := lookup (String.eqb name) (Query r).

Definition ErrTooLarge : error := New "http: request body too large".
(** The text a reader of the body gets, and the error after it. *)
Definition read_body (r : Request) : string * option error :=
  match limit r with
  | Some n => if n <? strings.len (Body r)
              then (strings.of_chars (take (Z.to_nat n) (strings.chars (Body r))), Some ErrTooLarge)
              else (Body r, None)
  | None => (Body r, None)
  end.

(** A response writer: the header map, what was sent of it with the status, the body
    so far, which of its writes fail, and the argument of the last call of
    [WriteHeader], which is what a writer wrapped around it gets to see. *)
Record Writer : Type := mkWriter {
  header : gmap string string;
  sent : option (Z * gmap string string);
  body : string;
  writes : nat;
  broken : nat → option error;
  called : option Z
}.
Definition new_writer (broken : nat → option error) : Writer := mkWriter ∅ None "" 0 broken None.

Definition set_header (k v : string) (w : Writer) : Writer :=
  mkWriter (<[k := v]> (header w)) (sent w) (body w) (writes w) (broken w) (called w).
Definition set_called (c : option Z) (w : Writer) : Writer :=
  mkWriter (header w) (sent w) (body w) (writes w) (broken w) c.
(** Only the first status is sent. *)
Definition send (status : Z) (w : Writer) : Writer :=
  match sent w with
  | Some _ => w
  | None => mkWriter (header w) (Some (status, header w)) (body w) (writes w) (broken w) (called w)
  end.
Definition WriteHeader (status : Z) (w : Writer) : Writer := set_called (Some status) (send status w).
Definition Write (text : string) (w : Writer) : option error * Writer :=
  let w := send 200 w in
  match broken w (writes w) with
  | Some e => (Some e, mkWriter (header w) (sent w) (body w) (S (writes w)) (broken w) (called w))
  | None => (None, mkWriter (header w) (sent w) (body w +:+ text) (S (writes w)) (broken w) (called w))
  end.

Definition StatusText (status : Z) : string :=
  if status =? 400 then "Bad Request" else if status =? 401 then "Unauthorized"
  else if status =? 402 then "Payment Required" else if status =? 403 then "Forbidden"
  else if status =? 404 then "Not Found" else if status =? 409 then "Conflict"
  else if status =? 413 then "Request Entity Too Large"
  else if status =? 429 then "Too Many Requests"
  else if status =? 500 then "Internal Server Error" else if status =? 502 then "Bad Gateway"
  else if status =? 503 then "Service Unavailable" else "".

(** The values the middlewares put into the request's context. *)
Record Context : Type := mkContext {
  requestID : string;
  correlationID : string;
  principal : option auth.Principal
}.
Definition background : Context := mkContext "" "" None.

(** A state with the response writer of the request in it. *)
Class Exchange (W : Type) : Type := {
  writer : W → Writer;
  set_writer : Writer → W → W;
  writer_set x w : writer (set_writer x w) = x
}.
#[global] Instance writer_exchange : Exchange Writer.
Proof. by refine {| writer := λ w, w; set_writer := λ x _, x |}. Defined.

(** A handler answers a request; a panic unwinds through it. *)
Definition Handler (W : Type) : Type := Context → Request → M W unit.

Section Writing.
Context {W : Type} `{Exchange W}.
Definition modify (f : Writer → Writer) : M W unit := act (λ w, (Ok (), set_writer (f (writer w)) w)).
(** [_, _ = w.Write(text)]. *)
Definition write (text : string) : M W unit :=
  act (λ w, (Ok (), set_writer (Write text (writer w)).2 w)).

(** [http.Error(w, text, status)]. *)
Definition Error (text : string) (status : Z) : M W unit :=
  _ ← modify (set_header "Content-Type" "text/plain; charset=utf-8");
  _ ← modify (set_header "X-Content-Type-Options" "nosniff");
  _ ← modify (WriteHeader status);
  write (text +:+ strings.of_chars ["010"%char]).
End Writing.
End http.

(** ** Problem documents *)

Module problem.
Record Detail : Type := mkDetail {
  Type_ : string;
  Title : string;
  Status : Z;
  Detail_ : string;
  Instance_ : string;
  Code : string;
  RequestID : string;
  CorrelationID : string
}.

(** The JSON encoder, with the newline after the value. *)
Class Encoder : Type := { encode_detail : Detail → string }.

Section Write.
Context {W : Type} `{http.Exchange W} `{Encoder}.
Definition complete (value : Detail) : Detail :=
  mkDetail (if Type_ value =s "" then "about:blank" else Type_ value)
    (if Title value =s "" then http.StatusText (Status value) else Title value)
    (Status value) (Detail_ value) (Instance_ value) (Code value) (RequestID value)
    (CorrelationID value).
Definition Write (value : Detail) : M W unit :=
  let value := complete value in
  _ ← http.modify (http.set_header "Content-Type" "application/problem+json");
  _ ← http.modify (http.set_header "Cache-Control" "no-store");
  _ ← http.modify (http.WriteHeader (Status value));
  http.write (encode_detail value).
End Write.
End problem.

(** ** Responses that both APIs write *)

Module respond.
Import http.
Section Respond.
Context {W : Type} `{Exchange W} `{problem.Encoder}.

Definition writeProblem (ctx : Context) (r : Request) (status : Z) (code detail : string) : M W unit :=
  problem.Write (problem.mkDetail ("https://aegis.example/problems/" +:+ code) "" status detail
    (Path r) code (requestID ctx) (correlationID ctx)).

Definition writeJSON (status : Z) (encoded : string) : M W unit :=
  _ ← modify (set_header "Content-Type" "application/json");
  _ ← modify (set_header "Cache-Control" "no-store");
  _ ← modify (WriteHeader status);
  write encoded.
End Respond.

Definition WithPrincipal (ctx : Context) (p : auth.Principal) : Context :=
  mkContext (requestID ctx) (correlationID ctx) (Some p).
Definition FromContext (ctx : Context) : auth.Principal :=
  default (auth.mkPrincipal "" "" "" ∅) (principal ctx).
End respond.

(** ** Middleware *)

Module middleware.
Import http.

Definition safe_character (c : ascii) : bool :=
  let b := strings.byte c in
  Ascii.eqb c "-"%char || Ascii.eqb c "_"%char || Ascii.eqb c "."%char ||
  ((48 <=? b) && (b <=? 57)) || ((97 <=? b) && (b <=? 122)) || ((65 <=? b) && (b <=? 90)).

(** The characters outside ASCII are refused; their bytes are. *)
Definition sanitizeID (value : string) : string :=
  let value := strings.TrimSpace value in
  if (strings.len value =? 0) || (128 <? strings.len value) then ""
  else if forallb safe_character (strings.chars value) then value else "".

Section Middleware.
Context {W : Type} `{Exchange W} `{problem.Encoder}.
(** [time.Now().UTC().Format(time.RFC3339Nano)] as bytes. *)
Context (timestamp : time.Time → list Z).

(** Sixteen random bytes, or the time if there are none to be had (fault 0). *)
Definition newID (io : IO) : string :=
  match io_fault io 0 with
  | Some _ => hex.EncodeToString (timestamp (io_now io))
  | None => hex.EncodeToString (take 16 (io_rand io))
  end.

Definition RequestContext (io : IO) (next : Handler W) : Handler W := λ ctx r,
  let requestID := newID io in
  let correlationID :=
    let given := sanitizeID (HeaderGet r "X-Correlation-ID") in
    if given =s "" then requestID else given in
  _ ← modify (set_header "X-Request-ID" requestID);
  _ ← modify (set_header "X-Correlation-ID" correlationID);
  next (mkContext requestID correlationID (principal ctx)) r.

Definition BodyLimit (maxBytes : Z) (next : Handler W) : Handler W := λ ctx r,
  if maxBytes <? ContentLength r
  then problem.Write (problem.mkDetail "" "" 413 "" "" "request_too_large" (requestID ctx) "")
  else next ctx (mkRequest (Method r) (Path r) (EscapedPath r) (Header r) (Body r) (ContentLength r) (PathValues r)
                   (Query r) (Some maxBytes)).

(** [http.TimeoutHandler]: the handler writes into a buffer, and is left running when its
    time is over. How it ended: in time, after the deadline, or after the client left. *)
Inductive ending : Type := InTime | Expired | ClientGone.
Definition quoted (s : string) : string :=
  let quote := strings.of_chars ["034"%char] in quote +:+ s +:+ quote.
Definition timeout_text : string :=
  "{" +:+ quoted "type" +:+ ":" +:+ quoted "about:blank" +:+ "," +:+ quoted "title" +:+ ":" +:+
  quoted "Gateway Timeout" +:+ "," +:+ quoted "status" +:+ ":504," +:+ quoted "code" +:+ ":" +:+
  quoted "request_timeout" +:+ "}".
Definition Timeout (ended : ending) (next : Handler W) : Handler W := λ ctx r w,
  let '(out, w') := next ctx r (set_writer (new_writer (λ _, None)) w) in
  let buffer := writer w' in
  let w' := set_writer (writer w) w' in
  match ended, out with
  | InTime, Panic why => (Panic why, w')
  | InTime, _ =>
    (_ ← modify (λ x, mkWriter (header buffer ∪ header x) (sent x) (body x) (writes x) (broken x) (called x));
     _ ← modify (WriteHeader (default 200 (fst <$> sent buffer)));
     write (body buffer)) w'
  | Expired, _ => (_ ← modify (WriteHeader 503); write timeout_text) w'
  | ClientGone, _ => modify (WriteHeader 503) w'
  end.

(** The recovered panic is logged and answered. *)
Definition Recover (next : Handler W) : Handler W := λ ctx r w,
  match next ctx r w with
  | (Panic _, w) =>
    problem.Write (problem.mkDetail "" "" 500 "" "" "internal_error" (requestID ctx)
                     (correlationID ctx)) w
  | out => out
  end.

(** The wrappers in declaration order, the first outermost. *)
Definition Chain (handler : Handler W) (wrappers : list (Handler W → Handler W)) : Handler W :=
  foldr (λ wrap h, wrap h) handler wrappers.
End Middleware.

(** A handler that ran out of time is answered with status 503, in a document that says
    504. *)
Lemma Timeout_status {W} `{Exchange W} (next : Handler W) (ctx : Context) (r : Request) (w : W) :
  sent (writer w) = None →
  let x := writer (Timeout Expired next ctx r w).2 in
  (fst <$> sent x) = Some 503 ∧
  (broken (writer w) (writes (writer w)) = None → body x = body (writer w) +:+ timeout_text).
Proof.
  intros Hs. unfold Timeout. destruct (next ctx r _) as [out w1].
  unfold mbind, M_bind, modify, write, act. cbn [snd]. rewrite !writer_set.
  unfold Write, WriteHeader, send, set_called. rewrite Hs. simpl.
  destruct (broken (writer w) (writes (writer w))); simpl; by split.
Qed.

(** *** Correlation identifiers *)

(** An identifier that is safe to echo in a header and to log. *)
Definition safe_id (s : string) : Prop :=
  1 <= strings.len s <= 128 ∧ Forall (λ c, safe_character c = true) (strings.chars s).

Lemma sanitizeID_safe (value : string) :
  sanitizeID value = "" ∨ (sanitizeID value = strings.TrimSpace value ∧ safe_id (sanitizeID value)).
Proof.
  unfold sanitizeID. set (v := strings.TrimSpace value).
  destruct ((strings.len v =? 0) || (128 <? strings.len v)) eqn:Hlen; [by left|].
  destruct (forallb safe_character (strings.chars v)) eqn:Hall; [|by left].
  right. split; [done|]. apply orb_false_iff in Hlen as [?%Z.eqb_neq ?%Z.ltb_ge].
  split; [unfold strings.len in *; lia|]. apply Forall_forall. intros c Hc.
  rewrite forallb_forall in Hall. by apply Hall, list_elem_of_In.
Qed.

Lemma digit_safe (n : Z) : 0 <= n < 16 → safe_character (hex.digit n) = true.
Proof.
  intros Hn. assert (forallb (λ n, safe_character (hex.digit n)) (seqZ 0 16) = true) as Hall
    by (vm_compute; reflexivity).
  rewrite forallb_forall in Hall. apply Hall, list_elem_of_In, elem_of_seqZ. lia.
Qed.

Lemma hex_safe (bytes : list Z) : Forall (λ b, 0 <= b < 256) bytes →
  Forall (λ c, safe_character c = true) (strings.chars (hex.EncodeToString bytes)) ∧
  strings.len (hex.EncodeToString bytes) = 2 * Z.of_nat (length bytes).
Proof.
  intros Hb. unfold hex.EncodeToString. rewrite chars_of_chars, len_of_chars.
  induction Hb as [|b bytes Hb _ [IH1 IH2]]; simpl; [by split|]. split.
  - repeat constructor; [..|done]; apply digit_safe.
    + split; [apply Z.div_pos; lia|apply Z.div_lt_upper_bound; lia].
    + apply Z.mod_pos_bound. lia.
  - lia.
Qed.

Section Safe.
Context {W : Type} `{Exchange W} (timestamp : time.Time → list Z).

(** Identifiers are safe. Whatever a client sends as X-Correlation-ID, the
    handlers run with, and the response headers echo, a request and a correlation
    identifier of 1 to 128 characters among letters, digits, dot, dash and underscore,
    so nothing can be injected into headers or logs; a client's identifier that
    already is of this form is kept. *)
Theorem correlation_safe (io : IO) (next : Handler W) (ctx : Context) (r : Request) (w : W) :
  io_fault io 0 = None → (16 <= length (io_rand io))%nat → Forall (λ b, 0 <= b < 256) (io_rand io) →
  ∃ rid cid w',
    RequestContext timestamp io next ctx r w = next (mkContext rid cid (principal ctx)) r w' ∧
    safe_id rid ∧ safe_id cid ∧
    header (writer w') !! "X-Request-ID" = Some rid ∧
    header (writer w') !! "X-Correlation-ID" = Some cid ∧
    (let given := strings.TrimSpace (HeaderGet r "X-Correlation-ID") in safe_id given → cid = given).
Proof.
  intros Hf Hlen Hb. unfold RequestContext. set (rid := newID timestamp io).
  assert (safe_id rid) as Hrid.
  { unfold rid, newID. rewrite Hf. destruct (hex_safe (take 16 (io_rand io))) as [Hs Hl];
      [by apply Forall_take|]. split; [|done]. rewrite Hl, length_take. lia. }
  eexists rid, _, _. split; [reflexivity|]. rewrite !writer_set. cbn [header set_header].
  rewrite lookup_insert_eq, lookup_insert_ne, lookup_insert_eq by done. split; [done|].
  destruct (sanitizeID_safe (HeaderGet r "X-Correlation-ID")) as [He|[He Hs]].
  - rewrite He. cbn. split; [done|]. split; [done|]. split; [done|]. intros [Hg1 Hg2]. exfalso. revert He. unfold sanitizeID.
    rewrite (proj2 (Z.eqb_neq _ _)), (proj2 (Z.ltb_ge _ _)) by lia. cbn [orb].
    rewrite (proj2 (forallb_forall _ _)).
    + intros He. rewrite He in Hg1. unfold strings.len in Hg1. simpl in Hg1. lia.
    + intros c Hc. rewrite Forall_forall in Hg2. by apply Hg2, list_elem_of_In.
  - destruct (sanitizeID _ =s "") eqn:Hn.
    + apply String.eqb_eq in Hn. rewrite Hn in Hs. by destruct Hs as [[? _] _].
    + split_and!; [done..|]. by intros _.
Qed.
End Safe.

Lemma correlation_safe_witness :
  let r := mkRequest "GET" "/" "/" [("X-Correlation-ID", " trace-42.a ")] "" 0 [] [] None in
  ∃ rid cid w',
    RequestContext (λ _, []) (quiet 0 (repeat 7 16)) (λ _ _, mret ()) background r (new_writer (λ _, None)) =
      (Ok (), w') ∧ safe_id rid ∧ header w' !! "X-Correlation-ID" = Some cid ∧ cid = "trace-42.a".
Proof.
  cbn zeta.
  destruct (correlation_safe (λ _, []) (quiet 0 (repeat 7 16)) (λ _ _, mret ()) background
    (mkRequest "GET" "/" "/" [("X-Correlation-ID", " trace-42.a ")] "" 0 [] [] None) (new_writer (λ _, None)))
    as (rid & cid & w' & Hrun & Hr & Hc & _ & Hh & Hk).
  - reflexivity.
  - vm_compute. lia.
  - repeat constructor; lia.
  - exists rid, cid, w'. split; [exact Hrun|]. split; [exact Hr|]. split; [exact Hh|].
    apply Hk. split; [vm_compute; split; discriminate|]. vm_compute. repeat constructor.
Defined.
End middleware.
