(* ===== verification/Mux.v ===== *)
(** * Mux: requests on their way to a handler

    Module [served] is the state of a request that handlers pass on: the request
    object is shared by the handlers that pass it unchanged, so what the router writes
    into it is seen by the middlewares around it; [WithContext] makes a copy. Module
    [mux] is what the services use of [http.ServeMux]: patterns with a method, literal
    segments, wildcards and the catch-all, matched the way its routing tree does. *)

From Stdlib Require Import Ascii.
From S2P Require Import Prelude Golib Auth Http.

Module served.
Import http.

(** [pattern] is the field [Pattern] of the request object that the current handler
    holds. *)
Record Served (W : Type) : Type := mkServed { base : W; pattern : string }.
Arguments mkServed {W}.
Arguments base {W}.
Arguments pattern {W}.

#[global] Instance served_exchange {W} `{Exchange W} : Exchange (Served W).
Proof.
  refine {| writer := λ s, writer (base s); set_writer := λ x s, mkServed (set_writer x (base s)) (pattern s) |}.
  intros x s. apply writer_set.
Defined.

Section Served.
Context {W : Type}.
Definition set_base (w : W) (s : Served W) : Served W := mkServed w (pattern s).
Definition set_pattern (p : string) (s : Served W) : Served W := mkServed (base s) p.

(** A handler that does not look at the field. *)
Definition plain (h : Handler W) : Handler (Served W) := λ ctx r s,
  let '(out, w) := h ctx r (base s) in (out, set_base w s).

(** [next.ServeHTTP(w, r.WithContext(ctx))]: the handler works on a copy of the object. *)
Definition copied (next : Handler (Served W)) : Handler (Served W) := λ ctx r s,
  let '(out, s') := next ctx r s in (out, set_pattern (pattern s) s').
End Served.
End served.

(** ** http.ServeMux *)

Module mux.
Import http served.

(** *** Patterns *)

Inductive segment : Type :=
| Literal (s : string)
| Wild (name : string)
| Rest.

Definition slash : ascii := "/"%char.

(** [strings.Split(s, "/")]. *)
Definition split (s : string) : list string := strings.SplitN s slash (S (S (String.length s))).

(** A segment of a pattern; braces mark a wildcard. *)
Definition parse_segment (s : string) : segment :=
  match strings.chars s with
  | "{"%char :: rest => Wild (strings.of_chars (removelast rest))
  | _ => Literal s
  end.

Record Pattern : Type := mkPattern {
  pattern_method : option string;
  segments : list segment;
  text : string
}.

(** The segments of a pattern's path; a slash at the end stands for any rest. *)
Definition parse_path (path : string) : list segment :=
  match split path with
  | _ :: segs =>
    match last segs with
    | Some "" => map parse_segment (removelast segs) ++ [Rest]
    | _ => map parse_segment segs
    end
  | [] => []
  end.
Definition parsePattern (s : string) : Pattern :=
  match strings.SplitN s " "%char 2 with
  | [method; path] => mkPattern (Some method) (parse_path path) s
  | _ => mkPattern None (parse_path s) s
  end.

(** *** Paths *)

(** [path.Clean] on the segments of a rooted path. *)
Fixpoint clean_segments (segs acc : list string) : list string :=
  match segs with
  | [] => rev acc
  | s :: segs =>
    if (s =s "") || (s =s ".") then clean_segments segs acc
    else if s =s ".." then clean_segments segs (tail acc)
    else clean_segments segs (s :: acc)
  end.
Definition join (segs : list string) : string := foldr (λ s acc, "/" +:+ s +:+ acc) "" segs.
Definition ends_in_slash (s : string) : bool :=
  match last (strings.chars s) with Some c => Ascii.eqb c slash | None => false end.

(** [cleanPath]: rooted, without empty segments and dots, keeping a slash at the end. *)
Definition cleanPath (p : string) : string :=
  let clean := join (clean_segments (split p) []) in
  if clean =s "" then "/" else if ends_in_slash p then clean +:+ "/" else clean.

(** [url.PathUnescape]; a text it refuses is taken as it is. *)
Definition hex_value (c : ascii) : option Z :=
  let b := strings.byte c in
  if (48 <=? b) && (b <=? 57) then Some (b - 48)
  else if (97 <=? b) && (b <=? 102) then Some (b - 87)
  else if (65 <=? b) && (b <=? 70) then Some (b - 55)
  else None.
Fixpoint unescape (l : list ascii) : option (list ascii) :=
  match l with
  | [] => Some []
  | "%"%char :: rest =>
    match rest with
    | a :: b :: rest =>
      h ← hex_value a; k ← hex_value b;
      (strings.chr (16 * h + k) ::.) <$> unescape rest
    | _ => None
    end
  | c :: rest => (c ::.) <$> unescape rest
  end.
Definition pathUnescape (s : string) : string :=
  match unescape (strings.chars s) with Some l => strings.of_chars l | None => s end.

(** The segments of a clean path: unescaped, and "/" for a slash at the end. *)
Definition path_segments (p : string) : list string :=
  match split p with
  | _ :: segs =>
    match last segs with
    | Some "" => map pathUnescape (removelast segs) ++ ["/"]
    | _ => map pathUnescape segs
    end
  | [] => []
  end.

(** *** The routing tree

    A node of the tree is the list of what is left of the patterns below it. *)

Section Tree.
Context {A : Type}.
#[local] Abbreviation node := (list (list segment * A)).

Definition literal_child (seg : string) (n : node) : node :=
  omap (λ p, match p.1 with Literal s :: rest => if s =s seg then Some (rest, p.2) else None | _ => None end) n.
Definition wild_child (n : node) : node :=
  omap (λ p, match p.1 with Wild _ :: rest => Some (rest, p.2) | _ => None end) n.
Definition leaf (n : node) : option A :=
  head (omap (λ p, match p.1 with [] => Some p.2 | _ => None end) n).
Definition rest_child (n : node) : option A :=
  head (omap (λ p, match p.1 with [Rest] => Some p.2 | _ => None end) n).

(** Literals first, then wildcards, then the catch-all. *)
Fixpoint matchPath (path : list string) (n : node) (matches : list string) : option (A * list string) :=
  match path with
  | [] => (λ a, (a, matches)) <$> leaf n
  | seg :: rest =>
    match matchPath rest (literal_child seg n) matches with
    | Some found => Some found
    | None =>
      match (if seg =s "/" then None else matchPath rest (wild_child n) (matches ++ [seg])) with
      | Some found => Some found
      | None => (λ a, (a, matches)) <$> rest_child n
      end
    end
  end.
End Tree.

(** *** Serving *)

Section Serve.
Context {W : Type} `{Exchange W}.
(** The page of a redirection. *)
Context (redirect_page : string → string).

Definition Route : Type := Pattern * Handler (Served W).
Definition for_method (m : option string) (routes : list Route) : list (list segment * Route) :=
  omap (λ r, if bool_decide (pattern_method r.1 = m) then Some (segments r.1, r) else None) routes.

(** The method's own patterns, those of GET for HEAD, and those for any method. *)
Definition matchRoute (routes : list Route) (method : string) (path : list string) : option (Route * list string) :=
  match matchPath path (for_method (Some method) routes) [] with
  | Some found => Some found
  | None =>
    match (if method =s "HEAD" then matchPath path (for_method (Some "GET") routes) [] else None) with
    | Some found => Some found
    | None => matchPath path (for_method None routes) []
    end
  end.

(** The methods for which some pattern matches the path, in their order. *)
Definition matchingMethods (routes : list Route) (path : list string) : list string :=
  let methods := omap (λ r, pattern_method r.1) routes in
  let found := List.filter (λ m, bool_decide (is_Some (matchRoute routes m path)))
                 (remove_dups ((if "GET" ∈? methods then ["HEAD"] else []) ++ methods)) in
  sort.SliceStable (λ a b, String.ltb a b) found.

(** [strings.Join(methods, ", ")]. *)
Definition joined (l : list string) : string :=
  match l with [] => "" | x :: l => foldl (λ acc y, acc +:+ ", " +:+ y) x l end.

Definition wild_names (p : Pattern) : list string :=
  omap (λ s, match s with Wild name => Some name | _ => None end) (segments p).
Definition with_values (values : list (string * string)) (r : Request) : Request :=
  mkRequest (Method r) (Path r) (EscapedPath r) (Header r) (Body r) (ContentLength r) values (Query r) (limit r).

(** [http.Redirect] with status 307. *)
Definition redirect (r : Request) (location : string) : M (Served W) unit :=
  _ ← modify (set_header "Location" location);
  _ ← (if (Method r =s "GET") || (Method r =s "HEAD")
       then modify (set_header "Content-Type" "text/html; charset=utf-8") else mret ());
  _ ← modify (WriteHeader 307);
  if Method r =s "GET" then write (redirect_page location) else mret ().

(** The path by which a request is routed: a CONNECT request's is taken as it is. *)
Definition routed_path (r : Request) : string :=
  if Method r =s "CONNECT" then EscapedPath r else cleanPath (EscapedPath r).

(** [findHandler] and [ServeHTTP]. The pattern is written into the request object. The
    location of a redirection is the clean path; the raw query that the library appends to
    it is not kept in a [Request]. *)
Definition ServeHTTP (routes : list Route) : Handler (Served W) := λ ctx r s,
  let clean := routed_path r in
  let segs := path_segments clean in
  let found := matchRoute routes (Method r) segs in
  let named := match found with Some (route, _) => text route.1 | None => "" end in
  if negb (clean =s EscapedPath r) then redirect r clean (set_pattern named s)
  else match found with
       | Some (route, matches) =>
         route.2 ctx (with_values (zip (wild_names route.1) matches) r) (set_pattern named s)
       | None =>
         let allowed := matchingMethods routes segs in
         if (Z.of_nat (length allowed) =? 0)
         then Error "404 page not found" 404 (set_pattern "" s)
         else (_ ← modify (set_header "Allow" (joined allowed)); Error "Method Not Allowed" 405)
                (set_pattern "" s)
       end.

(** ** What the router finds *)

Lemma matchPath_elem {A} (path : list string) (n : list (list segment * A)) (acc : list string) (a : A) (ms : list string) :
  matchPath path n acc = Some (a, ms) → ∃ segs, (segs, a) ∈ n.
Proof.
  clear. revert n acc. induction path as [|seg path IH]; intros n acc; cbn [matchPath].
  - unfold leaf. destruct (head _) as [x|] eqn:Hh; [|done]. intros [= <- <-].
    apply head_Some_elem_of, list_elem_of_omap in Hh as ([segs y] & Hin & Hs). exists segs.
    destruct segs; [|done]. by injection Hs as ->.
  - destruct (matchPath path (literal_child seg n) acc) as [[a' ms']|] eqn:Hl.
    { intros [= -> ->]. apply IH in Hl as (segs & Hin). apply list_elem_of_omap in Hin as ([sg y] & Hin & Hs).
      exists sg. destruct sg as [|[] ?]; try done. simpl in Hs. destruct (_ =s _); [|done]. by injection Hs as _ ->. }
    destruct (if seg =s "/" then None else _) as [[a' ms']|] eqn:Hw.
    { intros [= -> ->]. destruct (seg =s "/"); [done|]. apply IH in Hw as (segs & Hin).
      apply list_elem_of_omap in Hin as ([sg y] & Hin & Hs). exists sg. destruct sg as [|[] ?]; try done.
      by injection Hs as _ ->. }
    unfold rest_child. destruct (head _) as [x|] eqn:Hh; [|done]. intros [= <- <-].
    apply head_Some_elem_of, list_elem_of_omap in Hh as ([segs y] & Hin & Hs). exists segs.
    destruct segs as [|[] []]; try done. by injection Hs as ->.
Qed.

(** Only a registered route is served. *)
Lemma matchRoute_elem (routes : list Route) (m : string) (path : list string) (route : Route) (ms : list string) :
  matchRoute routes m path = Some (route, ms) → route ∈ routes.
Proof.
  clear redirect_page.
  assert (∀ p, matchPath path (for_method p routes) [] = Some (route, ms) → route ∈ routes) as Hp.
  { intros p (segs & Hin)%matchPath_elem. apply list_elem_of_omap in Hin as (x & Hin & Hs).
    destruct (bool_decide _); [|done]. by injection Hs as _ ->. }
  unfold matchRoute. destruct (matchPath path (for_method (Some m) routes) []) as [[]|] eqn:H1.
  { intros [= -> ->]. by eapply Hp. }
  destruct (if m =s "HEAD" then _ else None) as [[]|] eqn:H2; [|apply Hp].
  intros [= -> ->]. destruct (m =s "HEAD"); [by eapply Hp|done].
Qed.
End Serve.
End mux.
