(* ===== verification/Observability.v ===== *)
(** * Observability: logs, metrics and traces

    Models [internal/observability/]: the logger's level and attributes ([logging.go]),
    the collectors, their registration and the HTTP middleware that feeds three of them
    ([metrics.go]), and the set-up of tracing ([tracing.go]). [Process] is the state
    all requests of a process share. *)

From Stdlib Require Import Ascii.
From S2P Require Import Prelude Golib Auth Http Mux.

Module observability.
Import http served.

(** ** Logs *)

(** [slog.Level]. *)
Definition LevelDebug : Z := -4.
Definition LevelInfo : Z := 0.
Definition LevelWarn : Z := 4.
Definition LevelError : Z := 8.

Inductive attribute : Type := AString (s : string) | AInt (n : Z).
Definition Line : Type := list (string * attribute).

Definition slogLevel (ToUpper : string → string) (level : string) : Z :=
  let l := ToUpper level in
  if l =s "DEBUG" then LevelDebug
  else if (l =s "WARN") || (l =s "WARNING") then LevelWarn
  else if l =s "ERROR" then LevelError
  else LevelInfo.

(** [ReplaceAttr]. *)
Definition replace_key (key : string) : string :=
  if key =s "time" then "timestamp" else if key =s "level" then "severity"
  else if key =s "msg" then "message" else key.

Record Logger : Type := mkLogger { level : Z; constant : Line }.
Definition NewLogger (ToUpper : string → string) (service version environment level : string) : Logger :=
  mkLogger (slogLevel ToUpper level)
    [("service", AString service); ("version", AString version); ("environment", AString environment)].

(** The JSON line of a record at [lvl], if the level is enabled. *)
Definition emit (l : Logger) (lvl : Z) (time_ name message : string) (attrs : Line) : option Line :=
  if lvl <? level l then None
  else Some ((λ kv, (replace_key kv.1, kv.2)) <$>
         ([("time", AString time_); ("level", AString name); ("msg", AString message)] ++ constant l ++ attrs)).

(** ** Collectors *)

Inductive kind : Type := CounterVec | HistogramVec | Gauge | GaugeVec | Counter.
Record Collector : Type := mkCollector {
  field : string;
  name : string;
  help : string;
  collector_kind : kind;
  labels : list string
}.

Definition collectors : list Collector :=
  [mkCollector "HTTPRequests" "aegis_http_requests_total" "HTTP requests by method, route, and status."
     CounterVec ["method"; "route"; "status"];
   mkCollector "HTTPDuration" "aegis_http_request_duration_seconds" "HTTP request duration."
     HistogramVec ["method"; "route"];
   mkCollector "ActiveRequests" "aegis_active_requests" "Requests currently executing." Gauge [];
   mkCollector "StreamingConnections" "aegis_streaming_connections" "Active streaming connections." Gauge [];
   mkCollector "ProviderRequests" "aegis_provider_requests_total" "Provider attempts by bounded outcome."
     CounterVec ["provider"; "outcome"];
   mkCollector "ProviderLatency" "aegis_provider_latency_seconds" "Provider attempt latency."
     HistogramVec ["provider"];
   mkCollector "ProviderErrors" "aegis_provider_errors_total" "Provider errors by category."
     CounterVec ["provider"; "category"];
   mkCollector "CircuitState" "aegis_provider_circuit_state" "Circuit state: closed=0, half-open=1, open=2."
     GaugeVec ["provider"];
   mkCollector "Retries" "aegis_retries_total" "Retry attempts by operation." CounterVec ["operation"];
   mkCollector "RateLimitRejections" "aegis_rate_limit_rejections_total" "Distributed rate-limit rejections."
     CounterVec ["reason"];
   mkCollector "BudgetRejections" "aegis_budget_rejections_total" "Budget admission rejections." Counter [];
   mkCollector "KafkaPublishFailures" "aegis_kafka_publish_failures_total" "Kafka publication failures." Counter [];
   mkCollector "KafkaConsumerLag" "aegis_kafka_consumer_lag" "Kafka consumer lag where reported."
     GaugeVec ["topic"; "partition"];
   mkCollector "RabbitJobs" "aegis_rabbitmq_jobs_total" "RabbitMQ jobs by outcome." CounterVec ["outcome"];
   mkCollector "EvaluationDuration" "aegis_evaluation_duration_seconds" "Evaluation execution duration."
     HistogramVec ["evaluator"];
   mkCollector "DeadLetters" "aegis_dead_letters_total" "Jobs routed to dead letter." Counter [];
   mkCollector "OutboxBacklog" "aegis_outbox_backlog" "Unpublished outbox rows." Gauge [];
   mkCollector "DatabaseErrors" "aegis_database_errors_total" "Database errors by operation."
     CounterVec ["operation"]].

(** A registry: the names it holds with the constant label. *)
Definition Registry : Type := list (string * string).
(** [MustRegister] panics on a name the registry has already. *)
Fixpoint MustRegister (service : string) (cs : list Collector) (reg : Registry) : res Registry :=
  match cs with
  | [] => Ok reg
  | c :: cs =>
    if existsb (λ r, r.1 =s name c) reg then Panic "duplicate metrics collector registration attempted"
    else MustRegister service cs (reg ++ [(name c, service)])
  end.

(** The collectors the program ever changes: by method, route and status; by method and
    route (the observations); the gauge. *)
Record Metrics : Type := mkMetrics {
  HTTPRequests : gmap (string * string * string) Z;
  HTTPDuration : gmap (string * string) (list time.Duration);
  ActiveRequests : Z
}.
Definition NewMetrics (service : string) (reg : Registry) : res (Metrics * Registry) :=
  match MustRegister service collectors reg with
  | Ok reg => Ok (mkMetrics ∅ ∅ 0, reg)
  | Err e => Err e
  | Panic w => Panic w
  end.

Definition Inc (labels_ : string * string * string) (m : Metrics) : Metrics :=
  mkMetrics (<[labels_ := default 0 (HTTPRequests m !! labels_) + 1]> (HTTPRequests m)) (HTTPDuration m)
    (ActiveRequests m).
Definition Observe (labels_ : string * string) (d : time.Duration) (m : Metrics) : Metrics :=
  mkMetrics (HTTPRequests m) (<[labels_ := default [] (HTTPDuration m !! labels_) ++ [d]]> (HTTPDuration m))
    (ActiveRequests m).
Definition Active (n : Z) (m : Metrics) : Metrics :=
  mkMetrics (HTTPRequests m) (HTTPDuration m) (ActiveRequests m + n).

(** ** The state of a process *)

Record Process (W : Type) : Type := mkProcess { service : W; metrics : Metrics; lines : list Line }.
Arguments mkProcess {W}.
Arguments service {W}.
Arguments metrics {W}.
Arguments lines {W}.

#[global] Instance process_exchange {W} `{Exchange W} : Exchange (Process W).
Proof.
  refine {| writer := λ p, writer (service p);
            set_writer := λ x p, mkProcess (set_writer x (service p)) (metrics p) (lines p) |}.
  intros x p. apply writer_set.
Defined.

(** ** The HTTP middleware *)

Section Middleware.
Context {W : Type} `{Exchange W}.
#[local] Abbreviation S := (Served (Process W)).

Definition on_metrics (f : Metrics → Metrics) (s : S) : S :=
  set_base (mkProcess (service (base s)) (f (metrics (base s))) (lines (base s))) s.

(** A handler of the service in the process. *)
Definition inside (h : Handler W) : Handler S := λ ctx r s,
  let p := base s in
  let '(out, w) := h ctx r (service p) in
  (out, set_base (mkProcess w (metrics p) (lines p)) s).

(** A handler under a recorder: [statusRecorder] around the writer. The recorder starts
    at 200, sees the calls of [WriteHeader] and passes them on. *)
Definition recorded (next : Handler S) (ctx : Context) (r : Request) (s : S) : res unit * S * Z :=
  let outer := called (writer s) in
  let '(out, s') := next ctx r (set_writer (set_called None (writer s)) s) in
  let inner := called (writer s') in
  (out, match inner with
        | Some _ => s'
        | None => set_writer (set_called outer (writer s')) s'
        end, default 200 inner).

(** [strconv.Itoa] of a status. *)
Context (Itoa : Z → string).

(** [started] and [finished] are the two readings of the clock. The gauge goes down
    again when the handler panics, too; the counters do not see that request. *)
Definition HTTPMiddleware (started finished : time.Time) (next : Handler S) : Handler S := λ ctx r s,
  let '(out, s, status) := recorded next ctx r (on_metrics (Active 1) s) in
  let s := match out with
           | Panic _ => s
           | _ =>
             let route := if pattern s =s "" then "unmatched" else pattern s in
             on_metrics (λ m, Observe (Method r, route) (time.Sub finished started)
                                (Inc (Method r, route, Itoa status) m)) s
           end in
  (out, on_metrics (Active (-1)) s).
End Middleware.

(** ** Traces *)

(** A tracer provider: the service it names, the share of root traces it samples (per
    thousand; children follow their parent) and the endpoint it exports to. *)
Record TracerProvider : Type := mkTracerProvider {
  tracer_service : string;
  root_samples : Z;
  exporter : option string
}.

(** The exporter's construction may fail. *)
Definition SetupTracing (new_exporter : string → option error) (service endpoint : string) : res TracerProvider :=
  if negb (endpoint =s "") then
    match new_exporter endpoint with
    | Some e => Err (Wrap "create OTLP trace exporter" e)
    | None => Ok (mkTracerProvider service 100 (Some endpoint))
    end
  else Ok (mkTracerProvider service 100 None).

(** ** Properties *)

(** The names are distinct, so a process starts with all eighteen collectors and never
    panics over them; a second registration does. *)
Lemma NewMetrics_fresh (service : string) :
  NewMetrics service [] = Ok (mkMetrics ∅ ∅ 0, (λ c, (name c, service)) <$> collectors) ∧
  length collectors = 18%nat ∧
  ∀ reg, NewMetrics service ((λ c, (name c, service)) <$> collectors ++ reg) =
         Panic "duplicate metrics collector registration attempted".
Proof. split_and!; reflexivity. Qed.

(** A line carries its service, version and environment; what is below the level is not
    written. *)
Lemma emit_spec (ToUpper : string → string) (service version environment lvl : string) (n : Z)
  (t nm msg : string) (attrs : Line) :
  let l := NewLogger ToUpper service version environment lvl in
  match emit l n t nm msg attrs with
  | Some line =>
    level l <= n ∧
    take 6 line = [("timestamp", AString t); ("severity", AString nm); ("message", AString msg);
                   ("service", AString service); ("version", AString version); ("environment", AString environment)]
  | None => n < level l
  end.
Proof. intros l. unfold emit. destruct (n <? level l) eqn:Hn; reflect; [done|]. by split. Qed.

Section Counting.
Context {W : Type} `{Exchange W} (Itoa : Z → string).
#[local] Abbreviation S := (Served (Process W)).

Definition keeps_metrics (h : Handler S) : Prop :=
  ∀ ctx r s, metrics (base (h ctx r s).2) = metrics (base s).
Definition keeps_pattern (h : Handler S) : Prop := ∀ ctx r s, pattern (h ctx r s).2 = pattern s.

Lemma copied_keeps_pattern (h : Handler S) : keeps_pattern (copied h).
Proof. intros ctx r s. unfold copied. by destruct (h ctx r s). Qed.
Lemma copied_keeps_metrics (h : Handler S) : keeps_metrics h → keeps_metrics (copied h).
Proof. intros Hh ctx r s. unfold copied. specialize (Hh ctx r s). by destruct (h ctx r s). Qed.

(** A handler of the service knows neither. *)
Lemma inside_keeps (h : Handler W) : keeps_metrics (inside h) ∧ keeps_pattern (inside h).
Proof. split; intros ctx r s; unfold inside; by destruct (h ctx r _). Qed.

(** The pattern the router writes. *)
Definition matched (routes : list (mux.Route (W:=Process W))) (r : Request) : string :=
  match mux.matchRoute routes (Method r) (mux.path_segments (mux.routed_path r)) with
  | Some (route, _) => mux.text route.1
  | None => ""
  end.

(** The router's own answers touch neither the metrics nor the field. *)
Lemma redirect_keeps (page : string → string) (r : Request) (location : string) (s : S) :
  metrics (base (mux.redirect page r location s).2) = metrics (base s) ∧
  pattern (mux.redirect page r location s).2 = pattern s.
Proof. unfold mux.redirect. destruct (Method r =s "GET"), (Method r =s "HEAD"); by split. Qed.

Lemma mux_keeps (page : string → string) (routes : list mux.Route) (ctx : Context) (r : Request) (s : S) :
  Forall (λ route, keeps_metrics route.2 ∧ keeps_pattern route.2) routes →
  metrics (base (mux.ServeHTTP page routes ctx r s).2) = metrics (base s) ∧
  pattern (mux.ServeHTTP page routes ctx r s).2 = matched routes r.
Proof.
  intros Hall. unfold mux.ServeHTTP, matched.
  set (found := mux.matchRoute routes (Method r) _). destruct (negb _).
  { destruct (redirect_keeps page r (mux.routed_path r)
      (set_pattern match found with Some (route, _) => mux.text route.1 | None => "" end s)) as [-> ->].
    by destruct found as [[]|]. }
  destruct found as [[route ms]|] eqn:Hf.
  - apply mux.matchRoute_elem in Hf. rewrite Forall_forall in Hall. destruct (Hall route Hf) as [Hm Hp].
    rewrite Hm, Hp. by split.
  - destruct (_ =? 0); by split.
Qed.

(** What a request adds to the metrics: its label is the field of the request object
    once the inner handlers are done with it. A request that panics is not counted. *)
Definition counted (r : Request) (route : string) (before after : Metrics) : Prop :=
  ∃ status d, after = Observe (Method r, route) d (Inc (Method r, route, status) before).

Lemma recorded_spec (next : Handler S) (ctx : Context) (r : Request) (s : S) :
  let '(out, s', status) := recorded next ctx r s in
  let inner := next ctx r (set_writer (set_called None (writer s)) s) in
  out = inner.1 ∧ metrics (base s') = metrics (base inner.2) ∧ pattern s' = pattern inner.2.
Proof.
  unfold recorded. destruct (next ctx r _) as [out s']. by destruct (called (writer s')).
Qed.

Lemma HTTPMiddleware_counts (started finished : time.Time) (next : Handler S) (ctx : Context) (r : Request) (s : S) :
  keeps_metrics next →
  let '(out, s') := HTTPMiddleware Itoa started finished next ctx r s in
  match out with
  | Panic _ => metrics (base s') = metrics (base s)
  | _ => counted r (if pattern s' =s "" then "unmatched" else pattern s') (metrics (base s)) (metrics (base s'))
  end ∧
  ∃ s1, metrics (base s1) = Active 1 (metrics (base s)) ∧ pattern s1 = pattern s ∧ pattern s' = pattern (next ctx r s1).2.
Proof.
  intros Hk. unfold HTTPMiddleware.
  pose proof (recorded_spec next ctx r (on_metrics (Active 1) s)) as Hr.
  destruct (recorded next ctx r (on_metrics (Active 1) s)) as [[out s1] status]. cbn zeta in Hr.
  destruct Hr as (-> & Hm & Hp). rewrite Hk in Hm. cbn in Hm. split.
  - assert (∀ m : Metrics, Active (-1) (Active 1 m) = m) as Hback.
    { intros [a b c]. unfold Active. cbn. f_equal. lia. }
    destruct (next ctx r _).1.
    + eexists _, _. cbn. rewrite Hm. unfold Active, Observe, Inc. cbn. f_equal. lia.
    + eexists _, _. cbn. rewrite Hm. unfold Active, Observe, Inc. cbn. f_equal. lia.
    + cbn. by rewrite Hm.
  - eexists. split_and!; [| |rewrite <- Hp; by destruct (next ctx r _).1]; done.
Qed.

(** With the router right behind the middleware the label is the route's template. *)
Lemma template_counted (page : string → string) (started finished : time.Time) (routes : list mux.Route)
  (ctx : Context) (r : Request) (s : S) :
  Forall (λ route, keeps_metrics route.2 ∧ keeps_pattern route.2) routes →
  let '(out, s') := HTTPMiddleware Itoa started finished (mux.ServeHTTP page routes) ctx r s in
  match out with
  | Panic _ => metrics (base s') = metrics (base s)
  | _ => counted r (if matched routes r =s "" then "unmatched" else matched routes r)
           (metrics (base s)) (metrics (base s'))
  end.
Proof.
  intros Hall.
  pose proof (HTTPMiddleware_counts started finished (mux.ServeHTTP page routes) ctx r s
    (λ ctx r s, proj1 (mux_keeps page routes ctx r s Hall))) as Hc.
  destruct (HTTPMiddleware _ _ _ _ _ _ _) as [out s']. destruct Hc as [Hc (s1 & _ & _ & Hp)].
  destruct (mux_keeps page routes ctx r s1 Hall) as [_ Hm]. by rewrite Hp, Hm in Hc.
Qed.

(** Behind a handler that serves a copy it is what the field was before. *)
Lemma copy_counted (started finished : time.Time) (next : Handler S) (ctx : Context) (r : Request) (s : S) :
  keeps_metrics next →
  let '(out, s') := HTTPMiddleware Itoa started finished (copied next) ctx r s in
  pattern s' = pattern s ∧
  match out with
  | Panic _ => metrics (base s') = metrics (base s)
  | _ => counted r (if pattern s =s "" then "unmatched" else pattern s) (metrics (base s)) (metrics (base s'))
  end.
Proof.
  intros Hk. pose proof (HTTPMiddleware_counts started finished (copied next) ctx r s (copied_keeps_metrics next Hk)) as Hc.
  destruct (HTTPMiddleware _ _ _ _ _ _ _) as [out s']. destruct Hc as [Hc (s1 & _ & Hs1 & Hp)].
  rewrite copied_keeps_pattern, Hs1 in Hp. by rewrite Hp in Hc.
Qed.
End Counting.
End observability.
