(* ===== verification/EvaluationApi.v ===== *)
(** * EvaluationApi: the HTTP handlers of the evaluation service

    Models [internal/api/evaluation.go]: authentication, submission, lookup, listing and
    retry of evaluation jobs over the service of [Jobs.v]. A handler is a program on the
    shared database and broker whose result is what it writes to the response. *)

From Stdlib Require Import Ascii.
From S2P Require Import Prelude Golib Request Auth Store Postgres Evaluators EvalStore Amqp Jobs EvalProofs Regexp Http Strconv.

Module evaluation_api.
Import http respond prog.

(** Where the keys come from. *)
Class Keys (D : Type) : Type := { FindAPIKeyByPrefix : IO → string → M D auth.StoredKey }.
#[global] Instance evalstore_keys `{postgres.Outside} : Keys evalstore.DB := {|
  FindAPIKeyByPrefix io prefix := evalstore.on_base (postgres.find_api_key io prefix)
|}.

(** JSON: the decoder of a submission (unknown fields refused) on a text with the read
    error after it, and the encoders. *)
Class Codec : Type := {
  codec_problem :: problem.Encoder;
  decode_submit : string → option error → res evaluationjob.SubmitInput;
  encode_job : evalstore.EvaluationJob → string;
  encode_jobs : list evalstore.EvaluationJob → Z → Z → string
}.

(** The writes of a response. *)
Definition Answer : Type := M Writer unit.

Section Handlers.
Context {D B : Type} `{Keys D} `{evaluationjob.Store D} `{amqp.Broker B} `{rabbitmq.Wire}
  `{evaluationjob.Hashing} `{Codec}.
(** The digest of keys, lower case outside ASCII, the service's broker channel. *)
Context (hmac_sha256 : string → string → string) (lower_rune : Z → Z) (publisher : N).
#[local] Abbreviation W := (rabbitmq.World D B).

Definition handler : Type := Context → Request → prog W Answer.

(** The service is the programs of [evaluationjob], the keys are those of the database. *)
Record Evaluation : Type := mkEvaluation { pepper : string }.

(** *** Authentication *)

(** The key in the X-API-Key header, else the bearer token. *)
Definition presented_key (r : Request) : res string :=
  let plain := strings.TrimSpace (HeaderGet r "X-API-Key") in
  let authorization := HeaderGet r "Authorization" in
  if (plain =s "") && strings.HasPrefix (gotext.ToLower lower_rune authorization) "bearer " then
    if strings.len authorization <? 7 then Panic "slice bounds out of range"
    else Ok (strings.TrimSpace (strings.of_chars (drop 7 (strings.chars authorization))))
  else Ok plain.

(** [auth.Verify] with the database as the lookup, which only reads. *)
Definition verify (api : Evaluation) (plain : string) (io : IO) : M W auth.Principal := λ w,
  (auth.Verify hmac_sha256 (λ prefix, (FindAPIKeyByPrefix io prefix (rabbitmq.db w)).1)
     (pepper api) plain (io_now io), w).

Definition authenticate (api : Evaluation) (scope : string) (next : handler) : handler := λ ctx r,
  match presented_key r with
  | Panic why => mret (lift (Panic why))
  | Err e => mret (lift (Err e))
  | Ok plain =>
    verified ← call (verify api plain);
    match verified with
    | Panic why => mret (lift (Panic why))
    | Err _ => mret (writeProblem ctx r 401 "authentication_failed" "Valid API-key authentication is required")
    | Ok p =>
      match auth.RequireScope p scope with
      | Ok _ => next (WithPrincipal ctx p) r
      | Err _ => mret (writeProblem ctx r 403 "scope_denied" "The API key is not authorised for this operation")
      | Panic why => mret (lift (Panic why))
      end
    end
  end.

(** *** Errors *)

Definition api_error (ctx : Context) (r : Request) (err : error) : Answer :=
  if errors.Is err persistence.ErrNotFound then
    writeProblem ctx r 404 "not_found" "The evaluation or source request was not found"
  else if errors.Is err persistence.ErrConflict then
    writeProblem ctx r 409 "idempotency_conflict" "The idempotency key was used with different evaluation input"
  else if errors.Is err evaluationjob.ErrNotRetryable then
    writeProblem ctx r 409 "evaluation_not_retryable" "The evaluation is not in a retryable state"
  else writeProblem ctx r 503 "evaluation_unavailable" "The evaluation request could not be processed".

(** *** The endpoints *)

Definition submit : handler := λ ctx r,
  let key := strings.TrimSpace (HeaderGet r "Idempotency-Key") in
  if (strings.len key <? 8) || (128 <? strings.len key) then
    mret (writeProblem ctx r 400 "invalid_idempotency_key" "Idempotency-Key must contain between 8 and 128 characters")
  else
    let '(text, err) := read_body r in
    match decode_submit text err with
    | Panic why => mret (lift (Panic why))
    | Err _ => mret (writeProblem ctx r 400 "invalid_request" "The evaluation request is invalid")
    | Ok input =>
      submitted ← evaluationjob.Submit publisher (auth.TenantID (FromContext ctx)) key (correlationID ctx) input;
      mret match submitted with
           | Panic why => lift (Panic why)
           | Err e => api_error ctx r e
           | Ok (job, created) =>
             _ ← (if negb created then modify (set_header "Idempotency-Replayed" "true") else mret ());
             writeJSON 202 (encode_job job)
           end
    end.

Definition get : handler := λ ctx r,
  found ← evaluationjob.Get (auth.TenantID (FromContext ctx)) (PathValue r "evaluation_id");
  mret match found with
       | Panic why => lift (Panic why)
       | Err e => api_error ctx r e
       | Ok job => writeJSON 200 (encode_job job)
       end.

Definition list_ : handler := λ ctx r,
  let limit := (strconv.Atoi (QueryGet r "limit")).1 in
  let offset := (strconv.Atoi (QueryGet r "offset")).1 in
  found ← evaluationjob.List (auth.TenantID (FromContext ctx)) limit offset;
  mret match found with
       | Panic why => lift (Panic why)
       | Err e => api_error ctx r e
       | Ok jobs => writeJSON 200 (encode_jobs jobs limit offset)
       end.

Definition retry : handler := λ ctx r,
  done ← evaluationjob.Retry publisher (auth.TenantID (FromContext ctx)) (PathValue r "evaluation_id")
           (correlationID ctx);
  mret match done with
       | Panic why => lift (Panic why)
       | Err e => api_error ctx r e
       | Ok job => writeJSON 202 (encode_job job)
       end.

(** The routes: pattern, scope and handler. *)
Definition Register : list (string * string * handler) :=
  [("POST /v1/evaluations", "evaluations:write", submit);
   ("GET /v1/evaluations/{evaluation_id}", "evaluations:read", get);
   ("GET /v1/evaluations", "evaluations:read", list_);
   ("POST /v1/evaluations/{evaluation_id}/retry", "evaluations:write", retry)].
Definition serve (api : Evaluation) (route : string * string * handler) : handler :=
  authenticate api route.1.2 route.2.
End Handlers.
End evaluation_api.

(** ** Tenant isolation *)

Module isolation.
Import http respond prog postgres evalstore evaluation_api.

(** Every step of the program, in whatever state it finds the system, is within [keep],
    and the result satisfies [post]: the handlers of others may run in between. *)
Fixpoint confined {W A} (keep : W → W → Prop) (post : A → Prop) (p : prog W A) : Prop :=
  match p with
  | Ret a => post a
  | Step X m k => ∀ io w, keep w (m io w).2 ∧ confined keep post (k (m io w).1)
  end.

Lemma confined_bind {W A B} (keep : W → W → Prop) (post : A → Prop) (post' : B → Prop)
  (p : prog W A) (f : A → prog W B) :
  confined keep post p → (∀ a, post a → confined keep post' (f a)) → confined keep post' (p ≫= f).
Proof.
  intros Hp Hf. induction p as [a|X m k IH]; [by apply Hf|].
  intros io w. destruct (Hp io w) as [Hk Hc]. split; [done|]. by apply IH.
Qed.

(** A call whose result satisfies [post] whatever the state. *)
Lemma confined_call {W A} (keep : W → W → Prop) (post : res A → Prop) (f : IO → M W A) :
  (∀ io w, keep w (f io w).2 ∧ post (f io w).1) → confined keep post (call f).
Proof. intros Hf io w. apply Hf. Qed.

Section Isolation.
Context `{postgres.Outside} `{Codecs} {B : Type} `{amqp.Broker B} `{rabbitmq.Wire}
  `{evaluationjob.Hashing} `{Codec}.
Context (hmac_sha256 : string → string → string) (lower_rune : Z → Z) (publisher : N).
#[local] Abbreviation W := (rabbitmq.World DB B).

(** Only rows of the tenant's jobs differ: requests, events and results stay. *)
Definition own_rows (t : string) (d d' : DB) : Prop :=
  base d' = base d ∧ evaluation_results d' = evaluation_results d ∧
  ∀ id, evaluation_jobs d' !! id = evaluation_jobs d !! id ∨
    (∀ j, evaluation_jobs d !! id = Some j → j_tenant j = t) ∧
    (∀ j, evaluation_jobs d' !! id = Some j → j_tenant j = t).
Definition own (t : string) (w w' : W) : Prop := own_rows t (rabbitmq.db w) (rabbitmq.db w').

Definition job_ok (t : string) (r : res EvaluationJob) : Prop := ∀ job, r = Ok job → TenantID job = t.
Definition created_ok (t : string) (r : res (EvaluationJob * bool)) : Prop :=
  ∀ job created, r = Ok (job, created) → TenantID job = t.
Definition jobs_ok (t : string) (r : res (list EvaluationJob)) : Prop :=
  ∀ jobs, r = Ok jobs → Forall (λ job, TenantID job = t) jobs.

Lemma own_rows_same (t : string) (d : DB) : own_rows t d d.
Proof. split; [done|]. split; [done|]. by left. Qed.

Lemma own_rows_insert (t id : string) (j : JobRow) (d : DB) :
  j_tenant j = t → (∀ j', evaluation_jobs d !! id = Some j' → j_tenant j' = t) →
  own_rows t d (set_jobs (<[id := j]> (evaluation_jobs d)) d).
Proof.
  intros Hj Hd. split; [done|]. split; [done|]. intros i. simpl.
  destruct (decide (i = id)) as [->|]; [right|left; by rewrite lookup_insert_ne].
  split; [done|]. intros j'. rewrite lookup_insert_eq. by intros [= <-].
Qed.

Lemma autocommit_own {A} (t : string) (io : IO) (what : error → error) (f : M DB A) (d : DB) :
  own_rows t d (f d).2 → own_rows t d (autocommit io what f d).2.
Proof.
  intros Hf. unfold autocommit. destruct (io_fault io 0); [apply own_rows_same|].
  by destruct (io_fault io 1).
Qed.

(** *** The database *)

Lemma GetEvaluation_own (t id : string) (io : IO) (d : DB) :
  own_rows t d (GetEvaluation io t id d).2 ∧ job_ok t (GetEvaluation io t id d).1.
Proof.
  unfold GetEvaluation. split; [rewrite evalspec.get_statement_same; apply own_rows_same|].
  intros job. destruct (get_statement io 0 t id d) as [r d'] eqn:Hrun. simpl. intros ->.
  apply evalspec.get_statement_ok in Hrun as (j & result & _ & <- & ->). done.
Qed.

Lemma ListEvaluations_own (t : string) (limit offset : Z) (io : IO) (d : DB) :
  own_rows t d (ListEvaluations io t limit offset d).2 ∧
  jobs_ok t (ListEvaluations io t limit offset d).1.
Proof.
  unfold ListEvaluations, jobs_ok.
  destruct (io_fault io 0), (io_fault io 1), (io_fault io 2); try (by split; [apply own_rows_same|]).
  destruct (offset <? 0); (split; [apply own_rows_same|]); [done|]. intros jobs [= <-].
  apply Forall_fmap, Forall_take, Forall_drop. unfold compose. simpl.
  rewrite sort.SliceStable_Permutation. apply Forall_forall. intros [id j]. rewrite list_elem_of_filter. by intros [? _].
Qed.

Lemma MarkEvaluationQueued_own (t id : string) (io : IO) (d : DB) :
  own_rows t d (MarkEvaluationQueued io t id d).2.
Proof.
  apply autocommit_own. unfold update_job. destruct (evaluation_jobs d !! id) as [j|] eqn:Hj; [|apply own_rows_same].
  destruct (j_tenant j =s t) eqn:Ht; cbn [andb]; [|apply own_rows_same]. apply String.eqb_eq in Ht.
  destruct (bool_decide _); [|apply own_rows_same]. apply own_rows_insert; [done|]. congruence.
Qed.

Lemma CreateOrGetEvaluation_own (p : CreateEvaluationParams) (io : IO) (d : DB) :
  own_rows (ce_TenantID p) d (CreateOrGetEvaluation io p d).2 ∧
  created_ok (ce_TenantID p) (CreateOrGetEvaluation io p d).1.
Proof.
  destruct (CreateOrGetEvaluation io p d) as [r d'] eqn:Hrun. simpl.
  unfold CreateOrGetEvaluation, mbind, M_bind in Hrun.
  assert (own_rows (ce_TenantID p) d (autocommit io (Wrap "create evaluation job") (insert_job io p) d).2) as Hins.
  { apply autocommit_own. unfold insert_job. destruct (source_ok p d); [|apply own_rows_same].
    destruct (find_where _ _); [apply own_rows_same|].
    destruct (evaluation_jobs d !! uuid io 0) eqn:Hfree; [apply own_rows_same|].
    apply own_rows_insert; [done|]. congruence. }
  destruct (autocommit io _ _ d) as [[ins|e|w] d1]; simpl in Hins; [|by simplify_eq..].
  set (m := match ins with Some id => _ | None => _ end) in Hrun.
  assert ((m d1).2 = d1) as Hm.
  { unfold m. destruct ins; [done|]. unfold statement, existing_job. destruct (io_fault io 2); [done|].
    by destruct (find_where _ _) as [[? ?]|]. }
  destruct (m d1) as [[id|e|w] d2]; simpl in Hm; subst d2; [|by simplify_eq..].
  pose proof (evalspec.get_statement_same io 3 (ce_TenantID p) id d1) as Hg.
  destruct (get_statement io 3 (ce_TenantID p) id d1) as [[job|e|w] d3] eqn:Hget; simpl in Hg; subst d3; [|by simplify_eq..].
  apply evalspec.get_statement_ok in Hget as (j & result & _ & Ht & ->).
  destruct (_ && _); injection Hrun as <- <-; (split; [done|]); [done|]. by intros job created [= <- _].
Qed.

(** *** The service *)

Lemma on_db_own {A} (t : string) (post : res A → Prop) (f : IO → M DB A) :
  (∀ io d, own_rows t d (f io d).2 ∧ post (f io d).1) →
  confined (own t) post (call (λ io, rabbitmq.on_db (B:=B) (f io))).
Proof.
  intros Hf. apply confined_call. intros io w. unfold own, rabbitmq.on_db.
  destruct (Hf io (rabbitmq.db w)) as [Hk Hp]. by destruct (f io (rabbitmq.db w)).
Qed.

Lemma publish_own (t : string) (job : EvaluationJob) (tenant correlation : string) :
  confined (W:=W) (own t) (λ _, True)
    (call (λ io, evaluationjob.publish_command publisher io job tenant correlation)).
Proof.
  apply confined_call. intros io w. split; [|done].
  unfold own, evaluationjob.publish_command, rabbitmq.Publish.
  destruct (rabbitmq.encode_job _); [|apply own_rows_same..].
  destruct (io_fault io 0); [apply own_rows_same|].
  destruct (bool_decide _), (io_ctx io 0); try apply own_rows_same;
    destruct (_ ++ _) as [|[] ?]; apply own_rows_same.
Qed.

Lemma queued_own (t id : string) :
  confined (W:=W) (own t) (λ _, True)
    (call (λ io, rabbitmq.on_db (evaluationjob.MarkEvaluationQueued io t id))).
Proof. apply on_db_own. intros io d. split; [|done]. apply MarkEvaluationQueued_own. Qed.

Lemma Submit_own (t key correlation : string) (input : evaluationjob.SubmitInput) :
  confined (W:=W) (own t) (created_ok t) (evaluationjob.Submit publisher t key correlation input).
Proof.
  unfold evaluationjob.Submit. destruct (_ || _); [done|].
  destruct (evaluationjob.marshal_input input); [|done..].
  destruct (evaluationjob.marshal_parameters _); [|done..].
  eapply confined_bind; [apply on_db_own, CreateOrGetEvaluation_own|].
  intros [[job []]|e|w] Hjob; [| |done..]; [|by intros ? ? [= <- _]; eapply Hjob].
  eapply confined_bind; [apply publish_own|]. intros [u|e|w] _; [|done..].
  eapply confined_bind; [apply queued_own|]. intros [u'|e|w] _; [|done..].
  intros ? ? [= <- _]. by eapply (Hjob job true).
Qed.

Lemma Get_own (t id : string) : confined (W:=W) (own t) (job_ok t) (evaluationjob.Get t id).
Proof. apply on_db_own, GetEvaluation_own. Qed.

Lemma List_own (t : string) (limit offset : Z) :
  confined (W:=W) (own t) (jobs_ok t) (evaluationjob.List t limit offset).
Proof. apply on_db_own, ListEvaluations_own. Qed.

Lemma Retry_own (t id correlation : string) :
  confined (W:=W) (own t) (job_ok t) (evaluationjob.Retry publisher t id correlation).
Proof.
  unfold evaluationjob.Retry. eapply confined_bind; [apply on_db_own, GetEvaluation_own|].
  intros [job|e|w] Hjob; [|done..]. destruct (negb _); [done|].
  eapply confined_bind; [apply publish_own|]. intros [u|e|w] _; [|done..].
  eapply confined_bind; [apply queued_own|]. intros [u'|e|w] _; [|done..].
  intros ? [= <-]. by apply (Hjob job).
Qed.

(** *** The handlers *)

(** What may be answered to a tenant: problem documents, and its own jobs. *)
Inductive answer_for (t : string) : Answer → Prop :=
| answer_problem ctx r status code detail : answer_for t (writeProblem ctx r status code detail)
| answer_job status job : TenantID job = t → answer_for t (writeJSON status (encode_job job))
| answer_replay status job : TenantID job = t →
    answer_for t (_ ← modify (set_header "Idempotency-Replayed" "true"); writeJSON status (encode_job job))
| answer_jobs jobs limit offset : Forall (λ job, TenantID job = t) jobs →
    answer_for t (writeJSON 200 (encode_jobs jobs limit offset))
| answer_panic why : answer_for t (lift (Panic why)).
#[local] Hint Constructors answer_for : core.

Lemma api_error_answer (t : string) (ctx : Context) (r : Request) (e : error) :
  answer_for t (api_error ctx r e).
Proof. unfold api_error. repeat case_match; auto. Qed.
#[local] Hint Resolve api_error_answer : core.

Lemma writeJSON_answer (t : string) (ctx : Context) (r : Request) (status : Z) (found : res EvaluationJob) :
  job_ok t found →
  answer_for t match found with
               | Panic why => lift (Panic why)
               | Err e => api_error ctx r e
               | Ok job => writeJSON status (encode_job job)
               end.
Proof. intros Hf. destruct found as [job|e|w]; auto. Qed.

(** C13 (safety): evaluation requests are confined to their tenant. Whatever else
    happens to the system between any two of its calls, a handler that runs for a
    principal changes nothing in the database but rows of jobs of the principal's
    tenant (no request, no event, no result, no other job), and answers with a problem
    document or with jobs of that tenant. *)
Theorem evaluation_confined (route : string * string * handler (D:=DB) (B:=B)) (ctx : Context)
  (r : Request) (p : auth.Principal) :
  route ∈ Register publisher → principal ctx = Some p →
  confined (own (auth.TenantID p)) (answer_for (auth.TenantID p)) (route.2 ctx r).
Proof.
  intros Hroute Hp. assert (FromContext ctx = p) as Hf by (unfold FromContext; by rewrite Hp).
  unfold Register in Hroute. rewrite !elem_of_cons, elem_of_nil in Hroute.
  destruct Hroute as [->|[->|[->|[->|[]]]]]; cbn [snd]; unfold submit, get, list_, retry; rewrite Hf.
  - destruct (_ || _); [apply answer_problem|]. destruct (read_body r) as [text err].
    destruct (decode_submit text err) as [input|e|w]; [|apply answer_problem|apply answer_panic].
    eapply confined_bind; [apply Submit_own|]. intros [[job []]|e|w] Hjob; [| |apply api_error_answer|apply answer_panic].
    + change (answer_for (auth.TenantID p) (writeJSON 202 (encode_job job))). apply answer_job. by eapply Hjob.
    + apply answer_replay. by eapply Hjob.
  - eapply confined_bind; [apply Get_own|]. intros found Hfound. by apply writeJSON_answer.
  - eapply confined_bind; [apply List_own|]. intros [jobs|e|w] Hjobs;
      [by apply answer_jobs, Hjobs|apply api_error_answer|apply answer_panic].
  - eapply confined_bind; [apply Retry_own|]. intros found Hfound. by apply writeJSON_answer.
Qed.

(** A submission without its fields. [Submit] refuses an input without a
    request or a job type with an error of its own, which the API does not know: the
    client's mistake is answered with 503, as if the service were unavailable, and is
    retried for ever. *)
Theorem missing_fields_unavailable (ctx : Context) (r : Request) (tenant key correlation jobType : string)
  (parameters : option (list (string * json))) :
  ∃ e, evaluationjob.Submit (D:=DB) (B:=B) publisher tenant key correlation
         (evaluationjob.mkSubmitInput "" jobType parameters) = Ret (Err e) ∧
    api_error ctx r e =
      writeProblem ctx r 503 "evaluation_unavailable" "The evaluation request could not be processed".
Proof. eexists. split; [reflexivity|]. reflexivity. Qed.
End Isolation.
End isolation.
