(* ===== verification/EvalDemo.v ===== *)
(** * EvalDemo: concrete runs of the evaluation pipeline

    The service, the worker, the model broker and the database put together, driven
    step by step; the theorems of [JobsProofs] and [EvalProofs] applied to such runs,
    and runs that show where the pipeline falls short. *)

From Stdlib Require Import Ascii.
From S2P Require Import Prelude Golib Request Auth Store Outbox Postgres Evaluators EvalStore Amqp Jobs JobsProofs EvalProofs Http EvaluationApi.

Module jobs_demo.
Import evalstore amqp prog rabbitmq pool system.

(** ** Code outside the program *)

Definition response : request.ChatResponse :=
  request.mkChatResponse "chat-1" "chat.completion" 0 "gpt" []
    (request.mkUsage 10 20 30) (request.mkResponseMeta "req" request.Completed).

#[global] Instance outside : postgres.Outside := {|
  postgres.uuid := λ io n, "id-" +:+ hex.EncodeToString (take 2 (io_rand io) ++ [Z.of_nat n]);
  postgres.encode_metadata := λ _, Ok "{}";
  postgres.encode_payload := λ _, Ok "{}";
  postgres.encode_response := λ _, Ok "{...}";
  postgres.decode_response := λ _, Ok response
|}.

#[global] Instance codecs : Codecs := {|
  jsonb := λ s, s;
  decode_choices := λ s, Ok [s];
  decode_thresholds := λ _, mkThresholds "" ["password"] 0 0 0 0;
  encode_results := λ _, Ok "[...]"
|}.

(** A job on the wire: its fields between bars, the attempt as that many stars. *)
Fixpoint stars (n : nat) : string := match n with O => "" | S n => "*" +:+ stars n end.
Definition to_wire (j : Job) : string :=
  JobID j +:+ "|" +:+ TenantID j +:+ "|" +:+ ExecutionID j +:+ "|" +:+ JobType j +:+ "|" +:+
  CorrelationID j +:+ "|" +:+ stars (Z.to_nat (Attempt j)).
Definition of_wire (s : string) : res Job :=
  match strings.SplitN s "|"%char 6 with
  | [a; b; c; d; e; f] => Ok (mkJob a b c d e (strings.len f))
  | _ => Err (New "invalid character")
  end.
(** Encoding fails where it would not decode. *)
Definition checked (j : Job) : res string :=
  match of_wire (to_wire j) with
  | Ok j' => if (JobID j' =s JobID j) && (Attempt j' =? Attempt j) then Ok (to_wire j)
             else Err (New "unsupported value")
  | _ => Err (New "unsupported value")
  end.
#[global] Instance wire : Wire := {|
  encode_job := checked;
  decode_job := of_wire;
  inject := λ _, []
|}.
#[global] Instance wire_laws : WireLaws.
Proof.
  split. intros j s. simpl. unfold checked. destruct (of_wire (to_wire j)) as [j'|?|?] eqn:Hw; [|done..].
  destruct (_ && _) eqn:Hc; [|done]. intros [= <-]. exists j'.
  apply andb_true_iff in Hc as [?%String.eqb_eq ?%Z.eqb_eq]. by rewrite Hw.
Qed.
#[global] Instance hashing : evaluationjob.Hashing := {|
  evaluationjob.marshal_input := λ i, Ok (evaluationjob.in_RequestID i +:+ evaluationjob.in_JobType i);
  evaluationjob.marshal_parameters := λ _, Ok "{}";
  evaluationjob.sha256 := λ s, s
|}.

(** ** Driving the system *)

#[local] Abbreviation conf := (Config (D:=DB) (B:=broker_model.Broker)).

Inductive action : Type :=
| Run (i : nat) (io : IO)
| ASubmit (publisher : N) (tenant key correlation : string) (input : evaluationjob.SubmitInput)
| ARetry (publisher : N) (tenant id correlation : string)
| AProcess (worker : Worker) (tag : N)
| ACrash (i : nat)
| ADeliver (q : string)
| AExpire (q : string)
| ARequeue (tag : N).

Section Drive.
Context (limit : Z) (patient accepting : bool).

Definition may (io : IO) : bool :=
  (negb patient || bool_decide (io_ctx io 0 = None)) &&
  (negb accepting || bool_decide (io_fault io refusal = None)).

Definition perform (a : action) (c : conf) : option conf :=
  let w := world c in let ts := threads c in
  match a with
  | Run i io =>
    match ts !! i with
    | Some (Thread (Step X m k)) =>
      if may io then let r := m io w in Some (mkConfig r.2 (<[i := Thread (k r.1)]> ts)) else None
    | _ => None
    end
  | ASubmit publisher tenant key correlation input =>
    Some (mkConfig w (Thread (evaluationjob.Submit publisher tenant key correlation input) :: ts))
  | ARetry publisher tenant id correlation =>
    Some (mkConfig w (Thread (evaluationjob.Retry publisher tenant id correlation) :: ts))
  | AProcess worker tag =>
    match broker_model.pending (broker w) !! tag with
    | Some (q, m) =>
      if (q =s WorkQueue) && (maxAttempts worker <=? limit)
      then Some (mkConfig w (Thread (process worker (λ _, time.Millisecond) (mkDelivery tag m)) :: ts))
      else None
    | None => None
    end
  | ACrash i => Some (mkConfig w (delete i ts))
  | ADeliver q =>
    if bool_decide (q ∈ broker_model.consumers (broker w)) && negb (bool_decide (broker_model.waiting (broker w) q = []))
    then Some (mkConfig (set_broker (broker_model.deliver q (broker w)) w) ts) else None
  | AExpire q =>
    if negb (bool_decide (broker_model.waiting (broker w) q = [])) &&
       bool_decide (is_Some (args (broker_model.topo (broker w)) q ≫= ttl))
    then Some (mkConfig (set_broker (broker_model.expire q (broker w)) w) ts) else None
  | ARequeue tag =>
    if bool_decide (is_Some (broker_model.pending (broker w) !! tag))
    then Some (mkConfig (set_broker (broker_model.nack tag true (broker w)) w) ts) else None
  end.

Fixpoint drive (l : list action) (c : conf) : option conf :=
  match l with [] => Some c | a :: l => perform a c ≫= drive l end.

Lemma may_allowed (io : IO) : may io = true → allowed patient accepting io.
Proof.
  unfold may. intros [H1 H2]%andb_true_iff. split; intros Hx; rewrite Hx in *; simpl in *;
    by apply bool_decide_eq_true in H1 || by apply bool_decide_eq_true in H2.
Qed.

Lemma perform_step (a : action) (c c' : conf) :
  perform a c = Some c' → step limit patient accepting c c'.
Proof.
  destruct c as [w ts], a as [i io|pub t k co inp|pub t i co|wk tg|i|q|q|tg]; simpl.
  - destruct (ts !! i) as [[A [x|X m k]]|] eqn:Hi; [done| |done].
    destruct (may io) eqn:Hm; [|done]. intros [= <-].
    eapply step_thread; [done|by apply may_allowed|constructor].
  - intros [= <-]. constructor.
  - intros [= <-]. constructor.
  - destruct (broker_model.pending (broker w) !! tg) as [[q m]|] eqn:Hp; [|done].
    destruct (_ && _) eqn:Hc; [|done]. intros [= <-].
    apply andb_true_iff in Hc as [->%String.eqb_eq ?%Z.leb_le]. by constructor.
  - intros [= <-]. constructor.
  - destruct (_ && _) eqn:Hc; [|done]. intros [= <-].
    apply andb_true_iff in Hc as [?%bool_decide_eq_true ?%negb_true_iff%bool_decide_eq_false].
    constructor. left. eauto.
  - destruct (_ && _) eqn:Hc; [|done]. intros [= <-].
    apply andb_true_iff in Hc as [?%negb_true_iff%bool_decide_eq_false ?%bool_decide_eq_true].
    constructor. right. left. eauto.
  - case_bool_decide; [|done]. intros [= <-]. constructor. right. right. eauto.
Qed.

Lemma drive_steps (l : list action) (c c' : conf) :
  drive l c = Some c' → rtc (step limit patient accepting) c c'.
Proof.
  revert c. induction l as [|a l IH]; intros c; cbn [drive]; [by intros [= <-]|].
  destruct (perform a c) as [c1|] eqn:Ha; simpl; [|done]. intros Hd.
  eapply rtc_l; [by eapply perform_step|by apply IH].
Qed.
End Drive.

(** ** The start: one completed request, an empty broker with the topology declared *)

Definition at_ (n : Z) : IO := quiet (time.epoch + n * time.Second) [n; 7].
(** The exchange [k] fails; the context is done. *)
Definition flaky (n : Z) (k : nat) : IO :=
  mkIO (time.epoch + n * time.Second) [n; 7] (λ _, None)
    (λ j, if (j =? k)%nat then Some (New "connection reset") else None).
Definition done_ (n : Z) : IO :=
  mkIO (time.epoch + n * time.Second) [n; 7] (λ _, Some context.Canceled) (λ _, None).

Definition source : postgres.RequestRow :=
  postgres.mkRequestRow "t" "key-1" None "chat-key" "h" "m1" request.Completed false false "{}"
    (Some "The PASSWORD of bob@example.com is hunter2.") (Some 10) (Some 20) (Some 70) None "corr"
    time.epoch time.epoch (Some (time.epoch + time.Second)).
Definition start_db : DB :=
  mkDB (postgres.mkDB (postgres.mkCatalog ∅ ∅ ∅ ∅ ∅ ∅ ∅) {["req" := source]} ∅ ∅ ∅ ∅) ∅ ∅.
Definition start_broker : broker_model.Broker :=
  match (_ ← declare (at_ 0) 0; ConsumerChannel (at_ 0) 4)
          (broker_model.mkBroker empty_topology ∅ ∅ ∅ ∅) with (_, b) => b end.
Definition start : conf := mkConfig (mkWorld start_db start_broker ∅ []) [].

Lemma start_initial : initial start.
Proof.
  split_and!; [|done| |done..].
  - split; unfold start, start_db; cbn [rabbitmq.db world evaluation_jobs evaluation_results];
      intros *; by rewrite lookup_empty.
  - apply (bool_decide_unpack _). vm_compute. exact I.
Qed.

Definition worker : Worker := NewWorker 2 (evaluation.suite (λ r, r)) 0 0.
Definition input : evaluationjob.SubmitInput := evaluationjob.mkSubmitInput "req" "suite" None.
Definition jid : string := postgres.uuid (at_ 1) 0.

(** What a run shows: the status of the job and its result, the messages of the three
    queues and the deliveries out, and the events posted. *)
Definition jobs_status (c : conf) : option JobStatus :=
  j_status <$> evaluation_jobs (db (world c)) !! jid.
Definition result_of (c : conf) : option (Z * string) :=
  (λ r, (score_milli r, outcome r)) <$> evaluation_results (db (world c)) !! jid.
Definition depth (c : conf) : list nat :=
  (λ q, length (broker_model.waiting (broker (world c)) q)) <$> [WorkQueue; RetryQueue; DeadQueue].
Definition out (c : conf) : nat := size (broker_model.pending (broker (world c))).
Definition posted_events (c : conf) : list string :=
  (λ ie, postgres.event_type ie.2) <$> map_to_list (postgres.outbox_events (base (db (world c)))).
Definition view (c : conf) := (jobs_status c, result_of c, depth c, out c, posted_events c).

Definition submit : list action :=
  [ASubmit 1 "t" "eval-key" "corr" input; Run 0 (at_ 1); Run 0 (at_ 2); Run 0 (at_ 3)].
Definition evaluate : list action :=
  [ADeliver WorkQueue; AProcess worker 0; Run 0 (at_ 4); Run 0 (at_ 5); Run 0 (at_ 6)].

Definition reached (patient accepting : bool) (l : list action) : option conf :=
  drive 3 patient accepting l start.

Lemma reached_reachable (patient accepting : bool) (l : list action) (c : conf) :
  reached patient accepting l = Some c → reachable 3 patient accepting c.
Proof. intros Hd. exists start. split; [apply start_initial|by eapply drive_steps]. Qed.

(** ** The theorems at work *)

(** The command of a job that was evaluated and acknowledged. *)
Lemma no_command_lost_witness :
  ∃ c m job, reachable 3 true true c ∧ m ∈ accepted (world c) ∧ decode_job (Body m) = Ok job ∧
    JobID job = jid ∧ depth c = [0; 0; 0]%nat ∧ out c = 0%nat ∧
    (recorded (db (world c)) (JobID job) ∨
     ∃ m' job', held (broker (world c)) m' ∧ decode_job (Body m') = Ok job' ∧ JobID job' = JobID job).
Proof.
  destruct (reached true true (submit ++ evaluate ++ [Run 0 (at_ 7)])) as [c|] eqn:Hc;
    [|vm_compute in Hc; discriminate Hc].
  pose proof (reached_reachable _ _ _ _ Hc) as Hr.
  assert (∃ m job, m ∈ accepted (world c) ∧ decode_job (Body m) = Ok job ∧ JobID job = jid ∧
    depth c = [0; 0; 0]%nat ∧ out c = 0%nat) as (m & job & Hm & Hj & Hid & Hd & Ho).
  { vm_compute in Hc. injection Hc as <-. do 2 eexists. split; [left|]. vm_compute. repeat split. }
  exists c, m, job. split; [exact Hr|]. split; [exact Hm|]. split; [exact Hj|].
  split; [exact Hid|]. split; [exact Hd|]. split; [exact Ho|].
  apply (no_command_lost 3 true true ltac:(unfold int64_max; lia) c m job eq_refl Hr Hm Hj).
Defined.

Lemma attempts_bounded_witness :
  ∃ c m, reachable 3 false false c ∧ m ∈ accepted (world c) ∧
    ∃ job, decode_job (Body m) = Ok job ∧ 0 <= Attempt job < 3.
Proof.
  destruct (reached false false submit) as [c|] eqn:Hc; [|vm_compute in Hc; discriminate Hc].
  pose proof (reached_reachable _ _ _ _ Hc) as Hr.
  assert (∃ m, m ∈ accepted (world c)) as (m & Hm).
  { vm_compute in Hc. injection Hc as <-. eexists. left. }
  exists c, m. split; [exact Hr|]. split; [exact Hm|].
  apply (attempts_bounded 3 false false ltac:(unfold int64_max; lia) c m Hr (or_intror Hm)).
Defined.

(** The acknowledgement is lost, the command is delivered again, and this time the
    database does not answer: the worker publishes a retry and marks the job failed. *)
Definition redeliver : list action :=
  [Run 0 (flaky 7 0); ARequeue 0; ADeliver WorkQueue; AProcess worker 1; Run 0 (flaky 8 0);
   Run 0 (at_ 9); Run 0 (at_ 10); Run 0 (at_ 11)].

Lemma results_final_witness :
  ∃ c c', reached false false (submit ++ evaluate) = Some c ∧
    drive 3 false false redeliver c = Some c' ∧
    result_of c = Some (687, "fail") ∧ evalspec.good (db (world c')) ∧ result_of c' = result_of c.
Proof.
  destruct (reached false false (submit ++ evaluate)) as [c|] eqn:Hc; [|vm_compute in Hc; discriminate Hc].
  destruct (drive 3 false false redeliver c) as [c'|] eqn:Hc';
    [|vm_compute in Hc; injection Hc as <-; vm_compute in Hc'; discriminate Hc'].
  pose proof (reached_reachable _ _ _ _ Hc) as Hr. pose proof (drive_steps _ _ _ _ _ _ Hc') as Hs.
  destruct (evalspec.results_final 3 false false c c' ltac:(unfold int64_max; lia) Hr Hs)
    as (Hg & Hres & _).
  assert (result_of c = Some (687, "fail")) as Hone
    by (vm_compute in Hc; injection Hc as <-; vm_compute; reflexivity).
  exists c, c'. split; [reflexivity|]. split; [exact Hc'|]. split; [exact Hone|]. split; [exact Hg|].
  unfold result_of in *. apply fmap_Some in Hone as (r & Hr1 & _).
  rewrite Hr1. apply Hres in Hr1. rewrite Hr1. reflexivity.
Defined.

Definition params (hash : string) : CreateEvaluationParams :=
  mkCreateEvaluationParams "t" "req" "eval-key" hash "suite" "corr" "{}".

Lemma evaluation_idempotent_witness :
  ∃ job d1, evalstore.CreateOrGetEvaluation (at_ 1) (params "h") start_db = (Ok (job, true), d1) ∧
    evalstore.CreateOrGetEvaluation (at_ 2) (params "other") d1 = (Err persistence.ErrConflict, d1).
Proof.
  destruct (evalstore.CreateOrGetEvaluation (at_ 1) (params "h") start_db) as [r d1] eqn:Hc.
  assert (∃ job, r = Ok (job, true)) as [job ->]
    by (vm_compute in Hc; injection Hc as <- _; eexists; reflexivity).
  exists job, d1. split; [reflexivity|].
  assert (evalspec.good d1) as Hg.
  { pose proof (evalspec.CreateOrGetEvaluation_progress (at_ 1) (params "h") start_db
      (proj1 start_initial)) as [Hg _]. rewrite Hc in Hg. exact Hg. }
  destruct (evalspec.evaluation_idempotent (at_ 1) (at_ 2) (params "h") (params "other") start_db d1 d1
    job Hc (@PreOrder_Reflexive _ _ evalspec.grows_preorder d1) Hg eq_refl eq_refl) as (Hsame & _ & Hq).
  specialize (Hq (λ _, eq_refl)). destruct (evalstore.CreateOrGetEvaluation (at_ 2) _ d1) as [r2 d2].
  simpl in Hsame, Hq. rewrite Hsame, Hq. reflexivity.
Defined.

Lemma suite_summary_witness :
  let results := evaluate_all (evaluation.suite (λ r, r)) (λ _, time.Millisecond)
    (evaluation.mkInput "my password is hunter2, call +1 555 123 4567" "" 0 0 0 0 0 0 0 0 0 ["hunter"]) in
  let '(score, duration, verdict) := summary results in
  0 <= score <= 1000 ∧ 0 <= duration ∧
  (verdict = "fail" ↔ Exists (λ r, evaluation.Status r = "fail") results).
Proof.
  apply (evalspec.suite_summary (λ r, r) (λ _, time.Millisecond)
    (evaluation.mkInput "my password is hunter2, call +1 555 123 4567" "" 0 0 0 0 0 0 0 0 0 ["hunter"])).
  intros i. unfold time.Millisecond, time.Hour. lia.
Defined.

(** The state in which the command has just been delivered. *)
Definition delivered_world : World DB broker_model.Broker :=
  match reached true true (submit ++ [ADeliver WorkQueue]) with Some c => world c | None => world start end.
Definition the_delivery : Delivery :=
  match broker_model.pending (broker delivered_world) !! 0%N with
  | Some (_, m) => mkDelivery 0 m
  | None => mkDelivery 0 (mkPublishing "" "" 0 [] 0 "")
  end.
Definition the_job : Job :=
  match decode_job (Body (message the_delivery)) with Ok job => job | _ => mkJob "" "" "" "" "" 0 end.
Definition the_row : JobRow :=
  default (new_job (params "") 0) (evaluation_jobs (db delivered_world) !! jid).

Lemma process_completes_witness :
  let w' := (prog.run (process worker (λ _, time.Millisecond) the_delivery) (λ n, at_ (4 + Z.of_nat n))
               delivered_world).2 in
  (∃ j', evaluation_jobs (db w') !! JobID the_job = Some j' ∧ j_status j' = COMPLETED) ∧
  is_Some (evaluation_results (db w') !! JobID the_job).
Proof.
  assert (evalspec.evaluable (db delivered_world) the_job the_row source) as He.
  { split; try (vm_compute; reflexivity).
    - eexists. vm_compute. reflexivity.
    - do 2 eexists. vm_compute. reflexivity. }
  destruct (evalspec.process_completes delivered_world worker (λ r, r) (λ _, time.Millisecond) the_delivery
    the_job the_row source (λ n, at_ (4 + Z.of_nat n)) eq_refl) as (_ & (j' & Hj & Hs & _) & input & encoded & payload & _ & _ & Hr).
  - intros i. unfold time.Millisecond, time.Hour. lia.
  - intros n k. reflexivity.
  - vm_compute. reflexivity.
  - vm_compute. reflexivity.
  - exact He.
  - vm_compute. reflexivity.
  - vm_compute. reflexivity.
  - vm_compute. reflexivity.
  - vm_compute. reflexivity.
  - intros rs. reflexivity.
  - intros pl. reflexivity.
  - split; [exists j'; split; [exact Hj|exact Hs]|].
    destruct (summary _) as [[score duration] verdict]. eexists. exact (proj1 Hr).
Defined.

(** *** The HTTP API of the service *)

#[global] Instance api_codec : evaluation_api.Codec := {|
  evaluation_api.codec_problem := {| problem.encode_detail := problem.Code |};
  evaluation_api.decode_submit := λ _ _, Ok (evaluationjob.mkSubmitInput "req" "quality" None);
  evaluation_api.encode_job := λ j, evalstore.ID j;
  evaluation_api.encode_jobs := λ l _ _, String.concat "," (evalstore.ID <$> l)
|}.

Lemma evaluation_confined_witness :
  let ctx := http.mkContext "rid" "cid" (Some (auth.mkPrincipal "k" "t" "u" ∅)) in
  let r := http.mkRequest "POST" "/v1/evaluations" "/v1/evaluations" [("Idempotency-Key", "evaluate-1")] "{}" 2 [] [] None in
  isolation.confined (isolation.own (B:=broker_model.Broker) "t") (isolation.answer_for "t")
    (evaluation_api.submit 1 ctx r).
Proof.
  cbn zeta.
  apply (isolation.evaluation_confined 1 ("POST /v1/evaluations", "evaluations:write", evaluation_api.submit 1)
    _ _ (auth.mkPrincipal "k" "t" "u" ∅)); [by left|reflexivity].
Defined.

(** ** Where the pipeline falls short *)

(** A completed evaluation can be marked failed again. CompleteEvaluation and
    FailEvaluation do not look at the status they replace: after a lost
    acknowledgement, a redelivery that meets a failing database publishes a retry and
    sets the completed job, whose result is stored, to FAILED; when the retry is
    processed the job is completed a second time and a second completion event is
    posted. *)
Theorem completed_reopened :
  (view <$> reached true true (submit ++ evaluate)) =
    Some (Some COMPLETED, Some (687, "fail"), [0; 0; 0]%nat, 1%nat, ["evaluation.completed.v1"]) ∧
  (view <$> reached true true (submit ++ evaluate ++ redeliver)) =
    Some (Some JFAILED, Some (687, "fail"), [0; 1; 0]%nat, 0%nat, ["evaluation.completed.v1"]) ∧
  (view <$> reached true true (submit ++ evaluate ++ redeliver ++
     [AExpire RetryQueue; ADeliver WorkQueue; AProcess worker 2; Run 0 (at_ 12); Run 0 (at_ 13);
      Run 0 (at_ 14); Run 0 (at_ 15)])) =
    Some (Some COMPLETED, Some (687, "fail"), [0; 0; 0]%nat, 0%nat,
          ["evaluation.completed.v1"; "evaluation.completed.v1"]).
Proof. vm_compute. repeat split. Qed.

(** A stale confirmation hides a lost command. A publication whose context ends
    before its confirmation arrives leaves that confirmation in the manager's
    channel; the next publication reads it as its own. Here the broker refuses the
    second command, and yet its submission succeeds: the job is QUEUED, but the only
    command the broker ever took is the first one. Without the hypothesis on
    confirmations, commands do get lost. *)
Theorem stale_confirmation :
  let second := postgres.uuid (at_ 3) 0 in
  let run := reached false false
    [ASubmit 1 "t" "key-one" "corr" input; Run 0 (at_ 1); Run 0 (done_ 2);
     ASubmit 1 "t" "key-two" "corr" input; Run 0 (at_ 3); Run 0 (flaky 4 refusal); Run 0 (at_ 5)] in
  (c ← run; j_status <$> evaluation_jobs (db (world c)) !! second) = Some QUEUED ∧
  ((λ c, (λ m, match decode_job (Body m) with Ok job => JobID job | _ => "" end) <$> accepted (world c))
     <$> run) = Some [postgres.uuid (at_ 1) 0].
Proof. vm_compute. repeat split. Qed.

(** A worker that gives up at the first failure. *)
Definition strict : Worker := NewWorker 2 (evaluation.suite (λ r, r)) 0 1.

(** Retrying a dead-lettered evaluation answers QUEUED and publishes a command,
    but the job stays DEAD_LETTERED in the database: MarkEvaluationQueued, and later
    MarkEvaluationRunning, do not apply to that status. *)
Theorem retry_dead_lettered :
  let run := reached true true
    (submit ++ [ADeliver WorkQueue; AProcess strict 0; Run 0 (flaky 4 0); Run 0 (at_ 5); Run 0 (at_ 6)]) in
  (view <$> run) = Some (Some DEAD_LETTERED, None, [0; 0; 1]%nat, 0%nat, ["evaluation.failed.v1"]) ∧
  ((λ c, let r := prog.run (evaluationjob.Retry 1 "t" jid "corr") (λ n, at_ (7 + Z.of_nat n)) (world c) in
         (match r.1 with Ok job => evalstore.Status job | _ => "" end,
          view (mkConfig r.2 []))) <$> run) =
    Some ("QUEUED", (Some DEAD_LETTERED, None, [1; 0; 1]%nat, 0%nat, ["evaluation.failed.v1"])).
Proof. vm_compute. repeat split. Qed.
End jobs_demo.
