(* ===== verification/OpenAI.v ===== *)
(** * OpenAI: the adapter for OpenAI-compatible providers

    Models [internal/provider/openai.go]: the adapter over an HTTP client, which
    is a parameter, with the line scanner of the standard library that cuts a
    streamed body into events. It implements [provider.Interface], so the gateway's
    theorems apply to it. *)

From Stdlib Require Import Ascii.
From S2P Require Import Prelude Golib Request Provider.

(** ** [bufio.Scanner] over lines, with its buffer limit *)

Module bufio.
(** Without the carriage return at its end. *)
Definition line (cur : list ascii) : string :=
  match cur with
  | c :: cur' => if Ascii.eqb c "013"%char then strings.of_chars (rev cur') else strings.of_chars (rev cur)
  | [] => ""
  end.

(** The lines of a text and whether a line without its end filled the buffer of
    [limit] bytes: then the scan stops with [ErrTooLong]. [cur] is the current line
    reversed and [n] its length. *)
Fixpoint scan (limit : Z) (l cur : list ascii) (n : Z) : list string * bool :=
  match l with
  | [] => (match cur with [] => [] | _ => [line cur] end, false)
  | c :: l =>
    if Ascii.eqb c "010"%char
    then let '(ls, long) := scan limit l [] 0 in (line cur :: ls, long)
    else if limit <=? n + 1 then ([], true)
    else scan limit l (c :: cur) (n + 1)
  end.
Definition ErrTooLong : error := Sentinel "bufio.ErrTooLong" "bufio.Scanner: token too long".
End bufio.

Module openai.
Import provider.

Record OpenAIConfig : Type := mkOpenAIConfig {
  oc_Name : string;
  Endpoint : string;
  APIKey : string;
  oc_Models : list string;
  oc_DataClassifications : list string;
  Timeout : time.Duration;
  MaxResponseBytes : Z
}.

(** The HTTP client is set up from the configuration. *)
Record OpenAICompatible : Type := mkOpenAI { config : OpenAIConfig }.

Definition NewOpenAICompatible (c : OpenAIConfig) : res OpenAICompatible :=
  if (oc_Name c =s "") || (Endpoint c =s "")
  then Err (New "provider name and endpoint are required")
  else Ok (mkOpenAI (mkOpenAIConfig (oc_Name c) (Endpoint c) (APIKey c) (oc_Models c)
         (oc_DataClassifications c)
         (if Timeout c <=? 0 then 30 * time.Second else Timeout c)
         (if MaxResponseBytes c <=? 0 then 8388608 else MaxResponseBytes c))).

(** ** HTTP and JSON *)

Record HTTPRequest : Type := mkHTTPRequest {
  Method : string;
  URL : string;
  Header : list (string * string);
  ReqBody : string
}.

(** A response whose body ends after [body], by itself or with a read error. *)
Record HTTPResponse : Type := mkHTTPResponse {
  StatusCode : Z;
  body : string;
  read_error : option error
}.

(** The body sent: the anonymous struct of [call]. *)
Record Payload : Type := mkPayload {
  p_Model : string;
  p_Messages : list request.Message;
  p_Temperature : option float64.t;
  p_MaxTokens : Z;
  p_Stream : bool
}.

(** The structs decoded: of a response, the choices as content and finish reason. *)
Record Answer : Type := mkAnswer {
  a_ID : string;
  a_Model : string;
  a_Choices : list (string * string);
  a_Usage : request.Usage
}.
Record Event : Type := mkEvent {
  e_Choices : list (string * string);
  e_Usage : option request.Usage
}.

(** Outside: whether a URL is valid, the client with its timeout, the context's
    deadline and the clock when a call has failed, JSON. The decoder of a response
    reads the text and, after it, the error if there is one. *)
Class Transport : Type := {
  check_url : string → res unit;
  do_request : IO → time.Duration → HTTPRequest → res HTTPResponse;
  ctx_deadline : IO → option time.Time;
  clock_after : IO → time.Time;
  encode_payload : Payload → res string;
  decode_answer : string → option error → res Answer;
  decode_event : string → res Event
}.

Section Adapter.
Context `{Transport}.

(** [strings.TrimRight(s, "/")] *)
Fixpoint drop_slashes (rl : list ascii) : list ascii :=
  match rl with
  | c :: rl' => if Ascii.eqb c "/"%char then drop_slashes rl' else rl
  | [] => []
  end.
Definition TrimRightSlash (s : string) : string :=
  strings.of_chars (rev (drop_slashes (rev (strings.chars s)))).

Definition adapter_Name (a : OpenAICompatible) : string := oc_Name (config a).

Definition adapter_Capabilities (a : OpenAICompatible) : Capabilities :=
  mkCapabilities (list_to_set (oc_Models (config a))) (list_to_set (oc_DataClassifications (config a))).

Definition adapter_Health (io : IO) (a : OpenAICompatible) : res unit :=
  let url := TrimRightSlash (Endpoint (config a)) +:+ "/health/ready" in
  _ ← check_url url;
  response ← do_request io (Timeout (config a)) (mkHTTPRequest "GET" url [] "");
  if 400 <=? StatusCode response then Err (HTTPError (adapter_Name a) (StatusCode response))
  else Ok ().

Definition remaining (io : IO) : time.Duration :=
  match ctx_deadline io with
  | None => time.Hour
  | Some deadline => time.Sub deadline (clock_after io)
  end.

Definition headers (a : OpenAICompatible) (input : CompletionRequest) : list (string * string) :=
  [("Content-Type", "application/json"); ("Accept", "application/json");
   ("X-Request-ID", RequestID input)] ++
  (if APIKey (config a) =s "" then [] else [("Authorization", "Bearer " +:+ APIKey (config a))]).

Definition call (io : IO) (input : CompletionRequest) (stream : bool) (a : OpenAICompatible)
  : res HTTPResponse :=
  let payload := mkPayload (normalizeModel (req_Model input)) (Messages input) (Temperature input)
                   (MaxTokens input) stream in
  match encode_payload payload with
  | Panic w => Panic w
  | Err e => Err (Wrap "marshal provider request" e)
  | Ok encoded =>
    let url := TrimRightSlash (Endpoint (config a)) +:+ "/v1/chat/completions" in
    match check_url url with
    | Panic w => Panic w
    | Err e => Err (Wrap "create provider request" e)
    | Ok _ =>
      match do_request io (Timeout (config a)) (mkHTTPRequest "POST" url (headers a input) encoded) with
      | Panic w => Panic w
      | Err e => Err (ProviderError (adapter_Name a) "transport" 0 (0 <? remaining io) false (Some e))
      | Ok response =>
        if 400 <=? StatusCode response then Err (HTTPError (adapter_Name a) (StatusCode response))
        else Ok response
      end
    end
  end.

(** [io.LimitReader]: at the limit the text ends without an error. *)
Definition LimitReader (response : HTTPResponse) (n : Z) : string * option error :=
  if strings.len (body response) <? n then (body response, read_error response)
  else (strings.of_chars (take (Z.to_nat n) (strings.chars (body response))), None).

Definition adapter_Complete (io : IO) (input : CompletionRequest) (a : OpenAICompatible)
  : res Completion * OpenAICompatible :=
  (match call io input false a with
   | Panic w => Panic w
   | Err e => Err e
   | Ok response =>
     let '(text, err) := LimitReader response (MaxResponseBytes (config a)) in
     match decode_answer text err with
     | Panic w => Panic w
     | Err e => Err (ProviderError (adapter_Name a) "malformed_response" 0 false false (Some e))
     | Ok answer =>
       match a_Choices answer with
       | [] => Err (ProviderError (adapter_Name a) "empty_response" 0 false false None)
       | (content, reason) :: _ =>
         Ok (mkCompletion (a_ID answer) (a_Model answer) content reason (a_Usage answer))
       end
     end
   end, a).

(** The data of a line that carries some. *)
Definition line_data (text : string) : option string :=
  let l := strings.TrimSpace text in
  if strings.HasPrefix l "data:"
  then Some (strings.TrimSpace (strings.of_chars (drop 5 (strings.chars l))))
  else None.

(** The loop over the lines; [finish] is what follows it. *)
Fixpoint stream_lines (name : string) (lines : list string) (partial : bool) (usage : request.Usage)
  (finish : bool → stream) : stream :=
  match lines with
  | [] => finish partial
  | text :: lines =>
    match line_data text with
    | None => stream_lines name lines partial usage finish
    | Some data =>
      if data =s "[DONE]" then Return (Ok usage)
      else match decode_event data with
           | Panic w => Return (Panic w)
           | Err e => Return (Err (ProviderError name "malformed_stream" 0 false partial (Some e)))
           | Ok event =>
             let usage := default usage (e_Usage event) in
             match e_Choices event with
             | [] => stream_lines name lines partial usage finish
             | (content, reason) :: _ =>
               let partial := partial || negb (content =s "") in
               Emit (mkChunk content reason) (λ answer,
                 match answer with
                 | Some e => Return (Err (ProviderError name "stream_write" 0 false partial (Some e)))
                 | None => stream_lines name lines partial usage finish
                 end)
             end
           end
    end
  end.

(** After the last line: the scanner's error, or the end of the body. *)
Definition stream_end (name : string) (err : option error) (partial : bool) : stream :=
  Return (Err match err with
              | Some e => ProviderError name "stream_read" 0 (negb partial) partial (Some e)
              | None => ProviderError name "stream_ended_without_done" 0 (negb partial) partial None
              end).

Definition max_line : Z := 1048576.

Definition adapter_Stream (io : IO) (input : CompletionRequest) (a : OpenAICompatible)
  : stream * OpenAICompatible :=
  (match call io input true a with
   | Panic w => Return (Panic w)
   | Err e => Return (Err e)
   | Ok response =>
     let '(text, err) := LimitReader response (MaxResponseBytes (config a)) in
     let '(lines, long) := bufio.scan max_line (strings.chars text) [] 0 in
     stream_lines (adapter_Name a) lines false (request.mkUsage 0 0 0)
       (stream_end (adapter_Name a) (if long then Some bufio.ErrTooLong else err))
   end, a).

#[global] Instance openai_interface : Interface OpenAICompatible := {|
  Name := adapter_Name;
  CapabilitiesOf := adapter_Capabilities;
  Health := adapter_Health;
  Complete := adapter_Complete;
  Stream := adapter_Stream
|}.

(** ** Streaming *)

Lemma string_app_empty (s t : string) : s +:+ t = "" ↔ s = "" ∧ t = "".
Proof. destruct s; simpl; split; [done|by intros [_ ->]|done|by intros [? _]]. Qed.

Lemma stream_lines_retryable (name : string) (lines : list string) (partial : bool)
  (usage : request.Usage) (err : option error) (script : nat → option error) (log : nat * list Chunk)
  (e : error) (n : nat) (chunks : list Chunk) :
  (partial = false → delivered log.2 = "") →
  run_stream (scripted script) (stream_lines name lines partial usage (stream_end name err)) log =
    (Err e, (n, chunks)) →
  IsRetryable e = true → delivered chunks = "".
Proof.
  revert partial usage log. induction lines as [|text lines IH]; intros partial usage log Hp; cbn [stream_lines].
  - unfold stream_end. simpl. destruct log as [k log]. intros [= <- <- <-].
    destruct err; unfold IsRetryable; simpl; destruct partial; simpl; try done; intros _; by apply Hp.
  - destruct (line_data text) as [data|]; [|by apply IH]. destruct (data =s "[DONE]"); [done|].
    destruct (decode_event data) as [event|e'|w]; [|by destruct log; intros [= <- <- <-]|done].
    destruct (e_Choices event) as [|[content reason] choices]; [by apply IH|].
    cbn [run_stream]. unfold scripted at 1. destruct (script log.1); simpl; [by intros [= <- <- <-]|].
    apply IH. intros [Hf Hc%negb_false_iff%String.eqb_eq]%orb_false_iff. simpl.
    rewrite delivered_app, Hp by done. simpl. by rewrite Hc.
Qed.

(** C21 (safety): a stream is retried only before any output. Whatever the provider sends,
    wherever the body breaks off and whatever the client answers, an error that the
    gateway may retry on another provider is returned only if no text has reached the
    client. *)
Theorem openai_retry_clean (io : IO) (input : CompletionRequest) (a : OpenAICompatible)
  (script : nat → option error) (e : error) (n : nat) (chunks : list Chunk) :
  run_stream (scripted script) (Stream io input a).1 (0%nat, []) = (Err e, (n, chunks)) →
  IsRetryable e = true → delivered chunks = "".
Proof.
  simpl. unfold adapter_Stream. destruct (call io input true a) as [response|e'|w]; simpl;
    [|by intros [= <- <- <-]|done].
  destruct (LimitReader response _) as [text err]. destruct (bufio.scan _ _ _ _) as [lines long].
  by apply stream_lines_retryable.
Qed.

(** The data before the end marker, and whether there is one. *)
Fixpoint until_done (data : list string) : list string * bool :=
  match data with
  | [] => ([], false)
  | d :: data => if d =s "[DONE]" then ([], true)
                 else let '(ds, finished) := until_done data in (d :: ds, finished)
  end.

(** The chunk of an event, and the usage after it. *)
Definition event_chunk (event : Event) : option Chunk :=
  match e_Choices event with [] => None | (content, reason) :: _ => Some (mkChunk content reason) end.
Definition event_usage (usage : request.Usage) (event : Event) : request.Usage :=
  default usage (e_Usage event).

(** What a stream amounts to: its lines, the events they carry up to the end marker. *)
Definition body_data (a : OpenAICompatible) (response : HTTPResponse) : list string :=
  omap line_data
    (bufio.scan max_line (strings.chars (LimitReader response (MaxResponseBytes (config a))).1) [] 0).1.

Lemma stream_lines_exact (name : string) (lines : list string) (events : list Event) (partial : bool)
  (usage : request.Usage) (err : option error) (log : nat * list Chunk) (finished : bool)
  (before : list string) :
  until_done (omap line_data lines) = (before, finished) →
  Forall2 (λ d event, decode_event d = Ok event) before events →
  (partial = false ↔ delivered log.2 = "") →
  let chunks := omap event_chunk events in
  ∃ r, run_stream (scripted (λ _, None)) (stream_lines name lines partial usage (stream_end name err)) log =
         (r, ((log.1 + length chunks)%nat, log.2 ++ chunks)) ∧
    if finished then r = Ok (foldl event_usage usage events)
    else ∃ e, r = Err e ∧ (IsRetryable e = true ↔ delivered (log.2 ++ chunks) = "").
Proof.
  revert events partial usage log before.
  induction lines as [|text lines IH]; intros events partial usage log before; cbn [stream_lines omap list_omap].
  - intros [= <- <-] ->%Forall2_nil_inv_l Hp. simpl. rewrite Nat.add_0_r, app_nil_r.
    eexists. split; [by destruct log|]. eexists. split; [done|]. rewrite <- Hp.
    by destruct err, partial.
  - change (list_omap _ _ line_data lines) with (omap line_data lines).
    destruct (line_data text) as [data|]; [|intros; by eapply IH]. cbn [until_done].
    destruct (data =s "[DONE]").
    { intros [= <- <-] ->%Forall2_nil_inv_l Hp. simpl. rewrite Nat.add_0_r, app_nil_r.
      eexists. split; [by destruct log|done]. }
    destruct (until_done (omap line_data lines)) as [ds fin] eqn:Hd. intros [= <- <-] Hall Hp.
    apply Forall2_cons_inv_l in Hall as (event & events' & Hev & Hall & ->). rewrite Hev.
    unfold event_chunk at 1. cbn [omap list_omap foldl]. fold (omap event_chunk events').
    change (event_chunk event) with (match e_Choices event with
      | [] => None | (content, reason) :: _ => Some (mkChunk content reason) end).
    destruct (e_Choices event) as [|[content reason] choices]; [by eapply IH|].
    cbn [run_stream]. unfold scripted at 1. cbn [fst snd].
    destruct (IH events' (partial || negb (content =s "")) (event_usage usage event)
      (S log.1, log.2 ++ [mkChunk content reason]) ds eq_refl Hall) as (r & Hr & Hrest).
    { simpl. rewrite delivered_app, string_app_empty, <- Hp, orb_false_iff, negb_false_iff, String.eqb_eq.
      simpl. rewrite string_app_nil_r. done. }
    exists r. cbn [fst snd] in *. rewrite <- app_assoc in *. split; [|done].
    etrans; [exact Hr|]. f_equal. f_equal. cbn [length].
    by rewrite Nat.add_succ_r.
Qed.

Lemma stream_exact (io : IO) (input : CompletionRequest) (a : OpenAICompatible)
  (response : HTTPResponse) (events : list Event) (before : list string) (finished : bool) :
  call io input true a = Ok response →
  until_done (body_data a response) = (before, finished) →
  Forall2 (λ d event, decode_event d = Ok event) before events →
  let chunks := omap event_chunk events in
  ∃ r, run_stream (scripted (λ _, None)) (Stream io input a).1 (0%nat, []) = (r, (length chunks, chunks)) ∧
    if finished then r = Ok (foldl event_usage (request.mkUsage 0 0 0) events)
    else ∃ e, r = Err e ∧ (IsRetryable e = true ↔ delivered chunks = "").
Proof.
  intros Hcall Hd Hall. simpl. unfold adapter_Stream. rewrite Hcall.
  unfold body_data in Hd. destruct (LimitReader response _) as [text err].
  destruct (bufio.scan _ _ _ _) as [lines long]. simpl in *.
  by apply (stream_lines_exact _ _ _ _ _ _ (0%nat, []) _ _ Hd Hall).
Qed.

(** Streaming is exact. If the provider answers, the client takes every
    chunk and the events before the end marker are well formed, then the client gets
    the first choice of each event, in order and nothing else; the call succeeds, with
    the last usage reported, exactly if the end marker is among the lines of the first
    MaxResponseBytes bytes; else it fails with an error that is retryable exactly if
    no text was delivered. *)
Theorem openai_stream_exact (io : IO) (input : CompletionRequest) (a : OpenAICompatible)
  (response : HTTPResponse) (events : list Event) (before : list string) (finished : bool) :
  call io input true a = Ok response →
  until_done (body_data a response) = (before, finished) →
  Forall2 (λ d event, decode_event d = Ok event) before events →
  let chunks := omap event_chunk events in
  ∃ r, run_stream (scripted (λ _, None)) (Stream io input a).1 (0%nat, []) = (r, (length chunks, chunks)) ∧
    if finished then r = Ok (foldl event_usage (request.mkUsage 0 0 0) events)
    else ∃ e, r = Err e ∧ (IsRetryable e = true ↔ delivered chunks = "").
Proof. apply stream_exact. Qed.
End Adapter.
End openai.

(** ** Concrete runs *)

Module openai_demo.
Import provider openai.

Definition nl : string := strings.of_chars ["010"%char].

(** A provider whose body is [text]; an event's data is its text, "usage" reports
    usage and "role" has an empty choice. *)
Definition transport (text : string) (err : option error) : Transport := {|
  check_url := λ _, Ok ();
  do_request := λ _ _ _, Ok (mkHTTPResponse 200 text err);
  ctx_deadline := λ _, None;
  clock_after := io_now;
  encode_payload := λ _, Ok "{}";
  decode_answer := λ s _, Ok (mkAnswer "id" "m" [(s, "stop")] (request.mkUsage 1 2 3));
  decode_event := λ d,
    if d =s "usage" then Ok (mkEvent [] (Some (request.mkUsage 4 5 9)))
    else if d =s "role" then Ok (mkEvent [("", "")] None)
    else Ok (mkEvent [(d, "")] None)
|}.

Definition adapter : OpenAICompatible :=
  mkOpenAI (mkOpenAIConfig "vendor" "http://vendor/" "" [] [] time.Second 1000).
Definition input : CompletionRequest := mkCompletionRequest "r" "m" [] None 0.

Definition good_body : string :=
  "data: role" +:+ nl +:+ nl +:+ "data:Hel" +:+ nl +:+ ": ping" +:+ nl +:+ "data: lo" +:+ nl +:+
  "data: usage" +:+ nl +:+ "data: [DONE]" +:+ nl +:+ "data: late" +:+ nl.

Lemma openai_stream_exact_witness :
  ∃ r chunks,
    run_stream (scripted (λ _, None)) (@Stream _ (@openai_interface (transport good_body None)) (quiet 0 []) input adapter).1
      (0%nat, []) = (r, (length chunks, chunks)) ∧
    r = Ok (request.mkUsage 4 5 9) ∧ delivered chunks = "Hello".
Proof.
  destruct (@openai_stream_exact (transport good_body None) (quiet 0 []) input adapter
    (mkHTTPResponse 200 good_body None)
    [mkEvent [("", "")] None; mkEvent [("Hel", "")] None; mkEvent [("lo", "")] None;
     mkEvent [] (Some (request.mkUsage 4 5 9))]
    ["role"; "Hel"; "lo"; "usage"] true) as (r & Hr & Hok).
  - reflexivity.
  - vm_compute. reflexivity.
  - repeat constructor.
  - exists r. eexists. split; [exact Hr|]. split; [exact Hok|]. vm_compute. reflexivity.
Defined.

Lemma openai_retry_clean_witness :
  let broken := New "connection reset" in
  ∃ e chunks,
    run_stream (scripted (λ _, None))
      (@Stream _ (@openai_interface (transport ("data: role" +:+ nl) (Some broken))) (quiet 0 []) input adapter).1
      (0%nat, []) = (Err e, (1%nat, chunks)) ∧ IsRetryable e = true ∧ delivered chunks = "".
Proof.
  cbn zeta. do 2 eexists.
  match goal with |- ?run = _ ∧ _ => assert (run = (Err (ProviderError "vendor" "stream_read" 0 true false
    (Some (New "connection reset"))), (1%nat, [mkChunk "" ""]))) as Hrun by (vm_compute; reflexivity) end.
  split; [exact Hrun|]. split; [reflexivity|].
  apply (@openai_retry_clean (transport ("data: role" +:+ nl) (Some (New "connection reset"))) (quiet 0 [])
    input adapter (λ _, None) _ _ _ Hrun). reflexivity.
Defined.
End openai_demo.
