(* ===== verification/MockApi.v ===== *)
(** * MockApi: the mock provider as an HTTP service

    Models [internal/api/mock_provider.go]: the deterministic provider of [Provider.v]
    behind an OpenAI-compatible endpoint. Its streams are read back by the adapter of
    [OpenAI.v]: the two ends agree. *)

From Stdlib Require Import Ascii.
From S2P Require Import Prelude Golib Request Auth Provider OpenAI Http.

Module mock_api.
Import http respond provider.

(** The provider and the connection of the request. *)
Record World : Type := mkWorld { mock : Mock; out : Writer }.
#[global] Instance world_exchange : Exchange World.
Proof. by refine {| writer := out; set_writer := λ x w, mkWorld (mock w) x |}. Defined.

(** One event of a stream. *)
Record Event : Type := mkEvent { ev_model : string; ev_content : string; ev_finish : option string }.

(** The response; its one choice has index 0 and the role of the assistant, and the
    gateway's own field keeps its zero value. *)
Record Response : Type := mkResponse {
  resp_ID : string;
  resp_Object : string;
  resp_Created : Z;
  resp_Model : string;
  resp_Content : string;
  resp_FinishReason : string;
  resp_Usage : request.Usage
}.

(** JSON: the decoder of a chat request on a text with the read error after it, and the
    encoders. *)
Class Codec : Type := {
  decode_chat : string → option error → res request.ChatInput;
  encode_response : Response → string;
  encode_event : Event → res string
}.

Section Handler.
Context `{Codec}.

Definition nl : string := strings.of_chars ["010"%char].
Definition nilIfBlank (value : string) : option string := if value =s "" then None else Some value.

(** The emitter of a stream; an encoding error leaves nothing to send. *)
Definition emit (model : string) (chunk : Chunk) (w : Writer) : option error * Writer :=
  let encoded :=
    match encode_event (mkEvent model (chunk_Content chunk) (nilIfBlank (chunk_FinishReason chunk))) with
    | Ok encoded => encoded
    | Err _ | Panic _ => ""
    end in
  Write ("data: " +:+ encoded +:+ nl +:+ nl) w.

Definition provider_input (r : Request) (input : request.ChatInput) : CompletionRequest :=
  mkCompletionRequest (HeaderGet r "X-Request-ID") (request.in_Model input) (request.in_Messages input)
    (request.in_Temperature input) (request.in_MaxTokens input).

Definition complete_once (io : IO) (r : Request) (input : request.ChatInput) : M World unit := λ w,
  let '(completion, mock') := mock_Complete io (provider_input r input) (mock w) in
  let w := mkWorld mock' (out w) in
  match completion with
  | Panic why => (Panic why, w)
  | Err _ => Error "mock provider failure" 503 w
  | Ok c =>
    writeJSON 200 (encode_response
      (mkResponse (ProviderRequestID c) "chat.completion" (time.Unix (io_now io)) (Model c) (Content c)
         (FinishReason c) (Usage c))) w
  end.

Definition complete_stream (io : IO) (r : Request) (input : request.ChatInput) : M World unit := λ w,
  let o := set_header "Content-Type" "text/event-stream" (out w) in
  let o := set_header "Cache-Control" "no-cache" o in
  let o := WriteHeader 200 o in
  let '(s, mock') := mock_Stream io (provider_input r input) (mock w) in
  let '(result, o) := run_stream (emit (request.in_Model input)) s o in
  match result with
  | Panic why => (Panic why, mkWorld mock' o)
  | Err _ => (Ok (), mkWorld mock' o)
  | Ok _ => (Ok (), mkWorld mock' (Write ("data: [DONE]" +:+ nl +:+ nl) o).2)
  end.

Definition complete (io : IO) : Handler World := λ _ r,
  let '(text, err) := read_body r in
  match decode_chat text err with
  | Panic why => lift (Panic why)
  | Err _ => Error "invalid request" 400
  | Ok input =>
    match request.Validate input with
    | Panic why => lift (Panic why)
    | Err _ => Error "invalid request" 400
    | Ok _ => if negb (request.in_Stream input) then complete_once io r input
              else complete_stream io r input
    end
  end.
End Handler.
End mock_api.

(** ** Both ends of a stream *)

Module mock_wire.
Import provider openai mock_api.

Section Wire.
Context `{mock_api.Codec} `{Transport}.

(** A chunk of UTF-8 text: the conversion of Go's encoder leaves it as it is. *)
Definition text_chunk (chunk : Chunk) : Prop :=
  utf8.coerce (chunk_Content chunk) = chunk_Content chunk ∧
  utf8.coerce (chunk_FinishReason chunk) = chunk_FinishReason chunk.

(** What JSON gives: the events are objects on one line, and of those about UTF-8 text the
    adapter decodes the content and the finish reason, null as blank. *)
Class Agree : Prop := {
  encode_total model chunk : text_chunk chunk → ∃ payload,
    encode_event (mock_api.mkEvent model (chunk_Content chunk) (nilIfBlank (chunk_FinishReason chunk))) =
      Ok payload ∧
    decode_event payload = Ok (openai.mkEvent [(chunk_Content chunk, chunk_FinishReason chunk)] None);
  encode_object event payload : encode_event event = Ok payload →
    ∃ inner, strings.chars payload = ["{"%char] ++ inner ++ ["}"%char] ∧ "010"%char ∉ inner
}.
Context `{Agree}.

#[local] Abbreviation lf := "010"%char (only parsing).

(** *** Trimming *)

Lemma trim_right_brace (fuel : nat) (l : list ascii) :
  strings.trim_right fuel ("}"%char :: l) = "}"%char :: l.
Proof.
  destruct fuel as [|fuel]; [done|]. cbn [strings.trim_right].
  change (strings.nthb ("}"%char :: l) 0) with 125.
  set (b1 := strings.nthb _ 1). set (b2 := strings.nthb _ 2).
  assert (∀ a b, strings.space_width a 125 b ≠ 2%nat) as H2.
  { intros a b. unfold strings.space_width. change ((125 =? 133) || (125 =? 160)) with false.
    rewrite andb_false_r. by repeat case_match. }
  assert (∀ a b, strings.space_width a b 125 ≠ 3%nat) as H3.
  { intros a b. unfold strings.space_width. change (125 =? 128) with false. change (125 =? 159) with false.
    change (((128 <=? 125) && (125 <=? 138)) || (125 =? 168) || (125 =? 169) || (125 =? 175)) with false.
    rewrite !andb_false_r. by repeat case_match. }
  change (strings.space_width 125 (-1) (-1)) with 0%nat. cbn iota.
  specialize (H2 b1 (-1)). specialize (H3 b2 b1).
  destruct (strings.space_width b1 125 (-1)) as [|[|[|?]]]; try done;
    destruct (strings.space_width b2 b1 125) as [|[|[|[|?]]]]; done.
Qed.

Definition object (payload : string) (inner : list ascii) : Prop :=
  strings.chars payload = ["{"%char] ++ inner ++ ["}"%char].

Lemma line_data_object (payload : string) (inner : list ascii) : object payload inner →
  line_data ("data: " +:+ payload) = Some payload.
Proof.
  intros Ho. unfold line_data.
  assert (∀ pre : list ascii, strings.trim_right (length (pre ++ strings.chars payload))
            (rev (pre ++ strings.chars payload)) = rev (pre ++ strings.chars payload)) as Hr.
  { intros pre. rewrite Ho, !rev_app_distr. apply trim_right_brace. }
  assert (strings.TrimSpace ("data: " +:+ payload) = "data: " +:+ payload) as ->.
  { unfold strings.TrimSpace. rewrite chars_app.
    assert (∀ fuel l, strings.trim_left fuel (strings.chars "data: " ++ l) = strings.chars "data: " ++ l) as ->
      by (by intros []).
    rewrite Hr, rev_involutive, <- chars_app. apply of_chars_chars. }
  change (strings.HasPrefix ("data: " +:+ payload) "data:") with true. cbn iota. f_equal.
  assert (drop 5 (strings.chars ("data: " +:+ payload)) = " "%char :: strings.chars payload) as -> by (by rewrite chars_app).
  unfold strings.TrimSpace. rewrite chars_of_chars, <- length_chars, chars_of_chars.
  assert (strings.trim_left (length (" "%char :: strings.chars payload)) (" "%char :: strings.chars payload) =
          strings.chars payload) as ->.
  { change (strings.trim_left (length (strings.chars payload)) (strings.chars payload) = strings.chars payload).
    rewrite Ho. by destruct (length _). }
  specialize (Hr []). simpl in Hr. rewrite Hr, rev_involutive. apply of_chars_chars.
Qed.

(** *** Lines *)

Lemma scan_line (limit : Z) (l rest cur : list ascii) (n : Z) :
  lf ∉ l → n + Z.of_nat (length l) < limit →
  bufio.scan limit (l ++ lf :: rest) cur n =
    (bufio.line (rev l ++ cur) :: (bufio.scan limit rest [] 0).1, (bufio.scan limit rest [] 0).2).
Proof.
  revert cur n. induction l as [|c l IH]; intros cur n Hl Hn; cbn [app bufio.scan rev].
  { rewrite Ascii.eqb_refl. by destruct (bufio.scan limit rest [] 0). }
  apply not_elem_of_cons in Hl as [Hc Hl]. simpl in Hn.
  rewrite (proj2 (Ascii.eqb_neq c lf)) by congruence. rewrite (proj2 (Z.leb_gt _ _)) by lia.
  rewrite IH by (done || lia). by rewrite <- app_assoc.
Qed.

Definition event_text (payload : string) : string := "data: " +:+ payload +:+ nl +:+ nl.
Definition events (payloads : list string) : string :=
  foldr (λ p rest, event_text p +:+ rest) "" payloads.

(** The payloads of chunks. *)
Definition payload_of (model : string) (chunk : Chunk) (payload : string) : Prop :=
  encode_event (mock_api.mkEvent model (chunk_Content chunk) (nilIfBlank (chunk_FinishReason chunk))) =
    Ok payload ∧
  decode_event payload = Ok (openai.mkEvent [(chunk_Content chunk, chunk_FinishReason chunk)] None).

Definition one_line (payload : string) : Prop := ∃ inner, object payload inner ∧ lf ∉ inner.

Lemma payload_one_line (model : string) (chunk : Chunk) (payload : string) :
  payload_of model chunk payload → one_line payload.
Proof. intros [He _]. destruct (encode_object _ _ He) as (inner & Ho & Hl). by exists inner. Qed.

Lemma scan_event (limit : Z) (payload rest : string) : one_line payload →
  strings.len ("data: " +:+ payload) < limit →
  bufio.scan limit (strings.chars (event_text payload +:+ rest)) [] 0 =
    (("data: " +:+ payload) :: "" :: (bufio.scan limit (strings.chars rest) [] 0).1,
     (bufio.scan limit (strings.chars rest) [] 0).2).
Proof.
  intros (inner & Ho & Hl) Hlen.
  assert (strings.chars (event_text payload +:+ rest) =
          strings.chars ("data: " +:+ payload) ++ lf :: ([] ++ lf :: strings.chars rest)) as ->.
  { unfold event_text. rewrite !chars_app, <- !app_assoc. done. }
  unfold strings.len in Hlen. rewrite <- length_chars in Hlen.
  rewrite scan_line; [|..|lia].
  - rewrite app_nil_r. rewrite scan_line; [|apply not_elem_of_nil|simpl; lia].
    cbn [fst snd]. f_equal. f_equal.
    assert (rev (strings.chars ("data: " +:+ payload)) = "}"%char :: rev (strings.chars "data: " ++ "{"%char :: inner)) as Hrev.
    { rewrite chars_app, Ho. change ("{"%char :: inner) with (["{"%char] ++ inner).
      rewrite !app_assoc, rev_app_distr. done. }
    unfold bufio.line. rewrite Hrev. change (Ascii.eqb "}" "013") with false. cbn iota.
    by rewrite <- Hrev, rev_involutive, of_chars_chars.
  - rewrite chars_app, Ho. rewrite !elem_of_app, !list_elem_of_singleton. intros [Hd|[Hb|[Hi|Hb]]]; try done.
    revert Hd. apply (bool_decide_unpack (lf ∉ strings.chars "data: ")). by vm_compute.
Qed.

Lemma scan_events (limit : Z) (payloads : list string) (tail : string) :
  Forall one_line payloads → strings.len (events payloads +:+ tail) < limit →
  let '(ls, long) := bufio.scan limit (strings.chars tail) [] 0 in
  ∃ lines, bufio.scan limit (strings.chars (events payloads +:+ tail)) [] 0 = (lines, long) ∧
    omap line_data lines = payloads ++ omap line_data ls.
Proof.
  destruct (bufio.scan limit (strings.chars tail) [] 0) as [ls long] eqn:Htail.
  induction 1 as [|p ps Hp Hps IH]; intros Hlen; cbn [events foldr] in *.
  { exists ls. split; [exact Htail|done]. }
  fold (events ps) in *. rewrite <- string_app_assoc in *. unfold strings.len in *. rewrite <- length_chars in Hlen.
  unfold event_text in Hlen at 1. rewrite !chars_app, !length_app in Hlen.
  destruct IH as (lines & Hscan & Hom).
  { rewrite <- length_chars, chars_app, length_app. lia. }
  rewrite scan_event; [|done|unfold strings.len; rewrite <- length_chars, chars_app, length_app; lia].
  rewrite Hscan. eexists. split; [done|]. destruct Hp as (inner & Ho & _).
  cbn [omap list_omap]. rewrite (line_data_object p inner Ho).
  change (line_data "") with (@None string). exact (f_equal (cons p) Hom).
Qed.

Lemma until_done_payloads (payloads rest : list string) :
  Forall one_line payloads →
  until_done (payloads ++ rest) = (payloads ++ (until_done rest).1, (until_done rest).2).
Proof.
  induction 1 as [|p ps Hp Hps IH]; simpl; [by destruct (until_done rest)|].
  destruct (String.eqb_spec p "[DONE]") as [->|_].
  { destruct Hp as (inner & Ho & _). discriminate Ho. }
  rewrite IH. by destruct (until_done rest).
Qed.

(** *** Emitting *)

(** The log of a scripted run only grows. *)
Lemma scripted_grows (script : nat → option error) (s : stream) (log : nat * list Chunk) :
  log.2 `prefix_of` (run_stream (scripted script) s log).2.2.
Proof.
  revert log. induction s as [r|c k IH]; intros log; simpl; [done|].
  unfold scripted at 1. destruct (script log.1); [by etrans; [|apply IH]|].
  etrans; [|apply IH]. by apply prefix_app_r.
Qed.

Lemma emit_run (model : string) (s : stream) (w : http.Writer) (x : Z * gmap string string)
  (log : nat * list Chunk) :
  (∀ n, http.broken w n = None) → http.sent w = Some x →
  Forall text_chunk (run_stream (scripted (λ _, None)) s log).2.2 →
  ∃ chunks payloads w', let '(r, log') := run_stream (scripted (λ _, None)) s log in
    run_stream (emit model) s w = (r, w') ∧ log' = ((log.1 + length chunks)%nat, log.2 ++ chunks) ∧
    Forall2 (payload_of model) chunks payloads ∧ http.sent w' = Some x ∧
    (∀ n, http.broken w' n = None) ∧ http.body w' = http.body w +:+ events payloads.
Proof.
  revert w log. induction s as [r|c k IH]; intros w log Hb Hs Htext.
  { exists [], [], w. simpl. rewrite Nat.add_0_r, app_nil_r, string_app_nil_r. destruct log. by split_and!. }
  cbn [run_stream] in *. unfold scripted in Htext at 1. unfold scripted at 1.
  destruct (encode_total model c) as (p & He & Hd).
  { rewrite Forall_forall in Htext. apply Htext. eapply elem_of_prefix; [|apply scripted_grows].
    apply elem_of_app. right. by left. }
  assert (emit model c w = (None, http.mkWriter (http.header w) (http.sent w)
            (http.body w +:+ event_text p) (S (http.writes w)) (http.broken w) (http.called w))) as ->.
  { unfold emit. rewrite He. unfold http.Write.
    assert (http.send 200 w = w) as -> by (unfold http.send; by rewrite Hs).
    by rewrite Hb. }
  edestruct (IH None (http.mkWriter (http.header w) (http.sent w) (http.body w +:+ event_text p)
    (S (http.writes w)) (http.broken w) (http.called w)) (S log.1, log.2 ++ [c])) as (chunks & payloads & w' & Hrun); [done..|].
  exists (c :: chunks), (p :: payloads), w'.
  destruct (run_stream (scripted (λ _, None)) (k None) _) as [r log'].
  destruct Hrun as (Hrun & -> & Hall & Hs' & Hb' & Hbody). simpl in *.
  split_and!; [done| |by constructor|done|done|].
  - rewrite <- app_assoc. simpl. f_equal. lia.
  - rewrite Hbody. by rewrite <- string_app_assoc.
Qed.

(** What the service has written when the provider's stream has ended. *)
Lemma served_stream (io : IO) (r : http.Request) (input : request.ChatInput) (w w' : World) :
  http.sent (out w) = None → http.body (out w) = "" → (∀ n, http.broken (out w) n = None) →
  Forall text_chunk (run_stream (scripted (λ _, None))
    (mock_Stream io (provider_input r input) (mock w)).1 (0%nat, [])).2.2 →
  complete_stream io r input w = (Ok (), w') →
  ∃ served chunks payloads,
    run_stream (scripted (λ _, None)) (mock_Stream io (provider_input r input) (mock w)).1 (0%nat, []) =
      (served, (length chunks, chunks)) ∧
    Forall2 (payload_of (request.in_Model input)) chunks payloads ∧
    match served with
    | Ok _ => http.body (out w') = events payloads +:+ event_text "[DONE]"
    | Err _ => http.body (out w') = events payloads
    | Panic _ => False
    end.
Proof.
  intros Hs Hb Hbr Htext Hrun. unfold complete_stream in Hrun.
  destruct (mock_Stream io _ (mock w)) as [s mock'].
  set (h := http.set_header "Cache-Control" "no-cache" _) in Hrun.
  assert (http.WriteHeader 200 h = http.mkWriter (http.header h) (Some (200, http.header h)) (http.body (out w))
            (http.writes (out w)) (http.broken (out w)) (Some 200)) as Ho.
  { unfold http.WriteHeader, http.send. change (http.sent h) with (http.sent (out w)). by rewrite Hs. }
  rewrite Ho in Hrun. set (o := http.mkWriter _ _ _ _ _ _) in Hrun.
  destruct (emit_run (request.in_Model input) s o _ (0%nat, []) Hbr eq_refl Htext)
    as (chunks & payloads & o' & He).
  cbn [fst]. destruct (run_stream (scripted (λ _, None)) s (0%nat, [])) as [served log].
  destruct He as (He & -> & Hall & Hs' & Hb' & Hbody). rewrite He in Hrun. change (http.body o) with (http.body (out w)) in Hbody. rewrite Hb in Hbody.
  exists served, chunks, payloads. split; [done|]. split; [done|].
  destruct served as [u|e|why]; [|by apply (f_equal snd) in Hrun; simpl in Hrun; subst w'|discriminate Hrun].
  apply (f_equal snd) in Hrun. simpl in Hrun. subst w'. cbn [out]. unfold http.Write.
  assert (http.send 200 o' = o') as -> by (unfold http.send; by rewrite Hs').
  rewrite Hb'. simpl. by rewrite Hbody.
Qed.

Lemma data_of_body (a : OpenAICompatible) (payloads : list string) (finished : bool) :
  Forall one_line payloads →
  let text := events payloads +:+ (if finished then event_text "[DONE]" else "") in
  strings.len text < Z.min (MaxResponseBytes (config a)) max_line →
  until_done (body_data a (mkHTTPResponse 200 text None)) = (payloads, finished).
Proof.
  intros Hp text Hlen. subst text. unfold body_data, LimitReader. cbn [body].
  rewrite (proj2 (Z.ltb_lt _ _)) by lia. cbn [fst].
  pose proof (scan_events max_line payloads (if finished then event_text "[DONE]" else "") Hp ltac:(lia)) as Hs.
  destruct (bufio.scan max_line (strings.chars (if finished then _ else _)) [] 0) as [ls long] eqn:Htail.
  destruct Hs as (lines & -> & Hom). cbn [fst]. rewrite Hom, until_done_payloads by done.
  assert (until_done (omap line_data ls) = ([], finished)) as ->; [|by rewrite app_nil_r].
  apply (f_equal fst) in Htail. cbn [fst] in Htail. subst ls. destruct finished; vm_compute; reflexivity.
Qed.

Lemma events_chunks (model : string) (chunks : list Chunk) (payloads : list string) :
  Forall2 (payload_of model) chunks payloads →
  let es := (λ c, openai.mkEvent [(chunk_Content c, chunk_FinishReason c)] None) <$> chunks in
  Forall2 (λ d event, decode_event d = Ok event) payloads es ∧ omap event_chunk es = chunks ∧
  ∀ usage, foldl event_usage usage es = usage.
Proof.
  induction 1 as [|c p chunks payloads [_ Hd] Hall (IH1 & IH2 & IH3)]; [by split_and!|].
  split_and!.
  - by constructor.
  - change (mkChunk (chunk_Content c) (chunk_FinishReason c) ::
      omap event_chunk ((λ c, openai.mkEvent [(chunk_Content c, chunk_FinishReason c)] None) <$> chunks) = c :: chunks).
    rewrite IH2. by destruct c.
  - intros usage. apply IH3.
Qed.

(** C20 (roundtrip): what the mock service streams, the adapter reads back. If no write of
    the service fails, the body is shorter than both of the adapter's limits
    ([MaxResponseBytes] and the scanner's 1 MiB for a line), and the chunks are UTF-8 text
    (as everything is that was decoded from a JSON request), then its caller gets exactly
    the chunks that the mock provider emitted, in order; the adapter succeeds exactly if the mock's stream did,
    and after a failed one it reports an error that is retryable exactly if no text was
    delivered. The usage is lost on the way: the service drops it, so that the adapter
    reports zero tokens, at zero cost. *)
Theorem mock_stream_roundtrip (io io' : IO) (r : http.Request) (input : request.ChatInput)
  (w w' : World) (query : CompletionRequest) (a : OpenAICompatible) :
  http.sent (out w) = None → http.body (out w) = "" → (∀ n, http.broken (out w) n = None) →
  Forall text_chunk (run_stream (scripted (λ _, None))
    (mock_Stream io (provider_input r input) (mock w)).1 (0%nat, [])).2.2 →
  complete_stream io r input w = (Ok (), w') →
  call io' query true a = Ok (mkHTTPResponse 200 (http.body (out w')) None) →
  strings.len (http.body (out w')) < Z.min (MaxResponseBytes (config a)) max_line →
  ∃ served chunks got,
    run_stream (scripted (λ _, None)) (mock_Stream io (provider_input r input) (mock w)).1 (0%nat, []) =
      (served, (length chunks, chunks)) ∧
    run_stream (scripted (λ _, None)) (Stream io' query a).1 (0%nat, []) = (got, (length chunks, chunks)) ∧
    match served with
    | Ok _ => got = Ok (request.mkUsage 0 0 0)
    | Err _ => ∃ e, got = Err e ∧ (IsRetryable e = true ↔ delivered chunks = "")
    | Panic _ => False
    end.
Proof.
  intros Hs Hb Hbr Htext Hrun Hcall Hlen.
  destruct (served_stream io r input w w' Hs Hb Hbr Htext Hrun) as (served & chunks & payloads & Hserved & Hall & Hbody).
  assert (Forall one_line payloads) as Hp.
  { clear - Hall H1. induction Hall; constructor; [by eapply payload_one_line|done]. }
  destruct (events_chunks _ _ _ Hall) as (Hdec & Hchunks & Husage).
  destruct served as [u|e|why]; [| |done]; rewrite Hbody in Hcall, Hlen.
  - destruct (stream_exact io' query a _ _ payloads true Hcall
      (data_of_body a payloads true Hp Hlen) Hdec) as (got & Hgot & Hok).
    rewrite Hchunks, Husage in *. by exists (Ok u), chunks, got.
  - rewrite <- (string_app_nil_r (events payloads)) in Hcall, Hlen.
    destruct (stream_exact io' query a _ _ payloads false Hcall
      (data_of_body a payloads false Hp Hlen) Hdec) as (got & Hgot & Herr).
    rewrite Hchunks in *. by exists (Err e), chunks, got.
Qed.
End Wire.

(** ** A concrete run *)

(** Events whose texts are written bit by bit: any content is encoded on one line. *)
Definition bit (b : bool) : ascii := if b then "1"%char else "0"%char.
Definition bits (c : ascii) : list ascii :=
  match c with Ascii a b c d e f g h => [bit a; bit b; bit c; bit d; bit e; bit f; bit g; bit h] end.
Definition encode_text (l : list ascii) : list ascii := concat (bits <$> l).
Definition one (c : ascii) : bool := Ascii.eqb c "1"%char.
Fixpoint decode_text (l : list ascii) : list ascii * list ascii :=
  match l with
  | "|"%char :: rest => ([], rest)
  | a :: b :: c :: d :: e :: f :: g :: h :: rest =>
    let '(text, rest) := decode_text rest in
    (Ascii (one a) (one b) (one c) (one d) (one e) (one f) (one g) (one h) :: text, rest)
  | _ => ([], [])
  end.

Lemma decode_encode_text (l rest : list ascii) : decode_text (encode_text l ++ "|"%char :: rest) = (l, rest).
Proof.
  induction l as [|[a b c d e f g h] l IH]; [done|]. unfold encode_text in *. rewrite fmap_cons. cbn [concat].
  rewrite <- app_assoc. cbn [bits app].
  assert (∀ t, decode_text (bit a :: bit b :: bit c :: bit d :: bit e :: bit f :: bit g :: bit h :: t) =
    let '(text, rest) := decode_text t in (Ascii a b c d e f g h :: text, rest)) as ->
    by (intros t; by destruct a, b, c, d, e, f, g, h).
  by rewrite IH.
Qed.

Definition bits_event (event : mock_api.Event) : string :=
  strings.of_chars (["{"%char] ++
    (encode_text (strings.chars (ev_content event)) ++ ["|"%char] ++
     encode_text (strings.chars (default "" (ev_finish event))) ++ ["|"%char]) ++ ["}"%char]).
Definition event_bits (payload : string) : res openai.Event :=
  let '(content, rest) := decode_text (drop 1 (strings.chars payload)) in
  let '(finish, _) := decode_text rest in
  Ok (openai.mkEvent [(strings.of_chars content, strings.of_chars finish)] None).

Definition streaming_input : request.ChatInput :=
  request.mkChatInput "m" [request.mkMessage "user" "hi"] None 0 true None.
#[local] Instance codec : mock_api.Codec := {|
  decode_chat := λ _ _, Ok streaming_input;
  encode_response := λ _, "";
  encode_event := λ e, Ok (bits_event e)
|}.
Definition post : http.Request := http.mkRequest "POST" "/v1/chat/completions" "/v1/chat/completions" [] "" 0 [] [] None.
Definition fresh : World :=
  mkWorld (NewMock (mkMockConfig "" [] 0 0 "")) (http.new_writer (λ _, None)).
Definition handled : World := (complete (quiet 0 []) http.background post fresh).2.

(** A network that leads to the mock service. *)
#[local] Instance network : Transport := {|
  check_url := λ _, Ok ();
  do_request := λ _ _ _, Ok (mkHTTPResponse 200 (http.body (out handled)) None);
  ctx_deadline := λ _, None;
  clock_after := io_now;
  encode_payload := λ _, Ok "";
  decode_answer := λ _ _, Err (New "not used");
  decode_event := event_bits
|}.

Lemma bit_lf (l : list ascii) : "010"%char ∉ encode_text l.
Proof.
  unfold encode_text. induction l as [|[a b c d e f g h] l IH]; [apply not_elem_of_nil|].
  rewrite fmap_cons. cbn [concat bits app]. 
  rewrite !not_elem_of_cons. split_and!; try exact IH.
  all: match goal with |- _ ≠ bit ?x => by destruct x end.
Qed.

#[local] Instance agree : Agree.
Proof.
  split.
  - intros model chunk _. eexists. split; [reflexivity|].
    change (event_bits (bits_event (mock_api.mkEvent model (chunk_Content chunk)
      (nilIfBlank (chunk_FinishReason chunk)))) =
      Ok (openai.mkEvent [(chunk_Content chunk, chunk_FinishReason chunk)] None)).
    unfold event_bits, bits_event. rewrite chars_of_chars. cbn [ev_content ev_finish].
    match goal with |- context [drop 1 (["{"%char] ++ ?l)] => change (drop 1 (["{"%char] ++ l)) with l end.
    rewrite <- !app_assoc. change (["|"%char] ++ ?l) with ("|"%char :: l).
    rewrite decode_encode_text. cbn [app]. rewrite decode_encode_text, !of_chars_chars. unfold nilIfBlank.
    destruct (String.eqb_spec (chunk_FinishReason chunk) "") as [->|]; done.
  - intros event payload [= <-]. eexists. unfold bits_event. rewrite chars_of_chars. split; [reflexivity|].
    rewrite !elem_of_app, !list_elem_of_singleton. intros [H|[H|[H|H]]]; try done; by apply bit_lf in H.
Qed.

Definition adapter : OpenAICompatible :=
  mkOpenAI (mkOpenAIConfig "mock" "http://mock" "" [] [] time.Second 100000).

Lemma provider_run :
  let x := run_stream (scripted (λ _, None))
             (mock_Stream (quiet 0 []) (provider_input post streaming_input) (mock fresh)).1 (0%nat, []) in
  (match x.1 with Ok _ => true | _ => false end, delivered x.2.2) = (true, "Deterministic response to: hi").
Proof. vm_compute. reflexivity. Qed.

Lemma mock_stream_roundtrip_witness :
  ∃ chunks,
    run_stream (scripted (λ _, None))
      (Stream (quiet 0 []) (mkCompletionRequest "r" "m" [] None 0) adapter).1 (0%nat, []) =
      (Ok (request.mkUsage 0 0 0), (length chunks, chunks)) ∧
    delivered chunks = "Deterministic response to: hi".
Proof.
  destruct (mock_stream_roundtrip (quiet 0 []) (quiet 0 []) post streaming_input fresh handled
    (mkCompletionRequest "r" "m" [] None 0) adapter) as (served & chunks & got & Hserved & Hgot & Hok).
  - reflexivity.
  - reflexivity.
  - reflexivity.
  - vm_compute. repeat constructor.
  - vm_compute. reflexivity.
  - reflexivity.
  - vm_compute. reflexivity.
  - exists chunks.
    pose proof provider_run as Hp. rewrite Hserved in Hp. cbn [fst snd] in Hp. injection Hp as Hs Hd.
    destruct served as [u|e|why]; [|discriminate Hs..]. rewrite Hok in Hgot. split; [exact Hgot|exact Hd].
Defined.
End mock_wire.
