(* ===== verification/App.v ===== *)
(** * App: health, version and the life of a process

    Models [internal/health/health.go] (module [health]), [internal/version/version.go]
    (module [version]) and [internal/app/run.go] (module [app]): the readiness endpoint,
    the access log, and the order of start-up and shutdown that all services share. *)

From Stdlib Require Import Ascii.
From S2P Require Import Prelude Golib Auth Http Mux Observability.

(** ** Package health *)

Module health.
Import http.

(** [atomic.Bool]. *)
Record State : Type := mkState { ready : bool }.
Definition NewState : State := mkState false.
Definition SetReady (b : bool) (s : State) : State := mkState b.
Definition IsReady (s : State) : bool := ready s.

Section Handlers.
Context {W : Type} `{Exchange W}.
(** The JSON encoder on the document with this status. *)
Context (encode_status : string → string).

Definition writeJSON (status : Z) (value : string) : M W unit :=
  _ ← modify (set_header "Content-Type" "application/json");
  _ ← modify (set_header "Cache-Control" "no-store");
  _ ← modify (WriteHeader status);
  write (encode_status value).

Definition Live (s : State) : M W unit := writeJSON 200 "alive".
Definition Ready (s : State) : M W unit :=
  if negb (IsReady s) then writeJSON 503 "not_ready" else writeJSON 200 "ready".
End Handlers.
End health.

(** ** Package version *)

Module version.
Record Info : Type := mkInfo {
  Version : string;
  Commit : string;
  BuildTime : string;
  GoVersion : string
}.
(** The variables, which the linker may set, and [runtime.Version()]. *)
Definition Current (version commit buildTime runtime : string) : Info :=
  mkInfo version commit buildTime runtime.
End version.

(** ** Package app *)

Module app.
Import http.

Section Handlers.
Context {W : Type} `{Exchange W}.
Context (encode_status : string → string) (encode_version : version.Info → string).

(** GET /health/ready. The state is read twice, before and after the check of the
    dependencies, which takes up to two seconds: [first] and [second]. *)
Definition readiness (first second : health.State) (readyCheck : option (option error)) : M W unit :=
  if negb (health.IsReady first) then health.Ready encode_status first
  else match readyCheck with
       | Some (Some err) =>
         _ ← modify (set_header "Content-Type" "application/json");
         _ ← modify (WriteHeader 503);
         write (encode_status "dependency_unready")
       | _ => health.Ready encode_status second
       end.

Definition versionHandler (current : version.Info) : M W unit :=
  _ ← modify (set_header "Content-Type" "application/json");
  _ ← modify (set_header "Cache-Control" "no-store");
  write (encode_version current).

Definition nl : string := strings.of_chars ["010"%char].
Definition baseMetricsHandler : M W unit :=
  _ ← modify (set_header "Content-Type" "text/plain; version=0.0.4");
  write ("# HELP aegis_build_info Static build information." +:+ nl +:+
         "# TYPE aegis_build_info gauge" +:+ nl +:+ "aegis_build_info 1" +:+ nl).
End Handlers.

(** *** The access log *)

Definition outcome (status : Z) : string :=
  if 500 <=? status then "server_error" else if 400 <=? status then "client_error" else "success".

Section Server.
Context {W : Type} `{Exchange W}.
Import served observability.
#[local] Abbreviation S := (Served (Process W)).
Context (encode_status : string → string) (encode_version : version.Info → string) (redirect_page : string → string).
(** The text of a time in a log line. *)
Context (timestamp : time.Time → string).

Definition log (l : option Line) (s : S) : S :=
  set_base (mkProcess (service (base s)) (metrics (base s)) (lines (base s) ++ option_list l)) s.

(** [accessLog] with [responseRecorder] around the writer; the identifiers are those the
    handlers put into the response's header. A panic passes through without a line. *)
Definition accessLog (logger : Logger) (started finished : time.Time) (next : Handler S) : Handler S := λ ctx r s,
  let '(out, s, status) := recorded next ctx r s in
  match out with
  | Panic _ => (out, s)
  | _ =>
    (out, log (emit logger LevelInfo (timestamp finished) "INFO" "http request"
       [("operation", AString "http.request"); ("method", AString (Method r)); ("path", AString (Path r));
        ("status", AInt status);
        ("request_id", AString (default "" (header (writer s) !! "X-Request-ID")));
        ("correlation_id", AString (default "" (header (writer s) !! "X-Correlation-ID")));
        ("duration_ms", AInt (time.Milliseconds (time.Sub finished started)));
        ("outcome", AString (outcome status))]) s)
  end.

(** *** Routes *)

(** The routes every process has, and the service's own behind them. The readiness state
    is read at the points [first] and [second]. *)
Definition routes (first second : health.State) (readyCheck : option (option error)) (current : version.Info)
  (business metricsHandler : option (Handler S)) : list mux.Route :=
  [(mux.parsePattern "GET /health/live", λ _ _, health.Live encode_status first);
   (mux.parsePattern "GET /health/ready", λ _ _, readiness encode_status first second readyCheck);
   (mux.parsePattern "GET /version", λ _ _, versionHandler encode_version current);
   (mux.parsePattern "GET /metrics", default (λ _ _, baseMetricsHandler) metricsHandler)] ++
  match business with Some h => [(mux.parsePattern "/", h)] | None => [] end.

(** The handler of the server. *)
Definition server (logger : Logger) (started finished : time.Time) (rs : list mux.Route) : Handler S :=
  accessLog logger started finished (mux.ServeHTTP redirect_page rs).
End Server.

(** *** Serving *)

(** What a process does, in order. *)
Inductive event : Type :=
| EReady (b : bool)
| EShutdown
| ECloseDependencies
| EClose.

(** How serving ends: by a signal, or by [ListenAndServe] (nil if it closed). *)
Inductive stop : Type := Signal | Listen (err : option error).

(** [Serve] after the server has been started: the results of [Shutdown] and of
    [closeDependencies], which may be nil, are given. *)
Definition Serve (ended : stop) (shutdown : option error) (closeDependencies : option (option error))
  : option error * list event :=
  match ended with
  | Listen (Some err) => (Some (Wrap "serve HTTP" err), [EReady true])
  | _ =>
    let serverErr :=
      match closeDependencies, shutdown with
      | Some (Some err), None => Some err
      | _, _ => shutdown
      end in
    let trace := [EReady true; EReady false; EShutdown] ++
                 (match closeDependencies with Some _ => [ECloseDependencies] | None => [] end) in
    match serverErr with
    | Some err => (Some (Wrap "graceful shutdown" err), trace ++ [EClose])
    | None => (None, trace)
    end
  end.

(** ** Properties *)

(** The readiness a load balancer sees at a point of a trace. *)
Definition ready_after (trace : list event) : bool :=
  foldl (λ b e, match e with EReady b' => b' | _ => b end) (health.IsReady health.NewState) trace.

(** The shutdown order: when the server starts to drain, and when the dependencies are
    closed, the process reports itself unready; the dependencies are closed only after
    the server has drained, so no handler runs without them; and [Serve] fails exactly
    if listening, draining or closing did. *)
Lemma shutdown_order (ended : stop) (shutdown : option error) (close : option (option error))
  (before after : list event) (e : event) :
  (Serve ended shutdown close).2 = before ++ e :: after → e ≠ EReady true →
  ready_after (before ++ [e]) = false ∧
  (e = ECloseDependencies → EShutdown ∈ before) ∧ (e = EClose → EShutdown ∈ before).
Proof.
  destruct ended as [|[err|]], shutdown as [err'|], close as [[err''|]|]; simpl; intros Ht He;
    destruct before as [|? [|? [|? [|? [|? before]]]]]; simplify_eq/=;
    first [done | by destruct before | split_and!; [done|intros ?; simplify_eq/=; set_solver..]].
Qed.

Lemma Serve_error (ended : stop) (shutdown : option error) (close : option (option error)) :
  (Serve ended shutdown close).1 = None ↔
  (∀ e, ended ≠ Listen (Some e)) ∧ shutdown = None ∧ (∀ e, close ≠ Some (Some e)).
Proof.
  destruct ended as [|[err|]], shutdown as [err'|], close as [[err''|]|]; simpl; naive_solver.
Qed.

(** The endpoint says ready only if the process was ready when asked and after the
    check, and the check passed. *)
Lemma readiness_exact (encode : string → string) (first second : health.State)
  (check : option (option error)) (w : Writer) :
  sent w = None →
  ∃ s h, sent (readiness encode first second check w).2 = Some (s, h) ∧
    (s = 200 ∧ health.ready first = true ∧ health.ready second = true ∧ (∀ e, check ≠ Some (Some e)) ∨
     s = 503 ∧ ¬ (health.ready first = true ∧ health.ready second = true ∧ (∀ e, check ≠ Some (Some e)))).
Proof.
  intros Hs. unfold readiness, health.IsReady.
  assert (∀ s m, ∃ h, sent ((_ ← modify (set_header "Content-Type" "application/json");
             _ ← modify (set_header "Cache-Control" "no-store"); _ ← modify (WriteHeader s); write m) w).2 =
           Some (s, h)) as Hj.
  { intros s m. unfold mbind, M_bind, modify, write, act, Write, WriteHeader, send. simpl. rewrite Hs. simpl.
    destruct (broken w _); by eexists. }
  assert (∃ h, sent ((_ ← modify (set_header "Content-Type" "application/json");
             _ ← modify (WriteHeader 503); write (encode "dependency_unready")) w).2 = Some (503, h)) as [h Hd].
  { unfold mbind, M_bind, modify, write, act, Write, WriteHeader, send. simpl. rewrite Hs. simpl.
    destruct (broken w _); by eexists. }
  destruct first as [[]], second as [[]], check as [[e|]|]; simpl;
    try (eexists _, h; split; [exact Hd|right; naive_solver]);
    try (destruct (Hj 200 (encode "ready")) as [h' Hh]; eexists _, h'; split; [exact Hh|left; naive_solver]);
    try (destruct (Hj 503 (encode "not_ready")) as [h' Hh]; eexists _, h'; split; [exact Hh|right; naive_solver]).
Qed.
End app.
