(* ===== verification/Serving.v ===== *)
(** * Serving: the life of an HTTP process

    [Serve] of [src/internal/app/run.go] with its goroutines: the listener, the
    handlers of the connections, the signal, and the main goroutine that waits,
    drains, and closes the dependencies. [net/http]'s server is modelled as its
    documentation and the use made of it require: [Shutdown] closes the listener,
    then closes idle connections until there is none left or its context ends;
    [ListenAndServe] returns [ErrServerClosed] once it was called. *)

From S2P Require Import Prelude Golib Http Mux Observability App.

Module serving.
Import app.

(** A connection: accepted, kept alive between requests, or with a handler running. *)
Inductive conn : Type := CNew | CIdle | CActive.
Definition active (c : conn) : bool := match c with CActive => true | _ => false end.

(** The goroutine of the listener: before and inside [ListenAndServe], about to send
    its error, about to close the channel, gone. *)
Inductive listener : Type := LStart | LServe | LSend (err : error) | LClose | LDone.

(** The main goroutine: before [SetReady(true)], in the select, before
    [SetReady(false)], before and inside [Shutdown] (with the error of closing the
    listener), before [closeDependencies] and after it with [serverErr], returned. *)
Inductive main : Type :=
| MStart
| MSelect
| MUnready
| MShutdown
| MDraining (lnerr : option error)
| MCloseDeps (serverErr : option error)
| MFinish (serverErr : option error)
| MReturned (err : option error).

(** [buffer] and [closed] are [errCh], [drained] records that [Shutdown] found no
    connection left, and [trace] what the main goroutine has done. *)
Record State : Type := mkState {
  ready : bool;
  signalled : bool;
  inShutdown : bool;
  listening : bool;
  conns : list conn;
  buffer : option error;
  closed : bool;
  goroutine : listener;
  at_ : main;
  dependencies : bool;
  drained : bool;
  trace : list event
}.

Definition start : State :=
  mkState (health.IsReady health.NewState) false false false [] None false LStart MStart true false [].

(** Updates of the parts. *)
Definition with_main (m : main) (es : list event) (s : State) : State :=
  mkState (ready s) (signalled s) (inShutdown s) (listening s) (conns s) (buffer s) (closed s)
    (goroutine s) m (dependencies s) (drained s) (trace s ++ es).
Definition with_ready (b : bool) (s : State) : State :=
  mkState b (signalled s) (inShutdown s) (listening s) (conns s) (buffer s) (closed s) (goroutine s)
    (at_ s) (dependencies s) (drained s) (trace s ++ [EReady b]).
Definition with_conns (l : list conn) (s : State) : State :=
  mkState (ready s) (signalled s) (inShutdown s) (listening s) l (buffer s) (closed s) (goroutine s)
    (at_ s) (dependencies s) (drained s) (trace s).
Definition with_listener (g : listener) (listen : bool) (buf : option error) (cl : bool) (s : State) : State :=
  mkState (ready s) (signalled s) (inShutdown s) listen (conns s) buf cl g (at_ s) (dependencies s)
    (drained s) (trace s).
Definition signal (s : State) : State :=
  mkState (ready s) true (inShutdown s) (listening s) (conns s) (buffer s) (closed s) (goroutine s)
    (at_ s) (dependencies s) (drained s) (trace s).
Definition begin_shutdown (s : State) : State :=
  mkState (ready s) (signalled s) true false (conns s) (buffer s) (closed s) (goroutine s)
    (at_ s) (dependencies s) (drained s) (trace s).
Definition take_error (s : State) : State :=
  mkState (ready s) (signalled s) (inShutdown s) (listening s) (conns s) None (closed s) (goroutine s)
    (at_ s) (dependencies s) (drained s) (trace s).
Definition set_drained (s : State) : State :=
  mkState (ready s) (signalled s) (inShutdown s) (listening s) [] (buffer s) (closed s) (goroutine s)
    (at_ s) (dependencies s) true (trace s).
Definition close_dependencies (s : State) : State :=
  mkState (ready s) (signalled s) (inShutdown s) (listening s) (conns s) (buffer s) (closed s) (goroutine s)
    (at_ s) false (drained s) (trace s).

(** What one poll of [Shutdown] leaves: idle connections are closed, new ones once
    they are old enough, active ones are waited for. *)
Definition polled (before after : list conn) : Prop :=
  (after `sublist_of` before) ∧ (CIdle ∉ after) ∧ count active after = count active before.

(** [serverErr] after [closeDependencies]. *)
Definition combine (serverErr closeErr : option error) : option error :=
  match serverErr with Some e => Some e | None => closeErr end.

Section Machine.
(** Whether there is a [closeDependencies]. *)
Context (has_close : bool).

(** The steps of the main goroutine. *)
Inductive main_step : State → State → Prop :=
| m_ready s : at_ s = MStart → main_step s (with_main MSelect [] (with_ready true s))
| m_signal s : at_ s = MSelect → signalled s = true → main_step s (with_main MUnready [] s)
| m_error s e : at_ s = MSelect → buffer s = Some e →
    main_step s (with_main (MReturned (Some (Wrap "serve HTTP" e))) [] (take_error s))
| m_closed s : at_ s = MSelect → buffer s = None → closed s = true → main_step s (with_main MUnready [] s)
| m_unready s : at_ s = MUnready → main_step s (with_main MShutdown [] (with_ready false s))
| m_shutdown s lnerr : at_ s = MShutdown →
    main_step s (with_main (MDraining lnerr) [EShutdown] (begin_shutdown s))
| m_poll s lnerr l : at_ s = MDraining lnerr → polled (conns s) l → l ≠ [] →
    main_step s (with_conns l s)
| m_drained s lnerr : at_ s = MDraining lnerr → polled (conns s) [] →
    main_step s (with_main (MCloseDeps lnerr) [] (set_drained s))
| m_timeout s lnerr err : at_ s = MDraining lnerr →
    main_step s (with_main (MCloseDeps (Some err)) [] s)
| m_close s serverErr closeErr : at_ s = MCloseDeps serverErr → has_close = true →
    main_step s (with_main (MFinish (combine serverErr closeErr)) [ECloseDependencies] (close_dependencies s))
| m_no_close s serverErr : at_ s = MCloseDeps serverErr → has_close = false →
    main_step s (with_main (MFinish serverErr) [] s)
| m_fail s e : at_ s = MFinish (Some e) →
    main_step s (with_main (MReturned (Some (Wrap "graceful shutdown" e))) [EClose]
                   (with_conns (List.filter active (conns s)) s))
| m_done s : at_ s = MFinish None → main_step s (with_main (MReturned None) [] s).

(** Everybody else: the listener's goroutine, connections and handlers, the operating
    system. The process ends when [Serve] returns. *)
Inductive other_step : State → State → Prop :=
| o_signal s : other_step s (signal s)
| l_listen s : goroutine s = LStart → inShutdown s = false →
    other_step s (with_listener LServe true (buffer s) (closed s) s)
| l_refused s e : goroutine s = LStart → inShutdown s = false →
    other_step s (with_listener (LSend e) false (buffer s) (closed s) s)
| l_broken s e : goroutine s = LServe → inShutdown s = false →
    other_step s (with_listener (LSend e) false (buffer s) (closed s) s)
| l_closed s : goroutine s = LStart ∨ goroutine s = LServe → inShutdown s = true →
    other_step s (with_listener LClose (listening s) (buffer s) (closed s) s)
| l_send s e : goroutine s = LSend e → buffer s = None →
    other_step s (with_listener LClose (listening s) (Some e) (closed s) s)
| l_close s : goroutine s = LClose → other_step s (with_listener LDone (listening s) (buffer s) true s)
| c_accept s : listening s = true → other_step s (with_conns (conns s ++ [CNew]) s)
| c_start s i c : conns s !! i = Some c → c ≠ CActive → other_step s (with_conns (<[i := CActive]> (conns s)) s)
| c_idle s i : conns s !! i = Some CActive → inShutdown s = false →
    other_step s (with_conns (<[i := CIdle]> (conns s)) s)
| c_end s i : is_Some (conns s !! i) → other_step s (with_conns (delete i (conns s)) s).

Inductive step (s s' : State) : Prop :=
| step_main : main_step s s' → step s s'
| step_other : (∀ r, at_ s ≠ MReturned r) → other_step s s' → step s s'.

Definition reachable (s : State) : Prop := rtc step start s.

(** ** Invariant *)

(** The channel holds an error unless the server was shut down or nothing happened to
    the listener yet. *)
Definition channel_inv (s : State) : Prop :=
  match goroutine s with
  | LStart | LServe | LSend _ => buffer s = None ∧ closed s = false
  | LClose => closed s = false
  | LDone => True
  end ∧
  (goroutine s = LClose ∨ goroutine s = LDone →
   is_Some (buffer s) ∨ inShutdown s = true ∨ ∃ r, at_ s = MReturned r).

Definition running (s : State) (es : list event) : Prop :=
  inShutdown s = false ∧ dependencies s = true ∧ trace s = es.
Definition stopping (s : State) (es : list event) : Prop :=
  ready s = false ∧ inShutdown s = true ∧ signalled s = true ∧
  trace s = [EReady true; EReady false; EShutdown] ++ es.

(** The trace of the closing. *)
Definition closing (close : option (option error)) : list event :=
  match close with Some _ => [ECloseDependencies] | None => [] end.
Definition server_error (shutdown : option error) (close : option (option error)) : option error :=
  match close with Some closeErr => combine shutdown closeErr | None => shutdown end.

Definition main_inv (s : State) : Prop :=
  match at_ s with
  | MStart => running s []
  | MSelect => running s [EReady true]
  | MUnready => running s [EReady true] ∧ signalled s = true
  | MShutdown => running s [EReady true; EReady false] ∧ signalled s = true ∧ ready s = false
  | MDraining _ => stopping s [] ∧ dependencies s = true
  | MCloseDeps err => stopping s [] ∧ dependencies s = true ∧ (drained s = false → is_Some err)
  | MFinish err => ∃ shutdown close, stopping s (closing close) ∧ err = server_error shutdown close ∧
                                     (drained s = false → is_Some shutdown)
  | MReturned r => ∃ ended shutdown close, Serve ended shutdown close = (r, trace s) ∧
      ((∃ e, ended = Listen (Some e)) ∧ dependencies s = true ∨
       ended = Signal ∧ ready s = false ∧ inShutdown s = true ∧ signalled s = true ∧
       (drained s = false → is_Some shutdown))
  end.

Record Inv (s : State) : Prop := {
  inv_channel : channel_inv s;
  inv_listening : listening s = true → inShutdown s = false;
  inv_drained : drained s = true → inShutdown s = true ∧ conns s = [];
  inv_main : main_inv s
}.

Lemma start_inv : Inv start.
Proof. split; [|done|done|done]. split; [done|]. by intros [?|?]. Qed.

Lemma Serve_graceful (shutdown : option error) (close : option (option error)) :
  Serve Signal shutdown close =
  match server_error shutdown close with
  | Some e => (Some (Wrap "graceful shutdown" e),
               [EReady true; EReady false; EShutdown] ++ closing close ++ [EClose])
  | None => (None, [EReady true; EReady false; EShutdown] ++ closing close)
  end.
Proof. by destruct shutdown as [?|], close as [[?|]|]. Qed.

Lemma polled_empty (l : list conn) : polled [] l → l = [].
Proof. intros [Hs _]. by apply sublist_nil_r in Hs. Qed.

Lemma channel_keep (s s' : State) :
  goroutine s' = goroutine s → buffer s' = buffer s → closed s' = closed s →
  (inShutdown s = true → inShutdown s' = true) → (∀ r, at_ s ≠ MReturned r) →
  channel_inv s → channel_inv s'.
Proof.
  intros Hg Hb Hc Hi Hat [H1 H2]. unfold channel_inv. rewrite Hg, Hb, Hc. split; [done|].
  intros [?|[?|[r Hr]]]%H2; [by left|right; left; auto|by destruct (Hat r)].
Qed.

(** The select never sees the channel closed without an error. *)
Lemma select_open (s : State) :
  channel_inv s → at_ s = MSelect → inShutdown s = false → buffer s = None → closed s = true → False.
Proof.
  intros [H1 H2] Hat Hi Hb Hc. destruct (goroutine s); try (destruct H1; congruence); [congruence|].
  destruct H2 as [[? ?]|[?|[r ?]]]; [by right|congruence..].
Qed.

Lemma main_step_channel (s s' : State) : main_step s s' → channel_inv s → channel_inv s'.
Proof.
  intros Hstep. assert (∀ r, at_ s ≠ MReturned r) as Hat by (destruct Hstep; congruence).
  destruct Hstep; try (by apply channel_keep). intros [H1 _]. split; [|intros _; right; right; by eexists].
  simpl. destruct (goroutine s); [by destruct H1..|done|done].
Qed.

Lemma main_step_main (s s' : State) :
  main_step s s' → channel_inv s → main_inv s → main_inv s'.
Proof.
  intros Hstep Hch Hm. unfold main_inv in Hm.
  destruct Hstep as [s Hat|s Hat Hsig|s e Hat Hb|s Hat Hb Hcl|s Hat|s lnerr Hat|s lnerr l Hat Hp Hne
    |s lnerr Hat Hp|s lnerr err Hat|s err cerr Hat Hh|s err Hat Hh|s e Hat|s Hat]; rewrite Hat in Hm;
    unfold main_inv; cbn [at_ with_main with_conns]; rewrite ?Hat; [| | | | | |exact Hm|..].
  - destruct Hm as (? & ? & Ht). split_and!; [done|done|]. simpl. by rewrite Ht.
  - destruct Hm as (? & ? & Ht). split; [|done]. split_and!; [done|done|]. simpl. by rewrite app_nil_r.
  - destruct Hm as (? & ? & Ht). exists (Listen (Some e)), None, None. simpl. rewrite Ht. split; [done|].
    left. eauto.
  - exfalso. eapply select_open; [done..|apply Hm|done|done].
  - destruct Hm as ((? & ? & Ht) & ?). split_and!; [|done|done]. split_and!; [done|done|]. simpl. by rewrite Ht.
  - destruct Hm as ((Hin & ? & Ht) & Hsig & Hr). split; [|done]. split_and!; [done..|]. simpl. by rewrite Ht.
  - destruct Hm as ((? & ? & ? & Ht) & ?). split_and!; [|done|done]. split_and!; [done..|]. simpl. by rewrite Ht.
  - destruct Hm as ((? & ? & ? & Ht) & ?). split_and!; [|done|by eexists]. split_and!; [done..|]. simpl. by rewrite Ht.
  - destruct Hm as ((? & ? & ? & Ht) & ? & He). exists err, (Some cerr). split_and!; [|done|done].
    split_and!; [done..|]. simpl. by rewrite Ht.
  - destruct Hm as ((? & ? & ? & Ht) & ? & He). exists err, None. split_and!; [|done|done].
    split_and!; [done..|]. simpl. by rewrite Ht.
  - destruct Hm as (shutdown & close & (? & ? & ? & Ht) & Herr & He). exists Signal, shutdown, close.
    rewrite Serve_graceful, <- Herr. simpl. rewrite Ht. split; [by simplify_list_eq|]. by right.
  - destruct Hm as (shutdown & close & (? & ? & ? & Ht) & Herr & He). exists Signal, shutdown, close.
    rewrite Serve_graceful, <- Herr. simpl. rewrite Ht. split; [by rewrite app_nil_r|]. by right.
Qed.

Lemma main_step_inv (s s' : State) : main_step s s' → Inv s → Inv s'.
Proof.
  intros Hstep [Hch Hl Hd Hm]. split; [by eapply main_step_channel| | |by eapply main_step_main].
  - destruct Hstep; simpl; auto; done.
  - destruct Hstep as [| | | | | |s lnerr l Hat Hp Hne|s lnerr Hat Hp| | | |s e Hat|]; simpl; try done.
    + intros Hdr. by destruct (Hd Hdr).
    + intros Hdr. destruct (Hd Hdr) as [? Hcn]. split; [done|]. rewrite Hcn in Hp. by apply polled_empty.
    + intros _. unfold main_inv in Hm. rewrite Hat in Hm. split; [apply Hm|done].
    + intros Hdr. by destruct (Hd Hdr) as [? ->].
Qed.

Lemma other_step_inv (s s' : State) :
  (∀ r, at_ s ≠ MReturned r) → other_step s s' → Inv s → Inv s'.
Proof.
  intros Hrun Hstep [Hch Hl Hd Hm].
  assert (main_inv s') as Hm'.
  { unfold main_inv, running, stopping in *. destruct Hstep; cbn in *; repeat case_match; naive_solver. }
  split; [| | |exact Hm'].
  - destruct Hch as [H1 H2]. unfold channel_inv.
    destruct Hstep as [s|s Hg Hi|s e Hg Hi|s e Hg Hi|s Hg Hi|s e Hg Hb|s Hg|s Hx|s i c Hx Hy|s i Hx Hi|s i Hx];
      cbn [goroutine buffer closed inShutdown at_ signal with_listener with_conns]; try (by split);
      try (rewrite Hg in H1; split; [done|by intros [?|?]]).
    + split; [destruct Hg as [Hg|Hg]; rewrite Hg in H1; apply H1|]. intros _. by right; left.
    + rewrite Hg in H1. split; [apply H1|]. intros _. left. by eexists.
    + split; [done|]. intros _. apply H2. by left.
  - destruct Hstep; simpl; auto; done.
  - destruct Hstep as [| | | | | | |s Hx|s i c Hx Hy|s i Hx Hi|s i Hx]; simpl; try done;
      intros Hdr; destruct (Hd Hdr) as [Hsh Hcn]; rewrite Hcn in *; try done.
    rewrite Hl in Hsh; done.
Qed.

Lemma serving_inv (s : State) : reachable s → Inv s.
Proof.
  intros Hs. unfold reachable in Hs. pose proof start_inv as Hinv. revert Hinv.
  induction Hs as [|s1 s2 s3 Hstep _ IH]; [done|]. intros Hinv. apply IH.
  destruct Hstep; [by eapply main_step_inv|by eapply other_step_inv].
Qed.

(** The main goroutine comes to its end by itself. *)
Definition ends (s : State) : Prop := ∃ s' r, rtc main_step s s' ∧ at_ s' = MReturned r.

Lemma ends_step (s s' : State) : main_step s s' → ends s' → ends s.
Proof. intros Hstep (s2 & r & Hsteps & Hr). exists s2, r. split; [by eapply rtc_l|done]. Qed.

Lemma told_to_stop (s : State) : signalled s = true → ends s.
Proof.
  intros Hsig.
  assert (∀ s r, at_ s = MReturned r → ends s) as H0 by (intros s0 r Hr; by exists s0, r).
  assert (∀ s err, at_ s = MFinish err → ends s) as H1.
  { intros s0 [e|] Hat; (eapply ends_step; [by constructor|]); by eapply H0. }
  assert (∀ s err, at_ s = MCloseDeps err → ends s) as H2.
  { intros s0 err Hat. destruct has_close eqn:Hh.
    - eapply ends_step; [by apply (m_close s0 err None)|]. by eapply H1.
    - eapply ends_step; [by apply (m_no_close s0 err)|]. by eapply H1. }
  assert (∀ s lnerr, at_ s = MDraining lnerr → ends s) as H3.
  { intros s0 lnerr Hat. eapply ends_step; [by apply (m_timeout s0 lnerr (New "deadline exceeded"))|]. by eapply H2. }
  assert (∀ s, at_ s = MShutdown → ends s) as H4.
  { intros s0 Hat. eapply ends_step; [by apply (m_shutdown s0 None)|]. by eapply H3. }
  assert (∀ s, at_ s = MUnready → ends s) as H5.
  { intros s0 Hat. eapply ends_step; [by apply m_unready|]. by apply H4. }
  assert (∀ s, at_ s = MSelect → signalled s = true → ends s) as H6.
  { intros s0 Hat Hs. eapply ends_step; [by apply m_signal|]. by apply H5. }
  destruct (at_ s) eqn:Hat; eauto. eapply ends_step; [by apply m_ready|]. by apply H6.
Qed.

(** C19 (safety): the shutdown of every process. In every interleaving of the listener,
    the connections, the signal and the main goroutine: the dependencies are closed only
    when the process is unready and no connection is accepted any more, and a handler
    can then still run only if draining ran into its deadline, in which case [Serve]
    ends with an error; once draining succeeded there is no connection and so no
    handler; [Serve] leaves its select only by a signal or by an error of the listener,
    and returns what the sequential reading of the code says for the results it met, with
    the same order of actions; and once the signal has come it can finish by itself,
    whatever the handlers do. *)
Theorem shutdown_safe (s : State) :
  reachable s →
  (dependencies s = false → ready s = false ∧ listening s = false ∧
     (CActive ∈ conns s → drained s = false ∧ ∃ err, at_ s = MFinish (Some err) ∨ at_ s = MReturned (Some err))) ∧
  (drained s = true → conns s = [] ∧ listening s = false) ∧
  (∀ r, at_ s = MReturned r → ∃ ended shutdown close, Serve ended shutdown close = (r, trace s) ∧
     (ended = Signal ∧ signalled s = true ∨ ∃ e, ended = Listen (Some e))) ∧
  (signalled s = true → ends s).
Proof.
  intros Hs%serving_inv. destruct Hs as [_ Hl Hd Hm].
  assert (inShutdown s = true → listening s = false) as Hclosed.
  { intros Hi. destruct (listening s); [|done]. rewrite Hl in Hi; done. }
  split_and!.
  - intros Hdep. unfold main_inv, running in Hm.
    destruct (at_ s) as [| | | | | |err|r]; try (destruct_and?; congruence).
    + destruct Hm as (shutdown & close & (Hr & Hi & _ & _) & -> & He). split_and!; [done|by auto|].
      intros Hact. destruct (drained s); [destruct (Hd eq_refl) as [_ Hc]; rewrite Hc in Hact; set_solver|].
      split; [done|]. destruct (He eq_refl) as [e ->]. destruct close; eexists; by left.
    + destruct Hm as (ended & shutdown & close & Hserve & [[_ ?]|(-> & Hr & Hi & _ & He)]); [congruence|].
      split_and!; [done|by auto|].
      intros Hact. destruct (drained s); [destruct (Hd eq_refl) as [_ Hc]; rewrite Hc in Hact; set_solver|].
      split; [done|]. destruct (He eq_refl) as [e ->]. rewrite Serve_graceful in Hserve.
      destruct close; injection Hserve as <- _; eexists; by right.
  - intros Hdr. destruct (Hd Hdr). auto.
  - intros r Hat. unfold main_inv in Hm. rewrite Hat in Hm. destruct Hm as (ended & shutdown & close & Hserve & Hc).
    exists ended, shutdown, close. split; [done|]. destruct Hc as [[He _]|(-> & _ & _ & Hsig & _)]; [by right|by left].
  - apply told_to_stop.
Qed.
End Machine.
End serving.

(** ** A drain that runs into its deadline

    A handler is still running when the dependencies are closed. *)
Module serving_demo.
Import app serving.

Definition late : error := New "context deadline exceeded".

Lemma reach_step (s1 s2 : State) : reachable true s1 → step true s1 s2 → reachable true s2.
Proof. intros H1 H2. unfold reachable in *. by eapply rtc_r. Qed.

Definition serving_one : State :=
  mkState true true false true [CActive] None false LServe MSelect true false [EReady true].
Lemma serving_one_reachable : reachable true serving_one.
Proof.
  eapply (reach_step (mkState true false false true [CActive] None false LServe MSelect true false [EReady true])).
  2: apply step_other; [done|apply (o_signal (mkState true false false true [CActive] None false LServe MSelect true false [EReady true]))].
  eapply (reach_step (mkState true false false true [CNew] None false LServe MSelect true false [EReady true])).
  2: apply step_other; [done|by apply (c_start (mkState true false false true [CNew] None false LServe MSelect true false [EReady true]) 0 CNew)].
  eapply (reach_step (mkState true false false true [] None false LServe MSelect true false [EReady true])).
  2: apply step_other; [done|by apply (c_accept (mkState true false false true [] None false LServe MSelect true false [EReady true]))].
  eapply (reach_step (mkState true false false false [] None false LStart MSelect true false [EReady true])).
  2: apply step_other; [done|by apply (l_listen (mkState true false false false [] None false LStart MSelect true false [EReady true]))].
  eapply (reach_step start); [apply rtc_refl|]. apply step_main. by apply (m_ready true start).
Qed.

Definition overrun : State :=
  mkState false true true false [CActive] None false LServe (MFinish (Some late)) false false
    [EReady true; EReady false; EShutdown; ECloseDependencies].
Lemma overrun_reachable : reachable true overrun.
Proof.
  eapply (eq_ind _ (reachable true)); [|shelve].
  eapply reach_step; [eapply reach_step; [eapply reach_step; [eapply reach_step; [eapply reach_step|]|]|]|].
  - exact serving_one_reachable.
  - by apply step_main, m_signal.
  - by apply step_main, m_unready.
  - by apply step_main, (m_shutdown true _ None).
  - by apply step_main, (m_timeout true _ None late).
  - by apply step_main, (m_close true _ (Some late) None).
  Unshelve. reflexivity.
Qed.

Lemma shutdown_safe_witness :
  reachable true overrun ∧ dependencies overrun = false ∧ CActive ∈ conns overrun ∧
  listening overrun = false ∧ ends true overrun.
Proof.
  split; [exact overrun_reachable|]. split; [reflexivity|]. split; [by left|].
  destruct (shutdown_safe true overrun overrun_reachable) as (Hdep & _ & _ & Hend).
  split; [exact (proj1 (proj2 (Hdep eq_refl)))|]. exact (Hend eq_refl).
Defined.
End serving_demo.
