(* ===== verification/Api.v ===== *)
(** * Api: the HTTP handlers

    Models [internal/api/gateway.go]: authentication and scopes, the chat handler with
    its server-sent events, the request endpoints, and the mapping of errors to problem
    documents, over the gateway service. *)

From Stdlib Require Import Ascii.
From S2P Require Import Prelude Golib Request Budget Auth Provider Routing RateLimit Store Gateway Regexp Http.

Module api.
Import http.
Export respond.

(** ** Encoders *)

(** The document of a request. *)
Record View : Type := mkView {
  v_id : string;
  v_model : string;
  v_status : request.State;
  v_stream : bool;
  v_partial : bool;
  v_failure : string;
  v_created : time.Time;
  v_updated : time.Time;
  v_completed : option time.Time;
  v_usage : request.Usage;
  v_cost : Z
}.

(** One event of a stream. *)
Record ChunkEvent : Type := mkChunkEvent {
  c_id : string;
  c_object : string;
  c_created : Z;
  c_model : string;
  c_content : string;
  c_finish : option string
}.

(** JSON: the decoder of a chat request (unknown fields refused) on a text with the
    read error after it, and the encoders. *)
Class Codec : Type := {
  codec_problem :: problem.Encoder;
  decode_chat : string → option error → res request.ChatInput;
  encode_response : request.ChatResponse → string;
  encode_view : View → string;
  encode_chunk : ChunkEvent → res string;
  encode_failure : string → string
}.

Definition nl : string := strings.of_chars ["010"%char].

(** ** The event stream *)

(** The client of a streaming request: its connection, the state of [sseWriter], and
    the clock at each write. *)
Record Client : Type := mkClient {
  out : Writer;
  started : bool;
  sse_requestID : string;
  sse_model : string;
  clock : nat → time.Time
}.
Definition set_out (w : Writer) (c : Client) : Client :=
  mkClient w (started c) (sse_requestID c) (sse_model c) (clock c).

Definition nilIfBlank (value : string) : option string := if value =s "" then None else Some value.

Section Stream.
Context `{Codec}.

Definition sse_start (id model : string) (c : Client) : Client :=
  if started c then c
  else
    let w := set_header "Content-Type" "text/event-stream" (out c) in
    let w := set_header "Cache-Control" "no-cache, no-transform" w in
    let w := set_header "X-Accel-Buffering" "no" w in
    mkClient (WriteHeader 200 w) true id model (clock c).

Definition sse_write (text : string) (c : Client) : option error * Client :=
  let '(err, w) := Write text (out c) in (err, set_out w c).

Definition sse_Emit (chunk : provider.Chunk) (c : Client) : option error * Client :=
  let c := sse_start (sse_requestID c) (sse_model c) c in
  let event := mkChunkEvent ("chatcmpl-" +:+ sse_requestID c) "chat.completion.chunk"
                 (time.Unix (clock c (writes (out c)))) (sse_model c)
                 (provider.chunk_Content chunk) (nilIfBlank (provider.chunk_FinishReason chunk)) in
  match encode_chunk event with
  | Ok encoded => sse_write ("data: " +:+ encoded +:+ nl +:+ nl) c
  | Err e => (Some e, c)
  | Panic why => (Some (New why), c)
  end.

Definition sse_Error (code : string) (c : Client) : Client :=
  (sse_write ("event: error" +:+ nl +:+ "data: " +:+ encode_failure code +:+ nl +:+ nl) c).2.
Definition sse_Done (c : Client) : Client := (sse_write ("data: [DONE]" +:+ nl +:+ nl) c).2.
End Stream.

(** ** The gateway's handlers *)

Section Handlers.
Context {S : Type} `{persistence.Store S} {R : Type} `{redis.Server R} {P : Type} `{provider.Interface P}.
Context `{Codec}.
(** JSON of the canonical request, the digests, lower case outside ASCII. *)
Context (json_Marshal : request.ChatInput → res string) (sha256 : string → string)
  (hmac_sha256 : string → string → string) (lower_rune : Z → Z).
Context (env : gateway.Env).
#[local] Abbreviation W := (gateway.World (S:=S) (R:=R) (P:=P) (C:=Client)).

Definition set_client (c : Client) (w : W) : W :=
  gateway.mkWorld (gateway.store w) (gateway.router w) (gateway.server w) (gateway.providers w) c
    (gateway.tick w) (gateway.calls w) (gateway.taken w).

#[global] Instance world_exchange : Exchange W.
Proof.
  by refine {| writer := λ w, out (gateway.client w);
               set_writer := λ x w, set_client (set_out x (gateway.client w)) w |}.
Defined.

(** The keys are those of the store, and [now] is the clock of the environment. *)
Record Gateway : Type := mkGateway { service : gateway.Service; pepper : string }.

(** *** Responses *)

Definition requestView (r : request.LogicalRequest) : View :=
  mkView (request.ID r) (request.Model r) (request.state r) (request.Stream r)
    (request.PartialStreamed r) (request.FailureCategory r) (request.CreatedAt r)
    (request.UpdatedAt r) (request.CompletedAt r)
    (request.mkUsage (request.rec_PromptTokens r) (request.rec_CompletionTokens r)
       (wrap64 (request.rec_PromptTokens r + request.rec_CompletionTokens r)))
    (request.CostMicroUSD r).

Definition writeOutcome (o : gateway.Outcome) : M W unit :=
  match gateway.response o with
  | Some response =>
    _ ← (if gateway.Replayed o then modify (set_header "Idempotency-Replayed" "true") else mret ());
    writeJSON 200 (encode_response response)
  | None => writeJSON 202 (encode_view (requestView (gateway.record o)))
  end.

Definition errorCode (err : error) : string :=
  match errors.AsProvider err with
  | Some (ProviderError _ category _ _ _ _) => category
  | _ => "provider_unavailable"
  end.

Definition writeServiceError (ctx : Context) (r : Request) (err : error) : M W unit :=
  if errors.Is err persistence.ErrConflict then
    writeProblem ctx r 409 "idempotency_conflict" "The idempotency key was already used with different input"
  else if errors.Is err persistence.ErrNotFound then
    writeProblem ctx r 404 "not_found" "The requested resource was not found"
  else if errors.Is err persistence.ErrModelForbidden then
    writeProblem ctx r 403 "model_forbidden" "The requested model is not enabled for this tenant"
  else if errors.Is err persistence.ErrAlreadyFinal then
    writeProblem ctx r 409 "invalid_request_state" "The logical request is already final or changed concurrently"
  else if errors.Is err budget.ErrExceeded then
    writeProblem ctx r 402 "budget_exceeded" "The tenant budget cannot reserve this request"
  else if gotext.Contains (errors.Error err) "rate limit rejected" then
    _ ← modify (set_header "Retry-After" "60");
    writeProblem ctx r 429 "rate_limit_exceeded" "The distributed tenant or API-key limit was exceeded"
  else if errors.Is err routing.ErrNoEligibleProvider then
    writeProblem ctx r 503 "provider_unavailable" "No eligible AI provider is currently available"
  else writeProblem ctx r 502 (errorCode err) "The completion could not be produced".

(** *** Authentication *)

(** The key in the X-API-Key header, else the bearer token. *)
Definition presented_key (r : Request) : res string :=
  let plain := strings.TrimSpace (HeaderGet r "X-API-Key") in
  if negb (plain =s "") then Ok plain
  else
    let authorization := strings.TrimSpace (HeaderGet r "Authorization") in
    if strings.HasPrefix (gotext.ToLower lower_rune authorization) "bearer " then
      if strings.len authorization <? 7 then Panic "slice bounds out of range"
      else Ok (strings.TrimSpace (strings.of_chars (drop 7 (strings.chars authorization))))
    else Ok plain.

(** [auth.Verify] with the store as the lookup, which only reads. *)
Definition verify (api : Gateway) (plain : string) : M W auth.Principal :=
  io ← gateway.next env; act (λ w,
  (auth.Verify hmac_sha256
     (λ prefix, (persistence.FindAPIKeyByPrefix io prefix (gateway.store w)).1)
     (pepper api) plain (io_now io), w)).

Definition authenticate (api : Gateway) (scope : string) (next : Handler W) : Handler W := λ ctx r,
  plain ← lift (presented_key r);
  verified ← caught (verify api plain);
  match verified with
  | inr _ => writeProblem ctx r 401 "authentication_failed" "Valid API-key authentication is required"
  | inl p =>
    match auth.RequireScope p scope with
    | Ok _ => next (WithPrincipal ctx p) r
    | Err _ => writeProblem ctx r 403 "scope_denied" "The API key is not authorised for this operation"
    | Panic why => lift (Panic why)
    end
  end.

(** *** Chat completions *)

Definition on_client (f : Client → Client) : M W unit := act (λ w, (Ok (), set_client (f (gateway.client w)) w)).

(** A new [sseWriter] on the connection. *)
Definition new_sse (id model : string) (c : Client) : Client := mkClient (out c) false id model (clock c).

(** The branch of a streaming request. *)
Definition chat_stream (api : Gateway) (ctx : Context) (r : Request) (key : string)
  (input : request.ChatInput) : M W unit :=
  _ ← on_client (new_sse (requestID ctx) (request.in_Model input));
  done ← caught (gateway.Stream json_Marshal sha256 env (service api) (FromContext ctx) key
                   (correlationID ctx) input (Some sse_Emit));
  begun ← act (λ w, (Ok (started (gateway.client w)), w));
  match done with
  | inr err =>
    if begun : bool then on_client (sse_Error (errorCode err)) else writeServiceError ctx r err
  | inl outcome =>
    if gateway.Pending outcome then writeOutcome outcome
    else
      _ ← (if begun : bool then mret ()
           else on_client (sse_start (request.ID (gateway.record outcome)) (request.in_Model input)));
      on_client sse_Done
  end.

Definition chat (api : Gateway) : Handler W := λ ctx r,
  let key := strings.TrimSpace (HeaderGet r "Idempotency-Key") in
  if (strings.len key <? 8) || (128 <? strings.len key) then
    writeProblem ctx r 400 "invalid_idempotency_key" "Idempotency-Key must contain between 8 and 128 characters"
  else
    let '(text, err) := read_body r in
    match decode_chat text err with
    | Panic why => lift (Panic why)
    | Err _ =>
      writeProblem ctx r 400 "invalid_request" "The request body is not a valid supported chat-completions request"
    | Ok input =>
      match request.Validate input with
      | Panic why => lift (Panic why)
      | Err e => writeProblem ctx r 400 "invalid_request" (errors.Error e)
      | Ok _ =>
        if request.in_Stream input then chat_stream api ctx r key input
        else
          done ← caught (gateway.Submit json_Marshal sha256 env (service api) (FromContext ctx) key
                           (correlationID ctx) input);
          match done with
          | inr err => writeServiceError ctx r err
          | inl outcome => writeOutcome outcome
          end
      end
    end.

(** *** Requests *)

Definition getRequest : Handler W := λ ctx r,
  found ← caught (gateway.Get env (auth.TenantID (FromContext ctx)) (PathValue r "request_id"));
  match found with
  | inr err => writeServiceError ctx r err
  | inl record => writeJSON 200 (encode_view (requestView record))
  end.

Definition cancelRequest : Handler W := λ ctx r,
  done ← caught (gateway.Cancel env (auth.TenantID (FromContext ctx)) (PathValue r "request_id")
                   (correlationID ctx));
  match done with
  | inr err => writeServiceError ctx r err
  | inl _ => modify (WriteHeader 204)
  end.

(** The routes: pattern, scope and handler. *)
Definition Register (api : Gateway) : list (string * string * Handler W) :=
  [("POST /v1/chat/completions", "chat:write", chat api);
   ("GET /v1/requests/{request_id}", "requests:read", getRequest);
   ("POST /v1/requests/{request_id}/cancel", "requests:cancel", cancelRequest)].
Definition serve (api : Gateway) (route : string * string * Handler W) : Handler W :=
  authenticate api route.1.2 route.2.
End Handlers.
End api.
