(* ===== verification/ApiProofs.v ===== *)
(** * ApiProofs: what clients of the HTTP API can observe

    Authentication guards every route, errors disclose nothing but their class, and a
    streamed answer is a well-formed event stream that ends in exactly one way. *)

From Stdlib Require Import Ascii.
From S2P Require Import Prelude Golib Request Budget Auth Provider Routing RateLimit Store Gateway Regexp Http Api.

(** ** What a request does to its client

    The service touches the client only through the emitter. *)

Module client_proofs.
Import gateway.
Section Client.
Context {S : Type} `{persistence.Store S} {R : Type} `{redis.Server R} {P : Type} `{provider.Interface P}.
Context {C : Type} (json_Marshal : request.ChatInput → res string) (sha256 : string → string).
Context (env : Env).
#[local] Abbreviation W := (World (S:=S) (R:=R) (P:=P) (C:=C)).

(** An invariant of the client. *)
Context (J : C → Prop).

(** The invariant is kept, and what is returned satisfies [post]. *)
Definition safe {A} (post : A → Prop) (m : M W A) : Prop :=
  ∀ w, J (client w) → J (client (m w).2) ∧ ∀ a, (m w).1 = Ok a → post a.
#[local] Abbreviation any := (λ _, True).

Lemma safe_bind {A B} (post : A → Prop) (post' : B → Prop) (m : M W A) (f : A → M W B) :
  safe post m → (∀ a, post a → safe post' (f a)) → safe post' (m ≫= f).
Proof.
  intros Hm Hf w Hw. destruct (Hm w Hw) as [Hj Hp]. unfold mbind, M_bind.
  destruct (m w) as [[a|e|why] w']; simpl in *; [|done..]. by apply Hf; [apply Hp|].
Qed.
Lemma safe_then {A B} (post : B → Prop) (m : M W A) (f : A → M W B) :
  safe any m → (∀ a, safe post (f a)) → safe post (m ≫= f).
Proof. intros Hm Hf. eapply safe_bind; [exact Hm|auto]. Qed.
Lemma safe_ret {A} (post : A → Prop) (a : A) : post a → safe post (mret a).
Proof. intros Hp w Hw. split; [done|]. by intros ? [= <-]. Qed.
Lemma safe_fail {A} (post : A → Prop) (e : error) : safe post (fail e : M W A).
Proof. by intros w Hw. Qed.
Lemma safe_lift {A} (r : res A) : safe any (lift r).
Proof. by intros w Hw. Qed.
Lemma safe_caught {A} (post : A → Prop) (m : M W A) :
  safe post m → safe (λ r, ∀ a, r = inl a → post a) (caught m).
Proof.
  intros Hm w Hw. destruct (Hm w Hw) as [Hj Hp]. unfold caught.
  destruct (m w) as [[a|e|why] w']; simpl in *; (split; [done|]); naive_solver.
Qed.
Lemma safe_caught_any {A} (m : M W A) : safe any m → safe any (caught m).
Proof. intros Hm w Hw. split; [|done]. apply (safe_caught any m Hm w Hw). Qed.
Lemma safe_ignore {A} (m : M W A) : safe any m → safe any (ignore m).
Proof.
  intros Hm w Hw. destruct (Hm w Hw) as [Hj _]. unfold ignore. by destruct (m w) as [[] ?].
Qed.
(** A step that does not touch the client. *)
Lemma safe_same {A} (m : M W A) : (∀ w, client (m w).2 = client w) → safe any m.
Proof. intros Hm w Hw. by rewrite Hm. Qed.

Lemma next_client (w : W) : client (next env w).2 = client w.
Proof. unfold next. by destruct (others_router _ _ _). Qed.
Lemma safe_next : safe any (next env).
Proof. apply safe_same, next_client. Qed.
Lemma safe_clock : safe any (gateway.clock env).
Proof. apply safe_then; [apply safe_next|]. intros. by apply safe_ret. Qed.
Lemma safe_on_store {A} (f : IO → M S A) : safe any (on_store env f).
Proof.
  apply safe_then; [apply safe_next|]. intros io. apply safe_same. intros w. unfold act.
  by destruct (f io (store w)).
Qed.
Lemma safe_detached {A} (f : IO → M S A) : safe any (on_store_detached env f).
Proof. apply safe_on_store. Qed.
Lemma safe_on_server {A} (f : IO → M R A) : safe any (on_server env f).
Proof.
  apply safe_then; [apply safe_next|]. intros io. apply safe_same. intros w. unfold act.
  by destruct (f io (server w)).
Qed.
Lemma safe_move p r from to : safe any (move env p r from to).
Proof. apply safe_on_store. Qed.
Lemma safe_select sel : safe any (select env sel).
Proof.
  apply safe_then; [apply safe_clock|]. intros wall. apply safe_same. intros w. unfold act.
  by destruct (routing.Select _ _ _) as [[] ?].
Qed.
Lemma safe_on_lease k f : safe any (on_lease k f).
Proof.
  apply safe_same. intros w. unfold on_lease. destruct (_ !! k) as [l|]; [|done].
  by destruct (f _ _) as [[? ?] ?].
Qed.
Lemma safe_lease_failure k b : safe any (lease_failure env k b).
Proof. apply safe_then; [apply safe_clock|]. intros. apply safe_on_lease. Qed.
Lemma safe_lease_success k t : safe any (lease_success env k t).
Proof. apply safe_then; [apply safe_clock|]. intros. apply safe_on_lease. Qed.
Lemma safe_prices sel : safe any (highest_prices env sel).
Proof. apply safe_then; [apply safe_next|]. intros. by apply safe_same. Qed.
Lemma safe_backoff i m a : safe any (waitBackoff env i m a).
Proof.
  apply safe_then; [apply safe_next|]. intros io. destruct (io_ctx io 0); [apply safe_fail|by apply safe_ret].
Qed.
Lemma safe_release permits : safe any (releasePermits env permits).
Proof.
  induction permits as [|p permits IH]; [by apply safe_ret|].
  apply safe_then; [|intros; apply IH]. apply safe_ignore, safe_on_server.
Qed.
Lemma safe_admit service principal policy n : safe any (Service_admit env service principal policy n).
Proof.
  unfold Service_admit. destruct (limiter service) as [l|]; [|by apply safe_ret].
  generalize (@nil (option ratelimit.Permit)) as permits.
  generalize ["tenant:" +:+ auth.TenantID principal; "key:" +:+ auth.APIKeyID principal] as buckets.
  induction buckets as [|b buckets IH]; intros permits; [by apply safe_ret|].
  apply safe_then; [apply safe_caught_any, safe_on_server|]. intros [[decision permit]|err].
  - destruct (negb _); [|apply IH]. apply safe_then; [apply safe_release|]. intros. apply safe_fail.
  - apply safe_then; [apply safe_release|]. intros. apply safe_fail.
Qed.

(** *** Calls *)

Lemma run_stream_client (limit : Z) (emit : provider.Chunk → C → option error * C) (s : provider.stream)
  (st : string * bool * C) :
  (∀ chunk c, J c → J (emit chunk c).2) → J st.2 →
  J (provider.run_stream (stream_emit limit emit) s st).2.2.
Proof.
  intros He. revert st. induction s as [r|c k IH]; intros [[content partial] x] Hx; cbn [provider.run_stream]; [done|].
  unfold stream_emit at 1. destruct (limit <? _); [by apply IH|].
  destruct (provider.chunk_Content c =s ""); specialize (He c x Hx);
    destruct (emit c x) as [answer x']; simpl in *; by apply IH.
Qed.

Definition emitter_ok (emit : option (provider.Chunk → C → option error * C)) : Prop :=
  ∀ e, emit = Some e → ∀ chunk c, J c → J (e chunk c).2.

Lemma safe_call service h id input emit :
  emitter_ok emit → safe any (call env service h id input emit).
Proof.
  intros He. unfold call. apply safe_then; [apply safe_next|]. intros io w Hw. unfold act. split; [|done].
  destruct (providers w !! _) as [p|]; [|done]. destruct emit as [e|].
  - destruct (provider.Stream io _ p) as [s p'].
    pose proof (run_stream_client (MaximumStreamBytes (config service)) e s ("", false, client w)
      (He e eq_refl) Hw) as Hj.
    destruct (provider.run_stream _ s _) as [r [[content partial] c]]. simpl in Hj. by destruct r.
  - by destruct (provider.Complete io _ p) as [[] ?].
Qed.

Lemma safe_finish job number k lease started completion :
  safe (λ o, Pending o = false) (finish env job number k lease started completion).
Proof.
  unfold finish. destruct (budget.CostMicroUSD _ _ _ _) as [cost|e|why].
  - apply safe_then; [apply safe_clock|]. intros now.
    apply safe_then; [apply safe_caught_any, safe_on_store|]. intros [u|e].
    + apply safe_then; [apply safe_lease_success|]. intros _.
      apply safe_then; [apply safe_ignore, safe_detached|]. intros _. by apply safe_ret.
    + apply safe_then; [apply safe_lease_failure|]. intros. apply safe_fail.
  - apply safe_then; [apply safe_lease_failure|]. intros. apply safe_fail.
  - by intros w Hw.
Qed.

(** A loop that returned did so with a finished request. *)
Definition returned_final (e : loop_end) : Prop :=
  match e with Returned o => Pending o = false | Broke _ _ => True end.

Lemma safe_loop job remaining number excluded lastErr : emitter_ok (job_emit job) →
  safe returned_final (attempt_loop env job remaining number excluded lastErr).
Proof.
  intros He. revert number excluded lastErr.
  induction remaining as [|remaining IH]; intros number excluded lastErr; [by apply safe_ret|].
  cbn [attempt_loop]. apply safe_then; [apply safe_clock|]. intros now.
  apply safe_then; [apply safe_caught_any, safe_select|]. intros [[k lease]|e]; [|by apply safe_ret].
  apply safe_then; [apply safe_caught_any, safe_on_store|].
  intros [u|e]; [|apply safe_then; [apply safe_lease_failure|]; intros; apply safe_fail].
  apply safe_then; [apply safe_clock|]. intros started.
  apply safe_then; [by apply safe_call|]. intros [[completion|callErr] partial].
  - eapply safe_bind; [apply safe_finish|]. intros o Ho. by apply safe_ret.
  - apply safe_then; [apply safe_lease_failure|]. intros _.
    apply safe_then; [apply safe_caught_any, safe_detached|]. intros [u'|e]; [|apply safe_fail].
    destruct (negb _); [by apply safe_ret|].
    apply safe_then; [apply safe_caught_any, safe_backoff|]. intros [u''|e]; [apply IH|by apply safe_ret].
Qed.

Lemma safe_conclude job e : returned_final e → safe (λ o, Pending o = false) (conclude env job e).
Proof.
  intros He. destruct e as [o|lastErr finalized]; [by apply safe_ret|]. unfold conclude.
  apply safe_then.
  { destruct finalized; [by apply safe_ret|]. apply safe_then; [apply safe_clock|].
    intros. apply safe_ignore, safe_detached. }
  intros _. apply safe_then; [apply safe_ignore, safe_detached|]. intros. apply safe_fail.
Qed.

Lemma safe_admitted job : emitter_ok (job_emit job) →
  safe (λ o, Pending o = false) (run_admitted env job).
Proof.
  intros He. unfold run_admitted. apply safe_then; [apply safe_caught_any, safe_prices|].
  intros [[ip op]|e].
  2:{ apply safe_then; [apply safe_ignore, safe_move|]. intros. apply safe_fail. }
  apply safe_then; [apply safe_lift|]. intros reservation.
  apply safe_then; [apply safe_clock|]. intros now.
  apply safe_then; [apply safe_caught_any, safe_on_store|]. intros [u|e].
  - apply safe_then; [apply safe_move|]. intros _. apply safe_then; [apply safe_move|]. intros _.
    eapply safe_bind; [by apply safe_loop|]. intros e. apply safe_conclude.
  - apply safe_then; [destruct (errors.Is _ _); [apply safe_ignore, safe_detached|by apply safe_ret]|].
    intros. apply safe_fail.
Qed.

Lemma safe_deferred {A} (post : A → Prop) (d : M W unit) (m : M W A) :
  safe any d → safe post m → safe post (deferred d m).
Proof.
  intros Hd Hm w Hw. destruct (Hm w Hw) as [Hj Hp]. unfold deferred.
  destruct (m w) as [out w1]. simpl in *. destruct (Hd w1 Hj) as [Hj' _].
  by destruct (d w1) as [[] w2].
Qed.

(** The invariant is kept by a whole request; if its outcome is pending, the client was
    not touched at all. *)
Lemma execute_client service principal key correlation input emit (w : W) :
  emitter_ok emit → J (client w) →
  let r := execute json_Marshal sha256 env service principal key correlation input emit w in
  J (client r.2) ∧ (∀ o, r.1 = Ok o → Pending o = true → client r.2 = client w).
Proof.
  intros He Hw. destruct (execute _ _ _ _ _ _ _ _ _ w) as [out w'] eqn:Hrun. cbn [fst snd].
  unfold execute in Hrun. unfold mbind at 1, M_bind at 1, lift at 1 in Hrun.
  destruct (request.Validate input) as [[]|?|?]; [|by simplify_eq..].
  unfold mbind at 1, M_bind at 1, lift at 1 in Hrun.
  destruct (idempotency.HashChat json_Marshal sha256 input) as [hash|?|?]; [|by simplify_eq..].
  unfold mbind at 1, M_bind at 1 in Hrun.
  assert (∀ f : IO → M S (request.LogicalRequest * bool), client (on_store env f w).2 = client w) as Hsame.
  { intros f. unfold on_store, mbind, M_bind. pose proof (next_client w) as Hn.
    destruct (next env w) as [[io|?|?] w1]; simpl in *; [|done..]. unfold act. by destruct (f io (store w1)). }
  specialize (Hsame (λ io, persistence.CreateOrGetRequest io (create_params principal key hash correlation input))).
  destruct (on_store env _ w) as [[[r created]|?|?] w1]; simpl in Hsame;
    [|simplify_eq; split; [by rewrite Hsame|done]..].
  assert (J (client w1)) as Hw1 by by rewrite Hsame.
  destruct created; cbn [negb] in Hrun.
  2:{ destruct (request.Response r); [destruct (bool_decide _)|]; injection Hrun as <- <-;
        (split; [done|]); by intros o [= <-]. }
  match type of Hrun with ?m w1 = _ => assert (safe (λ o, Pending o = false) m) as Hsafe end.
  { apply safe_then; [apply safe_move|]. intros _.
    apply safe_then; [apply safe_caught_any, safe_on_store|].
    intros [policy|e]; [|apply safe_then; [apply safe_ignore, safe_move|]; intros; apply safe_fail].
    apply safe_then; [apply safe_caught_any, safe_admit|].
    intros [permits|e]; [|apply safe_then; [apply safe_ignore, safe_move|]; intros; apply safe_fail].
    apply safe_deferred; [apply safe_release|by apply safe_admitted]. }
  destruct (Hsafe w1 Hw1) as [Hj Hp]. rewrite Hrun in Hj, Hp. split; [done|].
  intros o Ho Hpend. apply Hp in Ho. congruence.
Qed.
End Client.
End client_proofs.

(** ** The handlers *)

Module api_proofs.
Import http api.

(** A principal may use a scope. *)
Definition scoped (p : auth.Principal) (scope : string) : Prop :=
  "*" ∈ auth.Scopes p ∨ scope ∈ auth.Scopes p.

Lemma RequireScope_spec (p : auth.Principal) (scope : string) :
  (auth.RequireScope p scope = Ok () ∧ scoped p scope) ∨
  (auth.RequireScope p scope = Err auth.ErrScope ∧ ¬ scoped p scope).
Proof.
  unfold auth.RequireScope, scoped.
  destruct ("*" ∈? auth.Scopes p) eqn:Hstar; [left; reflect; naive_solver|].
  destruct (scope ∈? auth.Scopes p) eqn:Hs; reflect; naive_solver.
Qed.

Section Handlers.
Context {S : Type} `{persistence.Store S} {R : Type} `{redis.Server R} {P : Type} `{provider.Interface P}.
Context `{Codec}.
Context (json_Marshal : request.ChatInput → res string) (sha256 : string → string)
  (hmac_sha256 : string → string → string) (lower_rune : Z → Z) (env : gateway.Env).
#[local] Abbreviation W := (gateway.World (S:=S) (R:=R) (P:=P) (C:=Client)).

(** Everything but the client is the same. *)
Definition same_service (w w' : W) : Prop :=
  gateway.store w' = gateway.store w ∧ gateway.router w' = gateway.router w ∧
  gateway.server w' = gateway.server w ∧ gateway.providers w' = gateway.providers w ∧
  gateway.tick w' = gateway.tick w ∧ gateway.calls w' = gateway.calls w ∧
  gateway.taken w' = gateway.taken w.

(** A document was sent: one status with its content type, on a connection nothing was
    sent on before. *)
Definition document (w w' : W) (status : Z) (content_type : string) : Prop :=
  same_service w w' ∧ started (gateway.client w') = started (gateway.client w) ∧
  (sent (writer w) = None →
   ∃ h, sent (writer w') = Some (status, h) ∧ h !! "Content-Type" = Some content_type).

Lemma write_document (w : W) (status : Z) (content_type text : string) :
  ∃ w', (_ ← modify (set_header "Content-Type" content_type);
         _ ← modify (set_header "Cache-Control" "no-store");
         _ ← modify (WriteHeader status); write text) w = (Ok (), w') ∧
    document w w' status content_type.
Proof.
  eexists. split; [reflexivity|]. split; [done|]. split; [done|]. intros Hs.
  cbn [writer set_writer world_exchange gateway.client set_client out set_out] in *.
  exists (<["Cache-Control" := "no-store"]> (<["Content-Type" := content_type]> (header (out (gateway.client w))))).
  split; [|by rewrite lookup_insert_ne, lookup_insert_eq by done].
  unfold Write, WriteHeader, send, set_header. simpl. rewrite Hs. simpl. by destruct (broken _ _).
Qed.

Lemma writeProblem_document (ctx : Context) (r : Request) (status : Z) (code detail : string) (w : W) :
  ∃ w', writeProblem ctx r status code detail w = (Ok (), w') ∧
    document w w' status "application/problem+json".
Proof. apply write_document. Qed.

Lemma writeJSON_document (status : Z) (encoded : string) (w : W) :
  ∃ w', writeJSON status encoded w = (Ok (), w') ∧ document w w' status "application/json".
Proof. apply write_document. Qed.

(** Setting a header first changes nothing of this. *)
Lemma header_first (k v : string) (m : M W unit) (status : Z) (ct : string) (w : W) :
  (∀ w, ∃ w', m w = (Ok (), w') ∧ document w w' status ct) →
  ∃ w', (_ ← modify (set_header k v); m) w = (Ok (), w') ∧ document w w' status ct.
Proof.
  intros Hm. unfold mbind, M_bind, modify, act.
  destruct (Hm (set_writer (set_header k v (writer w)) w)) as (w' & Hrun & Hs & Hst & Hd).
  exists w'. split; [done|]. split; [done|]. split; [done|]. intros Hn. by apply Hd.
Qed.

Lemma writeOutcome_document (o : gateway.Outcome) (w : W) :
  ∃ w' status, writeOutcome o w = (Ok (), w') ∧ document w w' status "application/json".
Proof.
  unfold writeOutcome. destruct (gateway.response o) as [response|].
  - destruct (gateway.Replayed o).
    + destruct (header_first "Idempotency-Replayed" "true" (writeJSON 200 (encode_response response)) 200
        "application/json" w) as (w' & Hrun & Hd); [apply writeJSON_document|]. by exists w', 200.
    + destruct (writeJSON_document 200 (encode_response response) w) as (w' & Hrun & Hd). by exists w', 200.
  - destruct (writeJSON_document 202 (encode_view (requestView (gateway.record o))) w) as (w' & Hrun & Hd).
    by exists w', 202.
Qed.

(** *** Errors *)

(** The classes of errors a client can tell apart. *)
Inductive class : Type :=
| Conflict | Missing | Forbidden | Final | Budget | RateLimited | NoProvider
| Upstream (code : string).

Definition classify (err : error) : class :=
  if errors.Is err persistence.ErrConflict then Conflict
  else if errors.Is err persistence.ErrNotFound then Missing
  else if errors.Is err persistence.ErrModelForbidden then Forbidden
  else if errors.Is err persistence.ErrAlreadyFinal then Final
  else if errors.Is err budget.ErrExceeded then Budget
  else if gotext.Contains (errors.Error err) "rate limit rejected" then RateLimited
  else if errors.Is err routing.ErrNoEligibleProvider then NoProvider
  else Upstream (errorCode err).

Definition class_status (c : class) : Z :=
  match c with
  | Conflict | Final => 409 | Missing => 404 | Forbidden => 403 | Budget => 402
  | RateLimited => 429 | NoProvider => 503 | Upstream _ => 502
  end.

Lemma writeServiceError_document (ctx : Context) (r : Request) (err : error) (w : W) :
  ∃ w', writeServiceError ctx r err w = (Ok (), w') ∧
    document w w' (class_status (classify err)) "application/problem+json".
Proof.
  unfold writeServiceError, classify.
  destruct (errors.Is err persistence.ErrConflict); [apply writeProblem_document|].
  destruct (errors.Is err persistence.ErrNotFound); [apply writeProblem_document|].
  destruct (errors.Is err persistence.ErrModelForbidden); [apply writeProblem_document|].
  destruct (errors.Is err persistence.ErrAlreadyFinal); [apply writeProblem_document|].
  destruct (errors.Is err budget.ErrExceeded); [apply writeProblem_document|].
  destruct (gotext.Contains _ _); [apply header_first; intros; apply writeProblem_document|].
  destruct (errors.Is err routing.ErrNoEligibleProvider); apply writeProblem_document.
Qed.

(** Errors disclose only their class. Two errors of the same class give the
    same response, byte for byte, whatever their texts, causes and wrapping (an
    upstream error shows its provider's category and nothing else); the response is
    one problem document with the status of the class, and the service is not
    touched. *)
Theorem errors_disclose_class (ctx : Context) (r : Request) (err err' : error) (w : W) :
  (classify err = classify err' →
   writeServiceError ctx r err w = writeServiceError ctx r err' w) ∧
  ∃ w', writeServiceError ctx r err w = (Ok (), w') ∧
    document w w' (class_status (classify err)) "application/problem+json".
Proof.
  split; [|apply writeServiceError_document]. unfold classify, writeServiceError.
  repeat match goal with
         | |- context [if ?b then _ else _] => destruct b eqn:?
         end; try done.
  by intros [= ->].
Qed.

(** *** Streams *)

Definition data_event (payload : string) : string := "data: " +:+ payload +:+ nl +:+ nl.
Definition done_event : string := "data: [DONE]" +:+ nl +:+ nl.
Definition error_event (code : string) : string :=
  "event: error" +:+ nl +:+ "data: " +:+ encode_failure code +:+ nl +:+ nl.
Definition events (payloads : list string) : string :=
  foldr (λ p rest, data_event p +:+ rest) "" payloads.

(** The payload of a chunk of this request. *)
Definition chunk_payload (id model payload : string) : Prop :=
  ∃ at_ content finish,
    encode_chunk (mkChunkEvent ("chatcmpl-" +:+ id) "chat.completion.chunk" at_ model content finish) =
    Ok payload.

(** An event stream: status 200, the content type of server-sent events, the events of
    some chunks of the request, then the end. *)
Definition event_stream (id model tail : string) (w : Writer) : Prop :=
  ∃ h payloads, sent w = Some (200, h) ∧ h !! "Content-Type" = Some "text/event-stream" ∧
    Forall (chunk_payload id model) payloads ∧ body w = events payloads +:+ tail.

(** The last event, lost only if a write of the connection fails. *)
Definition ends_with (id model tail : string) (w : Writer) : Prop :=
  event_stream id model tail w ∨ (event_stream id model "" w ∧ ∃ n e, broken w n = Some e).

(** While the service runs: untouched, or streaming. *)
Definition streaming (id model : string) (c0 c : Client) : Prop :=
  broken (out c) = broken (out c0) ∧
  (c = c0 ∨
   started c = true ∧ sse_requestID c = id ∧ sse_model c = model ∧ event_stream id model "" (out c)).

Lemma events_app (l : list string) (p : string) : events (l ++ [p]) = events l +:+ data_event p.
Proof.
  induction l as [|q l IH]; simpl; [by rewrite string_app_nil_r|]. by rewrite IH, string_app_assoc.
Qed.

Lemma event_stream_write (id model text : string) (c : Client) :
  event_stream id model "" (out c) →
  (∃ e, broken (out c) (writes (out c)) = Some e ∧
        out (sse_write text c).2 = mkWriter (header (out c)) (sent (out c)) (body (out c))
                                     (Datatypes.S (writes (out c))) (broken (out c)) (called (out c))) ∨
  out (sse_write text c).2 = mkWriter (header (out c)) (sent (out c)) (body (out c) +:+ text)
                               (Datatypes.S (writes (out c))) (broken (out c)) (called (out c)).
Proof.
  intros (h & payloads & Hs & _). unfold sse_write, Write.
  assert (send 200 (out c) = out c) as -> by (unfold send; by rewrite Hs).
  destruct (broken (out c) (writes (out c))) as [e|] eqn:He; [left; by exists e|by right].
Qed.

Lemma sse_last (id model text : string) (c : Client) :
  event_stream id model "" (out c) → ends_with id model text (out (sse_write text c).2).
Proof.
  intros Hc. destruct (event_stream_write id model text c Hc) as [(e & He & ->)| ->];
    destruct Hc as (h & payloads & Hs & Ht & Hp & Hb).
  - right. split; [by exists h, payloads|]. by exists (writes (out c)), e.
  - left. exists h, payloads. split_and!; [done..|]. simpl. by rewrite Hb, string_app_nil_r.
Qed.

Lemma sse_start_streaming (id model : string) (c : Client) :
  sent (out c) = None → body (out c) = "" → started c = false →
  let c' := sse_start id model c in
  started c' = true ∧ sse_requestID c' = id ∧ sse_model c' = model ∧
  broken (out c') = broken (out c) ∧ event_stream id model "" (out c').
Proof.
  intros Hs Hb Hst. unfold sse_start. rewrite Hst. unfold WriteHeader, send. simpl. rewrite Hs. simpl.
  split_and!; [done..|]. eexists _, []. split_and!; [done| |done|by rewrite Hb].
  by rewrite !lookup_insert_ne, lookup_insert_eq by done.
Qed.

Lemma sse_Emit_streaming (id model : string) (c0 c : Client) (chunk : provider.Chunk) :
  sent (out c0) = None → body (out c0) = "" → started c0 = false →
  sse_requestID c0 = id → sse_model c0 = model →
  streaming id model c0 c → streaming id model c0 (sse_Emit chunk c).2.
Proof.
  intros Hs Hb Hst Hid Hmodel [Hbr Hc]. unfold sse_Emit.
  set (c1 := sse_start (sse_requestID c) (sse_model c) c).
  assert (started c1 = true ∧ sse_requestID c1 = id ∧ sse_model c1 = model ∧
          broken (out c1) = broken (out c0) ∧ event_stream id model "" (out c1)) as (Hc1 & Hc2 & Hc3 & Hc4 & Hc5).
  { destruct Hc as [->|(Hc1 & Hc2 & Hc3 & Hc5)].
    - destruct (sse_start_streaming id model c0) as (? & ? & ? & ? & ?); [done..|].
      unfold c1. by rewrite Hid, Hmodel.
    - unfold c1, sse_start. by rewrite Hc1. }
  assert (streaming id model c0 c1) as Hsame by (split; [done|by right]).
  destruct (encode_chunk _) as [payload|e|why] eqn:He; [|exact Hsame..].
  destruct (event_stream_write id model (data_event payload) c1 Hc5) as [(e & _ & Hout)|Hout];
    unfold data_event in Hout; (split; [by rewrite Hout|right]);
    (split; [|split; [|split]]; [unfold sse_write; by destruct (Write _ _)..|]); rewrite Hout;
    destruct Hc5 as (h & payloads & Hs1 & Ht & Hp & Hb1).
  - by exists h, payloads.
  - exists h, (payloads ++ [payload]). split_and!; [done|done| |].
    + apply Forall_app. split; [done|]. apply Forall_singleton. rewrite Hc2, Hc3 in He. by eexists _, _, _.
    + simpl. rewrite Hb1, events_app. unfold data_event. by rewrite !string_app_nil_r.
Qed.

(** C12 (functional): every streamed request ends in exactly one of these ways. It
    failed before anything was sent: one problem document with the status of the
    error's class. It failed after: the events of chunks of this request under status
    200, then one error event with the error's code, never a problem document in the
    middle of a stream. It is a pending duplicate: one JSON document. It succeeded:
    the events of its chunks, then [DONE]. The final event is missing only if the
    connection fails, and the answer never changes what the service did. *)
Theorem stream_grammar (api : Gateway) (ctx : Context) (r : Request) (key : string)
  (input : request.ChatInput) (w : W) :
  sent (writer w) = None → body (writer w) = "" →
  let fresh := set_client (new_sse (requestID ctx) (request.in_Model input) (gateway.client w)) w in
  let '(done, ws) := gateway.Stream json_Marshal sha256 env (service api) (FromContext ctx) key
                       (correlationID ctx) input (Some sse_Emit) fresh in
  let '(out, w') := chat_stream json_Marshal sha256 env api ctx r key input w in
  same_service ws w' ∧
  match done with
  | Panic why => out = Panic why ∧ w' = ws
  | Err e => out = Ok () ∧
      ((∃ h, sent (writer w') = Some (class_status (classify e), h) ∧
             h !! "Content-Type" = Some "application/problem+json") ∨
       ends_with (requestID ctx) (request.in_Model input) (error_event (errorCode e)) (writer w'))
  | Ok o => out = Ok () ∧
      if gateway.Pending o
      then ∃ h status, sent (writer w') = Some (status, h) ∧ h !! "Content-Type" = Some "application/json"
      else ∃ id, ends_with id (request.in_Model input) done_event (writer w')
  end.
Proof.
  intros Hs Hb fresh. set (id := requestID ctx) in *. set (model := request.in_Model input) in *.
  set (c0 := new_sse id model (gateway.client w)) in *.
  pose proof (client_proofs.execute_client json_Marshal sha256 env (streaming id model c0) (service api)
    (FromContext ctx) key (correlationID ctx) input (Some sse_Emit) fresh) as Hrun.
  unfold chat_stream, mbind, M_bind, on_client at 1, act at 1. fold id model c0 fresh.
  unfold caught. cbn [gateway.Stream] in *.
  destruct (gateway.execute _ _ _ _ _ _ _ _ _ fresh) as [done ws]. cbn [fst snd] in Hrun.
  destruct Hrun as [Hj Hpend].
  { intros e [= <-] chunk c. by apply sse_Emit_streaming. }
  { split; [done|by left]. }
  destruct Hj as [Hbr Hj]. destruct done as [o|e|why]; [| |by split].
  - unfold act at 1. destruct (gateway.Pending o) eqn:Hp.
    + specialize (Hpend o eq_refl Hp). destruct (writeOutcome_document o ws) as (w' & status & -> & Hsame & _ & Hd).
      split; [done|]. split; [done|]. destruct Hd as (h & Hd); [by cbn; rewrite Hpend|]. by exists h, status.
    + unfold on_client, act. destruct Hj as [Hj|(Hst & _ & _ & Hev)].
      * rewrite Hj. cbn [started c0 new_sse]. split; [done|]. split; [done|].
        exists (request.ID (gateway.record o)). apply sse_last. cbn [gateway.client set_client]. rewrite Hj.
        by apply sse_start_streaming.
      * rewrite Hst. unfold mret, M_ret. split; [done|]. split; [done|]. exists id. by apply sse_last.
  - unfold act at 1. destruct Hj as [Hj|(Hst & _ & _ & Hev)].
    + rewrite Hj. cbn [started c0 new_sse]. destruct (writeServiceError_document ctx r e ws) as (w' & -> & Hsame & _ & Hd).
      split; [done|]. split; [done|]. left. apply Hd. by cbn; rewrite Hj.
    + rewrite Hst. split; [done|]. split; [done|]. right. by apply sse_last.
Qed.

(** *** Authentication *)

(** [unicode.ToLower] gives code points. *)
Definition lowers : Prop := ∀ r, 128 <= r → 0 <= lower_rune r < 1114112.

(** Slicing the scheme off the header is within bounds, whatever the header. *)
Lemma presented_key_total (r : Request) : lowers → ∃ plain, presented_key lower_rune r = Ok plain.
Proof.
  intros Hl. unfold presented_key. destruct (negb _); [by eexists|].
  destruct (strings.HasPrefix _ _) eqn:Hp; [|by eexists].
  apply gotext.ToLower_prefix in Hp; [|done|by repeat constructor; vm_compute].
  change (strings.len "bearer ") with 7 in Hp. rewrite (proj2 (Z.ltb_ge _ _)) by done. by eexists.
Qed.

(** The keys as the store has them at a step. *)
Definition stored_keys (io : IO) (w : W) : auth.Lookup :=
  λ prefix, (persistence.FindAPIKeyByPrefix io prefix (gateway.store w)).1.

(** C11 (safety): every route is guarded. A handler runs only for a credential, taken
    from X-API-Key or else from the bearer token, whose keyed digest is the one the
    store has for its prefix, while that key is neither revoked nor expired and grants
    the scope of the route; it then runs as that key's principal. Every other request
    is answered with one problem document and touches nothing of the service: 403 if
    only the scope is missing, else 401, whatever is wrong with the credential. *)
Theorem routes_guarded (api : Gateway) (scope : string) (next : Handler W) (ctx : Context)
  (r : Request) (w w1 : W) (io : IO) :
  lowers → gateway.next env w = (Ok io, w1) →
  (∀ prefix why, stored_keys io w1 prefix ≠ Panic why) →
  ∃ plain, presented_key lower_rune r = Ok plain ∧
  let verified stored :=
    auth.authentic hmac_sha256 (stored_keys io w1) (pepper api) plain stored ∧
    auth.key_live stored (io_now io) in
  let run := authenticate hmac_sha256 lower_rune env api scope next ctx r w in
  (∃ stored, verified stored ∧ scoped (auth.principal_of stored) scope ∧
     run = next (mkContext (requestID ctx) (correlationID ctx) (Some (auth.principal_of stored))) r w1) ∨
  (∃ stored w', verified stored ∧ ¬ scoped (auth.principal_of stored) scope ∧ run = (Ok (), w') ∧
     document w1 w' 403 "application/problem+json") ∨
  (∃ w', (∀ stored, ¬ verified stored) ∧ run = (Ok (), w') ∧
     document w1 w' 401 "application/problem+json").
Proof.
  clear json_Marshal sha256. intros Hl Hnext Hkeys. destruct (presented_key_total r Hl) as [plain Hplain].
  exists plain. split; [done|]. intros verified run.
  assert (run = match auth.Verify hmac_sha256 (stored_keys io w1) (pepper api) plain (io_now io) with
                | Ok p => match auth.RequireScope p scope with
                          | Ok _ => next (mkContext (requestID ctx) (correlationID ctx) (Some p)) r w1
                          | Err _ => writeProblem ctx r 403 "scope_denied"
                                       "The API key is not authorised for this operation" w1
                          | Panic why => (Panic why, w1)
                          end
                | Err _ => writeProblem ctx r 401 "authentication_failed"
                             "Valid API-key authentication is required" w1
                | Panic why => (Panic why, w1)
                end) as ->.
  { subst run. unfold authenticate, mbind, M_bind, lift at 1. rewrite Hplain.
    unfold caught, verify, mbind, M_bind. rewrite Hnext. unfold act. fold (stored_keys io w1).
    by destruct (auth.Verify _ _ _ _ _) as [p| |]; [destruct (auth.RequireScope p scope)|..]. }
  pose proof (auth.Verify_cases hmac_sha256 (stored_keys io w1) (pepper api) plain (io_now io)) as Hv.
  destruct (auth.Verify _ _ _ _ _) as [p|e|why] eqn:Hrun.
  - destruct Hv as (stored & Ha & Hlive & ->).
    destruct (RequireScope_spec (auth.principal_of stored) scope) as [[-> Hs]|[-> Hs]].
    + left. by exists stored.
    + right; left. destruct (writeProblem_document ctx r 403 "scope_denied"
        "The API key is not authorised for this operation" w1) as (w' & Hw & Hd).
      exists stored, w'. split; [by split|]. split; [exact Hs|]. split; [exact Hw|exact Hd].
  - right; right. destruct (writeProblem_document ctx r 401 "authentication_failed"
      "Valid API-key authentication is required" w1) as (w' & Hw & Hd).
    exists w'. split; [|done]. intros stored [Ha Hlive].
    destruct Hv as [[_ Hno]|(s & (p & Hp & Hs & _) & Hdead & _)]; [by apply (Hno stored)|].
    destruct Ha as (q & Hq & Ht & _). congruence.
  - exfalso. unfold auth.Verify in Hrun. destruct (auth.ParsePrefix_total plain) as [[p Hp]|Hp]; rewrite Hp in Hrun; [|done].
    specialize (Hkeys p). destruct (stored_keys io w1 p); [|done|naive_solver]. 
    by repeat case_match.
Qed.
End Handlers.
End api_proofs.
