(* ===== verification/ApiDemo.v ===== *)
(** * ApiDemo: the HTTP API on concrete components

    The gateway of [GatewayDemo.v] behind its HTTP handlers: one issued key, a codec
    that shows the contents of what it encodes, and connections that never fail. The
    runs evaluate, and show that the hypotheses of the API's theorems can hold. *)

From S2P Require Import Prelude Golib Request Auth Provider Routing RateLimit Store Memory Gateway GatewayDemo Regexp Http Api ApiProofs.

Module api_demo.
Import http api api_proofs.

Definition demo_pepper : string := "0123456789abcdef0123456789abcdef".
Definition secret : string := "0123456789012345678901234567890123456789".
Definition plain : string := "aegis_devkey0000_" +:+ secret.
Definition digest (pepper text : string) : string := text.
Definition stored : auth.StoredKey :=
  auth.mkStoredKey "k" "t" "u" "devkey0000" plain ["chat:write"; "requests:read"] None None.

#[global] Instance demo_codec : Codec := {|
  codec_problem := {| problem.encode_detail := problem.Code |};
  decode_chat text err := Ok (request.mkChatInput "m" [request.mkMessage "user" text] None 0 true None);
  encode_response _ := "response";
  encode_view _ := "view";
  encode_chunk e := Ok (c_content e);
  encode_failure code := code
|}.

Definition client : Client := mkClient (new_writer (λ _, None)) false "" "" (λ _, 0).
Abbreviation W := (@gateway.World memory.Memory (gmap string (Z * option time.Time)) provider.Mock Client).
Definition world : W :=
  gateway.mkWorld (memory.AddAPIKey stored memory.demo_memory)
    (routing.mkSystem gateway_demo.demo_router []) ∅ gateway_demo.mocks client 0 [] [].

Definition gw : Gateway := mkGateway gateway_demo.service demo_pepper.
Definition post (key : string) : Request :=
  mkRequest "POST" "/v1/chat/completions" "/v1/chat/completions" [("authorization", " Bearer " +:+ key); ("Idempotency-Key", "stream-01")]
    "hi" 2 [] [] None.
(** Lower case outside ASCII. *)
Definition lower (r : Z) : Z := if r <? 1114112 then r else 0.
Definition ctx : Context := mkContext "rid" "cid" None.
Definition chat_route : Handler W :=
  authenticate digest lower gateway_demo.env gw "chat:write"
    (chat gateway_demo.marshal gateway_demo.digest gateway_demo.env gw).

(** The response as the client sees it. *)
Definition seen (w : W) : option Z * string := (fst <$> sent (writer w), body (writer w)).
(** The next request, on a new connection. *)
Definition reconnect (w : W) : W := set_client client w.

(** The first provider fails before its first chunk, the second streams. *)
Example stream_runs : seen (chat_route ctx (post plain) world).2 =
  (Some 200, events ["Deterministic "; "response "; "to: "; "hi"; ""] +:+ done_event).
Proof. vm_compute. reflexivity. Qed.

Example wrong_key : seen (chat_route ctx (post ("aegis_devkey0000_x" +:+ secret)) world).2 =
  (Some 401, "authentication_failed").
Proof. vm_compute. reflexivity. Qed.

(** The streaming branch alone, and what the service does in it. *)
Definition known : Context := mkContext "rid" "cid" (Some (auth.principal_of stored)).
Definition streamed : res unit * W :=
  chat_stream gateway_demo.marshal gateway_demo.digest gateway_demo.env gw known (post plain) "stream-01"
    memory.demo_input world.
Definition served : res gateway.Outcome * W :=
  gateway.Stream gateway_demo.marshal gateway_demo.digest gateway_demo.env (service gw) (FromContext known)
    "stream-01" (correlationID known) memory.demo_input (Some sse_Emit)
    (set_client (new_sse (requestID known) (request.in_Model memory.demo_input) (gateway.client world)) world).
Lemma served_ok : match served.1 with Ok o => gateway.Pending o = false | _ => False end.
Proof. vm_compute. reflexivity. Qed.

Lemma stream_grammar_witness :
  streamed.1 = Ok () ∧ ∃ id, ends_with id "m" done_event (writer streamed.2).
Proof.
  pose proof (stream_grammar gateway_demo.marshal gateway_demo.digest gateway_demo.env gw known
    (post plain) "stream-01" memory.demo_input world eq_refl eq_refl) as Hg.
  pose proof served_ok as Hok. cbv zeta in Hg. fold served in Hg. fold streamed in Hg.
  destruct served as [[o|e|why] ws]; [|destruct Hok..]. destruct streamed as [out w'].
  cbn [fst] in Hok. rewrite Hok in Hg. exact (proj2 Hg).
Defined.

Lemma routes_guarded_witness :
  let handler : Handler W := λ ctx _ w, (Ok (), set_client (new_sse (requestID ctx) "ran" (gateway.client w)) w) in
  ∃ w1, authenticate digest lower gateway_demo.env gw "chat:write" handler ctx (post plain) world =
    handler (mkContext "rid" "cid" (Some (auth.principal_of stored))) (post plain) w1.
Proof.
  cbn zeta. set (handler := λ (ctx : Context) (_ : Request) (w : W), _).
  destruct (gateway.next gateway_demo.env world) as [[io|e|why] w1] eqn:Hnext;
    [|vm_compute in Hnext; discriminate..].
  destruct (routes_guarded digest lower gateway_demo.env gw "chat:write" handler ctx
    (post plain) world w1 io) as (p & Hp & Hcases).
  - intros r Hr. unfold lower. destruct (Z.ltb_spec r 1114112); lia.
  - exact Hnext.
  - intros prefix why. unfold stored_keys. cbn. unfold memory.find_key. by case_match.
  - exists w1. injection Hnext as <- <-.
    destruct Hcases as [(s & [Ha _] & _ & Hrun)|[(s & w' & _ & _ & Hrun & Hd)|(w' & _ & Hrun & Hd)]].
    + destruct Ha as (q & Hq & Hs & _). vm_compute in Hp. injection Hp as <-.
      vm_compute in Hq. injection Hq as <-. vm_compute in Hs. injection Hs as <-. exact Hrun.
    + exfalso. apply (f_equal snd) in Hrun. cbn [snd] in Hrun. subst w'.
      destruct Hd as (_ & _ & Hsent). destruct (Hsent eq_refl) as (h & Hh & _). vm_compute in Hh. discriminate.
    + exfalso. apply (f_equal snd) in Hrun. cbn [snd] in Hrun. subst w'.
      destruct Hd as (_ & _ & Hsent). destruct (Hsent eq_refl) as (h & Hh & _). vm_compute in Hh. discriminate.
Defined.

(** A replayed stream loses its answer. The second submission of a streamed
    request that completed, with the same idempotency key, is answered with status 200
    and an empty stream: the stored completion is not sent, although the same replay
    of a request that is not streamed returns it. *)
Theorem replayed_stream_empty :
  let '(_, w1) := chat_route ctx (post plain) world in
  let '(_, w2) := chat_route ctx (post plain) (reconnect w1) in
  (memory.requests (gateway.store w1) !! memory.randomID (gateway.env_io gateway_demo.env 1) ≫= request.Response)
    ≠ None ∧
  seen w2 = (Some 200, "data: [DONE]" +:+ nl +:+ nl).
Proof. vm_compute. split; [discriminate|reflexivity]. Qed.
End api_demo.
