(* ===== verification/GatewayMain.v ===== *)
(** * GatewayMain: the gateway as a process

    Models [cmd/gateway/main.go]: which store and which provider the configuration
    selects, the router and the service built from it, and the chain of handlers
    between the server and the routes of the API. *)

From Stdlib Require Import Ascii.
From S2P Require Import Prelude Golib Request CircuitBreaker Auth Provider Routing RateLimit Store Memory Gateway Regexp Strconv Config Pool Admin Http Mux Observability OpenAI App Api.

Module gateway_main.
Import http served observability.
#[local] Existing Instance api.codec_problem.

(** ** Components *)

(** The providers the gateway can be configured with, as one interface value. *)
Inductive Configured : Type :=
| CMock (m : provider.Mock)
| COpenAI (a : openai.OpenAICompatible).

#[global] Instance configured_interface `{openai.Transport} : provider.Interface Configured := {|
  provider.Name p := match p with CMock m => provider.Name m | COpenAI a => provider.Name a end;
  provider.CapabilitiesOf p :=
    match p with CMock m => provider.CapabilitiesOf m | COpenAI a => provider.CapabilitiesOf a end;
  provider.Health io p := match p with CMock m => provider.Health io m | COpenAI a => provider.Health io a end;
  provider.Complete io input p :=
    match p with
    | CMock m => let '(out, m) := provider.Complete io input m in (out, CMock m)
    | COpenAI a => let '(out, a) := provider.Complete io input a in (out, COpenAI a)
    end;
  provider.Stream io input p :=
    match p with
    | CMock m => let '(s, m) := provider.Stream io input m in (s, CMock m)
    | COpenAI a => let '(s, a) := provider.Stream io input a in (s, COpenAI a)
    end
|}.

Definition configuredProvider (cfg : config.Config) : res Configured :=
  if config.ProviderEndpoint cfg =s ""
  then Ok (CMock (provider.NewMock (provider.mkMockConfig (config.ProviderName cfg) (config.ProviderModels cfg) 0 0 "")))
  else match openai.NewOpenAICompatible (openai.mkOpenAIConfig (config.ProviderName cfg)
               (config.ProviderEndpoint cfg) (config.ProviderAPIKey cfg) (config.ProviderModels cfg)
               ["PUBLIC"; "INTERNAL"; "CONFIDENTIAL"] (30 * time.Second) 0) with
       | Ok a => Ok (COpenAI a)
       | Err e => Err e
       | Panic w => Panic w
       end.

(** [routing.Strategy(name)]. *)
Definition strategy_of (name : string) : routing.Strategy :=
  if name =s "weighted_round_robin" then routing.WeightedRoundRobin
  else if name =s "least_outstanding" then routing.LeastOutstanding
  else if name =s "least_latency" then routing.LeastLatency
  else if name =s "priority_fallback" then routing.PriorityFallback
  else routing.OtherStrategy name.

Section Startup.
Context `{openai.Transport} `{pool.Driver}.
Context (hmac_sha256 : string → string → string) (new_exporter : string → option error).

(** The repository of a process without a database: the development key with every
    scope, and its tenant's policy. *)
Definition dev_policy (cfg : config.Config) : persistence.TenantPolicy :=
  persistence.mkTenantPolicy "INTERNAL" (Some {[config.ProviderName cfg]}) 1000 1000000 100 100000000 0.
Definition dev_key (cfg : config.Config) (prefix : string) : auth.StoredKey :=
  auth.mkStoredKey admin.devKey admin.devTenant "" prefix
    (auth.Hash hmac_sha256 (config.APIKeyPepper cfg) (config.DevAPIKey cfg)) ["*"] None None.

Inductive Repository : Type := InMemory (m : memory.Memory) | InPostgres (c : pool.Config).

Definition gatewayStore (io : IO) (cfg : config.Config) : M (list pool.Config) Repository :=
  if negb (config.DevMemory cfg) then
    c ← pool.NewPostgres io (config.DatabaseURL cfg); mret (InPostgres c)
  else
    prefix ← lift (auth.ParsePrefix (config.DevAPIKey cfg));
    let m := memory.AddAPIKey (dev_key cfg prefix) memory.NewMemory in
    mret (InMemory (memory.SetTenantPolicy admin.devTenant (dev_policy cfg) m)).

(** What [run] builds before it serves. *)
Record Gateway : Type := mkGateway {
  tracing : TracerProvider;
  repository : Repository;
  redis_address : option string;
  selected : Configured;
  router : routing.Router;
  service : gateway.Service;
  gateway_api : api.Gateway
}.

Definition breaker_config : circuitbreaker.Config :=
  circuitbreaker.mkConfig 5 (30 * time.Second) (15 * time.Second) 1.

(** The provider is the first of the process. *)
Definition provider_config (p : Configured) : routing.ProviderConfig :=
  routing.mkProviderConfig (Some (routing.mkHandle 0 (provider.Name p) (provider.CapabilitiesOf p)))
    1 10 50 (30 * time.Second) 1000 2000 true.

Definition start (io : IO) (cfg : config.Config) : M (list pool.Config) Gateway :=
  tracing ← lift (SetupTracing new_exporter "gateway" (config.OTLPEndpoint cfg));
  store ← gatewayStore io cfg;
  let redis := if negb (config.RedisAddress cfg =s "") then Some (config.RedisAddress cfg) else None in
  let limiter := match redis with Some _ => Some (ratelimit.NewLimiter "aegis:limit") | None => None end in
  selected ← lift (configuredProvider cfg);
  router ← lift (routing.NewRouter [provider_config selected] breaker_config);
  let service := gateway.NewService limiter
                   (gateway.mkConfig (strategy_of (config.RoutingStrategy cfg)) 3 0 0 0 0) in
  mret (mkGateway tracing store redis selected router service (api.mkGateway service (config.APIKeyPepper cfg))).

(** [ready]: Redis alone is asked, if it is configured. *)
Definition ready (g : Gateway) (ping : string → option error) : option (option error) :=
  Some match redis_address g with Some a => ping a | None => None end.

(** [closeDependencies]: the repository, Redis, the tracer, whose error is returned. *)
Inductive closing : Type := CloseStore | CloseRedis | ShutdownTracing.
Definition closeDependencies (g : Gateway) (shutdown : option error) : list closing * option error :=
  ([CloseStore] ++ (match redis_address g with Some _ => [CloseRedis] | None => [] end) ++ [ShutdownTracing],
   shutdown).
End Startup.

(** ** Handlers *)

Section Handlers.
Context {S : Type} `{persistence.Store S} {R : Type} `{redis.Server R} {P : Type} `{provider.Interface P}.
Context `{api.Codec}.
Context (json_Marshal : request.ChatInput → res string) (sha256 : string → string)
  (hmac_sha256 : string → string → string) (lower_rune : Z → Z) (env : gateway.Env).
Context (timestamp : time.Time → list Z) (Itoa : Z → string) (redirect_page : string → string).
#[local] Abbreviation W := (gateway.World (S:=S) (R:=R) (P:=P) (C:=api.Client)).
#[local] Abbreviation St := (Served (Process W)).

(** [Register] on a new [ServeMux]. *)
Definition businessMux (g : api.Gateway) : Handler St :=
  mux.ServeHTTP redirect_page
    ((λ route, (mux.parsePattern route.1.1, inside (api.serve hmac_sha256 lower_rune env g route)))
       <$> api.Register json_Marshal sha256 env g).

(** The instrumentation of OpenTelemetry around a handler. *)
Context (otelhttp : Handler St → Handler St).

Definition chain (io : IO) (started finished : time.Time) (maxBody : Z) (g : api.Gateway) : Handler St :=
  middleware.Chain (businessMux g)
    [λ next, middleware.RequestContext timestamp io (copied next);
     middleware.Recover;
     middleware.BodyLimit maxBody;
     HTTPMiddleware Itoa started finished;
     otelhttp].
End Handlers.
End gateway_main.
