(* ===== verification/GatewayMainProofs.v ===== *)
(** * GatewayMainProofs: what the assembled gateway does with any request

    Handlers and middlewares are composed by a small logic of pre- and postconditions
    that ignore the response ([good]); from it: no request without a well-formed
    credential reaches the service through the complete handler of the process, and
    what the metrics of the gateway show of routes. Then the gateway that an
    environment without a database starts. *)

From Stdlib Require Import Ascii.
From S2P Require Import Prelude Golib Request CircuitBreaker Auth Provider Routing RateLimit Store Memory Gateway Regexp Strconv Config Pool Admin Http Mux Observability OpenAI App Api ApiProofs GatewayMain.

Module gateway_main_proofs.
Import http served observability gateway_main.
#[local] Existing Instance api.codec_problem.

(** ** Handlers that keep a condition *)

Section Good.
Context {W : Type} `{Exchange W} `{problem.Encoder}.
#[local] Abbreviation St := (Served (Process W)).

(** Conditions on requests that see no more than the method and the header, and on
    states that do not see the response. *)
Definition head_only (okr : Request → Prop) : Prop :=
  ∀ r r', Method r' = Method r → Header r' = Header r → okr r → okr r'.
Definition blind (J : St → Prop) : Prop := ∀ x s, J s → J (set_writer x s).

Context (okr : Request → Prop) (Post : St → Prop).
Context (Hhead : head_only okr) (Hpost : blind Post).

Definition good (Pre : St → Prop) (h : Handler St) : Prop :=
  ∀ ctx r s, okr r → Pre s → Post (h ctx r s).2.

Lemma blind_modify (J : St → Prop) (f : Writer → Writer) (s : St) : blind J → J s → J (modify f s).2.
Proof. intros HJ Hs. by apply HJ. Qed.
Lemma blind_write (J : St → Prop) (t : string) (s : St) : blind J → J s → J (write t s).2.
Proof. intros HJ Hs. by apply HJ. Qed.

(** Past the writes of a response. *)
#[local] Ltac blindly := cbv beta iota zeta delta [fst snd mret M_ret]; repeat apply Hpost.

Lemma problem_post (d : problem.Detail) (s : St) : Post s → Post (problem.Write d s).2.
Proof. intros Hs. unfold problem.Write, mbind, M_bind, modify, write, act. by blindly. Qed.
Lemma error_post (t : string) (n : Z) (s : St) : Post s → Post (Error t n s).2.
Proof. intros Hs. unfold Error, mbind, M_bind, modify, write, act. by blindly. Qed.
Lemma redirect_post (page : string → string) (r : Request) (l : string) (s : St) :
  Post s → Post (mux.redirect page r l s).2.
Proof.
  intros Hs. unfold mux.redirect, mbind, M_bind, modify, write, act.
  destruct (Method r =s "GET"), (Method r =s "HEAD"); by blindly.
Qed.

(** *** The middlewares *)

Section Wrappers.
Context (Pre : St → Prop) (Hpre : blind Pre) (Hweak : ∀ s, Pre s → Post s).
Context (timestamp : time.Time → list Z).

Lemma good_request_context (io : IO) (next : Handler St) :
  (∀ p s, Post s → Post (set_pattern p s)) →
  good Pre next → good Pre (middleware.RequestContext timestamp io (copied next)).
Proof.
  intros Hpat Hn ctx r s Hr Hs. unfold middleware.RequestContext, mbind, M_bind, modify, act. cbn zeta.
  unfold copied. match goal with |- context [next ?c ?x ?y] => specialize (Hn c x y); destruct (next c x y) as [out s'] end.
  apply Hpat, Hn; [done|]. by repeat apply Hpre.
Qed.
Lemma good_recover (next : Handler St) : good Pre next → good Pre (middleware.Recover next).
Proof.
  intros Hn ctx r s Hr Hs. unfold middleware.Recover. specialize (Hn ctx r s Hr Hs).
  destruct (next ctx r s) as [[] s']; [done..|]. by apply problem_post.
Qed.
Lemma good_body_limit (n : Z) (next : Handler St) : good Pre next → good Pre (middleware.BodyLimit n next).
Proof.
  intros Hn ctx r s Hr Hs. unfold middleware.BodyLimit. destruct (n <? ContentLength r).
  - by apply problem_post, Hweak.
  - apply Hn; [|done]. by apply (Hhead r).
Qed.
Lemma good_mux (page : string → string) (routes : list mux.Route) :
  (∀ p s, Pre s → Pre (set_pattern p s)) →
  (∀ route, route ∈ routes → good (λ s, Pre s ∧ pattern s = mux.text route.1) route.2) →
  good Pre (mux.ServeHTTP page routes).
Proof.
  intros Hpat Hall ctx r s Hr Hs. unfold mux.ServeHTTP.
  destruct (mux.matchRoute routes _ _) as [[route ms]|] eqn:Hf; (destruct (negb _); [apply redirect_post; auto|]).
  - apply mux.matchRoute_elem in Hf. apply (Hall route Hf); [by apply (Hhead r)|]. split; [auto|done].
  - destruct (_ =? 0); [apply error_post; auto|].
    unfold mbind at 1, M_bind at 1, modify, act. cbn zeta. apply error_post. apply Hpost. auto.
Qed.
Lemma good_recorded (next : Handler St) (ctx : Context) (r : Request) (s : St) :
  good Pre next → okr r → Pre s → Post (recorded next ctx r s).1.2.
Proof.
  intros Hn Hr Hs. unfold recorded.
  specialize (Hn ctx r (set_writer (set_called None (writer s)) s) Hr (Hpre _ _ Hs)).
  destruct (next ctx r _) as [out s']. cbn [fst snd] in *.
  destruct (called (writer s')); [exact Hn|]. apply Hpost, Hn.
Qed.
Lemma good_server (page : string → string) (stamp : time.Time → string) (logger : Logger)
  (started finished : time.Time) (routes : list mux.Route) :
  (∀ l s, Post s → Post (app.log l s)) →
  good Pre (mux.ServeHTTP page routes) → good Pre (app.server page stamp logger started finished routes).
Proof.
  intros Hlog Hn ctx r s Hr Hs. unfold app.server, app.accessLog.
  pose proof (good_recorded _ ctx r s Hn Hr Hs) as Hp.
  destruct (recorded _ ctx r s) as [[out s'] status]. cbn [fst snd] in Hp. destruct out; [apply Hlog, Hp..|exact Hp].
Qed.
Lemma good_metered (Itoa : Z → string) (started finished : time.Time) (next : Handler St) :
  (∀ f s, Pre s → Pre (on_metrics f s)) → (∀ f s, Post s → Post (on_metrics f s)) →
  good Pre next → good Pre (HTTPMiddleware Itoa started finished next).
Proof.
  intros H1 H2 Hn ctx r s Hr Hs. unfold HTTPMiddleware.
  pose proof (good_recorded next ctx r (on_metrics (Active 1) s) Hn Hr (H1 _ _ Hs)) as Hp.
  destruct (recorded next ctx r _) as [[out s'] status]. cbn [fst snd] in Hp. apply H2. destruct out; [apply H2, Hp..|exact Hp].
Qed.
End Wrappers.

(** The routes of every process answer by themselves. *)
Lemma good_common (encode_status : string → string) (encode_version : version.Info → string)
  (first second : health.State) (check : option (option error)) (current : version.Info)
  (business mh : option (Handler St)) (Pre : St → Prop) (page : string → string) :
  (∀ s, Pre s → Post s) → (∀ p s, Pre s → Pre (set_pattern p s)) →
  (∀ h, mh = Some h → good Pre h) →
  (∀ h, business = Some h → good (λ s, Pre s ∧ pattern s = "/") h) →
  good Pre (mux.ServeHTTP page (app.routes encode_status encode_version first second check current business mh)).
Proof.
  intros Hweak Hpat Hmh Hb. apply good_mux; [done|done|].
  assert (∀ n v s, Pre s → Post (health.writeJSON encode_status n v s).2) as Hjson.
  { intros n v s Hs. unfold health.writeJSON, mbind, M_bind, modify, write, act. blindly. by apply Hweak. }
  intros route Hin ctx r s Hr [Hs Hp]. unfold app.routes in Hin.
  rewrite elem_of_app, !elem_of_cons, elem_of_nil in Hin.
  destruct Hin as [[->|[->|[->|[->|[]]]]]|Hin]; cbn [snd fst] in *.
  - by apply Hjson.
  - unfold app.readiness, health.Ready. destruct (negb _); [by apply Hjson|].
    destruct check as [[e|]|]; [|by destruct (negb _); apply Hjson..].
    unfold mbind, M_bind, modify, write, act. blindly. by apply Hweak.
  - unfold app.versionHandler, mbind, M_bind, modify, write, act. blindly. by apply Hweak.
  - destruct mh as [h|]; [by apply Hmh|].
    cbn [default]. unfold app.baseMetricsHandler, mbind, M_bind, modify, write, act. blindly. by apply Hweak.
  - destruct business as [h|]; [|by apply elem_of_nil in Hin].
    apply list_elem_of_singleton in Hin as ->. by apply Hb.
Qed.
End Good.

(** ** The gateway *)

Section Gateway.
Context {S : Type} `{persistence.Store S} {R : Type} `{redis.Server R} {P : Type} `{provider.Interface P}.
Context `{api.Codec}.
Context (json_Marshal : request.ChatInput → res string) (sha256 : string → string)
  (hmac_sha256 : string → string → string) (lower_rune : Z → Z) (env : gateway.Env).
Context (timestamp : time.Time → list Z) (Itoa : Z → string) (page : string → string).
#[local] Abbreviation W := (gateway.World (S:=S) (R:=R) (P:=P) (C:=api.Client)).
#[local] Abbreviation St := (Served (Process W)).
(** The instrumentation serves a copy of the request, which carries its span, and is
    transparent otherwise. *)
Context (otelhttp : Handler St → Handler St).
Definition serves_copy : Prop := ∀ next ctx r s, otelhttp next ctx r s = copied next ctx r s.

(** The parts of the process around the chain: encoders, the state of readiness, the
    logger and the handler of the metrics endpoint. *)
Context (encode_status : string → string) (encode_version : version.Info → string) (stamp : time.Time → string)
  (logger : Logger) (current : version.Info) (mh : option (Handler St)).

(** The complete handler of the server of a gateway. *)
Definition gateway_server (io : IO) (started finished : time.Time) (first second : health.State)
  (check : option (option error)) (maxBody : Z) (g : api.Gateway) : Handler St :=
  app.server page stamp logger started finished
    (app.routes encode_status encode_version first second check current
       (Some (chain json_Marshal sha256 hmac_sha256 lower_rune env timestamp Itoa page otelhttp io started finished
                maxBody g)) mh).

Lemma Hotel_good (okr : Request → Prop) (Post Pre : St → Prop) (next : Handler St) :
  serves_copy → (∀ p s, Post s → Post (set_pattern p s)) → good okr Post Pre next → good okr Post Pre (otelhttp next).
Proof.
  intros Ho Hpat Hn ctx r s Hr Hs. rewrite Ho. unfold copied. specialize (Hn ctx r s Hr Hs).
  destruct (next ctx r s). by apply Hpat.
Qed.

(** *** Credentials *)

(** The request shows no credential of the form of a key. *)
Definition keyless (r : Request) : Prop :=
  ∃ plain, api.presented_key lower_rune r = Ok plain ∧ ∀ prefix, auth.ParsePrefix plain ≠ Ok prefix.

Lemma keyless_head : head_only keyless.
Proof.
  intros r r' _ Hh (plain & Hp & Hno). exists plain. split; [|done]. rewrite <- Hp.
  unfold api.presented_key, HeaderGet. by rewrite Hh.
Qed.

#[local] Abbreviation same := (api_proofs.same_service).
Lemma same_trans (w1 w2 w3 : W) : same w1 w2 → same w2 w3 → same w1 w3.
Proof. unfold api_proofs.same_service. intuition congruence. Qed.
Lemma same_next (w w' : W) : same w w' → same (gateway.next env w).2 (gateway.next env w').2.
Proof.
  unfold api_proofs.same_service. destruct w, w'. simpl. intros (-> & -> & -> & -> & -> & -> & ->).
  unfold gateway.next. simpl. by destruct (gateway.others_router _ _ _).
Qed.

(** An authenticated route answers such a request by itself. *)
Lemma problem_same (ctx : Context) (r : Request) (n : Z) (code detail : string) (w : W) :
  same w (respond.writeProblem ctx r n code detail w).2.
Proof.
  destruct (api_proofs.writeProblem_document ctx r n code detail w) as (w' & -> & Hs & _). exact Hs.
Qed.

Lemma keyless_refused (g : api.Gateway) (scope : string) (next : Handler W) (ctx : Context) (r : Request) (w : W) :
  keyless r → same (gateway.next env w).2 (api.authenticate hmac_sha256 lower_rune env g scope next ctx r w).2.
Proof.
  intros (plain & Hp & Hno). unfold api.authenticate, mbind, M_bind, lift. rewrite Hp.
  unfold caught, api.verify, mbind, M_bind, act.
  destruct (gateway.next env w) as [[io|e|why] w1]; cbn [fst snd]; [|apply problem_same|by repeat split].
  assert (∀ lookup, auth.Verify hmac_sha256 lookup (api.pepper g) plain (io_now io) = Err auth.ErrInvalidKey) as Hv.
  { intros lookup. unfold auth.Verify. destruct (auth.ParsePrefix_total plain) as [[p Hq]|Hq]; [by apply Hno in Hq|].
    by rewrite Hq. }
  rewrite Hv. apply problem_same.
Qed.

(** C14 (safety): the service is behind authentication, whatever the request. Through the
    complete handler of the process (access log, routing, identifiers, recovery, body
    limit, metrics, instrumentation, the API's routes) a request whose headers show no
    credential of a key's form, with any method, path, query and body, leaves the store,
    the router, Redis and the providers as they are, but for what other clients do
    meanwhile. *)
Theorem keyless_harmless (io : IO) (started finished : time.Time) (first second : health.State)
  (check : option (option error)) (maxBody : Z) (g : api.Gateway) (ctx : Context) (r : Request) (s : St) :
  serves_copy → (∀ h, mh = Some h → ∀ ctx r s, base (h ctx r s).2 = base s) → keyless r →
  let w := observability.service (base s) in
  let w' := observability.service
              (base (gateway_server io started finished first second check maxBody g ctx r s).2) in
  same w w' ∨ same (gateway.next env w).2 w'.
Proof.
  intros Ho Hmh Hr. cbn zeta. set (w0 := observability.service (base s)).
  set (Pre := λ s : St, same w0 (observability.service (base s))).
  set (Post := λ s : St, same w0 (observability.service (base s)) ∨
                         same (gateway.next env w0).2 (observability.service (base s))).
  assert (blind Pre) as Hpre by (intros x t Ht; exact Ht).
  assert (blind Post) as Hpost by (intros x t Ht; exact Ht).
  assert (∀ t, Pre t → Post t) as Hweak by by left.
  assert (Pre s) as Hs by by repeat split.
  change (Post (gateway_server io started finished first second check maxBody g ctx r s).2).
  apply (good_server keyless Post Hpost Pre Hpre); [done| |exact Hr|exact Hs].
  apply good_common; [apply keyless_head|done|done|done|intros h Hh ctx' r' t _ Ht|].
  { left. by rewrite (Hmh h Hh). }
  intros h [= <-]. unfold chain, middleware.Chain. cbn [foldr].
  apply good_request_context; [by intros x t [Ht Hp]|done|].
  apply good_recover; [done|]. apply good_body_limit; [apply keyless_head|done|by intros t [Ht _]; apply Hweak|].
  apply good_metered; [done|by intros x t [Ht Hp]|done|done|].
  apply Hotel_good; [done..|].
  intros ctx' r' t Hr' [Ht _]. revert ctx' r' t Hr' Ht. apply good_mux; [apply keyless_head|done|done|done|].
  intros route Hin ctx' r' t Hr' [Ht _]. apply list_elem_of_fmap in Hin as (x & -> & _). cbn [snd].
  unfold inside. pose proof (keyless_refused g x.1.2 x.2 ctx' r' (observability.service (base t)) Hr') as Hk.
  unfold api.serve. destruct (api.authenticate _ _ _ _ _ _ _ _ _) as [out w1]. right.
  eapply same_trans; [|exact Hk]. by apply same_next.
Qed.

(** *** Metrics *)

(** C39 (error): the gateway's metrics do not tell its routes apart. The middleware takes
    the label of a request from the pattern the router wrote into the request object,
    but in the gateway the instrumentation between them serves a copy: whatever the
    request, if it is counted at all, it is counted under the route "/" of the outer
    router, and never under the template of its route. (A request that panics or whose
    body is too large is not counted at all.) *)
Theorem gateway_routes_unlabelled (io : IO) (started finished : time.Time) (first second : health.State)
  (check : option (option error)) (maxBody : Z) (g : api.Gateway) (ctx : Context) (r : Request) (s : St) :
  serves_copy → (∀ h, mh = Some h → ∀ ctx r s, base (h ctx r s).2 = base s) →
  let m := metrics (base s) in
  let m' := metrics (base (gateway_server io started finished first second check maxBody g ctx r s).2) in
  m' = m ∨ counted r "/" m m'.
Proof.
  intros Ho Hmh. cbn zeta. set (m0 := metrics (base s)).
  set (okr := λ x : Request, Method x = Method r).
  set (Pre := λ s : St, metrics (base s) = m0).
  set (Post := λ s : St, metrics (base s) = m0 ∨ counted r "/" m0 (metrics (base s))).
  assert (head_only okr) as Hhead by (intros x y Hm _ Hx; unfold okr in *; congruence).
  assert (blind Pre) as Hpre by (intros x t Ht; exact Ht).
  assert (blind Post) as Hpost by (intros x t Ht; exact Ht).
  assert (∀ t, Pre t → Post t) as Hweak by by left.
  change (Post (gateway_server io started finished first second check maxBody g ctx r s).2).
  apply (good_server okr Post Hpost Pre Hpre); [done| |done|done].
  apply good_common; [done|done|done|done|intros h Hh ctx' r' t _ Ht|].
  { left. by rewrite (Hmh h Hh). }
  intros h [= <-]. unfold chain, middleware.Chain. cbn [foldr].
  apply good_request_context; [by intros x t [Ht Hp]|done|].
  apply good_recover; [done|]. apply good_body_limit; [done|done|by intros t [Ht _]; apply Hweak|].
  intros ctx' r' t Hr' [Ht Hp].
  set (inner := businessMux _ _ _ _ _ _ g).
  assert (keeps_metrics inner) as Hk.
  { intros c x y. apply mux_keeps. apply Forall_fmap, Forall_true. intros route. apply inside_keeps. }
  assert (HTTPMiddleware Itoa started finished (otelhttp inner) ctx' r' t =
          HTTPMiddleware Itoa started finished (copied inner) ctx' r' t) as ->.
  { unfold HTTPMiddleware, recorded. by rewrite Ho. }
  pose proof (copy_counted Itoa started finished inner ctx' r' t Hk) as Hc.
  destruct (HTTPMiddleware _ _ _ _ _ _ _) as [out t']. destruct Hc as [_ Hc]. rewrite Ht, Hp in Hc.
  unfold Post, counted in *. cbn [snd]. rewrite <- Hr'. destruct out; [by right..|by left].
Qed.
End Gateway.

(** ** Start-up *)

Section Startup.
Context `{openai.Transport} `{pool.Driver}.
Context (hmac_sha256 : string → string → string) (new_exporter : string → option error).

(** Whichever provider is configured, it has the configured name and models and may see
    all data. *)
Lemma configuredProvider_spec (cfg : config.Config) :
  config.ProviderName cfg ≠ "" → config.ProviderModels cfg ≠ [] →
  ∃ p, configuredProvider cfg = Ok p ∧ provider.Name p = config.ProviderName cfg ∧
    provider.CapabilitiesOf p =
      provider.mkCapabilities (list_to_set (config.ProviderModels cfg)) {["PUBLIC"; "INTERNAL"; "CONFIDENTIAL"]}.
Proof.
  intros Hn Hm. unfold configuredProvider. destruct (String.eqb_spec (config.ProviderEndpoint cfg) "") as [He|He].
  - eexists. split; [done|]. cbn. unfold provider.mock_Name, provider.mock_Capabilities. cbn.
    apply String.eqb_neq in Hn. rewrite Hn. by destruct (config.ProviderModels cfg).
  - unfold openai.NewOpenAICompatible. cbn. apply String.eqb_neq in Hn, He. rewrite Hn, He. cbn.
    eexists. split; [done|]. split; [done|]. cbn. unfold openai.adapter_Capabilities. by cbn.
Qed.

(** The router of the process: one provider, fresh. *)
Lemma start_router (p : Configured) :
  ∃ e, routing.NewRouter [provider_config p] breaker_config = Ok (routing.mkRouter [e] 0 float64.c0_2) ∧
    routing.inv (routing.mkRouter [e] 0 float64.c0_2) [] ∧
    routing.provider_ e = routing.mkHandle 0 (provider.Name p) (provider.CapabilitiesOf p) ∧
    routing.Enabled (routing.config e) = true ∧ routing.healthy e = true ∧
    routing.semaphore e < routing.MaxConcurrency (routing.config e) ∧
    routing.breaker e = circuitbreaker.New breaker_config.
Proof.
  eexists. split; [reflexivity|]. split; [|done].
  apply (routing.NewRouter_inv [provider_config p] breaker_config); [|reflexivity].
  split; [by vm_compute|]. split; [|done]. repeat constructor; vm_compute; discriminate.
Qed.

(** C18 (functional): a gateway without a database works out of the box. Given a valid
    configuration (what [Load] returns) that selects the in-memory repository, start-up
    succeeds exactly if the development key is well formed (the exporter of traces, if
    one is configured, being constructed). The key is then accepted as a key of the
    development tenant with every scope, the tenant has a policy, and for every
    configured model and every routing strategy the router leases the configured
    provider under that policy. No database pool is opened. *)
Theorem dev_gateway_serves (io : IO) (cfg : config.Config) (pools : list pool.Config) :
  config.valid cfg → config.DevMemory cfg = true → new_exporter (config.OTLPEndpoint cfg) = None →
  match auth.ParsePrefix (config.DevAPIKey cfg) with
  | Ok _ =>
    ∃ g m policy,
      start hmac_sha256 new_exporter io cfg pools = (Ok g, pools) ∧ repository g = InMemory m ∧
      (∀ io' now, auth.Verify hmac_sha256 (λ prefix, (persistence.FindAPIKeyByPrefix io' prefix m).1)
         (api.pepper (gateway_api g)) (config.DevAPIKey cfg) now =
         Ok (auth.mkPrincipal admin.devKey admin.devTenant "" {["*"]})) ∧
      (∀ io' model, (persistence.GetTenantPolicy io' admin.devTenant model m).1 = Ok policy) ∧
      ∀ wall now strategy model, model ∈ config.ProviderModels cfg →
      ∃ l r', routing.Select wall (routing.mkSelection model (persistence.DataClassification policy)
                (persistence.AllowedProviders policy) ∅ strategy now) (router g) = (Ok l, r') ∧
              routing.Name (routing.lease_Provider l) = config.ProviderName cfg
  | Err e => start hmac_sha256 new_exporter io cfg pools = (Err e, pools)
  | Panic _ => False
  end.
Proof.
  intros Hv Hdev Hexp. destruct (config.valid_names cfg Hv) as (_ & _ & Hname & _).
  destruct (config.valid_models cfg Hv) as [Hmodels _].
  destruct (configuredProvider_spec cfg Hname Hmodels) as (p & Hp & Hpn & Hpc).
  destruct (start_router p) as (e & Hr & Hinv & Heh & Hen & Hhe & Hcap & Hbr).
  assert (∃ tp, SetupTracing new_exporter "gateway" (config.OTLPEndpoint cfg) = Ok tp) as [tp Htp].
  { unfold SetupTracing. rewrite Hexp. destruct (negb _); by eexists. }
  unfold start, mbind, M_bind, lift. rewrite Htp. unfold gatewayStore. rewrite Hdev. cbn [negb].
  unfold mbind, M_bind, lift.
  destruct (auth.ParsePrefix_total (config.DevAPIKey cfg)) as [[prefix Hpre]|Hpre]; rewrite Hpre; [|done].
  cbn [fst snd]. rewrite Hp, Hr. eexists _, _, (dev_policy cfg). split; [reflexivity|]. split; [reflexivity|].
  split_and!.
  - intros io' now. unfold auth.Verify. rewrite Hpre. cbn. unfold memory.find_key. cbn.
    rewrite lookup_insert_eq. cbn. rewrite (proj2 (auth.hash_check _ _)) by done.
    unfold auth.principal_of. cbn. by rewrite (right_id_L ∅ (∪)).
  - intros io' model. cbn. unfold memory.tenant_policy. cbn. by rewrite lookup_insert_eq.
  - intros wall now strategy model Hm. cbn [router].
    set (sel := routing.mkSelection _ _ _ _ _ _).
    destruct (routing.Select_cases wall sel _ [] Hinv) as [(pre & i & e' & post & Hl)|[_ Hno]].
    + destruct Hl as (r1 & r2 & _ & _ & Hi & _ & _ & _ & ->). eexists _, _. split; [done|].
      destruct i as [|i]; [|by destruct i]. injection Hi as <-. cbn [routing.make_lease routing.lease_Provider]. rewrite Heh. exact Hpn.
    + assert (routing.Name (routing.provider_ e) = config.ProviderName cfg) as HN by (rewrite Heh; exact Hpn).
      assert (routing.Capabilities (routing.provider_ e) = provider.mkCapabilities
        (list_to_set (config.ProviderModels cfg)) {["PUBLIC"; "INTERNAL"; "CONFIDENTIAL"]}) as HC
        by (rewrite Heh; exact Hpc).
      exfalso. specialize (Hno 0%nat e eq_refl). unfold routing.grants in Hno. rewrite Hbr in Hno.
      cut (true = false); [done|]. apply Hno. split.
      * split; cbn [routing.static fst snd]; [done| | |].
        -- intros s [= <-]. rewrite HN. by apply elem_of_singleton.
        -- rewrite HC. by apply elem_of_list_to_set.
        -- rewrite HC. cbn. set_solver.
      * done.
      * apply not_elem_of_empty.
      * rewrite Hbr. by vm_compute.
      * done.
Qed.
End Startup.
End gateway_main_proofs.
