(* ===== verification/GatewayMainDemo.v ===== *)
(** * GatewayMainDemo: concrete requests through the assembled gateway *)

From S2P Require Import Prelude Golib Request CircuitBreaker Auth Provider Routing RateLimit Store Memory Gateway GatewayDemo Regexp Strconv Config Pool Admin AdminDemo Http Mux Observability OpenAI MockApi App Api ApiProofs ApiDemo GatewayMain GatewayMainProofs.

Module gateway_main_demo.
Import http served observability gateway_main gateway_main_proofs api_demo.

Abbreviation St := (Served (Process W)).
Definition idle : St := mkServed (mkProcess world (mkMetrics ∅ ∅ 0) []) "".
Definition clock_bytes (t : time.Time) : list Z := [1].
Definition itoa (n : Z) : string := if n =? 200 then "200" else if n =? 401 then "401" else "other".
Definition same_text (s : string) : string := s.
Definition stamp (t : time.Time) : string := "now".
Definition version_text (v : version.Info) : string := version.Version v.
Definition logger : Logger := NewLogger same_text "gateway" "1.0" "test" "INFO".
Definition current : version.Info := version.Current "1.0" "c" "t" "go".
Definition up : health.State := health.SetReady true health.NewState.

(** The complete handler, with instrumentation that serves a copy. *)
#[local] Abbreviation handler :=
  (gateway_server gateway_demo.marshal gateway_demo.digest digest lower gateway_demo.env clock_bytes itoa same_text
     copied same_text version_text stamp logger current None (quiet 0 (repeat 7 16)) 0 time.Second up up None 1048576 gw).
Definition serve (r : Request) (s : St) : res unit * St := handler background r s.

(** A streamed completion: the answer, the metrics and the log. *)
Example chat_served :
  let s := (serve (post plain) idle).2 in
  seen (observability.service (base s)) = (Some 200, api_proofs.events ["Deterministic "; "response "; "to: "; "hi"; ""]
    +:+ api_proofs.done_event) ∧
  map_to_list (HTTPRequests (metrics (base s))) = [(("POST", "/", "200"), 1)] ∧
  ActiveRequests (metrics (base s)) = 0 ∧ length (lines (base s)) = 1%nat.
Proof. vm_compute. repeat split. Qed.

(** Other paths and methods, and a probe. *)
Definition at_path (method path : string) : Request := mkRequest method path path [] "" 0 [] [] None.
Definition status_of (r : Request) : option Z :=
  fst <$> sent (writer (base (serve r idle).2)).
Example routing_examples :
  status_of (at_path "GET" "/health/live") = Some 200 ∧ status_of (at_path "GET" "/health/ready") = Some 200 ∧
  status_of (at_path "HEAD" "/version") = Some 200 ∧ status_of (at_path "GET" "/v1/nowhere") = Some 404 ∧
  status_of (at_path "DELETE" "/v1/chat/completions") = Some 405 ∧
  status_of (at_path "POST" "/v1//chat/../completions") = Some 307 ∧
  status_of (at_path "GET" "/v1/requests/42") = Some 401 ∧
  status_of (at_path "POST" "/health/live") = Some 404.
Proof. vm_compute. repeat split. Qed.

(** Nothing of a request without a key gets to the service. *)
Definition stranger : Request := at_path "POST" "/v1/chat/completions".
Lemma keyless_harmless_witness :
  api_proofs.same_service (observability.service (base idle))
    (observability.service (base (handler background stranger idle).2)) ∨
  api_proofs.same_service (gateway.next gateway_demo.env (observability.service (base idle))).2
    (observability.service (base (handler background stranger idle).2)).
Proof.
  refine (keyless_harmless gateway_demo.marshal gateway_demo.digest digest lower gateway_demo.env clock_bytes itoa
    same_text copied same_text version_text stamp logger current None (quiet 0 (repeat 7 16)) 0 time.Second up up None
    1048576 gw background stranger idle _ _ _).
  - intros next ctx r s. reflexivity.
  - intros h Hh. discriminate.
  - exists "". split; [vm_compute; reflexivity|]. intros prefix Hp. vm_compute in Hp. discriminate.
Defined.

Lemma gateway_routes_unlabelled_witness :
  metrics (base (handler background (post plain) idle).2) = metrics (base idle) ∨
  counted (post plain) "/" (metrics (base idle)) (metrics (base (handler background (post plain) idle).2)).
Proof.
  refine (gateway_routes_unlabelled gateway_demo.marshal gateway_demo.digest digest lower gateway_demo.env clock_bytes itoa
    same_text copied same_text version_text stamp logger current None (quiet 0 (repeat 7 16)) 0 time.Second up up None
    1048576 gw background (post plain) idle _ _).
  - intros next ctx r s. reflexivity.
  - intros h Hh. discriminate.
Defined.

(** Start-up with the default environment. *)
#[local] Instance network : openai.Transport := {|
  openai.check_url _ := Ok ();
  openai.do_request _ _ _ := Err (New "connection refused");
  openai.ctx_deadline _ := None;
  openai.clock_after io := io_now io;
  openai.encode_payload _ := Ok "{}";
  openai.decode_answer _ _ := Err (New "unexpected end of JSON input");
  openai.decode_event _ := Err (New "unexpected end of JSON input")
|}.
Definition default_config : config.Config :=
  match config.Load (λ _, "") same_text "gateway" with Ok c => c | _ => admin_demo.cfg end.

Lemma default_valid : config.valid default_config.
Proof.
  split. 1-6, 9: by vm_compute.
  - split; [vm_compute; discriminate|]. change (config.items_ok ["aegis-small"; "aegis-medium"]).
    repeat (apply Forall_cons; split); [split; [done|]..|by apply Forall_nil].
    + by exists "aegis-small".
    + by exists "aegis-medium".
  - change (config.items_ok []). apply Forall_nil_2.
Qed.

Lemma dev_gateway_serves_witness :
  ∃ g m, start admin_demo.hmac (λ _, None) (quiet 0 []) default_config [] = (Ok g, []) ∧ repository g = InMemory m ∧
    auth.Verify admin_demo.hmac (λ prefix, (persistence.FindAPIKeyByPrefix (quiet 0 []) prefix m).1)
      (api.pepper (gateway_api g)) (config.DevAPIKey default_config) 0 =
      Ok (auth.mkPrincipal admin.devKey admin.devTenant "" {["*"]}).
Proof.
  pose proof (dev_gateway_serves admin_demo.hmac (λ _, None) (quiet 0 []) default_config [] default_valid eq_refl eq_refl)
    as H.
  destruct (auth.ParsePrefix (config.DevAPIKey default_config)) as [prefix|e|why] eqn:Hp;
    [|vm_compute in Hp; discriminate..].
  destruct H as (g & m & policy & Hstart & Hm & Hverify & _).
  exists g, m. split; [exact Hstart|]. split; [exact Hm|]. apply Hverify.
Defined.
End gateway_main_demo.
