(* ===== verification/Processes.v ===== *)
(** * Processes: the other commands

    Models the start-up, readiness and shutdown of [cmd/outbox-relay], [cmd/audit-consumer],
    [cmd/evaluation-worker], [cmd/evaluation-api], [cmd/mock-provider] and
    [cmd/healthcheck]; the clients of Kafka they construct ([internal/kafka/]); and the
    pool of goroutines of [internal/rabbitmq/rabbitmq.go] ([Worker.Run]) as a step
    relation. *)

From S2P Require Import Prelude Golib Auth Provider Outbox AuditTrail Config Pool Evaluators EvalStore Amqp Jobs Http Mux Observability EvaluationApi OpenAI MockApi App Postgres Admin GatewayMain.

(** ** Clients of Kafka *)

Module kafka_clients.
(** The settings of the writer: every in-sync replica acknowledges, and a call waits for
    its message. *)
Record Publisher : Type := mkPublisher {
  writer_brokers : list string;
  writer_topic : string;
  RequireAll : bool;
  Async : bool;
  BatchTimeout : time.Duration;
  WriteTimeout : time.Duration;
  ReadTimeout : time.Duration
}.
Definition NewPublisher (brokers : list string) (topic : string) : Publisher :=
  mkPublisher brokers topic true false (10 * time.Millisecond) (10 * time.Second) (10 * time.Second).

(** The settings of the reader: offsets are committed by the call, from the first on. *)
Record Consumer : Type := mkConsumer {
  reader_brokers : list string;
  reader_topic : string;
  GroupID : string;
  MinBytes : Z;
  MaxBytes : Z;
  MaxWait : time.Duration;
  CommitInterval : time.Duration;
  FirstOffset : bool;
  consumer_name : string
}.
Definition NewConsumer (brokers : list string) (topic groupID name : string) : Consumer :=
  mkConsumer brokers topic groupID 1 (Z.shiftl 10 20) time.Second 0 true name.
End kafka_clients.

(** ** The pool of an evaluation worker *)

Module worker_pool.

(** [idle] goroutines wait in their [select], [busy] ones are in [process]; [closed] says
    that the channel of deliveries was closed, [cancelled] that the context is done,
    [returned] that [Run] has; [taken] and [finished] count the deliveries. *)
Record State : Type := mkState {
  idle : nat;
  busy : nat;
  closed : bool;
  cancelled : bool;
  returned : bool;
  taken : nat;
  finished : nat
}.

(** [Run] up to its goroutines. *)
Definition start (concurrency : Z) : State := mkState (Z.to_nat concurrency) 0 false false false 0 0.
Definition Run {B} `{amqp.Broker B} (io : IO) (w : rabbitmq.Worker) : M B State :=
  _ ← rabbitmq.ConsumerChannel io (rabbitmq.concurrency w);
  mret (start (rabbitmq.concurrency w)).

(** A [select] with both cases ready takes either; [Run] waits for its context and then
    for the goroutines. *)
Inductive step : State → State → Prop :=
| s_take i b can ret t f : step (mkState (S i) b false can ret t f) (mkState i (S b) false can ret (S t) f)
| s_finish i b cl can ret t f : step (mkState i (S b) cl can ret t f) (mkState (S i) b cl can ret t (S f))
| s_leave_cancelled i b cl ret t f : step (mkState (S i) b cl true ret t f) (mkState i b cl true ret t f)
| s_leave_closed i b can ret t f : step (mkState (S i) b true can ret t f) (mkState i b true can ret t f)
| s_close i b can ret t f : step (mkState i b false can ret t f) (mkState i b true can ret t f)
| s_cancel i b cl ret t f : step (mkState i b cl false ret t f) (mkState i b cl true ret t f)
| s_return cl t f : step (mkState 0 0 cl true false t f) (mkState 0 0 cl true true t f).

(** What [Run] has returned: nothing yet, or nil. *)
Definition result (s : State) : option (option error) := if returned s then Some None else None.

(** The pool is bounded, no delivery is lost, and [Run] returns only when it was told to
    stop and nothing is being processed. *)
Definition Inv (concurrency : Z) (s : State) : Prop :=
  (idle s + busy s ≤ Z.to_nat concurrency)%nat ∧ taken s = (finished s + busy s)%nat ∧
  (returned s = true → cancelled s = true ∧ idle s = 0%nat ∧ busy s = 0%nat).
Lemma Inv_step (n : Z) (s s' : State) : step s s' → Inv n s → Inv n s'.
Proof. unfold Inv. intros []; simpl; naive_solver lia. Qed.
Lemma pool_inv (n : Z) (s : State) : rtc step (start n) s → Inv n s.
Proof.
  assert (Inv n (start n)) as H0 by (unfold Inv; simpl; split_and!; [lia|done|done]).
  intros Hs. revert H0. induction Hs as [|s1 s2 s3 Hst _ IH]; [done|]. intros H1. apply IH. by eapply Inv_step.
Qed.

(** From any state the pool can empty itself once its goroutines may leave. *)
Lemma drains (s : State) :
  closed s || cancelled s = true →
  ∃ s', rtc step s s' ∧ idle s' = 0%nat ∧ busy s' = 0%nat ∧ closed s' = closed s ∧
        cancelled s' = cancelled s ∧ returned s' = returned s.
Proof.
  destruct s as [i b cl can ret t f]. simpl. intros Hl. revert i f. induction b as [|b IH]; intros i f.
  - induction i as [|i IHi]; [by eexists|]. destruct IHi as (s' & Hs & ?). exists s'. split; [|done].
    eapply rtc_l; [|exact Hs]. destruct can; [apply s_leave_cancelled|]. destruct cl; [apply s_leave_closed|done].
  - destruct (IH (S i) (S f)) as (s' & Hs & ?). exists s'. split; [|done]. eapply rtc_l; [apply s_finish|exact Hs].
Qed.

(** Told to stop, [Run] can always come to its end, with every delivery it took
    processed. *)
Lemma cancelled_returns (n : Z) (s : State) :
  rtc step (start n) s → cancelled s = true → returned s = false →
  ∃ s', rtc step s s' ∧ returned s' = true ∧ taken s' = finished s'.
Proof.
  intros Hn Hc Hr. destruct (drains s) as (s' & Hs & Hi & Hb & _ & Hc' & Hr'); [rewrite Hc; apply orb_true_r|].
  destruct (pool_inv n s') as (_ & Ht & _); [by etrans|].
  destruct s' as [i b cl can ret t f]. simplify_eq/=. rewrite Hc, Hr in Hs.
  exists (mkState 0 0 cl true true (f + 0) f). split_and!; [|done|simpl; lia].
  eapply rtc_r; [exact Hs|apply s_return].
Qed.

(** Once the deliveries have ended, none is ever taken again. *)
Lemma closed_takes_nothing (s s' : State) : rtc step s s' → closed s = true → taken s' = taken s ∧ closed s' = true.
Proof.
  induction 1 as [|s1 s2 s3 Hst _ IH]; [done|]. intros Hc.
  assert (closed s2 = true ∧ taken s2 = taken s1) as [Hc2 <-] by (by destruct Hst). by apply IH.
Qed.
End worker_pool.

(** ** Processes *)

Module processes.
Import kafka_clients.

(** [workerFailed], which only the goroutine of the worker sets, once [Run] has returned
    an error. *)
Definition workerFailed (result : option (option error)) : bool :=
  match result with Some (Some _) => true | _ => false end.

(** The readiness check of the three workers: the worker, then the database. *)
Definition ready (stopped : string) (result : option (option error)) (ping : res unit) : option error :=
  if workerFailed result then Some (New stopped)
  else match ping with Ok _ => None | Err e => Some e | Panic w => Some (New w) end.
Definition relay_stopped : string := "relay worker stopped".
Definition consumer_stopped : string := "consumer stopped".
Definition worker_stopped : string := "worker stopped".

(** What closing the dependencies does, in order; errors are dropped. *)
Inductive closing : Type := CancelWorker | ClosePublisher | CloseConsumer | CloseRabbit | ClosePool.
Definition close_relay : list closing := [CancelWorker; ClosePublisher; ClosePool].
Definition close_consumer : list closing := [CancelWorker; CloseConsumer; ClosePool].
Definition close_worker : list closing := [CancelWorker; CloseRabbit; ClosePool].
Definition close_api : list closing := [CloseRabbit; ClosePool].

Section Start.
Context `{pool.Driver} {D B : Type} `{amqp.Broker B}.
(** Lower case outside ASCII. *)
Context (lower_rune : Z → Z).

(** The open pools, and what the processes share. *)
#[local] Abbreviation Outside := (list pool.Config * rabbitmq.World D B)%type.
Definition on_pools {A} (m : M (list pool.Config) A) : M Outside A := λ w,
  let '(out, pools) := m w.1 in (out, (pools, w.2)).
Definition on_rabbit {A} (m : M (rabbitmq.World D B) A) : M Outside A := λ w,
  let '(out, rabbit) := m w.2 in (out, (w.1, rabbit)).

(** Each process after its configuration has been loaded, up to [Serve]. *)

Record RelayProcess : Type := mkRelayProcess {
  relay_pool : pool.Config;
  relay_publisher : Publisher;
  relay_loop : relay.Relay;
  relay_metrics : observability.Metrics * observability.Registry
}.
Definition outbox_relay (io : IO) (cfg : config.Config) (hostname : string) : M Outside RelayProcess :=
  postgres ← on_pools (pool.NewPostgres io (config.DatabaseURL cfg));
  let publisher := NewPublisher (config.KafkaBrokers cfg) (config.KafkaTopic cfg) in
  let relay := relay.NewRelay hostname 100 (500 * time.Millisecond) in
  metrics ← lift (observability.NewMetrics "outbox-relay" []);
  mret (mkRelayProcess postgres publisher relay metrics).

Record ConsumerProcess : Type := mkConsumerProcess {
  consumer_pool : pool.Config;
  consumer_loop : Consumer;
  consumer_metrics : observability.Metrics * observability.Registry
}.
Definition audit_consumer (io : IO) (cfg : config.Config) : M Outside ConsumerProcess :=
  postgres ← on_pools (pool.NewPostgres io (config.DatabaseURL cfg));
  let consumer := NewConsumer (config.KafkaBrokers cfg) (config.KafkaTopic cfg) (config.KafkaConsumerGroup cfg)
                    "audit-usage-v1" in
  metrics ← lift (observability.NewMetrics "audit-consumer" []);
  mret (mkConsumerProcess postgres consumer metrics).

(** The worker's pool as its goroutine starts it. *)
Record WorkerProcess : Type := mkWorkerProcess {
  worker_db : pool.Config;
  worker : rabbitmq.Worker;
  worker_metrics : observability.Metrics * observability.Registry
}.
Definition evaluation_worker (io : IO) (cfg : config.Config) : M Outside WorkerProcess :=
  postgres ← on_pools (pool.NewPostgres io (config.DatabaseURL cfg));
  rabbit ← on_rabbit (rabbitmq.Connect io);
  let worker := rabbitmq.NewWorker rabbit (evaluation.suite lower_rune) (config.WorkerConcurrency cfg) 3 in
  metrics ← lift (observability.NewMetrics "evaluation-worker" []);
  mret (mkWorkerProcess postgres worker metrics).

(** The API, with the manager its service publishes through. *)
Record ApiProcess : Type := mkApiProcess {
  api_pool : pool.Config;
  api_publisher : N;
  api_handlers : evaluation_api.Evaluation;
  api_metrics : observability.Metrics * observability.Registry
}.
Definition evaluation_api_process (io : IO) (cfg : config.Config) : M Outside ApiProcess :=
  postgres ← on_pools (pool.NewPostgres io (config.DatabaseURL cfg));
  rabbit ← on_rabbit (rabbitmq.Connect io);
  metrics ← lift (observability.NewMetrics "evaluation-api" []);
  mret (mkApiProcess postgres rabbit (evaluation_api.mkEvaluation (config.APIKeyPepper cfg)) metrics).
End Start.

(** *** The handlers of the evaluation API and of the mock provider *)

Section Handlers.
Import http served observability.
#[local] Existing Instance evaluation_api.codec_problem.
Context (timestamp : time.Time → list Z) (Itoa : Z → string) (redirect_page : string → string).

Section EvaluationApi.
Context {D B : Type} `{evaluation_api.Keys D} `{evaluationjob.Store D} `{amqp.Broker B} `{rabbitmq.Wire}
  `{evaluationjob.Hashing} `{evaluation_api.Codec}.
Context (hmac_sha256 : string → string → string) (lower_rune : Z → Z).

(** The shared world with the connection of the request. *)
Record Connected : Type := mkConnected { shared : rabbitmq.World D B; connection : Writer }.
#[global] Instance connected_exchange : Exchange Connected.
Proof. by refine {| writer := connection; set_writer := λ x w, mkConnected (shared w) x |}. Defined.
#[local] Abbreviation St := (Served (Process Connected)).

(** A program of the API as a handler: its steps on the shared world, the answer to the
    connection. [ios] are the outside worlds of the steps. *)
Definition answering (h : evaluation_api.handler (D:=D) (B:=B)) (ios : nat → IO) : Handler Connected := λ ctx r c,
  let '(answer, w) := prog.run (h ctx r) ios (shared c) in
  let '(out, o) := answer (connection c) in
  (out, mkConnected w o).

Definition evaluation_mux (p : ApiProcess) (ios : nat → IO) : Handler St :=
  mux.ServeHTTP redirect_page
    ((λ route, (mux.parsePattern route.1.1,
                inside (answering (evaluation_api.serve hmac_sha256 lower_rune (api_handlers p) route) ios)))
       <$> evaluation_api.Register (api_publisher p)).
Definition evaluation_chain (p : ApiProcess) (io : IO) (ios : nat → IO) (started finished : time.Time) (maxBody : Z)
  : Handler St :=
  middleware.Chain (evaluation_mux p ios)
    [λ next, middleware.RequestContext timestamp io (copied next);
     middleware.Recover;
     middleware.BodyLimit maxBody;
     HTTPMiddleware Itoa started finished].

(** Here the router is right behind the metrics: a request is counted under the template
    of a route of the API, or as unmatched. *)
Lemma evaluation_labels (p : ApiProcess) (ios : nat → IO) (started finished : time.Time) (ctx : Context)
  (r : Request) (s : St) :
  let '(out, s') := HTTPMiddleware Itoa started finished (evaluation_mux p ios) ctx r s in
  match out with
  | Panic _ => metrics (base s') = metrics (base s)
  | _ => ∃ route, counted r route (metrics (base s)) (metrics (base s')) ∧
           route ∈ ["POST /v1/evaluations"; "GET /v1/evaluations/{evaluation_id}"; "GET /v1/evaluations";
                    "POST /v1/evaluations/{evaluation_id}/retry"; "unmatched"]
  end.
Proof.
  unfold evaluation_mux. set (routes := _ <$> _).
  pose proof (template_counted Itoa redirect_page started finished routes ctx r s) as Hc.
  assert (Forall (λ route, keeps_metrics route.2 ∧ keeps_pattern route.2) routes) as Hk.
  { apply Forall_fmap, Forall_true. intros route. apply inside_keeps. }
  specialize (Hc Hk). destruct (HTTPMiddleware _ _ _ _ _ _ _) as [out s'].
  assert (matched routes r ∈ ["POST /v1/evaluations"; "GET /v1/evaluations/{evaluation_id}"; "GET /v1/evaluations";
                    "POST /v1/evaluations/{evaluation_id}/retry"; ""]) as Hin.
  { unfold matched. destruct (mux.matchRoute _ _ _) as [[route ms]|] eqn:Hf; [|set_solver].
    apply mux.matchRoute_elem in Hf. unfold routes, evaluation_api.Register in Hf. cbn in Hf.
    rewrite !elem_of_cons, elem_of_nil in Hf. naive_solver set_solver. }
  assert ((if matched routes r =s "" then "unmatched" else matched routes r) ∈
          ["POST /v1/evaluations"; "GET /v1/evaluations/{evaluation_id}"; "GET /v1/evaluations";
           "POST /v1/evaluations/{evaluation_id}/retry"; "unmatched"]) as Hin'.
  { destruct (String.eqb_spec (matched routes r) ""); [|]; set_solver. }
  destruct out; [by eexists|by eexists|done].
Qed.
End EvaluationApi.

Section MockProvider.
Context `{mock_api.Codec} `{problem.Encoder}.
#[local] Abbreviation St := (Served (Process mock_api.World)).

Definition configured_mock (cfg : config.Config) : provider.Mock :=
  provider.NewMock (provider.mkMockConfig (config.ProviderName cfg) (config.ProviderModels cfg) 0 0 "").
Definition Register (io : IO) : list mux.Route :=
  [(mux.parsePattern "POST /v1/chat/completions", inside (mock_api.complete io))].
Definition mock_mux (io : IO) : Handler St := mux.ServeHTTP redirect_page (Register io).
Definition mock_chain (io : IO) (started finished : time.Time) : Handler St :=
  middleware.Chain (mock_mux io)
    [λ next, middleware.RequestContext timestamp io (copied next);
     middleware.Recover;
     HTTPMiddleware Itoa started finished].
End MockProvider.
End Handlers.

(** *** Exits *)

(** The code a process ends with and its last line: an error of loading the
    configuration, of starting or of serving is printed; a panic is the runtime's. *)
Definition exit (out : res unit) : Z * string :=
  match out with
  | Ok _ => (0, "")
  | Err e => (1, errors.Error e +:+ app.nl)
  | Panic why => (2, "panic: " +:+ why +:+ app.nl)
  end.

(** The part the processes share: load, start, serve. [life] is how serving ended and what
    [Shutdown] answered, [close] what [closeDependencies] returns. *)
Section Run.
Context (Getenv ToUpper : string → string).
Definition run {S P} (service : string) (begin : config.Config → M S P) (close : P → option error)
  (life : app.stop * option error) : M S unit :=
  cfg ← lift (config.Load Getenv ToUpper service);
  p ← begin cfg;
  lift (match (app.Serve life.1 life.2 (Some (close p))).1 with Some e => Err e | None => Ok () end).

Section Workers.
Context `{pool.Driver} {D B : Type} `{amqp.Broker B}.
Context (lower_rune : Z → Z).
#[local] Abbreviation Outside := (list pool.Config * rabbitmq.World D B)%type.
#[local] Abbreviation process := ((app.stop * option error) → Outside → Z * string).

(** Here [closeDependencies] drops every error. *)
Definition relay_main (io : IO) (hostname : string) : process := λ life w,
  exit (run "outbox-relay" (λ cfg, outbox_relay io cfg hostname) (λ _, None) life w).1.
Definition consumer_main (io : IO) : process := λ life w,
  exit (run "audit-consumer" (audit_consumer io) (λ _, None) life w).1.
Definition worker_main (io : IO) : process := λ life w,
  exit (run "evaluation-worker" (evaluation_worker lower_rune io) (λ _, None) life w).1.
Definition api_main (io : IO) : process := λ life w,
  exit (run "evaluation-api" (evaluation_api_process io) (λ _, None) life w).1.
End Workers.

(** The mock provider has nothing to open and nothing to close. *)
Definition mock_main (life : app.stop * option error) : Z * string :=
  exit (run "mock-provider"
          (λ cfg, _ ← lift (observability.NewMetrics "mock-provider" []); mret (configured_mock cfg))
          (λ _, None) life ()).1.

(** The gateway, whose [closeDependencies] returns the error of the tracer. *)
Definition gateway_main `{openai.Transport} `{pool.Driver} (hmac_sha256 : string → string → string)
  (new_exporter : string → option error) (io : IO) (tracing : option error) (life : app.stop * option error)
  (pools : list pool.Config) : Z * string :=
  exit (run "gateway" (gateway_main.start hmac_sha256 new_exporter io)
          (λ g, (gateway_main.closeDependencies g tracing).2) life pools).1.

(** The administration command. *)
Definition admin_main `{postgres.Outside} `{pool.Driver} (hmac_sha256 : string → string → string)
  (uuid_in : string → option string) (opening io : IO) (args : list string) (st : admin.DB * list pool.Config)
  : Z * string :=
  exit (_ ← (admin.run hmac_sha256 uuid_in Getenv ToUpper opening io args st).1; mret ()).
End Run.

(** *** The health check *)

(** The exit code; [get] is the status of a GET, or the error of building or sending it. *)
Definition healthcheck (Getenv : string → string) (get : string → res Z) : Z :=
  let url := Getenv "AEGIS_HEALTHCHECK_URL" in
  let url := if url =s "" then "http://127.0.0.1:8080/health/live" else url in
  match get url with
  | Ok status => if negb (status =? 200) then 1 else 0
  | Err _ | Panic _ => 1
  end.

(** ** Readiness *)

(** A worker whose loop ended with an error makes the process unready for ever; one that
    is running, or was told to stop, leaves the answer to the database. *)
Lemma ready_exact (stopped : string) (result : option (option error)) (ping : res unit) :
  ready stopped result ping = None ↔ ping = Ok () ∧ ∀ e, result ≠ Some (Some e).
Proof. unfold ready. destruct result as [[e|]|], ping as [[]|e'|w]; simpl; naive_solver. Qed.

(** C40 (error): an evaluation worker that has lost its broker stays ready. When the
    connection breaks, the channel of deliveries is closed and the goroutines of the pool
    can all leave (each finishes the delivery it has), but [Run] goes on waiting for its
    context: from then on no delivery is ever taken again, [Run] does not return before
    the process is told to stop, and whatever happens the readiness check answers exactly
    what the database does. *)
Theorem worker_outage_unnoticed (concurrency : Z) (s : worker_pool.State) :
  rtc worker_pool.step (worker_pool.start concurrency) s → worker_pool.closed s = true →
  (∃ s', rtc worker_pool.step s s' ∧ worker_pool.idle s' = 0%nat ∧ worker_pool.busy s' = 0%nat ∧
         worker_pool.cancelled s' = worker_pool.cancelled s ∧ worker_pool.returned s' = worker_pool.returned s) ∧
  ∀ s', rtc worker_pool.step s s' →
    worker_pool.taken s' = worker_pool.taken s ∧
    (worker_pool.cancelled s' = false → worker_pool.result s' = None) ∧
    ∀ ping, ready worker_stopped (worker_pool.result s') ping = None ↔ ping = Ok ().
Proof.
  intros Hs Hc. split.
  - destruct (worker_pool.drains s) as (s' & ?); [by rewrite Hc|]. exists s'. naive_solver.
  - intros s' Hs'. split; [by eapply worker_pool.closed_takes_nothing|]. split.
    + intros Hcan. unfold worker_pool.result. destruct (worker_pool.returned s') eqn:Hr; [|done].
      destruct (worker_pool.pool_inv concurrency s') as (_ & _ & Hi); [by etrans|].
      destruct (Hi Hr). congruence.
    + intros ping. rewrite ready_exact. unfold worker_pool.result. destruct (worker_pool.returned s'); naive_solver.
Qed.

Lemma worker_outage_unnoticed_witness :
  ready worker_stopped (worker_pool.result (worker_pool.mkState 0 0 true false false 1 1)) (Ok ()) = None.
Proof.
  assert (rtc worker_pool.step (worker_pool.start 1) (worker_pool.mkState 0 1 true false false 1 0)) as Hs.
  { eapply rtc_l; [apply worker_pool.s_take|]. eapply rtc_l; [apply worker_pool.s_close|]. apply rtc_refl. }
  destruct (worker_outage_unnoticed 1 (worker_pool.mkState 0 1 true false false 1 0) Hs eq_refl) as [_ H].
  apply (H (worker_pool.mkState 0 0 true false false 1 1)); [|reflexivity].
  eapply rtc_l; [apply worker_pool.s_finish|]. eapply rtc_l; [apply worker_pool.s_leave_closed|apply rtc_refl].
Defined.

(** A process ends with code 0 exactly if it loaded, started and was shut down without an
    error, of the server or of its dependencies. *)
Lemma run_exit {S P} (Getenv ToUpper : string → string) (service : string) (begin : config.Config → M S P)
  (close : P → option error) (life : app.stop * option error) (w : S) :
  (exit (run Getenv ToUpper service begin close life w).1).1 = 0 ↔
  ∃ cfg p w', config.Load Getenv ToUpper service = Ok cfg ∧ begin cfg w = (Ok p, w') ∧
    (∀ e, life.1 ≠ app.Listen (Some e)) ∧ life.2 = None ∧ close p = None.
Proof.
  unfold run, mbind, M_bind, lift. destruct (config.Load _ _ _) as [cfg|e|why]; cbn;
    [|by split; [|intros (? & ? & ? & ? & _)]..].
  destruct (begin cfg w) as [[p|e|why] w'] eqn:Hb; cbn.
  - destruct life as [[|[e|]] [e'|]], (close p) as [e2|] eqn:Hc; cbn;
      (split; [try done; intros _; exists cfg, p, w'; naive_solver|]);
      intros (? & p' & ? & [= <-] & Hb' & Hl & ? & ?); try done; simplify_eq; congruence || by destruct (Hl e).
  - split; [done|]. intros (? & ? & ? & [= <-] & Hb' & _). congruence.
  - split; [done|]. intros (? & ? & ? & [= <-] & Hb' & _). congruence.
Qed.

(** The loops of the relay and of the consumer give up at the first error of the
    database: whatever could come later, a failed claim ends the relay and a failed
    transaction the consumer, and from then on their processes are unready, whatever the
    database says, while their liveness endpoint goes on answering. *)
Lemma loops_give_up (json_Valid : string → bool) (decode : string → res audit.Usage)
  (marshal : events.Envelope → res string) (unmarshal : string → res events.Envelope)
  (inject : IO → list (string * string)) (order : list outbox.Row → list outbox.Row) (name : string)
  (e : error) :
  (∀ (w : relay.Relay) t ticks s, io_fault (relay.tick_io t 0) 0 = Some e → relay.tick_ctx t 0 = None →
     (relay.Run json_Valid marshal inject order w (t :: ticks) s).1 = Err (Wrap "claim outbox rows" e)) ∧
  (∀ io ios c m ev, io_ctx io 0 = None → io_fault io 6 = None → io_fault io 0 = Some e →
     consumer.log c !! consumer.offset c = Some m → unmarshal (kafka.Value m) = Ok ev →
     events.Validate json_Valid ev = Ok () →
     consumer.Run json_Valid decode unmarshal name (io :: ios) c =
     (Err (Wrap ("process Kafka event " +:+ events.EventID ev) (Wrap "begin Kafka event processing" e)), c)) ∧
  (∀ stopped err ping, ready stopped (Some (Some err)) ping = Some (New stopped)) ∧
  (∀ (encode : string → string) st (w : http.Writer), http.sent w = None →
     fst <$> http.sent (health.Live encode st w).2 = Some 200).
Proof.
  split_and!.
  - intros w t ticks s Hf Hc. cbn [relay.Run]. unfold mbind, M_bind, caught, relay.runBatch.
    unfold mbind, M_bind, relay.interfere, relay.on_table, outbox.Claim. rewrite Hf. simpl.
    by rewrite Hc.
  - intros io ios c m ev Hctx H6 Hf Hm Hun Hv. cbn [consumer.Run]. unfold act. rewrite Hctx, H6, Hm.
    unfold mbind, M_bind, consumer.handle. rewrite Hun. unfold mbind, M_bind, consumer.process.
    unfold audit.ProcessKafkaEvent. rewrite Hv, Hf. by destruct c.
  - done.
  - intros encode st w Hs. unfold health.Live, mbind, M_bind, http.modify, http.write, act. simpl.
    unfold http.Write, http.WriteHeader, http.send. simpl. rewrite ?Hs. simpl.
    repeat case_match; done.
Qed.

(** The container's health check passes exactly on status 200. *)
Lemma healthcheck_exact (Getenv : string → string) (get : string → res Z) :
  healthcheck Getenv get = 0 ↔
  get (if Getenv "AEGIS_HEALTHCHECK_URL" =s "" then "http://127.0.0.1:8080/health/live"
       else Getenv "AEGIS_HEALTHCHECK_URL") = Ok 200.
Proof.
  unfold healthcheck. cbn zeta. destruct (get _) as [status|e|w]; [|done..].
  destruct (Z.eqb_spec status 200) as [->|Hne]; simpl; naive_solver.
Qed.
End processes.
